(* ===== verification/_CoqProject ===== *)
-Q . S2P
Prelude.v
StreamStatus.v
Decimal.v
Redis.v
Dedup.v
LeaderElection.v
CircuitBreaker.v
Retry.v
DeliveryGate.v
RowMapping.v
EventStore.v
Replay.v
Ingestion.v
Outbox.v
Batching.v
LongPoll.v
StellarAddress.v
SsrfGuard.v
ConnectionRegistry.v
SubscriptionRouter.v
Backpressure.v
ConnectionLimiter.v
Hub.v
RpcCache.v
StellarRpc.v
Effects.v
StreamRepository.v
Idempotency.v
StreamRoutes.v
RateLimitStore.v
ClientIp.v
RateLimiter.v
StreamEvents.v
IndexerReplay.v
WebhookDelivery.v
OutboxDispatcher.v
WebhookReceive.v
TokenBucket.v
AdminLock.v
AdminState.v
DeadLetters.v
