(* ===== verification/Prelude.v ===== *)
(** * Fluxora-Backend: a verification development

    Fluxora-Backend is a TypeScript service around payment streams on Stellar.  An
    indexer ingests contract events from the chain, stores them, survives reorgs
    and replays them; stream events are deduplicated and pushed to WebSocket and
    long-poll clients; state changes are delivered to receivers as webhooks through
    an outbox with retries, a circuit breaker and a dead-letter queue.  Several
    instances run side by side and share a Redis server and a database.

    This library models the parts that carry that logic and proves what makes them
    correct.  Definitions keep the source's names and are executable.

    ** Parts and files

    - [Prelude]: this file.  Fallible computations ([result]), JavaScript values
      and the string operations the code uses, insertion-ordered maps ([jm_get],
      [jm_set], ... for [Map]), decimal numerals, the tactics [cmp], [crush],
      [splits] and the hint databases [fluxora] and [jsmap].
    - [StreamStatus] (streams/status.ts): chain and API statuses, the transition
      table, both derivations of the reported status.  The derived status depends
      on the chain value only, terminal statuses are absorbing, the schedule moves
      the status along valid transitions only.
    - [Decimal] (serialization/decimal.ts): validation, comparison, display and
      stroop conversion.  Validation is characterised exactly, comparison is the
      sign of the difference of the denoted numbers, parsing gives the exact number
      of stroops and printing round-trips.
    - [Redis] (redis/client.ts): the client's commands as programs ([prog], and
      [hprog] when a method also shares state inside its process), the server as
      an interface with laws ([RedisServer], [RedisLaws]) with the instance
      [gredis], the interleaving of several programs with a fault at any command
      ([pool_steps], [hpool_steps]), and JSON codecs.  The clients of a Redis-backed
      store are proved against the laws, for every server that satisfies them.
    - [Dedup] (redis/dedup.ts): the in-memory, Redis and hybrid caches.  Concurrent
      calls admit a new event exactly once while Redis answers, and at least once
      whatever fails; the memory cache's window and FIFO cap are exact.
    - [LeaderElection] (indexer/leaderElection.ts): lease, fencing counter and
      heartbeat.  At most one leader per lease time under interleavings and faults;
      three theorems show where the code departs from its comments (the heartbeat
      does not renew, an outage does not revoke, the token can run ahead).
    - [CircuitBreaker] (redis/webhookCircuitBreakerStore.ts): both stores behind
      the interface [BreakerStore].  The Redis store run alone refines the
      in-memory one, concurrent checks admit one half-open probe, the breaker opens
      exactly at its threshold, and an abandoned probe is recovered as stated.
    - [Retry] (lib/retry.ts, webhooks/retry.ts): backoff, jitter and the retry loop,
      with bounds on every delay and on the number of attempts.
    - [DeliveryGate] (webhooks/retry.ts): one delivery attempt through breaker,
      rate limiter and HTTP call, over any [BreakerStore] and any rate limiter.
      Every refused item is deferred to a time in the future; a probe whose outcome
      is not reported starves the receiver.
    - [RowMapping] (db/rowMapping.ts): the strict readers of database rows.
    - [EventStore] (indexer/store.ts): insertion, rollback, replay queries and
      checkpoints of the in-memory store, with its invariant [store_wf].
    - [Replay] (ws/replay.ts): paging through [EventStore] for a client; every
      requested event is queued once, in order.
    - [Ingestion] (indexer/ingestion.ts): batch validation, rate limit, reorg
      handling and the write to [EventStore]; one hash per stored ledger is kept.
    - [Outbox] (webhooks/store.ts): deliveries, the outbox with worker leases over
      a heap of shared items, the dead-letter queue and the counters.  Leases are
      exclusive until they expire, expired ones are reclaimed, map, queues and
      counter agree.
    - [Batching] (ws/batching.ts): accumulators, timers and frames of micro-batched
      clients; nothing is lost or reordered, and the byte cap is characterised.
    - [LongPoll] (streams/longPoll.ts): the connection limiter and its knobs; the
      counters are exact and the limits hold.
    - [StellarAddress] (validation/): the StrKey decoder with its 32-bit arithmetic,
      the CRC-16 checksum, classification, and the network-aware validator.  The
      decoder is the RFC 4648 decoding, the checksum is the remainder of a
      polynomial and detects the usual typing errors, the validator rejects only
      what is malformed or confirmed absent.
    - [SsrfGuard] (webhooks/ssrfGuard.ts): parsing and classification of IP
      addresses and the verdict on a webhook target.  Accepted targets lie outside
      every blocked block, the IPv4 verdict is a table of blocks, the IPv6 verdict
      depends on the number only; one theorem shows what a second address escapes.
    - [ConnectionRegistry], [SubscriptionRouter], [Backpressure],
      [ConnectionLimiter] (ws/): the parts of the WebSocket hub.  Indexes and
      filters agree, an event resolves to exactly its subscribers, queues are
      bounded and in order, the connection cap holds under every interleaving.
    - [Hub] (ws/hub.ts, ws/connectionLifecycle.ts, ws/fanout.ts, ws/healthProbe.ts):
      their composition as a step relation.  Events reach authorized clients only,
      subscribers that keep up get them, a disconnect releases everything once.
    - [RpcCache] (redis/rpcFallbackCache.ts): the cache of last-known-good RPC
      responses; the Redis cache used alone is the in-memory cache.
    - [StellarRpc] (services/stellar-rpc.ts): the client of the RPC provider with its
      breaker, deadlines, retries, health ticks, fallback and early refresh.  What it
      serves was fetched for the same parameters and is not too old; the breaker trips
      exactly at its threshold, but a failed probe does not reopen it.

    - [Effects]: programs over an external service ([eff]): what a method that awaits
      commands does, its interleaving with others ([eff_steps]), and the proof methods
      [safe] (a call among others), [owned] (a call that owns a part of the state),
      [certain] (a call alone, whatever is answered, ends), [contends] and [spends].
    - [StreamRepository] (db/repositories/streamRepository.ts): the repository over a
      table with conditional updates and conflicts, faults, cursors, tenants and the
      encryption of addresses.  A stream is created once and ended once under any
      interleaving, statuses follow the transition table, pages are exact, a tenant
      sees its own rows only.
    - [Idempotency] (middleware/idempotency.ts, redis/idempotencyStore.ts): lock, stored
      response and fingerprint of a request.  One execution per key, and a replay is
      the stored answer of the same request.
    - [StreamRoutes] (routes/streams.ts): the handlers of the streams API over the
      repository; the export is the list of every visible stream.
    - [RateLimitStore] (redis/rateLimitStore.ts): the in-memory, Redis and hybrid sliding
      windows over pipelines on sorted sets; the limit holds for concurrent requests
      and faults, and both windows count alike.
    - [ClientIp] (middleware/clientIp.ts): the address of a client behind proxies; what a
      client sends cannot choose it.
    - [RateLimiter] (middleware/rateLimiter.ts): keys, limits and the answer of the
      request limiter over a [RateLimitStore]; the verdict is exact.
    - [StreamEvents] (services/streamEventService.ts): validated chain events are written
      by the repository and announced; every event is fanned out once, and what is
      announced is in the table.
    - [IndexerReplay] (indexer/service.ts, replay*.ts): the replay of historical events
      with its cursor, checkpoints, batches, stop requests and lease.  No cursor passes
      a row that is not stored, an undisturbed replay completes; a lost lease completes
      the cursor too.
    - [WebhookDelivery] (webhooks/delivery.ts, delivery-support.ts, payloadSchemas.ts): the
      delivery service.  A queued delivery is accepted, has a retry time or is
      dead-lettered; the gate it runs as commands is the function of [DeliveryGate].
    - [OutboxDispatcher] (webhooks/outbox-dispatcher.ts, outbox-row.ts): polls of the
      outbox table.  No row is lost before its outcome, a poll settles its batch; a
      refused endpoint blocks the queue, and a retried event is dead-lettered unsent.

    ** How the parts interact

    [DeliveryGate] is proved against the class [BreakerStore], whose instances are
    [memory_store] and [redis_store] of [CircuitBreaker]; [CircuitBreaker], [Dedup],
    [LeaderElection], [RpcCache] and [Idempotency] are clients of [Redis], and
    [StellarRpc] of [RpcCache] and of the retry loop of [Retry]; [Replay] and
    [Ingestion] call the operations of [EventStore]; [Outbox] keeps the attempts of
    [Retry].  [Hub] composes [ConnectionRegistry], [SubscriptionRouter] (which
    validates keys with [StellarAddress]), [Backpressure], [Batching] and
    [ConnectionLimiter]; the queues of [Backpressure] are proved against the classes
    [Socket] and [Teardown], of which the hub's disconnect is an instance.

    [StreamRepository], [RateLimitStore], [IndexerReplay], [WebhookDelivery] and
    [OutboxDispatcher] are programs of [Effects].  [StreamRoutes] and [StreamEvents] call
    the repository; [StreamEvents] also asks the dedup cache through its laws and
    announces the events [SubscriptionRouter] routes.  [RateLimiter] reads the client's
    address from [ClientIp] and the IPv6 lemmas of [SsrfGuard].  [IndexerReplay] decodes
    rows with [RowMapping]; its lease answers come from the environment.
    [WebhookDelivery] uses breaker and limiter through their classes and keeps
    deliveries in the store of [Outbox]; [OutboxDispatcher] runs its calls ([embed])
    between the statements of a transaction its poll owns ([owned]).

    Calls that share state are sequences of steps ([op_run], [store_run], [rate_run])
    or pools of programs whose steps interleave.

    ** Conventions and bounds

    Times are integers in milliseconds unless a comment says seconds, and an
    argument wherever the code reads the clock.  Generated ids and [Math.random()]
    are arguments.  Integers that the code keeps as JavaScript numbers are [Z]; the
    ones of the modelled parts stay below 2^53, and the readers that check for safe
    integers do so here.  Products of delays are exact rationals where the code's
    doubles round.  Strings are code units below 256.  Fuel occurs in the retry
    loop (its theorem shows that [maxAttempts] rounds are enough), in the replay
    loop (one unit per page; the theorem gives a sufficient amount), in the export
    of streams ([MAX_EXPORT_PAGES], as in the code), in the replay of the indexer (one
    unit per selected row, which its theorem shows to be enough), in the
    binary search of [Batching] (the length of the batch) and in the printing of
    numerals; in each case a theorem or lemma states that the fuel suffices.

    What is not under src/ is a parameter or an interface: the Redis server, the
    statements of PostgreSQL (with any order where the query gives none, a collation,
    and the encryption of pgcrypto), HMAC and SHA-256, base64url and JSON codecs,
    [localeCompare], [Date.parse], [Number(s)], [new URL], [isIP], the rate limiter a gate
    is given, the HTTP call, the sockets of the ws library, the DNS and RPC answers.

    ** Not modelled

    Pure I/O (HTTP routes and middleware without logic of their own, sockets, gRPC,
    connection pools), declarations for external libraries (schemas, OpenAPI,
    GraphQL), configuration, metrics, traces and logs.  In the modelled files: the
    PostgreSQL event store and the catch-up telemetry of ingestion; the Redis client's
    connection handling; the no-op idempotency store, the creation handler, HEAD and
    JSON-LD answers of the streams API; the choice of the limiter's store at start-up
    and the older middleware/redisSlidingWindow.ts; the timers that start polls.

    The PostgreSQL twin of the delivery store (webhooks/pgStore.ts) and the second
    delivery worker (webhooks/dispatcher.ts) repeat modelled behaviour over SQL. *)
From Stdlib Require Import Ascii ZArith QArith Qround Lia.
From stdpp Require Import base gmap strings list numbers.

(** ** Fallible computations

    A JavaScript function that throws is a [result]: [Ok v] when it returns
    [v], [Err e] when it throws [e].  stdpp's [x ← m; k] notation sequences
    them. *)

Inductive result (E A : Type) : Type :=
| Ok (a : A)
| Err (e : E).
Arguments Ok {E A} a.
Arguments Err {E A} e.

Definition is_ok {E A} (r : result E A) : bool :=
  match r with Ok _ => true | Err _ => false end.

#[export] Instance result_ret {E} : MRet (result E) := λ A a, Ok a.
#[export] Instance result_bind {E} : MBind (result E) :=
  λ A B f m, match m with Ok a => f a | Err e => Err e end.
#[export] Instance result_fmap {E} : FMap (result E) :=
  λ A B f m, match m with Ok a => Ok (f a) | Err e => Err e end.

Fixpoint result_map_list {E A B} (f : A → result E B) (l : list A) : result E (list B) :=
  match l with
  | [] => Ok []
  | x :: l' =>
      match f x with
      | Err e => Err e
      | Ok y => match result_map_list f l' with Ok ys => Ok (y :: ys) | Err e => Err e end
      end
  end.

(** ** JavaScript values of type [unknown] *)

Inductive jsnum : Type :=
| NumInt (z : Z)
| NumFrac (q : Q)
| NumNaN
| NumInf (negative : bool).

Inductive jsval : Type :=
| JUndefined
| JNull
| JBool (b : bool)
| JNum (n : jsnum)
| JBigInt (z : Z)
| JStr (s : string)
| JArr (l : list jsval)
| JObj (o : list (string * jsval)).

Definition js_typeof (v : jsval) : string :=
  match v with
  | JUndefined => "undefined"
  | JNull => "object"
  | JBool _ => "boolean"
  | JNum _ => "number"
  | JBigInt _ => "bigint"
  | JStr _ => "string"
  | JArr _ => "object"
  | JObj _ => "object"
  end.

(** Property read of an own property; [undefined] when absent. *)
Fixpoint js_get (o : list (string * jsval)) (k : string) : jsval :=
  match o with
  | [] => JUndefined
  | (k', v) :: o' => if bool_decide (k = k') then v else js_get o' k
  end.

(** The truth value of [if (v)]. *)
Definition js_truthy (v : jsval) : bool :=
  match v with
  | JUndefined | JNull => false
  | JBool b => b
  | JNum (NumInt z) => negb (z =? 0)%Z
  | JNum NumNaN => false
  | JNum _ => true
  | JBigInt z => negb (z =? 0)%Z
  | JStr s => match s with EmptyString => false | _ => true end
  | JArr _ | JObj _ => true
  end.

(** [v === undefined || v === null] *)
Definition js_nullish (v : jsval) : bool := match v with JUndefined | JNull => true | _ => false end.

(** ** Strings: the parts of [String.prototype] the code uses.

    A string is a list of code units; the model keeps the code units below 256. *)

Definition js_space (c : Ascii.ascii) : bool :=
  let n := Ascii.nat_of_ascii c in
  bool_decide (n = 32%nat) || (bool_decide (9 ≤ n)%nat && bool_decide (n ≤ 13)%nat)
  || bool_decide (n = 160%nat).

Fixpoint trim_start (s : string) : string :=
  match s with
  | EmptyString => EmptyString
  | String c s' => if js_space c then trim_start s' else s
  end.

Definition str_rev (s : string) : string :=
  String.string_of_list_ascii (reverse (String.list_ascii_of_string s)).

(** [s.trim()] *)
Definition js_trim (s : string) : string := str_rev (trim_start (str_rev (trim_start s))).

(** [!s] for a string: only the empty string is falsy. *)
Definition str_empty (s : string) : bool :=
  match s with EmptyString => true | _ => false end.

Definition is_digit (c : Ascii.ascii) : bool :=
  let n := Ascii.nat_of_ascii c in bool_decide (48 ≤ n)%nat && bool_decide (n ≤ 57)%nat.

Definition digit_val (c : Ascii.ascii) : Z := Z.of_nat (Ascii.nat_of_ascii c) - 48.

Definition digit_char (d : Z) : Ascii.ascii := Ascii.ascii_of_nat (48 + Z.to_nat d).

#[global] Arguments is_digit : simpl never.
#[global] Arguments digit_val : simpl never.
#[global] Arguments digit_char : simpl never.

(** The code units of a string; the components that scan a string character by
    character work on this list. *)
Notation text := (list Ascii.ascii).
Definition chars (s : string) : text := String.list_ascii_of_string s.
Definition unchars (l : text) : string := String.string_of_list_ascii l.

(** [l.indexOf(c)], [None] for [-1]. *)
Fixpoint index_of (c : Ascii.ascii) (l : text) : option nat :=
  match l with
  | [] => None
  | x :: l' => if bool_decide (x = c) then Some 0%nat else S <$> index_of c l'
  end.

(** [ws.join(sep)] *)
Fixpoint join (sep : Ascii.ascii) (ws : list text) : text :=
  match ws with
  | [] => []
  | [w] => w
  | w :: ws' => w ++ sep :: join sep ws'
  end.

(** The longest prefix satisfying [p] and the rest. *)
Fixpoint span {A} (p : A → bool) (l : list A) : list A * list A :=
  match l with
  | [] => ([], [])
  | x :: l' => if p x then let '(a, b) := span p l' in (x :: a, b) else ([], l)
  end.

(** [BigInt(l)] for a string of digits. *)
Definition digits_val (l : text) : Z := fold_left (λ acc c, (acc * 10 + digit_val c)%Z) l 0%Z.

(** [n.toString()] for an integer [n >= 0]; [fuel] bounds the number of digits. *)
Fixpoint to_digits (fuel : nat) (n : Z) (acc : text) : text :=
  match fuel with
  | O => acc
  | S fuel' =>
      let acc' := digit_char (n mod 10) :: acc in
      if (n / 10 =? 0)%Z then acc' else to_digits fuel' (n / 10) acc'
  end.

Definition nat_text (n : Z) : text := to_digits (S (Z.to_nat (Z.log2 n))) n [].

(** [z.toString()] for a [bigint], and for an integer in a template literal. *)
Definition int_text (z : Z) : text :=
  if (z <? 0)%Z then "-"%char :: nat_text (- z) else nat_text z.
Definition int_string (z : Z) : string := unchars (int_text z).

(** [l.padStart(n, c)] and [l.padEnd(n, c)]. *)
Definition pad_start (n : nat) (c : Ascii.ascii) (l : text) : text := replicate (n - length l) c ++ l.
Definition pad_end (n : nat) (c : Ascii.ascii) (l : text) : text := l ++ replicate (n - length l) c.

(** [trimStart] on the list of code units. *)
Fixpoint trim_start_text (l : text) : text :=
  match l with c :: r => if js_space c then trim_start_text r else l | [] => [] end.

(** [parseInt(s, 10)]: leading white space, a sign, the longest run of digits;
    [None] is NaN. *)
Definition parse_int10 (l : text) : option Z :=
  let l := trim_start_text l in
  let '(neg, l) :=
    match l with
    | c :: r => if bool_decide (c = "-"%char) then (true, r)
                else if bool_decide (c = "+"%char) then (false, r) else (false, l)
    | [] => (false, [])
    end in
  let '(ds, _) := span is_digit l in
  if bool_decide (ds = []) then None else Some (if neg : bool then (- digits_val ds)%Z else digits_val ds).

#[global] Arguments parse_int10 : simpl never.

(** No colon among the code units. *)
Fixpoint no_colon (s : string) : Prop :=
  match s with EmptyString => True | String a s => a ≠ ":"%char ∧ no_colon s end.

(** The double quote character, as a string. *)
Definition dquote : string := String (Ascii.ascii_of_nat 34) EmptyString.

(** ** Insertion-ordered [Map]

    [Map] keeps its entries in insertion order: [set] on a present key keeps
    the key's position, on a new key it appends; [delete] removes the entry. *)

Section js_map.
Context {K V : Type} `{EqDecision K}.

Fixpoint jm_get (k : K) (m : list (K * V)) : option V :=
  match m with
  | [] => None
  | (k', v) :: m' => if decide (k = k') then Some v else jm_get k m'
  end.

Definition jm_has (k : K) (m : list (K * V)) : bool :=
  match jm_get k m with Some _ => true | None => false end.

Fixpoint jm_set (k : K) (v : V) (m : list (K * V)) : list (K * V) :=
  match m with
  | [] => [(k, v)]
  | (k', v') :: m' => if decide (k = k') then (k, v) :: m' else (k', v') :: jm_set k v m'
  end.

Definition jm_delete (k : K) (m : list (K * V)) : list (K * V) :=
  filter (λ p, p.1 ≠ k) m.

Definition jm_wf (m : list (K * V)) : Prop := NoDup m.*1.
End js_map.

Section js_map_lemmas.
Context {K V : Type} `{EqDecision K}.
Implicit Types (m : list (K * V)) (k j : K) (v : V).

Lemma jm_get_set_eq k v m : jm_get k (jm_set k v m) = Some v.
Proof.
  induction m as [|[k' v'] m IH]; simpl; [by rewrite decide_True|].
  destruct (decide (k = k')) as [->|Hne]; simpl; [by rewrite decide_True|].
  by rewrite decide_False.
Qed.

Lemma jm_get_set_ne k j v m : k ≠ j → jm_get j (jm_set k v m) = jm_get j m.
Proof.
  intros Hne. induction m as [|[k' v'] m IH]; simpl; [by rewrite decide_False|].
  destruct (decide (k = k')) as [->|?]; simpl; [by rewrite !(decide_False (P:=j = k'))|].
  by rewrite IH.
Qed.

Lemma jm_get_delete_eq k m : jm_get k (jm_delete k m) = None.
Proof.
  unfold jm_delete. induction m as [|[k' v'] m IH]; simpl; [done|].
  rewrite filter_cons. simpl. case_decide; simpl; [|done].
  by rewrite decide_False.
Qed.

Lemma jm_get_delete_ne k j m : k ≠ j → jm_get j (jm_delete k m) = jm_get j m.
Proof.
  intros Hne. unfold jm_delete. induction m as [|[k' v'] m IH]; simpl; [done|].
  rewrite filter_cons. simpl. case_decide as Hk; simpl; [by rewrite IH|].
  subst. by rewrite decide_False.
Qed.

Lemma jm_get_None k m : jm_get k m = None ↔ k ∉ m.*1.
Proof.
  induction m as [|[k' v'] m IH]; simpl.
  - split; [intros _ Hin; inversion Hin|done].
  - rewrite not_elem_of_cons. case_decide; [naive_solver|]. rewrite IH. naive_solver.
Qed.

Lemma jm_get_elem_of k v m : jm_get k m = Some v → (k, v) ∈ m.
Proof.
  induction m as [|[k' v'] m IH]; simpl; [done|].
  case_decide; [intros [= ->]; subst; left|]. intros ?. right. auto.
Qed.

Lemma jm_elem_of_get k v m : jm_wf m → (k, v) ∈ m → jm_get k m = Some v.
Proof.
  unfold jm_wf. induction m as [|[k' v'] m IH]; simpl; [by intros _ ?%not_elem_of_nil|].
  rewrite list.NoDup_cons, elem_of_cons. intros [Hn Hd] [[= -> ->]|Hin]; [by rewrite decide_True|].
  rewrite decide_False; [by apply IH|]. intros ->. apply Hn.
  apply (list_elem_of_fmap_2 fst) in Hin. done.
Qed.

Lemma jm_set_fresh k v m : jm_get k m = None → jm_set k v m = m ++ [(k, v)].
Proof.
  induction m as [|[k' v'] m IH]; simpl; [done|].
  case_decide; [done|]. intros ?. by rewrite IH.
Qed.

Lemma jm_set_keys_present k v m : is_Some (jm_get k m) → (jm_set k v m).*1 = m.*1.
Proof.
  induction m as [|[k' v'] m IH]; simpl; [by intros [? ?]|].
  case_decide; [subst; done|]. intros ?. simpl. f_equal. by apply IH.
Qed.

Lemma jm_wf_nil : jm_wf (@nil (K * V)).
Proof. constructor. Qed.

Lemma jm_wf_set k v m : jm_wf m → jm_wf (jm_set k v m).
Proof.
  intros Hwf. destruct (jm_get k m) eqn:Hk.
  - unfold jm_wf. rewrite (jm_set_keys_present k v m); [done|by rewrite Hk].
  - unfold jm_wf. rewrite jm_set_fresh by done. rewrite fmap_app. simpl.
    apply list.NoDup_app. split; [done|]. split.
    + intros x Hx ->%list_elem_of_singleton. by apply jm_get_None in Hk.
    + apply NoDup_singleton.
Qed.

Lemma jm_wf_filter (P : K * V → Prop) `{∀ x, Decision (P x)} m :
  jm_wf m → jm_wf (filter P m).
Proof.
  unfold jm_wf. induction m as [|[k v] m IH]; simpl; [done|].
  rewrite list.NoDup_cons. intros [Hn Hd]. rewrite filter_cons. case_decide; simpl; [|auto].
  apply list.NoDup_cons. split; [|auto]. intros Hin. apply Hn.
  apply list_elem_of_fmap in Hin as [[k1 v1] [Heq [_ Hin]%list_elem_of_filter]].
  simpl in Heq; subst. by apply (list_elem_of_fmap_2 fst) in Hin.
Qed.

Lemma jm_wf_delete k m : jm_wf m → jm_wf (jm_delete k m).
Proof. apply jm_wf_filter. Qed.

Lemma elem_of_jm_delete k m j v : (j, v) ∈ jm_delete k m ↔ (j, v) ∈ m ∧ j ≠ k.
Proof. unfold jm_delete. rewrite list_elem_of_filter. naive_solver. Qed.

Lemma jm_has_spec k m : jm_has k m = true ↔ is_Some (jm_get k m).
Proof. unfold jm_has. destruct (jm_get k m); split; try done; intros [? ?]; done. Qed.

Lemma jm_delete_fresh k m : jm_get k m = None → jm_delete k m = m.
Proof.
  intros Hk%jm_get_None. unfold jm_delete. induction m as [|[k' v] m IH]; [done|].
  rewrite filter_cons. simpl in *. rewrite not_elem_of_cons in Hk. rewrite decide_True by naive_solver.
  f_equal. apply IH. naive_solver.
Qed.

Lemma jm_delete_set k v m : jm_delete k (jm_set k v m) = jm_delete k m.
Proof.
  unfold jm_delete. induction m as [|[k' v'] m IH]; simpl; [by rewrite filter_cons, decide_False by (simpl; naive_solver)|].
  destruct (decide (k = k')) as [->|Hne]; rewrite !filter_cons; simpl.
  - by rewrite !decide_False by naive_solver.
  - rewrite !decide_True by naive_solver. by rewrite IH.
Qed.

Lemma jm_length_set_fresh k v m :
  jm_get k m = None → length (jm_set k v m) = S (length m).
Proof. intros ?. rewrite jm_set_fresh by done. rewrite length_app. simpl. lia. Qed.

Lemma jm_get_app k m1 m2 :
  jm_get k (m1 ++ m2) = match jm_get k m1 with Some v => Some v | None => jm_get k m2 end.
Proof. induction m1 as [|[k' v'] m1 IH]; simpl; [done|]. by case_decide. Qed.

Lemma jm_get_filter (P : K * V → Prop) `{∀ x, Decision (P x)} k m :
  jm_wf m →
  jm_get k (filter P m) =
    match jm_get k m with Some v => if decide (P (k, v)) then Some v else None | None => None end.
Proof.
  intros Hwf. destruct (jm_get k m) as [v|] eqn:Hk.
  - case_decide as HP.
    + apply jm_elem_of_get; [by apply jm_wf_filter|].
      apply list_elem_of_filter. split; [done|]. by apply jm_get_elem_of.
    + apply jm_get_None. intros [[k1 v1] [Heq [HP' Hin]%list_elem_of_filter]]%list_elem_of_fmap.
      simpl in Heq; subst k1. apply jm_elem_of_get in Hin; [|done]. congruence.
  - apply jm_get_None in Hk. apply jm_get_None.
    intros [[k1 v1] [Heq [_ Hin]%list_elem_of_filter]]%list_elem_of_fmap.
    simpl in Heq; subst k1. by apply (list_elem_of_fmap_2 fst) in Hin.
Qed.
End js_map_lemmas.

(** ** Digits *)
Lemma digits_val_app l1 l2 :
  digits_val (l1 ++ l2) = (digits_val l1 * 10 ^ Z.of_nat (length l2) + digits_val l2)%Z.
Proof.
  unfold digits_val. rewrite fold_left_app. generalize (fold_left (λ acc c, acc * 10 + digit_val c)%Z l1 0%Z).
  induction l2 as [|c l2 IH] using rev_ind; intros z; simpl; [lia|].
  rewrite !fold_left_app, length_app; simpl. rewrite IH.
  replace (Z.of_nat (length l2 + 1)) with (Z.succ (Z.of_nat (length l2))) by lia.
  rewrite Z.pow_succ_r by lia. lia.
Qed.

Lemma digits_val_cons c l :
  digits_val (c :: l) = (digit_val c * 10 ^ Z.of_nat (length l) + digits_val l)%Z.
Proof. change (c :: l) with ([c] ++ l). by rewrite digits_val_app. Qed.

Lemma is_digit_bound c : is_digit c = true → (0 ≤ digit_val c < 10)%Z.
Proof.
  unfold is_digit, digit_val. rewrite andb_true_iff, !bool_decide_eq_true. lia.
Qed.

Lemma digits_val_bound l :
  forallb is_digit l = true → (0 ≤ digits_val l < 10 ^ Z.of_nat (length l))%Z.
Proof.
  induction l as [|c l IH]; simpl; [unfold digits_val; simpl; lia|].
  intros [Hc Hl]%andb_true_iff. specialize (IH Hl). apply is_digit_bound in Hc.
  rewrite digits_val_cons. replace (Z.of_nat (S (length l))) with (Z.succ (Z.of_nat (length l))) by lia.
  rewrite Z.pow_succ_r by lia. nia.
Qed.

Lemma digits_val_zeros n : digits_val (replicate n "0"%char) = 0%Z.
Proof. induction n as [|n IH]; [done|]. simpl. rewrite digits_val_cons, IH. done. Qed.

Lemma digit_char_spec d : (0 ≤ d < 10)%Z → is_digit (digit_char d) = true ∧ digit_val (digit_char d) = d.
Proof.
  intros Hd. unfold is_digit, digit_val, digit_char.
  rewrite !Ascii.nat_ascii_embedding by lia.
  rewrite andb_true_iff, !bool_decide_eq_true. lia.
Qed.

Lemma to_digits_spec fuel n acc :
  (0 ≤ n < 10 ^ Z.of_nat fuel)%Z → (0 < fuel)%nat → ∃ l,
  to_digits fuel n acc = l ++ acc ∧ l ≠ [] ∧ forallb is_digit l = true ∧ digits_val l = n.
Proof.
  revert n acc. induction fuel as [|fuel IH]; intros n acc Hn Hf; [lia|]. simpl.
  destruct (digit_char_spec (n mod 10)) as [Hd Hv]; [by apply Z.mod_pos_bound|].
  case_match eqn:Hz.
  - exists [digit_char (n mod 10)]. apply Z.eqb_eq in Hz. cbn [forallb app]. rewrite Hd.
    repeat split; [done|]. rewrite digits_val_cons, Hv. unfold digits_val; simpl.
    pose proof (Z.div_mod n 10). lia.
  - apply Z.eqb_neq in Hz. pose proof (Z.div_mod n 10 ltac:(lia)) as Hdm.
    assert (0 ≤ n / 10)%Z by (apply Z.div_pos; lia).
    assert (n / 10 < 10 ^ Z.of_nat fuel)%Z.
    { apply Z.div_lt_upper_bound; [lia|]. rewrite Nat2Z.inj_succ, Z.pow_succ_r in Hn by lia. lia. }
    destruct (IH (n / 10)%Z (digit_char (n mod 10) :: acc)) as (l & -> & Hl & Hdl & Hvl).
    { lia. } { destruct fuel; [|lia]. simpl in *. lia. }
    exists (l ++ [digit_char (n mod 10)]). rewrite <-app_assoc. split; [done|].
    split; [by destruct l|]. rewrite forallb_app, Hdl. cbn [forallb andb]. rewrite Hd. split; [reflexivity|].
    rewrite digits_val_app, Hvl, digits_val_cons, Hv. unfold digits_val; simpl. lia.
Qed.

Lemma nat_text_spec n :
  (0 ≤ n)%Z → nat_text n ≠ [] ∧ forallb is_digit (nat_text n) = true ∧ digits_val (nat_text n) = n.
Proof.
  intros Hn. unfold nat_text.
  destruct (to_digits_spec (S (Z.to_nat (Z.log2 n))) n []) as (l & -> & ? & ? & ?); [|lia|by rewrite app_nil_r].
  split; [done|]. destruct (decide (n = 0%Z)) as [->|]; [simpl; lia|].
  pose proof (Z.log2_spec n ltac:(lia)) as [_ Hlt]. pose proof (Z.log2_nonneg n).
  replace (Z.of_nat (S (Z.to_nat (Z.log2 n)))) with (Z.succ (Z.log2 n)) by lia.
  eapply Z.lt_le_trans; [done|]. apply Z.pow_le_mono_l. lia.
Qed.

Lemma to_digits_length fuel n acc m :
  (0 ≤ n < 10 ^ Z.of_nat m)%Z → (0 < m)%nat → (length (to_digits fuel n acc) ≤ m + length acc)%nat.
Proof.
  revert n acc m. induction fuel as [|fuel IH]; intros n acc m Hn Hm; simpl; [lia|].
  case_match eqn:Hz; [simpl; lia|]. apply Z.eqb_neq in Hz.
  assert (0 ≤ n / 10)%Z by (apply Z.div_pos; lia).
  destruct m as [|[|m]]; [lia| |].
  - rewrite Z.div_small in Hz by (simpl in Hn; lia). done.
  - assert (n / 10 < 10 ^ Z.of_nat (S m))%Z.
    { apply Z.div_lt_upper_bound; [lia|]. rewrite (Nat2Z.inj_succ (S m)), Z.pow_succ_r in Hn by lia. lia. }
    etrans; [apply (IH _ _ (S m)); [lia|lia]|]. simpl. lia.
Qed.

Lemma nat_text_length n m :
  (0 ≤ n < 10 ^ Z.of_nat m)%Z → (0 < m)%nat → (length (nat_text n) ≤ m)%nat.
Proof. intros Hn Hm. unfold nat_text. etrans; [by apply (to_digits_length _ _ _ m)|]. simpl. lia. Qed.

(** [padStart] with zeros of a number that fits gives [n] digits of the same value. *)
Lemma pad_start_digits n z :
  (0 ≤ z < 10 ^ Z.of_nat n)%Z → (0 < n)%nat →
  length (pad_start n "0"%char (int_text z)) = n ∧ forallb is_digit (pad_start n "0"%char (int_text z)) = true
  ∧ digits_val (pad_start n "0"%char (int_text z)) = z.
Proof.
  intros Hz Hn. unfold int_text. destruct (Z.ltb_spec z 0) as [|_]; [lia|].
  destruct (nat_text_spec z ltac:(lia)) as (_ & Hd & Hv). pose proof (nat_text_length z n Hz Hn).
  unfold pad_start. rewrite length_app, length_replicate, forallb_app, Hd, digits_val_app, Hv, digits_val_zeros.
  split; [lia|]. split; [|lia]. rewrite andb_true_r.
  clear. induction (n - length (nat_text z))%nat as [|k IH]; [done|]. simpl. by rewrite IH.
Qed.

Lemma chars_unchars l : chars (unchars l) = l.
Proof. apply String.list_ascii_of_string_of_list_ascii. Qed.
Lemma unchars_chars s : unchars (chars s) = s.
Proof. apply String.string_of_list_ascii_of_string. Qed.

Lemma app_inv_prefix (p a b : string) : (p ++ a = p ++ b)%string → a = b.
Proof. induction p as [|c p IH]; simpl; [done|]. intros [= ?]. auto. Qed.

Lemma app_inv_length (a b x y : string) :
  length (chars a) = length (chars b) → (a ++ x = b ++ y)%string → a = b ∧ x = y.
Proof.
  revert b. induction a as [|c a IH]; intros [|d b]; simpl; try done.
  intros [= Hl] [= -> Hr]. destruct (IH b Hl Hr) as [-> ->]. done.
Qed.

Lemma span_all {A} (p : A → bool) l r :
  forallb p l = true → match r with [] => True | x :: _ => p x = false end → span p (l ++ r) = (l, r).
Proof.
  intros Hl Hr. induction l as [|x l IH]; simpl in *.
  - destruct r as [|y r]; simpl; [done|by rewrite Hr].
  - apply andb_true_iff in Hl as [-> Hl]. by rewrite IH.
Qed.

Lemma span_spec {A} (p : A → bool) l a b :
  span p l = (a, b) →
  l = a ++ b ∧ forallb p a = true ∧ match b with [] => True | x :: _ => p x = false end.
Proof.
  revert a b. induction l as [|x l IH]; simpl; intros a b.
  - intros [= <- <-]. done.
  - destruct (p x) eqn:Hx.
    + destruct (span p l) as [a' b']. intros [= <- <-].
      destruct (IH a' b' eq_refl) as (-> & Ha & Hb). simpl. by rewrite Hx, Ha.
    + intros [= <- <-]. simpl. done.
Qed.

(** ** Trimming *)
Lemma chars_trim_start s : chars (trim_start s) = trim_start_text (chars s).
Proof. induction s as [|c s IH]; simpl; [done|]. by destruct (js_space c). Qed.

Lemma chars_rev s : chars (str_rev s) = reverse (chars s).
Proof. unfold str_rev. apply chars_unchars. Qed.

Lemma str_empty_chars s : str_empty s = bool_decide (chars s = []).
Proof. by destruct s. Qed.

Lemma trim_start_text_nil l : trim_start_text l = [] ↔ forallb js_space l = true.
Proof. induction l as [|c l IH]; simpl; [done|]. destruct (js_space c); simpl; [done|]. split; done. Qed.

Lemma trim_start_text_hd l c r : trim_start_text l = c :: r → js_space c = false.
Proof.
  induction l as [|x l IH]; simpl; [done|]. destruct (js_space x) eqn:Hx; [done|].
  intros [= -> ->]. done.
Qed.

Lemma forallb_reverse {A} (p : A → bool) l : forallb p (reverse l) = forallb p l.
Proof.
  induction l as [|x l IH]; [done|]. rewrite reverse_cons, forallb_app, IH. simpl.
  destruct (p x), (forallb p l); done.
Qed.

(** A string trims to the empty string exactly when it is all white space. *)
Lemma js_trim_empty s : str_empty (js_trim s) = forallb js_space (chars s).
Proof.
  unfold js_trim. rewrite str_empty_chars, chars_rev, chars_trim_start, chars_rev, chars_trim_start.
  apply eq_true_iff_eq. rewrite bool_decide_eq_true. split.
  - intros Hr. apply (f_equal reverse) in Hr. rewrite reverse_involutive, reverse_nil in Hr.
    apply trim_start_text_nil in Hr. rewrite forallb_reverse in Hr.
    destruct (trim_start_text (chars s)) as [|c r] eqn:Hc; [by apply trim_start_text_nil|].
    apply trim_start_text_hd in Hc. simpl in Hr. by rewrite Hc in Hr.
  - intros ->%trim_start_text_nil. done.
Qed.

(** A separator that the first part does not contain determines the parts. *)
Lemma colon_split s s' e e' :
  no_colon s → no_colon s' → (s ++ ":" ++ e = s' ++ ":" ++ e')%string → s = s' ∧ e = e'.
Proof.
  revert s'. induction s as [|a s IH]; intros [|a' s'] Hs Hs' Heq; simpl in *; simplify_eq; try naive_solver.
Qed.

Lemma digit_not_space c : is_digit c = true → js_space c = false.
Proof.
  unfold is_digit, js_space. rewrite andb_true_iff, !bool_decide_eq_true. intros [? ?].
  rewrite !orb_false_iff, andb_false_iff, !bool_decide_eq_false. lia.
Qed.

Lemma int_text_digits n : (0 ≤ n)%Z → int_text n ≠ [] ∧ forallb is_digit (int_text n) = true ∧ digits_val (int_text n) = n.
Proof. intros Hn. unfold int_text. destruct (Z.ltb_spec n 0); [lia|]. by apply nat_text_spec. Qed.

Lemma parse_int10_digits l : l ≠ [] → forallb is_digit l = true → parse_int10 l = Some (digits_val l).
Proof.
  intros Hne Hd. unfold parse_int10. destruct l as [|c r]; [done|].
  pose proof Hd as Hd'. cbn [forallb] in Hd'. apply andb_true_iff in Hd' as [Hc _].
  cbn [trim_start_text]. rewrite digit_not_space by done.
  assert (c ≠ "-"%char ∧ c ≠ "+"%char) as [? ?] by (split; intros ->; discriminate).
  rewrite !bool_decide_false by done.
  pose proof (span_all is_digit (c :: r) [] Hd I) as Hs. rewrite app_nil_r in Hs. rewrite Hs.
  by rewrite bool_decide_false by done.
Qed.

(** ** Automation *)

Create HintDb fluxora discriminated.
#[export] Hint Resolve jm_wf_nil jm_wf_set jm_wf_delete jm_wf_filter : fluxora.
Create HintDb jsmap discriminated.
#[export] Hint Rewrite @jm_get_set_eq @jm_get_delete_eq : jsmap.
#[export] Hint Rewrite @jm_get_set_ne @jm_get_delete_ne using congruence : jsmap.

(** Split every boolean comparison on integers in the goal and in the
    hypotheses into the two cases of the proposition it decides. *)
Ltac cmp :=
  repeat match goal with
  | H : context [Z.leb ?a ?b] |- _ => destruct (Z.leb_spec a b)
  | H : context [Z.ltb ?a ?b] |- _ => destruct (Z.ltb_spec a b)
  | H : context [Z.eqb ?a ?b] |- _ => destruct (Z.eqb_spec a b)
  | H : context [Z.gtb ?a ?b] |- _ => rewrite (Z.gtb_ltb a b) in H
  | H : context [Z.geb ?a ?b] |- _ => rewrite (Z.geb_leb a b) in H
  | |- context [Z.gtb ?a ?b] => rewrite (Z.gtb_ltb a b)
  | |- context [Z.geb ?a ?b] => rewrite (Z.geb_leb a b)
  | |- context [Z.leb ?a ?b] => destruct (Z.leb_spec a b)
  | |- context [Z.ltb ?a ?b] => destruct (Z.ltb_spec a b)
  | |- context [Z.eqb ?a ?b] => destruct (Z.eqb_spec a b)
  end.

(** Case analysis on every [match] scrutinee, then congruence. *)
Ltac crush := repeat (simplify_eq/=; try case_match; try case_decide; try done).

(** [split_and!] without splitting equivalences. *)
Ltac splits := repeat match goal with |- (_ ↔ _) => fail 1 | |- _ ∧ _ => apply conj end.
