(* ===== verification/StreamStatus.v ===== *)
(** * Stream status ([src/streams/status.ts])

    The chain statuses, the API statuses derived from them, the API
    transition table and the two derivations of the reported status: from a
    chain observation and from the stream's schedule.  Times are Unix seconds
    and are integers; [Date.now()] is an argument of the functions that
    default to it. *)
From Stdlib Require Import ZArith Lia.
From stdpp Require Import base strings list relations.
From S2P Require Import Prelude.
Local Open Scope string_scope.
Local Open Scope Z_scope.

(** ** Data *)

Inductive ChainStreamStatus : Type :=
| Chain_pending | Chain_active | Chain_paused | Chain_completed | Chain_cancelled | Chain_depleted.

Inductive ApiStreamStatus : Type := Api_active | Api_paused | Api_completed | Api_cancelled.

(** [ApiStreamStatus | 'unknown'] *)
Inductive ReportedStreamStatus : Type :=
| Reported (s : ApiStreamStatus)
| Reported_unknown.

#[export] Instance ChainStreamStatus_eq_dec : EqDecision ChainStreamStatus.
Proof. solve_decision. Defined.
#[export] Instance ApiStreamStatus_eq_dec : EqDecision ApiStreamStatus.
Proof. solve_decision. Defined.
#[export] Instance ReportedStreamStatus_eq_dec : EqDecision ReportedStreamStatus.
Proof. solve_decision. Defined.

(** The string literal a status stands for. *)
Definition chain_literal (s : ChainStreamStatus) : string :=
  match s with
  | Chain_pending => "pending" | Chain_active => "active" | Chain_paused => "paused"
  | Chain_completed => "completed" | Chain_cancelled => "cancelled" | Chain_depleted => "depleted"
  end.

Definition api_literal (s : ApiStreamStatus) : string :=
  match s with
  | Api_active => "active" | Api_paused => "paused"
  | Api_completed => "completed" | Api_cancelled => "cancelled"
  end.

Definition reported_literal (s : ReportedStreamStatus) : string :=
  match s with Reported s => api_literal s | Reported_unknown => "unknown" end.

Definition CHAIN_STREAM_STATUSES : list ChainStreamStatus :=
  [Chain_pending; Chain_active; Chain_paused; Chain_completed; Chain_cancelled; Chain_depleted].

Definition API_STREAM_STATUSES : list ApiStreamStatus :=
  [Api_active; Api_paused; Api_completed; Api_cancelled].

(** [isChainStreamStatus] as a type guard: the status a value narrows to. *)
Definition isChainStreamStatus (value : jsval) : option ChainStreamStatus :=
  match value with
  | JStr v => List.find (λ s, bool_decide (chain_literal s = v)) CHAIN_STREAM_STATUSES
  | _ => None
  end.

Definition isApiStreamStatus (value : jsval) : option ApiStreamStatus :=
  match value with
  | JStr v => List.find (λ s, bool_decide (api_literal s = v)) API_STREAM_STATUSES
  | _ => None
  end.

Definition isReportedStreamStatus (value : jsval) : option ReportedStreamStatus :=
  match value with
  | JStr "unknown" => Some Reported_unknown
  | _ => Reported <$> isApiStreamStatus value
  end.

(** ** Chain status to API status *)

Record StreamStatusMapping : Type := {
  sm_chainStatus : ChainStreamStatus;
  sm_status : ApiStreamStatus;
  sm_terminal : bool;
  sm_statusReason_depleted : bool;
}.

(** The row of the table: status, terminal, and whether [statusReason] is ['depleted']. *)
Definition CHAIN_TO_API_STATUS (s : ChainStreamStatus) : ApiStreamStatus * bool * bool :=
  match s with
  | Chain_pending => (Api_active, false, false)
  | Chain_active => (Api_active, false, false)
  | Chain_paused => (Api_paused, false, false)
  | Chain_completed => (Api_completed, true, false)
  | Chain_cancelled => (Api_cancelled, true, false)
  | Chain_depleted => (Api_completed, true, true)
  end.

Definition defaultChainStatusForStartTime (startTime now : Z) : ChainStreamStatus :=
  if startTime >? now then Chain_pending else Chain_active.

Definition mapChainStatusToApiStatus (chainStatus : ChainStreamStatus) : StreamStatusMapping :=
  let '(status, terminal, depleted) := CHAIN_TO_API_STATUS chainStatus in
  {| sm_chainStatus := chainStatus; sm_status := status; sm_terminal := terminal;
     sm_statusReason_depleted := depleted |}.

(** ** The API transition table *)

Definition VALID_API_TRANSITIONS (from : ApiStreamStatus) : list ApiStreamStatus :=
  match from with
  | Api_active => [Api_paused; Api_completed; Api_cancelled]
  | Api_paused => [Api_active; Api_cancelled]
  | Api_completed => []
  | Api_cancelled => []
  end.

Definition isTerminalStatus (status : ReportedStreamStatus) : bool :=
  bool_decide (status = Reported Api_completed) || bool_decide (status = Reported Api_cancelled).

Definition isValidApiTransition (from to : ApiStreamStatus) : bool :=
  bool_decide (to ∈ VALID_API_TRANSITIONS from).

(** [Ok tt] for [{ ok: true }], [Err message] for [{ ok: false; message }]. *)
Definition assertValidApiTransition (from to : ApiStreamStatus) : result string unit :=
  if isValidApiTransition from to then Ok tt
  else
    let terminal := bool_decide (length (VALID_API_TRANSITIONS from) = 0%nat) in
    Err (if terminal
         then "Stream is already " ++ api_literal from ++ " and cannot be transitioned"
         else "Cannot transition stream from '" ++ api_literal from ++ "' to '" ++ api_literal to ++ "'").

(** ** Status derived from a chain observation *)

Definition DEFAULT_MAX_STALENESS_SECONDS : Z := 5 * 60.

Record ChainStateObservation : Type := {
  obs_chainStatus : jsval;
  obs_observedAt : Z;
  obs_ledger : option Z;
  obs_now : option Z;
  obs_maxStalenessSeconds : option Z;
}.

Record DerivedStreamStatus : Type := {
  ds_status : ReportedStreamStatus;
  ds_terminal : bool;
  ds_statusReason_depleted : bool;
  ds_chainStatus : option ChainStreamStatus;
  ds_stale : bool;
  ds_ageSeconds : Z;
  ds_observedAt : Z;
  ds_ledger : option Z;
}.

Definition deriveStreamStatus (clock : Z) (observation : ChainStateObservation) : DerivedStreamStatus :=
  let now := default clock (obs_now observation) in
  let ageSeconds := Z.max 0 (now - obs_observedAt observation) in
  let maxStaleness := default DEFAULT_MAX_STALENESS_SECONDS (obs_maxStalenessSeconds observation) in
  let stale := ageSeconds >? maxStaleness in
  match isChainStreamStatus (obs_chainStatus observation) with
  | None =>
      {| ds_status := Reported_unknown; ds_terminal := false; ds_statusReason_depleted := false;
         ds_chainStatus := None; ds_stale := stale; ds_ageSeconds := ageSeconds;
         ds_observedAt := obs_observedAt observation; ds_ledger := obs_ledger observation |}
  | Some chainStatus =>
      let mapping := mapChainStatusToApiStatus chainStatus in
      {| ds_status := Reported (sm_status mapping); ds_terminal := sm_terminal mapping;
         ds_statusReason_depleted := sm_statusReason_depleted mapping;
         ds_chainStatus := Some (sm_chainStatus mapping); ds_stale := stale;
         ds_ageSeconds := ageSeconds; ds_observedAt := obs_observedAt observation;
         ds_ledger := obs_ledger observation |}
  end.

Section reported.
(** [JSON.stringify], which only occurs in an error message. *)
Context (JSON_stringify : jsval → string).

(** The message (if the report disagrees) and the derived status, which both outcomes carry. *)
Definition assertReportedStatusMatchesChain (clock : Z) (reported : ReportedStreamStatus)
    (observation : ChainStateObservation) : result string unit * DerivedStreamStatus :=
  let derived := deriveStreamStatus clock observation in
  if bool_decide (reported = ds_status derived) then (Ok tt, derived)
  else
    let because :=
      match ds_chainStatus derived with
      | None => "chain status " ++ JSON_stringify (obs_chainStatus observation)
                ++ " cannot be interpreted, so the only honest report is 'unknown'"
      | Some c => "chain status '" ++ chain_literal c ++ "' derives to '"
                  ++ reported_literal (ds_status derived) ++ "'"
      end in
    (Err ("Reported status '" ++ reported_literal reported
          ++ "' does not match the chain state: " ++ because), derived).
End reported.

(** ** Status derived from the schedule *)

Record StreamScheduleInput : Type := {
  sch_startTime : Z;
  sch_endTime : Z;
  sch_status : string;
  sch_now : option Z;
}.

Definition SCHEDULE_PRECEDENCE (s : ApiStreamStatus) : Z :=
  match s with Api_cancelled => 0 | Api_completed => 0 | Api_paused => 1 | Api_active => 2 end.

Record DerivedScheduleStatus : Type := { dss_status : ApiStreamStatus; dss_terminal : bool }.

Definition deriveStreamStatusFromSchedule (clock : Z) (input : StreamScheduleInput) : DerivedScheduleStatus :=
  let now := default clock (sch_now input) in
  let persisted := default Api_active (isApiStreamStatus (JStr (sch_status input))) in
  let cliffCrossed := sch_startTime input <=? now in
  let indefinite := sch_endTime input =? 0 in
  let matured := negb indefinite && (sch_endTime input <=? now) in
  if SCHEDULE_PRECEDENCE persisted <? SCHEDULE_PRECEDENCE Api_active
  then {| dss_status := persisted; dss_terminal := isTerminalStatus (Reported persisted) |}
  else if negb cliffCrossed then {| dss_status := Api_active; dss_terminal := false |}
  else if matured then {| dss_status := Api_completed; dss_terminal := true |}
  else {| dss_status := Api_active; dss_terminal := false |}.

(** ** Specification: the transition system the API table describes *)

Definition api_step (s t : ApiStreamStatus) : Prop := isValidApiTransition s t = true.

(** ** Lemmas *)
Lemma find_chain_literal s : isChainStreamStatus (JStr (chain_literal s)) = Some s.
Proof. by destruct s. Qed.

Lemma find_api_literal s : isApiStreamStatus (JStr (api_literal s)) = Some s.
Proof. by destruct s. Qed.

Lemma isChainStreamStatus_Some v s : isChainStreamStatus v = Some s ↔ v = JStr (chain_literal s).
Proof.
  split; [|intros ->; apply find_chain_literal].
  destruct v; simpl; try done. repeat case_bool_decide; intros; simplify_eq; done.
Qed.

Lemma isApiStreamStatus_Some v s : isApiStreamStatus v = Some s ↔ v = JStr (api_literal s).
Proof.
  split; [|intros ->; apply find_api_literal].
  destruct v; simpl; try done. repeat case_bool_decide; intros; simplify_eq; done.
Qed.

Lemma isReportedStreamStatus_literal s : isReportedStreamStatus (JStr (reported_literal s)) = Some s.
Proof. by destruct s as [[]|]. Qed.

Lemma mapChain_terminal c :
  sm_terminal (mapChainStatusToApiStatus c) = isTerminalStatus (Reported (sm_status (mapChainStatusToApiStatus c))).
Proof. by destruct c. Qed.

Lemma isTerminal_stuck s t : isTerminalStatus (Reported s) = true → ¬ api_step s t.
Proof. by destruct s, t. Qed.

Lemma nonterminal_moves s : isTerminalStatus (Reported s) = false → ∃ t, api_step s t.
Proof. destruct s; try done; intros _; by exists Api_cancelled. Qed.

Lemma assert_Ok_iff from to : assertValidApiTransition from to = Ok tt ↔ api_step from to.
Proof. unfold assertValidApiTransition, api_step. by destruct (isValidApiTransition from to). Qed.

Lemma derive_stale_mono clock clock' obs :
  clock ≤ clock' → ds_stale (deriveStreamStatus clock obs) = true →
  ds_stale (deriveStreamStatus clock' obs) = true.
Proof.
  intros Hle. unfold deriveStreamStatus.
  destruct (isChainStreamStatus _); simpl; rewrite !Z.gtb_lt; destruct (obs_now obs); simpl; lia.
Qed.

(** The schedule's answer as a function of the persisted status and the clock. *)
Lemma schedule_cases clock input :
  sch_now input = None →
  let s := default Api_active (isApiStreamStatus (JStr (sch_status input))) in
  dss_status (deriveStreamStatusFromSchedule clock input) =
    if bool_decide (s = Api_active)
    then if (sch_startTime input <=? clock) && negb (sch_endTime input =? 0) && (sch_endTime input <=? clock)
         then Api_completed else Api_active
    else s.
Proof.
  intros Hn s. subst s. unfold deriveStreamStatusFromSchedule. rewrite Hn.
  generalize (default Api_active (isApiStreamStatus (JStr (sch_status input)))). intros [].
  all: simpl; try done. cmp; simpl; try done; lia.
Qed.

(** ** Properties *)

(** the status reported for a chain observation is a function of the
    observed chain value only: it is [unknown] (non-terminal, with no chain
    status) exactly when the value is not one of the six chain literals, it
    carries the recognised chain status otherwise, and in every case the
    reported terminal flag is the one [isTerminalStatus] computes from the
    reported status, whatever the clock, age and staleness threshold. *)
Theorem derive_status_faithful clock obs :
  let d := deriveStreamStatus clock obs in
  ds_terminal d = isTerminalStatus (ds_status d) ∧
  (∀ c, ds_chainStatus d = Some c ↔ obs_chainStatus obs = JStr (chain_literal c)) ∧
  (ds_status d = Reported_unknown ↔ ∀ c, obs_chainStatus obs ≠ JStr (chain_literal c)) ∧
  (∀ c, obs_chainStatus obs = JStr (chain_literal c) →
        ds_status d = Reported (sm_status (mapChainStatusToApiStatus c))) ∧
  0 ≤ ds_ageSeconds d.
Proof.
  intros d. subst d. unfold deriveStreamStatus.
  destruct (isChainStreamStatus (obs_chainStatus obs)) as [c|] eqn:Hc; simpl.
  - apply isChainStreamStatus_Some in Hc as Hv. rewrite Hv.
    splits; [apply mapChain_terminal| | | |lia].
    + intros c'. split; [intros [= <-]; by destruct c|by destruct c, c'].
    + split; [done|]. intros Hno. by destruct (Hno c).
    + intros c'. by destruct c, c'.
  - assert (∀ c, obs_chainStatus obs ≠ JStr (chain_literal c)) as Hno.
    { intros c ?%isChainStreamStatus_Some. congruence. }
    splits; [done|naive_solver|naive_solver|naive_solver|lia].
Qed.

(** the transitions of the API table never leave a terminal status, over
    any number of steps, and terminal statuses are exactly those without a
    transition. *)
Theorem api_terminal_absorbing s t :
  rtc api_step s t →
  (isTerminalStatus (Reported s) = true → t = s) ∧
  (isTerminalStatus (Reported s) = true ↔ ∀ u, assertValidApiTransition s u ≠ Ok tt).
Proof.
  intros Hrtc. split.
  - intros Ht. destruct Hrtc as [|x y z Hxy Hyz]; [done|]. by apply isTerminal_stuck in Hxy.
  - split.
    + intros Ht u ?%assert_Ok_iff. by apply (isTerminal_stuck s u).
    + intros Hno. destruct (isTerminalStatus (Reported s)) eqn:Ht; [done|].
      apply nonterminal_moves in Ht as [u Hu%assert_Ok_iff]. by destruct (Hno u).
Qed.

Lemma api_terminal_absorbing_witness : Api_cancelled = Api_cancelled.
Proof.
  refine (proj1 (api_terminal_absorbing Api_cancelled Api_cancelled _) _); [apply rtc_refl|].
  reflexivity.
Defined.

(** a stream's schedule-derived status only moves along the API transition
    table as the clock advances: between two reads of the same stream it is
    unchanged or the change is a valid API transition, and the terminal flag
    agrees with the status at both reads. *)
Theorem schedule_status_moves_validly clock clock' input :
  sch_now input = None → clock ≤ clock' →
  let d := deriveStreamStatusFromSchedule clock input in
  let d' := deriveStreamStatusFromSchedule clock' input in
  (dss_status d' = dss_status d ∨ isValidApiTransition (dss_status d) (dss_status d') = true) ∧
  dss_terminal d = isTerminalStatus (Reported (dss_status d)) ∧
  (dss_terminal d = true → dss_terminal d' = true).
Proof.
  intros Hn Hle d d'.
  assert (∀ c, dss_terminal (deriveStreamStatusFromSchedule c input) =
    isTerminalStatus (Reported (dss_status (deriveStreamStatusFromSchedule c input)))) as Hterm.
  { intros c. unfold deriveStreamStatusFromSchedule.
    generalize (default Api_active (isApiStreamStatus (JStr (sch_status input)))). intros [].
    all: simpl; try done. cmp; done. }
  subst d d'. rewrite !Hterm, !schedule_cases by done.
  generalize (default Api_active (isApiStreamStatus (JStr (sch_status input)))). intros [].
  all: simpl; try (splits; auto; done).
  cmp; simpl; splits; auto; try done; lia.
Qed.

Lemma schedule_status_moves_validly_witness :
  let i := {| sch_startTime := 10; sch_endTime := 20; sch_status := "active"; sch_now := None |} in
  dss_status (deriveStreamStatusFromSchedule 25 i) = dss_status (deriveStreamStatusFromSchedule 15 i) ∨
  isValidApiTransition (dss_status (deriveStreamStatusFromSchedule 15 i))
                       (dss_status (deriveStreamStatusFromSchedule 25 i)) = true.
Proof. intros i. refine (proj1 (schedule_status_moves_validly 15 25 i eq_refl _)). lia. Defined.
