(* ===== verification/Decimal.v ===== *)
(** * Decimal amounts ([src/serialization/decimal.ts])

    Validation, normalisation, comparison, display and stroop conversion of
    decimal strings.  A string value is scanned as the list of its code units
    ([text]).  An amount's numeric value is stated with integers only:
    [dec_scaled s k] is the value of [s] times [10^k], for [k] at least the
    number of its fractional digits. *)
From Stdlib Require Import Ascii ZArith Lia.
From stdpp Require Import base strings list.
From S2P Require Import Prelude.
Local Open Scope string_scope.
Local Open Scope list_scope.
Local Open Scope Z_scope.

(** ** Data *)

Inductive DecimalErrorCode : Type :=
| INVALID_TYPE | INVALID_FORMAT | OUT_OF_RANGE | PRECISION_LOSS | PRECISION_EXCEEDED | EMPTY_VALUE.

Record DecimalSerializationError : Type := {
  de_code : DecimalErrorCode;
  de_message : string;
  de_field : option string;
  de_rawValue : jsval;
}.

Definition MAX_DECIMAL_INTEGER_PART : Z := 9223372036854775807.
Definition STELLAR_DECIMALS : nat := 7.
Definition STROOPS_PER_UNIT : Z := 10000000.

Definition fail (code : DecimalErrorCode) (msg : string) (f : option string) (v : jsval)
    : result DecimalSerializationError text :=
  Err {| de_code := code; de_message := msg; de_field := f; de_rawValue := v |}.

(** ** Pattern, normalisation and validation *)

Definition is_sign (c : ascii) : bool := bool_decide (c = "+"%char) || bool_decide (c = "-"%char).

(** [s.replace(/^[+-]/, '')] *)
Definition strip_sign (s : text) : text :=
  match s with c :: r => if is_sign c then r else s | [] => [] end.

(** [/^[+-]?\d+(\.\d+)?$/.test(s)] *)
Definition DECIMAL_STRING_PATTERN (s : text) : bool :=
  let '(ds, r) := span is_digit (strip_sign s) in
  match ds with
  | [] => false
  | _ :: _ =>
      match r with
      | [] => true
      | c :: f => bool_decide (c = "."%char) && negb (bool_decide (f = [])) && forallb is_digit f
      end
  end.

(** The loop of [normalizeDecimalString]: lower [end] while the unit before it
    is ['0'] and [end > dotIndex + 1]. *)
Fixpoint strip_end (value : text) (dotIndex end_ : nat) : nat :=
  match end_ with
  | O => O
  | S e =>
      if (bool_decide (dotIndex + 1 < S e)%nat && bool_decide (value !! e = Some "0"%char))
      then strip_end value dotIndex e else S e
  end.

Definition normalizeDecimalString (value : text) : text :=
  match index_of "."%char value with
  | None => value
  | Some dotIndex =>
      let end_ := strip_end value dotIndex (length value) in
      if bool_decide (end_ = (dotIndex + 1)%nat) then take dotIndex value else take end_ value
  end.

Definition field_name (f : option string) : string := default "value" f.

Definition validateDecimalString (value : jsval) (fieldName : option string)
    : result DecimalSerializationError text :=
  let named := ("Field '" +:+ field_name fieldName)%string in
  match value with
  | JUndefined | JNull =>
      fail EMPTY_VALUE (named +:+ "' cannot be null or undefined") fieldName value
  | JStr v =>
      if str_empty (js_trim v)
      then fail EMPTY_VALUE (named +:+ "' cannot be empty") fieldName value
      else if negb (DECIMAL_STRING_PATTERN (chars v))
      then fail INVALID_FORMAT
             (named +:+ "' must be a valid decimal string (e.g., " +:+ dquote +:+ "100" +:+ dquote
              +:+ ", " +:+ dquote +:+ "-50" +:+ dquote +:+ ", " +:+ dquote +:+ "0.0000001" +:+ dquote +:+ ")")
             fieldName value
      else
        let integerPart :=
          match index_of "."%char (chars v) with None => chars v | Some d => take d (chars v) end in
        if MAX_DECIMAL_INTEGER_PART <? digits_val (strip_sign integerPart)
        then fail OUT_OF_RANGE (named +:+ "' exceeds maximum supported value") fieldName value
        else Ok (normalizeDecimalString (chars v))
  | _ => fail INVALID_TYPE (named +:+ "' must be a string, received " +:+ js_typeof value) fieldName value
  end.

(** The guard every caller repeats after a successful validation. *)
Definition validated_value (value : jsval) (fieldName : option string)
    : result DecimalSerializationError text :=
  match validateDecimalString value fieldName with
  | Err e => Err e
  | Ok [] => fail EMPTY_VALUE "Validation succeeded but value is missing" fieldName value
  | Ok v => Ok v
  end.

(** [s.split('.')] for a string with at most one dot, as (first, second) parts. *)
Definition split_dot (s : text) : text * option text :=
  match index_of "."%char s with
  | None => (s, None)
  | Some d => (take d s, Some (drop (S d) s))
  end.

Definition starts_minus (s : text) : bool :=
  match s with c :: _ => bool_decide (c = "-"%char) | [] => false end.

Definition compareDecimalStringToZero (value : string) : result DecimalSerializationError Z :=
  match validated_value (JStr value) None with
  | Err e => Err e
  | Ok normalized =>
      let unsigned := strip_sign normalized in
      let '(integerPart, fractionalPart) := split_dot unsigned in
      let hasNonZeroDigit :=
        existsb (λ d, negb (bool_decide (d = "0"%char))) (integerPart ++ default [] fractionalPart) in
      if negb hasNonZeroDigit then Ok 0
      else Ok (if starts_minus normalized then -1 else 1)
  end.

(** ** Serialisation to and from JavaScript numbers *)

Section numbers.
(** [Number.prototype.toString] and [Number(string)] are floating-point
    conversions of the language; the code uses only their results. *)
Context (Number_toString : jsnum → string) (Number_of_string : text → jsnum).

Definition includes_e (s : string) : bool :=
  match index_of "e"%char (chars s) with Some _ => true | None => false end.

Definition serializeToDecimalString (value : jsval) (fieldName : option string)
    : result DecimalSerializationError text :=
  let named := ("Field '" +:+ field_name fieldName)%string in
  match value with
  | JUndefined | JNull =>
      fail EMPTY_VALUE (named +:+ "' cannot be null or undefined") fieldName value
  | JStr _ => validated_value value fieldName
  | JNum (NumNaN) | JNum (NumInf _) =>
      fail INVALID_FORMAT (named +:+ "' must be a finite number") fieldName value
  | JNum (NumFrac q) =>
      let strValue := Number_toString (NumFrac q) in
      if includes_e strValue
      then fail PRECISION_LOSS (named +:+ "' would lose precision with floating point serialization")
             fieldName value
      else Ok (chars strValue)
  | JNum (NumInt z) => Ok (chars (Number_toString (NumInt z)))
  | JBigInt z => Ok (int_text z)
  | _ => fail INVALID_TYPE (named +:+ "' must be a string, number, or BigInt") fieldName value
  end.

Definition deserializeToNumber (value : jsval) (fieldName : option string)
    : result DecimalSerializationError jsnum :=
  match validateDecimalString value fieldName with
  | Err e => Err e
  | Ok v =>
      match Number_of_string v with
      | NumNaN | NumInf _ =>
          Err {| de_code := OUT_OF_RANGE;
                 de_message := "Field '" +:+ field_name fieldName +:+ "' cannot be represented as a finite number";
                 de_field := fieldName; de_rawValue := value |}
      | n => Ok n
      end
  end.

Definition tryDeserializeToNumber (value : jsval) (fieldName : option string) : option jsnum :=
  match deserializeToNumber value fieldName with Ok n => Some n | Err _ => None end.

(** [fieldNames] are serialised in turn on a shallow copy of [obj]; the first
    failure is thrown. *)
Fixpoint serializeAmountFields (result_ : list (string * jsval)) (fieldNames : list string)
    : result DecimalSerializationError (list (string * jsval)) :=
  match fieldNames with
  | [] => Ok result_
  | fieldName :: rest =>
      match jm_get fieldName result_ with
      | None | Some JUndefined | Some JNull => serializeAmountFields result_ rest
      | Some value =>
          match serializeToDecimalString value (Some fieldName) with
          | Err e => Err e
          | Ok serialized =>
              serializeAmountFields (jm_set fieldName (JStr (unchars serialized)) result_) rest
          end
      end
  end.
End numbers.

Fixpoint validateAmountFields (obj : list (string * jsval)) (fieldNames : list string)
    : list DecimalSerializationError :=
  match fieldNames with
  | [] => []
  | fieldName :: rest =>
      match jm_get fieldName obj with
      | None | Some JUndefined | Some JNull => validateAmountFields obj rest
      | Some value =>
          match validateDecimalString value (Some fieldName) with
          | Err e => e :: validateAmountFields obj rest
          | Ok _ => validateAmountFields obj rest
          end
      end
  end.

(** ** Display *)

(** [l.replace(/\B(?=(\d{3})+(?!\d))/g, ',')] for a string of digits: a comma
    before each digit that starts a group of three counted from the end. *)
Fixpoint group_thousands (l : text) : text :=
  match l with
  | [] => []
  | c :: r =>
      if bool_decide (r ≠ []) && bool_decide (length r mod 3 = 0)%nat
      then c :: ","%char :: group_thousands r else c :: group_thousands r
  end.

Definition formatDecimalForDisplay (value : string) (decimals : nat) : text :=
  match validateDecimalString (JStr value) None with
  | Err _ => chars value
  | Ok [] => chars value
  | Ok v =>
      let '(intPart, decPart) := split_dot v in
      let sign := if starts_minus intPart then ["-"%char] else [] in
      let formattedInt := sign ++ group_thousands (strip_sign intPart) in
      if bool_decide (decimals = 0%nat) then formattedInt
      else
        let paddedDec :=
          match decPart with
          | Some (c :: d) => take decimals (pad_end decimals "0"%char (c :: d))
          | _ => replicate decimals "0"%char
          end in
        formattedInt ++ "."%char :: paddedDec
  end.

(** ** Stroops *)

Definition parseToStroops (value : string) : result DecimalSerializationError Z :=
  match validated_value (JStr value) None with
  | Err e => Err e
  | Ok v =>
      let '(p0, p1) := split_dot v in
      let integerPart := match p0 with [] => ["0"%char] | _ => p0 end in
      let decimalPart := default [] p1 in
      if bool_decide (STELLAR_DECIMALS < length decimalPart)%nat
      then Err {| de_code := PRECISION_EXCEEDED;
                  de_message := "Value exceeds maximum Stellar precision of 7 decimal places";
                  de_field := None; de_rawValue := JStr value |}
      else
        let decimalPart := pad_end STELLAR_DECIMALS "0"%char decimalPart in
        let sign := if starts_minus integerPart then -1 else 1 in
        let absIntegerPart := strip_sign integerPart in
        Ok (sign * (digits_val absIntegerPart * STROOPS_PER_UNIT + digits_val decimalPart))
  end.

Fixpoint drop_zeros (l : text) : text :=
  match l with c :: r => if bool_decide (c = "0"%char) then drop_zeros r else l | [] => [] end.

(** [l.replace(/0+$/, '')] *)
Definition trim_zeros (l : text) : text := reverse (drop_zeros (reverse l)).

Definition formatFromStroops (stroops : Z) : text :=
  let sign := if stroops <? 0 then ["-"%char] else [] in
  let absStroops := if stroops <? 0 then - stroops else stroops in
  let integerPart := absStroops / STROOPS_PER_UNIT in
  let decimalPart := absStroops mod STROOPS_PER_UNIT in
  let decimalStr := pad_start STELLAR_DECIMALS "0"%char (int_text decimalPart) in
  match trim_zeros decimalStr with
  | [] => sign ++ int_text integerPart
  | trimmed => sign ++ int_text integerPart ++ "."%char :: trimmed
  end.

(** ** Specification: the number a decimal string denotes *)

Definition dec_sign (s : text) : Z := if starts_minus s then -1 else 1.

(** The value of a well-formed decimal string, times [10^k]. *)
Definition dec_scaled (s : text) (k : nat) : Z :=
  let '(i, f) := split_dot (strip_sign s) in
  let f := default [] f in
  dec_sign s * (digits_val i * 10 ^ Z.of_nat k + digits_val f * 10 ^ Z.of_nat (k - length f)).

(** The number of fractional digits. *)
Definition dec_places (s : text) : nat := length (default [] (split_dot s).2).

(** ** The structure of a well-formed decimal string *)

(** A decimal string is a sign, an integer part and an optional fraction. *)
Definition render (sg ip : text) (fp : option text) : text :=
  sg ++ ip ++ match fp with None => [] | Some f => "."%char :: f end.

Record dec_wf (sg ip : text) (fp : option text) : Prop := {
  wf_sign : sg = [] ∨ ∃ c, sg = [c] ∧ is_sign c = true;
  wf_int : ip ≠ [] ∧ forallb is_digit ip = true;
  wf_frac : ∀ f, fp = Some f → f ≠ [] ∧ forallb is_digit f = true;
}.

Lemma digit_not_sign c : is_digit c = true → is_sign c = false.
Proof.
  unfold is_sign. intros Hd. apply orb_false_iff. rewrite !bool_decide_eq_false.
  by split; intros ->.
Qed.

Lemma digit_not_dot c : is_digit c = true → c ≠ "."%char.
Proof. by intros Hd ->. Qed.

Lemma sign_not_dot c : is_sign c = true → c ≠ "."%char.
Proof. by intros Hd ->. Qed.

Lemma pattern_view s :
  DECIMAL_STRING_PATTERN s = true → ∃ sg ip fp, s = render sg ip fp ∧ dec_wf sg ip fp.
Proof.
  unfold DECIMAL_STRING_PATTERN.
  assert (∃ sg, s = sg ++ strip_sign s ∧ (sg = [] ∨ ∃ c, sg = [c] ∧ is_sign c = true)) as (sg & Hs & Hsg).
  { destruct s as [|c r]; simpl; [by exists []; auto|].
    destruct (is_sign c) eqn:Hc; [exists [c]|exists []]; naive_solver. }
  destruct (span is_digit (strip_sign s)) as [ip r] eqn:Hsp.
  apply span_spec in Hsp as (Hr & Hip & _). rewrite Hr in Hs.
  destruct ip as [|d ip]; [done|]. destruct r as [|c f].
  - intros _. exists sg, (d :: ip), None. split; [done|]. split; naive_solver.
  - rewrite !andb_true_iff, negb_true_iff, bool_decide_eq_true, bool_decide_eq_false.
    intros [[-> Hf] Hd]. exists sg, (d :: ip), (Some f). split; [done|]. split; naive_solver.
Qed.

Lemma strip_sign_render sg ip fp : dec_wf sg ip fp → strip_sign (render sg ip fp) = render [] ip fp.
Proof.
  intros [[->|(c & -> & Hc)] [Hne Hip] _]; unfold render; simpl; [|by rewrite Hc].
  destruct ip as [|d ip]; [done|]. simpl in *. apply andb_true_iff in Hip as [Hd _].
  by rewrite (digit_not_sign d Hd).
Qed.

Lemma dec_wf_unsigned sg ip fp : dec_wf sg ip fp → dec_wf [] ip fp.
Proof. intros [? ? ?]. split; auto. Qed.

Lemma render_pattern sg ip fp : dec_wf sg ip fp → DECIMAL_STRING_PATTERN (render sg ip fp) = true.
Proof.
  intros Hwf. unfold DECIMAL_STRING_PATTERN. rewrite strip_sign_render by done.
  unfold render; simpl. destruct Hwf as [_ [Hne Hip] Hfp].
  rewrite span_all; [|done|by destruct fp].
  destruct ip; [done|]. destruct fp as [f|]; [|done].
  destruct (Hfp f eq_refl) as [Hf Hdf]. rewrite !bool_decide_eq_true_2, bool_decide_eq_false_2 by done.
  done.
Qed.

Lemma index_of_skip c l r : (∀ x, x ∈ l → x ≠ c) → index_of c (l ++ r) = Nat.add (length l) <$> index_of c r.
Proof.
  induction l as [|x l IH]; intros Hn; simpl; [by destruct (index_of c r)|].
  rewrite bool_decide_eq_false_2 by (apply Hn; left). rewrite IH by (intros; apply Hn; by right).
  by destruct (index_of c r).
Qed.

Lemma forallb_elem {A} (p : A → bool) l x : forallb p l = true → x ∈ l → p x = true.
Proof. intros Hl Hx. rewrite forallb_forall in Hl. apply Hl. by apply list_elem_of_In. Qed.

Lemma dec_wf_no_dot sg ip fp x : dec_wf sg ip fp → x ∈ sg ++ ip → x ≠ "."%char.
Proof.
  intros [Hsg [_ Hip] _] [Hx|Hx]%elem_of_app.
  - destruct Hsg as [->|(c & -> & Hc)]; [by apply not_elem_of_nil in Hx|].
    apply list_elem_of_singleton in Hx as ->. by apply sign_not_dot.
  - by apply digit_not_dot, (forallb_elem is_digit ip).
Qed.

Lemma index_of_dot_render sg ip fp :
  dec_wf sg ip fp →
  index_of "."%char (render sg ip fp) = match fp with None => None | Some _ => Some (length (sg ++ ip)) end.
Proof.
  intros Hwf. unfold render. rewrite app_assoc, index_of_skip by (by intros; eapply dec_wf_no_dot).
  destruct fp; simpl; [|done]. f_equal. lia.
Qed.

Lemma split_dot_render sg ip fp : dec_wf sg ip fp → split_dot (render sg ip fp) = (sg ++ ip, fp).
Proof.
  intros Hwf. unfold split_dot. rewrite index_of_dot_render by done. unfold render.
  destruct fp as [f|]; [|by rewrite app_nil_r].
  rewrite app_assoc, take_app_length. f_equal. f_equal.
  rewrite drop_app_ge by lia. replace (S _ - _)%nat with 1%nat by lia. done.
Qed.

Lemma starts_minus_render sg ip fp : dec_wf sg ip fp → starts_minus (render sg ip fp) = starts_minus sg.
Proof.
  intros [[->|(c & -> & Hc)] [Hne Hip] _]; [|done]. unfold render; simpl.
  destruct ip as [|d ip]; [done|]. simpl in *. apply andb_true_iff in Hip as [Hd _].
  apply bool_decide_eq_false. by intros ->.
Qed.

Lemma trim_zeros_snoc l c :
  trim_zeros (l ++ [c]) = if bool_decide (c = "0"%char) then trim_zeros l else l ++ [c].
Proof.
  unfold trim_zeros. rewrite reverse_snoc. simpl. case_bool_decide; [done|].
  by rewrite reverse_cons, reverse_involutive.
Qed.

(** The stripping loop leaves the prefix up to the dot and the trimmed fraction. *)
Lemma strip_end_spec pre f tl :
  strip_end (pre ++ "."%char :: f ++ tl) (length pre) (length pre + 1 + length f)
  = (length pre + 1 + length (trim_zeros f))%nat.
Proof.
  revert tl. induction f as [|c f IH] using rev_ind; intros tl.
  - rewrite Nat.add_comm; simpl. rewrite Nat.add_0_r, Nat.add_1_r; simpl.
    rewrite bool_decide_eq_false_2; [done|lia].
  - rewrite length_app; simpl. replace (length pre + 1 + (length f + 1))%nat with (S (length pre + 1 + length f)) by lia.
    simpl. rewrite trim_zeros_snoc.
    assert ((pre ++ "."%char :: (f ++ [c]) ++ tl) !! (length pre + 1 + length f)%nat = Some c) as ->.
    { rewrite lookup_app_r by lia. replace (_ - _)%nat with (S (length f)) by lia. simpl.
      rewrite <-app_assoc, lookup_app_r, Nat.sub_diag by lia. done. }
    rewrite (bool_decide_eq_true_2 (length pre + 1 < _)%nat) by lia. simpl.
    case_bool_decide as H0.
    + simplify_eq. rewrite bool_decide_eq_true_2 by done. rewrite <-app_assoc. by rewrite <-IH with (tl := ["0"%char] ++ tl).
    + rewrite bool_decide_eq_false_2 by congruence. rewrite length_app; simpl. lia.
Qed.

Lemma trim_zeros_split l : ∃ n, l = trim_zeros l ++ replicate n "0"%char.
Proof.
  induction l as [|c l IH] using rev_ind; [by exists 0%nat|]. rewrite trim_zeros_snoc.
  case_bool_decide as Hc; [|exists 0%nat; by rewrite app_nil_r].
  destruct IH as [n Hn]. exists (S n). rewrite replicate_S_end, app_assoc, <-Hn. by subst.
Qed.

Lemma trim_zeros_idemp l : trim_zeros (trim_zeros l) = trim_zeros l.
Proof.
  induction l as [|c l IH] using rev_ind; [done|]. rewrite trim_zeros_snoc.
  case_bool_decide as Hc; [done|]. rewrite trim_zeros_snoc. by rewrite bool_decide_eq_false_2.
Qed.

Definition norm_frac (fp : option text) : option text :=
  match fp with
  | None => None
  | Some f => match trim_zeros f with [] => None | f' => Some f' end
  end.

Lemma trim_zeros_prefix l : ∃ r, l = trim_zeros l ++ r.
Proof. destruct (trim_zeros_split l) as [n Hn]. eauto. Qed.

Lemma normalize_render sg ip fp :
  dec_wf sg ip fp → normalizeDecimalString (render sg ip fp) = render sg ip (norm_frac fp).
Proof.
  intros Hwf. unfold normalizeDecimalString. rewrite index_of_dot_render by done.
  destruct fp as [f|]; [|done]. unfold render. rewrite !app_assoc.
  pose proof (strip_end_spec (sg ++ ip) f []) as Hs. rewrite app_nil_r in Hs.
  replace (length ((sg ++ ip) ++ "."%char :: f)) with (length (sg ++ ip) + 1 + length f)%nat
    by (rewrite (length_app (sg ++ ip)); simpl; lia).
  rewrite Hs. simpl. destruct (trim_zeros f) as [|c f'] eqn:Hf.
  - rewrite bool_decide_eq_true_2 by (simpl; lia). by rewrite take_app_length, app_nil_r.
  - rewrite bool_decide_eq_false_2 by (simpl; lia).
    destruct (trim_zeros_prefix f) as [r Hr]. rewrite Hf in Hr. rewrite Hr.
    rewrite (take_app_ge (sg ++ ip)) by lia.
    replace (_ - _)%nat with (S (length (c :: f'))) by (simpl; lia).
    cbn [take]. by rewrite take_app_length.
Qed.

Lemma dec_wf_norm sg ip fp : dec_wf sg ip fp → dec_wf sg ip (norm_frac fp).
Proof.
  intros [Hsg Hip Hfp]. split; [done|done|]. intros f Hf. unfold norm_frac in Hf.
  destruct fp as [f0|]; [|done]. destruct (trim_zeros f0) as [|c f'] eqn:Ht; [done|].
  simplify_eq. split; [done|]. destruct (Hfp f0 eq_refl) as [_ Hd].
  destruct (trim_zeros_prefix f0) as [r Hr]. rewrite Hr, forallb_app, Ht in Hd.
  by apply andb_true_iff in Hd as [? _].
Qed.

Lemma norm_frac_idemp fp : norm_frac (norm_frac fp) = norm_frac fp.
Proof.
  destruct fp as [f|]; [|done]. simpl. destruct (trim_zeros f) as [|c f'] eqn:Ht; [done|].
  simpl. by rewrite <-Ht, trim_zeros_idemp, Ht.
Qed.

(** ** What validation decides *)

(** The integer part of a string that matches the pattern is in range. *)
Definition in_range (s : text) : bool :=
  digits_val (strip_sign (split_dot s).1) <=? MAX_DECIMAL_INTEGER_PART.

Lemma pattern_not_blank v : DECIMAL_STRING_PATTERN (chars v) = true → str_empty (js_trim v) = false.
Proof.
  intros Hp. apply pattern_view in Hp as (sg & ip & fp & Hs & [_ [Hne Hip] _]).
  rewrite js_trim_empty, Hs. unfold render. rewrite !forallb_app.
  destruct ip as [|d ip]; [done|]. simpl in *. apply andb_true_iff in Hip as [Hd _].
  rewrite (digit_not_space d Hd). by rewrite andb_false_r.
Qed.

Lemma split_dot_fst s :
  (split_dot s).1 = match index_of "."%char s with None => s | Some d => take d s end.
Proof. unfold split_dot. by destruct (index_of "."%char s). Qed.

Lemma validate_str v f :
  DECIMAL_STRING_PATTERN (chars v) = true → in_range (chars v) = true →
  validateDecimalString (JStr v) f = Ok (normalizeDecimalString (chars v)).
Proof.
  intros Hp Hr. unfold validateDecimalString. rewrite pattern_not_blank, Hp by done. simpl.
  unfold in_range in Hr. rewrite split_dot_fst in Hr. apply Z.leb_le in Hr.
  generalize dependent (digits_val (strip_sign (match index_of "."%char (chars v) with None => chars v | Some d => take d (chars v) end))).
  intros n Hn. by cmp; [lia|].
Qed.

Lemma validate_ok_inv v f t :
  validateDecimalString (JStr v) f = Ok t →
  DECIMAL_STRING_PATTERN (chars v) = true ∧ in_range (chars v) = true ∧ t = normalizeDecimalString (chars v).
Proof.
  unfold validateDecimalString. destruct (str_empty (js_trim v)); [done|].
  destruct (DECIMAL_STRING_PATTERN (chars v)); [simpl|done].
  unfold in_range. rewrite split_dot_fst.
  generalize (digits_val (strip_sign (match index_of "."%char (chars v) with None => chars v | Some d => take d (chars v) end))).
  intros n. case_match eqn:Hn; [done|]. intros [= <-]. splits; [done| |done]. cmp; lia.
Qed.

Lemma strip_sign_prefix sg ip : dec_wf sg ip None → strip_sign (sg ++ ip) = ip.
Proof.
  intros Hwf. pose proof (strip_sign_render _ _ _ Hwf) as Hs. unfold render in Hs.
  by rewrite !app_nil_r in Hs.
Qed.

Lemma dec_wf_int sg ip fp : dec_wf sg ip fp → dec_wf sg ip None.
Proof. intros [? ? ?]. by split. Qed.

Lemma in_range_render sg ip fp :
  dec_wf sg ip fp → in_range (render sg ip fp) = (digits_val ip <=? MAX_DECIMAL_INTEGER_PART).
Proof.
  intros Hwf. unfold in_range. rewrite split_dot_render by done. simpl.
  by rewrite strip_sign_prefix by (by eapply dec_wf_int).
Qed.

Lemma render_not_nil sg ip fp : dec_wf sg ip fp → render sg ip fp ≠ [].
Proof. intros [_ [Hne _] _]. unfold render. destruct sg, ip; done. Qed.

Lemma validated_render v f sg ip fp :
  chars v = render sg ip fp → dec_wf sg ip fp → digits_val ip <= MAX_DECIMAL_INTEGER_PART →
  validated_value (JStr v) f = Ok (render sg ip (norm_frac fp)).
Proof.
  intros Hv Hwf Hr. unfold validated_value. rewrite validate_str.
  - rewrite Hv, normalize_render by done.
    pose proof (render_not_nil _ _ _ (dec_wf_norm _ _ _ Hwf)) as Hne.
    destruct (render sg ip (norm_frac fp)); [congruence|done].
  - rewrite Hv. by apply render_pattern.
  - rewrite Hv, in_range_render by done. by apply Z.leb_le.
Qed.

Lemma dec_scaled_render sg ip fp k :
  dec_wf sg ip fp →
  dec_scaled (render sg ip fp) k =
    dec_sign sg * (digits_val ip * 10 ^ Z.of_nat k
      + digits_val (default [] fp) * 10 ^ Z.of_nat (k - length (default [] fp))).
Proof.
  intros Hwf. unfold dec_scaled. rewrite strip_sign_render by done.
  rewrite split_dot_render by (by eapply dec_wf_unsigned). simpl.
  unfold dec_sign. by rewrite starts_minus_render.
Qed.

Lemma dec_places_render sg ip fp : dec_wf sg ip fp → dec_places (render sg ip fp) = length (default [] fp).
Proof. intros Hwf. unfold dec_places. by rewrite split_dot_render. Qed.

Lemma norm_frac_default fp :
  (∀ f, fp = Some f → f ≠ []) → default [] (norm_frac fp) = trim_zeros (default [] fp).
Proof. destruct fp as [f|]; [|done]. simpl. by destruct (trim_zeros f). Qed.

(** Dropping trailing zeros of a fraction keeps the scaled value. *)
Lemma trim_zeros_value f k :
  (length f <= k)%nat →
  digits_val (trim_zeros f) * 10 ^ Z.of_nat (k - length (trim_zeros f))
  = digits_val f * 10 ^ Z.of_nat (k - length f).
Proof.
  intros Hk. destruct (trim_zeros_split f) as [n Hn].
  revert Hn Hk. generalize (trim_zeros f). intros t -> Hk.
  rewrite digits_val_app, digits_val_zeros, Z.add_0_r, length_app, !length_replicate in *.
  replace (k - length t)%nat with (n + (k - (length t + n)))%nat by lia.
  rewrite Nat2Z.inj_add, Z.pow_add_r by lia. lia.
Qed.

Lemma dec_scaled_norm sg ip fp k :
  dec_wf sg ip fp → (length (default [] fp) <= k)%nat →
  dec_scaled (render sg ip (norm_frac fp)) k = dec_scaled (render sg ip fp) k.
Proof.
  intros Hwf Hk. rewrite !dec_scaled_render by auto using dec_wf_norm.
  rewrite norm_frac_default, trim_zeros_value; [done|done|].
  intros f Hf. by apply (wf_frac _ _ _ Hwf).
Qed.

Lemma validated_ok_inv v f t :
  validated_value (JStr v) f = Ok t →
  ∃ sg ip fp, chars v = render sg ip fp ∧ dec_wf sg ip fp ∧ digits_val ip <= MAX_DECIMAL_INTEGER_PART ∧
    t = render sg ip (norm_frac fp).
Proof.
  unfold validated_value. destruct (validateDecimalString (JStr v) f) as [t'|] eqn:Hval; [|done].
  apply validate_ok_inv in Hval as (Hp & Hr & ->).
  apply pattern_view in Hp as (sg & ip & fp & Hs & Hwf).
  rewrite Hs, normalize_render by done. rewrite Hs, in_range_render in Hr by done.
  apply Z.leb_le in Hr. intros Ht. exists sg, ip, fp. splits; [done..|].
  destruct (render sg ip (norm_frac fp)); by simplify_eq.
Qed.

(** ** Comparison with zero *)
Lemma digits_zero_iff l :
  forallb is_digit l = true →
  existsb (λ d, negb (bool_decide (d = "0"%char))) l = negb (digits_val l =? 0).
Proof.
  induction l as [|c l IH]; [done|]. cbn [forallb existsb]. intros [Hc Hl]%andb_true_iff.
  rewrite IH by done. rewrite digits_val_cons.
  pose proof (is_digit_bound c Hc). pose proof (digits_val_bound l Hl).
  assert (0 < 10 ^ Z.of_nat (length l)) by (apply Z.pow_pos_nonneg; lia).
  case_bool_decide as Hz0; simpl.
  - subst. replace (digit_val "0"%char) with 0 by done. f_equal.
  - assert (digit_val c ≠ 0).
    { intros Hz. apply Hz0. unfold digit_val in Hz.
      assert (nat_of_ascii c = nat_of_ascii "0"%char) as Heq by (change (nat_of_ascii "0"%char) with 48%nat; lia).
      by rewrite <-(ascii_nat_embedding c), Heq. }
    symmetry. apply negb_true_iff, Z.eqb_neq.
    assert (0 < digit_val c * 10 ^ Z.of_nat (length l)) by (apply Z.mul_pos_pos; lia). lia.
Qed.

Lemma dec_wf_frac_digits sg ip fp : dec_wf sg ip fp → forallb is_digit (default [] fp) = true.
Proof. intros Hwf. destruct fp as [f|]; [|done]. by apply (wf_frac _ _ _ Hwf). Qed.

Lemma dec_sign_abs s : Z.abs (dec_sign s) = 1.
Proof. unfold dec_sign. by destruct (starts_minus s). Qed.

Lemma compare_render v sg ip fp :
  chars v = render sg ip fp → dec_wf sg ip fp → digits_val ip <= MAX_DECIMAL_INTEGER_PART →
  compareDecimalStringToZero v
  = Ok (Z.sgn (dec_scaled (render sg ip (norm_frac fp)) (length (default [] (norm_frac fp))))).
Proof.
  intros Hv Hwf Hr. unfold compareDecimalStringToZero.
  rewrite (validated_render v None sg ip fp) by done.
  pose proof (dec_wf_norm _ _ _ Hwf) as Hn. generalize dependent (norm_frac fp). intros fp' Hn.
  rewrite strip_sign_render, split_dot_render, starts_minus_render by eauto using dec_wf_unsigned.
  rewrite dec_scaled_render, Nat.sub_diag by done.
  pose proof (dec_wf_frac_digits _ _ _ Hn) as Hf. destruct (wf_int _ _ _ Hn) as [_ Hi].
  rewrite app_nil_l, digits_zero_iff by (rewrite forallb_app; by rewrite Hi, Hf).
  rewrite digits_val_app. pose proof (digits_val_bound _ Hi). pose proof (digits_val_bound _ Hf).
  rewrite Z.pow_0_r, Z.mul_1_r.
  assert (0 <= digits_val ip * 10 ^ Z.of_nat (length (default [] fp')) + digits_val (default [] fp')) as Hpos by nia.
  revert Hpos. generalize (digits_val ip * 10 ^ Z.of_nat (length (default [] fp')) + digits_val (default [] fp')).
  intros n Hn0. rewrite negb_involutive. unfold dec_sign. cmp; [by subst; destruct (starts_minus sg)|].
  f_equal. rewrite Z.sgn_mul, (Z.sgn_pos n) by lia. by destruct (starts_minus sg).
Qed.

(** ** Stroops *)
Lemma parse_render v sg ip fp :
  chars v = render sg ip fp → dec_wf sg ip fp → digits_val ip <= MAX_DECIMAL_INTEGER_PART →
  (length (default [] (norm_frac fp)) <= STELLAR_DECIMALS)%nat →
  parseToStroops v = Ok (dec_scaled (render sg ip (norm_frac fp)) STELLAR_DECIMALS).
Proof.
  intros Hv Hwf Hr. unfold parseToStroops. rewrite (validated_render v None sg ip fp) by done.
  pose proof (dec_wf_norm _ _ _ Hwf) as Hn. generalize dependent (norm_frac fp). intros fp' Hn Hlen.
  rewrite split_dot_render, dec_scaled_render by done.
  replace (match sg ++ ip with [] => ["0"%char] | _ => sg ++ ip end) with (sg ++ ip)
    by (destruct (wf_int _ _ _ Hn) as [? _]; destruct sg, ip; done).
  rewrite bool_decide_eq_false_2 by lia.
  rewrite strip_sign_prefix by (by eapply dec_wf_int).
  replace (starts_minus (sg ++ ip)) with (starts_minus sg).
  2: { pose proof (starts_minus_render _ _ _ (dec_wf_int _ _ _ Hn)) as Hs. unfold render in Hs.
       by rewrite app_nil_r in Hs. }
  unfold pad_end. rewrite digits_val_app, digits_val_zeros, length_replicate, Z.add_0_r. done.
Qed.

Lemma parse_too_precise v sg ip fp :
  chars v = render sg ip fp → dec_wf sg ip fp → digits_val ip <= MAX_DECIMAL_INTEGER_PART →
  (STELLAR_DECIMALS < length (default [] (norm_frac fp)))%nat →
  ∃ e, parseToStroops v = Err e ∧ de_code e = PRECISION_EXCEEDED.
Proof.
  intros Hv Hwf Hr Hlen. unfold parseToStroops. rewrite (validated_render v None sg ip fp) by done.
  rewrite split_dot_render by auto using dec_wf_norm. rewrite bool_decide_eq_true_2 by done.
  by eexists.
Qed.

(** The rendering chosen by [formatFromStroops]: no positive sign, no trailing zero. *)
Lemma format_render z :
  let f := trim_zeros (pad_start STELLAR_DECIMALS "0"%char (int_text (Z.abs z mod STROOPS_PER_UNIT))) in
  formatFromStroops z =
    render (if z <? 0 then ["-"%char] else []) (nat_text (Z.abs z / STROOPS_PER_UNIT))
      (match f with [] => None | _ => Some f end).
Proof.
  intros f. unfold formatFromStroops, render.
  assert ((if z <? 0 then - z else z) = Z.abs z) as -> by (cmp; lia).
  assert (int_text (Z.abs z / STROOPS_PER_UNIT) = nat_text (Z.abs z / STROOPS_PER_UNIT)) as ->.
  { unfold int_text. pose proof (Z.div_pos (Z.abs z) STROOPS_PER_UNIT ltac:(lia) ltac:(done)). by cmp; [lia|]. }
  fold f. destruct f; [by rewrite app_nil_r|done].
Qed.

Lemma stellar_decimals_pos : (0 < STELLAR_DECIMALS)%nat.
Proof. unfold STELLAR_DECIMALS. lia. Qed.

Lemma format_wf z :
  let f := trim_zeros (pad_start STELLAR_DECIMALS "0"%char (int_text (Z.abs z mod STROOPS_PER_UNIT))) in
  dec_wf (if z <? 0 then ["-"%char] else []) (nat_text (Z.abs z / STROOPS_PER_UNIT))
    (match f with [] => None | _ => Some f end).
Proof.
  intros f. split.
  - case_match; [right; by eexists|by left].
  - pose proof (Z.div_pos (Z.abs z) STROOPS_PER_UNIT ltac:(lia) ltac:(done)).
    by destruct (nat_text_spec (Z.abs z / STROOPS_PER_UNIT)) as (? & ? & _).
  - pose proof (Z.mod_pos_bound (Z.abs z) STROOPS_PER_UNIT eq_refl) as Hb.
    destruct (pad_start_digits STELLAR_DECIMALS _ Hb stellar_decimals_pos) as (_ & Hd & _).
    revert f Hd. generalize (pad_start STELLAR_DECIMALS "0"%char (int_text (Z.abs z mod STROOPS_PER_UNIT))).
    intros p f Hd g Hg. subst f. destruct (trim_zeros_prefix p) as [r Hr]. rewrite Hr, forallb_app in Hd.
    apply andb_true_iff in Hd as [Hd _]. destruct (trim_zeros p); by simplify_eq.
Qed.

(** The number [formatFromStroops z] denotes is [z] stroops. *)
Lemma format_scaled z : dec_scaled (formatFromStroops z) STELLAR_DECIMALS = z.
Proof.
  rewrite format_render, dec_scaled_render by apply format_wf.
  pose proof (Z.mod_pos_bound (Z.abs z) STROOPS_PER_UNIT eq_refl) as Hb.
  destruct (pad_start_digits STELLAR_DECIMALS _ Hb stellar_decimals_pos) as (Hl & _ & Hv).
  revert Hl Hv. generalize (pad_start STELLAR_DECIMALS "0"%char (int_text (Z.abs z mod STROOPS_PER_UNIT))).
  intros p Hl Hv. replace (default [] (match trim_zeros p with [] => None | _ => Some (trim_zeros p) end))
    with (trim_zeros p) by (by destruct (trim_zeros p)).
  rewrite trim_zeros_value by (by rewrite Hl). rewrite Hl, Nat.sub_diag, Hv.
  pose proof (Z.div_pos (Z.abs z) STROOPS_PER_UNIT ltac:(lia) ltac:(done)).
  destruct (nat_text_spec (Z.abs z / STROOPS_PER_UNIT)) as (_ & _ & ->); [done|].
  pose proof (Z.div_mod (Z.abs z) STROOPS_PER_UNIT ltac:(done)) as Hdm.
  change (10 ^ Z.of_nat STELLAR_DECIMALS) with STROOPS_PER_UNIT. rewrite Z.pow_0_r, Z.mul_1_r.
  unfold dec_sign. cmp; simpl starts_minus; cbv iota; lia.
Qed.

(** ** Properties *)

(** validation decides exactly the documented language: a string is accepted
    when it is a sign, digits and an optional fraction with an integer part of
    at most 2^63 - 1, and is rejected otherwise; an accepted string is returned
    in a normal form that denotes the same number and validates to itself. *)
Theorem validate_decimal_correct v f :
  match validateDecimalString (JStr v) f with
  | Ok t =>
      DECIMAL_STRING_PATTERN (chars v) = true ∧ in_range (chars v) = true ∧
      (∀ k, (dec_places (chars v) <= k)%nat → dec_scaled t k = dec_scaled (chars v) k) ∧
      validateDecimalString (JStr (unchars t)) f = Ok t
  | Err e =>
      (DECIMAL_STRING_PATTERN (chars v) && in_range (chars v) = false) ∧
      (de_code e = OUT_OF_RANGE ↔ DECIMAL_STRING_PATTERN (chars v) = true)
  end.
Proof.
  destruct (validateDecimalString (JStr v) f) as [t|e] eqn:Hval.
  - apply validate_ok_inv in Hval as (Hp & Hr & ->). splits; [done|done| |].
    + intros k Hk. apply pattern_view in Hp as (sg & ip & fp & Hs & Hwf).
      rewrite Hs, dec_places_render in Hk by done. rewrite Hs, normalize_render by done.
      by apply dec_scaled_norm.
    + apply pattern_view in Hp as (sg & ip & fp & Hs & Hwf).
      pose proof (dec_wf_norm _ _ _ Hwf) as Hn.
      rewrite Hs, in_range_render in Hr by done. rewrite Hs, normalize_render by done.
      rewrite validate_str; rewrite ?chars_unchars.
      * by rewrite normalize_render, norm_frac_idemp.
      * by apply render_pattern.
      * by rewrite in_range_render.
  - destruct (DECIMAL_STRING_PATTERN (chars v)) eqn:Hp.
    + destruct (in_range (chars v)) eqn:Hr; [by rewrite validate_str in Hval|].
      split; [done|]. split; [done|intros _]. revert Hval. unfold validateDecimalString.
      rewrite pattern_not_blank, Hp by done. simpl. unfold in_range in Hr. rewrite split_dot_fst in Hr.
      revert Hr. generalize (digits_val (strip_sign (match index_of "."%char (chars v) with None => chars v | Some d => take d (chars v) end))).
      intros n Hr. apply Z.leb_gt in Hr. cmp; [|lia]. by intros [= <-].
    + split; [done|]. split; [|done]. revert Hval. unfold validateDecimalString. rewrite Hp. simpl.
      by destruct (str_empty (js_trim v)); intros [= <-].
Qed.

(** the sign test on decimal strings is the sign of the number the string
    denotes, for every string that validates; any other string is refused with
    the validation error. *)
Theorem compare_decimal_is_sign v :
  match validated_value (JStr v) None with
  | Ok t => compareDecimalStringToZero v = Ok (Z.sgn (dec_scaled t (dec_places t)))
  | Err e => compareDecimalStringToZero v = Err e
  end.
Proof.
  destruct (validated_value (JStr v) None) as [t|e] eqn:Hval; [|by unfold compareDecimalStringToZero; rewrite Hval].
  apply validated_ok_inv in Hval as (sg & ip & fp & Hs & Hwf & Hr & ->).
  rewrite dec_places_render by auto using dec_wf_norm. by apply compare_render.
Qed.

(** conversion to stroops is exact: it returns the value of the string times
    10^7 for every valid string whose normalised fraction has at most seven
    digits, PRECISION_EXCEEDED for a longer fraction, and the validation error
    for any other string. *)
Theorem parse_stroops_exact v :
  match validated_value (JStr v) None with
  | Ok t =>
      if bool_decide (dec_places t <= STELLAR_DECIMALS)%nat
      then parseToStroops v = Ok (dec_scaled t STELLAR_DECIMALS)
      else ∃ e, parseToStroops v = Err e ∧ de_code e = PRECISION_EXCEEDED
  | Err e => parseToStroops v = Err e
  end.
Proof.
  destruct (validated_value (JStr v) None) as [t|e] eqn:Hval; [|by unfold parseToStroops; rewrite Hval].
  apply validated_ok_inv in Hval as (sg & ip & fp & Hs & Hwf & Hr & ->).
  rewrite dec_places_render by auto using dec_wf_norm. case_bool_decide.
  - by apply parse_render.
  - apply (parse_too_precise v sg ip fp); [done..|lia].
Qed.

(** C20: printing a number of stroops and parsing it back gives the same number,
    for every amount whose integer part is at most 2^63 - 1; the printed string
    denotes the amount for every [z]. *)
Theorem stroops_roundtrip z :
  dec_scaled (formatFromStroops z) STELLAR_DECIMALS = z ∧
  (Z.abs z / STROOPS_PER_UNIT <= MAX_DECIMAL_INTEGER_PART →
   parseToStroops (unchars (formatFromStroops z)) = Ok z).
Proof.
  split; [apply format_scaled|]. intros Hr.
  pose proof (format_scaled z) as Hz. rewrite format_render in *.
  pose proof (format_wf z) as Hwf. cbv zeta in *.
  set (p := pad_start _ _ _) in *. set (sg := if z <? 0 then _ else _) in *.
  pose proof (Z.div_pos (Z.abs z) STROOPS_PER_UNIT ltac:(lia) ltac:(done)) as Hp0.
  destruct (nat_text_spec (Z.abs z / STROOPS_PER_UNIT) Hp0) as (_ & _ & Hv).
  set (ip := nat_text _) in *.
  assert (norm_frac (match trim_zeros p with [] => None | _ => Some (trim_zeros p) end)
          = match trim_zeros p with [] => None | _ => Some (trim_zeros p) end) as Hnorm.
  { destruct (trim_zeros p) as [|c t] eqn:Ht; [done|]. simpl. by rewrite <-Ht, trim_zeros_idemp, Ht. }
  rewrite (parse_render _ sg ip (match trim_zeros p with [] => None | _ => Some (trim_zeros p) end));
    [by rewrite Hnorm, Hz|apply chars_unchars|done|by rewrite Hv|].
  rewrite Hnorm. pose proof (Z.mod_pos_bound (Z.abs z) STROOPS_PER_UNIT eq_refl) as Hb.
  destruct (pad_start_digits STELLAR_DECIMALS _ Hb stellar_decimals_pos) as (Hl & _ & _). fold p in Hl.
  destruct (trim_zeros_prefix p) as [r Hr']. apply (f_equal length) in Hr'. rewrite length_app in Hr'.
  destruct (trim_zeros p); simpl in *; lia.
Qed.

Lemma stroops_roundtrip_witness :
  parseToStroops (unchars (formatFromStroops (-12345670))) = Ok (-12345670).
Proof. apply (stroops_roundtrip (-12345670)). vm_compute. discriminate. Defined.
