(* ===== verification/Redis.v ===== *)
(** * The Redis client interface ([src/redis/client.ts], interface [RedisClient])

    The code calls the Redis server one command at a time and awaits each
    reply, so a method of a Redis-backed store is a [prog]: a tree of commands
    whose continuation receives the reply or the rejection.  [run] executes it
    alone on a server; [pool_step] interleaves the commands of several
    processes and may fail any of them, before or after the server executed it.
    A method that also shares state inside its process is an [hprog].

    The server itself is not part of the repository: [RedisServer] is its
    interface and [RedisLaws] the documented behaviour of the commands, over
    the key's value as seen at a time ([srv_view]).  [gredis] is one server
    that satisfies the laws. *)
From Stdlib Require Import Ascii ZArith Lia.
From stdpp Require Import base gmap strings list.
From S2P Require Import Prelude.
Local Open Scope string_scope.
Local Open Scope list_scope.
Local Open Scope Z_scope.

(** ** Commands and programs *)

(** The commands of [RedisClient] the modelled stores use.  [ex] is in seconds
    and [px] in milliseconds; [pxat] is a point in time. *)
Inductive rcmd : Type → Type :=
| RGet (key : string) : rcmd (option string)
| RSet (key value : string) (ex : Z) : rcmd unit
| RSetPxat (key value : string) (pxat : Z) : rcmd unit
| RSetNx (key value : string) (px : Z) : rcmd bool
| RDel (key : string) : rcmd unit
| RExists (key : string) : rcmd bool
| RIncr (key : string) : rcmd Z.

(** [assertPositiveInteger] and [assertNonNegativeInteger] on the expiry arguments:
    the client rejects the command before it reaches the server. *)
Definition client_accepts {X} (c : rcmd X) : bool :=
  match c with
  | RSet _ _ ex => 0 <? ex
  | RSetPxat _ _ pxat => 0 <=? pxat
  | RSetNx _ _ px => 0 <? px
  | _ => true
  end.

Inductive prog (A : Type) : Type :=
| Ret (a : A)
| Cmd {X : Type} (c : rcmd X) (k : result string X → prog A).
Arguments Ret {A} a.
Arguments Cmd {A X} c k.

(** [x = await client.c(); ...] inside a [try]: [h] is the [catch] branch. *)
Definition awaiting {A X} (c : rcmd X) (h : string → prog A) (k : X → prog A) : prog A :=
  Cmd c (λ r, match r with Ok x => k x | Err e => h e end).

(** ** Servers *)

Class RedisServer (R : Type) := {
  srv_exec : ∀ {X}, Z → rcmd X → R → X * R;
  srv_view : Z → R → string → option string;
}.

(** The value an integer key holds: [INCR] reads a missing key as 0. *)
Definition int_value (v : option string) : option Z :=
  match v with
  | None => Some 0
  | Some s => if forallb is_digit (chars s) && negb (str_empty s) then Some (digits_val (chars s)) else None
  end.

(** Documented behaviour of the commands, executed at server time [t]. *)
Class RedisLaws (R : Type) `{RedisServer R} := {
  law_get t k r : srv_exec t (RGet k) r = (srv_view t r k, r);
  law_exists t k r : srv_exec t (RExists k) r = (bool_decide (is_Some (srv_view t r k)), r);
  law_set t k v ex r t' j : t <= t' →
    srv_view t' (srv_exec t (RSet k v ex) r).2 j =
      if decide (j = k) then (if t' <? t + 1000 * ex then Some v else None) else srv_view t' r j;
  law_setpxat t k v pxat r t' j : t <= t' →
    srv_view t' (srv_exec t (RSetPxat k v pxat) r).2 j =
      if decide (j = k) then (if t' <? pxat then Some v else None) else srv_view t' r j;
  law_setnx_held t k v px r : is_Some (srv_view t r k) → srv_exec t (RSetNx k v px) r = (false, r);
  law_setnx_free t k v px r : srv_view t r k = None → (srv_exec t (RSetNx k v px) r).1 = true;
  law_setnx_view t k v px r t' j : srv_view t r k = None → t <= t' →
    srv_view t' (srv_exec t (RSetNx k v px) r).2 j =
      if decide (j = k) then (if t' <? t + px then Some v else None) else srv_view t' r j;
  law_del t k r t' j : t <= t' →
    srv_view t' (srv_exec t (RDel k) r).2 j = if decide (j = k) then None else srv_view t' r j;
  law_incr t k r n : int_value (srv_view t r k) = Some n → 0 <= n →
    (srv_exec t (RIncr k) r).1 = n + 1 ∧
    (∀ t', t <= t' → srv_view t' (srv_exec t (RIncr k) r).2 k =
       if decide (is_Some (srv_view t r k) ∧ srv_view t' r k = None) then None
       else Some (int_string (n + 1))) ∧
    (∀ t' j, j ≠ k → srv_view t' (srv_exec t (RIncr k) r).2 j = srv_view t' r j);
  (** A value stays until it expires, and does not reappear. *)
  law_view_mono t t' r k : t <= t' → srv_view t' r k = None ∨ srv_view t' r k = srv_view t r k;
}.

(** ** Execution *)

Section run.
Context {R : Type} `{RedisServer R}.

(** The program alone, every command at time [t], on a server that answers. *)
Fixpoint run {A} (t : Z) (p : prog A) (r : R) : A * R :=
  match p with
  | Ret a => (a, r)
  | Cmd c k =>
      if client_accepts c
      then let '(x, r') := srv_exec t c r in run t (k (Ok x)) r'
      else run t (k (Err "must be a positive integer")) r
  end.

(** The program alone, every command rejected. *)
Fixpoint run_down {A} (p : prog A) : A :=
  match p with Ret a => a | Cmd c k => run_down (k (Err "connection lost")) end.

(** What can happen to a command: it is answered, it is rejected before it
    reaches the server, or it is executed and its reply is lost. *)
Inductive fault : Type := NoFault | Rejected (e : string) | ReplyLost (e : string).

(** The next command of a program, at server time [t]. *)
Definition prog_step {A} (t : Z) (f : fault) (p : prog A) (r : R) : option (prog A * R) :=
  match p with
  | Ret _ => None
  | Cmd c k =>
      if client_accepts c then
        match f with
        | NoFault => let '(x, r') := srv_exec t c r in Some (k (Ok x), r')
        | Rejected e => Some (k (Err e), r)
        | ReplyLost e => Some (k (Err e), (srv_exec t c r).2)
        end
      else Some (k (Err "must be a positive integer"), r)
  end.

(** One command of one of several concurrent programs. *)
Inductive pool_step {A} (t : Z) : list (prog A) * R → list (prog A) * R → Prop :=
| pool_step_at i f ps p r p' r' :
    ps !! i = Some p → prog_step t f p r = Some (p', r') → pool_step t (ps, r) (<[i := p']> ps, r').

(** Steps in the order of the server's clock, all between [lo] and [hi]. *)
Inductive pool_steps {A} : Z → Z → list (prog A) * R → list (prog A) * R → Prop :=
| steps_nil lo hi s : pool_steps lo hi s s
| steps_cons lo hi t s1 s2 s3 :
    lo <= t <= hi → pool_step t s1 s2 → pool_steps t hi s2 s3 → pool_steps lo hi s1 s3.
End run.

(** ** Running a program command by command *)

Section run_lemmas.
Context {R : Type} `{RedisLaws R}.

Lemma run_awaiting {A X} t (c : rcmd X) h (k : X → prog A) r :
  client_accepts c = true → run t (awaiting c h k) r = run t (k (srv_exec t c r).1) (srv_exec t c r).2.
Proof. intros Hc. unfold awaiting. simpl. rewrite Hc. by destruct (srv_exec t c r). Qed.

Lemma run_get {A} t k h (f : option string → prog A) r :
  run t (awaiting (RGet k) h f) r = run t (f (srv_view t r k)) r.
Proof. rewrite run_awaiting by done. by rewrite law_get. Qed.

Lemma run_setnx {A} t k v px h (f : bool → prog A) r :
  0 < px →
  run t (awaiting (RSetNx k v px) h f) r =
    if bool_decide (is_Some (srv_view t r k)) then run t (f false) r
    else run t (f true) (srv_exec t (RSetNx k v px) r).2.
Proof.
  intros Hpx. rewrite run_awaiting by (simpl; cmp; lia || done). case_bool_decide as Hv.
  - by rewrite law_setnx_held.
  - rewrite law_setnx_free; [done|]. by apply eq_None_not_Some.
Qed.

(** [SET NX] changes no other key. *)
Lemma view_other_setnx t k v px r t' j :
  t <= t' → j ≠ k → srv_view t' (srv_exec t (RSetNx k v px) r).2 j = srv_view t' r j.
Proof.
  intros Ht Hj. destruct (srv_view t r k) eqn:Hv.
  - by rewrite law_setnx_held by eauto.
  - rewrite law_setnx_view by done. by rewrite decide_False.
Qed.

(** [SET NX] removes no key. *)
Lemma setnx_keeps t k v px r t' j :
  t <= t' → is_Some (srv_view t' r j) → is_Some (srv_view t' (srv_exec t (RSetNx k v px) r).2 j).
Proof.
  intros Ht Hj. destruct (srv_view t r k) eqn:Hv; [by rewrite law_setnx_held by eauto|].
  rewrite law_setnx_view by done. case_decide; [subst|done].
  destruct (law_view_mono t t' r k Ht) as [Hm|Hm]; rewrite Hm in Hj; [by destruct Hj|].
  rewrite Hv in Hj. by destruct Hj.
Qed.

End run_lemmas.
#[global] Arguments run : simpl never.

(** ** Programs with process-local state *)

(** A method that also reads and writes the state [S] of its process, which other
    calls of the process share: each access is one step and reads the clock. *)
Inductive hprog (S A : Type) : Type :=
| HRet (a : A)
| HRedis {X : Type} (c : rcmd X) (k : result string X → hprog S A)
| HMem {X : Type} (f : Z → S → X * S) (k : X → hprog S A).
Arguments HRet {S A} a.
Arguments HRedis {S A X} c k.
Arguments HMem {S A X} f k.

(** A call of a Redis-backed store inside such a method. *)
Fixpoint redis_calls {S A B} (p : prog B) (k : B → hprog S A) : hprog S A :=
  match p with Ret b => k b | Cmd c kc => HRedis c (λ r, redis_calls (kc r) k) end.

Section local_state.
Context {R S : Type} `{RedisServer R}.

(** The reply to one command under a fault. *)
Definition reply {X} (t : Z) (f : fault) (c : rcmd X) (r : R) : result string X * R :=
  if client_accepts c then
    match f with
    | NoFault => let '(x, r') := srv_exec t c r in (Ok x, r')
    | Rejected e => (Err e, r)
    | ReplyLost e => (Err e, (srv_exec t c r).2)
    end
  else (Err "must be a positive integer", r).

(** The next action of a call, at time [t]. *)
Definition hstep {A} (t : Z) (f : fault) (p : hprog S A) (s : S) (r : R) : option (hprog S A * S * R) :=
  match p with
  | HRet _ => None
  | HMem g k => let '(x, s') := g t s in Some (k x, s', r)
  | HRedis c k => let '(x, r') := reply t f c r in Some (k x, s, r')
  end.

(** The call alone, every action at time [t] under the fault [f]. *)
Fixpoint hrun {A} (t : Z) (f : fault) (p : hprog S A) (s : S) (r : R) : A * S * R :=
  match p with
  | HRet a => (a, s, r)
  | HMem g k => let '(x, s') := g t s in hrun t f (k x) s' r
  | HRedis c k => let '(x, r') := reply t f c r in hrun t f (k x) s r'
  end.

(** Calls with the process each runs in, the state of each process, the server. *)
Notation hpool A := (list (nat * hprog S A) * list S * R)%type.

Inductive hpool_step {A} (t : Z) (f : fault) : hpool A → hpool A → Prop :=
| hpool_step_at i j ps ss r p s p' s' r' :
    ps !! i = Some (j, p) → ss !! j = Some s → hstep t f p s r = Some (p', s', r') →
    hpool_step t f (ps, ss, r) (<[i := (j, p')]> ps, <[j := s']> ss, r').

(** Steps in clock order between [lo] and [hi] with the faults [ok] allows. *)
Inductive hpool_steps {A} (ok : fault → Prop) : Z → Z → hpool A → hpool A → Prop :=
| hsteps_nil lo hi s : hpool_steps ok lo hi s s
| hsteps_cons lo hi t f s1 s2 s3 :
    lo <= t <= hi → ok f → hpool_step t f s1 s2 → hpool_steps ok t hi s2 s3 → hpool_steps ok lo hi s1 s3.
End local_state.

(** The call at [i] makes its next step at time [t] under fault [f]. *)
Ltac call_step t f i :=
  eapply (hsteps_cons _ _ _ t f); [lia|done|eapply (hpool_step_at _ _ i); reflexivity|].

(** ** Invariants of pools

    A call is safe when whatever it does keeps an invariant [I] of the server and
    [J] of its process, and its result satisfies [Q], for every reply an invariant
    server can give and every time from [lo] on.  In a pool of safe calls the
    invariants hold throughout. *)
Section safe.
Context {R S : Type} `{RedisServer R} (I : Z → R → Prop) (J : Z → S → Prop).

Fixpoint hsafe {A} (Q : A → Prop) (lo : Z) (p : hprog S A) : Prop :=
  match p with
  | HRet a => Q a
  | HRedis c k => ∀ t f r, lo <= t → I t r → I t (reply t f c r).2 ∧ hsafe Q t (k (reply t f c r).1)
  | HMem g k => ∀ t s, lo <= t → J t s → J t (g t s).2 ∧ hsafe Q t (k (g t s).1)
  end.

Lemma hsafe_later {A} (Q : A → Prop) lo lo' (p : hprog S A) : lo <= lo' → hsafe Q lo p → hsafe Q lo' p.
Proof.
  intros Hle. destruct p; cbn [hsafe]; [done| |]; intros Hs.
  - intros t f r Ht. apply Hs. lia.
  - intros t s Ht. apply Hs. lia.
Qed.

Lemma hsafe_weaken {A} (Q Q' : A → Prop) lo (p : hprog S A) : (∀ a, Q a → Q' a) → hsafe Q lo p → hsafe Q' lo p.
Proof.
  intros HQ. revert lo. induction p as [a|X c k IH|X g k IH]; intros lo; cbn [hsafe]; [apply HQ| |].
  - intros Hs t f r Ht Hr. destruct (Hs t f r Ht Hr). split; [done|by apply IH].
  - intros Hs t s Ht Hj. destruct (Hs t s Ht Hj). split; [done|by apply IH].
Qed.

Lemma hpool_safe {A} (ok : fault → Prop) (Q : nat → A → Prop) lo hi ps ss r q :
  (∀ t t' r, t <= t' → I t r → I t' r) → (∀ t t' s, t <= t' → J t s → J t' s) →
  (∀ i j p, ps !! i = Some (j, p) → hsafe (Q i) lo p) → (∀ j s, ss !! j = Some s → J lo s) → I lo r →
  hpool_steps ok lo hi (ps, ss, r) q →
  ∃ t, lo <= t ∧ (∀ i j p, q.1.1 !! i = Some (j, p) → hsafe (Q i) t p) ∧
    (∀ j s, q.1.2 !! j = Some s → J t s) ∧ I t q.2.
Proof.
  intros HI HJ Hp Hs Hr Hsteps. remember (ps, ss, r) as q0 eqn:Hq0. revert ps ss r Hq0 Hp Hs Hr.
  induction Hsteps as [lo hi q|lo hi t f q1 q2 q3 Ht Hf Hstep Hsteps IH]; intros ps ss r -> Hp Hs Hr.
  { exists lo. splits; [lia|done|done|done]. }
  inversion Hstep as [i j ? ? ? p s p' s' r' Hi Hj Hh]; subst.
  assert (I t r' ∧ J t s' ∧ hsafe (Q i) t p') as (Hr' & Hs' & Hp').
  { pose proof (HI _ _ _ (proj1 Ht) Hr) as Hr1. pose proof (HJ _ _ _ (proj1 Ht) (Hs j s Hj)) as Hs1.
    pose proof (Hp i j p Hi) as Hsf. destruct p as [a|X c k|X g k]; cbn [hstep hsafe] in *; [done| |].
    - destruct (Hsf t f r (proj1 Ht) Hr1) as [H1 H2]. destruct (reply t f c r) as [x r1]. by simplify_eq/=.
    - destruct (Hsf t s (proj1 Ht) Hs1) as [H1 H2]. destruct (g t s) as [x s1]. by simplify_eq/=. }
  destruct (IH _ _ _ eq_refl) as (t' & Ht' & Hrest).
  - intros i1 j1 p1 Hi1. apply list_lookup_insert_Some in Hi1 as [(-> & [= <- <-] & _)|[Hne Hi1]]; [done|].
    eapply hsafe_later; [exact (proj1 Ht)|eauto].
  - intros j1 s1 Hj1. apply list_lookup_insert_Some in Hj1 as [(-> & <- & _)|[Hne Hj1]]; [done|].
    apply (HJ lo t); [lia|eauto].
  - done.
  - exists t'. split; [lia|done].
Qed.
End safe.

(** ** JSON *)

(** [JSON.stringify] and [JSON.parse] at one type of record, with the language's
    round trip.  [of_json] is [None] when [JSON.parse] throws. *)
Class JsonCodec (A : Type) := {
  to_json : A → string;
  of_json : string → option A;
  of_to_json a : of_json (to_json a) = Some a;
  to_json_nonempty a : str_empty (to_json a) = false;
}.

(** A codec for any countable type, by the decimal number that encodes a value. *)
#[global, program] Instance json_countable {A} `{Countable A} : JsonCodec A := {|
  to_json a := unchars (nat_text (Zpos (encode a)));
  of_json s := decode (Z.to_pos (digits_val (chars s)));
|}.
Next Obligation.
  intros A ? ? a. cbv beta. rewrite chars_unchars.
  destruct (nat_text_spec (Zpos (encode a)) ltac:(lia)) as (_ & _ & ->). simpl. apply decode_encode.
Qed.
Next Obligation.
  intros A ? ? a. cbv beta. destruct (nat_text_spec (Zpos (encode a)) ltac:(lia)) as (Hne & _).
  by destruct (nat_text _).
Qed.

(** ** A server: values with an optional expiry time *)

Notation gredis := (gmap string (string * option Z)).

Definition live (t : Z) (e : option Z) : bool := match e with None => true | Some x => t <? x end.

Definition gredis_view (t : Z) (m : gredis) (k : string) : option string :=
  match m !! k with Some (v, e) => if live t e then Some v else None | None => None end.

Definition gredis_exec {X} (t : Z) (c : rcmd X) (m : gredis) : X * gredis :=
  match c in rcmd X return X * gredis with
  | RGet k => (gredis_view t m k, m)
  | RSet k v ex => (tt, <[k := (v, Some (t + 1000 * ex))]> m)
  | RSetPxat k v pxat => (tt, <[k := (v, Some pxat)]> m)
  | RSetNx k v px =>
      match gredis_view t m k with
      | Some _ => (false, m)
      | None => (true, <[k := (v, Some (t + px))]> m)
      end
  | RDel k => (tt, delete k m)
  | RExists k => (bool_decide (is_Some (gredis_view t m k)), m)
  | RIncr k =>
      let n := default 0 (int_value (gredis_view t m k)) in
      let e := match gredis_view t m k with Some _ => m !! k ≫= snd | None => None end in
      (n + 1, <[k := (int_string (n + 1), e)]> m)
  end.

#[global] Instance gredis_server : RedisServer gredis := {|
  srv_exec X := @gredis_exec X; srv_view := gredis_view |}.

Lemma gredis_view_insert t m k v e j :
  gredis_view t (<[k := (v, e)]> m) j =
    if decide (j = k) then (if live t e then Some v else None) else gredis_view t m j.
Proof.
  unfold gredis_view. case_decide; [subst; by rewrite lookup_insert_eq|]. by rewrite lookup_insert_ne.
Qed.

Lemma gredis_view_mono t t' m k : t <= t' → gredis_view t' m k = None ∨ gredis_view t' m k = gredis_view t m k.
Proof.
  intros Ht. unfold gredis_view. destruct (m !! k) as [[v [x|]]|]; simpl; [|by right|by left].
  cmp; auto; lia.
Qed.

#[global] Instance gredis_laws : RedisLaws gredis.
Proof.
  split; simpl; intros.
  - done.
  - done.
  - apply gredis_view_insert.
  - apply gredis_view_insert.
  - unfold gredis_exec. destruct (gredis_view t r k) eqn:Hv; [done|]. by destruct H.
  - unfold gredis_exec. by rewrite H.
  - unfold gredis_exec. rewrite H. apply gredis_view_insert.
  - unfold gredis_view. case_decide; [subst; by rewrite lookup_delete_eq|]. by rewrite lookup_delete_ne.
  - rewrite H. simpl. splits; [done| |].
    + intros t' Ht. rewrite gredis_view_insert, decide_True by done.
      destruct (gredis_view t r k) as [s|] eqn:Hv; [|by rewrite decide_False by (by intros [[? ?] ?])].
      unfold gredis_view in *. destruct (r !! k) as [[v e]|]; [|done]. simpl.
      destruct (live t' e); [by rewrite decide_False by naive_solver|].
      by rewrite decide_True by (split; [by eexists|done]).
    + intros t' j Hj. rewrite gredis_view_insert. by rewrite decide_False.
  - by apply gredis_view_mono.
Qed.
