(* ===== verification/Dedup.v ===== *)
(** * Event deduplication ([src/redis/dedup.ts])

    The in-memory cache with its window and FIFO cap, the Redis cache, and the
    hybrid cache that answers from its process-local memory when a Redis command
    is rejected.  A hybrid call alternates Redis commands and accesses of the
    process's memory, so it is an [hprog]; several calls of several processes
    interleave between these, and any command can fail.  Metrics and the
    throttled log line are left out. *)
From Stdlib Require Import Ascii ZArith Lia.
From stdpp Require Import base strings list.
From S2P Require Import Prelude Redis.
Local Open Scope string_scope.
Local Open Scope list_scope.
Local Open Scope Z_scope.

Definition DEDUP_KEY_PREFIX : string := "fluxora:dedup:".
Definition DEDUP_WINDOW_SECONDS_DEFAULT : Z := 86400.
Definition DEDUP_CACHE_MAX : Z := 10000.

(** ** In-memory cache *)

(** Key to expiry time, in insertion order. *)
Notation cache := (list (string * Z)).

Definition mem_key (streamId eventId : string) : string := streamId ++ ":" ++ eventId.

Definition isLive (now : Z) (key : string) (seen : cache) : bool * cache :=
  match jm_get key seen with
  | None => (false, seen)
  | Some expiresAt => if now <? expiresAt then (true, seen) else (false, jm_delete key seen)
  end.

Definition mem_has (now : Z) (streamId eventId : string) (seen : cache) : bool * cache :=
  isLive now (mem_key streamId eventId) seen.

(** The eviction of the oldest key of a full cache. *)
Definition evict (seen : cache) : cache :=
  if DEDUP_CACHE_MAX <=? Z.of_nat (length seen) then
    match seen with (oldest, _) :: _ => jm_delete oldest seen | [] => seen end
  else seen.

Definition mem_add (windowSeconds now : Z) (streamId eventId : string) (seen : cache) : bool * cache :=
  let key := mem_key streamId eventId in
  let '(live, seen) := isLive now key seen in
  if live then (false, seen) else (true, jm_set key (now + windowSeconds * 1000) (evict seen)).

Definition mem_clear : cache := [].

(** ** Redis cache *)

Definition buildKey (streamId eventId : string) : string := DEDUP_KEY_PREFIX ++ streamId ++ ":" ++ eventId.

(** A rejection is rethrown. *)
Definition redis_has (streamId eventId : string) : prog (result string bool) :=
  Cmd (RExists (buildKey streamId eventId)) Ret.

Definition redis_add (ttlSeconds : Z) (streamId eventId : string) : prog (result string bool) :=
  Cmd (RSetNx (buildKey streamId eventId) "1" (ttlSeconds * 1000)) Ret.

(** ** Hybrid cache *)

Section hybrid.
Context (useRedis : bool) (ttlSeconds : Z) (streamId eventId : string).

Definition fallback_has : hprog cache bool := HMem (λ now, mem_has now streamId eventId) HRet.
Definition fallback_add : hprog cache bool := HMem (λ now, mem_add ttlSeconds now streamId eventId) HRet.

Definition hybrid_has : hprog cache bool :=
  if useRedis then
    redis_calls (redis_has streamId eventId) (λ r,
      match r with Ok true => HRet true | Ok false | Err _ => fallback_has end)
  else fallback_has.

(** The branch for a key the memory knows: a failing Redis call is ignored. *)
Definition refresh_primary : hprog cache bool := redis_calls (redis_add ttlSeconds streamId eventId) (λ _, HRet false).

(** The memory remembers what Redis admitted. *)
Definition remember : hprog cache bool :=
  HMem (λ now, mem_add ttlSeconds now streamId eventId) (λ _, HRet true).

(** The branch for a key the memory does not know. *)
Definition ask_primary : hprog cache bool :=
  redis_calls (redis_add ttlSeconds streamId eventId) (λ r,
    match r with Ok true => remember | Ok false => HRet false | Err _ => fallback_add end).

Definition hybrid_add : hprog cache bool :=
  if useRedis then
    HMem (λ now, mem_has now streamId eventId) (λ inFallback, if inFallback : bool then refresh_primary else ask_primary)
  else fallback_add.
End hybrid.

(** ** Interleaving of calls *)

(** The calls [add(streamId, eventId)] of a pool: process, stream, event. *)
Definition add_calls (ttlSeconds : Z) (calls : list (nat * string * string)) : list (nat * hprog cache bool) :=
  (λ '(j, s, e), (j, hybrid_add true ttlSeconds s e)) <$> calls.

(** ** The in-memory cache *)

(** A sequence of calls [add], each with its time, stream and event. *)
Fixpoint mem_adds (w : Z) (ops : list (Z * string * string)) (c : cache) : list bool * cache :=
  match ops with
  | [] => ([], c)
  | (t, s, e) :: ops =>
      let '(b, c1) := mem_add w t s e c in let '(bs, c2) := mem_adds w ops c1 in (b :: bs, c2)
  end.

Definition admitted (bs : list bool) : Z := Z.of_nat (length (filter (λ b, b = true) bs)).

Record cache_wf (c : cache) : Prop := {
  cw_keys : jm_wf c;
  cw_size : Z.of_nat (length c) <= DEDUP_CACHE_MAX;
}.

Lemma isLive_spec now k c :
  jm_wf c →
  let '(b, c') := isLive now k c in
  if b then c' = c ∧ is_Some (jm_get k c) else c' = jm_delete k c.
Proof.
  intros Hwf. unfold isLive. destruct (jm_get k c) as [x|] eqn:Hk.
  - destruct (now <? x); [split; [done|by eexists]|done].
  - symmetry. by apply jm_delete_fresh.
Qed.

Lemma length_delete_le k (c : cache) : (length (jm_delete k c) <= length c)%nat.
Proof. apply length_filter. Qed.

Lemma evict_wf c : cache_wf c → jm_wf (evict c) ∧ Z.of_nat (length (evict c)) < DEDUP_CACHE_MAX.
Proof.
  intros [Hk Hs]. unfold evict. destruct (Z.leb_spec DEDUP_CACHE_MAX (Z.of_nat (length c))) as [Hle|Hlt]; [|done].
  destruct c as [|[k x] c]; [unfold DEDUP_CACHE_MAX in *; simpl in *; lia|].
  split; [by apply jm_wf_delete|]. unfold jm_delete. rewrite filter_cons, decide_False by naive_solver.
  pose proof (length_filter (λ p : string * Z, p.1 ≠ k) c). simpl in *. lia.
Qed.

Lemma evict_get k c : jm_get k c = None → jm_get k (evict c) = None.
Proof.
  intros Hk. unfold evict. destruct (_ <=? _); [|done]. destruct c as [|[k' x] c]; [done|].
  destruct (decide (k' = k)) as [->|Hne]; [apply jm_get_delete_eq|by rewrite jm_get_delete_ne].
Qed.

(** What an [add] does, on either branch. *)
Lemma mem_add_spec w now s e c :
  cache_wf c →
  let '(b, c') := mem_add w now s e c in
  cache_wf c' ∧
  (if b then c' = evict (jm_delete (mem_key s e) c) ++ [(mem_key s e, now + w * 1000)]
   else c' = c ∧ is_Some (jm_get (mem_key s e) c)).
Proof.
  intros Hwf. unfold mem_add. pose proof (isLive_spec now (mem_key s e) c (cw_keys _ Hwf)) as Hl.
  destruct (isLive now (mem_key s e) c) as [[] c1]; [destruct Hl as [-> ?]; done|]. subst c1.
  assert (cache_wf (jm_delete (mem_key s e) c)) as Hd.
  { split; [by apply jm_wf_delete, Hwf|]. pose proof (length_delete_le (mem_key s e) c). pose proof (cw_size _ Hwf). lia. }
  destruct (evict_wf _ Hd) as [Hk Hs]. split.
  - split; [by apply jm_wf_set|]. rewrite jm_length_set_fresh by (apply evict_get, jm_get_delete_eq). lia.
  - apply jm_set_fresh, evict_get, jm_get_delete_eq.
Qed.

(** [k] expires at [x] and at most [n] keys are younger. *)
Definition guarded (k : string) (x n : Z) (c : cache) : Prop :=
  ∃ pre post, c = pre ++ (k, x) :: post ∧ Z.of_nat (length post) <= n.

Lemma guarded_get k x n c : cache_wf c → guarded k x n c → jm_get k c = Some x.
Proof.
  intros Hwf (pre & post & -> & _). apply jm_elem_of_get; [apply Hwf|].
  rewrite elem_of_app, elem_of_cons. auto.
Qed.

Lemma guarded_delete k x n c k' : k' ≠ k → guarded k x n c → guarded k x n (jm_delete k' c).
Proof.
  intros Hne (pre & post & -> & Hn). exists (jm_delete k' pre), (jm_delete k' post).
  pose proof (length_delete_le k' post). unfold jm_delete in *.
  split; [|lia]. rewrite filter_app, filter_cons, decide_True by done. done.
Qed.

Lemma guarded_evict k x n c : cache_wf c → n < DEDUP_CACHE_MAX - 1 → guarded k x n c → guarded k x n (evict c).
Proof.
  intros [Hwf _] Hn Hg. unfold evict. destruct (Z.leb_spec DEDUP_CACHE_MAX (Z.of_nat (length c))) as [Hle|Hlt]; [|done].
  destruct Hg as ([|[k' y] pre] & post & -> & Hp); simpl in *; [lia|].
  apply guarded_delete; [|by exists ((k', y) :: pre), post]. unfold jm_wf in Hwf. simpl in Hwf.
  rewrite fmap_app in Hwf. intros ->. apply list.NoDup_cons in Hwf as [Hni _]. apply Hni.
  simpl. rewrite elem_of_app, elem_of_cons. auto.
Qed.

Lemma guarded_add w now s e k x n c :
  cache_wf c → now < x → guarded k x n c →
  let '(b, c') := mem_add w now s e c in
  if b then n < DEDUP_CACHE_MAX - 1 → guarded k x (n + 1) c' else guarded k x n c'.
Proof.
  intros Hwf Hx Hg. pose proof (guarded_get _ _ _ _ Hwf Hg) as Hk.
  pose proof (mem_add_spec w now s e c Hwf) as Ha.
  destruct (mem_add w now s e c) as [[] c'] eqn:Hadd; [|by destruct Ha as (_ & -> & _)].
  destruct Ha as [_ ->]. intros Hn. destruct (decide (mem_key s e = k)) as [Heq|Hne].
  { unfold mem_add, isLive in Hadd. rewrite Heq, Hk in Hadd. destruct (Z.ltb_spec now x); [done|lia]. }
  assert (cache_wf (jm_delete (mem_key s e) c)) as Hd.
  { split; [by apply jm_wf_delete, Hwf|]. pose proof (length_delete_le (mem_key s e) c). pose proof (cw_size _ Hwf). lia. }
  apply (guarded_delete _ _ _ _ (mem_key s e)) in Hg; [|done].
  destruct (guarded_evict _ _ _ _ Hd Hn Hg) as (pre & post & -> & Hp).
  exists pre, (post ++ [(mem_key s e, now + w * 1000)]). split; [by rewrite <-app_assoc|].
  rewrite length_app. simpl. lia.
Qed.

Lemma admitted_cons b bs : admitted (b :: bs) = (if b then 1 else 0) + admitted bs.
Proof. unfold admitted. rewrite filter_cons. destruct b; case_decide; simpl; (done || lia). Qed.

Lemma admitted_nonneg bs : 0 <= admitted bs.
Proof. unfold admitted. lia. Qed.

Lemma guarded_adds w ops k x n c :
  cache_wf c → Forall (λ o, o.1.1 < x) ops → guarded k x n c →
  let '(bs, c') := mem_adds w ops c in
  n + admitted bs < DEDUP_CACHE_MAX → cache_wf c' ∧ guarded k x (n + admitted bs) c'.
Proof.
  revert n c. induction ops as [|[[t s] e] ops IH]; intros n c Hwf Hops Hg; simpl.
  { unfold admitted. simpl. rewrite Z.add_0_r. done. }
  apply Forall_cons_iff in Hops as [Ht Hops]. simpl in Ht.
  pose proof (mem_add_spec w t s e c Hwf) as Hb. pose proof (guarded_add w t s e k x n c Hwf Ht Hg) as Hg1.
  destruct (mem_add w t s e c) as [b c1]. destruct Hb as [Hwf1 _].
  specialize (λ n', IH n' c1 Hwf1 Hops). destruct (mem_adds w ops c1) as [bs c2].
  rewrite admitted_cons. pose proof (admitted_nonneg bs). intros Hn. destruct b.
  - rewrite Z.add_assoc. apply IH; [apply Hg1; lia|lia].
  - apply IH; [done|lia].
Qed.

(** within the window the in-memory cache admits a key once, up to its cap:
    when a key admitted at [t1] is admitted again at [t2] then the window has
    elapsed or at least [DEDUP_CACHE_MAX] admissions happened in between. *)
Theorem mem_window_and_cap w t1 s e ops t2 c :
  cache_wf c → Forall (λ o, o.1.1 <= t2) ops → (mem_add w t1 s e c).1 = true →
  let '(bs, c2) := mem_adds w ops (mem_add w t1 s e c).2 in
  (mem_add w t2 s e c2).1 = true → t1 + w * 1000 <= t2 ∨ DEDUP_CACHE_MAX <= admitted bs.
Proof.
  intros Hwf Hops Ha. pose proof (mem_add_spec w t1 s e c Hwf) as Hs.
  destruct (mem_add w t1 s e c) as [b c1]. simpl in *. subst b. destruct Hs as [Hwf1 Hc1].
  destruct (Z.le_gt_cases (t1 + w * 1000) t2) as [Hw|Hw]; [destruct (mem_adds w ops c1); by left|].
  assert (guarded (mem_key s e) (t1 + w * 1000) 0 c1) as Hg by (eexists _, []; split; [done|simpl; lia]).
  assert (Forall (λ o, o.1.1 < t1 + w * 1000) ops) as Hops' by (apply (Forall_impl _ _ _ Hops); intros; lia).
  pose proof (guarded_adds w ops _ _ 0 c1 Hwf1 Hops' Hg) as Hg2. destruct (mem_adds w ops c1) as [bs c2].
  intros Hadd. right. destruct (Z.le_gt_cases DEDUP_CACHE_MAX (admitted bs)) as [|Hn]; [done|].
  destruct (Hg2 Hn) as [Hwf2 Hg3]. pose proof (guarded_get _ _ _ _ Hwf2 Hg3) as Hk.
  unfold mem_add, isLive in Hadd. rewrite Hk in Hadd. destruct (Z.ltb_spec t2 (t1 + w * 1000)); [done|lia].
Qed.

(** The same event is admitted at 0 and, with a window of 10 s, at 10 000. *)
Lemma mem_window_and_cap_witness : 0 + 10 * 1000 <= 10000 ∨ DEDUP_CACHE_MAX <= 1.
Proof.
  refine (mem_window_and_cap 10 0 "s" "e" [(5, "s", "e"); (7, "s", "f")] 10000 [] _ _ eq_refl eq_refl).
  - split; [constructor|vm_compute; discriminate].
  - repeat constructor; simpl; lia.
Defined.

(** ** Keys *)

(** The two caches identify the same events. *)
Lemma buildKey_mem_key s e s' e' : buildKey s e = buildKey s' e' ↔ mem_key s e = mem_key s' e'.
Proof.
  unfold buildKey, mem_key, DEDUP_KEY_PREFIX. split; [|by intros ->]. simpl. intros Heq. by simplify_eq.
Qed.

(** ** Calls between two actions *)

Inductive phase : Type := PStart | PKnown | PAsk | PRemember | PFallback | PDone (b : bool).

Definition phase_prog (w : Z) (s e : string) (φ : phase) : hprog cache bool :=
  match φ with
  | PStart => hybrid_add true w s e
  | PKnown => refresh_primary w s e
  | PAsk => ask_primary w s e
  | PRemember => remember w s e
  | PFallback => fallback_add w s e
  | PDone b => HRet b
  end.

Section hybrid_lemmas.
Context {R : Type} `{RedisLaws R} (w : Z).
Implicit Types (c : cache) (r : R) (s e : string).

(** What one action of a call does. *)
Inductive phase_step (t : Z) (f : fault) (s e : string) (c : cache) (r : R) : phase → phase → cache → R → Prop :=
| ps_has : phase_step t f s e c r PStart (if (mem_has t s e c).1 then PKnown else PAsk) (mem_has t s e c).2 r
| ps_remember : phase_step t f s e c r PRemember (PDone true) (mem_add w t s e c).2 r
| ps_fallback : phase_step t f s e c r PFallback (PDone (mem_add w t s e c).1) (mem_add w t s e c).2 r
| ps_known r' : (r' = r ∨ r' = (srv_exec t (RSetNx (buildKey s e) "1" (w * 1000)) r).2) →
    phase_step t f s e c r PKnown (PDone false) c r'
| ps_ask : f = NoFault → 0 < w →
    phase_step t f s e c r PAsk
      (if (srv_exec t (RSetNx (buildKey s e) "1" (w * 1000)) r).1 then PRemember else PDone false) c
      (srv_exec t (RSetNx (buildKey s e) "1" (w * 1000)) r).2
| ps_lost r' : f ≠ NoFault ∨ w <= 0 →
    (r' = r ∨ r' = (srv_exec t (RSetNx (buildKey s e) "1" (w * 1000)) r).2) →
    phase_step t f s e c r PAsk PFallback c r'.

Lemma hstep_phase t f s e φ c r p' c' r' :
  hstep t f (phase_prog w s e φ) c r = Some (p', c', r') →
  ∃ φ', p' = phase_prog w s e φ' ∧ phase_step t f s e c r φ φ' c' r'.
Proof.
  destruct φ as [| | | | |b]; simpl; intros Hs; try done.
  - unfold hybrid_add in Hs. simpl in Hs. pose proof (ps_has t f s e c r) as Hp.
    destruct (mem_has t s e c) as [b c1] eqn:Hm. simplify_eq. eexists. split; [|exact Hp]. by destruct b.
  - unfold reply in Hs. simpl in Hs. exists (PDone false).
    destruct (0 <? w * 1000); [|simplify_eq; split; [done|constructor; by left]].
    destruct f; [destruct (srv_exec t _ r) as [b r1] eqn:Hr| |]; simplify_eq; (split; [done|constructor]); auto.
    right. by rewrite Hr.
  - unfold reply in Hs. simpl in Hs. destruct (Z.ltb_spec 0 (w * 1000)).
    + destruct f; [|exists PFallback; simplify_eq; split; [done|]; apply ps_lost; auto..].
      pose proof (ps_ask t NoFault s e c r eq_refl ltac:(lia)) as Hp.
      destruct (srv_exec t _ r) as [b r1] eqn:Hr. simplify_eq. eexists. split; [|exact Hp]. by destruct b.
    + exists PFallback. simplify_eq. split; [done|]. apply ps_lost; [right; lia|by left].
  - pose proof (ps_remember t f s e c r) as Hp. destruct (mem_add w t s e c) as [b c1]. simplify_eq. by exists (PDone true).
  - pose proof (ps_fallback t f s e c r) as Hp. destruct (mem_add w t s e c) as [b c1]. simplify_eq. by exists (PDone b).
Qed.

(** Ghost description of a pool: process, stream, event and phase of each call. *)
Notation ghost := (list (nat * string * string * phase)).
Definition ghost_calls (gs : ghost) : list (nat * hprog cache bool) := (λ '(j, s, e, φ), (j, phase_prog w s e φ)) <$> gs.

Lemma ghost_step t f gs cs r q :
  hpool_step t f (ghost_calls gs, cs, r) q →
  ∃ i j s e φ φ' c c' r',
    gs !! i = Some (j, s, e, φ) ∧ cs !! j = Some c ∧ phase_step t f s e c r φ φ' c' r' ∧
    q = (ghost_calls (<[i := (j, s, e, φ')]> gs), <[j := c']> cs, r').
Proof.
  intros Hs. inversion Hs as [i j ps0 cs0 r0 p c p' c' r' Hp Hc Hstep E1 E2]. simplify_eq.
  unfold ghost_calls in Hp. rewrite list_lookup_fmap in Hp.
  destruct (gs !! i) as [[[[j' s] e] φ]|] eqn:Hg; [|done]. simplify_eq/=.
  destruct (hstep_phase _ _ _ _ _ _ _ _ _ _ Hstep) as (φ' & -> & Hph).
  exists i, j, s, e, φ, φ', c, c', r'. splits; [done..|]. unfold ghost_calls. by rewrite list_fmap_insert.
Qed.

Lemma add_calls_ghost calls :
  add_calls w calls = ghost_calls ((λ '(j, s, e), (j, s, e, PStart)) <$> calls).
Proof. unfold add_calls, ghost_calls. rewrite <-list_fmap_compose. apply list_fmap_ext. by intros ? [[? ?] ?] _. Qed.

(** An access of the memory adds no key but its own, and a refusal means the
    key was there. *)
Lemma keys_delete k k' c : k ∈ (jm_delete k' c).*1 → k ∈ c.*1.
Proof. unfold jm_delete. intros ((k1, x) & -> & [_ Hin]%list_elem_of_filter)%list_elem_of_fmap. by apply (list_elem_of_fmap_2 fst) in Hin. Qed.

Lemma keys_evict k c : k ∈ (evict c).*1 → k ∈ c.*1.
Proof. unfold evict. destruct (_ <=? _); [|done]. destruct c as [|[k' x] c]; [done|]. apply keys_delete. Qed.

Lemma keys_has k t s e c : k ∈ (mem_has t s e c).2.*1 → k ∈ c.*1.
Proof. unfold mem_has, isLive. destruct (jm_get _ c); [|done]. destruct (t <? _); [done|]. apply keys_delete. Qed.

Lemma has_key t s e c : (mem_has t s e c).1 = true → mem_key s e ∈ c.*1.
Proof.
  unfold mem_has, isLive. destruct (jm_get (mem_key s e) c) eqn:Hk; [|done]. intros _.
  apply jm_get_elem_of in Hk. by apply (list_elem_of_fmap_2 fst) in Hk.
Qed.

Lemma keys_set k k' x c : k ∈ (jm_set k' x c).*1 → k = k' ∨ k ∈ c.*1.
Proof.
  destruct (decide (k = k')) as [->|Hne]; [by left|]. intros Hk. right. destruct (decide (k ∈ c.*1)) as [|Hn]; [done|].
  apply jm_get_None in Hn. rewrite <-(jm_get_set_ne k' k x) in Hn by done. by apply jm_get_None in Hn.
Qed.

Lemma keys_add k t s e c : k ∈ (mem_add w t s e c).2.*1 → k = mem_key s e ∨ k ∈ c.*1.
Proof.
  unfold mem_add, isLive. destruct (jm_get _ c) as [x|]; [destruct (t <? x)|]; simpl; [by right| |].
  - intros [->|Hk]%keys_set; [by left|]. right. by apply keys_evict, keys_delete in Hk.
  - intros [->|Hk]%keys_set; [by left|]. right. by apply keys_evict in Hk.
Qed.

Lemma add_refused t s e c : (mem_add w t s e c).1 = false → mem_key s e ∈ c.*1.
Proof.
  intros Ha. apply (has_key t). unfold mem_has. unfold mem_add in Ha.
  destruct (isLive t (mem_key s e) c) as [[] c1]; [done|]. by simpl in Ha.
Qed.

(** ** Nothing is lost *)

(** A call for [k] that has been admitted, or will be when it is alone in its memory. *)
Definition holds_key (k : string) (g : nat * string * string * phase) : bool := bool_decide (mem_key g.1.1.2 g.1.2 = k).
Definition wins (g : nat * string * string * phase) : bool :=
  match g.2 with PRemember | PDone true => true | _ => false end.
Definition pending (g : nat * string * string * phase) : bool := match g.2 with PFallback => true | _ => false end.
Definition loses (g : nat * string * string * phase) : bool :=
  match g.2 with PKnown | PDone false => true | _ => false end.

Definition some_call (P : (nat * string * string * phase) → bool) (k : string) (gs : ghost) : Prop :=
  ∃ i g, gs !! i = Some g ∧ holds_key k g = true ∧ P g = true.

Record kept (k : string) (t : Z) (gs : ghost) (cs : list cache) (r : R) : Prop := {
  kp_redis t' s e : t <= t' → mem_key s e = k → is_Some (srv_view t' r (buildKey s e)) →
    some_call (λ g, wins g || pending g) k gs;
  kp_memory j c : cs !! j = Some c → k ∈ c.*1 → some_call wins k gs;
  kp_losers : some_call loses k gs → some_call (λ g, wins g || pending g) k gs;
}.

Lemma some_call_weaken P Q k gs : (∀ g, P g = true → Q g = true) → some_call P k gs → some_call Q k gs.
Proof. intros HPQ (i & g & Hg & Hk & HP). exists i, g. auto. Qed.

Lemma some_call_here P k gs i g g0 :
  gs !! i = Some g0 → holds_key k g = true → P g = true → some_call P k (<[i := g]> gs).
Proof.
  intros Hi Hk HP. exists i, g. rewrite list_lookup_insert_eq by (by apply lookup_lt_Some in Hi). done.
Qed.

Lemma some_call_keep P k gs i g0 g :
  gs !! i = Some g0 → (holds_key k g0 = true → P g0 = true → holds_key k g = true ∧ P g = true) →
  some_call P k gs → some_call P k (<[i := g]> gs).
Proof.
  intros Hi Hg (i1 & g1 & Hi1 & Hk & HP). destruct (decide (i1 = i)) as [->|Hne].
  - simplify_eq. destruct (Hg Hk HP) as [? ?]. by apply (some_call_here _ _ _ _ _ g0).
  - exists i1, g1. by rewrite list_lookup_insert_ne.
Qed.

Lemma some_call_split P k gs i g0 g :
  gs !! i = Some g0 → some_call P k (<[i := g]> gs) → (holds_key k g = true ∧ P g = true) ∨ some_call P k gs.
Proof.
  intros Hi (i1 & g1 & Hi1 & Hk & HP). destruct (decide (i1 = i)) as [->|Hne].
  - rewrite list_lookup_insert_eq in Hi1 by (by apply lookup_lt_Some in Hi). simplify_eq. by left.
  - rewrite list_lookup_insert_ne in Hi1 by done. right. by exists i1, g1.
Qed.

Lemma holds_key_iff k j s e φ : holds_key k (j, s, e, φ) = true ↔ mem_key s e = k.
Proof. unfold holds_key. apply bool_decide_eq_true. Qed.

(** A step of a call with another key changes nothing the key [k] depends on. *)
Lemma phase_step_keys t f s e c r φ φ' c' r' k :
  phase_step t f s e c r φ φ' c' r' → mem_key s e ≠ k → k ∈ c'.*1 → k ∈ c.*1.
Proof.
  intros Hs Hne. assert (k ∈ (mem_add w t s e c).2.*1 → k ∈ c.*1) as Ha by (intros [?|?]%keys_add; congruence).
  destruct Hs; try done. apply keys_has.
Qed.

Lemma phase_step_view t f s e c r φ φ' c' r' s1 e1 t1 :
  phase_step t f s e c r φ φ' c' r' → mem_key s e ≠ mem_key s1 e1 → t <= t1 →
  srv_view t1 r' (buildKey s1 e1) = srv_view t1 r (buildKey s1 e1).
Proof.
  intros Hs Hne Ht. assert (buildKey s1 e1 ≠ buildKey s e) as Hb by (intros ?%buildKey_mem_key; congruence).
  destruct Hs as [| | |r' [-> | -> ]| |r' ? [-> | -> ]]; try done; by apply view_other_setnx.
Qed.

(** Winning stays winning; a pending call may be refused only because its memory knows the key. *)
Lemma kept_calls k t t' f gs cs r i j s e φ φ' c c' r' :
  kept k t gs cs r → gs !! i = Some (j, s, e, φ) → cs !! j = Some c → phase_step t' f s e c r φ φ' c' r' →
  (some_call wins k gs → some_call wins k (<[i := (j, s, e, φ')]> gs)) ∧
  (some_call (λ g, wins g || pending g) k gs → some_call (λ g, wins g || pending g) k (<[i := (j, s, e, φ')]> gs)).
Proof.
  intros Hkept Hi Hj Hs.
  assert (some_call wins k gs → some_call wins k (<[i := (j, s, e, φ')]> gs)) as Hw.
  { apply (some_call_keep _ _ _ _ _ _ Hi). rewrite !holds_key_iff. by destruct Hs. }
  split; [done|]. intros Hsome. destruct Hs as [| | | | |]; try by apply (some_call_keep _ _ _ _ _ _ Hi).
  destruct (decide (mem_key s e = k)) as [Hk|Hk].
  - destruct (mem_add w t' s e c).1 eqn:Ha.
    + eapply some_call_here; [exact Hi|by apply holds_key_iff|done].
    + apply (some_call_weaken wins); [by intros ? ->|]. apply Hw, (kp_memory _ _ _ _ _ Hkept j c Hj).
      rewrite <-Hk. by eapply add_refused.
  - apply (some_call_keep _ _ _ _ _ _ Hi); [|done]. by rewrite holds_key_iff.
Qed.

Lemma kept_step k t t' f gs cs r i j s e φ φ' c c' r' :
  kept k t gs cs r → t <= t' → gs !! i = Some (j, s, e, φ) → cs !! j = Some c →
  phase_step t' f s e c r φ φ' c' r' →
  kept k t' (<[i := (j, s, e, φ')]> gs) (<[j := c']> cs) r'.
Proof.
  intros Hkept Ht Hi Hj Hs. destruct (kept_calls _ _ _ _ _ _ _ _ _ _ _ _ _ _ _ _ Hkept Hi Hj Hs) as [Hw Hwp].
  assert (k ∈ c.*1 → some_call wins k gs) as Hmem by (by apply (kp_memory _ _ _ _ _ Hkept j c Hj)).
  assert (∀ P, mem_key s e = k → P (j, s, e, φ') = true → some_call P k (<[i := (j, s, e, φ')]> gs)) as Hhere.
  { intros P Hk HP. eapply some_call_here; [exact Hi| |done]. by apply holds_key_iff. }
  split.
  - intros t1 s1 e1 Ht1 Hk1 Hv. destruct (decide (mem_key s e = k)) as [Hk|Hk].
    + assert (r' = r → some_call (λ g, wins g || pending g) k gs) as Hold.
      { intros ->. apply (kp_redis _ _ _ _ _ Hkept t1 s1 e1); [lia|done|done]. }
      destruct Hs as [| | | |Hf Hpos|r' Hf Hr].
      * by apply Hwp, Hold.
      * by apply Hhere.
      * by apply Hwp, Hold.
      * apply Hwp, (kp_losers _ _ _ _ _ Hkept). exists i. eexists. split; [done|]. by rewrite holds_key_iff.
      * destruct (srv_view t' r (buildKey s e)) as [v|] eqn:Hv1.
        -- rewrite law_setnx_held in * by eauto. by apply Hwp, Hold.
        -- rewrite law_setnx_free in * by done. by apply Hhere.
      * by apply Hhere.
    + apply Hwp. rewrite (phase_step_view _ _ _ _ _ _ _ _ _ _ s1 e1 t1 Hs) in Hv by (congruence || lia).
      apply (kp_redis _ _ _ _ _ Hkept t1 s1 e1); [lia|done|done].
  - intros j1 c1 Hj1 Hin. destruct (decide (j1 = j)) as [->|Hne]; last first.
    { rewrite list_lookup_insert_ne in Hj1 by done. apply Hw. by apply (kp_memory _ _ _ _ _ Hkept j1 c1). }
    rewrite list_lookup_insert_eq in Hj1 by (by apply lookup_lt_Some in Hj). simplify_eq.
    destruct (decide (mem_key s e = k)) as [Hk|Hk].
    + destruct Hs as [| | | | |]; try by apply Hw, Hmem.
      * apply Hw, Hmem. by apply keys_has in Hin.
      * by apply Hhere.
      * destruct (mem_add w t' s e c).1 eqn:Ha; [by apply Hhere|]. apply Hw, Hmem. rewrite <-Hk. by eapply add_refused.
    + apply Hw, Hmem. by apply (phase_step_keys _ _ _ _ _ _ _ _ _ _ _ Hs Hk).
  - intros Hl. destruct (some_call_split _ _ _ _ _ _ Hi Hl) as [[Hk HP]|Hold]; [|by apply Hwp, (kp_losers _ _ _ _ _ Hkept)].
    apply holds_key_iff in Hk. destruct Hs as [| | | |Hf Hpos|]; try done.
    + apply Hwp, (some_call_weaken wins); [by intros ? ->|]. apply Hmem. rewrite <-Hk. apply (has_key t').
      by destruct (mem_has t' s e c).1.
    + apply Hwp, (some_call_weaken wins); [by intros ? ->|]. apply Hmem. rewrite <-Hk. apply (add_refused t').
      by destruct (mem_add w t' s e c).1.
    + apply Hwp, (kp_losers _ _ _ _ _ Hkept). exists i. eexists. split; [done|]. by rewrite holds_key_iff.
    + apply Hwp. destruct (srv_view t' r (buildKey s e)) as [v|] eqn:Hv1.
      * eapply (kp_redis _ _ _ _ _ Hkept t'); [lia|done|by rewrite Hv1].
      * by rewrite law_setnx_free in HP.
Qed.

(** ** Admitted once *)

(** At most one call for [k] has won, and then Redis shows the key until [hi]. *)
Record once (k : string) (lo hi t : Z) (gs : ghost) (r : R) : Prop := {
  on_clock : lo <= t;
  on_one i i' g g' : gs !! i = Some g → gs !! i' = Some g' → holds_key k g = true → holds_key k g' = true →
    wins g = true → wins g' = true → i = i';
  on_held s e t' : some_call wins k gs → mem_key s e = k → t <= t' <= hi → is_Some (srv_view t' r (buildKey s e));
  on_pending : ¬ some_call pending k gs;
}.

Lemma setnx_step_keeps t f s e c r φ φ' c' r' t1 k :
  phase_step t f s e c r φ φ' c' r' → t <= t1 → is_Some (srv_view t1 r k) → is_Some (srv_view t1 r' k).
Proof. intros Hs Ht Hv. destruct Hs as [| | |r' [-> | -> ]| |r' ? [-> | -> ]]; try done; by apply setnx_keeps. Qed.

(** Only the reply of [SET NX] makes a call win, and nobody had won before. *)
Lemma once_win k lo hi t t' s e c r φ φ' c' r' gs i j :
  once k lo hi t gs r → t <= t' <= hi → gs !! i = Some (j, s, e, φ) → mem_key s e = k →
  phase_step t' NoFault s e c r φ φ' c' r' → wins (j, s, e, φ') = true →
  wins (j, s, e, φ) = true ∨
  ¬ some_call wins k gs ∧ r' = (srv_exec t' (RSetNx (buildKey s e) "1" (w * 1000)) r).2 ∧ srv_view t' r (buildKey s e) = None.
Proof.
  intros Ho Ht Hi Hk Hs Hw. destruct Hs as [| | | |Hf Hpos|]; try done.
  - by destruct (mem_has t' s e c).1.
  - by left.
  - exfalso. apply (on_pending _ _ _ _ _ _ Ho). exists i. eexists. split; [done|]. by rewrite holds_key_iff.
  - right. destruct (srv_view t' r (buildKey s e)) as [v|] eqn:Hv; [by rewrite law_setnx_held in Hw by eauto|].
    splits; [|done|done]. intros Hsome.
    destruct (on_held _ _ _ _ _ _ Ho s e t' Hsome Hk ltac:(lia)) as [v Hv']. congruence.
Qed.

Lemma once_step k lo hi t t' gs r i j s e φ φ' c c' r' :
  0 < w → hi < lo + w * 1000 → once k lo hi t gs r → t <= t' <= hi → gs !! i = Some (j, s, e, φ) →
  phase_step t' NoFault s e c r φ φ' c' r' → once k lo hi t' (<[i := (j, s, e, φ')]> gs) r'.
Proof.
  intros Hpos Hhi Ho Ht Hi Hs. pose proof (on_clock _ _ _ _ _ _ Ho) as Hlo.
  assert (holds_key k (j, s, e, φ') = true → wins (j, s, e, φ') = true →
    wins (j, s, e, φ) = true ∨ ¬ some_call wins k gs ∧ r' = (srv_exec t' (RSetNx (buildKey s e) "1" (w * 1000)) r).2
      ∧ srv_view t' r (buildKey s e) = None) as Hwin.
  { intros Hk%holds_key_iff Hw. by eapply (once_win k lo hi t t' s e c r φ φ'). }
  assert (∀ i2 g2, gs !! i2 = Some g2 → holds_key k g2 = true → wins g2 = true →
    holds_key k (j, s, e, φ') = true → wins (j, s, e, φ') = true → i = i2) as Hone.
  { intros i2 g2 Hi2 Hk2 Hw2 Hk Hw. destruct (Hwin Hk Hw) as [Hw1|[Hno _]].
    - by apply (on_one _ _ _ _ _ _ Ho i i2 _ _ Hi Hi2).
    - exfalso. apply Hno. by exists i2, g2. }
  split; [lia| | |].
  - intros i1 i2 g1 g2 H1 H2 Hk1 Hk2 Hw1 Hw2.
    apply list_lookup_insert_Some in H1 as [(-> & <- & _)|[Hn1 H1]];
      apply list_lookup_insert_Some in H2 as [(-> & <- & _)|[Hn2 H2]]; [done| | |].
    + by apply (Hone _ g2).
    + symmetry. by apply (Hone _ g1).
    + by apply (on_one _ _ _ _ _ _ Ho i1 i2 g1 g2).
  - intros s1 e1 t1 Hsome Hk1 Ht1.
    assert (some_call wins k gs → is_Some (srv_view t1 r' (buildKey s1 e1))) as Hold.
    { intros Hc. eapply setnx_step_keeps; [exact Hs|lia|]. apply (on_held _ _ _ _ _ _ Ho); [done|done|lia]. }
    destruct (some_call_split _ _ _ _ _ _ Hi Hsome) as [[Hk HP]|?]; [|by apply Hold].
    destruct (Hwin Hk HP) as [Hw|(_ & -> & Hv)].
    + apply Hold. exists i. eexists. split; [done|]. by apply holds_key_iff in Hk; rewrite holds_key_iff.
    + apply holds_key_iff in Hk. assert (buildKey s1 e1 = buildKey s e) as -> by (apply buildKey_mem_key; congruence).
      rewrite law_setnx_view by (done || lia). rewrite decide_True by done.
      destruct (Z.ltb_spec t1 (t' + w * 1000)); [by eexists|lia].
  - intros Hsome. destruct (some_call_split _ _ _ _ _ _ Hi Hsome) as [[Hk HP]|?]; [|by apply (on_pending _ _ _ _ _ _ Ho)].
    destruct Hs as [| | | | |r' [Hf|Hf] _]; try done; [by destruct (mem_has t' s e c).1| |lia].
    by destruct (srv_exec t' _ r).1.
Qed.

(** ** Runs *)
Lemma ghost_steps (ok : fault → Prop) (I : Z → ghost → list cache → R → Prop) lo hi gs cs r q :
  (∀ t t' f gs cs r i j s e φ φ' c c' r',
    t <= t' <= hi → ok f → I t gs cs r → gs !! i = Some (j, s, e, φ) → cs !! j = Some c →
    phase_step t' f s e c r φ φ' c' r' → I t' (<[i := (j, s, e, φ')]> gs) (<[j := c']> cs) r') →
  hpool_steps ok lo hi (ghost_calls gs, cs, r) q → I lo gs cs r →
  ∃ t gs' cs' r', q = (ghost_calls gs', cs', r') ∧ gs'.*1 = gs.*1 ∧ I t gs' cs' r'.
Proof.
  intros Hstep Hsteps. remember (ghost_calls gs, cs, r) as q0 eqn:Hq0. revert gs cs r Hq0.
  induction Hsteps as [lo hi q|lo hi t f q1 q2 q3 Ht Hf Hs Hsteps IH]; intros gs cs r -> HI; [by exists lo, gs, cs, r|].
  destruct (ghost_step _ _ _ _ _ _ Hs) as (i & j & s & e & φ & φ' & c & c' & r' & Hi & Hj & Hph & ->).
  destruct (IH Hstep _ _ _ eq_refl (Hstep _ _ _ _ _ _ _ _ _ _ _ _ _ _ _ Ht Hf HI Hi Hj Hph))
    as (t' & gs' & cs' & r'' & -> & Hgs & HI').
  exists t', gs', cs', r''. splits; [done| |done]. rewrite Hgs, list_fmap_insert. simpl.
  apply list_insert_id. by rewrite list_lookup_fmap, Hi.
Qed.
End hybrid_lemmas.

(** ** The properties of concurrent calls *)

Section theorems.
Context {R : Type} `{RedisLaws R} (w : Z).
Implicit Types (calls : list (nat * string * string)) (ps : list (nat * hprog cache bool)).
Implicit Types (gs : list (nat * string * string * phase)).

(** Neither Redis nor any process has seen the event. *)
Definition unseen (s e : string) (lo : Z) (cs : list cache) (r : R) : Prop :=
  (∀ t, lo <= t → srv_view t r (buildKey s e) = None) ∧ (∀ j c, cs !! j = Some c → mem_key s e ∉ c.*1).

(** Every call returned. *)
Definition finished calls ps : Prop :=
  ∀ i j s e, calls !! i = Some (j, s, e) → ∃ b, ps !! i = Some (j, HRet b).

Definition start (calls : list (nat * string * string)) : list (nat * string * string * phase) :=
  (λ '(j, s, e), (j, s, e, PStart)) <$> calls.

Lemma start_labels calls : (start calls).*1 = calls.
Proof. unfold start. rewrite <-list_fmap_compose. induction calls as [|[[? ?] ?] calls IH]; simpl; by f_equal. Qed.

Lemma start_no_call P k calls : (∀ j s e, P (j, s, e, PStart) = false) → ¬ some_call P k (start calls).
Proof.
  intros HP (i & g & Hg & _ & Hp). unfold start in Hg. rewrite list_lookup_fmap in Hg.
  destruct (calls !! i) as [[[j s] e]|]; [|done]. simplify_eq/=. by rewrite HP in Hp.
Qed.

Lemma same_event s s' e e' : no_colon s → no_colon s' → mem_key s e = mem_key s' e' → s = s' ∧ e = e'.
Proof. apply colon_split. Qed.

(** A finished call of a pool and its ghost. *)
Lemma finished_done calls gs i j s e φ :
  gs.*1 = calls → finished calls (ghost_calls w gs) → gs !! i = Some (j, s, e, φ) →
  ∃ b, φ = PDone b ∧ calls !! i = Some (j, s, e) ∧ ghost_calls w gs !! i = Some (j, HRet b).
Proof.
  intros Hgs Hfin Hi. assert (calls !! i = Some (j, s, e)) as Hc by (by rewrite <-Hgs, list_lookup_fmap, Hi).
  destruct (Hfin i j s e Hc) as [b Hb]. exists b. splits; [|done|done].
  unfold ghost_calls in Hb. rewrite list_lookup_fmap, Hi in Hb. simpl in Hb. by destruct φ; simplify_eq/=.
Qed.

Lemma call_ghost calls gs i j s e :
  gs.*1 = calls → calls !! i = Some (j, s, e) → ∃ φ, gs !! i = Some (j, s, e, φ).
Proof.
  intros <- Hc. rewrite list_lookup_fmap in Hc. destruct (gs !! i) as [[x φ]|]; [|done]. simplify_eq/=. by exists φ.
Qed.

Lemma kept_start s e lo cs r calls : unseen s e lo cs r → kept (mem_key s e) lo (start calls) cs r.
Proof.
  intros [Hr Hm]. split.
  - intros t s' e' Ht Hk Hv. assert (buildKey s' e' = buildKey s e) as Hb by by apply buildKey_mem_key.
    rewrite Hb, Hr in Hv by done. by destruct Hv.
  - intros j c Hc Hk. by destruct (Hm j c Hc).
  - intros Hl. by apply start_no_call in Hl.
Qed.

(** In a finished pool a call for the event won. *)
Lemma kept_winner calls gs cs r t s e j0 :
  gs.*1 = calls → finished calls (ghost_calls w gs) → Forall (λ x, no_colon x.1.2) calls → (j0, s, e) ∈ calls →
  kept (mem_key s e) t gs cs r →
  ∃ i j, calls !! i = Some (j, s, e) ∧ ghost_calls w gs !! i = Some (j, HRet true).
Proof.
  intros Hgs Hfin Hnc Hin Hk. rewrite Forall_forall in Hnc.
  assert (some_call (λ g, wins g || pending g) (mem_key s e) gs) as (i & [[[j s'] e'] φ] & Hi & Hkey & Hw).
  { apply list_elem_of_lookup in Hin as [i Hi]. destruct (call_ghost _ _ _ _ _ _ Hgs Hi) as [φ Hg].
    destruct (finished_done _ _ _ _ _ _ _ Hgs Hfin Hg) as ([] & -> & _).
    - exists i. eexists. split; [done|]. by rewrite holds_key_iff.
    - apply (kp_losers _ _ _ _ _ Hk). exists i. eexists. split; [done|]. by rewrite holds_key_iff. }
  apply holds_key_iff in Hkey. destruct (finished_done _ _ _ _ _ _ _ Hgs Hfin Hi) as (b & -> & Hc & Hp).
  destruct b; [|done]. apply (Hnc _) in Hin as Hs. assert ((j, s', e') ∈ calls) as Hs'%Hnc by by eapply list_elem_of_lookup_2.
  simpl in *. destruct (same_event s' s e' e Hs' Hs Hkey) as [-> ->]. by exists i, j.
Qed.

(** no event is lost: whatever Redis commands fail, before or after their
    execution, and however the calls of several processes interleave, when all
    calls have returned at least one call [add] of a new event returned [true],
    so the event is processed. *)
Theorem dedup_never_loses s e j0 calls lo hi cs r ps' cs' r' :
  unseen s e lo cs r → Forall (λ x, no_colon x.1.2) calls → (j0, s, e) ∈ calls →
  hpool_steps (λ _, True) lo hi (add_calls w calls, cs, r) (ps', cs', r') → finished calls ps' →
  ∃ i j, calls !! i = Some (j, s, e) ∧ ps' !! i = Some (j, HRet true).
Proof.
  intros Hun Hnc Hin Hsteps Hfin. rewrite add_calls_ghost in Hsteps.
  destruct (ghost_steps w (λ _, True) (kept (mem_key s e)) lo hi (start calls) cs r (ps', cs', r'))
    as (t & gs & cs2 & r2 & [= -> -> ->] & Hgs & Hk).
  - intros t t' f gs2 cs2 r2 i j s2 e2 φ φ' c c' r3 Ht _ Hk Hi Hj Hs.
    by apply (kept_step w _ t t' f gs2 cs2 r2 i j s2 e2 φ φ' c c' r3); try lia.
  - exact Hsteps.
  - by apply kept_start.
  - rewrite start_labels in Hgs. by eapply kept_winner.
Qed.

(** C4: exactly once: when Redis answers, of all calls [add] of a new event by any
    number of processes within the window, however they interleave, exactly one
    returns [true]. *)
Theorem dedup_exactly_once s e j0 calls lo hi cs r ps' cs' r' :
  0 < w → hi < lo + w * 1000 →
  unseen s e lo cs r → Forall (λ x, no_colon x.1.2) calls → (j0, s, e) ∈ calls →
  hpool_steps (λ f, f = NoFault) lo hi (add_calls w calls, cs, r) (ps', cs', r') → finished calls ps' →
  ∃ i j, calls !! i = Some (j, s, e) ∧ ps' !! i = Some (j, HRet true) ∧
    ∀ i' j', calls !! i' = Some (j', s, e) → ps' !! i' = Some (j', HRet true) → i' = i.
Proof.
  intros Hpos Hhi Hun Hnc Hin Hsteps Hfin. rewrite add_calls_ghost in Hsteps.
  destruct (ghost_steps w (λ f, f = NoFault) (λ t gs cs r, kept (mem_key s e) t gs cs r ∧ once (mem_key s e) lo hi t gs r)
    lo hi (start calls) cs r (ps', cs', r')) as (t & gs & cs2 & r2 & [= -> -> ->] & Hgs & Hk & Ho).
  - intros t t' f gs2 cs2 r2 i j s2 e2 φ φ' c c' r3 Ht -> [Hk Ho] Hi Hj Hs. split.
    + by apply (kept_step w _ t t' NoFault gs2 cs2 r2 i j s2 e2 φ φ' c c' r3); try lia.
    + by apply (once_step w _ lo hi t t' gs2 r2 i j s2 e2 φ φ' c c' r3).
  - exact Hsteps.
  - split; [by apply kept_start|]. split; [done| | |by apply start_no_call].
    + intros i i' g g' Hg _ Hk _ Hw. exfalso. apply (start_no_call wins (mem_key s e) calls); [done|]. by exists i, g.
    + intros ? ? ? Hw. by apply start_no_call in Hw.
  - rewrite start_labels in Hgs. destruct (kept_winner _ _ _ _ _ _ _ _ Hgs Hfin Hnc Hin Hk) as (i & j & Hc & Hp).
    exists i, j. splits; [done..|]. intros i' j' Hc' Hp'.
    destruct (call_ghost _ _ _ _ _ _ Hgs Hc) as [φ Hg], (call_ghost _ _ _ _ _ _ Hgs Hc') as [φ' Hg'].
    destruct (finished_done _ _ _ _ _ _ _ Hgs Hfin Hg) as (b & -> & _ & Hb).
    destruct (finished_done _ _ _ _ _ _ _ Hgs Hfin Hg') as (b' & -> & _ & Hb'). simplify_eq.
    apply (on_one _ _ _ _ _ _ Ho i' i _ _ Hg' Hg); try done; by rewrite holds_key_iff.
Qed.
End theorems.

(** ** Two processes on one server *)

Definition two_calls : list (nat * string * string) := [(0%nat, "stream-1", "e"); (1%nat, "stream-1", "e")].

Definition answers_are (a b : bool) : list (nat * hprog cache bool) := [(0%nat, HRet a); (1%nat, HRet b)].

Lemma two_calls_unseen : unseen (R:=gredis) "stream-1" "e" 0 [[]; []] ∅.
Proof.
  split; [done|]. intros j c Hc. destruct j as [|[|j]]; simpl in Hc; simplify_eq; apply not_elem_of_nil.
Qed.

(** Both find their memory empty; the reply to the first [SET NX] is lost, so the
    first process admits the event and the second is refused by Redis. *)
Lemma dedup_never_loses_witness :
  ∃ i j, two_calls !! i = Some (j, "stream-1", "e") ∧ answers_are true false !! i = Some (j, HRet true).
Proof.
  eapply (dedup_never_loses (R:=gredis) 60 "stream-1" "e" 0 two_calls 0 10 [[]; []] ∅ (answers_are true false)).
  - exact two_calls_unseen.
  - repeat constructor; discriminate.
  - left.
  - call_step 1 NoFault 0%nat. call_step 2 NoFault 1%nat. call_step 3 (ReplyLost "reset") 0%nat.
    call_step 4 NoFault 1%nat. call_step 5 NoFault 0%nat. apply hsteps_nil.
  - intros [|[|i]] j s e Hi; simpl in Hi; simplify_eq; by eexists.
Defined.

Lemma dedup_exactly_once_witness :
  ∃ i j, two_calls !! i = Some (j, "stream-1", "e") ∧ answers_are false true !! i = Some (j, HRet true) ∧
    ∀ i' j', two_calls !! i' = Some (j', "stream-1", "e") →
      answers_are false true !! i' = Some (j', HRet true) → i' = i.
Proof.
  eapply (dedup_exactly_once (R:=gredis) 60 "stream-1" "e" 0 two_calls 0 10 [[]; []] ∅ (answers_are false true)).
  - lia.
  - lia.
  - exact two_calls_unseen.
  - repeat constructor; discriminate.
  - left.
  - call_step 1 NoFault 0%nat. call_step 2 NoFault 1%nat. call_step 3 NoFault 1%nat.
    call_step 4 NoFault 0%nat. call_step 5 NoFault 1%nat. apply hsteps_nil.
  - intros [|[|i]] j s e Hi; simpl in Hi; simplify_eq; by eexists.
Defined.
