(* ===== verification/LeaderElection.v ===== *)
(** * Leader election of the indexer ([src/indexer/leaderElection.ts])

    [RedisIndexerLeaderElection]: the lease key, the fencing counter, the
    heartbeat.  A method alternates Redis commands and accesses of the node's
    fields, so it is an [hprog] over [Node]; the timer is a flag and a tick of it
    is a call of [renew].  Logging and metrics are left out. *)
From Stdlib Require Import Ascii ZArith Lia.
From stdpp Require Import base gmap strings list sorting.
From S2P Require Import Prelude Redis.
Local Open Scope string_scope.
Local Open Scope list_scope.
Local Open Scope Z_scope.

Definition LEADER_KEY : string := "indexer:leader-election:replay".
Definition FENCE_KEY : string := "indexer:leader-election:replay:fence".
Definition DEFAULT_LEASE_MS : Z := 15000.

(** The mutable fields; [heartbeat] tells whether the timer runs. *)
Record Node : Type := {
  isLeader : bool;
  fencingToken : Z;
  heartbeat : bool;
  lastRenewAttemptMs : Z;
}.

Definition new_node : Node := {| isLeader := false; fencingToken := 0; heartbeat := false; lastRenewAttemptMs := 0 |}.

Definition getFencingToken (n : Node) : Z := fencingToken n.

(** [Number(raw)] on what [INCR] leaves in the counter, 0 otherwise. *)
Definition fence_number (raw : option string) : Z := default 0 (int_value raw).

(** The client has no method [peexpire], so the call throws a [TypeError]. *)
Definition peexpire : result string bool := Err "this.redis.peexpire is not a function".

Section election.
Context (leaseMs : Z) (instanceId : string).

(** A fresh acquisition with token [token]; the timer is started when idle. *)
Definition acquired (token : Z) (now : Z) (_ : Node) : unit * Node :=
  (tt, {| isLeader := true; fencingToken := token; heartbeat := true; lastRenewAttemptMs := now |}).

(** The lease was already ours. *)
Definition confirmed (token : Z) (now : Z) (n : Node) : unit * Node :=
  (tt, {| isLeader := true; fencingToken := token; heartbeat := true;
          lastRenewAttemptMs := if heartbeat n then lastRenewAttemptMs n else now |}).

Definition not_leader (now : Z) (n : Node) : unit * Node :=
  (tt, {| isLeader := false; fencingToken := fencingToken n; heartbeat := heartbeat n;
          lastRenewAttemptMs := lastRenewAttemptMs n |}).

(** [isLeader] is cleared and the timer stopped. *)
Definition resign (now : Z) (n : Node) : unit * Node :=
  (tt, {| isLeader := false; fencingToken := fencingToken n; heartbeat := false;
          lastRenewAttemptMs := lastRenewAttemptMs n |}).

(** The [catch] branch and the branch of a lease held by another instance. *)
Definition refuse : hprog Node bool := HMem not_leader (λ _, HRet false).

Definition bump_fence : hprog Node bool :=
  HRedis (RIncr FENCE_KEY) (λ r,
    match r with Ok token => HMem (acquired token) (λ _, HRet true) | Err _ => refuse end).

Definition reconfirm : hprog Node bool :=
  HRedis (RGet FENCE_KEY) (λ r,
    match r with Ok raw => HMem (confirmed (fence_number raw)) (λ _, HRet true) | Err _ => refuse end).

Definition read_holder : hprog Node bool :=
  HRedis (RGet LEADER_KEY) (λ r,
    match r with
    | Ok current => if bool_decide (current = Some instanceId) then reconfirm else refuse
    | Err _ => refuse
    end).

Definition tryAcquire : hprog Node bool :=
  HRedis (RSetNx LEADER_KEY instanceId leaseMs) (λ r,
    match r with Ok true => bump_fence | Ok false => read_holder | Err _ => refuse end).

(** Errors of the two commands are only logged. *)
Definition release : hprog Node unit :=
  HMem resign (λ _,
    HRedis (RGet LEADER_KEY) (λ r,
      match r with
      | Ok current =>
          if bool_decide (current = Some instanceId) then HRedis (RDel LEADER_KEY) (λ _, HRet tt) else HRet tt
      | Err _ => HRet tt
      end)).

(** The guard before the commands: [false] when the process slept for a lease. *)
Definition renew_guard (now : Z) (n : Node) : bool * Node :=
  let elapsed := if lastRenewAttemptMs n <=? now then now - lastRenewAttemptMs n else 0 in
  if leaseMs <? elapsed then (false, (resign now n).2)
  else (true, {| isLeader := isLeader n; fencingToken := fencingToken n; heartbeat := heartbeat n;
                 lastRenewAttemptMs := now |}).

Definition drop_lease : hprog Node unit := HMem resign (λ _, HRet tt).

Definition renew : hprog Node unit :=
  HMem renew_guard (λ go,
    if negb go then HRet tt else
    HRedis (RGet LEADER_KEY) (λ r,
      match r with
      | Err _ => HRet tt
      | Ok current =>
          if negb (bool_decide (current = Some instanceId)) then drop_lease
          else match peexpire with
               | Ok true => HRet tt
               | Ok false => drop_lease
               | Err _ => HRet tt
               end
      end)).
End election.

(** ** Ticks of the timer *)

Section ticks.
Context {R : Type} `{RedisServer R} (leaseMs : Z) (instanceId : string).

(** Ticks at the given times, each alone and under its fault; a stopped timer
    does nothing. *)
Fixpoint ticks (ts : list (Z * fault)) (n : Node) (r : R) : Node * R :=
  match ts with
  | [] => (n, r)
  | (t, f) :: ts =>
      if heartbeat n then let '(_, n', r') := hrun t f (renew leaseMs instanceId) n r in ticks ts n' r'
      else ticks ts n r
  end.
End ticks.

(** ** The two keys *)

Section election_lemmas.
Context {R : Type} `{RedisLaws R} (leaseMs : Z).
Implicit Types (r : R) (n : Node) (id : string).

(** The counter holds a number at all times from [t] on. *)
Definition fence_ok (t : Z) r : Prop :=
  ∀ t', t <= t' → ∃ k, 0 <= k ∧ int_value (srv_view t' r FENCE_KEY) = Some k.

Lemma int_value_string k : 0 <= k → int_value (Some (int_string k)) = Some k.
Proof.
  intros Hk. unfold int_value, int_string, int_text. destruct (Z.ltb_spec k 0); [lia|].
  destruct (nat_text_spec k Hk) as (Hne & Hd & Hv). rewrite chars_unchars, Hd, Hv. by destruct (nat_text k).
Qed.

(** The lease key is free from [t] on. *)
Definition lease_free (t : Z) r : Prop := ∀ t', t <= t' → srv_view t' r LEADER_KEY = None.

Lemma incr_lease t r t' : fence_ok t r → srv_view t' (srv_exec t (RIncr FENCE_KEY) r).2 LEADER_KEY = srv_view t' r LEADER_KEY.
Proof.
  intros Hf. destruct (Hf t ltac:(lia)) as (k & Hk & Hv). destruct (law_incr t FENCE_KEY r k Hv Hk) as (_ & _ & Ho).
  by apply Ho.
Qed.

Lemma incr_fence_ok t r : fence_ok t r → fence_ok t (srv_exec t (RIncr FENCE_KEY) r).2.
Proof.
  intros Hf t' Ht. destruct (Hf t ltac:(lia)) as (k & Hk & Hv). destruct (law_incr t FENCE_KEY r k Hv Hk) as (_ & Hi & _).
  rewrite Hi by done. case_decide; [by exists 0|]. exists (k + 1). split; [lia|]. apply int_value_string. lia.
Qed.

Lemma setnx_fence_ok t k v px r : k ≠ FENCE_KEY → fence_ok t r → fence_ok t (srv_exec t (RSetNx k v px) r).2.
Proof. intros Hk Hf t' Ht. rewrite view_other_setnx by done. by apply Hf. Qed.

Lemma fence_ok_mono t t' r : t <= t' → fence_ok t r → fence_ok t' r.
Proof. intros Ht Hf t1 Ht1. apply Hf. lia. Qed.

(** What the reply to a command leaves of the server. *)
Lemma reply_server {X} t f (c : rcmd X) r : (reply t f c r).2 = r ∨ (reply t f c r).2 = (srv_exec t c r).2.
Proof. unfold reply. destruct (client_accepts c); [|by left]. destruct f; simpl; auto. by destruct (srv_exec t c r); right. Qed.

Lemma reply_get t f k r : (reply t f (RGet k) r).2 = r.
Proof. destruct (reply_server t f (RGet k) r) as [->| ->]; [done|]. by rewrite law_get. Qed.

Lemma reply_get_ok t f k r x : (reply t f (RGet k) r).1 = Ok x → x = srv_view t r k.
Proof. unfold reply. simpl. destruct f; simpl; try done. rewrite law_get. simpl. congruence. Qed.

(** ** Concurrent acquisitions *)

(** What a call of [tryAcquire] can be between two actions, and whether it relies
    on the lease being its own. *)
Inductive acquire_form (id : string) : bool → hprog Node bool → Prop :=
| af_start : acquire_form id false (tryAcquire leaseMs id)
| af_bump : acquire_form id true bump_fence
| af_acquired k : acquire_form id true (HMem (acquired k) (λ _, HRet true))
| af_read : acquire_form id false (read_holder id)
| af_reconfirm : acquire_form id true reconfirm
| af_confirmed k : acquire_form id true (HMem (confirmed k) (λ _, HRet true))
| af_refuse : acquire_form id false refuse
| af_done b : acquire_form id b (HRet b).

(** From [t] to [hi] the lease is [id]'s. *)
Definition held (id : string) (t hi : Z) r : Prop := ∀ t', t <= t' <= hi → srv_view t' r LEADER_KEY = Some id.

(** From [t] to [hi] the lease does not change hands by itself. *)
Definition stable (t hi : Z) r : Prop :=
  ∀ t1 t2, t <= t1 <= hi → t <= t2 <= hi → srv_view t1 r LEADER_KEY = srv_view t2 r LEADER_KEY.

(** What an action of a call does to the server and the node. *)
Record lease_step (id : string) (b b' : bool) (t hi : Z) (n n' : Node) r r' : Prop := {
  ls_held id' : held id' t hi r → held id' t hi r';
  ls_won : b' = true → b = true ∨ held id t hi r';
  ls_stable : stable t hi r';
  ls_fence : fence_ok t r';
  ls_node : isLeader n' = true → isLeader n = true ∨ b' = true;
}.

Lemma lease_same id b b' t hi n n' r :
  stable t hi r → fence_ok t r → (b' = true → b = true ∨ held id t hi r) →
  (isLeader n' = true → isLeader n = true ∨ b' = true) → lease_step id b b' t hi n n' r r.
Proof. intros. by split. Qed.

(** The [SET NX] of a call. *)
Lemma lease_setnx id t hi n r :
  0 < leaseMs → t <= hi → hi < t + leaseMs → stable t hi r → fence_ok t r →
  lease_step id false (srv_exec t (RSetNx LEADER_KEY id leaseMs) r).1 t hi n n r
    (srv_exec t (RSetNx LEADER_KEY id leaseMs) r).2.
Proof.
  intros Hpos Ht Hhi Hst Hf. destruct (srv_view t r LEADER_KEY) as [v|] eqn:Hv.
  - rewrite law_setnx_held by eauto. by apply lease_same; auto.
  - rewrite law_setnx_free by done.
    assert (held id t hi (srv_exec t (RSetNx LEADER_KEY id leaseMs) r).2) as Hnew.
    { intros t' Ht'. rewrite law_setnx_view by (done || lia). rewrite decide_True by done.
      destruct (Z.ltb_spec t' (t + leaseMs)); [done|lia]. }
    split; auto.
    + intros id' Hid. specialize (Hid t ltac:(lia)). congruence.
    + intros t1 t2 H1 H2. by rewrite !Hnew.
    + by apply setnx_fence_ok.
Qed.

Lemma lease_lost id b b' t hi n n' r r' :
  lease_step id b b' t hi n n r r' → (isLeader n' = true → isLeader n = true) → lease_step id b false t hi n n' r r'.
Proof. intros [] Hn. split; auto. done. Qed.

(** The [INCR] of a call, answered or not. *)
Lemma lease_incr id t hi f n r b' :
  t <= hi → stable t hi r → fence_ok t r → lease_step id true b' t hi n n r (reply t f (RIncr FENCE_KEY) r).2.
Proof.
  intros Ht Hst Hf. destruct (reply_server t f (RIncr FENCE_KEY) r) as [-> | ->]; [by apply lease_same; auto|].
  split; auto.
  - intros id' Hid t' Ht'. rewrite incr_lease by done. by apply Hid.
  - intros t1 t2 H1 H2. rewrite !incr_lease by done. by apply Hst.
  - by apply incr_fence_ok.
Qed.

Lemma acquire_step id b t hi f p n r p' n' r' :
  0 < leaseMs → t <= hi → hi < t + leaseMs → stable t hi r → fence_ok t r →
  acquire_form id b p → hstep t f p n r = Some (p', n', r') →
  ∃ b', acquire_form id b' p' ∧ lease_step id b b' t hi n n' r r'.
Proof.
  intros Hpos Ht Hhi Hst Hf Hform Hs.
  assert (∀ b0, lease_step id b0 false t hi n n r r) as Hsame by (intros; by apply lease_same; auto).
  destruct Hform as [| |k| | |k| |b]; simpl in Hs; simplify_eq.
  - pose proof (lease_setnx id t hi n r Hpos Ht Hhi Hst Hf) as Hl. unfold reply in Hs. simpl in Hs.
    destruct (Z.ltb_spec 0 leaseMs); [|lia].
    pose proof (lease_lost _ _ _ _ _ _ n _ _ Hl (λ x, x)) as Hlost.
    destruct f; simplify_eq; [|by exists false; (split; [constructor|])..].
    destruct (srv_exec t _ r) as [[] r1]; simplify_eq; eexists; (split; [constructor|]); done.
  - pose proof (lease_incr id t hi f n r) as Hl. destruct (reply t f _ r) as [[k|e] r1]; simplify_eq.
    + exists true. split; [constructor|]. by apply Hl.
    + exists false. split; [constructor|]. by apply Hl.
  - exists true. split; [constructor|]. apply lease_same; auto.
  - pose proof (reply_get t f LEADER_KEY r) as Hr. pose proof (reply_get_ok t f LEADER_KEY r) as Hv.
    destruct (reply t f _ r) as [[v|e] r1]; simplify_eq/=; [|by exists false; (split; [constructor|])].
    rewrite (Hv v eq_refl). case_bool_decide as Hid; [|by exists false; (split; [constructor|])].
    exists true. split; [constructor|]. apply lease_same; auto. intros _. right. intros t' Ht'.
    rewrite <-Hid. apply Hst; lia.
  - pose proof (reply_get t f FENCE_KEY r) as Hr. destruct (reply t f _ r) as [[v|e] r1]; simplify_eq/=.
    + exists true. split; [constructor|]. apply lease_same; auto.
    + exists false. split; [constructor|]. done.
  - exists true. split; [constructor|]. apply lease_same; auto.
  - exists false. split; [constructor|]. apply (lease_lost _ _ false _ _ n); auto. done.
Qed.

(** ** One leader per lease *)

Definition acquire_calls (calls : list (nat * string)) : list (nat * hprog Node bool) :=
  (λ '(j, id), (j, tryAcquire leaseMs id)) <$> calls.

(** Everybody who relies on the lease holds it, and a leader relies on it. *)
Record lease_inv (ids : list string) (calls : list (nat * string)) (t hi : Z)
    (ps : list (nat * hprog Node bool)) (ns : list Node) r : Prop := {
  li_stable : stable t hi r;
  li_fence : fence_ok t r;
  li_calls i j id : calls !! i = Some (j, id) →
    ∃ p b, ps !! i = Some (j, p) ∧ acquire_form id b p ∧ (b = true → held id t hi r);
  li_nodes j n id : ns !! j = Some n → ids !! j = Some id → isLeader n = true → held id t hi r;
  li_bound : length ps = length calls;
  li_ids : length ns = length ids;
}.

Lemma lease_inv_step ids calls lo t t' hi f ps ns r q :
  0 < leaseMs → lo <= t → hi < lo + leaseMs → Forall (λ x, ids !! x.1 = Some x.2) calls →
  lease_inv ids calls t hi ps ns r → t <= t' <= hi → hpool_step t' f (ps, ns, r) q →
  lease_inv ids calls t' hi q.1.1 q.1.2 q.2.
Proof.
  intros Hpos Hlo Hhi Hids Hinv Ht Hs. inversion Hs as [i j ps0 ns0 r0 p n p' n' r' Hp Hn Hstep E1 E2]. simplify_eq. simpl.
  destruct (calls !! i) as [[j' id]|] eqn:Hc; last first.
  { apply lookup_lt_Some in Hp. rewrite (li_bound _ _ _ _ _ _ _ Hinv) in Hp. apply lookup_ge_None in Hc. lia. }
  destruct (li_calls _ _ _ _ _ _ _ Hinv i j' id Hc) as (p1 & b & Hp1 & Hform & Hb). simplify_eq.
  assert (held id t hi r → held id t' hi r) as Hlater by (intros Hh t1 Ht1; apply Hh; lia).
  assert (stable t' hi r) as Hst by (intros ????; apply (li_stable _ _ _ _ _ _ _ Hinv); lia).
  pose proof (fence_ok_mono t t' r ltac:(lia) (li_fence _ _ _ _ _ _ _ Hinv)) as Hf.
  destruct (acquire_step id b t' hi f p n r p' n' r' Hpos ltac:(lia) ltac:(lia) Hst Hf Hform Hstep) as (b' & Hform' & Hl).
  assert (∀ id', held id' t hi r → held id' t' hi r') as Hkeep.
  { intros id' Hh. apply (ls_held _ _ _ _ _ _ _ _ _ Hl). intros t1 Ht1. apply Hh. lia. }
  assert (b' = true → held id t' hi r') as Hmine.
  { intros Hb'. destruct (ls_won _ _ _ _ _ _ _ _ _ Hl Hb') as [Hb1|?]; [|done]. by apply Hkeep, Hb. }
  assert (ids !! j = Some id) as Hid by (by apply (Forall_lookup_1 _ _ _ _ Hids Hc)).
  split.
  - apply Hl.
  - apply Hl.
  - intros i2 j2 id2 Hc2. destruct (decide (i2 = i)) as [->|Hne].
    + simplify_eq. exists p', b'. rewrite list_lookup_insert_eq by (by apply lookup_lt_Some in Hp). auto.
    + destruct (li_calls _ _ _ _ _ _ _ Hinv i2 j2 id2 Hc2) as (p2 & b2 & Hp2 & Hform2 & Hb2).
      exists p2, b2. rewrite list_lookup_insert_ne by done. auto.
  - intros j2 n2 id2 Hn2 Hid2 Hlead. apply list_lookup_insert_Some in Hn2 as [(-> & <- & _)|[Hne Hn2]].
    + simplify_eq. destruct (ls_node _ _ _ _ _ _ _ _ _ Hl Hlead) as [Hl1|?]; [|by apply Hmine].
      apply Hkeep. by eapply (li_nodes _ _ _ _ _ _ _ Hinv).
    + apply Hkeep. by eapply (li_nodes _ _ _ _ _ _ _ Hinv).
  - rewrite length_insert. apply Hinv.
  - rewrite length_insert. apply Hinv.
Qed.

Lemma lease_inv_steps ids calls lo0 lo hi ps ns r q :
  0 < leaseMs → lo0 <= lo → hi < lo0 + leaseMs → Forall (λ x, ids !! x.1 = Some x.2) calls →
  lease_inv ids calls lo hi ps ns r → hpool_steps (λ _, True) lo hi (ps, ns, r) q →
  ∃ t, t <= Z.max lo hi ∧ lease_inv ids calls t hi q.1.1 q.1.2 q.2.
Proof.
  intros Hpos Hlo Hhi Hids Hinv Hsteps. remember (ps, ns, r) as q0 eqn:Hq0. revert ps ns r Hlo Hinv Hq0.
  induction Hsteps as [lo hi q|lo hi t f q1 q2 q3 Ht _ Hs Hsteps IH]; intros ps ns r Hlo Hinv ->.
  - exists lo. split; [lia|done].
  - pose proof (lease_inv_step _ _ lo0 lo t hi f _ _ _ _ Hpos Hlo Hhi Hids Hinv Ht Hs) as Hinv2.
    destruct q2 as [[ps2 ns2] r2]. destruct (IH Hhi ps2 ns2 r2 ltac:(lia) Hinv2 eq_refl) as (t' & Ht' & Hinv').
    exists t'. split; [lia|done].
Qed.

(** C19: one leader per lease: when the lease is free and no node leads, of all
    concurrent calls of [tryAcquire] by any number of instances within one lease
    time, however they interleave and whatever commands fail, only calls of one
    instance return [true] and at most one node believes to be the leader. *)
Theorem one_leader_per_lease ids calls lo hi ns r ps' ns' r' :
  0 < leaseMs → lo <= hi < lo + leaseMs → NoDup ids → Forall (λ x, ids !! x.1 = Some x.2) calls →
  Forall (λ n, isLeader n = false) ns → length ns = length ids → lease_free lo r → fence_ok lo r →
  hpool_steps (λ _, True) lo hi (acquire_calls calls, ns, r) (ps', ns', r') →
  (∀ j j' n n', ns' !! j = Some n → ns' !! j' = Some n' → isLeader n = true → isLeader n' = true → j = j') ∧
  (∀ i i' j j' id id', calls !! i = Some (j, id) → calls !! i' = Some (j', id') →
     ps' !! i = Some (j, HRet true) → ps' !! i' = Some (j', HRet true) → id = id').
Proof.
  intros Hpos Hhi Hnd Hids Hns Hlen Hfree Hf Hsteps.
  destruct (lease_inv_steps ids calls lo lo hi (acquire_calls calls) ns r (ps', ns', r')) as (t & Ht & Hinv); try done; [lia..| |].
  { split; [|done| | | |done].
    - intros t1 t2 H1 H2. by rewrite !Hfree by lia.
    - intros i j id Hc. exists (tryAcquire leaseMs id), false. splits; [|constructor|done].
      unfold acquire_calls. by rewrite list_lookup_fmap, Hc.
    - intros j n id Hn _ Hl. rewrite (Forall_lookup_1 _ _ _ _ Hns Hn) in Hl. done.
    - unfold acquire_calls. by rewrite length_fmap. }
  simpl in Hinv. assert (∀ id id', held id t hi r' → held id' t hi r' → id = id') as Hone.
  { intros id id' Hh Hh'. specialize (Hh hi ltac:(lia)). specialize (Hh' hi ltac:(lia)). congruence. }
  split.
  - intros j j' n n' Hn Hn' Hl Hl'.
    destruct (lookup_lt_is_Some_2 ids j) as [id Hid]; [rewrite <-(li_ids _ _ _ _ _ _ _ Hinv); by apply lookup_lt_Some in Hn|].
    destruct (lookup_lt_is_Some_2 ids j') as [id' Hid']; [rewrite <-(li_ids _ _ _ _ _ _ _ Hinv); by apply lookup_lt_Some in Hn'|].
    assert (id = id') as -> by (apply Hone; [by apply (li_nodes _ _ _ _ _ _ _ Hinv j n)|by apply (li_nodes _ _ _ _ _ _ _ Hinv j' n')]).
    by apply (NoDup_lookup ids j j' id').
  - intros i i' j j' id id' Hc Hc' Hp Hp'. apply Hone.
    + destruct (li_calls _ _ _ _ _ _ _ Hinv i j id Hc) as (p & b & Hp2 & Hform & Hb). simplify_eq.
      inversion Hform; subst. by apply Hb.
    + destruct (li_calls _ _ _ _ _ _ _ Hinv i' j' id' Hc') as (p & b & Hp2 & Hform & Hb). simplify_eq.
      inversion Hform; subst. by apply Hb.
Qed.

(** ** The heartbeat *)

(** A fresh acquisition alone: the lease is [id]'s for one lease time. *)
Lemma hrun_acquire_free t n id r :
  0 < leaseMs → lease_free t r → fence_ok t r →
  ∃ k r', hrun t NoFault (tryAcquire leaseMs id) n r = (true, (acquired k t n).2, r') ∧
    ∀ t', t <= t' → srv_view t' r' LEADER_KEY = if t' <? t + leaseMs then Some id else None.
Proof.
  intros Hpos Hfree Hf. simpl. unfold reply. simpl. destruct (Z.ltb_spec 0 leaseMs); [|lia].
  pose proof (law_setnx_free t LEADER_KEY id leaseMs r (Hfree t ltac:(lia))) as Hs.
  pose proof (setnx_fence_ok t LEADER_KEY id leaseMs r ltac:(done) Hf) as Hf'.
  pose proof (λ t', law_setnx_view t LEADER_KEY id leaseMs r t' LEADER_KEY (Hfree t ltac:(lia))) as Hv.
  destruct (srv_exec t (RSetNx LEADER_KEY id leaseMs) r) as [ok r1]. simpl in *. subst ok. simpl. unfold reply. simpl.
  pose proof (λ t', incr_lease t r1 t' Hf') as Hi. destruct (srv_exec t (RIncr FENCE_KEY) r1) as [k r2].
  exists k, r2. split; [done|]. intros t' Ht'. simpl in Hi. by rewrite Hi, Hv by done.
Qed.

Lemma acquire_fence t n id r :
  0 < leaseMs → lease_free t r → fence_ok t r → fence_ok t (hrun t NoFault (tryAcquire leaseMs id) n r).2.
Proof.
  intros Hpos Hfree Hf. simpl. unfold reply. simpl. destruct (Z.ltb_spec 0 leaseMs); [|lia].
  pose proof (law_setnx_free t LEADER_KEY id leaseMs r (Hfree t ltac:(lia))) as Hs.
  pose proof (setnx_fence_ok t LEADER_KEY id leaseMs r ltac:(done) Hf) as Hf'.
  destruct (srv_exec t (RSetNx LEADER_KEY id leaseMs) r) as [ok r1]. simpl in *. subst ok. simpl.
  unfold reply. simpl. pose proof (incr_fence_ok t r1 Hf'). by destruct (srv_exec t (RIncr FENCE_KEY) r1).
Qed.

(** A tick on a node that slept less than a lease and whose lease is there: the
    node stays leader and the server is as before. *)
Lemma tick_keeps t f id n r :
  t - lastRenewAttemptMs n <= leaseMs → 0 < leaseMs → f ≠ NoFault ∨ srv_view t r LEADER_KEY = Some id →
  hrun t f (renew leaseMs id) n r =
    (tt, {| isLeader := isLeader n; fencingToken := fencingToken n; heartbeat := heartbeat n; lastRenewAttemptMs := t |}, r).
Proof.
  intros Hel Hpos Hv. unfold renew. cbn -[reply]. unfold renew_guard.
  destruct (Z.ltb_spec leaseMs (if lastRenewAttemptMs n <=? t then t - lastRenewAttemptMs n else 0)) as [Hlt|_].
  { destruct (lastRenewAttemptMs n <=? t); lia. }
  cbn -[reply]. pose proof (reply_get t f LEADER_KEY r) as Hr. pose proof (reply_get_ok t f LEADER_KEY r) as Hg.
  destruct (reply t f (RGet LEADER_KEY) r) as [[v|e] r1] eqn:Hrep; simpl in *; subst r1; [|done].
  specialize (Hg v eq_refl). subst v. destruct Hv as [Hf|Hv].
  - unfold reply in Hrep. simpl in Hrep. by destruct f.
  - by rewrite Hv, bool_decide_eq_true_2.
Qed.

(** A tick after the lease is gone ends the leadership. *)
Lemma tick_expired t id n r :
  srv_view t r LEADER_KEY = None → isLeader (hrun t NoFault (renew leaseMs id) n r).1.2 = false.
Proof.
  intros Hv. unfold renew. cbn -[reply]. unfold renew_guard. destruct (leaseMs <? _); [done|].
  cbn -[reply]. unfold reply. simpl. rewrite law_get. simpl. by rewrite Hv.
Qed.

(** Each tick at most [leaseMs] after the one before. *)
Fixpoint paced (last : Z) (ts : list (Z * fault)) : Prop :=
  match ts with [] => True | (t, _) :: ts => t - last <= leaseMs ∧ paced t ts end.

Lemma ticks_keep id ts n r :
  0 < leaseMs → isLeader n = true → heartbeat n = true → paced (lastRenewAttemptMs n) ts →
  Forall (λ x, x.2 ≠ NoFault ∨ srv_view x.1 r LEADER_KEY = Some id) ts →
  let '(n', r') := ticks leaseMs id ts n r in isLeader n' = true ∧ heartbeat n' = true ∧ r' = r.
Proof.
  intros Hpos. revert n. induction ts as [|[t f] ts IH]; intros n Hl Hh Hp Hts; cbn [ticks]; [done|].
  destruct Hp as [Hel Hp]. apply Forall_cons_iff in Hts as [Ht Hts]. rewrite Hh, tick_keeps by done.
  by apply IH.
Qed.

(** the heartbeat renews nothing: with Redis healthy and no other instance, a
    leader whose ticks all find its own lease is still leader after any number of
    them, but the lease on the server is the one it acquired, so the first tick
    from [t0 + leaseMs] on ends its leadership. *)
Theorem heartbeat_never_renews id t0 n r ts t :
  0 < leaseMs → lease_free t0 r → fence_ok t0 r → paced t0 ts →
  Forall (λ x, t0 <= x.1 < t0 + leaseMs ∧ x.2 = NoFault) ts → t0 + leaseMs <= t →
  let '(ok, n1, r1) := hrun t0 NoFault (tryAcquire leaseMs id) n r in
  let '(n2, r2) := ticks leaseMs id ts n1 r1 in
  ok = true ∧ isLeader n2 = true ∧ r2 = r1 ∧ isLeader (ticks leaseMs id [(t, NoFault)] n2 r2).1 = false.
Proof.
  intros Hpos Hfree Hf Hp Hts Ht. destruct (hrun_acquire_free t0 n id r Hpos Hfree Hf) as (k & r1 & -> & Hv).
  assert (Forall (λ x, x.2 ≠ NoFault ∨ srv_view x.1 r1 LEADER_KEY = Some id) ts) as Hts'.
  { apply (Forall_impl _ _ _ Hts). intros [t1 f] [Ht1 _]. right. simpl in *. rewrite Hv by lia.
    destruct (Z.ltb_spec t1 (t0 + leaseMs)); [done|lia]. }
  pose proof (ticks_keep id ts (acquired k t0 n).2 r1 Hpos eq_refl eq_refl Hp Hts') as Hk.
  destruct (ticks leaseMs id ts _ r1) as [n2 r2]. destruct Hk as (Hl & Hh & ->). splits; [done..|].
  cbn [ticks]. rewrite Hh. pose proof (tick_expired t id n2 r1) as He.
  destruct (hrun t NoFault (renew leaseMs id) n2 r1) as [[u n3] r3]. apply He. rewrite Hv by lia.
  destruct (Z.ltb_spec t (t0 + leaseMs)); [lia|done].
Qed.

(** an outage never ends a leadership: while its commands fail, a leader whose
    ticks fire on time stays leader for ever, although its lease expires on the
    server and another instance acquires it: then there are two leaders. *)
Theorem outage_keeps_stale_leader a b t0 n m r ts t :
  0 < leaseMs → lease_free t0 r → fence_ok t0 r → paced t0 ts → Forall (λ x, x.2 ≠ NoFault) ts → t0 + leaseMs <= t →
  let '(_, n1, r1) := hrun t0 NoFault (tryAcquire leaseMs a) n r in
  let '(n2, r2) := ticks leaseMs a ts n1 r1 in
  let '(ok, m1, r3) := hrun t NoFault (tryAcquire leaseMs b) m r2 in
  isLeader n2 = true ∧ heartbeat n2 = true ∧ ok = true ∧ isLeader m1 = true ∧ srv_view t r3 LEADER_KEY = Some b.
Proof.
  intros Hpos Hfree Hf Hp Hts Ht. pose proof (hrun_acquire_free t0 n a r Hpos Hfree Hf) as (k & r1 & Hacq & Hv).
  pose proof (acquire_fence t0 n a r Hpos Hfree Hf) as Hf1. rewrite Hacq in *.
  assert (Forall (λ x, x.2 ≠ NoFault ∨ srv_view x.1 r1 LEADER_KEY = Some a) ts) as Hts'.
  { apply (Forall_impl _ _ _ Hts). intros [t1 f] ?. by left. }
  pose proof (ticks_keep a ts (acquired k t0 n).2 r1 Hpos eq_refl eq_refl Hp Hts') as Hk.
  destruct (ticks leaseMs a ts _ r1) as [n2 r2]. destruct Hk as (Hl & Hh & ->).
  assert (lease_free t r1) as Hfree1.
  { intros t1 Ht1. rewrite Hv by lia. destruct (Z.ltb_spec t1 (t0 + leaseMs)); [lia|done]. }
  destruct (hrun_acquire_free t m b r1 Hpos Hfree1 (fence_ok_mono t0 t r1 ltac:(lia) Hf1)) as (k' & r3 & -> & Hv').
  splits; [done..|]. rewrite Hv' by lia. destruct (Z.ltb_spec t (t + leaseMs)); [done|lia].
Qed.

(** ** The fencing token *)
Lemma reply_answered {X} t (c : rcmd X) r :
  client_accepts c = true → reply t NoFault c r = (Ok (srv_exec t c r).1, (srv_exec t c r).2).
Proof. intros Hc. unfold reply. rewrite Hc. by destruct (srv_exec t c r). Qed.

Lemma setnx_answered t id r :
  0 < leaseMs → srv_view t r LEADER_KEY = None →
  reply t NoFault (RSetNx LEADER_KEY id leaseMs) r = (Ok true, (srv_exec t (RSetNx LEADER_KEY id leaseMs) r).2).
Proof.
  intros Hpos Hv. rewrite reply_answered by (simpl; by destruct (Z.ltb_spec 0 leaseMs); [|lia]).
  by rewrite law_setnx_free.
Qed.

(** The counter stands at [k] for good. *)
Definition fence_at (t k : Z) r : Prop :=
  0 <= k ∧ ∃ v, int_value v = Some k ∧ ∀ t', t <= t' → srv_view t' r FENCE_KEY = v.

Lemma fence_at_ok t k r : fence_at t k r → fence_ok t r.
Proof. intros (Hk & v & Hv & Hr) t' Ht'. exists k. by rewrite Hr. Qed.

Lemma fence_at_setnx t k v px r : fence_at t k r → fence_at t k (srv_exec t (RSetNx LEADER_KEY v px) r).2.
Proof. intros (Hk & x & Hx & Hr). split; [done|]. exists x. split; [done|]. intros t' Ht'. rewrite view_other_setnx by done. by apply Hr. Qed.

Lemma fence_at_mono t t' k r : t <= t' → fence_at t k r → fence_at t' k r.
Proof. intros Ht (Hk & x & Hx & Hr). split; [done|]. exists x. split; [done|]. intros. apply Hr. lia. Qed.

Lemma incr_answered t k r :
  fence_at t k r →
  reply t NoFault (RIncr FENCE_KEY) r = (Ok (k + 1), (srv_exec t (RIncr FENCE_KEY) r).2) ∧
  fence_at t (k + 1) (srv_exec t (RIncr FENCE_KEY) r).2.
Proof.
  intros (Hk & v & Hv & Hr). pose proof (Hr t ltac:(lia)) as Hrt.
  assert (int_value (srv_view t r FENCE_KEY) = Some k) as Hi by (by rewrite Hrt).
  destruct (law_incr t FENCE_KEY r k Hi Hk) as (H1 & H2 & _).
  rewrite reply_answered, H1 by done. split; [done|]. split; [lia|]. exists (Some (int_string (k + 1))).
  split; [apply int_value_string; lia|]. intros t' Ht'. rewrite H2 by done. rewrite !Hr by (done || lia).
  case_decide as Hd; [|done]. destruct Hd as [[x Hx] Hn]. congruence.
Qed.

(** the fencing token does not follow the lease: an instance that pauses
    between its [SET NX] and its [INCR] for one lease time becomes leader of an
    expired lease with a higher token than the instance that holds the lease, so
    a store that rejects lower tokens rejects the rightful leader. *)
Theorem stale_token_outranks a b t0 k n m r :
  0 < leaseMs → lease_free t0 r → fence_at t0 k r →
  ∃ na nb r',
    hpool_steps (λ f, f = NoFault) t0 (t0 + leaseMs)
      (acquire_calls [(0%nat, a); (1%nat, b)], [n; m], r) ([(0%nat, HRet true); (1%nat, HRet true)], [na; nb], r') ∧
    isLeader na = true ∧ isLeader nb = true ∧ srv_view (t0 + leaseMs) r' LEADER_KEY = Some b ∧
    getFencingToken nb = k + 1 ∧ getFencingToken na = k + 2.
Proof.
  intros Hpos Hfree Hf. set (t1 := t0 + leaseMs).
  pose proof (setnx_answered t0 a r Hpos (Hfree t0 ltac:(lia))) as Ha.
  set (r1 := (srv_exec t0 (RSetNx LEADER_KEY a leaseMs) r).2) in *.
  assert (∀ t', t1 <= t' → srv_view t' r1 LEADER_KEY = None) as Hv1.
  { intros t' Ht'. unfold r1. rewrite law_setnx_view by (apply Hfree || idtac; lia). rewrite decide_True by done.
    destruct (Z.ltb_spec t' (t0 + leaseMs)); [lia|done]. }
  pose proof (fence_at_mono t0 t1 _ _ ltac:(lia) (fence_at_setnx t0 k a leaseMs r Hf)) as Hf1. fold r1 in Hf1.
  pose proof (setnx_answered t1 b r1 Hpos (Hv1 t1 ltac:(lia))) as Hb.
  pose proof (fence_at_setnx t1 k b leaseMs r1 Hf1) as Hf2.
  assert (srv_view t1 (srv_exec t1 (RSetNx LEADER_KEY b leaseMs) r1).2 LEADER_KEY = Some b) as Hv2.
  { rewrite law_setnx_view by (apply Hv1 || idtac; lia). rewrite decide_True by done.
    destruct (Z.ltb_spec t1 (t1 + leaseMs)); [done|lia]. }
  set (r2 := (srv_exec t1 (RSetNx LEADER_KEY b leaseMs) r1).2) in *.
  destruct (incr_answered t1 k r2 Hf2) as [Hi1 Hf3]. set (r3 := (srv_exec t1 (RIncr FENCE_KEY) r2).2) in *.
  destruct (incr_answered t1 (k + 1) r3 Hf3) as [Hi2 Hf4].
  do 3 eexists. split.
  - eapply (hsteps_cons _ _ _ t0 NoFault); [lia|done|eapply (hpool_step_at _ _ 0%nat); [done|done|]|].
    { cbn -[reply]. by rewrite Ha. }
    do 3 (eapply (hsteps_cons _ _ _ t1 NoFault); [lia|done|eapply (hpool_step_at _ _ 1%nat); [done|done|]|];
      [cbn -[reply]; by rewrite ?Hb, ?Hi1|]).
    do 2 (eapply (hsteps_cons _ _ _ t1 NoFault); [lia|done|eapply (hpool_step_at _ _ 0%nat); [done|done|]|];
      [cbn -[reply]; by rewrite ?Hi2|]).
    apply hsteps_nil.
  - splits; try done.
    + rewrite incr_lease by (by apply fence_at_ok with (k + 1)). unfold r3. rewrite incr_lease by (by apply fence_at_ok with k). done.
    + simpl. lia.
Qed.
End election_lemmas.

(** ** Two instances on an empty server *)
Lemma empty_lease_free t : lease_free (R:=gredis) t ∅.
Proof. done. Qed.

Lemma empty_fence_ok t : fence_ok (R:=gredis) t ∅.
Proof. intros t' _. by exists 0. Qed.

Definition confirm_calls : list (nat * string) := [(0%nat, "a"); (1%nat, "b"); (0%nat, "a")].
Definition confirm_answers : list (nat * hprog Node bool) :=
  [(0%nat, HRet false); (1%nat, HRet false); (0%nat, HRet true)].

(** The first instance wins the lease while the reply to its [INCR] is lost, so
    nobody leads; its second call confirms the lease. *)
Lemma one_leader_per_lease_witness :
  NoDup ["a"; "b"] ∧
  ∀ i i' j j' id id', confirm_calls !! i = Some (j, id) → confirm_calls !! i' = Some (j', id') →
    confirm_answers !! i = Some (j, HRet true) → confirm_answers !! i' = Some (j', HRet true) → id = id'.
Proof.
  assert (NoDup ["a"; "b"]) as Hnd by (apply NoDup_cons; split; [by intros ?%list_elem_of_singleton|apply NoDup_singleton]).
  split; [exact Hnd|].
  eapply (one_leader_per_lease (R:=gredis) 100 ["a"; "b"] confirm_calls 0 50 [new_node; new_node] ∅ confirm_answers).
  - lia.
  - lia.
  - exact Hnd.
  - repeat constructor.
  - repeat constructor.
  - done.
  - apply empty_lease_free.
  - apply empty_fence_ok.
  - eapply (hsteps_cons _ _ _ 1 NoFault); [lia|done|eapply (hpool_step_at _ _ 0%nat); reflexivity|].
    eapply (hsteps_cons _ _ _ 2 NoFault); [lia|done|eapply (hpool_step_at _ _ 1%nat); reflexivity|].
    eapply (hsteps_cons _ _ _ 3 (ReplyLost "reset")); [lia|done|eapply (hpool_step_at _ _ 0%nat); reflexivity|].
    eapply (hsteps_cons _ _ _ 4 NoFault); [lia|done|eapply (hpool_step_at _ _ 0%nat); reflexivity|].
    do 2 (eapply (hsteps_cons _ _ _ 5 NoFault); [lia|done|eapply (hpool_step_at _ _ 1%nat); reflexivity|]).
    do 4 (eapply (hsteps_cons _ _ _ 6 NoFault); [lia|done|eapply (hpool_step_at _ _ 2%nat); reflexivity|]).
    apply hsteps_nil.
Defined.

(** Three ticks within the lease, then one at its end. *)
Lemma heartbeat_never_renews_witness :
  let '(ok, n1, r1) := hrun 0 NoFault (tryAcquire 15000 "a") new_node (∅ : gredis) in
  let '(n2, r2) := ticks 15000 "a" [(5000, NoFault); (10000, NoFault); (14999, NoFault)] n1 r1 in
  ok = true ∧ isLeader n2 = true ∧ r2 = r1 ∧ isLeader (ticks 15000 "a" [(15000, NoFault)] n2 r2).1 = false.
Proof.
  apply (heartbeat_never_renews (R:=gredis) 15000 "a" 0 new_node ∅ [(5000, NoFault); (10000, NoFault); (14999, NoFault)] 15000).
  - lia.
  - apply empty_lease_free.
  - apply empty_fence_ok.
  - simpl. lia.
  - repeat constructor; simpl; lia.
  - lia.
Defined.

Lemma outage_keeps_stale_leader_witness :
  let '(_, n1, r1) := hrun 0 NoFault (tryAcquire 15000 "a") new_node (∅ : gredis) in
  let '(n2, r2) := ticks 15000 "a" [(5000, Rejected "down"); (15000, Rejected "down"); (25000, ReplyLost "down")] n1 r1 in
  let '(ok, m1, r3) := hrun 26000 NoFault (tryAcquire 15000 "b") new_node r2 in
  isLeader n2 = true ∧ heartbeat n2 = true ∧ ok = true ∧ isLeader m1 = true ∧ srv_view 26000 r3 LEADER_KEY = Some "b".
Proof.
  apply (outage_keeps_stale_leader (R:=gredis) 15000 "a" "b" 0 new_node new_node ∅
    [(5000, Rejected "down"); (15000, Rejected "down"); (25000, ReplyLost "down")] 26000).
  - lia.
  - apply empty_lease_free.
  - apply empty_fence_ok.
  - simpl. lia.
  - repeat constructor; discriminate.
  - lia.
Defined.

Lemma stale_token_outranks_witness :
  ∃ na nb, isLeader na = true ∧ isLeader nb = true ∧ getFencingToken nb = 1 ∧ getFencingToken na = 2.
Proof.
  destruct (stale_token_outranks (R:=gredis) 15000 "a" "b" 0 0 new_node new_node ∅) as (na & nb & r' & _ & Ha & Hb & _ & Hn & Hm).
  - lia.
  - apply empty_lease_free.
  - split; [lia|]. by exists None.
  - by exists na, nb.
Defined.
