(* ===== verification/CircuitBreaker.v ===== *)
(** * The webhook circuit breaker ([src/redis/webhookCircuitBreakerStore.ts])

    Both implementations of [WebhookCircuitBreakerStore]: [Memory], a pair of
    maps, and the Redis store, whose methods are programs of commands, and the
    status shown to a receiver.  Keys are [hashConsumerUrl url]; the hash is a parameter.  The
    transition counter and the log lines are left out. *)
From Stdlib Require Import Ascii ZArith Lia.
From stdpp Require Import base gmap strings list countable.
From S2P Require Import Prelude Redis.
Local Open Scope string_scope.
Local Open Scope list_scope.
Local Open Scope Z_scope.

(** ** Data *)

Inductive WebhookCircuitBreakerPhase : Type := Closed | Open | HalfOpen.
#[global] Instance phase_eq_dec : EqDecision WebhookCircuitBreakerPhase.
Proof. solve_decision. Defined.

Record CircuitBreakerPolicy : Type := {
  circuitBreakerThreshold : option Z;
  circuitBreakerResetMs : option Z;
}.

Definition DEFAULT_WEBHOOK_CIRCUIT_BREAKER_THRESHOLD : Z := 0.
Definition DEFAULT_WEBHOOK_CIRCUIT_BREAKER_RESET_MS : Z := 300000.
Definition WEBHOOK_CIRCUIT_BREAKER_PROBE_LOCK_MAX_MS : Z := 60000.
Definition WEBHOOK_CIRCUIT_BREAKER_STATE_TTL_FLOOR_MS : Z := 300000.

Record WebhookCircuitBreakerRecord : Type := {
  state : WebhookCircuitBreakerPhase;
  consecutiveFailures : Z;
  resetAt : Z;
  lastFailureAt : option Z;
  expiresAt : Z;
}.

(** [Partial<WebhookCircuitBreakerRecord>], the type of the parsed JSON. *)
Record PartialRecord : Type := {
  p_state : option WebhookCircuitBreakerPhase;
  p_consecutiveFailures : option Z;
  p_resetAt : option Z;
  p_lastFailureAt : option Z;
  p_expiresAt : option Z;
}.

#[global] Instance phase_countable : Countable WebhookCircuitBreakerPhase.
Proof.
  refine (inj_countable' (λ s, match s with Closed => 0 | Open => 1 | HalfOpen => 2 end)
    (λ n, if n =? 0 then Closed else if n =? 1 then Open else HalfOpen) _). by intros [].
Defined.
#[global] Instance partial_eq_dec : EqDecision PartialRecord.
Proof. solve_decision. Defined.
#[global] Instance partial_countable : Countable PartialRecord.
Proof.
  refine (inj_countable' (λ r, (p_state r, p_consecutiveFailures r, p_resetAt r, p_lastFailureAt r, p_expiresAt r))
    (λ x, let '(a, b, c, d, e) := x in
      {| p_state := a; p_consecutiveFailures := b; p_resetAt := c; p_lastFailureAt := d; p_expiresAt := e |}) _).
  by intros [].
Defined.

Record WebhookCircuitBreakerCheckResult : Type := {
  allowed : bool;
  ck_state : WebhookCircuitBreakerPhase;
  ck_consecutiveFailures : Z;
  ck_resetAt : option Z;
}.

Definition check (a : bool) (s : WebhookCircuitBreakerPhase) (n : Z) (r : option Z)
    : WebhookCircuitBreakerCheckResult :=
  {| allowed := a; ck_state := s; ck_consecutiveFailures := n; ck_resetAt := r |}.

Definition closed : WebhookCircuitBreakerRecord :=
  {| state := Closed; consecutiveFailures := 0; resetAt := 0; lastFailureAt := None; expiresAt := 0 |}.

(** ** Policy *)

Definition threshold (policy : CircuitBreakerPolicy) : Z :=
  default DEFAULT_WEBHOOK_CIRCUIT_BREAKER_THRESHOLD (circuitBreakerThreshold policy).
Definition resetMs (policy : CircuitBreakerPolicy) : Z :=
  default DEFAULT_WEBHOOK_CIRCUIT_BREAKER_RESET_MS (circuitBreakerResetMs policy).

(** [Math.ceil(n / 1000)] for an integer [n]. *)
Definition ttlSec (policy : CircuitBreakerPolicy) : Z :=
  - ((- Z.max (resetMs policy * 2) WEBHOOK_CIRCUIT_BREAKER_STATE_TTL_FLOOR_MS) / 1000).
Definition ttlMs (policy : CircuitBreakerPolicy) : Z := ttlSec policy * 1000.

Definition probeLockMs (policy : CircuitBreakerPolicy) : Z :=
  Z.min (resetMs policy) WEBHOOK_CIRCUIT_BREAKER_PROBE_LOCK_MAX_MS.

(** ** The record written by each operation *)

(** Both stores build the same record when the probe is claimed, when a
    delivery succeeds and when it fails. *)
Definition claimed_record (policy : CircuitBreakerPolicy) (now : Z) (record : WebhookCircuitBreakerRecord)
    : WebhookCircuitBreakerRecord :=
  {| state := HalfOpen; consecutiveFailures := consecutiveFailures record; resetAt := 0;
     lastFailureAt := lastFailureAt record; expiresAt := now + ttlMs policy |}.

Definition success_record (policy : CircuitBreakerPolicy) (now : Z) : WebhookCircuitBreakerRecord :=
  {| state := Closed; consecutiveFailures := 0; resetAt := 0; lastFailureAt := None;
     expiresAt := now + ttlMs policy |}.

Definition failure_record (policy : CircuitBreakerPolicy) (now : Z) (previous : WebhookCircuitBreakerRecord)
    : WebhookCircuitBreakerRecord :=
  let expiresAt := now + ttlMs policy in
  match state previous with
  | HalfOpen =>
      {| state := Open; consecutiveFailures := consecutiveFailures previous;
         resetAt := now + resetMs policy; lastFailureAt := Some now; expiresAt := expiresAt |}
  | _ =>
      let failures := consecutiveFailures previous + 1 in
      if threshold policy <=? failures
      then {| state := Open; consecutiveFailures := failures; resetAt := now + resetMs policy;
              lastFailureAt := Some now; expiresAt := expiresAt |}
      else {| state := Closed; consecutiveFailures := failures; resetAt := 0;
              lastFailureAt := Some now; expiresAt := expiresAt |}
  end.

(** ** The status shown to a receiver *)

Inductive PauseReason : Type :=
| DeliveriesAllowed | FailureThreshold | ResetElapsed | HalfOpenProbeInFlight.

Record WebhookCircuitBreakerStatus : Type := {
  st_state : WebhookCircuitBreakerPhase;
  paused : bool;
  reason : PauseReason;
  st_consecutiveFailures : Z;
  st_threshold : Z;
  st_resetMs : Z;
  st_lastFailureAt : option Z;
  resumeAt : option Z;
}.

Definition describeWebhookCircuitBreaker (record : option WebhookCircuitBreakerRecord)
    (policy : CircuitBreakerPolicy) (now : Z) : WebhookCircuitBreakerStatus :=
  let current := default closed record in
  let mk s p r resume :=
    {| st_state := s; paused := p; reason := r; st_consecutiveFailures := consecutiveFailures current;
       st_threshold := threshold policy; st_resetMs := resetMs policy;
       st_lastFailureAt := lastFailureAt current; resumeAt := resume |} in
  match state current with
  | Closed => mk Closed false DeliveriesAllowed None
  | Open =>
      if now <? resetAt current then mk Open true FailureThreshold (Some (resetAt current))
      else mk Open false ResetElapsed None
  | HalfOpen =>
      mk HalfOpen true HalfOpenProbeInFlight
        (Some (if 0 <? expiresAt current then expiresAt current else now + probeLockMs policy))
  end.

(** ** The store interface *)

(** [WebhookCircuitBreakerStore]: the operations a client may call. *)
Class BreakerStore (S : Type) := {
  checkAndClaimAttempt : string → CircuitBreakerPolicy → Z → S → WebhookCircuitBreakerCheckResult * S;
  recordSuccess : string → CircuitBreakerPolicy → Z → S → WebhookCircuitBreakerRecord * S;
  recordFailure : string → CircuitBreakerPolicy → Z → S → WebhookCircuitBreakerRecord * S;
  getState : string → S → option WebhookCircuitBreakerRecord;
}.

Section stores.
Context (hashConsumerUrl : string → string).

(** ** In-memory store *)

Record Memory : Type := {
  states : gmap string WebhookCircuitBreakerRecord;
  probes : gmap string Z;
}.

Definition mem_empty : Memory := {| states := ∅; probes := ∅ |}.

Definition mem_record (consumerUrl : string) (m : Memory) : WebhookCircuitBreakerRecord :=
  default closed (states m !! hashConsumerUrl consumerUrl).

(** [probeExpiry !== undefined && now < probeExpiry] *)
Definition probe_reserved (now : Z) (probeExpiry : option Z) : bool :=
  match probeExpiry with Some e => now <? e | None => false end.

Definition mem_checkAndClaimAttempt (consumerUrl : string) (policy : CircuitBreakerPolicy) (now : Z)
    (m : Memory) : WebhookCircuitBreakerCheckResult * Memory :=
  if threshold policy <=? 0 then (check true Closed 0 None, m)
  else
    let key := hashConsumerUrl consumerUrl in
    let record := mem_record consumerUrl m in
    let n := consecutiveFailures record in
    match state record with
    | Closed => (check true Closed n None, m)
    | Open =>
        if now <? resetAt record then (check false Open n (Some (resetAt record)), m)
        else if probe_reserved now (probes m !! key)
        then (check false HalfOpen n (Some (resetAt record)), m)
        else
          (check true HalfOpen n None,
           {| states := <[key := claimed_record policy now record]> (states m);
              probes := <[key := now + probeLockMs policy]> (probes m) |})
    | HalfOpen => (check false HalfOpen n None, m)
    end.

Definition mem_recordSuccess (consumerUrl : string) (policy : CircuitBreakerPolicy) (now : Z)
    (m : Memory) : WebhookCircuitBreakerRecord * Memory :=
  let key := hashConsumerUrl consumerUrl in
  let next := success_record policy now in
  (next, {| states := <[key := next]> (states m); probes := delete key (probes m) |}).

Definition mem_recordFailure (consumerUrl : string) (policy : CircuitBreakerPolicy) (now : Z)
    (m : Memory) : WebhookCircuitBreakerRecord * Memory :=
  if threshold policy <=? 0 then (closed, m)
  else
    let key := hashConsumerUrl consumerUrl in
    let next := failure_record policy now (mem_record consumerUrl m) in
    (next, {| states := <[key := next]> (states m); probes := delete key (probes m) |}).

Definition memory_store : BreakerStore Memory := {|
  checkAndClaimAttempt := mem_checkAndClaimAttempt;
  recordSuccess := mem_recordSuccess;
  recordFailure := mem_recordFailure;
  getState consumerUrl m := states m !! hashConsumerUrl consumerUrl;
|}.

(** ** Redis store *)

Section redis.
Context `{JsonCodec PartialRecord}.

Definition WEBHOOK_CIRCUIT_BREAKER_KEY_PREFIX : string := "webhook_cb:".
Definition WEBHOOK_CIRCUIT_BREAKER_PROBE_PREFIX : string := "webhook_cb_probe:".
Definition stateKey (url : string) : string := WEBHOOK_CIRCUIT_BREAKER_KEY_PREFIX +:+ hashConsumerUrl url.
Definition probeKey (url : string) : string := WEBHOOK_CIRCUIT_BREAKER_PROBE_PREFIX +:+ hashConsumerUrl url.

Definition full (r : WebhookCircuitBreakerRecord) : PartialRecord :=
  {| p_state := Some (state r); p_consecutiveFailures := Some (consecutiveFailures r);
     p_resetAt := Some (resetAt r); p_lastFailureAt := lastFailureAt r;
     p_expiresAt := Some (expiresAt r) |}.

Definition parse (raw : option string) : WebhookCircuitBreakerRecord :=
  match raw with
  | None => closed
  | Some s =>
      if str_empty s then closed
      else match of_json s with
           | None => closed
           | Some v =>
               {| state := default Closed (p_state v);
                  consecutiveFailures := default 0 (p_consecutiveFailures v);
                  resetAt := default 0 (p_resetAt v);
                  lastFailureAt := p_lastFailureAt v;
                  expiresAt := default 0 (p_expiresAt v) |}
           end
  end.

(** The [catch] branch of [checkAndClaimAttempt]: fail open. *)
Definition fail_open : WebhookCircuitBreakerCheckResult := check true Closed 0 None.

(** The part of [checkAndClaimAttempt] that claims the probe, once the record
    read from Redis is [open] and its window has elapsed. *)
Definition claim_state (consumerUrl : string) (policy : CircuitBreakerPolicy) (now : Z)
    (record : WebhookCircuitBreakerRecord) : prog WebhookCircuitBreakerCheckResult :=
  awaiting (RSet (stateKey consumerUrl) (to_json (full (claimed_record policy now record))) (ttlSec policy))
    (λ _, Ret fail_open)
    (λ _, Ret (check true HalfOpen (consecutiveFailures record) None)).

Definition claim_probe (uuid consumerUrl : string) (policy : CircuitBreakerPolicy) (now : Z)
    (record : WebhookCircuitBreakerRecord) : prog WebhookCircuitBreakerCheckResult :=
  awaiting (RSetNx (probeKey consumerUrl) uuid (probeLockMs policy)) (λ _, Ret fail_open)
    (λ acquired : bool,
      if acquired then claim_state consumerUrl policy now record
      else Ret (check false HalfOpen (consecutiveFailures record) (Some (resetAt record)))).

Definition redis_checkAndClaimAttempt (uuid consumerUrl : string) (policy : CircuitBreakerPolicy) (now : Z)
    : prog WebhookCircuitBreakerCheckResult :=
  if threshold policy <=? 0 then Ret (check true Closed 0 None)
  else
    awaiting (RGet (stateKey consumerUrl)) (λ _, Ret fail_open) (λ raw,
      let record := parse raw in
      let n := consecutiveFailures record in
      match state record with
      | Closed => Ret (check true Closed n None)
      | Open =>
          if now <? resetAt record then Ret (check false Open n (Some (resetAt record)))
          else claim_probe uuid consumerUrl policy now record
      | HalfOpen => Ret (check false HalfOpen n None)
      end).

Definition store_outcome (consumerUrl : string) (policy : CircuitBreakerPolicy)
    (next : WebhookCircuitBreakerRecord) : prog WebhookCircuitBreakerRecord :=
  awaiting (RSet (stateKey consumerUrl) (to_json (full next)) (ttlSec policy)) (λ _, Ret closed) (λ _,
  awaiting (RDel (probeKey consumerUrl)) (λ _, Ret closed) (λ _, Ret next)).

Definition redis_recordSuccess (consumerUrl : string) (policy : CircuitBreakerPolicy) (now : Z)
    : prog WebhookCircuitBreakerRecord :=
  awaiting (RGet (stateKey consumerUrl)) (λ _, Ret closed) (λ _,
    store_outcome consumerUrl policy (success_record policy now)).

Definition redis_recordFailure (consumerUrl : string) (policy : CircuitBreakerPolicy) (now : Z)
    : prog WebhookCircuitBreakerRecord :=
  if threshold policy <=? 0 then Ret closed
  else
    awaiting (RGet (stateKey consumerUrl)) (λ _, Ret closed) (λ raw,
      store_outcome consumerUrl policy (failure_record policy now (parse raw))).

Definition redis_getState (consumerUrl : string) : prog (option WebhookCircuitBreakerRecord) :=
  awaiting (RGet (stateKey consumerUrl)) (λ _, Ret None) (λ raw,
    match raw with
    | Some s => if str_empty s then Ret None else Ret (Some (parse raw))
    | None => Ret None
    end).
End redis.

(** ** Histories *)

(** The calls a history is made of, each with the clock it reads. *)
Inductive event : Type :=
| EvCheck (consumerUrl : string) (policy : CircuitBreakerPolicy) (now : Z)
| EvSuccess (consumerUrl : string) (policy : CircuitBreakerPolicy) (now : Z)
| EvFailure (consumerUrl : string) (policy : CircuitBreakerPolicy) (now : Z).

Inductive answer : Type :=
| AnsCheck (c : WebhookCircuitBreakerCheckResult)
| AnsRecord (r : WebhookCircuitBreakerRecord).

Definition ev_url (e : event) : string :=
  match e with EvCheck u _ _ | EvSuccess u _ _ | EvFailure u _ _ => u end.
Definition ev_time (e : event) : Z :=
  match e with EvCheck _ _ t | EvSuccess _ _ t | EvFailure _ _ t => t end.
Definition ev_policy (e : event) : CircuitBreakerPolicy :=
  match e with EvCheck _ p _ | EvSuccess _ p _ | EvFailure _ p _ => p end.
Definition is_check (e : event) : bool := match e with EvCheck _ _ _ => true | _ => false end.

Section histories.
Context {S : Type} `{BreakerStore S}.

Definition store_step (e : event) (s : S) : answer * S :=
  match e with
  | EvCheck u p t => let '(c, s') := checkAndClaimAttempt u p t s in (AnsCheck c, s')
  | EvSuccess u p t => let '(r, s') := recordSuccess u p t s in (AnsRecord r, s')
  | EvFailure u p t => let '(r, s') := recordFailure u p t s in (AnsRecord r, s')
  end.

Fixpoint store_run (es : list event) (s : S) : list answer * S :=
  match es with
  | [] => ([], s)
  | e :: es' =>
      let '(a, s1) := store_step e s in
      let '(l, s2) := store_run es' s1 in (a :: l, s2)
  end.
End histories.

(** The answer admits a half-open probe. *)
Definition probe_admitted (c : WebhookCircuitBreakerCheckResult) : bool :=
  allowed c && bool_decide (ck_state c = HalfOpen).

(** The number of probes a history admits for the key [k]. *)
Fixpoint probes_on (k : string) (es : list event) (l : list answer) : nat :=
  match es, l with
  | EvCheck u _ _ :: es', AnsCheck c :: l' =>
      (if bool_decide (hashConsumerUrl u = k) && probe_admitted c then 1 else 0) + probes_on k es' l'
  | _ :: es', _ :: l' => probes_on k es' l'
  | _, _ => 0%nat
  end.

(** No delivery outcome for the key [k] is recorded. *)
Definition no_outcome_on (k : string) (es : list event) : Prop :=
  Forall (λ e, is_check e = true ∨ hashConsumerUrl (ev_url e) ≠ k) es.

(** The failures of one consumer, in order. *)
Definition mem_failures (u : string) (p : CircuitBreakerPolicy) (ts : list Z) (m : Memory) : Memory :=
  fold_left (λ m t, (mem_recordFailure u p t m).2) ts m.
End stores.

(** The Redis store on a server: each method runs alone. *)
Section redis_store.
Context {R : Type} `{RedisServer R} `{JsonCodec PartialRecord} (hashConsumerUrl : string → string) (uuid : string).

Definition redis_store : BreakerStore (Z * R) := {|
  checkAndClaimAttempt u p t s :=
    let '(c, r) := run t (redis_checkAndClaimAttempt hashConsumerUrl uuid u p t) s.2 in (c, (t, r));
  recordSuccess u p t s :=
    let '(x, r) := run t (redis_recordSuccess hashConsumerUrl u p t) s.2 in (x, (t, r));
  recordFailure u p t s :=
    let '(x, r) := run t (redis_recordFailure hashConsumerUrl u p t) s.2 in (x, (t, r));
  getState u s := (run s.1 (redis_getState hashConsumerUrl u) s.2).1;
|}.
End redis_store.

(** ** The in-memory store *)

Section memory_lemmas.
Context (hash : string → string).
Notation mstep := (@store_step Memory (memory_store hash)).
Notation mrun := (@store_run Memory (memory_store hash)).
Implicit Types (m : Memory) (u k : string) (e : event).

Definition key_state (k : string) (m : Memory) : WebhookCircuitBreakerPhase :=
  state (default closed (states m !! k)).

(** An operation on another key leaves a key's record alone. *)
Lemma mem_step_other k e m :
  hash (ev_url e) ≠ k → states (mstep e m).2 !! k = states m !! k.
Proof.
  intros Hk. destruct e as [u p t|u p t|u p t]; simpl in *.
  - unfold mem_checkAndClaimAttempt. repeat case_match; simpl; simplify_eq; simpl; try done.
    by rewrite lookup_insert_ne.
  - by rewrite lookup_insert_ne.
  - unfold mem_recordFailure. destruct (threshold p <=? 0); simpl; [done|]. by rewrite lookup_insert_ne.
Qed.

(** A check on a key that is half-open is denied a probe and changes nothing. *)
Lemma mem_check_half_open u p t m :
  key_state (hash u) m = HalfOpen →
  (mem_checkAndClaimAttempt hash u p t m).2 = m ∧
  probe_admitted (mem_checkAndClaimAttempt hash u p t m).1 = false ∧
  (0 < threshold p → allowed (mem_checkAndClaimAttempt hash u p t m).1 = false).
Proof.
  unfold key_state, mem_checkAndClaimAttempt, mem_record. intros ->. cmp; simpl; splits; done || lia.
Qed.

(** A check either leaves the key's phase or claims the probe from [open]. *)
Lemma mem_check_phase u p t m :
  let '(c, m') := mem_checkAndClaimAttempt hash u p t m in
  if probe_admitted c then key_state (hash u) m = Open ∧ key_state (hash u) m' = HalfOpen
  else key_state (hash u) m' = key_state (hash u) m.
Proof.
  unfold mem_checkAndClaimAttempt, mem_record. destruct (threshold p <=? 0); [done|].
  destruct (state (default closed (states m !! hash u))) eqn:Hs; simpl; [done| |done].
  destruct (t <? _); [done|]. destruct (probe_reserved _ _); [done|]. simpl.
  unfold key_state; simpl. by rewrite lookup_insert_eq.
Qed.

Lemma mem_probes_bound k es m :
  no_outcome_on hash k es →
  (probes_on hash k es (mrun es m).1
    <= if bool_decide (key_state k m = HalfOpen) then 0 else 1)%nat.
Proof.
  revert m. induction es as [|e es IH]; intros m Hno; simpl; [lia|].
  apply Forall_cons_iff in Hno as [He Hno].
  destruct (mstep e m) as [a m1] eqn:Hstep.
  destruct (mrun es m1) as [l m2] eqn:Hrun. simpl.
  specialize (IH m1 Hno). rewrite Hrun in IH. simpl in IH.
  destruct (decide (hash (ev_url e) = k)) as [Hk|Hk].
  - destruct He as [He|]; [|done]. destruct e as [u p t|u p t|u p t]; try done. simpl in *. subst k.
    pose proof (mem_check_phase u p t m) as Hph. pose proof (mem_check_half_open u p t m) as Hho.
    destruct (mem_checkAndClaimAttempt hash u p t m) as [c m']. simplify_eq. simpl in *.
    rewrite bool_decide_eq_true_2 by done. simpl.
    destruct (probe_admitted c).
    + destruct Hph as [Ho Hh]. rewrite bool_decide_eq_true_2 in IH by done.
      rewrite bool_decide_eq_false_2 by congruence. lia.
    + by rewrite Hph in IH.
  - assert (key_state k m1 = key_state k m) as Hks.
    { unfold key_state. pose proof (mem_step_other k e m Hk) as Ho. rewrite Hstep in Ho. simpl in Ho. by rewrite Ho. }
    rewrite Hks in IH. destruct e as [u p t|u p t|u p t]; simpl in *; try done.
    destruct a; [|done]. by rewrite bool_decide_eq_false_2.
Qed.

Lemma mem_half_open_stays k es m :
  no_outcome_on hash k es → key_state k m = HalfOpen →
  states (mrun es m).2 !! k = states m !! k.
Proof.
  revert m. induction es as [|e es IH]; intros m Hno Hh; simpl; [done|].
  apply Forall_cons_iff in Hno as [He Hno].
  destruct (mstep e m) as [a m1] eqn:Hstep.
  destruct (mrun es m1) as [l m2] eqn:Hrun. simpl.
  assert (states m1 !! k = states m !! k) as Hk1.
  { destruct (decide (hash (ev_url e) = k)) as [Hk|Hk].
    - destruct He as [He|]; [|done]. destruct e as [u p t|u p t|u p t]; try done. simpl in *. subst k.
      destruct (mem_check_half_open u p t m Hh) as [Hm _].
      destruct (mem_checkAndClaimAttempt hash u p t m). simpl in *. by simplify_eq.
    - pose proof (mem_step_other k e m Hk) as Ho. by rewrite Hstep in Ho. }
  specialize (IH m1 Hno). rewrite Hrun in IH. simpl in IH. rewrite IH; [done|].
  unfold key_state. by rewrite Hk1.
Qed.

Lemma mem_failures_snoc u p ts t m :
  mem_failures hash u p (ts ++ [t]) m = (mem_recordFailure hash u p t (mem_failures hash u p ts m)).2.
Proof. unfold mem_failures. by rewrite fold_left_app. Qed.

Lemma mem_record_insert u r sm pm :
  mem_record hash u {| states := <[hash u := r]> sm; probes := pm |} = r.
Proof. unfold mem_record. simpl. by rewrite lookup_insert_eq. Qed.

(** The record after consecutive failures from a closed record without failures. *)
Lemma mem_failures_record u p ts m :
  0 < threshold p → mem_record hash u m = closed →
  let n := Z.of_nat (length ts) in
  let r := mem_record hash u (mem_failures hash u p ts m) in
  consecutiveFailures r = n ∧ state r = (if threshold p <=? n then Open else Closed) ∧
  resetAt r = (if threshold p <=? n then List.last ts 0 + resetMs p else 0).
Proof.
  intros Hp Hm. induction ts as [|t ts IH] using rev_ind; simpl.
  - rewrite Hm. simpl. cmp; [lia|done].
  - rewrite mem_failures_snoc, last_last. unfold mem_recordFailure. destruct (Z.leb_spec (threshold p) 0); [lia|].
    cbv zeta in *. generalize dependent (mem_failures hash u p ts m). intros m' (Hn & Hs & _).
    simpl. rewrite mem_record_insert. unfold failure_record. rewrite length_app, Hs, Hn. simpl.
    replace (Z.of_nat (length ts + 1)) with (Z.of_nat (length ts) + 1) by lia.
    destruct (Z.leb_spec (threshold p) (Z.of_nat (length ts))); simpl;
      destruct (Z.leb_spec (threshold p) (Z.of_nat (length ts) + 1)); simpl; splits; (done || lia).
Qed.
End memory_lemmas.

(** ** The Redis store alone refines the in-memory store *)

Section refinement.
Context {R : Type} `{RedisLaws R} `{JsonCodec PartialRecord} (hash : string → string) (uuid : string).
Notation mstep := (@store_step Memory (memory_store hash)).
Notation mrun := (@store_run Memory (memory_store hash)).
Notation rstep := (@store_step (Z * R) (redis_store hash uuid)).
Implicit Types (m : Memory) (r : R) (u : string).

Lemma parse_full rec : parse (Some (to_json (full rec))) = rec.
Proof. unfold parse. rewrite to_json_nonempty, of_to_json. by destruct rec. Qed.

(** From time [now] on, the server shows the unexpired part of the maps. *)
Record sim (now : Z) (m : Memory) (r : R) : Prop := {
  sim_state u t : now <= t →
    srv_view t r (stateKey hash u) =
      match states m !! hash u with
      | Some rec => if t <? expiresAt rec then Some (to_json (full rec)) else None
      | None => None
      end;
  sim_probe u t : now <= t →
    bool_decide (is_Some (srv_view t r (probeKey hash u))) = probe_reserved t (probes m !! hash u);
}.

(** The key's record has not expired. *)
Definition unexpired (t : Z) (u : string) (m : Memory) : Prop :=
  ∀ rec, states m !! hash u = Some rec → t < expiresAt rec.

Lemma stateKey_inj u u' : stateKey hash u = stateKey hash u' ↔ hash u = hash u'.
Proof. unfold stateKey. split; [|by intros ->]. simpl. intros Heq. by simplify_eq. Qed.
Lemma probeKey_inj u u' : probeKey hash u = probeKey hash u' ↔ hash u = hash u'.
Proof. unfold probeKey. split; [|by intros ->]. simpl. intros Heq. by simplify_eq. Qed.
Lemma state_probe_ne u u' : stateKey hash u ≠ probeKey hash u'.
Proof. unfold stateKey, probeKey. by destruct (hash u). Qed.

Lemma sim_mono now now' m r : now <= now' → sim now m r → sim now' m r.
Proof. intros Hle [Hs Hp]. split; intros; [apply Hs|apply Hp]; lia. Qed.

(** Reading the state key of an unexpired record. *)
Lemma sim_read t m r u :
  sim t m r → unexpired t u m → parse (srv_view t r (stateKey hash u)) = mem_record hash u m.
Proof.
  intros Hsim Hun. rewrite (sim_state _ _ _ Hsim) by lia. unfold mem_record, unexpired in *.
  destruct (states m !! hash u) as [rec|]; [|done]. specialize (Hun rec eq_refl).
  cmp; [|lia]. apply parse_full.
Qed.

Lemma ttlSec_pos p : 0 < ttlSec p.
Proof.
  unfold ttlSec, WEBHOOK_CIRCUIT_BREAKER_STATE_TTL_FLOOR_MS.
  pose proof (Z.div_mod (- Z.max (resetMs p * 2) 300000) 1000 ltac:(lia)).
  pose proof (Z.mod_pos_bound (- Z.max (resetMs p * 2) 300000) 1000 ltac:(lia)). lia.
Qed.

(** Writing a record that expires with its key keeps the maps in step. *)
Lemma sim_write t m r u p rec :
  sim t m r → expiresAt rec = t + ttlMs p →
  sim t {| states := <[hash u := rec]> (states m); probes := probes m |}
    (srv_exec t (RSet (stateKey hash u) (to_json (full rec)) (ttlSec p)) r).2.
Proof.
  intros [Hs Hp] He. split; simpl; intros u' t' Ht; rewrite law_set by done.
  - case_decide as Hk.
    + apply stateKey_inj in Hk as ->. rewrite lookup_insert_eq, He. unfold ttlMs.
      by rewrite (Z.mul_comm (ttlSec p)).
    + rewrite lookup_insert_ne by (intros ?; apply Hk, stateKey_inj; done). by apply Hs.
  - rewrite decide_False by (by intros ?%symmetry%state_probe_ne). by apply Hp.
Qed.

Lemma sim_unlock t m r u :
  sim t m r →
  sim t {| states := states m; probes := delete (hash u) (probes m) |}
    (srv_exec t (RDel (probeKey hash u)) r).2.
Proof.
  intros [Hs Hp]. split; simpl; intros u' t' Ht; rewrite law_del by done.
  - rewrite decide_False by apply state_probe_ne. by apply Hs.
  - case_decide as Hk.
    + apply probeKey_inj in Hk as ->. by rewrite lookup_delete_eq.
    + rewrite lookup_delete_ne by (intros ?; apply Hk, probeKey_inj; done). by apply Hp.
Qed.

Lemma sim_lock t m r u p :
  sim t m r → srv_view t r (probeKey hash u) = None →
  sim t {| states := states m; probes := <[hash u := t + probeLockMs p]> (probes m) |}
    (srv_exec t (RSetNx (probeKey hash u) uuid (probeLockMs p)) r).2.
Proof.
  intros [Hs Hp] Hfree. split; simpl; intros u' t' Ht; rewrite law_setnx_view by done.
  - rewrite decide_False by apply state_probe_ne. by apply Hs.
  - case_decide as Hk.
    + apply probeKey_inj in Hk as ->. rewrite lookup_insert_eq. simpl. by cmp.
    + rewrite lookup_insert_ne by (intros ?; apply Hk, probeKey_inj; done). by apply Hp.
Qed.

Lemma probeLockMs_pos p : 0 < resetMs p → 0 < probeLockMs p.
Proof. unfold probeLockMs, WEBHOOK_CIRCUIT_BREAKER_PROBE_LOCK_MAX_MS. lia. Qed.

Lemma run_store_outcome t m r u p next :
  sim t m r → expiresAt next = t + ttlMs p →
  (run t (store_outcome hash u p next) r).1 = next ∧
  sim t {| states := <[hash u := next]> (states m); probes := delete (hash u) (probes m) |}
    (run t (store_outcome hash u p next) r).2.
Proof.
  intros Hsim He. unfold store_outcome.
  rewrite run_awaiting by (simpl; pose proof (ttlSec_pos p); cmp; lia || done).
  rewrite run_awaiting by done. simpl. split; [done|].
  apply (sim_unlock t _ _ u (sim_write t m r u p next Hsim He)).
Qed.

Lemma failure_expires p t rec : expiresAt (failure_record p t rec) = t + ttlMs p.
Proof. unfold failure_record. destruct (state rec); simpl; by try case_match. Qed.

Lemma sim_check t m r u p :
  sim t m r → unexpired t u m → 0 < resetMs p →
  let '(c, m') := mem_checkAndClaimAttempt hash u p t m in
  let '(c', r') := run t (redis_checkAndClaimAttempt hash uuid u p t) r in c = c' ∧ sim t m' r'.
Proof.
  intros Hsim Hun Hreset. unfold mem_checkAndClaimAttempt, redis_checkAndClaimAttempt.
  destruct (threshold p <=? 0); [done|]. rewrite run_get, (sim_read t m r u) by done.
  destruct (state (mem_record hash u m)); [done| |done].
  destruct (t <? resetAt (mem_record hash u m)); [done|].
  unfold claim_probe. rewrite run_setnx by (by apply probeLockMs_pos).
  rewrite (sim_probe _ _ _ Hsim) by lia.
  destruct (probe_reserved t (probes m !! hash u)) eqn:Hres; [done|].
  unfold claim_state. rewrite run_awaiting by (simpl; pose proof (ttlSec_pos p); cmp; lia || done).
  simpl. split; [done|].
  assert (srv_view t r (probeKey hash u) = None) as Hfree.
  { apply eq_None_not_Some. rewrite <-(sim_probe _ _ _ Hsim u t) in Hres by lia.
    by apply bool_decide_eq_false in Hres. }
  apply (sim_write t _ _ u p (claimed_record p t (mem_record hash u m)) (sim_lock t m r u p Hsim Hfree)).
  done.
Qed.

(** One call on an unexpired record: the same answer, and the maps stay in step. *)
Lemma sim_step e m t0 r :
  sim (ev_time e) m r → unexpired (ev_time e) (ev_url e) m → 0 < resetMs (ev_policy e) →
  (mstep e m).1 = (rstep e (t0, r)).1 ∧
  sim (ev_time e) (mstep e m).2 (rstep e (t0, r)).2.2 ∧ (rstep e (t0, r)).2.1 = ev_time e.
Proof.
  destruct e as [u p t|u p t|u p t]; simpl; intros Hsim Hun Hr.
  - pose proof (sim_check t m r u p Hsim Hun Hr) as Hc.
    destruct (mem_checkAndClaimAttempt hash u p t m), (run t _ r). simpl. naive_solver.
  - unfold redis_recordSuccess. rewrite run_get.
    destruct (run_store_outcome t m r u p (success_record p t) Hsim eq_refl) as [Ha Hs].
    destruct (run t _ r). simpl in *. by subst.
  - unfold mem_recordFailure, redis_recordFailure. destruct (threshold p <=? 0); [done|].
    rewrite run_get, (sim_read t m r u) by done.
    destruct (run_store_outcome t m r u p (failure_record p t (mem_record hash u m)) Hsim
      (failure_expires _ _ _)) as [Ha Hs].
    destruct (run t _ r). simpl in *. by subst.
Qed.

(** Calls in clock order, each on a record that has not expired. *)
Fixpoint live_history (now : Z) (es : list event) (m : Memory) : Prop :=
  match es with
  | [] => True
  | e :: es' =>
      now <= ev_time e ∧ 0 < resetMs (ev_policy e) ∧ unexpired (ev_time e) (ev_url e) m ∧
      live_history (ev_time e) es' (mstep e m).2
  end.

(** ** Concurrent checks on a shared server *)

(** What the program of a check can be between two of its commands, and
    whether it has claimed the probe. *)
Inductive check_form (u : string) (p : CircuitBreakerPolicy) : bool → prog WebhookCircuitBreakerCheckResult → Prop :=
| form_start id now : check_form u p false (redis_checkAndClaimAttempt hash id u p now)
| form_claim id now rec : check_form u p false (claim_probe hash id u p now rec)
| form_hold now rec : check_form u p true (claim_state hash u p now rec)
| form_done b c : (probe_admitted c = true → b = true) → check_form u p b (Ret c).

Definition b2n (b : bool) : nat := if b then 1 else 0.
Definition holders (l : list bool) : nat := sum_list_with b2n l.

(** At most one program has claimed, and from then on the lock is visible. *)
Record claim_inv (u : string) (p : CircuitBreakerPolicy) (t hi : Z)
    (s : list (prog WebhookCircuitBreakerCheckResult) * R) (l : list bool) : Prop := {
  ci_forms : Forall2 (check_form u p) l s.1;
  ci_locked : (0 < holders l)%nat → ∀ t', t <= t' <= hi → is_Some (srv_view t' s.2 (probeKey hash u));
  ci_one : (holders l <= 1)%nat;
}.

Lemma holders_insert l i b b' :
  l !! i = Some b → (holders (<[i := b']> l) + b2n b = holders l + b2n b')%nat.
Proof.
  revert i. induction l as [|x l IH]; intros [|i] Hl; simplify_eq/=; [lia|].
  specialize (IH i Hl). unfold holders in *. simpl. lia.
Qed.

(** Steps that neither touch the lock nor claim. *)
Lemma claim_inv_keep u p t t' hi ps r l i b p0 p' r' :
  claim_inv u p t hi (ps, r) l → t <= t' → ps !! i = Some p0 → l !! i = Some b →
  check_form u p b p' →
  (∀ t1, t' <= t1 → is_Some (srv_view t1 r (probeKey hash u)) → is_Some (srv_view t1 r' (probeKey hash u))) →
  claim_inv u p t' hi (<[i := p']> ps, r') (<[i := b]> l).
Proof.
  intros [Hf Hl Ho] Ht Hps Hlb Hform Hv.
  pose proof (holders_insert l i b b Hlb) as Hh. split; simpl in *.
  - by apply Forall2_insert.
  - intros Hpos t1 Ht1. apply Hv; [lia|]. apply Hl; lia.
  - lia.
Qed.

(** The step that sets the lock: nobody held it. *)
Lemma claim_inv_lock u p t t' hi ps r l i id now rec :
  claim_inv u p t hi (ps, r) l → t <= t' → t' <= hi → hi < t' + probeLockMs p →
  ps !! i = Some (claim_probe hash id u p now rec) → l !! i = Some false →
  srv_view t' r (probeKey hash u) = None →
  claim_inv u p t' hi
    (<[i := claim_state hash u p now rec]> ps, (srv_exec t' (RSetNx (probeKey hash u) id (probeLockMs p)) r).2)
    (<[i := true]> l).
Proof.
  intros [Hf Hl Ho] Ht Hhi Hpx Hps Hlb Hfree.
  pose proof (holders_insert l i false true Hlb) as Hh. simpl in Hh.
  assert (holders l = 0)%nat as Hz.
  { destruct (decide (0 < holders l)%nat) as [Hpos|]; [|lia].
    destruct (Hl Hpos t') as [v Hv]; [lia|]. simpl in Hv. congruence. }
  split; simpl in *.
  - apply Forall2_insert; [done|constructor].
  - intros _ t1 Ht1. rewrite law_setnx_view by (done || lia). rewrite decide_True by done.
    destruct (Z.ltb_spec t1 (t' + probeLockMs p)); [by eexists|lia].
  - lia.
Qed.

Lemma claim_inv_step u p t t' hi ps r l s' :
  claim_inv u p t hi (ps, r) l → t <= t' <= hi → hi < t' + probeLockMs p → 0 < resetMs p →
  pool_step t' (ps, r) s' → ∃ l', claim_inv u p t' hi s' l'.
Proof.
  intros Hinv Ht Hpx Hr Hstep. inversion Hstep as [i f ps0 p0 r0 p' r' Hps Hp E1 E2]. simplify_eq.
  destruct (Forall2_lookup_r _ _ _ _ _ (ci_forms _ _ _ _ _ _ Hinv) Hps) as (b & Hlb & Hform).
  assert (∀ p1 r1, check_form u p b p1 →
    (∀ t1, t' <= t1 → is_Some (srv_view t1 r (probeKey hash u)) → is_Some (srv_view t1 r1 (probeKey hash u))) →
    ∃ l', claim_inv u p t' hi (<[i := p1]> ps, r1) l') as Hkeep.
  { intros p1 r1 Hf1 Hv. exists (<[i := b]> l). by eapply (claim_inv_keep u p t t'); [done|lia|..]. }
  destruct Hform as [id now|id now rec|now rec|b c Hc]; [| | |done].
  - unfold redis_checkAndClaimAttempt in Hp. destruct (threshold p <=? 0); [done|]. simpl in Hp.
    rewrite law_get in Hp. destruct f; simplify_eq; (apply Hkeep; [|done]); try by constructor.
    destruct (state _); [by constructor| |by constructor]. destruct (now <? _); by constructor.
  - unfold claim_probe in Hp. simpl in Hp.
    destruct (Z.ltb_spec 0 (probeLockMs p)); [|pose proof (probeLockMs_pos p Hr); lia].
    pose proof (setnx_keeps t' (probeKey hash u) id (probeLockMs p) r) as Hk.
    destruct (srv_view t' r (probeKey hash u)) as [v|] eqn:Hv.
    + rewrite law_setnx_held in Hp by eauto. destruct f; simplify_eq; (apply Hkeep; [by constructor|done]).
    + pose proof (law_setnx_free t' (probeKey hash u) id (probeLockMs p) r Hv) as Hacq.
      pose proof (claim_inv_lock u p t t' hi ps r l i id now rec Hinv) as Hlock.
      destruct (srv_exec t' (RSetNx (probeKey hash u) id (probeLockMs p)) r) as [x r1].
      destruct f; simpl in *; simplify_eq.
      * exists (<[i := true]> l). apply Hlock; (done || lia).
      * apply Hkeep; [by constructor|done].
      * apply Hkeep; [by constructor|]. intros. by apply Hk.
  - unfold claim_state in Hp. simpl in Hp.
    destruct (Z.ltb_spec 0 (ttlSec p)); [|pose proof (ttlSec_pos p); lia].
    assert (∀ t1, t' <= t1 →
      srv_view t1 (srv_exec t' (RSet (stateKey hash u) (to_json (full (claimed_record p now rec))) (ttlSec p)) r).2
        (probeKey hash u) = srv_view t1 r (probeKey hash u)) as Hset.
    { intros t1 Ht1. rewrite law_set by done. by rewrite decide_False by (by intros ?%symmetry%state_probe_ne). }
    destruct (srv_exec t' _ r) as [[] r1].
    destruct f; simplify_eq; (apply Hkeep; [by constructor|]); simpl in Hset; intros t1 Ht1; by rewrite ?Hset.
Qed.

Lemma claim_inv_steps u p lo hi s s' l :
  claim_inv u p lo hi s l → hi < lo + probeLockMs p → 0 < resetMs p →
  pool_steps lo hi s s' → ∃ t' l', claim_inv u p t' hi s' l'.
Proof.
  intros Hinv Hpx Hr Hsteps. revert l Hinv. induction Hsteps as [|lo hi t s1 s2 s3 Ht Hstep _ IH]; intros l Hinv.
  - by exists lo, l.
  - destruct s1 as [ps r]. destruct (claim_inv_step u p lo t hi ps r l s2) as [l' Hl']; [done|lia|lia|done|done|].
    apply (IH ltac:(lia) l' Hl').
Qed.

(** The number of finished programs that admitted a probe. *)
Definition admitted (ps : list (prog WebhookCircuitBreakerCheckResult)) : nat :=
  sum_list_with (λ p, match p with Ret c => b2n (probe_admitted c) | _ => 0%nat end) ps.

Lemma admitted_holders u p l ps : Forall2 (check_form u p) l ps → (admitted ps <= holders l)%nat.
Proof.
  induction 1 as [|b p0 l ps Hf _ IH]; [done|]. unfold admitted, holders in *. simpl.
  apply Nat.add_le_mono; [|done]. destruct Hf as [? ?|? ? ?|? ?|b c Hc]; simpl; try lia.
  - unfold redis_checkAndClaimAttempt. by destruct (threshold p <=? 0).
  - destruct (probe_admitted c); [by rewrite Hc|simpl; lia].
Qed.

(** ** Properties *)

(** C18: run alone, the Redis-backed breaker answers every call as the in-memory
    breaker does: for every history in clock order in which no record has
    expired when it is used, the two stores return the same list of answers. *)
Theorem redis_refines_memory es m r now :
  sim now m r → live_history now es m →
  (mrun es m).1 = (@store_run (Z * R) (redis_store hash uuid) es (now, r)).1.
Proof.
  revert m r now. induction es as [|e es IH]; intros m r now Hsim Hlive; [done|].
  destruct Hlive as (Hle & Hr & Hun & Hlive).
  destruct (sim_step e m now r) as (Ha & Hs & Ht); [by eapply sim_mono|done|done|].
  simpl. destruct (mstep e m) as [a m'], (rstep e (now, r)) as [a' [t' r']]. simpl in *. subst.
  specialize (IH m' r' (ev_time e) Hs Hlive).
  destruct (mrun es m'), (store_run es _). simpl in *. by subst.
Qed.

(** C11: at most one half-open probe per receiver: however many checks of one
    receiver interleave their commands on a shared Redis server, with any of
    their commands failing before or after it took effect, within the life of the probe lock at most one of
    them returns an admitted probe. *)
Theorem redis_one_probe_interleaved u p (calls : list (string * Z)) lo hi r ps' r' :
  0 < resetMs p → hi < lo + probeLockMs p →
  pool_steps lo hi ((λ c, redis_checkAndClaimAttempt hash c.1 u p c.2) <$> calls, r) (ps', r') →
  (admitted ps' <= 1)%nat.
Proof.
  intros Hr Hpx Hsteps.
  destruct (claim_inv_steps u p lo hi ((λ c, redis_checkAndClaimAttempt hash c.1 u p c.2) <$> calls, r) (ps', r')
    (replicate (length calls) false)) as (t' & l' & Hinv); [|done..|].
  - assert (holders (replicate (length calls) false) = 0%nat) as Hz.
    { clear. induction calls; [done|]. unfold holders in *. simpl. lia. }
    split; simpl; [|lia|lia]. clear. induction calls; constructor; [constructor|done].
  - pose proof (admitted_holders _ _ _ _ (ci_forms _ _ _ _ _ _ Hinv)). pose proof (ci_one _ _ _ _ _ _ Hinv).
    simpl in *. lia.
Qed.
End refinement.

(** between two recorded outcomes of a receiver the in-memory breaker admits
    at most one half-open probe, whatever calls for it or for other receivers
    are made and whatever the clock reads; once the probe is out the record
    stays as it is until an outcome is recorded. *)
Theorem memory_one_probe_between_outcomes hash k es m :
  no_outcome_on hash k es →
  (probes_on hash k es (@store_run _ (memory_store hash) es m).1 <= 1)%nat ∧
  (key_state k m = HalfOpen →
   probes_on hash k es (@store_run _ (memory_store hash) es m).1 = 0%nat ∧
   states (@store_run _ (memory_store hash) es m).2 !! k = states m !! k).
Proof.
  intros Hno. pose proof (mem_probes_bound hash k es m Hno) as Hb. split.
  - case_bool_decide; lia.
  - intros Hh. rewrite bool_decide_eq_true_2 in Hb by done.
    split; [lia|]. by apply mem_half_open_stays.
Qed.

Definition sample_policy : CircuitBreakerPolicy :=
  {| circuitBreakerThreshold := Some 2; circuitBreakerResetMs := Some 1000 |}.

(** Two failures, a denied check, a probe, a denied check, the probe's success. *)
Definition sample_history : list event :=
  [EvFailure "a" sample_policy 0; EvFailure "a" sample_policy 10; EvCheck "a" sample_policy 900;
   EvCheck "a" sample_policy 1010; EvCheck "a" sample_policy 2000; EvSuccess "a" sample_policy 3000;
   EvCheck "a" sample_policy 3001].

Lemma memory_one_probe_between_outcomes_witness :
  (probes_on id "a" (take 3 (drop 2 sample_history))
     (@store_run _ (memory_store id) (take 3 (drop 2 sample_history))
        (@store_run _ (memory_store id) (take 2 sample_history) mem_empty).2).1 <= 1)%nat.
Proof.
  apply (memory_one_probe_between_outcomes id "a"). repeat constructor.
Defined.

Lemma redis_refines_memory_witness :
  (@store_run _ (memory_store id) sample_history mem_empty).1 =
  (@store_run (Z * gredis) (redis_store id "p") sample_history (0, ∅)).1.
Proof.
  apply (redis_refines_memory id "p" sample_history mem_empty ∅ 0).
  - split; intros u t _; reflexivity.
  - assert (∀ t u m, match states m !! u with Some rec => t <? expiresAt rec | None => true end = true →
      unexpired id t u m) as Hu.
    { intros t u m Hb rec Hrec. unfold id in Hrec. rewrite Hrec in Hb. by apply Z.ltb_lt. }
    repeat (refine (conj _ (conj _ (conj _ _))); [discriminate|reflexivity|apply Hu; reflexivity|]). exact I.
Defined.

(** A server on which the circuit of ["a"] is open and its window has elapsed. *)
Definition sample_open : gredis :=
  (@store_run (Z * gredis) (redis_store id "p") (take 2 sample_history) (0, ∅)).2.2.

(** Two checks whose commands interleave: both read [open], one claims. *)
Lemma sample_probe_run : ∃ ps' r', pool_steps 1010 2000
    ((λ c, redis_checkAndClaimAttempt id c.1 "a" sample_policy c.2) <$> [("p", 1010); ("q", 1011)], sample_open)
    (ps', r') ∧ admitted ps' = 1%nat.
Proof.
  eexists _, _. split.
  - eapply steps_cons; [|eapply (pool_step_at 1010 0 NoFault); [reflexivity|vm_compute; reflexivity]|]; [lia|].
    eapply steps_cons; [|eapply (pool_step_at 1012 1 NoFault); [reflexivity|vm_compute; reflexivity]|]; [lia|].
    eapply steps_cons; [|eapply (pool_step_at 1013 0 NoFault); [reflexivity|vm_compute; reflexivity]|]; [lia|].
    eapply steps_cons; [|eapply (pool_step_at 1014 1 NoFault); [reflexivity|vm_compute; reflexivity]|]; [lia|].
    eapply steps_cons; [|eapply (pool_step_at 1015 0 NoFault); [reflexivity|vm_compute; reflexivity]|]; [lia|].
    apply steps_nil.
  - reflexivity.
Qed.

Lemma redis_one_probe_interleaved_witness :
  ∃ ps' r', pool_steps 1010 2000
    ((λ c, redis_checkAndClaimAttempt id c.1 "a" sample_policy c.2) <$> [("p", 1010); ("q", 1011)], sample_open)
    (ps', r') ∧ admitted ps' = 1%nat ∧ (admitted ps' <= 1)%nat.
Proof.
  destruct sample_probe_run as (ps' & r' & Hs & Ha).
  exists ps', r'. split; [exact Hs|]. split; [exact Ha|].
  apply (redis_one_probe_interleaved id "a" sample_policy [("p", 1010); ("q", 1011)] 1010 2000 sample_open ps' r');
    [reflexivity|reflexivity|exact Hs].
Defined.

(** the in-memory breaker opens at its threshold: after [n] consecutive
    failures of a receiver with no recorded state, deliveries are allowed
    exactly while [n] is below the threshold or the reset window after the last
    failure has elapsed, and while it is blocked the status shown to the
    receiver is paused with the resume time at which the block ends. *)
Theorem memory_opens_at_threshold hash u p ts now m :
  0 < threshold p → states m !! hash u = None → probes m !! hash u = None →
  let m' := mem_failures hash u p ts m in
  let n := Z.of_nat (length ts) in
  allowed (mem_checkAndClaimAttempt hash u p now m').1
    = (n <? threshold p) || (List.last ts 0 + resetMs p <=? now) ∧
  let status := describeWebhookCircuitBreaker (states m' !! hash u) p now in
  paused status = negb (allowed (mem_checkAndClaimAttempt hash u p now m').1) ∧
  (paused status = true → resumeAt status = Some (List.last ts 0 + resetMs p)).
Proof.
  intros Hp Hs Hpr. cbv zeta.
  assert (mem_record hash u m = closed) as Hc by (unfold mem_record; by rewrite Hs).
  destruct (mem_failures_record hash u p ts m Hp Hc) as (Hn & Hst & Hre).
  assert (probes (mem_failures hash u p ts m) !! hash u = None) as Hnp.
  { clear -Hpr. induction ts as [|t ts IH] using rev_ind; [done|]. rewrite mem_failures_snoc.
    unfold mem_recordFailure. destruct (threshold p <=? 0); simpl; [done|]. by rewrite lookup_delete_eq. }
  revert Hn Hst Hre Hnp. generalize (mem_failures hash u p ts m). intros m' Hn Hst Hre Hnp.
  unfold mem_checkAndClaimAttempt, describeWebhookCircuitBreaker, mem_record in *.
  rewrite Hnp. destruct (Z.leb_spec (threshold p) 0); [lia|].
  generalize dependent (default closed (states m' !! hash u)). intros rec Hn Hst Hre.
  rewrite Hst, Hn, Hre. destruct (Z.leb_spec (threshold p) (Z.of_nat (length ts))); simpl;
    destruct (Z.ltb_spec (Z.of_nat (length ts)) (threshold p)); try lia; simpl; try done.
  destruct (Z.ltb_spec now (List.last ts 0 + resetMs p)), (Z.leb_spec (List.last ts 0 + resetMs p) now);
    try lia; done.
Qed.

Lemma memory_opens_at_threshold_witness :
  allowed (mem_checkAndClaimAttempt id "a" sample_policy 900 (mem_failures id "a" sample_policy [0; 10] mem_empty)).1
  = false.
Proof. apply (memory_opens_at_threshold id "a" sample_policy [0; 10] 900 mem_empty); reflexivity. Defined.

(** the documented recovery of an abandoned probe differs between the stores.
    With no outcome recorded after a probe was claimed, the Redis record expires
    and the next check is allowed, as documented; the in-memory record never
    expires, so every later check of the receiver is denied. *)
Theorem abandoned_probe_recovery {R} `{RedisLaws R} `{JsonCodec PartialRecord} hash uuid u p t m (r : R) rec :
  0 < threshold p → states m !! hash u = Some rec → state rec = HalfOpen → sim hash t m r →
  expiresAt rec <= t →
  allowed (mem_checkAndClaimAttempt hash u p t m).1 = false ∧
  (run t (redis_checkAndClaimAttempt hash uuid u p t) r).1 = check true Closed 0 None.
Proof.
  intros Hp Hs Hh Hsim Hex. split.
  - apply mem_check_half_open; [|done]. unfold key_state. by rewrite Hs.
  - unfold redis_checkAndClaimAttempt. destruct (Z.leb_spec (threshold p) 0); [lia|].
    rewrite run_get, (sim_state _ _ _ _ Hsim) by lia. rewrite Hs.
    destruct (Z.ltb_spec t (expiresAt rec)); [lia|]. done.
Qed.

Definition stuck_record : WebhookCircuitBreakerRecord := claimed_record sample_policy 0 closed.
Definition stuck_memory : Memory := {| states := {["a" := stuck_record]}; probes := ∅ |}.

Lemma abandoned_probe_recovery_witness :
  allowed (mem_checkAndClaimAttempt id "a" sample_policy 400000 stuck_memory).1 = false ∧
  (run 400000 (redis_checkAndClaimAttempt id "p" "a" sample_policy 400000) (∅ : gredis)).1
  = check true Closed 0 None.
Proof.
  apply (abandoned_probe_recovery id "p" "a" sample_policy 400000 stuck_memory (∅ : gredis) stuck_record);
    [reflexivity|reflexivity|reflexivity| |discriminate].
  split; simpl; intros u t Ht.
  - unfold gredis_view. rewrite lookup_empty. unfold stuck_memory; simpl.
    destruct (decide (u = "a")) as [->|Hu].
    + rewrite lookup_singleton_eq. destruct (Z.ltb_spec t (expiresAt stuck_record)) as [Hlt|]; [|reflexivity].
      exfalso. revert Hlt. vm_compute (expiresAt stuck_record). lia.
    + by rewrite lookup_singleton_ne.
  - done.
Defined.
