(* ===== verification/Retry.v ===== *)
(** * Backoff and retry ([src/lib/retry.ts], [src/webhooks/retry.ts])

    Delays with jitter, the retry loop, and the retry decisions of the webhook
    outbox.  [Math.random()] is an argument, a rational in [0, 1); products of
    JavaScript numbers are exact here, where the code's doubles round.
    Durations are integers in milliseconds. *)
From Stdlib Require Import Ascii ZArith QArith Qround Qminmax Lia Lqa.
From stdpp Require Import base strings list.
From S2P Require Import Prelude.
Local Open Scope string_scope.
Local Open Scope list_scope.
Local Open Scope Z_scope.

(** ** Delays *)

Inductive JitterAlgorithm : Type := Full | Decorrelated | Legacy.

Record JitteredRetryOptions : Type := {
  baseDelayMs : Z;
  maxDelayMs : Z;
  maxAttempts : Z;
  jitterAlgorithm : option JitterAlgorithm;
  jitterPercent : option Z;
  previousDelayMs : option Z;
}.

(** [Math.round(q)]: the nearest integer, halves up. *)
Definition Math_round (q : Q) : Z := Qfloor (q + (1 # 2))%Q.

(** [calculateNextRetryDelay(attemptNumber, options)] with [rnd = random()]. *)
Definition calculateNextRetryDelay (attemptNumber : Z) (options : JitteredRetryOptions) (rnd : Q) : Z :=
  if maxAttempts options <=? attemptNumber then 0
  else
    let algorithm := default Legacy (jitterAlgorithm options) in
    let percent := default (match algorithm with Legacy => 100 | _ => 10 end) (jitterPercent options) in
    let exponential := baseDelayMs options * 2 ^ attemptNumber in
    let capped := Z.min (maxDelayMs options) exponential in
    if percent =? 0 then capped
    else
      let jitteredDelay :=
        match algorithm with
        | Full => (rnd * inject_Z capped)%Q
        | Decorrelated =>
            let previousDelay := default (baseDelayMs options) (previousDelayMs options) in
            let maxJitter := Z.min (maxDelayMs options) (previousDelay * 3) in
            let range := maxJitter - baseDelayMs options in
            (inject_Z (baseDelayMs options) + rnd * inject_Z (Z.max 0 range))%Q
        | Legacy =>
            let range := (inject_Z (capped - baseDelayMs options) * (inject_Z percent / 100))%Q in
            (inject_Z (baseDelayMs options) + rnd * Qmax 0 range)%Q
        end in
      Z.max 0 (Math_round jitteredDelay).

(** ** The retry loop *)

(** One pass over [withJitteredRetry]'s loop per unit of fuel.  [operation n]
    is the outcome of the [n]-th attempt, [rnd n] the random number drawn after
    its failure.  Returns the outcome and the sleeps, [None] when out of fuel. *)
Fixpoint retry_loop {E A} (fuel : nat) (operation : Z → result E A) (options : JitteredRetryOptions)
    (isRetryable : E → bool) (maxDelayForAttemptMs : option (Z → Z)) (rnd : Z → Q)
    (attempt prev : Z) : option (result E A * list Z) :=
  match fuel with
  | O => None
  | S fuel =>
      match operation (attempt + 1) with
      | Ok a => Some (Ok a, [])
      | Err error =>
          let attempt := attempt + 1 in
          if (maxAttempts options <=? attempt) || negb (isRetryable error) then Some (Err error, [])
          else
            let maxJitter := if prev =? 0 then baseDelayMs options * 3 else prev * 3 in
            let nextDelay :=
              (inject_Z (baseDelayMs options)
               + rnd attempt * inject_Z (Z.max (baseDelayMs options) maxJitter - baseDelayMs options))%Q in
            let delay := Math_round (Qmin (inject_Z (maxDelayMs options)) nextDelay) in
            let boundedDelay :=
              Z.max 0 (Z.min delay (match maxDelayForAttemptMs with Some f => f attempt | None => delay end)) in
            match retry_loop fuel operation options isRetryable maxDelayForAttemptMs rnd attempt delay with
            | Some (res, sleeps) => Some (res, boundedDelay :: sleeps)
            | None => None
            end
      end
  end.

(** Fuel for every pass the loop can make. *)
Definition withJitteredRetry {E A} (operation : Z → result E A) (options : JitteredRetryOptions)
    (isRetryable : E → bool) (maxDelayForAttemptMs : option (Z → Z)) (rnd : Z → Q) : option (result E A * list Z) :=
  retry_loop (S (Z.to_nat (maxAttempts options))) operation options isRetryable maxDelayForAttemptMs rnd 0 0.

(** ** Webhook retry policy *)

Record EnhancedRetryPolicy : Type := {
  rp_maxAttempts : Z;
  rp_initialBackoffMs : Z;
  rp_backoffMultiplier : Z;
  rp_maxBackoffMs : Z;
  rp_jitterPercent : Z;
  rp_jitterAlgorithm : option JitterAlgorithm;
  rp_timeoutMs : Z;
  rp_retryableStatusCodes : list Z;
  rp_deadLetterAfterMs : option Z;
  rp_circuitBreakerThreshold : option Z;
  rp_circuitBreakerResetMs : option Z;
  rp_previousDelayMs : option Z;
}.

Definition DEFAULT_RETRY_POLICY : EnhancedRetryPolicy := {|
  rp_maxAttempts := 5; rp_initialBackoffMs := 1000; rp_backoffMultiplier := 2;
  rp_maxBackoffMs := 60000; rp_jitterPercent := 10; rp_jitterAlgorithm := None; rp_timeoutMs := 30000;
  rp_retryableStatusCodes := [408; 425; 429; 500; 502; 503; 504];
  rp_deadLetterAfterMs := None; rp_circuitBreakerThreshold := None;
  rp_circuitBreakerResetMs := None; rp_previousDelayMs := None |}.

Record WebhookDeliveryAttempt : Type := {
  at_attemptNumber : Z;
  at_timestamp : Z;
  at_statusCode : option Z;
  at_error : option string;
  at_nextRetryAt : option Z;
}.

(** [x && ...] on an optional number: [undefined] and [0] are falsy. *)
Definition truthy (x : option Z) : option Z :=
  match x with Some n => if n =? 0 then None else Some n | None => None end.

Definition isRetryableStatusCode (statusCode : option Z) (policy : EnhancedRetryPolicy) : bool :=
  match statusCode with
  | None => true
  | Some c => bool_decide (c ∈ rp_retryableStatusCodes policy)
  end.

Definition policy_options (policy : EnhancedRetryPolicy) (previous : option Z) : JitteredRetryOptions := {|
  baseDelayMs := rp_initialBackoffMs policy;
  maxDelayMs := rp_maxBackoffMs policy;
  maxAttempts := rp_maxAttempts policy;
  jitterAlgorithm := Some (default Full (rp_jitterAlgorithm policy));
  jitterPercent := Some (rp_jitterPercent policy);
  previousDelayMs := previous |}.

Definition calculateNextRetryTime (attemptNumber : Z) (policy : EnhancedRetryPolicy) (now : Z)
    (previous : option Z) (rnd : Q) : Z :=
  if rp_maxAttempts policy <=? attemptNumber then 0
  else
    let previous := match previous with Some p => Some p | None => rp_previousDelayMs policy end in
    now + calculateNextRetryDelay attemptNumber (policy_options policy previous) rnd.

Record RetrySchedule : Type := { rs_attemptNumber : Z; rs_delayMs : Z; rs_retryAt : Z }.

(** The loop of [generateRetrySchedule] for the attempts [i], [i + 1], ... *)
Fixpoint schedule_from (n : nat) (i : Z) (policy : EnhancedRetryPolicy) (now : Z) (previous : option Z)
    (rnd : Z → Q) : list RetrySchedule :=
  match n with
  | O => []
  | S n =>
      let delayMs := calculateNextRetryDelay i (policy_options policy previous) (rnd i) in
      let previous' :=
        match default Full (rp_jitterAlgorithm policy) with Decorrelated => Some delayMs | _ => previous end in
      {| rs_attemptNumber := i + 1; rs_delayMs := delayMs; rs_retryAt := now + delayMs |}
        :: schedule_from n (i + 1) policy now previous' rnd
  end.

Definition generateRetrySchedule (policy : EnhancedRetryPolicy) (now : Z) (rnd : Z → Q) : list RetrySchedule :=
  schedule_from (Z.to_nat (rp_maxAttempts policy)) 0 policy now None rnd.

(** ** Outbox payloads *)

Definition webhookRetry_entry (n : Z) : string * jsval :=
  ("_webhookRetry", JObj [("attemptNumber", JNum (NumInt n))]).

(** [{ ...payload, _webhookRetry: { attemptNumber } }] for an object, otherwise a new object. *)
Definition outbox_payload (payload : jsval) (n : Z) : jsval :=
  match payload with
  | JObj o => JObj (jm_set "_webhookRetry" (webhookRetry_entry n).2 o)
  | _ => JObj [webhookRetry_entry n]
  end.

Record WebhookOutboxRetryPlan : Type := {
  pl_shouldRetry : bool;
  pl_attemptNumber : Z;
  pl_retryAt : option Z;
  pl_payload : jsval;
  pl_rateLimited : option bool;
}.

Definition scheduleWebhookOutboxRetry (payload : jsval) (attemptNumber : Z) (policy : EnhancedRetryPolicy)
    (now : Z) (rnd : Q) : WebhookOutboxRetryPlan :=
  let nextAttemptNumber := attemptNumber + 1 in
  if rp_maxAttempts policy <? nextAttemptNumber
  then {| pl_shouldRetry := false; pl_attemptNumber := attemptNumber; pl_retryAt := None;
          pl_payload := payload; pl_rateLimited := None |}
  else {| pl_shouldRetry := true; pl_attemptNumber := nextAttemptNumber;
          pl_retryAt := Some (calculateNextRetryTime attemptNumber policy now None rnd);
          pl_payload := outbox_payload payload nextAttemptNumber; pl_rateLimited := None |}.

(** ** Retry decisions *)

Definition shouldRetry (attempt : WebhookDeliveryAttempt) (attemptNumber : Z) (policy : EnhancedRetryPolicy)
    (consecutiveFailures : Z) : bool :=
  if rp_maxAttempts policy <=? attemptNumber then false
  else if match truthy (rp_circuitBreakerThreshold policy) with
          | Some t => t <=? consecutiveFailures
          | None => false
          end then false
  else match at_statusCode attempt with
       | None => true
       | Some c => isRetryableStatusCode (Some c) policy
       end.

(** [clock] is [Date.now()]. *)
Definition shouldSendToDLQ (attemptNumber : Z) (policy : EnhancedRetryPolicy) (createdAt clock : Z) : bool :=
  if rp_maxAttempts policy <=? attemptNumber then true
  else match truthy (rp_deadLetterAfterMs policy) with
       | Some d => d <? clock - createdAt
       | None => false
       end.

Definition calculateCircuitBreakerResetTime (policy : EnhancedRetryPolicy) (now : Z) : Z :=
  match truthy (rp_circuitBreakerResetMs policy) with Some ms => now + ms | None => 0 end.

(** [!attempt.error] *)
Definition no_error (attempt : WebhookDeliveryAttempt) : bool :=
  match at_error attempt with Some e => str_empty e | None => true end.

(** [statusCode !== undefined && statusCode >= 200 && statusCode < 300 && !attempt.error] *)
Definition delivered (attempt : WebhookDeliveryAttempt) : bool :=
  match at_statusCode attempt with
  | Some c => (200 <=? c) && (c <? 300) && no_error attempt
  | None => false
  end.

Definition countsTowardCircuitBreaker (attempt : WebhookDeliveryAttempt) (policy : EnhancedRetryPolicy) : bool :=
  if delivered attempt then false
  else match at_statusCode attempt with
       | None => true
       | Some c => isRetryableStatusCode (Some c) policy
       end.

Definition validateRetryPolicy (policy : EnhancedRetryPolicy) : list string :=
  (if rp_maxAttempts policy <? 1 then ["maxAttempts must be at least 1"] else [])
  ++ (if rp_initialBackoffMs policy <? 100 then ["initialBackoffMs must be at least 100ms"] else [])
  ++ (if rp_backoffMultiplier policy <? 1 then ["backoffMultiplier must be at least 1"] else [])
  ++ (if rp_maxBackoffMs policy <? rp_initialBackoffMs policy
      then ["maxBackoffMs must be greater than initialBackoffMs"] else [])
  ++ (if rp_timeoutMs policy <? 1000 then ["timeoutMs must be at least 1000ms"] else [])
  ++ (match truthy (rp_deadLetterAfterMs policy) with
      | Some d => if d <? 60000 then ["deadLetterAfterMs must be at least 60000ms (1 minute)"] else []
      | None => []
      end).

(** ** Rounding *)
Lemma Qfloor_le_Z (q : Q) (n : Z) : (q < inject_Z (n + 1))%Q → Qfloor q <= n.
Proof.
  intros Hq. pose proof (Qfloor_le q) as Hf.
  assert (inject_Z (Qfloor q) < inject_Z (n + 1))%Q as Hlt by (eapply Qle_lt_trans; done).
  rewrite <-Zlt_Qlt in Hlt. lia.
Qed.

Lemma Math_round_le q n : (q <= inject_Z n)%Q → Math_round q <= n.
Proof.
  intros Hq. apply Qfloor_le_Z. rewrite inject_Z_plus. change (inject_Z 1) with 1%Q. lra.
Qed.

Lemma Math_round_ge q n : (inject_Z n <= q)%Q → n <= Math_round q.
Proof.
  intros Hq. unfold Math_round. rewrite <-(Qfloor_Z n) at 1. apply Qfloor_resp_le. lra.
Qed.

(** [rnd * n] for a random number in [0, 1). *)
Lemma rnd_mul rnd q : (0 <= rnd)%Q → (rnd < 1)%Q → (0 <= q)%Q → (0 <= rnd * q)%Q ∧ (rnd * q <= q)%Q.
Proof. intros ? ? ?. split; [by apply Qmult_le_0_compat|]. nra. Qed.

Lemma inject_le a b : a <= b → (inject_Z a <= inject_Z b)%Q.
Proof. by rewrite Zle_Qle. Qed.

(** The delay is between its lower bound and the cap. *)
Lemma delay_bounds n o rnd :
  (0 <= rnd)%Q → (rnd < 1)%Q → 0 <= n → 0 <= baseDelayMs o <= maxDelayMs o →
  (∀ p, jitterPercent o = Some p → 0 <= p <= 100) →
  0 <= calculateNextRetryDelay n o rnd <= maxDelayMs o ∧
  (n < maxAttempts o → default Legacy (jitterAlgorithm o) ≠ Full →
   baseDelayMs o <= calculateNextRetryDelay n o rnd) ∧
  (default Legacy (jitterAlgorithm o) = Full → calculateNextRetryDelay n o rnd <= baseDelayMs o * 2 ^ n).
Proof.
  intros Hr0 Hr1 Hn Hb Hp. unfold calculateNextRetryDelay.
  assert (1 <= 2 ^ n) as Hpow by (pose proof (Z.pow_pos_nonneg 2 n); lia).
  destruct (Z.leb_spec (maxAttempts o) n); [splits; nia|].
  set (capped := Z.min (maxDelayMs o) (baseDelayMs o * 2 ^ n)).
  assert (baseDelayMs o <= capped <= maxDelayMs o ∧ capped <= baseDelayMs o * 2 ^ n) as [Hc Hc'] by (unfold capped; nia).
  set (percent := default _ _). assert (0 <= percent <= 100) as Hper.
  { unfold percent. destruct (jitterPercent o); simpl; [by apply Hp|by destruct (default Legacy _)]. }
  destruct (Z.eqb_spec percent 0); [splits; lia|].
  destruct (default Legacy (jitterAlgorithm o)).
  - destruct (rnd_mul rnd (inject_Z capped)) as [Hl Hu]; [done|done|by apply (inject_le 0); lia|].
    apply Math_round_le in Hu. splits; try done; intros; lia.
  - destruct (rnd_mul rnd (inject_Z (Z.max 0 (Z.min (maxDelayMs o) (default (baseDelayMs o) (previousDelayMs o) * 3) - baseDelayMs o)))) as [Hl Hu];
      [done|done|apply (inject_le 0); lia|].
    set (x := Z.max 0 _) in *. assert (baseDelayMs o + x <= maxDelayMs o) by lia.
    assert (baseDelayMs o <= Math_round (inject_Z (baseDelayMs o) + rnd * inject_Z x)%Q) by (apply Math_round_ge; lra).
    assert (Math_round (inject_Z (baseDelayMs o) + rnd * inject_Z x)%Q <= baseDelayMs o + x).
    { apply Math_round_le. rewrite inject_Z_plus. lra. }
    splits; try done; intros; lia.
  - assert (0 <= inject_Z percent / 100 <= 1)%Q as [Hq0 Hq1].
    { split; [apply Qle_shift_div_l|apply Qle_shift_div_r]; try done; [|].
      - pose proof (inject_le 0 percent ltac:(lia)) as Hx. change (inject_Z 0) with 0%Q in Hx. lra.
      - pose proof (inject_le percent 100 ltac:(lia)). change (inject_Z 100) with 100%Q in *. lra. }
    pose proof (inject_le 0 (capped - baseDelayMs o) ltac:(lia)) as Hd. change (inject_Z 0) with 0%Q in Hd.
    set (d := inject_Z (capped - baseDelayMs o)) in *. set (pq := (inject_Z percent / 100)%Q) in *.
    assert (0 <= d * pq <= d)%Q as [Hm0 Hm1] by (split; [by apply Qmult_le_0_compat|nra]).
    assert (0 <= Qmax 0 (d * pq) <= d)%Q as [Hx0 Hx1].
    { split; [apply Q.le_max_l|]. apply Q.max_lub; [done|done]. }
    generalize dependent (Qmax 0 (d * pq)). intros m Hx0 Hx1.
    destruct (rnd_mul rnd m) as [Hl Hu]; [done..|].
    assert (baseDelayMs o <= Math_round (inject_Z (baseDelayMs o) + rnd * m)%Q) by (apply Math_round_ge; lra).
    assert (Math_round (inject_Z (baseDelayMs o) + rnd * m)%Q <= capped).
    { apply Math_round_le. assert (inject_Z capped == inject_Z (baseDelayMs o) + d)%Q as ->.
      { unfold d. rewrite <-inject_Z_plus. replace (baseDelayMs o + (capped - baseDelayMs o)) with capped by lia. done. }
      lra. }
    splits; try done; intros; lia.
Qed.

(** ** The loop *)

(** The sleep after a failed attempt. *)
Lemma loop_delay_bounds (base mx prev : Z) (rnd : Q) :
  (0 <= rnd)%Q → (rnd < 1)%Q → 0 <= base → 0 <= mx → 0 <= prev →
  let maxJitter := if prev =? 0 then base * 3 else prev * 3 in
  let nextDelay := (inject_Z base + rnd * inject_Z (Z.max base maxJitter - base))%Q in
  Z.min mx base <= Math_round (Qmin (inject_Z mx) nextDelay) <= mx.
Proof.
  intros Hr0 Hr1 Hb Hm Hp maxJitter nextDelay.
  assert (0 <= Z.max base maxJitter - base) as Hd by lia.
  destruct (rnd_mul rnd (inject_Z (Z.max base maxJitter - base))) as [Hl _]; [done|done|by apply (inject_le 0)|].
  split.
  - apply Math_round_ge. apply Q.min_glb; [apply inject_le; lia|].
    apply Qle_trans with (inject_Z base); [apply inject_le; lia|]. unfold nextDelay. lra.
  - apply Math_round_le. apply Q.le_min_l.
Qed.

Section loop.
Context {E A : Type} (operation : Z → result E A) (options : JitteredRetryOptions) (isRetryable : E → bool)
  (deadline : option (Z → Z)) (rnd : Z → Q).
Hypothesis rnd_range : ∀ n, (0 <= rnd n)%Q ∧ (rnd n < 1)%Q.
Hypothesis delays_nonneg : 0 <= baseDelayMs options ∧ 0 <= maxDelayMs options.

(** The run that starts after [attempt] failures ends at attempt [n]. *)
Record loop_outcome (attempt n : Z) (res : result E A) (sleeps : list Z) : Prop := {
  lo_result : res = operation n;
  lo_range : attempt < n <= Z.max (attempt + 1) (maxAttempts options);
  lo_sleeps : Z.of_nat (length sleeps) = n - attempt - 1;
  lo_failed k : attempt < k < n → ∃ e, operation k = Err e ∧ isRetryable e = true;
  lo_reason e : operation n = Err e → n < maxAttempts options → isRetryable e = false;
  lo_bounds d : d ∈ sleeps → 0 <= d <= maxDelayMs options ∧
    (deadline = None → Z.min (maxDelayMs options) (baseDelayMs options) <= d);
}.

Lemma retry_loop_spec fuel attempt prev :
  0 <= prev → (Z.to_nat (maxAttempts options - attempt) < fuel)%nat →
  ∃ n res sleeps, retry_loop fuel operation options isRetryable deadline rnd attempt prev = Some (res, sleeps) ∧
    loop_outcome attempt n res sleeps.
Proof using rnd_range delays_nonneg.
  destruct delays_nonneg as [Hb Hm].
  revert attempt prev. induction fuel as [|fuel IH]; intros attempt prev Hp Hf; [lia|]. simpl.
  destruct (operation (attempt + 1)) as [a|e] eqn:Hop.
  - exists (attempt + 1), (Ok a), []. split; [done|]. split; simpl; intros; try done; try lia; try congruence.
    by apply not_elem_of_nil in H.
  - destruct (Z.leb_spec (maxAttempts options) (attempt + 1)) as [Hmax|Hmax]; simpl;
      [|destruct (isRetryable e) eqn:Hre; simpl].
    + exists (attempt + 1), (Err e), []. split; [done|]. split; simpl; intros; try done; try lia; try congruence.
      by apply not_elem_of_nil in H.
    + destruct (rnd_range (attempt + 1)) as [Hr0 Hr1].
      pose proof (loop_delay_bounds _ _ _ _ Hr0 Hr1 Hb Hm Hp) as Hd. simpl in Hd.
      set (delay := Math_round _) in *.
      destruct (IH (attempt + 1) delay) as (n & res & sleeps & -> & Ho); [lia|lia|].
      eexists n, res, _. split; [done|]. destruct Ho as [Hr Hrg Hs Hfl Hrs Hbd]. split; simpl; intros; try done; try lia.
      * destruct (decide (k = attempt + 1)) as [->|]; [by exists e|]. apply Hfl. lia.
      * by apply Hrs.
      * apply elem_of_cons in H as [->|H]; [|by apply Hbd]. split; [|intros ->]; lia.
    + exists (attempt + 1), (Err e), []. split; [done|]. split; simpl; intros; try done; try lia; try congruence.
      by apply not_elem_of_nil in H.
Qed.
End loop.

(** ** Properties *)

(** every webhook backoff respects the policy: for a policy that
    [validateRetryPolicy] accepts, with a jitter percentage and random number in
    range, the next retry time of an attempt below the maximum lies between
    [now] and [now + maxBackoffMs] and never beyond the doubled backoff under full
    jitter, and under decorrelated jitter it is at least [initialBackoffMs] away. *)
Theorem webhook_backoff_bounds attemptNumber policy now previous rnd :
  validateRetryPolicy policy = [] → 0 <= rp_jitterPercent policy <= 100 →
  rp_jitterAlgorithm policy ≠ Some Legacy → (0 <= rnd)%Q → (rnd < 1)%Q →
  0 <= attemptNumber < rp_maxAttempts policy →
  let t := calculateNextRetryTime attemptNumber policy now previous rnd in
  now <= t <= now + rp_maxBackoffMs policy ∧
  match rp_jitterAlgorithm policy with
  | Some Decorrelated => now + rp_initialBackoffMs policy <= t
  | _ => t <= now + rp_initialBackoffMs policy * 2 ^ attemptNumber
  end.
Proof.
  intros Hv Hj Hleg Hr0 Hr1 Hn. unfold validateRetryPolicy in Hv.
  assert (100 <= rp_initialBackoffMs policy <= rp_maxBackoffMs policy) as Hb.
  { destruct (Z.ltb_spec (rp_maxAttempts policy) 1); [done|].
    destruct (Z.ltb_spec (rp_initialBackoffMs policy) 100); [done|].
    destruct (Z.ltb_spec (rp_backoffMultiplier policy) 1); [done|].
    destruct (Z.ltb_spec (rp_maxBackoffMs policy) (rp_initialBackoffMs policy)); [done|]. lia. }
  unfold calculateNextRetryTime. destruct (Z.leb_spec (rp_maxAttempts policy) attemptNumber); [lia|].
  set (o := policy_options policy _).
  assert (∀ p, jitterPercent o = Some p → 0 <= p <= 100) as Hper by (intros p [= <-]; lia).
  destruct (delay_bounds attemptNumber o rnd Hr0 Hr1 ltac:(lia) ltac:(simpl; lia) Hper) as (Hd & Hlow & Hup).
  simpl in *. cbv zeta. split; [lia|].
  destruct (rp_jitterAlgorithm policy) as [[]|]; simpl in *; try done.
  - specialize (Hup eq_refl). lia.
  - specialize (Hlow ltac:(lia) ltac:(done)). lia.
  - specialize (Hup eq_refl). lia.
Qed.

Lemma webhook_backoff_bounds_witness :
  0 <= calculateNextRetryTime 3 DEFAULT_RETRY_POLICY 0 None (1 # 2) <= 60000.
Proof.
  apply (webhook_backoff_bounds 3 DEFAULT_RETRY_POLICY 0 None (1 # 2));
    [reflexivity|simpl; lia|discriminate|discriminate|reflexivity|simpl; lia].
Defined.

(** the retry loop always ends, with at most [maxAttempts] attempts (one
    when that is below one): it returns the outcome of the last attempt it
    makes, every earlier attempt failed with a retryable error, it stops early
    only on success or on an error that is not retryable, and it sleeps once
    between attempts, never longer than [maxDelayMs] and, without an external
    deadline, never less than the smaller of [baseDelayMs] and [maxDelayMs]. *)
Theorem jittered_retry_total {E A} (operation : Z → result E A) options isRetryable deadline rnd :
  (∀ n, (0 <= rnd n)%Q ∧ (rnd n < 1)%Q) → 0 <= baseDelayMs options ∧ 0 <= maxDelayMs options →
  ∃ n res sleeps,
    withJitteredRetry operation options isRetryable deadline rnd = Some (res, sleeps) ∧
    res = operation n ∧ 1 <= n <= Z.max 1 (maxAttempts options) ∧ Z.of_nat (length sleeps) = n - 1 ∧
    (∀ k, 1 <= k < n → ∃ e, operation k = Err e ∧ isRetryable e = true) ∧
    (∀ e, operation n = Err e → n < maxAttempts options → isRetryable e = false) ∧
    (∀ d, d ∈ sleeps → 0 <= d <= maxDelayMs options ∧
       (deadline = None → Z.min (maxDelayMs options) (baseDelayMs options) <= d)).
Proof.
  intros Hr Hd. unfold withJitteredRetry.
  destruct (retry_loop_spec operation options isRetryable deadline rnd Hr Hd
    (S (Z.to_nat (maxAttempts options))) 0 0) as (n & res & sleeps & -> & Ho); [lia|lia|].
  destruct Ho. exists n, res, sleeps. splits; try done; try lia. intros k Hk. apply lo_failed0. lia.
Qed.

Definition sample_options : JitteredRetryOptions :=
  {| baseDelayMs := 100; maxDelayMs := 1000; maxAttempts := 3; jitterAlgorithm := None;
     jitterPercent := None; previousDelayMs := None |}.

Lemma jittered_retry_total_witness :
  ∃ n res sleeps,
    withJitteredRetry (λ n, if n =? 3 then Ok n else Err "timeout") sample_options (λ _, true) None (λ _, 0%Q)
      = Some (res, sleeps) ∧ res = (λ n, if n =? 3 then Ok n else Err "timeout") n.
Proof.
  destruct (jittered_retry_total (λ n, if n =? 3 then Ok n else Err "timeout") sample_options (λ _, true) None
    (λ _, 0%Q)) as (n & res & sleeps & H1 & H2 & _);
    [intros _; split; [discriminate|reflexivity]|simpl; lia|].
  exists n, res, sleeps. split; [exact H1|exact H2].
Defined.
