(* ===== verification/DeliveryGate.v ===== *)
(** * The webhook delivery gate ([src/webhooks/retry.ts], from line 220)

    One outbound attempt: the circuit breaker, then the rate limiter, then the
    delivery and the recording of its outcome.  The breaker is any
    [BreakerStore]; the rate limiter is used through its interface
    [IWebhookRateLimiter] only; the HTTP call is an argument. *)
From Stdlib Require Import Ascii ZArith QArith Lia.
From stdpp Require Import base gmap strings list.
From S2P Require Import Prelude Redis CircuitBreaker Retry.
Local Open Scope string_scope.
Local Open Scope list_scope.
Local Open Scope Z_scope.

(** ** Interfaces *)

Record RateLimitDimensions : Type := {
  rd_tenant : string; rd_endpoint : string; rd_outcome : string; rd_weight : Z }.
Record RateLimitConfig : Type := { rc_limit : Z; rc_windowMs : Z; rc_burst : Z; rc_weight : option Z }.
Record RateLimitResult : Type := { canAttempt : bool; retryAfterMs : option Z }.

(** [IWebhookRateLimiter] over a limiter state [L]. *)
Class RateLimiter (L : Type) := {
  checkLimit : RateLimitDimensions → RateLimitConfig → L → RateLimitResult * L;
}.

(** A denied attempt is told to wait for a positive time. *)
Class RateLimiterLaws (L : Type) `{RateLimiter L} := {
  denied_waits d c l : 0 < rc_windowMs c → canAttempt (checkLimit d c l).1 = false →
    0 < default (rc_windowMs c) (retryAfterMs (checkLimit d c l).1);
}.

(** ** Deferral *)

Definition HALF_OPEN_CONTENTION_DEFERRAL_MS : Z := 1000.

Definition breaker_policy (policy : EnhancedRetryPolicy) : CircuitBreakerPolicy :=
  {| circuitBreakerThreshold := rp_circuitBreakerThreshold policy;
     circuitBreakerResetMs := rp_circuitBreakerResetMs policy |}.

Definition resolveCircuitBreakerDeferral (breaker : WebhookCircuitBreakerCheckResult)
    (policy : EnhancedRetryPolicy) (now : Z) : Z :=
  let late :=
    if bool_decide (ck_state breaker = HalfOpen) then now + HALF_OPEN_CONTENTION_DEFERRAL_MS
    else Z.max (calculateCircuitBreakerResetTime policy now) (now + HALF_OPEN_CONTENTION_DEFERRAL_MS) in
  match ck_resetAt breaker with
  | Some r => if now <? r then r else late
  | None => late
  end.

(** ** The gate *)

Record WebhookDeliveryGateResult : Type := {
  canDeliver : bool;
  gr_retryAt : option Z;
  gr_rateLimited : option bool;
  gr_circuitBreakerOpen : option bool;
  gr_consecutiveFailures : Z;
}.

Record WebhookOutboxRetryInput : Type := {
  in_consumerUrl : option string;
  in_streamId : string;
  in_payload : jsval;
  in_attemptNumber : Z;
  in_policy : option EnhancedRetryPolicy;
  in_now : Z;
}.

Section gate.
Context {S L : Type} `{BreakerStore S} `{RateLimiter L}.

(** [deps.rateLimitConfig] when both it and [deps.rateLimiter] are given. *)
Definition checkWebhookDeliveryGate (consumerKey : string) (policy : EnhancedRetryPolicy)
    (rateLimitConfig : option RateLimitConfig) (rateLimitDimensions : option RateLimitDimensions)
    (now : Z) (s : S * L) : WebhookDeliveryGateResult * (S * L) :=
  let '(breaker, st) := checkAndClaimAttempt consumerKey (breaker_policy policy) now s.1 in
  if negb (allowed breaker) then
    ({| canDeliver := false;
        gr_retryAt := Some (resolveCircuitBreakerDeferral breaker policy now);
        gr_rateLimited := None;
        gr_circuitBreakerOpen :=
          Some (bool_decide (ck_state breaker = Open) || bool_decide (ck_state breaker = HalfOpen));
        gr_consecutiveFailures := ck_consecutiveFailures breaker |}, (st, s.2))
  else
    let deliver :=
      {| canDeliver := true; gr_retryAt := None; gr_rateLimited := None; gr_circuitBreakerOpen := None;
         gr_consecutiveFailures := ck_consecutiveFailures breaker |} in
    match rateLimitConfig with
    | None => (deliver, (st, s.2))
    | Some config =>
        let dimensions := default
          {| rd_tenant := "default"; rd_endpoint := consumerKey; rd_outcome := "first_attempt"; rd_weight := 1 |}
          rateLimitDimensions in
        let rlConfig :=
          {| rc_limit := rc_limit config; rc_windowMs := rc_windowMs config; rc_burst := rc_burst config;
             rc_weight := Some (rd_weight dimensions) |} in
        let '(limit, l) := checkLimit dimensions rlConfig s.2 in
        if negb (canAttempt limit) then
          ({| canDeliver := false;
              gr_retryAt := Some (now + default (rc_windowMs config) (retryAfterMs limit));
              gr_rateLimited := Some true; gr_circuitBreakerOpen := None;
              gr_consecutiveFailures := ck_consecutiveFailures breaker |}, (st, l))
        else (deliver, (st, l))
    end.

(** [typeof payload['k'] === 'string' ? payload['k'] : null] *)
Definition string_field (payload : jsval) (k : string) : option string :=
  match payload with JObj o => match js_get o k with JStr s => Some s | _ => None end | _ => None end.

Definition tenant_of (input : WebhookOutboxRetryInput) : string :=
  match string_field (in_payload input) "tenant_id" with
  | Some t => t
  | None => default (in_streamId input) (string_field (in_payload input) "tenantId")
  end.

Definition dimensions_of (input : WebhookOutboxRetryInput) : RateLimitDimensions :=
  let isRetry := 1 <? in_attemptNumber input in
  {| rd_tenant := tenant_of input;
     rd_endpoint := default "unknown_endpoint" (in_consumerUrl input);
     rd_outcome := if isRetry then "retry" else "first_attempt";
     rd_weight := if isRetry then in_attemptNumber input else 1 |}.

(** [{ ...payload }] for an object (an array's elements become fields named by
    their index), [{ value: payload }] otherwise. *)
Definition augmentPayloadWithRetry (payload : jsval) (attemptNumber : Z) : jsval :=
  let base :=
    match payload with
    | JObj o => o
    | JArr l => imap (λ i v, (int_string (Z.of_nat i), v)) l
    | _ => [("value", payload)]
    end in
  JObj (jm_set "_webhookRetry" (JObj [("attemptNumber", JNum (NumInt attemptNumber))]) base).

Definition consumer_key (input : WebhookOutboxRetryInput) : string :=
  default (in_streamId input) (in_consumerUrl input).

Definition plan (retry : bool) (n : Z) (retryAt : option Z) (payload : jsval) (limited : option bool)
    : WebhookOutboxRetryPlan :=
  {| pl_shouldRetry := retry; pl_attemptNumber := n; pl_retryAt := retryAt; pl_payload := payload;
     pl_rateLimited := limited |}.

(** [deliver] is what the HTTP call answers, [clock] the time [recordSuccess]
    reads, [rnd] the random number of the backoff.  The attempt is [None] in the
    result when the delivery was not made. *)
Definition attemptWebhookDeliveryWithRateLimit (input : WebhookOutboxRetryInput)
    (deliver : WebhookDeliveryAttempt) (rateLimitConfig : option RateLimitConfig) (clock : Z) (rnd : Q)
    (s : S * L) : (WebhookOutboxRetryPlan * option WebhookDeliveryAttempt) * (S * L) :=
  let policy := default DEFAULT_RETRY_POLICY (in_policy input) in
  let now := in_now input in
  let n := in_attemptNumber input in
  let consumerKey := consumer_key input in
  let '(gate, s1) :=
    checkWebhookDeliveryGate consumerKey policy rateLimitConfig (Some (dimensions_of input)) now s in
  if negb (canDeliver gate)
  then ((plan true (n + 1) (gr_retryAt gate) (in_payload input) (gr_rateLimited gate), None), s1)
  else
    let attempt := deliver in
    let '(consecutiveFailures, st) :=
      if delivered attempt then
        let '(record, st) := recordSuccess consumerKey (breaker_policy policy) clock s1.1 in
        (consecutiveFailures record, st)
      else if countsTowardCircuitBreaker attempt policy then
        let '(record, st) := recordFailure consumerKey (breaker_policy policy) now s1.1 in
        (consecutiveFailures record, st)
      else (gr_consecutiveFailures gate, s1.1) in
    if negb (shouldRetry attempt n policy consecutiveFailures)
    then ((plan false (n + 1) None (in_payload input) None, Some attempt), (st, s1.2))
    else
      ((plan true (n + 1) (Some (calculateNextRetryTime n policy now None rnd))
          (augmentPayloadWithRetry (in_payload input) (n + 1)) None, Some attempt), (st, s1.2)).

(** A run of attempts, each with its own outcome, limiter configuration, clock
    and random number; the result is how many of them were delivered. *)
Record attempt_call : Type := {
  ac_input : WebhookOutboxRetryInput;
  ac_deliver : WebhookDeliveryAttempt;
  ac_config : option RateLimitConfig;
  ac_clock : Z;
  ac_rnd : Q;
}.

Fixpoint deliveries (calls : list attempt_call) (s : S * L) : nat :=
  match calls with
  | [] => 0
  | c :: calls =>
      let '((_, attempt), s') :=
        attemptWebhookDeliveryWithRateLimit (ac_input c) (ac_deliver c) (ac_config c) (ac_clock c) (ac_rnd c) s in
      (match attempt with Some _ => 1 | None => 0 end + deliveries calls s')%nat
  end.
End gate.

(** ** The gate over any store *)
Lemma deferral_future b p now : now < resolveCircuitBreakerDeferral b p now.
Proof.
  unfold resolveCircuitBreakerDeferral, HALF_OPEN_CONTENTION_DEFERRAL_MS.
  destruct (ck_resetAt b) as [r|]; [destruct (Z.ltb_spec now r); [done|]|]; case_bool_decide; lia.
Qed.

Section gate_lemmas.
Context {S L : Type} `{BreakerStore S} `{RateLimiterLaws L}.

(** The gate delivers, or defers to a time in the future. *)
Lemma gate_cases key policy config dims now (s : S * L) :
  (∀ c, config = Some c → 0 < rc_windowMs c) →
  let '(g, s') := checkWebhookDeliveryGate key policy config dims now s in
  s'.1 = (checkAndClaimAttempt key (breaker_policy policy) now s.1).2 ∧
  if canDeliver g
  then allowed (checkAndClaimAttempt key (breaker_policy policy) now s.1).1 = true ∧
       gr_consecutiveFailures g
       = ck_consecutiveFailures (checkAndClaimAttempt key (breaker_policy policy) now s.1).1
  else ∃ t, gr_retryAt g = Some t ∧ now < t.
Proof.
  intros Hw. unfold checkWebhookDeliveryGate.
  destruct (checkAndClaimAttempt key (breaker_policy policy) now s.1) as [b st]. simpl.
  destruct (allowed b) eqn:Hb; simpl.
  - destruct config as [c|]; simpl; [|done].
    set (d := default _ dims). set (rl := {| rc_limit := rc_limit c |}).
    pose proof (denied_waits d rl s.2) as Hd. destruct (checkLimit d rl s.2) as [limit l]. simpl in *.
    destruct (canAttempt limit); simpl; [done|]. split; [done|].
    eexists. split; [done|]. specialize (Hd (Hw c eq_refl) eq_refl). lia.
  - split; [done|]. eexists. split; [done|]. apply deferral_future.
Qed.
End gate_lemmas.

(** ** A half-open key starves *)

Section starvation.
Context {L : Type} `{RateLimiter L} (hash : string → string).
Notation mem := (memory_store hash).

(** The breaker is enabled in every call on the key. *)
Definition calls_on (key : string) (calls : list attempt_call) : Prop :=
  Forall (λ c, hash (consumer_key (ac_input c)) = hash key ∧
    0 < threshold (breaker_policy (default DEFAULT_RETRY_POLICY (in_policy (ac_input c))))) calls.

Lemma starved_step key c (s : Memory * L) :
  hash (consumer_key (ac_input c)) = hash key →
  0 < threshold (breaker_policy (default DEFAULT_RETRY_POLICY (in_policy (ac_input c)))) →
  key_state (hash key) s.1 = HalfOpen →
  let '((_, attempt), s') :=
    @attemptWebhookDeliveryWithRateLimit _ _ mem _ (ac_input c) (ac_deliver c) (ac_config c) (ac_clock c) (ac_rnd c) s in
  attempt = None ∧ s' = s.
Proof.
  intros Hk Hth Hst. unfold attemptWebhookDeliveryWithRateLimit, checkWebhookDeliveryGate.
  rewrite <-Hk in Hst.
  destruct (mem_check_half_open hash (consumer_key (ac_input c))
    (breaker_policy (default DEFAULT_RETRY_POLICY (in_policy (ac_input c)))) (in_now (ac_input c)) s.1 Hst)
    as (Hm & _ & Ha).
  specialize (Ha Hth). simpl.
  destruct (mem_checkAndClaimAttempt hash _ _ _ s.1) as [b st]. simpl in *. rewrite Ha. simpl.
  subst. by destruct s.
Qed.

Lemma starved key calls (s : Memory * L) :
  calls_on key calls → key_state (hash key) s.1 = HalfOpen → @deliveries _ _ mem _ calls s = 0%nat.
Proof.
  revert s. induction calls as [|c calls IH]; intros s Hc Hst; [done|].
  apply Forall_cons_iff in Hc as [[Hk Hth] Hc]. simpl.
  pose proof (starved_step key c s Hk Hth Hst) as Hs.
  destruct (attemptWebhookDeliveryWithRateLimit _ _ _ _ _ s) as [[p a] s']. destruct Hs as [-> ->].
  simpl. by apply IH.
Qed.

(** The circuit of [key] is open, its window has elapsed and no probe is reserved. *)
Definition probe_due (key : string) (now : Z) (m : Memory) : Prop :=
  ∃ rec, states m !! hash key = Some rec ∧ state rec = Open ∧ resetAt rec <= now ∧
    probe_reserved now (probes m !! hash key) = false.

Lemma probe_due_claims key policy now m :
  probe_due key now m → 0 < threshold (breaker_policy policy) →
  let '(b, m') := mem_checkAndClaimAttempt hash key (breaker_policy policy) now m in
  allowed b = true ∧ key_state (hash key) m' = HalfOpen.
Proof.
  intros (rec & Hr & Ho & Hre & Hp) Hth. unfold mem_checkAndClaimAttempt, mem_record.
  destruct (Z.leb_spec (threshold (breaker_policy policy)) 0); [lia|]. rewrite Hr. simpl. rewrite Ho.
  destruct (Z.ltb_spec now (resetAt rec)); [lia|]. rewrite Hp. split; [done|].
  unfold key_state; simpl. by rewrite lookup_insert_eq.
Qed.
End starvation.

(** ** Properties *)

(** no delivery is lost at the gate, and none is made without leave: an
    attempt is sent exactly when the breaker and the limiter allow it; an attempt
    that is not sent is planned again at a strictly later time with its payload
    unchanged and no outcome recorded; an attempt that is sent is planned again
    exactly when its outcome is retryable, attempts are left and the breaker has
    not reached its threshold. *)
Theorem gate_loses_nothing {S L} `{BreakerStore S} `{RateLimiterLaws L} input deliver config clock rnd (s : S * L) :
  (∀ c, config = Some c → 0 < rc_windowMs c) →
  let policy := default DEFAULT_RETRY_POLICY (in_policy input) in
  let '(breaker, st) := checkAndClaimAttempt (consumer_key input) (breaker_policy policy) (in_now input) s.1 in
  let '((pl, attempt), s') := attemptWebhookDeliveryWithRateLimit input deliver config clock rnd s in
  pl_attemptNumber pl = in_attemptNumber input + 1 ∧
  match attempt with
  | None =>
      pl_shouldRetry pl = true ∧ pl_payload pl = in_payload input ∧ s'.1 = st ∧
      ∃ t, pl_retryAt pl = Some t ∧ in_now input < t
  | Some a =>
      a = deliver ∧ allowed breaker = true ∧
      let '(failures, st') :=
        if delivered a then
          let '(r, st') := recordSuccess (consumer_key input) (breaker_policy policy) clock st in
          (consecutiveFailures r, st')
        else if countsTowardCircuitBreaker a policy then
          let '(r, st') := recordFailure (consumer_key input) (breaker_policy policy) (in_now input) st in
          (consecutiveFailures r, st')
        else (ck_consecutiveFailures breaker, st) in
      s'.1 = st' ∧ pl_shouldRetry pl = shouldRetry a (in_attemptNumber input) policy failures ∧
      (pl_shouldRetry pl = true →
       in_attemptNumber input < rp_maxAttempts policy ∧ isRetryableStatusCode (at_statusCode a) policy = true)
  end.
Proof.
  intros Hw. cbv zeta. set (policy := default DEFAULT_RETRY_POLICY (in_policy input)).
  pose proof (gate_cases (consumer_key input) policy config (Some (dimensions_of input)) (in_now input) s Hw) as Hg.
  unfold attemptWebhookDeliveryWithRateLimit. fold policy.
  destruct (checkAndClaimAttempt (consumer_key input) (breaker_policy policy) (in_now input) s.1) as [b st].
  destruct (checkWebhookDeliveryGate _ _ _ _ _ s) as [g s1]. simpl in Hg.
  destruct Hg as [Hst Hg]. destruct (canDeliver g); simpl; [|by subst].
  destruct Hg as [Hal Hf]. subst st. rewrite <-Hf. generalize (gr_consecutiveFailures g). intros cf.
  set (out := if delivered deliver then _ else _).
  destruct out as [failures st'] eqn:Hout.
  destruct (shouldRetry deliver (in_attemptNumber input) policy failures) eqn:Hsr; simpl;
    (split; [done|]); (split; [done|]); (split; [done|]); fold out; rewrite Hout; (split; [done|]); (split; [done|]); [|done].
  intros _. revert Hsr. unfold shouldRetry.
  destruct (Z.leb_spec (rp_maxAttempts policy) (in_attemptNumber input)); [done|]. intros Hsr.
  split; [done|]. destruct (truthy _) as [th|]; [destruct (th <=? failures); [done|]|];
    by destruct (at_statusCode deliver).
Qed.

(** a half-open probe that reports no outcome stops the in-memory breaker
    for good.  When the window of an open circuit has elapsed, an attempt that
    claims the probe and is then refused by the rate limiter, or is sent and
    fails with a status that is not retryable, records nothing; after it no
    attempt for that consumer is ever delivered. *)
Theorem unreported_probe_starves {L} `{RateLimiter L} hash input deliver config clock rnd m (l : L) calls :
  let policy := default DEFAULT_RETRY_POLICY (in_policy input) in
  0 < threshold (breaker_policy policy) → probe_due hash (consumer_key input) (in_now input) m →
  delivered deliver = false → countsTowardCircuitBreaker deliver policy = false ∨
    (∃ c, config = Some c ∧ ∀ d c' l', canAttempt (checkLimit d c' l').1 = false) →
  calls_on hash (consumer_key input) calls →
  let s' := (@attemptWebhookDeliveryWithRateLimit _ _ (memory_store hash) _ input deliver config clock rnd (m, l)).2 in
  @deliveries _ _ (memory_store hash) _ calls s' = 0%nat.
Proof.
  cbv zeta. intros Hth Hdue Hdel Hcase Hcalls. apply (starved hash (consumer_key input)); [done|].
  unfold attemptWebhookDeliveryWithRateLimit, checkWebhookDeliveryGate.
  set (policy := default DEFAULT_RETRY_POLICY (in_policy input)) in *. simpl.
  pose proof (probe_due_claims hash _ policy _ m Hdue Hth) as Hc.
  destruct (mem_checkAndClaimAttempt hash _ _ _ m) as [b st]. destruct Hc as [Hal Hho]. rewrite Hal. simpl.
  destruct config as [c|]; simpl.
  - set (d := dimensions_of input). set (rl := {| rc_limit := rc_limit c |}).
    destruct (checkLimit d rl l) as [limit l'] eqn:Hl.
    destruct (canAttempt limit) eqn:Hca; simpl; [|done]. rewrite Hdel.
    destruct Hcase as [Hn|(c' & _ & Hall)]; [|specialize (Hall d rl l); rewrite Hl in Hall; simpl in Hall; congruence].
    rewrite Hn. simpl. by destruct (shouldRetry _ _ _ _).
  - rewrite Hdel. destruct Hcase as [Hn|(c' & [=] & _)]. rewrite Hn. simpl. by destruct (shouldRetry _ _ _ _).
Qed.

(** A limiter that counts attempts and refuses from the third on. *)
#[local] Instance count_limiter : RateLimiter nat := {|
  checkLimit _ _ n :=
    if bool_decide (2 <= n)%nat then ({| canAttempt := false; retryAfterMs := None |}, n)
    else ({| canAttempt := true; retryAfterMs := None |}, S n) |}.
#[local] Instance count_limiter_laws : RateLimiterLaws nat.
Proof. split. intros d c l Hw. simpl. by case_bool_decide. Qed.

Definition sample_policy : EnhancedRetryPolicy := {|
  rp_maxAttempts := 5; rp_initialBackoffMs := 1000; rp_backoffMultiplier := 2;
  rp_maxBackoffMs := 60000; rp_jitterPercent := 10; rp_jitterAlgorithm := None; rp_timeoutMs := 30000;
  rp_retryableStatusCodes := [408; 425; 429; 500; 502; 503; 504];
  rp_deadLetterAfterMs := None; rp_circuitBreakerThreshold := Some 2;
  rp_circuitBreakerResetMs := Some 1000; rp_previousDelayMs := None |}.

Definition sample_input (t : Z) : WebhookOutboxRetryInput := {|
  in_consumerUrl := Some "a"; in_streamId := "s"; in_payload := JNull; in_attemptNumber := 1;
  in_policy := Some sample_policy; in_now := t |}.

Definition answer_status (c : Z) : WebhookDeliveryAttempt :=
  {| at_attemptNumber := 1; at_timestamp := 0; at_statusCode := Some c; at_error := None; at_nextRetryAt := None |}.

Definition sample_config : RateLimitConfig :=
  {| rc_limit := 10; rc_windowMs := 1000; rc_burst := 0; rc_weight := None |}.

Lemma gate_loses_nothing_witness :
  (@attemptWebhookDeliveryWithRateLimit _ _ (memory_store id) count_limiter (sample_input 5) (answer_status 503)
    (Some sample_config) 6 0%Q (mem_empty, 2%nat)).1.1.(pl_shouldRetry) = true.
Proof.
  pose proof (@gate_loses_nothing _ _ (memory_store id) count_limiter count_limiter_laws (sample_input 5)
    (answer_status 503) (Some sample_config) 6 0%Q (mem_empty, 2%nat)) as Hg.
  destruct (Hg ltac:(intros c [= <-]; reflexivity)) as (_ & Hr & _). exact Hr.
Defined.

(** Two failures opened the circuit; a probe at 1020 is answered 404. *)
Definition opened : Memory := mem_failures id "a" (breaker_policy sample_policy) [0; 10] mem_empty.

Lemma unreported_probe_starves_witness :
  @deliveries _ _ (memory_store id) count_limiter
    [{| ac_input := sample_input 999999999; ac_deliver := answer_status 200; ac_config := None; ac_clock := 0; ac_rnd := 0%Q |}]
    (@attemptWebhookDeliveryWithRateLimit _ _ (memory_store id) count_limiter (sample_input 1020) (answer_status 404)
       None 1020 0%Q (opened, 0%nat)).2 = 0%nat.
Proof.
  apply (unreported_probe_starves id (sample_input 1020) (answer_status 404) None 1020 0%Q opened 0%nat).
  - reflexivity.
  - eexists. split; [reflexivity|]. split; [reflexivity|]. split; [discriminate|reflexivity].
  - reflexivity.
  - left. reflexivity.
  - repeat constructor.
Defined.
