(* ===== verification/RowMapping.v ===== *)
(** * Strict row readers ([src/db/rowMapping.ts]) and the event row mapper
    ([rowToStreamEventRecord] of [src/indexer/store.ts])

    A row is what the [pg] driver returns: a column holds a JavaScript value or
    a [Date] (milliseconds since the epoch, [None] for an Invalid Date).
    [Date.parse] is a parameter. *)
From Stdlib Require Import Ascii ZArith Lia.
From stdpp Require Import base strings list.
From S2P Require Import Prelude.
Local Open Scope string_scope.
Local Open Scope list_scope.
Local Open Scope Z_scope.

(** ** Values and errors *)

Inductive pgval : Type :=
| PgVal (v : jsval)
| PgDate (ms : option Z).

Record RowMappingError : Type := {
  rm_table : string;
  rm_column : string;
  rm_reason : string;
  rm_received : string;
}.

Definition INT32_MIN : Z := -2147483648.
Definition INT32_MAX : Z := 2147483647.
Definition BIGINT_SAFE_MAX : Z := 9007199254740991.

Definition describeValue (value : pgval) : string :=
  match value with
  | PgVal JNull => "null"
  | PgVal JUndefined => "undefined"
  | PgVal (JStr s) => "string(length=" +:+ int_string (Z.of_nat (String.length s)) +:+ ")"
  | PgVal (JNum NumNaN) => "number(NaN)"
  | PgVal (JNum (NumInf _)) => "number(Infinity)"
  | PgVal (JNum _) => "number"
  | PgVal (JBigInt _) => "bigint"
  | PgVal (JBool _) => "boolean"
  | PgDate None => "Date(Invalid Date)"
  | PgDate (Some _) => "Date"
  | PgVal (JArr l) => "array(length=" +:+ int_string (Z.of_nat (length l)) +:+ ")"
  | PgVal (JObj _) => "object"
  end.

Record IntegerBounds : Type := { ib_min : option Z; ib_max : option Z }.
Definition no_bounds : IntegerBounds := {| ib_min := None; ib_max := None |}.

(** [/^[+-]?\d+$/] *)
Definition INTEGER_STRING (s : string) : bool :=
  match chars s with
  | [] => false
  | c :: r =>
      let ds := if bool_decide (c = "+"%char) || bool_decide (c = "-"%char) then r else c :: r in
      negb (bool_decide (ds = [])) && forallb is_digit ds
  end.

(** The integer such a string denotes. *)
Definition integer_value (s : string) : Z :=
  match chars s with
  | [] => 0
  | c :: r =>
      if bool_decide (c = "-"%char) then - digits_val r
      else if bool_decide (c = "+"%char) then digits_val r else digits_val (c :: r)
  end.

Section reader.
Context (Date_parse : string → option Z) (table : string) (row : list (string * pgval)).

(** [row[column]]: [undefined] when absent. *)
Definition cell (column : string) : pgval := default (PgVal JUndefined) (jm_get column row).

Definition fail {A} (column reason : string) (value : pgval) : result RowMappingError A :=
  Err {| rm_table := table; rm_column := column; rm_reason := reason; rm_received := describeValue value |}.

Definition isNullish (value : pgval) : bool :=
  match value with PgVal JNull | PgVal JUndefined => true | _ => false end.

Definition readString (column : string) (value : pgval) (allowEmpty : bool) : result RowMappingError string :=
  match value with
  | PgVal (JStr s) =>
      if negb allowEmpty && str_empty s then fail column "expected a non-empty string" value else Ok s
  | _ => fail column "expected a string" value
  end.

Definition readInt (column : string) (value : pgval) (bounds : IntegerBounds) : result RowMappingError Z :=
  let min := default INT32_MIN (ib_min bounds) in
  let max := default INT32_MAX (ib_max bounds) in
  let in_bounds parsed :=
    if (parsed <? min) || (max <? parsed)
    then fail column ("expected an integer within [" +:+ int_string min +:+ ", " +:+ int_string max +:+ "]") value
    else Ok parsed in
  match value with
  | PgVal (JNum (NumInt z)) => in_bounds z
  | PgVal (JNum _) => fail column "expected an integer" value
  | PgVal (JStr s) =>
      if negb (INTEGER_STRING s) then fail column "expected a decimal integer string" value
      else if BIGINT_SAFE_MAX <? Z.abs (integer_value s)
      then fail column "value exceeds the safe integer range" value
      else in_bounds (integer_value s)
  | _ => fail column "expected a number or a decimal integer string" value
  end.

Definition readDate (column : string) (value : pgval) : result RowMappingError Z :=
  match value with
  | PgDate (Some ms) => Ok ms
  | PgDate None => fail column "expected a valid Date" value
  | PgVal (JStr s) =>
      match Date_parse s with
      | Some ms => Ok ms
      | None => fail column "expected a parseable timestamp string" value
      end
  | _ => fail column "expected a Date or a timestamp string" value
  end.

(** The [require*] readers reject NULL and absence, the [optional*] readers
    accept NULL and reject absence. *)
Definition required {A} (column : string) (read : pgval → result RowMappingError A) : result RowMappingError A :=
  let value := cell column in
  if isNullish value then fail column "required column was NULL or absent" value else read value.

Definition optional {A} (column : string) (read : pgval → result RowMappingError A)
    : result RowMappingError (option A) :=
  let value := cell column in
  match value with
  | PgVal JNull => Ok None
  | PgVal JUndefined => fail column "expected a selected column" value
  | _ => match read value with Ok a => Ok (Some a) | Err e => Err e end
  end.

Definition requireString (column : string) : result RowMappingError string :=
  required column (λ v, readString column v false).
Definition optionalString (column : string) : result RowMappingError (option string) :=
  optional column (λ v, readString column v false).
Definition requireInt (column : string) (bounds : IntegerBounds) : result RowMappingError Z :=
  required column (λ v, readInt column v bounds).
Definition optionalInt (column : string) (bounds : IntegerBounds) : result RowMappingError (option Z) :=
  optional column (λ v, readInt column v bounds).
Definition requireDate (column : string) : result RowMappingError Z := required column (readDate column).
Definition optionalDate (column : string) : result RowMappingError (option Z) := optional column (readDate column).

Definition requireJsonObject (column : string) : result RowMappingError (list (string * jsval)) :=
  let value := cell column in
  if isNullish value then fail column "required JSON column was NULL or absent" value
  else match value with
       | PgVal (JArr _) => fail column "expected a JSON object, not an array" value
       | PgVal (JObj o) => Ok o
       | PgDate _ => fail column "expected a JSON object" value
       | _ => fail column "expected a JSON object" value
       end.

(** ** The contract event row *)

(** Timestamps are the instants [toISOString] prints. *)
Record StreamEventRow : Type := {
  se_eventId : string;
  se_ledger : Z;
  se_ledgerHash : option string;
  se_contractId : string;
  se_topic : string;
  se_txHash : string;
  se_txIndex : Z;
  se_operationIndex : Z;
  se_eventIndex : Z;
  se_payload : list (string * jsval);
  se_happenedAt : Z;
  se_ingestedAt : Z;
}.

Definition non_negative : IntegerBounds := {| ib_min := Some 0; ib_max := None |}.

Definition rowToStreamEventRecord : result RowMappingError StreamEventRow :=
  eventId ← requireString "vent_id";
  ledger ← requireInt "ledger" non_negative;
  ledgerHash ← optionalString "vent_id";
  contractId ← requireString "contract_id";
  topic ← requireString "topic";
  txHash ← requireString "tx_hash";
  txIndex ← requireInt "tx_index" non_negative;
  operationIndex ← requireInt "operation_index" non_negative;
  eventIndex ← requireInt "event_index" non_negative;
  payload ← requireJsonObject "payload";
  happenedAt ← requireDate "happened_at";
  ingestedAt ← requireDate "ingested_at";
  Ok {| se_eventId := eventId; se_ledger := ledger; se_ledgerHash := ledgerHash;
        se_contractId := contractId; se_topic := topic; se_txHash := txHash; se_txIndex := txIndex;
        se_operationIndex := operationIndex; se_eventIndex := eventIndex; se_payload := payload;
        se_happenedAt := happenedAt; se_ingestedAt := ingestedAt |}.
End reader.

(** The columns [insertMany] of the PostgreSQL store writes, which are the
    columns a [SELECT *] returns. *)
Definition CONTRACT_EVENTS_COLUMNS : list string :=
  ["event_id"; "ledger"; "ledger_hash"; "contract_id"; "topic"; "tx_hash"; "tx_index"; "operation_index";
   "event_index"; "payload"; "happened_at"; "ingested_at"].

(** ** Properties *)

(** What an integer column may hold, and the number it stands for. *)
Definition int_cell (v : pgval) (z : Z) : Prop :=
  v = PgVal (JNum (NumInt z)) ∨
  ∃ s, v = PgVal (JStr s) ∧ INTEGER_STRING s = true ∧ integer_value s = z ∧ Z.abs z <= BIGINT_SAFE_MAX.

(** the integer reader never coerces: it returns [z] exactly when the column
    holds the integer [z], as a number or as an exactly representable decimal
    string, within the bounds; every other value, NULL and a missing column are
    errors that name the table and the column, and the optional reader differs
    only in mapping NULL to null. *)
Theorem integer_reader_exact table row column bounds :
  let v := cell row column in
  let in_bounds z := default INT32_MIN (ib_min bounds) <= z <= default INT32_MAX (ib_max bounds) in
  match requireInt table row column bounds with
  | Ok z => int_cell v z ∧ in_bounds z
  | Err e => rm_table e = table ∧ rm_column e = column ∧ ∀ z, in_bounds z → ¬ int_cell v z
  end ∧
  match v with
  | PgVal JNull => optionalInt table row column bounds = Ok None
  | PgVal JUndefined => is_ok (optionalInt table row column bounds) = false
  | _ => optionalInt table row column bounds = Some <$> requireInt table row column bounds
  end.
Proof.
  cbv zeta. unfold requireInt, optionalInt, required, optional. split.
  - destruct (cell row column) as [v|d] eqn:Hv; [|split; [done|]; split; [done|]; intros z _ [?|(s & ? & _)]; done].
    destruct v as [| |b|n|z|s|l|o]; simpl;
      try (split; [done|]; split; [done|]; intros ? _ [?|(? & ? & _)]; done).
    + destruct n as [z| | |]; simpl; try (split; [done|]; split; [done|]; intros ? _ [?|(? & ? & _)]; done).
      cmp; simpl; try (split; [done|]; split; [done|]; intros z' Hz [[= ->]|(? & ? & _)]; [lia|done]).
      split; [by left|lia].
    + destruct (INTEGER_STRING s) eqn:Hs; simpl;
        [|split; [done|]; split; [done|]; intros z' Hz [?|(s' & [= <-] & ? & _)]; congruence].
      destruct (Z.ltb_spec BIGINT_SAFE_MAX (Z.abs (integer_value s)));
        [split; [done|]; split; [done|]; intros z' Hz [?|(s' & [= <-] & _ & <- & ?)]; [done|lia]|].
      cmp; simpl; try (split; [done|]; split; [done|]; intros z' Hz [?|(s' & [= <-] & _ & <- & ?)]; [done|lia]).
      split; [|lia]. right. by exists s.
  - destruct (cell row column) as [v|d]; [|done].
    destruct v as [| |b|n|z|s|l|o]; simpl; try done; by destruct (readInt _ _ _ _).
Qed.

(** no row of the event table can be mapped: the mapper reads the event id and
    the ledger hash from a column [vent_id], which the table does not have, so
    every row with the table's columns is rejected, whatever it holds. *)
Theorem contract_event_rows_rejected Date_parse table row :
  row.*1 ⊆ CONTRACT_EVENTS_COLUMNS →
  ∃ e, rowToStreamEventRecord Date_parse table row = Err e ∧ rm_column e = "vent_id" ∧
    rm_reason e = "required column was NULL or absent".
Proof.
  intros Hcols. unfold rowToStreamEventRecord, requireString, required.
  assert (cell row "vent_id" = PgVal JUndefined) as ->.
  { unfold cell. destruct (jm_get "vent_id" row) as [v|] eqn:Hv; [|done]. exfalso.
    apply jm_get_elem_of in Hv. apply (list_elem_of_fmap_2 fst) in Hv. apply Hcols in Hv. simpl in Hv.
    apply list_elem_of_In in Hv. simpl in Hv. naive_solver. }
  simpl. by eexists.
Qed.

Definition sample_row : list (string * pgval) :=
  [("event_id", PgVal (JStr "tx-0")); ("ledger", PgVal (JNum (NumInt 7))); ("ledger_hash", PgVal JNull);
   ("contract_id", PgVal (JStr "C")); ("topic", PgVal (JStr "created")); ("tx_hash", PgVal (JStr "tx"));
   ("tx_index", PgVal (JNum (NumInt 0))); ("operation_index", PgVal (JNum (NumInt 0)));
   ("event_index", PgVal (JNum (NumInt 0))); ("payload", PgVal (JObj []));
   ("happened_at", PgDate (Some 0)); ("ingested_at", PgDate (Some 0))].

Lemma contract_event_rows_rejected_witness :
  ∃ e, rowToStreamEventRecord (λ _, None) "contract_events" sample_row = Err e.
Proof.
  destruct (contract_event_rows_rejected (λ _, None) "contract_events" sample_row) as (e & He & _).
  - intros x Hx. exact Hx.
  - exists e. exact He.
Defined.
