(* ===== verification/EventStore.v ===== *)
(** * The contract event store ([src/indexer/store.ts])

    [InMemoryContractEventStore]: idempotent insertion, reorg rollback, replay
    queries with a cursor, and replay checkpoints.  The maps keep insertion
    order.  [localeCompare] and [Date.parse] are parameters; page sizes and
    offsets are natural numbers. *)
From Stdlib Require Import Ascii ZArith Lia Sorted.
From stdpp Require Import base strings countable list sorting.
From S2P Require Import Prelude.
Local Open Scope string_scope.
Local Open Scope list_scope.
Local Open Scope Z_scope.

(** ** Data *)

Record ContractEventRecord : Type := {
  eventId : string;
  ledger : Z;
  contractId : string;
  topic : string;
  txHash : string;
  txIndex : Z;
  operationIndex : Z;
  eventIndex : Z;
  payload : list (string * jsval);
  happenedAt : string;
  ledgerHash : string;
  ingestedAt : option string;
}.

Record ReorgRecord : Type := {
  forkLedger : Z;
  evictedHash : string;
  incomingHash : string;
  removedEventIds : list string;
  rolledBackAt : string;
}.

Inductive CheckpointStatus : Type := InProgress | Completed.

Record ReplayProgressCheckpoint : Type := {
  cursorId : string;
  cp_total : Z;
  lastCommittedOffset : Z;
  cp_status : CheckpointStatus;
  updatedAt : option string;
}.

Record EventStore : Type := {
  records : list (string * ContractEventRecord);
  reorgLog : list ReorgRecord;
  checkpoints : list (string * ReplayProgressCheckpoint);
}.

Definition store_empty : EventStore := {| records := []; reorgLog := []; checkpoints := [] |}.

Record StreamEventReplayFilter : Type := {
  fromLedger : option Z;
  toledger : option Z;
  f_contractId : option string;
  f_topic : option string;
  fromHappenedAt : option string;
  toHappenedAt : option string;
  f_limit : option nat;
  f_offset : option nat;
  afterEventId : option string;
}.

Record StreamEventReplayResult : Type := {
  events : list ContractEventRecord;
  total : nat;
  limit : nat;
  offset : nat;
  nextCursor : option string;
}.

Record StaleCursorError : Type := { stale_cursor : string }.

(** ** Insertion *)

Definition stamp (now : string) (e : ContractEventRecord) : ContractEventRecord :=
  {| eventId := eventId e; ledger := ledger e; contractId := contractId e; topic := topic e;
     txHash := txHash e; txIndex := txIndex e; operationIndex := operationIndex e;
     eventIndex := eventIndex e; payload := payload e; happenedAt := happenedAt e;
     ledgerHash := ledgerHash e; ingestedAt := Some now |}.

(** The staging loop: the staged records, the inserted and the duplicate ids. *)
Fixpoint stage (present staged : list (string * ContractEventRecord)) (now : string)
    (evs : list ContractEventRecord)
    : list (string * ContractEventRecord) * (list string * list string) :=
  match evs with
  | [] => (staged, ([], []))
  | e :: evs =>
      if jm_has (eventId e) present || jm_has (eventId e) staged then
        let '(st, (ins, dup)) := stage present staged now evs in (st, (ins, eventId e :: dup))
      else
        let '(st, (ins, dup)) := stage present (jm_set (eventId e) (stamp now e) staged) now evs in
        (st, (eventId e :: ins, dup))
  end.

(** Returns the inserted and the duplicate event ids. *)
Definition insertMany (evs : list ContractEventRecord) (now : string) (s : EventStore)
    : (list string * list string) * EventStore :=
  let '(staged, ids) := stage (records s) [] now evs in
  (ids, {| records := fold_left (λ m p, jm_set p.1 p.2 m) staged (records s);
           reorgLog := reorgLog s; checkpoints := checkpoints s |}).

(** ** Rollback and ledger hashes *)

(** The first record of a ledger, in insertion order. *)
Fixpoint first_of_ledger (l : Z) (m : list (string * ContractEventRecord)) : option ContractEventRecord :=
  match m with
  | [] => None
  | (_, r) :: m => if ledger r =? l then Some r else first_of_ledger l m
  end.

Definition rollbackBeforeLedger (fork : Z) (now : string) (s : EventStore) : EventStore :=
  let evicted := match first_of_ledger fork (records s) with Some r => ledgerHash r | None => EmptyString end in
  let removed := (filter (λ p, fork <= ledger p.2) (records s)).*1 in
  let records' := filter (λ p, ¬ (fork <= ledger p.2)) (records s) in
  {| records := records';
     reorgLog :=
       if negb (bool_decide (removed = [])) || negb (str_empty evicted)
       then reorgLog s ++ [{| forkLedger := fork; evictedHash := evicted; incomingHash := EmptyString;
                              removedEventIds := removed; rolledBackAt := now |}]
       else reorgLog s;
     checkpoints := checkpoints s |}.

Definition getLedgerHash (l : Z) (s : EventStore) : option string := ledgerHash <$> first_of_ledger l (records s).

(** ** Sorting *)

(** [results.sort(cmp)]: the sort is stable. *)
Fixpoint sort_insert {A} (cmp : A → A → Z) (x : A) (l : list A) : list A :=
  match l with
  | [] => [x]
  | y :: l' => if cmp x y <=? 0 then x :: l else y :: sort_insert cmp x l'
  end.
Definition js_sort {A} (cmp : A → A → Z) (l : list A) : list A := foldr (sort_insert cmp) [] l.

(** ** Replay queries *)

Section queries.
Context (localeCompare : string → string → Z) (Date_parse : string → option Z).

(** [a.ledger - b.ledger || a.eventId.localeCompare(b.eventId)] *)
Definition event_cmp (a b : ContractEventRecord) : Z :=
  if ledger a - ledger b =? 0 then localeCompare (eventId a) (eventId b) else ledger a - ledger b.

(** [l.findIndex(r => r.eventId === id)] followed by [l.slice(idx + 1)]. *)
Fixpoint after_cursor (id : string) (l : list ContractEventRecord) : option (list ContractEventRecord) :=
  match l with
  | [] => None
  | r :: l => if bool_decide (eventId r = id) then Some l else after_cursor id l
  end.

(** A comparison of times is false when one of them is not a number. *)
Definition time_le (a b : option Z) : bool :=
  match a, b with Some x, Some y => x <=? y | _, _ => false end.

Definition when {A B} (o : option A) (p : A → B → bool) (l : list B) : list B :=
  match o with Some a => List.filter (p a) l | None => l end.

Definition apply_filters (f : StreamEventReplayFilter) (results : list ContractEventRecord)
    : list ContractEventRecord :=
  let results := when (fromLedger f) (λ v r, v <=? ledger r) results in
  let results := when (toledger f) (λ v r, ledger r <=? v) results in
  let results := when (f_contractId f) (λ v r, bool_decide (contractId r = v)) results in
  let results := when (f_topic f) (λ v r, bool_decide (topic r = v)) results in
  let results := when (fromHappenedAt f) (λ v r, time_le (Date_parse v) (Date_parse (happenedAt r))) results in
  when (toHappenedAt f) (λ v r, time_le (Date_parse (happenedAt r)) (Date_parse v)) results.

Definition ensure_ingested (now : string) (r : ContractEventRecord) : ContractEventRecord :=
  match ingestedAt r with Some _ => r | None => stamp now r end.

Definition sorted_events (s : EventStore) : list ContractEventRecord := js_sort event_cmp ((records s).*2).

Definition page_limit (f : StreamEventReplayFilter) : nat := Nat.min (default 100%nat (f_limit f)) 1000.

Definition getEvents (f : StreamEventReplayFilter) (now : string) (s : EventStore)
    : result StaleCursorError StreamEventReplayResult :=
  let limit := page_limit f in
  let offset := default 0%nat (f_offset f) in
  let cursored :=
    match afterEventId f with
    | None => Ok (sorted_events s)
    | Some id =>
        match after_cursor id (sorted_events s) with
        | None => Err {| stale_cursor := id |}
        | Some l => Ok l
        end
    end in
  match cursored with
  | Err e => Err e
  | Ok results =>
      let results := apply_filters f results in
      let total := length results in
      let slice :=
        match afterEventId f with
        | Some _ => take limit results
        | None => take limit (drop offset results)
        end in
      let evs := ensure_ingested now <$> slice in
      Ok {| events := evs; total := total; limit := limit;
            offset := match afterEventId f with Some _ => 0%nat | None => offset end;
            nextCursor :=
              if bool_decide (length evs = limit) && bool_decide (limit < total)%nat
              then eventId <$> last evs else None |}
  end.

(** ** Other reads *)

Definition all (s : EventStore) : list ContractEventRecord :=
  js_sort (λ a b, localeCompare (eventId a) (eventId b)) ((records s).*2).

Definition byLedger (l : Z) (s : EventStore) : list ContractEventRecord :=
  js_sort (λ a b, eventIndex a - eventIndex b) (List.filter (λ r, ledger r =? l) ((records s).*2)).
End queries.

Definition ledgerCount (s : EventStore) : nat := length (remove_dups (ledger <$> (records s).*2)).

Definition tipLedger (s : EventStore) : option Z :=
  fold_left (λ tip r, match tip with None => Some (ledger r) | Some t => if t <? ledger r then Some (ledger r) else tip end)
    ((records s).*2) None.

(** ** Checkpoints *)

Definition saveCheckpoint (c : ReplayProgressCheckpoint) (now : string) (s : EventStore) : result string EventStore :=
  let existing := jm_get (cursorId c) (checkpoints s) in
  let regress :=
    match existing with Some e => lastCommittedOffset c <? lastCommittedOffset e | None => false end in
  if regress then
    Err ("Monotonicity violation: Cannot regress checkpoint offset from "
         +:+ int_string (match existing with Some e => lastCommittedOffset e | None => 0 end)
         +:+ " to " +:+ int_string (lastCommittedOffset c))
  else
    let maxOffset :=
      match existing with
      | Some e => Z.max (lastCommittedOffset e) (lastCommittedOffset c)
      | None => lastCommittedOffset c
      end in
    Ok {| records := records s; reorgLog := reorgLog s;
          checkpoints := jm_set (cursorId c)
            {| cursorId := cursorId c; cp_total := cp_total c; lastCommittedOffset := maxOffset;
               cp_status := cp_status c; updatedAt := Some now |} (checkpoints s) |}.

Definition getCheckpoint (id : string) (s : EventStore) : option ReplayProgressCheckpoint :=
  jm_get id (checkpoints s).

(** ** The store's invariant *)

(** Keys are distinct and every record is stored under its event id. *)
Record store_wf (s : EventStore) : Prop := {
  wf_keys : jm_wf (records s);
  wf_ids : ∀ k r, (k, r) ∈ records s → eventId r = k;
}.

(** All records of a ledger carry the same ledger hash. *)
Definition one_hash_per_ledger (s : EventStore) : Prop :=
  ∀ k r k' r', (k, r) ∈ records s → (k', r') ∈ records s → ledger r = ledger r' → ledgerHash r = ledgerHash r'.

(** ** Insertion lemmas *)
Lemma jm_has_app k (m1 m2 : list (string * ContractEventRecord)) :
  jm_has k (m1 ++ m2) = jm_has k m1 || jm_has k m2.
Proof. unfold jm_has. rewrite jm_get_app. by destruct (jm_get k m1). Qed.

Lemma jm_has_false k (m : list (string * ContractEventRecord)) : jm_has k m = false → jm_get k m = None.
Proof. unfold jm_has. by destruct (jm_get k m). Qed.

Lemma jm_has_elem k r (m : list (string * ContractEventRecord)) : (k, r) ∈ m → jm_has k m = true.
Proof.
  intros Hk. apply jm_has_spec, not_eq_None_Some. rewrite jm_get_None. intros Hn. apply Hn.
  by apply (list_elem_of_fmap_2 fst) in Hk.
Qed.

(** Staged keys are new, so writing them back appends them. *)
Lemma fold_set_fresh (staged m : list (string * ContractEventRecord)) :
  jm_wf (m ++ staged) → fold_left (λ m p, jm_set p.1 p.2 m) staged m = m ++ staged.
Proof.
  revert m. induction staged as [|[k r] staged IH]; intros m Hwf; [by rewrite app_nil_r|]. simpl.
  rewrite jm_set_fresh.
  - rewrite IH; rewrite <-app_assoc; done.
  - apply jm_get_None. unfold jm_wf in Hwf. rewrite fmap_app in Hwf.
    apply list.NoDup_app in Hwf as (_ & Hd & _). intros Hk. apply (Hd k Hk). left.
Qed.

(** The staging loop keeps the keys distinct and splits the ids. *)
Lemma stage_spec present staged now evs st ins dup :
  stage present staged now evs = (st, (ins, dup)) → jm_wf (present ++ staged) →
  ∃ added, st = staged ++ added ∧ jm_wf (present ++ st) ∧ added.*1 = ins ∧
    (∀ k r, (k, r) ∈ added → ∃ e, e ∈ evs ∧ eventId e = k ∧ r = stamp now e) ∧
    (∀ e, e ∈ evs → jm_has (eventId e) (present ++ st) = true) ∧
    (∀ k, k ∈ dup → jm_has k (present ++ st) = true).
Proof.
  revert staged st ins dup. induction evs as [|e evs IH]; intros staged st ins dup Hst Hwf; simpl in Hst.
  - simplify_eq. exists []. rewrite app_nil_r. splits; try done.
    + by intros k r ?%not_elem_of_nil.
    + by intros e ?%not_elem_of_nil.
    + by intros k ?%not_elem_of_nil.
  - destruct (jm_has (eventId e) present || jm_has (eventId e) staged) eqn:Hh.
    + destruct (stage present staged now evs) as [st1 [ins1 dup1]] eqn:Hs. simplify_eq.
      destruct (IH staged st ins dup1 Hs Hwf) as (added & -> & Hwf' & Hins & Ha & He & Hd).
      assert (jm_has (eventId e) (present ++ staged ++ added) = true) as Hpres.
      { rewrite !jm_has_app, orb_assoc, Hh. done. }
      exists added. splits; try done.
      * intros k r Hk. destruct (Ha k r Hk) as (e' & ? & ?). exists e'. split; [by right|done].
      * intros e' [->|He']%elem_of_cons; auto.
      * intros k [->|Hk]%elem_of_cons; auto.
    + destruct (stage present _ now evs) as [st1 [ins1 dup1]] eqn:Hs. simplify_eq.
      apply orb_false_iff in Hh as [Hp Hst]. apply jm_has_false in Hp, Hst.
      rewrite jm_set_fresh in Hs by done.
      assert (jm_wf (present ++ staged ++ [(eventId e, stamp now e)])) as Hwf1.
      { rewrite app_assoc, <-jm_set_fresh; [by apply jm_wf_set|]. by rewrite jm_get_app, Hp. }
      destruct (IH _ st ins1 dup Hs Hwf1) as (added & -> & Hwf' & Hins & Ha & He & Hd).
      exists ((eventId e, stamp now e) :: added). rewrite <-app_assoc in *. splits; try done.
      * rewrite <-Hins. done.
      * intros k r [[= -> ->]|Hk]%elem_of_cons; [exists e; split; [by left|done]|].
        destruct (Ha k r Hk) as (e' & ? & ?). exists e'. split; [by right|done].
      * intros e' [->|He']%elem_of_cons; [|auto]. apply (jm_has_elem _ (stamp now e)).
        rewrite !elem_of_app, ?elem_of_cons. auto.
Qed.

Lemma insertMany_spec evs now s ins dup s' :
  insertMany evs now s = ((ins, dup), s') → jm_wf (records s) →
  ∃ added, records s' = records s ++ added ∧ jm_wf (records s') ∧ added.*1 = ins ∧
    (∀ k r, (k, r) ∈ added → ∃ e, e ∈ evs ∧ eventId e = k ∧ r = stamp now e) ∧
    (∀ e, e ∈ evs → jm_has (eventId e) (records s') = true) ∧
    (∀ k, k ∈ dup → jm_has k (records s') = true) ∧
    reorgLog s' = reorgLog s ∧ checkpoints s' = checkpoints s.
Proof.
  unfold insertMany. destruct (stage (records s) [] now evs) as [st [ins1 dup1]] eqn:Hs. intros [= <- <- <-] Hwf.
  destruct (stage_spec _ _ _ _ _ _ _ Hs) as (added & -> & Hwf' & Hins & Ha & He & Hd); [by rewrite app_nil_r|].
  simpl in *. rewrite fold_set_fresh by done. exists added. splits; done.
Qed.

Lemma stage_all_present present now evs :
  (∀ e, e ∈ evs → jm_has (eventId e) present = true) →
  stage present [] now evs = ([], ([], eventId <$> evs)).
Proof.
  induction evs as [|e evs IH]; intros He; [done|]. simpl.
  rewrite He by (by left). simpl. rewrite IH; [done|]. intros. apply He. by right.
Qed.

Lemma insertMany_wf evs now s ids s' : insertMany evs now s = (ids, s') → store_wf s → store_wf s'.
Proof.
  destruct ids as [ins dup]. intros Hi [Hk Hid].
  destruct (insertMany_spec _ _ _ _ _ _ Hi Hk) as (added & Hr & Hwf & _ & Ha & _). split; [done|].
  intros k r. rewrite Hr, elem_of_app. intros [Hkr|Hkr]; [auto|].
  destruct (Ha k r Hkr) as (e & _ & <- & ->). done.
Qed.

Lemma rollback_wf f now s : store_wf s → store_wf (rollbackBeforeLedger f now s).
Proof.
  intros [Hk Hid]. split; simpl; [by apply jm_wf_filter|].
  intros k r [_ Hr]%list_elem_of_filter. auto.
Qed.

(** ** Rollback lemmas *)
Lemma first_of_ledger_spec l m :
  match first_of_ledger l m with
  | Some r => ledger r = l ∧ ∃ k, (k, r) ∈ m
  | None => ∀ k r, (k, r) ∈ m → ledger r ≠ l
  end.
Proof.
  induction m as [|[k r] m IH]; simpl; [by intros k r ?%not_elem_of_nil|].
  destruct (Z.eqb_spec (ledger r) l) as [Hl|Hl].
  - split; [done|]. exists k. by left.
  - destruct (first_of_ledger l m) as [r'|].
    + destruct IH as (? & k' & ?). split; [done|]. exists k'. by right.
    + intros k' r' [[= -> ->]|Hkr]%elem_of_cons; eauto.
Qed.

(** ** Sorting lemmas *)
Lemma sort_insert_perm {A} (cmp : A → A → Z) x l : sort_insert cmp x l ≡ₚ x :: l.
Proof.
  induction l as [|y l IH]; simpl; [done|]. case_match; [done|]. rewrite IH. constructor.
Qed.

Lemma js_sort_perm {A} (cmp : A → A → Z) l : js_sort cmp l ≡ₚ l.
Proof. induction l as [|x l IH]; [done|]. simpl. rewrite sort_insert_perm. by rewrite IH. Qed.

(** A comparison function is consistent when it orders its arguments. *)
Record cmp_consistent {A} (cmp : A → A → Z) : Prop := {
  cmp_total a b : cmp a b <= 0 ∨ cmp b a <= 0;
  cmp_trans a b c : cmp a b <= 0 → cmp b c <= 0 → cmp a c <= 0;
}.

Definition sorted_by {A} (cmp : A → A → Z) (l : list A) : Prop := StronglySorted (λ a b, cmp a b <= 0) l.

Lemma Forall_perm {A} (P : A → Prop) l l' : l ≡ₚ l' → Forall P l' → Forall P l.
Proof. intros Hp. by rewrite Hp. Qed.

Lemma js_sort_sorted {A} (cmp : A → A → Z) l : cmp_consistent cmp → sorted_by cmp (js_sort cmp l).
Proof.
  intros [Ht Htr]. induction l as [|x l IH]; simpl; [constructor|]. revert IH.
  generalize (js_sort cmp l). clear l. intros l Hl. induction Hl as [|y l Hl IH Hy]; simpl; [by repeat constructor|].
  destruct (Z.leb_spec (cmp x y) 0) as [Hxy|Hxy].
  - constructor; [by constructor|]. constructor; [done|]. eapply Forall_impl; [exact Hy|]. intros z Hz. by eapply Htr.
  - constructor; [done|]. eapply Forall_perm; [apply sort_insert_perm|]. constructor; [|done].
    destruct (Ht x y); [lia|done].
Qed.

Lemma sorted_by_filter {A} (cmp : A → A → Z) p l : sorted_by cmp l → sorted_by cmp (List.filter p l).
Proof.
  induction 1 as [|x l Hl IH Hx]; simpl; [constructor|]. destruct (p x); [|done].
  constructor; [done|]. apply Forall_forall. intros y Hy%list_elem_of_In. apply filter_In in Hy as [Hy _].
  rewrite Forall_forall in Hx. by apply Hx, list_elem_of_In.
Qed.

Lemma sorted_by_app {A} (cmp : A → A → Z) l1 l2 : sorted_by cmp (l1 ++ l2) → sorted_by cmp l1 ∧ sorted_by cmp l2.
Proof.
  induction l1 as [|x l1 IH]; simpl; intros Hs; [split; [constructor|done]|].
  inversion Hs as [|? ? Hl Hx]; subst. destruct (IH Hl). split; [|done]. constructor; [done|].
  by apply Forall_app in Hx as [? _].
Qed.

Lemma sorted_by_take {A} (cmp : A → A → Z) n l : sorted_by cmp l → sorted_by cmp (take n l).
Proof. intros Hs. rewrite <-(take_drop n l) in Hs. by apply sorted_by_app in Hs as [? _]. Qed.
Lemma sorted_by_drop {A} (cmp : A → A → Z) n l : sorted_by cmp l → sorted_by cmp (drop n l).
Proof. intros Hs. rewrite <-(take_drop n l) in Hs. by apply sorted_by_app in Hs as [_ ?]. Qed.

Lemma after_cursor_split id l r :
  after_cursor id l = Some r ↔
  ∃ l1 e, l = l1 ++ e :: r ∧ eventId e = id ∧ Forall (λ x, eventId x ≠ id) l1.
Proof.
  induction l as [|x l IH]; simpl.
  - split; [done|]. intros (l1 & e & Hl & _). by destruct l1.
  - case_bool_decide as Hx.
    + split.
      * intros [= ->]. exists [], x. by repeat constructor.
      * intros (l1 & e & Hl & He & Hf). destruct l1 as [|y l1]; simplify_eq/=; [done|].
        apply Forall_cons_iff in Hf as [? _]. done.
    + rewrite IH. split.
      * intros (l1 & e & -> & He & Hf). exists (x :: l1), e. by repeat constructor.
      * intros (l1 & e & Hl & He & Hf). destruct l1 as [|y l1]; simplify_eq/=.
        apply Forall_cons_iff in Hf as [_ Hf]. by exists l1, e.
Qed.

(** The filters select with one predicate. *)
Definition selected (Date_parse : string → option Z) (f : StreamEventReplayFilter) (r : ContractEventRecord) : bool :=
  let ok {A} (o : option A) (p : A → bool) := match o with Some a => p a | None => true end in
  ok (fromLedger f) (λ v, v <=? ledger r) && ok (toledger f) (λ v, ledger r <=? v)
  && ok (f_contractId f) (λ v, bool_decide (contractId r = v)) && ok (f_topic f) (λ v, bool_decide (topic r = v))
  && ok (fromHappenedAt f) (λ v, time_le (Date_parse v) (Date_parse (happenedAt r)))
  && ok (toHappenedAt f) (λ v, time_le (Date_parse (happenedAt r)) (Date_parse v)).

Lemma filter_filter_and {A} (p q : A → bool) l : List.filter p (List.filter q l) = List.filter (λ x, q x && p x) l.
Proof. induction l as [|x l IH]; simpl; [done|]. destruct (q x); simpl; by rewrite IH. Qed.

Lemma when_filter {A B} (o : option A) (p : A → B → bool) l :
  when o p l = List.filter (λ x, match o with Some a => p a x | None => true end) l.
Proof. destruct o; simpl; [done|]. induction l as [|x l IH]; simpl; congruence. Qed.

Lemma apply_filters_selected dp f l : apply_filters dp f l = List.filter (selected dp f) l.
Proof.
  unfold apply_filters. rewrite !when_filter, !filter_filter_and. apply filter_ext. intros r. unfold selected.
  by rewrite !andb_assoc.
Qed.

Lemma event_cmp_consistent lc : cmp_consistent lc → cmp_consistent (event_cmp lc).
Proof.
  intros [Ht Htr]. split; unfold event_cmp.
  - intros a b. destruct (Z.eqb_spec (ledger a - ledger b) 0), (Z.eqb_spec (ledger b - ledger a) 0); try lia. apply Ht.
  - intros a b c. destruct (Z.eqb_spec (ledger a - ledger b) 0), (Z.eqb_spec (ledger b - ledger c) 0),
      (Z.eqb_spec (ledger a - ledger c) 0); intros; try lia. by eapply Htr.
Qed.

Lemma ensure_ingested_cmp lc now a b :
  event_cmp lc (ensure_ingested now a) (ensure_ingested now b) = event_cmp lc a b.
Proof. unfold ensure_ingested. by destruct (ingestedAt a), (ingestedAt b). Qed.

Lemma sorted_by_ensure lc now l :
  sorted_by (event_cmp lc) l → sorted_by (event_cmp lc) (ensure_ingested now <$> l).
Proof.
  induction 1 as [|x l Hl IH Hx]; simpl; [constructor|]. constructor; [done|].
  apply Forall_fmap. eapply Forall_impl; [exact Hx|]. intros y Hy. simpl. by rewrite ensure_ingested_cmp.
Qed.

(** ** Properties *)

(** insertion is idempotent: inserting keeps every stored row as it is and
    adds exactly the events whose ids are reported as inserted, once each and as
    given but for the ingest time; inserting any of the same events again, at any
    later time, changes nothing and reports them all as duplicates. *)
Theorem insert_idempotent evs now evs' now' s :
  store_wf s → evs' ⊆ evs →
  let '((ins, dup), s') := insertMany evs now s in
  store_wf s' ∧
  (∃ added, records s' = records s ++ added ∧ added.*1 = ins ∧
     (∀ k r, (k, r) ∈ added → ∃ e, e ∈ evs ∧ eventId e = k ∧ r = stamp now e)) ∧
  (∀ e, e ∈ evs → is_Some (jm_get (eventId e) (records s'))) ∧
  insertMany evs' now' s' = (([], eventId <$> evs'), s').
Proof.
  intros Hwf Hsub. destruct (insertMany evs now s) as [[ins dup] s'] eqn:Hi.
  destruct (insertMany_spec _ _ _ _ _ _ Hi (wf_keys _ Hwf)) as (added & Hr & Hwf' & Hins & Ha & He & _).
  splits.
  - by eapply insertMany_wf.
  - by exists added.
  - intros e Hev. apply jm_has_spec. auto.
  - unfold insertMany. rewrite stage_all_present by auto. simpl. by destruct s'.
Qed.

Definition sample_event (id : string) (l : Z) : ContractEventRecord :=
  {| eventId := id; ledger := l; contractId := "C"; topic := "created"; txHash := "tx"; txIndex := 0;
     operationIndex := 0; eventIndex := 0; payload := []; happenedAt := "t"; ledgerHash := "h"; ingestedAt := None |}.

Lemma store_empty_wf : store_wf store_empty.
Proof. split; [constructor|]. intros k r Hk. by apply not_elem_of_nil in Hk. Qed.

Lemma insert_idempotent_witness :
  let s' := (insertMany [sample_event "b" 2; sample_event "a" 1] "now" store_empty).2 in
  insertMany [sample_event "a" 1] "later" s' = (([], ["a"]), s').
Proof.
  pose proof (insert_idempotent [sample_event "b" 2; sample_event "a" 1] "now" [sample_event "a" 1] "later"
    store_empty store_empty_wf) as Hi.
  destruct Hi as (_ & _ & _ & Hi); [intros x Hx; right; exact Hx|]. exact Hi.
Defined.

(** a reorg rollback removes exactly the events at or above the fork ledger:
    the others stay as they are and in order, the removed ids are the ones the
    reorg log records, no ledger at or above the fork has a hash afterwards, and
    the hash of every ledger below it is unchanged. *)
Theorem rollback_exact fork now s :
  store_wf s →
  let s' := rollbackBeforeLedger fork now s in
  store_wf s' ∧
  (∀ k, jm_get k (records s') =
     match jm_get k (records s) with Some r => if ledger r <? fork then Some r else None | None => None end) ∧
  (∀ l, fork <= l → getLedgerHash l s' = None) ∧
  (∀ l, l < fork → getLedgerHash l s' = getLedgerHash l s) ∧
  (∀ k r, jm_get k (records s) = Some r → fork <= ledger r →
     ∃ log, reorgLog s' = reorgLog s ++ [log] ∧ forkLedger log = fork ∧ k ∈ removedEventIds log ∧
       jm_has k (records s') = false) ∧
  checkpoints s' = checkpoints s.
Proof.
  intros Hwf. cbv zeta.
  assert (∀ k, jm_get k (records (rollbackBeforeLedger fork now s)) =
     match jm_get k (records s) with Some r => if ledger r <? fork then Some r else None | None => None end) as Hget.
  { intros k. simpl. rewrite jm_get_filter by apply Hwf. destruct (jm_get k (records s)) as [r|]; [|done].
    case_decide; simpl in *; cmp; done || lia. }
  splits; [by apply rollback_wf|done| | | |done].
  - intros l Hl. unfold getLedgerHash. simpl.
    pose proof (first_of_ledger_spec l (filter (λ p, ¬ (fork <= ledger p.2)) (records s))) as Hf.
    destruct (first_of_ledger _ _) as [r|]; [|done]. destruct Hf as [<- (k & [Hn _]%list_elem_of_filter)].
    simpl in Hn. lia.
  - intros l Hl. unfold getLedgerHash. simpl. f_equal. clear Hget Hwf.
    induction (records s) as [|[k r] m IH]; simpl; [done|]. rewrite filter_cons. simpl.
    case_decide; simpl; rewrite IH; [done|]. destruct (Z.eqb_spec (ledger r) l); [lia|done].
  - intros k r Hk Hr. simpl. apply jm_get_elem_of in Hk as Hin.
    assert (k ∈ (filter (λ p, fork <= ledger p.2) (records s)).*1) as Hrem.
    { apply (list_elem_of_fmap_2 fst (filter _ _) (k, r)). by apply list_elem_of_filter. }
    rewrite bool_decide_eq_false_2 by (intros Hn; rewrite Hn in Hrem; by apply not_elem_of_nil in Hrem).
    eexists. split; [done|]. splits; [done|done|].
    unfold jm_has. specialize (Hget k). simpl in Hget. rewrite Hget, Hk.
    by destruct (Z.ltb_spec (ledger r) fork); [lia|].
Qed.

Lemma rollback_exact_witness :
  jm_get "b" (records (rollbackBeforeLedger 2 "now"
    (insertMany [sample_event "b" 2; sample_event "a" 1] "now" store_empty).2)) = None.
Proof.
  destruct (rollback_exact 2 "now" (insertMany [sample_event "b" 2; sample_event "a" 1] "now" store_empty).2)
    as (_ & Hg & _).
  - eapply (insertMany_wf _ _ _ _ _ (surjective_pairing _)). apply store_empty_wf.
  - rewrite Hg. reflexivity.
Defined.

(** The stored events in replay order. *)
Lemma sorted_events_spec lc s :
  cmp_consistent lc → sorted_events lc s ≡ₚ (records s).*2 ∧ sorted_by (event_cmp lc) (sorted_events lc s).
Proof. intros Hlc. split; [apply js_sort_perm|]. by apply js_sort_sorted, event_cmp_consistent. Qed.

(** The cursor is found exactly when its event is stored. *)
Lemma after_cursor_stored lc s id :
  store_wf s → after_cursor id (sorted_events lc s) = None ↔ jm_get id (records s) = None.
Proof.
  intros Hwf. rewrite jm_get_None. split.
  - intros Hac ((k, r) & -> & Hin)%list_elem_of_fmap. simpl in *.
    assert (r ∈ sorted_events lc s) as (l1 & l2 & Hl)%list_elem_of_split.
    { unfold sorted_events. rewrite js_sort_perm. by apply (list_elem_of_fmap_2 snd) in Hin. }
    rewrite Hl in Hac. clear -Hac Hin Hwf. induction l1 as [|x l1 IH]; simpl in Hac.
    + rewrite bool_decide_eq_true_2 in Hac; [done|]. by apply (wf_ids _ Hwf).
    + case_bool_decide; [done|]. auto.
  - intros Hn. destruct (after_cursor id (sorted_events lc s)) as [l|] eqn:Hac; [|done]. exfalso. apply Hn.
    apply after_cursor_split in Hac as (l1 & e & Hl & <- & _).
    assert (e ∈ (records s).*2) as ((k, r) & -> & Hin)%list_elem_of_fmap.
    { rewrite <-(js_sort_perm (event_cmp lc)). fold (sorted_events lc s). rewrite Hl.
      apply elem_of_app. right. left. }
    simpl. rewrite (wf_ids _ Hwf k r Hin). by apply (list_elem_of_fmap_2 fst) in Hin.
Qed.

(** C22: a replay query answers with the selected events in ledger order: without a
    cursor the result is a window of the stored events that satisfy every given
    filter; with a cursor it continues strictly after the cursor's event and
    fails exactly when that event is not stored; the result is sorted, at most a
    page long, and names its last event as the next cursor exactly when a full
    page was returned and more than a page matched. *)
Theorem get_events_correct lc dp f now s :
  cmp_consistent lc → store_wf s →
  match getEvents lc dp f now s with
  | Err e => ∃ id, afterEventId f = Some id ∧ stale_cursor e = id ∧ jm_get id (records s) = None
  | Ok page =>
      (length (events page) <= page_limit f)%nat ∧ sorted_by (event_cmp lc) (events page) ∧
      (nextCursor page = if bool_decide (length (events page) = page_limit f) && bool_decide (page_limit f < total page)%nat
                         then eventId <$> last (events page) else None) ∧
      match afterEventId f with
      | None => ∃ sorted, sorted ≡ₚ (records s).*2 ∧ sorted_by (event_cmp lc) sorted ∧
          events page = ensure_ingested now <$>
            take (page_limit f) (drop (default 0%nat (f_offset f)) (List.filter (selected dp f) sorted))
      | Some id => is_Some (jm_get id (records s)) ∧
          ∃ before at_ after, before ++ at_ :: after ≡ₚ (records s).*2 ∧ eventId at_ = id ∧
            sorted_by (event_cmp lc) (before ++ at_ :: after) ∧
            events page = ensure_ingested now <$> take (page_limit f) (List.filter (selected dp f) after)
      end
  end.
Proof.
  intros Hlc Hwf. unfold getEvents. destruct (sorted_events_spec lc s Hlc) as [Hperm Hsort].
  destruct (afterEventId f) as [id|].
  - pose proof (after_cursor_stored lc s id Hwf) as Hst.
    destruct (after_cursor id (sorted_events lc s)) as [l|] eqn:Hac.
    + assert (is_Some (jm_get id (records s))) as Hsome by (apply not_eq_None_Some; by intros ?%Hst).
      apply after_cursor_split in Hac as (l1 & e & Hl & He & _). rewrite apply_filters_selected.
      rewrite Hl in *. apply sorted_by_app in Hsort as Hs. destruct Hs as [_ Hs].
      inversion Hs as [|? ? Hsl _]; subst. simpl. splits.
      * rewrite length_fmap, length_take. lia.
      * apply sorted_by_ensure, sorted_by_take, sorted_by_filter. done.
      * done.
      * done.
      * by exists l1, e, l.
    + exists id. splits; [done|done|]. by apply Hst.
  - rewrite apply_filters_selected. simpl. splits; [|by apply sorted_by_ensure, sorted_by_take, sorted_by_drop, sorted_by_filter|done|].
    + rewrite length_fmap, length_take. lia.
    + exists (sorted_events lc s). by splits.
Qed.

(** A comparison of strings that tells all strings apart. *)
Definition code_compare (a b : string) : Z := Zpos (encode a) - Zpos (encode b).
Lemma code_compare_consistent : cmp_consistent code_compare.
Proof. split; unfold code_compare; intros; lia. Qed.

Definition no_filter : StreamEventReplayFilter :=
  {| fromLedger := None; toledger := None; f_contractId := None; f_topic := None; fromHappenedAt := None;
     toHappenedAt := None; f_limit := None; f_offset := None; afterEventId := None |}.

Lemma get_events_correct_witness :
  match getEvents code_compare (λ _, None) no_filter "now" store_empty with
  | Ok page => (length (events page) <= page_limit no_filter)%nat
  | Err _ => False
  end.
Proof.
  pose proof (get_events_correct code_compare (λ _, None) no_filter "now" store_empty code_compare_consistent store_empty_wf)
    as Hg.
  destruct (getEvents code_compare (λ _, None) no_filter "now" store_empty) as [page|e];
    [exact (proj1 Hg)|destruct Hg as (id & Hid & _); discriminate Hid].
Defined.

(** Saves in order; a rejected save leaves the store. *)
Fixpoint save_all (cs : list (ReplayProgressCheckpoint * string)) (s : EventStore) : EventStore :=
  match cs with
  | [] => s
  | (c, now) :: cs => save_all cs (match saveCheckpoint c now s with Ok s' => s' | Err _ => s end)
  end.

Definition committed (id : string) (s : EventStore) : option Z := lastCommittedOffset <$> getCheckpoint id s.

Lemma save_step c now s id :
  let s' := match saveCheckpoint c now s with Ok s' => s' | Err _ => s end in
  committed id s' =
    if bool_decide (cursorId c = id)
    then Some (match committed id s with Some o => Z.max o (lastCommittedOffset c) | None => lastCommittedOffset c end)
    else committed id s.
Proof.
  unfold saveCheckpoint, committed, getCheckpoint. case_bool_decide as Hid.
  - subst. destruct (jm_get (cursorId c) (checkpoints s)) as [e|] eqn:He; simpl.
    + destruct (Z.ltb_spec (lastCommittedOffset c) (lastCommittedOffset e)); simpl;
        [rewrite He|rewrite jm_get_set_eq]; simpl; f_equal; lia.
    + by rewrite jm_get_set_eq.
  - match goal with |- context [if ?b then Err _ else _] => destruct b end; [done|]. simpl.
    by rewrite jm_get_set_ne.
Qed.

(** replay progress never goes back: after any sequence of checkpoint saves,
    whatever offsets they carry and whatever cursors they are for, the committed
    offset of a cursor is the largest offset saved for it (or committed before);
    a save with a smaller offset is refused and one with at least that offset is
    accepted and read back. *)
Theorem checkpoints_monotone cs s id :
  committed id (save_all cs s) =
    fold_left (λ m c, if bool_decide (cursorId c = id)
                      then Some (match m with Some o => Z.max o (lastCommittedOffset c) | None => lastCommittedOffset c end)
                      else m) (cs.*1) (committed id s) ∧
  ∀ c now, is_ok (saveCheckpoint c now s) =
    match committed (cursorId c) s with Some o => o <=? lastCommittedOffset c | None => true end.
Proof.
  split.
  - revert s. induction cs as [|[c now] cs IH]; intros s; [done|]. simpl. rewrite IH.
    f_equal. apply (save_step c now s id).
  - intros c now. unfold saveCheckpoint, committed, getCheckpoint.
    destruct (jm_get (cursorId c) (checkpoints s)) as [e|]; simpl; [|done]. by cmp; try lia.
Qed.
