(* ===== verification/Replay.v ===== *)
(** * WebSocket cursor replay ([src/ws/replay.ts])

    [replayFromCursor] pages through the in-memory event store and queues one
    frame per event.  A frame is kept structured; [JSON.stringify] prints it.
    [ready n] is whether the socket is open when [n] frames have been queued. *)
From Stdlib Require Import Ascii ZArith Lia Sorted.
From stdpp Require Import base strings countable list sorting.
From S2P Require Import Prelude EventStore.
Local Open Scope string_scope.
Local Open Scope list_scope.
Local Open Scope Z_scope.

Inductive frame : Type :=
| ReplayFrame (eventId : string) (ledger : Z) (topic : string) (payload : list (string * jsval)) (happenedAt : string)
| CompleteFrame (cursor : option string)
| ErrorFrame (code message : string).

Definition STALE_CURSOR_ERROR_CODE : string := "STALE_CURSOR".
Definition MAX_PAGE_SIZE : nat := 1000.
Definition DEFAULT_PAGE_SIZE : nat := 100.

Definition event_frame (e : ContractEventRecord) : frame :=
  ReplayFrame (eventId e) (ledger e) (topic e) (payload e) (happenedAt e).

Definition with_page (f : StreamEventReplayFilter) (cursor : option string) (pageSize : nat) : StreamEventReplayFilter :=
  {| fromLedger := fromLedger f; toledger := toledger f; f_contractId := f_contractId f; f_topic := f_topic f;
     fromHappenedAt := fromHappenedAt f; toHappenedAt := toHappenedAt f; f_limit := Some pageSize;
     f_offset := f_offset f;
     afterEventId := match cursor with Some c => Some c | None => afterEventId f end |}.

Section replay.
Context (localeCompare : string → string → Z) (Date_parse : string → option Z) (ready : nat → bool) (now : string).

(** The loop over a page: the frames queued so far, and whether the socket
    stayed open. *)
Fixpoint send_page (evs : list ContractEventRecord) (sent : list frame) : list frame * bool :=
  match evs with
  | [] => (sent, true)
  | e :: evs => if ready (length sent) then send_page evs (sent ++ [event_frame e]) else (sent, false)
  end.

Definition stale_frame : frame :=
  ErrorFrame STALE_CURSOR_ERROR_CODE "Replay cursor no longer exists; resync from fromLedger".

(** The [do]-[while] loop, one page per unit of fuel; [None] when out of fuel. *)
Fixpoint replay_pages (fuel : nat) (store : EventStore) (f : StreamEventReplayFilter) (pageSize : nat)
    (cursor : option string) (sent : list frame) : option (list frame) :=
  match fuel with
  | O => None
  | S fuel =>
      if negb (ready (length sent)) then Some sent
      else
        match getEvents localeCompare Date_parse (with_page f cursor pageSize) now store with
        | Err _ => Some (sent ++ [stale_frame])
        | Ok page =>
            let '(sent, open) := send_page (events page) sent in
            if negb open then Some sent
            else match nextCursor page with
                 | Some c => replay_pages fuel store f pageSize (Some c) sent
                 | None => if ready (length sent) then Some (sent ++ [CompleteFrame None]) else Some sent
                 end
        end
  end.

(** [eventStore] is [None] when no store is attached. *)
Definition replayFromCursor (fuel : nat) (eventStore : option EventStore) (f : StreamEventReplayFilter)
    : option (list frame) :=
  match eventStore with
  | None => Some [ErrorFrame "REPLAY_UNAVAILABLE" "Event store is not configured"]
  | Some store =>
      let pageSize := Nat.min (default DEFAULT_PAGE_SIZE (f_limit f)) MAX_PAGE_SIZE in
      replay_pages fuel store f pageSize (afterEventId f) []
  end.
End replay.

(** ** Lemmas *)
Lemma event_frame_ensure now e : event_frame (ensure_ingested now e) = event_frame e.
Proof. unfold ensure_ingested. by destruct (ingestedAt e). Qed.

Lemma eventId_ensure now e : eventId (ensure_ingested now e) = eventId e.
Proof. unfold ensure_ingested. by destruct (ingestedAt e). Qed.

Lemma frames_ensure now (l : list ContractEventRecord) : event_frame <$> (ensure_ingested now <$> l) = event_frame <$> l.
Proof. rewrite <-list_fmap_compose. apply list_fmap_ext. intros. apply event_frame_ensure. Qed.

Lemma send_page_open ready evs sent :
  (∀ n, ready n = true) → send_page ready evs sent = (sent ++ (event_frame <$> evs), true).
Proof.
  intros Hr. revert sent. induction evs as [|e evs IH]; intros sent; simpl; [by rewrite app_nil_r|].
  rewrite Hr, IH, <-app_assoc. done.
Qed.

(** A selected event sits in the list before the rest of the selection. *)
Lemma filter_split {A} (p : A → bool) l x1 e x2 :
  List.filter p l = x1 ++ e :: x2 → ∃ l1 l2, l = l1 ++ e :: l2 ∧ List.filter p l1 = x1 ∧ List.filter p l2 = x2.
Proof.
  revert x1. induction l as [|y l IH]; intros x1 Hf; simpl in Hf; [by destruct x1|].
  destruct (p y) eqn:Hy.
  - destruct x1 as [|z x1]; simplify_eq/=.
    + exists [], l. done.
    + destruct (IH x1) as (l1 & l2 & -> & Hf1 & Hf2); [done|]. exists (z :: l1), l2. simpl. by rewrite Hy, Hf1.
  - destruct (IH x1 Hf) as (l1 & l2 & -> & Hf1 & Hf2). exists (y :: l1), l2. simpl. by rewrite Hy.
Qed.

Lemma last_of_take {A} n (l : list A) :
  (0 < n <= length l)%nat → ∃ x1 e, l = x1 ++ e :: drop n l ∧ last (take n l) = Some e.
Proof.
  intros Hn. destruct (take n l) as [|y t _] eqn:Ht using rev_ind.
  - apply (f_equal length) in Ht. rewrite length_take in Ht. simpl in Ht. lia.
  - exists t, y. split; [|apply last_snoc]. rewrite <-(take_drop n l) at 1. by rewrite Ht, <-app_assoc.
Qed.

Section pages.
Context (lc : string → string → Z) (dp : string → option Z) (now : string) (s : EventStore) (f : StreamEventReplayFilter).
Hypothesis wf : store_wf s.
Notation all_events := (sorted_events lc s).

Lemma sorted_elem e : e ∈ all_events ↔ jm_get (eventId e) (records s) = Some e.
Proof using wf.
  unfold sorted_events. rewrite js_sort_perm. split.
  - intros ((k, r) & -> & Hin)%list_elem_of_fmap. simpl. rewrite (wf_ids _ wf k r Hin).
    by apply jm_elem_of_get; [apply wf|].
  - intros Hg%jm_get_elem_of. by apply (list_elem_of_fmap_2 snd) in Hg.
Qed.

Lemma sorted_ids_nodup : NoDup (eventId <$> all_events).
Proof using wf.
  assert (eventId <$> all_events ≡ₚ (records s).*1) as Hp.
  { unfold sorted_events. rewrite js_sort_perm. rewrite <-list_fmap_compose.
    assert ((eventId ∘ snd) <$> records s = (records s).*1) as ->; [|done].
    apply list_fmap_ext. intros i [k r] Hi. simpl. apply (wf_ids _ wf). by apply list_elem_of_lookup_2 in Hi. }
  rewrite Hp. apply wf.
Qed.

(** After the last event of a page come the events not yet sent. *)
Lemma after_cursor_next pre l e x1 x2 :
  all_events = pre ++ l → List.filter (selected dp f) l = x1 ++ e :: x2 →
  ∃ l2, after_cursor (eventId e) all_events = Some l2 ∧ List.filter (selected dp f) l2 = x2.
Proof using wf.
  intros Hs Hf. apply filter_split in Hf as (l1 & l2 & -> & _ & Hf2). exists l2. split; [|done].
  apply after_cursor_split. exists (pre ++ l1), e. rewrite <-app_assoc. splits; [done|done|].
  pose proof sorted_ids_nodup as Hnd. rewrite Hs, app_assoc, fmap_app in Hnd. simpl in Hnd.
  apply list.NoDup_app in Hnd as (_ & Hd & _). apply Forall_forall. intros x Hx Heq.
  apply (Hd (eventId x)); [by apply (list_elem_of_fmap_2 eventId)|]. rewrite Heq. left.
Qed.

(** From a stored cursor, with enough fuel, an open socket gets the rest of the
    selection and the completion frame. *)
Lemma replay_pages_rest ready n fuel c l2 sent :
  (∀ k, ready k = true) → (0 < n <= 1000)%nat → after_cursor c all_events = Some l2 →
  (length (List.filter (selected dp f) l2) < fuel)%nat →
  replay_pages lc dp ready now fuel s f n (Some c) sent
  = Some (sent ++ (event_frame <$> List.filter (selected dp f) l2) ++ [CompleteFrame None]).
Proof using wf.
  intros Hr Hn. revert c l2 sent. induction fuel as [|fuel IH]; intros c l2 sent Hc Hf; [lia|]. simpl.
  rewrite Hr. unfold getEvents. simpl. rewrite Hc, apply_filters_selected.
  change (selected dp (with_page f (Some c) n)) with (selected dp f).
  set (x := List.filter (selected dp f) l2) in *. simpl.
  unfold page_limit. simpl. replace (Nat.min n 1000) with n by lia.
  rewrite send_page_open, frames_ensure by done. simpl. rewrite length_fmap, length_take.
  destruct (decide (n < length x)%nat) as [Hlt|Hge].
  - rewrite !bool_decide_eq_true_2 by lia. simpl.
    destruct (last_of_take n x) as (x1 & e & Hx & Hlast); [lia|].
    rewrite fmap_last, Hlast. simpl. rewrite eventId_ensure.
    apply after_cursor_split in Hc as (l1 & e0 & Hs & _ & _).
    destruct (after_cursor_next (l1 ++ [e0]) l2 e x1 (drop n x)) as (l3 & Hc3 & Hf3);
      [by rewrite <-app_assoc|done|].
    rewrite (IH (eventId e) l3); [|done|rewrite Hf3, length_drop; lia].
    rewrite Hf3, <-app_assoc. f_equal. f_equal. by rewrite app_assoc, <-fmap_app, take_drop.
  - rewrite (bool_decide_eq_false_2 (n < length x)%nat) by lia. rewrite andb_false_r, Hr.
    rewrite take_ge by lia. by rewrite <-app_assoc.
Qed.

(** The first page of a replay without a cursor, and the rest. *)
Lemma replay_pages_start ready n fuel :
  (∀ k, ready k = true) → (0 < n <= 1000)%nat → afterEventId f = None → (length (records s) < fuel)%nat →
  replay_pages lc dp ready now fuel s f n None []
  = Some ((event_frame <$> drop (default 0%nat (f_offset f)) (List.filter (selected dp f) all_events))
          ++ [CompleteFrame None]).
Proof using wf.
  intros Hr Hn Ha Hfuel. destruct fuel as [|fuel]; [lia|]. simpl. rewrite Hr. unfold getEvents. simpl.
  rewrite Ha, apply_filters_selected. change (selected dp (with_page f None n)) with (selected dp f).
  set (F := List.filter (selected dp f) all_events). set (off := default 0%nat (f_offset f)). simpl.
  unfold page_limit. simpl. replace (Nat.min n 1000) with n by lia.
  assert (length F <= length (records s))%nat as HF.
  { unfold F. etrans; [apply filter_length_le|]. unfold sorted_events. rewrite js_sort_perm. by rewrite length_fmap. }
  rewrite send_page_open, frames_ensure by done. simpl. rewrite length_fmap, length_take, length_drop.
  destruct (decide (n <= length F - off)%nat) as [Hfull|Hpart].
  - rewrite (bool_decide_eq_true_2 (_ = n)) by lia. simpl. case_bool_decide as Hmore.
    + destruct (last_of_take n (drop off F)) as (x1 & e & Hx & Hlast); [rewrite length_drop; lia|].
      rewrite fmap_last, Hlast. simpl. rewrite eventId_ensure.
      destruct (after_cursor_next [] all_events e (take off F ++ x1) (drop n (drop off F))) as (l3 & Hc3 & Hf3); [done| |].
      { rewrite <-app_assoc, <-Hx. by rewrite take_drop. }
      rewrite (replay_pages_rest ready n fuel (eventId e) l3); [|done|done|done|rewrite Hf3, !length_drop; lia].
      rewrite Hf3. by rewrite app_assoc, <-fmap_app, take_drop.
    + rewrite Hr, take_ge by (rewrite length_drop; lia). done.
  - rewrite (bool_decide_eq_false_2 (_ = n)) by lia. simpl. rewrite Hr, take_ge by (rewrite length_drop; lia). done.
Qed.
End pages.

(** The selection a replay is asked for. *)
Definition requested (lc : string → string → Z) (dp : string → option Z) (f : StreamEventReplayFilter) (s : EventStore)
    : option (list ContractEventRecord) :=
  match afterEventId f with
  | None => Some (drop (default 0%nat (f_offset f)) (List.filter (selected dp f) (sorted_events lc s)))
  | Some id => List.filter (selected dp f) <$> after_cursor id (sorted_events lc s)
  end.

(** The selection is a sublist of the stored events in order. *)
Lemma requested_sublist lc dp f s evs :
  requested lc dp f s = Some evs → ∃ pre l, sorted_events lc s = pre ++ l ∧ List.filter (selected dp f) l = evs.
Proof.
  unfold requested. destruct (afterEventId f) as [id|].
  - destruct (after_cursor id (sorted_events lc s)) as [l|] eqn:Hc; [|done]. intros [= <-].
    apply after_cursor_split in Hc as (l1 & e & -> & _). exists (l1 ++ [e]), l. by rewrite <-app_assoc.
  - intros [= <-]. generalize (default 0%nat (f_offset f)). generalize (sorted_events lc s). intros l n.
    revert n. induction l as [|x l IH]; intros n; [exists [], []; by destruct n|].
    simpl. destruct (selected dp f x) eqn:Hx.
    + destruct n as [|n]; [exists [], (x :: l); simpl; by rewrite Hx|].
      destruct (IH n) as (pre & l' & -> & Hf). by exists (x :: pre), l'.
    + destruct (IH n) as (pre & l' & -> & Hf). by exists (x :: pre), l'.
Qed.

(** ** Properties *)

(** C17: replay delivers everything exactly once, and ends: with a positive page
    size and the socket open, for every stored set of events and every filter,
    the frames queued are one per requested event, in ledger order and without
    repetition however many pages it takes, followed by the completion frame; a
    cursor that is not stored gives the stale-cursor error alone.  Fuel for one
    page more than there are events suffices. *)
Theorem replay_complete lc dp ready now s f fuel :
  store_wf s → cmp_consistent lc → (∀ n, ready n = true) → f_limit f ≠ Some 0%nat →
  (length (records s) < fuel)%nat →
  replayFromCursor lc dp ready now fuel (Some s) f =
    match requested lc dp f s with
    | Some evs => Some ((event_frame <$> evs) ++ [CompleteFrame None])
    | None => Some [stale_frame]
    end ∧
  (∀ evs, requested lc dp f s = Some evs →
     sorted_by (event_cmp lc) evs ∧ NoDup (eventId <$> evs) ∧
     ∀ e, e ∈ evs → selected dp f e = true ∧ jm_get (eventId e) (records s) = Some e).
Proof.
  intros Hwf Hlc Hr Hlim Hfuel. split.
  - assert (0 < Nat.min (default DEFAULT_PAGE_SIZE (f_limit f)) MAX_PAGE_SIZE <= 1000)%nat as Hn.
    { unfold MAX_PAGE_SIZE, DEFAULT_PAGE_SIZE. destruct (f_limit f) as [[|n]|]; simpl; [done|lia|lia]. }
    unfold replayFromCursor, requested. destruct (afterEventId f) as [id|] eqn:Ha.
    + destruct (after_cursor id (sorted_events lc s)) as [l2|] eqn:Hc; simpl.
      * rewrite (replay_pages_rest lc dp now s f Hwf ready _ fuel id l2); [done|done|done|done|].
        apply after_cursor_split in Hc as (l1 & e & Hs & _). apply (f_equal length) in Hs.
        unfold sorted_events in Hs. rewrite js_sort_perm, length_fmap, length_app in Hs. simpl in Hs.
        pose proof (filter_length_le (selected dp f) l2). lia.
      * destruct fuel as [|fuel]; [lia|]. simpl. rewrite Hr. unfold getEvents. simpl. by rewrite Hc.
    + by rewrite (replay_pages_start lc dp now s f Hwf ready _ fuel).
  - intros evs Hreq. apply requested_sublist in Hreq as (pre & l & Hs & <-).
    destruct (sorted_events_spec lc s Hlc) as [_ Hsort]. rewrite Hs in Hsort.
    apply sorted_by_app in Hsort as [_ Hsort]. splits.
    + by apply sorted_by_filter.
    + pose proof (sorted_ids_nodup lc s Hwf) as Hnd. rewrite Hs, fmap_app in Hnd.
      apply list.NoDup_app in Hnd as (_ & _ & Hnd). clear -Hnd.
      induction l as [|x l IH]; simpl in *; [constructor|]. apply list.NoDup_cons in Hnd as [Hx Hnd].
      destruct (selected dp f x); [|auto]. simpl. apply list.NoDup_cons. split; [|auto].
      intros (y & Hy & Hin)%list_elem_of_fmap. apply Hx. rewrite Hy. apply (list_elem_of_fmap_2 eventId).
      apply list_elem_of_In in Hin. apply filter_In in Hin as [Hin _]. by apply list_elem_of_In.
    + intros e He%list_elem_of_In. apply filter_In in He as [He Hsel]. split; [done|].
      apply (sorted_elem lc s Hwf). rewrite Hs. apply elem_of_app. right. by apply list_elem_of_In.
Qed.

Definition replay_filter : StreamEventReplayFilter :=
  {| fromLedger := None; toledger := None; f_contractId := None; f_topic := None; fromHappenedAt := None;
     toHappenedAt := None; f_limit := Some 1%nat; f_offset := None; afterEventId := Some "a" |}.

Definition replay_store : EventStore :=
  (insertMany [sample_event "c" 3; sample_event "a" 1; sample_event "b" 2] "now" store_empty).2.

Lemma replay_complete_witness :
  replayFromCursor code_compare (λ _, None) (λ _, true) "now" 4 (Some replay_store) replay_filter
  = Some [event_frame (sample_event "b" 2); event_frame (sample_event "c" 3); CompleteFrame None].
Proof.
  destruct (replay_complete code_compare (λ _, None) (λ _, true) "now" replay_store replay_filter 4) as [Hr _].
  - eapply (insertMany_wf _ _ _ _ _ (surjective_pairing _)). apply store_empty_wf.
  - apply code_compare_consistent.
  - reflexivity.
  - discriminate.
  - vm_compute. lia.
  - rewrite Hr. vm_compute. reflexivity.
Defined.

(** Whatever the socket does, a page queues a prefix of its frames. *)
Lemma send_page_prefix ready evs sent :
  let '(sent', ok) := send_page ready evs sent in
  if ok then sent' = sent ++ (event_frame <$> evs)
  else ∃ n, (n < length evs)%nat ∧ sent' = sent ++ (event_frame <$> take n evs).
Proof.
  revert sent. induction evs as [|e evs IH]; intros sent; simpl; [by rewrite app_nil_r|].
  destruct (ready (length sent)); [|exists 0%nat; simpl; rewrite app_nil_r; split; [lia|done]].
  specialize (IH (sent ++ [event_frame e])). destruct (send_page _ _ _) as [sent' [|]].
  - rewrite IH, <-app_assoc. done.
  - destruct IH as (n & Hn & ->). exists (S n). split; [simpl; lia|]. rewrite <-app_assoc. done.
Qed.
