(* ===== verification/Ingestion.v ===== *)
(** * Contract event ingestion ([src/indexer/ingestion.ts])

    Validation of a batch, the per-actor rate limit, reorg detection and the
    write to the event store, for the service over the in-memory store.
    [Date.parse] and [toISOString] are parameters; a failing store write is the
    argument [write_fault].  The write semaphore is [Semaphore]; metrics, logs and
    the RPC-based catch-up telemetry are left out. *)
From Stdlib Require Import Ascii ZArith Lia Sorted.
From stdpp Require Import base strings list.
From S2P Require Import Prelude EventStore.
Local Open Scope string_scope.
Local Open Scope list_scope.
Local Open Scope Z_scope.

(** ** Errors and limits *)

(** The code is one of the strings of [ApiErrorCode]. *)
Record ApiError : Type := { ae_status : Z; ae_code : string; ae_message : string }.

Definition validationError {A} (message : string) : result ApiError A :=
  Err {| ae_status := 400; ae_code := "VALIDATION_ERROR"; ae_message := message |}.
Definition conflictError {A} (message : string) : result ApiError A :=
  Err {| ae_status := 409; ae_code := "CONFLICT"; ae_message := message |}.
Definition serviceUnavailable {A} (message : string) : result ApiError A :=
  Err {| ae_status := 503; ae_code := "SERVICE_UNAVAILABLE"; ae_message := message |}.

Definition MAX_EVENTS_PER_BATCH : nat := 100.
Definition MAX_EVENT_ID_LENGTH : nat := 128.
Definition MAX_TOPIC_LENGTH : nat := 128.
Definition MAX_CONTRACT_ID_LENGTH : nat := 128.
Definition MAX_TX_HASH_LENGTH : nat := 128.
Definition MAX_RATE_LIMIT_REQUESTS : nat := 30.
Definition RATE_LIMIT_WINDOW_MS : Z := 60000.

(** ** Validation *)

Section validation.
Context (Date_parse : string → option Z) (toISOString : Z → string).

Definition isPlainObject (value : jsval) : option (list (string * jsval)) :=
  match value with JObj o => Some o | _ => None end.

Definition assertNonEmptyString (value : jsval) (field : string) (maxLength : nat) : result ApiError string :=
  match value with
  | JStr s =>
      let trimmed := js_trim s in
      if str_empty trimmed then validationError (field +:+ " must be a non-empty string")
      else if bool_decide (maxLength < String.length trimmed)%nat
      then validationError (field +:+ " must not exceed " +:+ int_string (Z.of_nat maxLength) +:+ " characters")
      else Ok trimmed
  | _ => validationError (field +:+ " must be a non-empty string")
  end.

Definition assertNonNegativeInteger (value : jsval) (field : string) : result ApiError Z :=
  match value with
  | JNum (NumInt z) => if z <? 0 then validationError (field +:+ " must be a non-negative integer") else Ok z
  | _ => validationError (field +:+ " must be a non-negative integer")
  end.

Definition assertIsoTimestamp (value : jsval) (field : string) : result ApiError string :=
  timestamp ← assertNonEmptyString value field 256;
  match Date_parse timestamp with
  | None => validationError (field +:+ " must be a valid ISO-8601 timestamp")
  | Some parsed => Ok (toISOString parsed)
  end.

Definition validateEvent (rawEvent : jsval) : result ApiError ContractEventRecord :=
  match isPlainObject rawEvent with
  | None => validationError "each event must be an object"
  | Some o =>
      match isPlainObject (js_get o "payload") with
      | None => validationError "payload must be a JSON object"
      | Some payload =>
          eventId ← assertNonEmptyString (js_get o "eventId") "eventId" MAX_EVENT_ID_LENGTH;
          ledger ← assertNonNegativeInteger (js_get o "ledger") "ledger";
          contractId ← assertNonEmptyString (js_get o "contractId") "contractId" MAX_CONTRACT_ID_LENGTH;
          topic ← assertNonEmptyString (js_get o "topic") "topic" MAX_TOPIC_LENGTH;
          txHash ← assertNonEmptyString (js_get o "txHash") "txHash" MAX_TX_HASH_LENGTH;
          txIndex ← assertNonNegativeInteger (js_get o "txIndex") "txIndex";
          operationIndex ← assertNonNegativeInteger (js_get o "operationIndex") "operationIndex";
          eventIndex ← assertNonNegativeInteger (js_get o "eventIndex") "eventIndex";
          happenedAt ← assertIsoTimestamp (js_get o "happenedAt") "happenedAt";
          ledgerHash ← assertNonEmptyString (js_get o "ledgerHash") "ledgerHash" MAX_TX_HASH_LENGTH;
          Ok {| EventStore.eventId := eventId; EventStore.ledger := ledger; EventStore.contractId := contractId;
                EventStore.topic := topic; EventStore.txHash := txHash; EventStore.txIndex := txIndex;
                EventStore.operationIndex := operationIndex; EventStore.eventIndex := eventIndex;
                EventStore.payload := payload; EventStore.happenedAt := happenedAt;
                EventStore.ledgerHash := ledgerHash; EventStore.ingestedAt := None |}
      end
  end.

(** The loop over [seenIds]. *)
Fixpoint has_duplicate_id (seen : list string) (evs : list ContractEventRecord) : bool :=
  match evs with
  | [] => false
  | e :: evs => bool_decide (EventStore.eventId e ∈ seen) || has_duplicate_id (EventStore.eventId e :: seen) evs
  end.

Definition validateBatch (body : jsval) : result ApiError (list ContractEventRecord) :=
  match isPlainObject body with
  | None => validationError "request body must be an object"
  | Some o =>
      match js_get o "events" with
      | JArr raw =>
          if bool_decide (length raw < 1)%nat then validationError "events must contain at least one contract event"
          else if bool_decide (MAX_EVENTS_PER_BATCH < length raw)%nat
          then validationError ("events must not contain more than "
                 +:+ int_string (Z.of_nat MAX_EVENTS_PER_BATCH) +:+ " items")
          else
            match result_map_list validateEvent raw with
            | Err e => Err e
            | Ok evs =>
                if has_duplicate_id [] evs
                then conflictError "request batch contains duplicate eventId values" else Ok evs
            end
      | _ => validationError "events must be an array"
      end
  end.
End validation.

(** ** Service state *)

Inductive IndexerDependencyState : Type := Healthy | Degraded | Unavailable.
#[global] Instance dependency_eq_dec : EqDecision IndexerDependencyState.
Proof. solve_decision. Defined.

Record IndexerState : Type := {
  dependency : IndexerDependencyState;
  lastSuccessfulIngestAt : option string;
  lastFailureAt : option string;
  lastFailureReason : option string;
  acceptedBatchCount : Z;
  acceptedEventCount : Z;
  duplicateEventCount : Z;
  lastSafeLedger : Z;
  reorgDetected : bool;
  reorgHeight : option Z;
}.

Record Service : Type := {
  sv_store : EventStore;
  rateLimits : list (string * list Z);
  sv_state : IndexerState;
  rolledBackLedgers : list Z;
}.

Definition initial_state : IndexerState := {|
  dependency := Healthy; lastSuccessfulIngestAt := None; lastFailureAt := None; lastFailureReason := None;
  acceptedBatchCount := 0; acceptedEventCount := 0; duplicateEventCount := 0; lastSafeLedger := 0;
  reorgDetected := false; reorgHeight := None |}.

Definition new_service (store : EventStore) : Service :=
  {| sv_store := store; rateLimits := []; sv_state := initial_state; rolledBackLedgers := [] |}.

Definition with_state (f : IndexerState → IndexerState) (s : Service) : Service :=
  {| sv_store := sv_store s; rateLimits := rateLimits s; sv_state := f (sv_state s);
     rolledBackLedgers := rolledBackLedgers s |}.
Definition with_store (store : EventStore) (s : Service) : Service :=
  {| sv_store := store; rateLimits := rateLimits s; sv_state := sv_state s; rolledBackLedgers := rolledBackLedgers s |}.

Definition setDependencyState (state : IndexerDependencyState) (reason : option string) (now : string) : Service → Service :=
  with_state (λ st,
    let healthy := bool_decide (state = Healthy) in
    {| dependency := state; lastSuccessfulIngestAt := lastSuccessfulIngestAt st;
       lastFailureAt := if healthy then lastFailureAt st else Some now;
       lastFailureReason := if healthy then None else Some (default "dependency marked degraded" reason);
       acceptedBatchCount := acceptedBatchCount st; acceptedEventCount := acceptedEventCount st;
       duplicateEventCount := duplicateEventCount st; lastSafeLedger := lastSafeLedger st;
       reorgDetected := reorgDetected st; reorgHeight := reorgHeight st |}).

Definition resetRuntimeState (s : Service) : Service :=
  {| sv_store := sv_store s; rateLimits := []; sv_state := initial_state; rolledBackLedgers := [] |}.

Definition isLedgerRolledBack (ledger : Z) (s : Service) : bool := bool_decide (ledger ∈ rolledBackLedgers s).

(** ** Rate limit *)

(** [Ok] with the updated buckets, [Err] when the actor is over the limit; the
    stored bucket is then left as it is. *)
Definition enforceRateLimit (actor : string) (now : Z) (limits : list (string * list Z))
    : result ApiError (list (string * list Z)) :=
  let bucket := filter (λ ts, now - ts < RATE_LIMIT_WINDOW_MS) (default [] (jm_get actor limits)) in
  if bool_decide (MAX_RATE_LIMIT_REQUESTS <= length bucket)%nat
  then Err {| ae_status := 429; ae_code := "TOO_MANY_REQUESTS"; ae_message := "indexer ingest rate limit exceeded" |}
  else Ok (jm_set actor (bucket ++ [now]) limits).

(** The actor's stored timestamps after a refused request: the bucket object is
    pruned in place. *)
Definition prune_bucket (actor : string) (now : Z) (limits : list (string * list Z)) : list (string * list Z) :=
  match jm_get actor limits with
  | Some ts => jm_set actor (filter (λ ts, now - ts < RATE_LIMIT_WINDOW_MS) ts) limits
  | None => limits
  end.

(** ** Ingestion *)

Record IngestResult : Type := {
  insertedCount : nat;
  duplicateCount : nat;
  insertedEventIds : list string;
  duplicateEventIds : list string;
}.

(** [events.find((e) => e.ledger === ledger)!.ledgerHash] *)
Fixpoint incoming_hash (l : Z) (evs : list ContractEventRecord) : string :=
  match evs with
  | [] => EmptyString
  | e :: evs => if EventStore.ledger e =? l then EventStore.ledgerHash e else incoming_hash l evs
  end.

(** The ledgers of a batch, in order of first appearance. *)
Fixpoint ledgers_of (seen : list Z) (evs : list ContractEventRecord) : list Z :=
  match evs with
  | [] => []
  | e :: evs =>
      if bool_decide (EventStore.ledger e ∈ seen) then ledgers_of seen evs
      else EventStore.ledger e :: ledgers_of (EventStore.ledger e :: seen) evs
  end.

(** The reorg check of one ledger. *)
Definition check_reorg (evs : list ContractEventRecord) (now : string) (s : Service) (l : Z) : Service :=
  let incoming := incoming_hash l evs in
  match getLedgerHash l (sv_store s) with
  | Some existing =>
      if negb (str_empty existing) && negb (bool_decide (existing = incoming)) then
        {| sv_store := rollbackBeforeLedger l now (sv_store s);
           rateLimits := rateLimits s;
           sv_state :=
             let st := sv_state s in
             {| dependency := dependency st; lastSuccessfulIngestAt := lastSuccessfulIngestAt st;
                lastFailureAt := Some now; lastFailureReason := Some ("Reorg detected at ledger " +:+ int_string l);
                acceptedBatchCount := acceptedBatchCount st; acceptedEventCount := acceptedEventCount st;
                duplicateEventCount := duplicateEventCount st; lastSafeLedger := lastSafeLedger st;
                reorgDetected := true; reorgHeight := Some l |};
           rolledBackLedgers := if bool_decide (l ∈ rolledBackLedgers s) then rolledBackLedgers s
                                else rolledBackLedgers s ++ [l] |}
      else s
  | None => s
  end.

Definition max_ledger (evs : list ContractEventRecord) : Z :=
  match evs with [] => 0 | e :: evs => fold_left (λ m e, Z.max m (EventStore.ledger e)) evs (EventStore.ledger e) end.

(** The bookkeeping after a successful write. *)
Definition record_success (evs : list ContractEventRecord) (res : IngestResult) (now : string) (s : Service) : Service :=
  let st := sv_state s in
  let maxLedger := max_ledger evs in
  let recovered :=
    reorgDetected st && match reorgHeight st with Some h => h + 5 <? maxLedger | None => false end in
  {| sv_store := sv_store s; rateLimits := rateLimits s;
     sv_state :=
       {| dependency := dependency st; lastSuccessfulIngestAt := Some now; lastFailureAt := lastFailureAt st;
          lastFailureReason := lastFailureReason st; acceptedBatchCount := acceptedBatchCount st + 1;
          acceptedEventCount := acceptedEventCount st + Z.of_nat (length (insertedEventIds res));
          duplicateEventCount := duplicateEventCount st + Z.of_nat (length (duplicateEventIds res));
          lastSafeLedger := Z.max (lastSafeLedger st) (maxLedger - 1);
          reorgDetected := if recovered then false else reorgDetected st;
          reorgHeight := if recovered then None else reorgHeight st |};
     rolledBackLedgers :=
       if recovered then filter (λ l, Some l ≠ reorgHeight st) (rolledBackLedgers s) else rolledBackLedgers s |}.

Definition record_failure (message now : string) : Service → Service :=
  with_state (λ st,
    {| dependency := dependency st; lastSuccessfulIngestAt := lastSuccessfulIngestAt st;
       lastFailureAt := Some now; lastFailureReason := Some message;
       acceptedBatchCount := acceptedBatchCount st; acceptedEventCount := acceptedEventCount st;
       duplicateEventCount := duplicateEventCount st; lastSafeLedger := lastSafeLedger st;
       reorgDetected := reorgDetected st; reorgHeight := reorgHeight st |}).

(** The part of [ingest] after validation. *)
Definition ingest_events (evs : list ContractEventRecord) (write_fault : option string) (now : string) (s : Service)
    : result ApiError IngestResult * Service :=
  let s := fold_left (check_reorg evs now) (ledgers_of [] evs) s in
  match write_fault with
  | Some message =>
      (serviceUnavailable "Indexer event ingestion could not persist the batch to the durable store.",
       record_failure message now s)
  | None =>
      let '((ins, dup), store) := insertMany evs now (sv_store s) in
      let res := {| insertedCount := length ins; duplicateCount := length dup;
                    insertedEventIds := ins; duplicateEventIds := dup |} in
      (Ok res, record_success evs res now (with_store store s))
  end.

Definition ingest (Date_parse : string → option Z) (toISOString : Z → string) (body : jsval) (actor : string)
    (write_fault : option string) (clock : Z) (now : string) (s : Service) : result ApiError IngestResult * Service :=
  if negb (bool_decide (dependency (sv_state s) = Healthy)) then
    (serviceUnavailable "Indexer event ingestion is temporarily unavailable while the durable store is unhealthy.", s)
  else
    match enforceRateLimit actor clock (rateLimits s) with
    | Err e =>
        (Err e, {| sv_store := sv_store s; rateLimits := prune_bucket actor clock (rateLimits s);
                   sv_state := sv_state s; rolledBackLedgers := rolledBackLedgers s |})
    | Ok limits =>
        let s := {| sv_store := sv_store s; rateLimits := limits; sv_state := sv_state s;
                    rolledBackLedgers := rolledBackLedgers s |} in
        match validateBatch Date_parse toISOString body with
        | Err e => (Err e, s)
        | Ok evs => ingest_events evs write_fault now s
        end
    end.

(** ** The write semaphore *)

(** [createConcurrencyLimiter(limit)]: permits in use and waiting acquirers. *)
Record Semaphore : Type := { active : nat; waiters : nat }.

(** Returns whether the acquirer may proceed at once. *)
Definition acquire (limit : nat) (s : Semaphore) : bool * Semaphore :=
  if bool_decide (active s < limit)%nat then (true, {| active := S (active s); waiters := waiters s |})
  else (false, {| active := active s; waiters := S (waiters s) |}).

(** A permit is returned; the first waiter, if any, takes it. *)
Definition release (s : Semaphore) : Semaphore :=
  match waiters s with
  | O => {| active := active s - 1; waiters := 0 |}
  | S w => {| active := S (active s - 1); waiters := w |}
  end.

(** ** Invariant *)

(** The store is well formed, every stored hash is non-empty and a ledger has one hash. *)
Record chain_wf (s : EventStore) : Prop := {
  cw_wf : store_wf s;
  cw_hash k r : (k, r) ∈ records s → str_empty (EventStore.ledgerHash r) = false;
  cw_one : one_hash_per_ledger s;
}.

(** A batch that gives each ledger one, non-empty hash. *)
Definition batch_consistent (evs : list ContractEventRecord) : Prop :=
  ∀ e e', e ∈ evs → e' ∈ evs → EventStore.ledger e = EventStore.ledger e' → EventStore.ledgerHash e = EventStore.ledgerHash e'.

(** ** Lemmas *)
Lemma incoming_hash_spec evs e :
  batch_consistent evs → e ∈ evs → incoming_hash (EventStore.ledger e) evs = EventStore.ledgerHash e.
Proof.
  intros Hc He. assert (∀ l, l ⊆ evs → e ∈ l → incoming_hash (EventStore.ledger e) l = EventStore.ledgerHash e) as Hgen.
  { intros l. induction l as [|x l IH]; intros Hs Hin; [by apply not_elem_of_nil in Hin|]. simpl.
    destruct (Z.eqb_spec (EventStore.ledger x) (EventStore.ledger e)) as [Hl|Hl].
    - apply Hc; [apply Hs; left|done|done].
    - apply elem_of_cons in Hin as [->|Hin]; [done|]. apply IH; [|done]. intros y Hy. apply Hs. by right. }
  by apply Hgen.
Qed.

Lemma ledgers_of_elem seen evs e : e ∈ evs → EventStore.ledger e ∈ seen ∨ EventStore.ledger e ∈ ledgers_of seen evs.
Proof.
  revert seen. induction evs as [|x evs IH]; intros seen He; [by apply not_elem_of_nil in He|]. simpl.
  apply elem_of_cons in He as [->|He]; case_bool_decide as Hs.
  - by left.
  - right. left.
  - auto.
  - destruct (IH (EventStore.ledger x :: seen) He) as [[->|Hin]%elem_of_cons|Hin]; [right; left|by left|by right; right].
Qed.

Lemma rollback_chain_wf l now s : chain_wf s → chain_wf (rollbackBeforeLedger l now s).
Proof.
  intros [Hwf Hh Ho]. split; [by apply rollback_wf| |].
  - intros k r [_ Hr]%list_elem_of_filter. by eapply Hh.
  - intros k r k' r' [_ Hr]%list_elem_of_filter [_ Hr']%list_elem_of_filter. by eapply Ho.
Qed.

(** All stored records of the ledger carry this hash. *)
Definition agrees (s : EventStore) (l : Z) (h : string) : Prop :=
  ∀ k r, (k, r) ∈ records s → EventStore.ledger r = l → EventStore.ledgerHash r = h.

Lemma agrees_rollback s l h l' now : agrees s l h → agrees (rollbackBeforeLedger l' now s) l h.
Proof. intros Ha k r [_ Hr]%list_elem_of_filter. by eapply Ha. Qed.

(** The reorg check of a ledger leaves only records that agree with the batch. *)
Lemma check_reorg_spec evs now s l :
  chain_wf (sv_store s) →
  chain_wf (sv_store (check_reorg evs now s l)) ∧ agrees (sv_store (check_reorg evs now s l)) l (incoming_hash l evs) ∧
  ∀ l' h, agrees (sv_store s) l' h → agrees (sv_store (check_reorg evs now s l)) l' h.
Proof.
  intros Hc. unfold check_reorg. pose proof (first_of_ledger_spec l (records (sv_store s))) as Hf.
  unfold getLedgerHash. destruct (first_of_ledger l (records (sv_store s))) as [r|] eqn:Hr; simpl.
  - destruct Hf as [Hl (k & Hk)]. rewrite (cw_hash _ Hc k r Hk). simpl. case_bool_decide as Hh; simpl.
    + splits; [done| |done]. intros k' r' Hk' Hl'. rewrite <-Hh. apply (cw_one _ Hc k' r' k r); [done|done|congruence].
    + splits; [by apply rollback_chain_wf| |intros; by apply agrees_rollback].
      intros k' r' [Hn _]%list_elem_of_filter Hl'. simpl in Hn. lia.
  - splits; [done| |done]. intros k r Hk Hl. by destruct (Hf k r Hk).
Qed.

Lemma check_all_spec evs now ls s :
  chain_wf (sv_store s) →
  chain_wf (sv_store (fold_left (check_reorg evs now) ls s)) ∧
  (∀ l, l ∈ ls → agrees (sv_store (fold_left (check_reorg evs now) ls s)) l (incoming_hash l evs)) ∧
  ∀ l' h, agrees (sv_store s) l' h → agrees (sv_store (fold_left (check_reorg evs now) ls s)) l' h.
Proof.
  revert s. induction ls as [|l ls IH]; intros s Hc; simpl; [splits; [done| |done]; intros l Hl; by apply not_elem_of_nil in Hl|].
  destruct (check_reorg_spec evs now s l Hc) as (Hc1 & Ha & Hk). destruct (IH _ Hc1) as (Hc2 & Ha2 & Hk2).
  splits; [done| |auto]. intros l' [->|Hl]%elem_of_cons; auto.
Qed.

Lemma insert_chain_wf evs now s ids s' :
  insertMany evs now s = (ids, s') → chain_wf s → batch_consistent evs →
  (∀ e, e ∈ evs → str_empty (EventStore.ledgerHash e) = false) →
  (∀ e, e ∈ evs → agrees s (EventStore.ledger e) (EventStore.ledgerHash e)) →
  chain_wf s' ∧ ∀ e, e ∈ evs → agrees s' (EventStore.ledger e) (EventStore.ledgerHash e).
Proof.
  destruct ids as [ins dup]. intros Hi Hc Hb Hne Hag.
  destruct (insertMany_spec _ _ _ _ _ _ Hi (wf_keys _ (cw_wf _ Hc))) as (added & Hr & _ & _ & Ha & _).
  assert (∀ e, e ∈ evs → agrees s' (EventStore.ledger e) (EventStore.ledgerHash e)) as Hag'.
  { intros e He k r. rewrite Hr, elem_of_app. intros [Hk|Hk] Hl; [by eapply Hag|].
    destruct (Ha k r Hk) as (e' & He' & _ & ->). simpl in *. by apply Hb. }
  split; [|done]. split.
  - by eapply insertMany_wf; [|apply Hc].
  - intros k r. rewrite Hr, elem_of_app. intros [Hk|Hk]; [by eapply (cw_hash _ Hc)|].
    destruct (Ha k r Hk) as (e' & He' & _ & ->). exact (Hne e' He').
  - intros k r k' r'. rewrite Hr, !elem_of_app. intros [Hk|Hk] [Hk'|Hk'] Hl.
    + by eapply (cw_one _ Hc).
    + destruct (Ha k' r' Hk') as (e' & He' & _ & ->). by apply (Hag e' He' k r).
    + destruct (Ha k r Hk) as (e' & He' & _ & ->). symmetry. by apply (Hag e' He' k' r').
    + destruct (Ha k r Hk) as (e1 & He1 & _ & ->), (Ha k' r' Hk') as (e2 & He2 & _ & ->). simpl in *. by apply Hb.
Qed.

Lemma assertNonEmptyString_ok v f n s : assertNonEmptyString v f n = Ok s → str_empty s = false.
Proof.
  unfold assertNonEmptyString. destruct v; try done. destruct (str_empty (js_trim s0)) eqn:He; [done|].
  by case_bool_decide; intros [= <-].
Qed.

Lemma bind_ok {E A B} (m : result E A) (f : A → result E B) b : (m ≫= f) = Ok b → ∃ a, m = Ok a ∧ f a = Ok b.
Proof. destruct m as [a|e]; [by exists a|done]. Qed.

Lemma validateEvent_hash dp iso v e : validateEvent dp iso v = Ok e → str_empty (EventStore.ledgerHash e) = false.
Proof.
  unfold validateEvent. destruct (isPlainObject v) as [o|]; [|done].
  destruct (isPlainObject (js_get o "payload")) as [pl|]; [|done].
  repeat (intros (? & ? & Hrest)%bind_ok; revert Hrest). intros [= <-]. simpl.
  by eapply assertNonEmptyString_ok.
Qed.

Lemma result_map_list_elem {E A B} (f : A → result E B) l l' y :
  result_map_list f l = Ok l' → y ∈ l' → ∃ x, x ∈ l ∧ f x = Ok y.
Proof.
  revert l'. induction l as [|x l IH]; intros l' Hm Hy; simpl in Hm; simplify_eq; [by apply not_elem_of_nil in Hy|].
  destruct (f x) as [b|] eqn:Hf; [|done]. destruct (result_map_list f l) as [bs|]; [|done]. simplify_eq.
  apply elem_of_cons in Hy as [->|Hy]; [exists x; split; [left|done]|].
  destruct (IH bs eq_refl Hy) as (x' & ? & ?). exists x'. split; [by right|done].
Qed.

Lemma validateBatch_hashes dp iso body evs e :
  validateBatch dp iso body = Ok evs → e ∈ evs → str_empty (EventStore.ledgerHash e) = false.
Proof.
  unfold validateBatch. destruct (isPlainObject body) as [o|]; [|done]. destruct (js_get o "events"); try done.
  do 2 (case_bool_decide; [done|]). destruct (result_map_list _ l) as [evs'|] eqn:Hm; [|done].
  destruct (has_duplicate_id [] evs'); [done|]. intros [= <-] He.
  destruct (result_map_list_elem _ _ _ _ Hm He) as (x & _ & Hx). by eapply validateEvent_hash.
Qed.

Lemma stage_counts present staged now evs :
  let '(_, (ins, dup)) := stage present staged now evs in (length ins + length dup = length evs)%nat.
Proof.
  revert staged. induction evs as [|e evs IH]; intros staged; [done|]. simpl.
  destruct (jm_has _ present || jm_has _ staged).
  - specialize (IH staged). destruct (stage present staged now evs) as [st [ins dup]]. simpl. lia.
  - specialize (IH (jm_set (eventId e) (stamp now e) staged)). destruct (stage _ _ _ _) as [st [ins dup]]. simpl. lia.
Qed.

Lemma insertMany_counts evs now s :
  let '((ins, dup), _) := insertMany evs now s in (length ins + length dup = length evs)%nat.
Proof.
  unfold insertMany. pose proof (stage_counts (records s) [] now evs).
  by destruct (stage (records s) [] now evs) as [st [ins dup]].
Qed.

(** Ingesting a consistent batch into a well-formed store. *)
Lemma ingest_events_spec evs fault now s :
  chain_wf (sv_store s) → batch_consistent evs → (∀ e, e ∈ evs → str_empty (EventStore.ledgerHash e) = false) →
  let '(res, s') := ingest_events evs fault now s in
  chain_wf (sv_store s') ∧
  match res with
  | Ok r => (∀ e, e ∈ evs → is_Some (jm_get (eventId e) (records (sv_store s'))) ∧
               agrees (sv_store s') (EventStore.ledger e) (EventStore.ledgerHash e)) ∧
      (length (insertedEventIds r) + length (duplicateEventIds r) = length evs)%nat ∧
      lastSafeLedger (sv_state s) <= lastSafeLedger (sv_state s')
  | Err e => is_Some fault
  end.
Proof.
  intros Hc Hb Hne. unfold ingest_events.
  destruct (check_all_spec evs now (ledgers_of [] evs) s Hc) as (Hc1 & Hag & _).
  assert (lastSafeLedger (sv_state (fold_left (check_reorg evs now) (ledgers_of [] evs) s)) = lastSafeLedger (sv_state s)) as Hsafe.
  { clear. revert s. induction (ledgers_of [] evs) as [|l ls IH]; intros s; [done|]. simpl. rewrite IH.
    unfold check_reorg. destruct (getLedgerHash l (sv_store s)); [|done]. by destruct (_ && _). }
  revert Hsafe Hc1 Hag. generalize (fold_left (check_reorg evs now) (ledgers_of [] evs) s). intros s1 Hsafe Hc1 Hag.
  destruct fault as [msg|]; simpl; [split; [done|by eexists]|].
  destruct (insertMany evs now (sv_store s1)) as [[ins dup] st] eqn:Hi.
  assert (∀ e, e ∈ evs → agrees (sv_store s1) (EventStore.ledger e) (EventStore.ledgerHash e)) as Hag1.
  { intros e He. rewrite <-(incoming_hash_spec evs e Hb He). apply Hag.
    by destruct (ledgers_of_elem [] evs e He) as [?%not_elem_of_nil|]. }
  destruct (insert_chain_wf evs now _ _ _ Hi Hc1 Hb Hne Hag1) as [Hc2 Hag2].
  destruct (insertMany_spec _ _ _ _ _ _ Hi (wf_keys _ (cw_wf _ Hc1))) as (added & _ & _ & _ & _ & Hpres & _).
  pose proof (insertMany_counts evs now (sv_store s1)) as Hcnt. rewrite Hi in Hcnt. simpl.
  splits; [done| |done|lia]. intros e He. split; [|by apply Hag2]. apply jm_has_spec. auto.
Qed.

(** ** Rate limiting lemmas *)

(** The requests of one actor: which pass, and the buckets afterwards. *)
Fixpoint rate_run (actor : string) (times : list Z) (limits : list (string * list Z)) : list Z * list (string * list Z) :=
  match times with
  | [] => ([], limits)
  | t :: times =>
      match enforceRateLimit actor t limits with
      | Ok limits' => let '(acc, l) := rate_run actor times limits' in (t :: acc, l)
      | Err _ => rate_run actor times (prune_bucket actor t limits)
      end
  end.

Definition in_window (t : Z) (acc : list Z) : list Z := filter (λ ts, t - ts < RATE_LIMIT_WINDOW_MS) acc.

Lemma in_window_mono t t' acc : t <= t' → in_window t' (in_window t acc) = in_window t' acc.
Proof.
  intros Ht. unfold in_window. rewrite list_filter_filter. apply list_filter_iff. intros x. split; [by intros []|]. lia.
Qed.

(** The bucket keeps the accepted requests that are still in the window. *)
Lemma rate_run_inv actor times limits acc0 t0 acc l t :
  (∀ t', t0 <= t' → in_window t' (default [] (jm_get actor limits)) = in_window t' acc0) →
  (∀ t', t0 <= t' → (length (in_window t' acc0) <= MAX_RATE_LIMIT_REQUESTS)%nat) →
  Sorted Z.le (t0 :: times) → (∀ x, x ∈ times → x <= t) → t0 <= t →
  rate_run actor times limits = (acc, l) →
  (length (in_window t (acc0 ++ acc)) <= MAX_RATE_LIMIT_REQUESTS)%nat.
Proof.
  revert limits acc0 t0 acc. induction times as [|u times IH]; intros limits acc0 t0 acc Hb Hn Hs Ht Ht0 Hrun; simpl in Hrun.
  - simplify_eq. rewrite app_nil_r. by apply Hn.
  - apply Sorted_inv in Hs as [Hs Hhd]. apply HdRel_inv in Hhd. unfold enforceRateLimit in Hrun.
    fold (in_window u (default [] (jm_get actor limits))) in Hrun. case_bool_decide as Hfull.
    + eapply (IH (prune_bucket actor u limits) acc0 u); [| |done|intros; apply Ht; by right|apply Ht; left|done].
      * intros t' Hu. rewrite <-(Hb t') by lia. unfold prune_bucket.
        destruct (jm_get actor limits) as [ts|] eqn:Hg; [|by rewrite Hg]. rewrite jm_get_set_eq. simpl. by apply in_window_mono.
      * intros t' Hu. apply Hn. lia.
    + destruct (rate_run actor times _) as [acc' l'] eqn:Hrun'. simplify_eq.
      replace (acc0 ++ u :: acc') with ((acc0 ++ [u]) ++ acc') by (by rewrite <-app_assoc).
      eapply (IH (jm_set actor (in_window u (default [] (jm_get actor limits)) ++ [u]) limits) (acc0 ++ [u]) u);
        [| |done|intros; apply Ht; by right|apply Ht; left|done].
      * intros t' Hu. rewrite jm_get_set_eq. simpl. unfold in_window at 1 3. rewrite !filter_app. f_equal.
        fold (in_window t' (in_window u (default [] (jm_get actor limits)))). rewrite in_window_mono by lia. apply Hb. lia.
      * intros t' Hu. unfold in_window. rewrite filter_app, length_app.
        assert (length (in_window t' acc0) <= length (in_window u acc0))%nat.
        { rewrite <-(in_window_mono u t') by lia. apply length_filter. }
        rewrite Hb in Hfull by lia. unfold in_window in *.
        pose proof (length_filter (λ ts, t' - ts < RATE_LIMIT_WINDOW_MS) [u]). simpl in *. lia.
Qed.

(** ** Properties *)

(** C12: ingestion keeps the chain consistent: whatever body is posted, if it is a
    valid batch that gives each ledger one hash, then a store in which every
    ledger has one hash stays so; on success every event of the batch is stored
    and every stored record of its ledger carries its hash (a conflicting branch
    was rolled back), the ids are split into inserted and duplicate, and the safe
    ledger does not go back. *)
Theorem ingest_keeps_chain dp iso body actor fault clock now s :
  chain_wf (sv_store s) → (∀ evs, validateBatch dp iso body = Ok evs → batch_consistent evs) →
  let '(res, s') := ingest dp iso body actor fault clock now s in
  chain_wf (sv_store s') ∧
  match res with
  | Ok r => ∃ evs, validateBatch dp iso body = Ok evs ∧
      (∀ e, e ∈ evs → is_Some (jm_get (eventId e) (records (sv_store s'))) ∧
         agrees (sv_store s') (EventStore.ledger e) (EventStore.ledgerHash e)) ∧
      (length (insertedEventIds r) + length (duplicateEventIds r) = length evs)%nat ∧
      lastSafeLedger (sv_state s) <= lastSafeLedger (sv_state s')
  | Err e => fault = None → sv_store s' = sv_store s ∧ sv_state s' = sv_state s
  end.
Proof.
  intros Hc Hb. unfold ingest. destruct (negb _); [done|].
  destruct (enforceRateLimit actor clock (rateLimits s)) as [limits|e]; [|done].
  destruct (validateBatch dp iso body) as [evs|e] eqn:Hv; [|done].
  pose proof (ingest_events_spec evs fault now
    {| sv_store := sv_store s; rateLimits := limits; sv_state := sv_state s; rolledBackLedgers := rolledBackLedgers s |}
    Hc (Hb evs eq_refl) (λ e, validateBatch_hashes dp iso body evs e Hv)) as Hi.
  destruct (ingest_events _ _ _ _) as [[r|e] s']; destruct Hi as [Hc' Hi]; (split; [done|]).
  - by exists evs.
  - intros ->. by destruct Hi.
Qed.

(** A posted event. *)
Definition raw_event (id : string) (l : Z) (h : string) : jsval :=
  JObj [("eventId", JStr id); ("ledger", JNum (NumInt l)); ("contractId", JStr "C"); ("topic", JStr "created");
        ("txHash", JStr "tx"); ("txIndex", JNum (NumInt 0)); ("operationIndex", JNum (NumInt 0));
        ("eventIndex", JNum (NumInt 0)); ("payload", JObj []); ("happenedAt", JStr "t"); ("ledgerHash", JStr h)].
Definition raw_batch (l : list jsval) : jsval := JObj [("events", JArr l)].

Lemma chain_wf_empty : chain_wf store_empty.
Proof.
  split; [apply store_empty_wf| |]; intros k r; [|intros ? ?]; intros Hk; by apply not_elem_of_nil in Hk.
Qed.

(** A fork at ledger 7 after ["a"] was stored on the other branch. *)
Lemma ingest_keeps_chain_witness :
  let s1 := (ingest (λ _, Some 0) (λ _, "t") (raw_batch [raw_event "a" 7 "h1"]) "w" None 0 "now" (new_service store_empty)).2 in
  chain_wf (sv_store (ingest (λ _, Some 0) (λ _, "t") (raw_batch [raw_event "b" 7 "h2"]) "w" None 1 "now" s1).2).
Proof.
  assert (∀ id h evs, validateBatch (λ _, Some 0) (λ _, "t") (raw_batch [raw_event id 7 h]) = Ok evs →
    (∃ e, evs = [e]) → batch_consistent evs) as Hb.
  { intros id h evs _ [x ->] e e' He He' _. apply list_elem_of_singleton in He as ->.
    by apply list_elem_of_singleton in He' as ->. }
  pose proof (ingest_keeps_chain (λ _, Some 0) (λ _, "t") (raw_batch [raw_event "a" 7 "h1"]) "w" None 0 "now"
    (new_service store_empty) chain_wf_empty) as H1.
  cbv zeta. destruct (ingest _ _ (raw_batch [raw_event "a" 7 "h1"]) _ _ _ _ _) as [r1 s1].
  destruct H1 as [H1 _]; [intros evs Hv; apply (Hb _ _ _ Hv); vm_compute in Hv; injection Hv as <-; by eexists|].
  pose proof (ingest_keeps_chain (λ _, Some 0) (λ _, "t") (raw_batch [raw_event "b" 7 "h2"]) "w" None 1 "now" s1 H1) as H2.
  simpl. destruct (ingest _ _ (raw_batch [raw_event "b" 7 "h2"]) _ _ _ _ _) as [r2 s2].
  destruct H2 as [H2 _]; [intros evs Hv; apply (Hb _ _ _ Hv); vm_compute in Hv; injection Hv as <-; by eexists|].
  exact H2.
Defined.

(** the ingest rate limit holds at every moment: for every clock-ordered
    sequence of an actor's requests, accepted or refused, at any time from the
    last request on at most 30 accepted requests are younger than a minute. *)
Theorem ingest_rate_limit_window actor times t :
  Sorted Z.le times → (∀ x, x ∈ times → x <= t) →
  (length (in_window t (rate_run actor times []).1) <= MAX_RATE_LIMIT_REQUESTS)%nat.
Proof.
  intros Hs Ht. destruct times as [|u times]; [simpl; lia|].
  destruct (rate_run actor (u :: times) []) as [acc l] eqn:Hrun. simpl.
  apply (rate_run_inv actor (u :: times) [] [] u acc l t); [done| |by constructor; [|constructor]|done|apply Ht; left|done].
  intros. unfold in_window. simpl. lia.
Qed.

Lemma ingest_rate_limit_window_witness :
  (length (in_window 40 (rate_run "w" (Z.of_nat <$> seq 0 40) []).1) <= MAX_RATE_LIMIT_REQUESTS)%nat.
Proof.
  apply (ingest_rate_limit_window "w" (Z.of_nat <$> seq 0 40) 40).
  - simpl. repeat constructor; lia.
  - intros x (n & -> & Hn)%list_elem_of_fmap. apply elem_of_seq in Hn. lia.
Defined.

(** A batch that gives ledger 7 two hashes is accepted and stored. *)
Theorem mixed_batch_accepted :
  let '(res, s') := ingest (λ _, Some 0) (λ _, "t") (raw_batch [raw_event "a" 7 "h1"; raw_event "b" 7 "h2"]) "w" None 0
    "now" (new_service store_empty) in
  is_ok res = true ∧ ¬ one_hash_per_ledger (sv_store s').
Proof.
  split; [reflexivity|]. intros Ho.
  specialize (Ho "a" (stamp "now" {| EventStore.eventId := "a"; EventStore.ledger := 7; contractId := "C"; topic := "created";
    txHash := "tx"; txIndex := 0; operationIndex := 0; eventIndex := 0; payload := []; happenedAt := "t";
    ledgerHash := "h1"; ingestedAt := None |}) "b" (stamp "now" {| EventStore.eventId := "b"; EventStore.ledger := 7;
    contractId := "C"; topic := "created"; txHash := "tx"; txIndex := 0; operationIndex := 0; eventIndex := 0;
    payload := []; happenedAt := "t"; ledgerHash := "h2"; ingestedAt := None |})).
  vm_compute in Ho. assert ("h1" = "h2") as Heq by (apply Ho; [left|right; left|done]). done.
Qed.
