(* ===== verification/Outbox.v ===== *)
(** * Webhook delivery store ([src/webhooks/store.ts], class [WebhookDeliveryStore])

    The outbox with worker leases, the delivery records, the dead-letter queue
    and the counters.  Outbox items are objects shared between the [outbox] map
    and the per-priority queues, so they live in a heap and both hold locations.
    Generated ids and the clock are arguments.  Delivery records are values: the
    copy a dead-letter entry keeps does not follow later status updates.  Log lines
    and [processedAt], set on an entry as it is dropped, are left out. *)
From Stdlib Require Import Ascii ZArith Lia.
From stdpp Require Import base gmap strings list.
From S2P Require Import Prelude Retry EventStore.
Local Open Scope string_scope.
Local Open Scope list_scope.
Local Open Scope Z_scope.

(** ** Data *)

Inductive WebhookDeliveryStatus : Type := DPending | DDelivered | DFailed | DPermanentFailure.
#[global] Instance delivery_status_eq_dec : EqDecision WebhookDeliveryStatus.
Proof. solve_decision. Defined.

Record WebhookDelivery : Type := {
  wd_id : string;
  wd_deliveryId : string;
  wd_eventId : string;
  wd_eventType : string;
  wd_endpointUrl : string;
  wd_status : WebhookDeliveryStatus;
  wd_attempts : list WebhookDeliveryAttempt;
  wd_createdAt : Z;
  wd_updatedAt : Z;
  wd_payload : string;
}.

Record DeadLetterQueueItem : Type := {
  dl_id : string;
  dl_deliveryId : string;
  dl_eventId : string;
  dl_eventType : string;
  dl_endpointUrl : string;
  dl_payload : string;
  dl_originalDelivery : WebhookDelivery;
  dl_failureReason : string;
  dl_reasonCode : string;
  dl_createdAt : Z;
}.

Inductive OutboxItemStatus : Type := Pending | InFlight | Delivered | Failed.
#[global] Instance outbox_status_eq_dec : EqDecision OutboxItemStatus.
Proof. solve_decision. Defined.

Inductive Priority : Type := High | Normal | Low.
#[global] Instance priority_eq_dec : EqDecision Priority.
Proof. solve_decision. Defined.

Record OutboxItem : Type := {
  oi_id : string;
  oi_deliveryId : string;
  oi_eventId : string;
  oi_eventType : string;
  oi_endpointUrl : string;
  oi_payload : string;
  oi_secret : string;
  oi_priority : Priority;
  oi_createdAt : Z;
  oi_scheduledFor : Z;
  oi_attempts : Z;
  oi_maxAttempts : Z;
  oi_status : OutboxItemStatus;
  oi_lockedAt : option Z;
  oi_lockedBy : option string;
}.

Definition DEFAULT_CLAIM_LOCK_TIMEOUT_MS : Z := 30000.

Record Metrics : Type := {
  totalDeliveries : Z;
  successfulDeliveries : Z;
  failedDeliveries : Z;
  dlqItems : Z;
  outboxItems : Z;
}.

(** [heap] holds the item objects; [outbox] and [queues] refer to them. *)
Record DeliveryStore : Type := {
  heap : gmap nat OutboxItem;
  outbox : list (string * nat);
  queues : list (Priority * list nat);
  deliveries : list (string * WebhookDelivery);
  deliveryIdIndex : list (string * string);
  deadLetterQueue : list (string * DeadLetterQueueItem);
  metrics : Metrics;
}.

Definition no_metrics : Metrics :=
  {| totalDeliveries := 0; successfulDeliveries := 0; failedDeliveries := 0; dlqItems := 0; outboxItems := 0 |}.

Definition clear : DeliveryStore :=
  {| heap := ∅; outbox := []; queues := []; deliveries := []; deliveryIdIndex := []; deadLetterQueue := [];
     metrics := no_metrics |}.

(** ** Updates of one field *)

Definition with_outbox (h : gmap nat OutboxItem) (o : list (string * nat)) (q : list (Priority * list nat))
    (d : Z) (s : DeliveryStore) : DeliveryStore :=
  {| heap := h; outbox := o; queues := q; deliveries := deliveries s; deliveryIdIndex := deliveryIdIndex s;
     deadLetterQueue := deadLetterQueue s;
     metrics := {| totalDeliveries := totalDeliveries (metrics s); successfulDeliveries := successfulDeliveries (metrics s);
                   failedDeliveries := failedDeliveries (metrics s); dlqItems := dlqItems (metrics s);
                   outboxItems := outboxItems (metrics s) + d |} |}.

Definition with_heap (h : gmap nat OutboxItem) (s : DeliveryStore) : DeliveryStore :=
  {| heap := h; outbox := outbox s; queues := queues s; deliveries := deliveries s;
     deliveryIdIndex := deliveryIdIndex s; deadLetterQueue := deadLetterQueue s; metrics := metrics s |}.

Definition set_lock (st : OutboxItemStatus) (at_ : option Z) (by_ : option string) (i : OutboxItem) : OutboxItem :=
  {| oi_id := oi_id i; oi_deliveryId := oi_deliveryId i; oi_eventId := oi_eventId i;
     oi_eventType := oi_eventType i; oi_endpointUrl := oi_endpointUrl i; oi_payload := oi_payload i;
     oi_secret := oi_secret i; oi_priority := oi_priority i;
     oi_createdAt := oi_createdAt i; oi_scheduledFor := oi_scheduledFor i; oi_attempts := oi_attempts i;
     oi_maxAttempts := oi_maxAttempts i; oi_status := st; oi_lockedAt := at_; oi_lockedBy := by_ |}.

Definition set_attempts (n : Z) (i : OutboxItem) : OutboxItem :=
  {| oi_id := oi_id i; oi_deliveryId := oi_deliveryId i; oi_eventId := oi_eventId i;
     oi_eventType := oi_eventType i; oi_endpointUrl := oi_endpointUrl i; oi_payload := oi_payload i;
     oi_secret := oi_secret i; oi_priority := oi_priority i;
     oi_createdAt := oi_createdAt i; oi_scheduledFor := oi_scheduledFor i; oi_attempts := n;
     oi_maxAttempts := oi_maxAttempts i; oi_status := oi_status i; oi_lockedAt := oi_lockedAt i;
     oi_lockedBy := oi_lockedBy i |}.

(** ** Outbox *)

Definition queue (p : Priority) (s : DeliveryStore) : list nat := default [] (jm_get p (queues s)).

(** The common part of [addToOutbox] and [hydrateOutboxItem]: the object gets a
    fresh location, the map entry is set and the location joins its queue. *)
Definition enqueue (item : OutboxItem) (s : DeliveryStore) : DeliveryStore :=
  let l := fresh (dom (heap s)) in
  let p := oi_priority item in
  with_outbox (<[l := item]> (heap s)) (jm_set (oi_id item) l (outbox s))
    (jm_set p (queue p s ++ [l]) (queues s)) 1 s.

(** [item] carries the generated id; its status becomes pending. *)
Definition addToOutbox (item : OutboxItem) (s : DeliveryStore) : string * DeliveryStore :=
  (oi_id item, enqueue (set_lock Pending (oi_lockedAt item) (oi_lockedBy item) item) s).

Definition hydrateOutboxItem (item : OutboxItem) (s : DeliveryStore) : string * DeliveryStore :=
  (oi_id item, enqueue item s).

Definition priorities : list Priority := [High; Normal; Low].

(** The object at a location. *)
Definition deref (s : DeliveryStore) (l : nat) : list OutboxItem := match heap s !! l with Some i => [i] | None => [] end.

Definition getReadyOutboxItems (now : Z) (s : DeliveryStore) : list OutboxItem :=
  mjoin ((λ p,
    js_sort (λ a b, oi_scheduledFor a - oi_scheduledFor b)
      (List.filter (λ i, bool_decide (oi_status i = Pending) && (oi_scheduledFor i <=? now)
                         && (oi_attempts i <? oi_maxAttempts i))
         (mjoin (deref s <$> queue p s)))) <$> priorities).

(** Remove the first object of the item's queue that has the id. *)
Fixpoint remove_first (h : gmap nat OutboxItem) (id : string) (l : list nat) : list nat :=
  match l with
  | [] => []
  | x :: l =>
      if match h !! x with Some i => bool_decide (oi_id i = id) | None => false end then l
      else x :: remove_first h id l
  end.

(** The entry leaves the map and its priority queue. *)
Definition unlink (id : string) (item : OutboxItem) (h : gmap nat OutboxItem) (s : DeliveryStore) : DeliveryStore :=
  with_outbox h (jm_delete id (outbox s))
    (match jm_get (oi_priority item) (queues s) with
     | Some q => jm_set (oi_priority item) (remove_first h id q) (queues s)
     | None => queues s
     end) (-1) s.

Definition lookup_item (id : string) (s : DeliveryStore) : option (nat * OutboxItem) :=
  match jm_get id (outbox s) with
  | Some l => match heap s !! l with Some i => Some (l, i) | None => None end
  | None => None
  end.

Definition removeFromOutbox (id : string) (s : DeliveryStore) : bool * DeliveryStore :=
  match lookup_item id s with
  | None => (false, s)
  | Some (l, item) => (true, unlink id item (heap s) s)
  end.

Definition updateOutboxItemAttempt (id : string) (attempts : Z) (s : DeliveryStore) : DeliveryStore :=
  match lookup_item id s with
  | None => s
  | Some (l, item) => with_heap (<[l := set_attempts attempts item]> (heap s)) s
  end.

(** ** Claims *)

Definition lease_expired (reclaimWindow : Z) (i : OutboxItem) : bool :=
  bool_decide (oi_status i = InFlight)
  && match oi_lockedAt i with Some t => t <? reclaimWindow | None => false end.

Definition claimable (now lockTimeoutMs : Z) (i : OutboxItem) : bool :=
  (oi_attempts i <? oi_maxAttempts i)
  && ((bool_decide (oi_status i = Pending) && (oi_scheduledFor i <=? now)) || lease_expired (now - lockTimeoutMs) i).

(** The loop of a claim over a list of locations: an object that satisfies the
    test is updated in place and returned. *)
Fixpoint update_where (test : OutboxItem → bool) (upd : OutboxItem → OutboxItem) (ls : list nat)
    (h : gmap nat OutboxItem) : list nat * gmap nat OutboxItem :=
  match ls with
  | [] => ([], h)
  | l :: ls =>
      match h !! l with
      | Some i =>
          if test i then let '(r, h') := update_where test upd ls (<[l := upd i]> h) in (l :: r, h')
          else update_where test upd ls h
      | None => update_where test upd ls h
      end
  end.

Definition lock_item (now : Z) (workerId : string) : OutboxItem → OutboxItem := set_lock InFlight (Some now) (Some workerId).

(** Claims return the locations of the claimed objects. *)
Definition claimReadyOutboxItems (workerId : string) (lockTimeoutMs now : Z) (s : DeliveryStore) : list nat * DeliveryStore :=
  let '(claimed, h) :=
    update_where (claimable now lockTimeoutMs) (lock_item now workerId)
      (mjoin ((λ p, queue p s) <$> priorities)) (heap s) in
  (claimed, with_heap h s).

Definition reclaimStuckItems (workerId : string) (lockTimeoutMs now : Z) (s : DeliveryStore) : list nat * DeliveryStore :=
  let '(reclaimed, h) :=
    update_where (lease_expired (now - lockTimeoutMs)) (lock_item now workerId) ((outbox s).*2) (heap s) in
  (reclaimed, with_heap h s).

Definition unlock_item : OutboxItem → OutboxItem := set_lock Pending None None.

Definition releaseExpiredLeases (lockTimeoutMs now : Z) (s : DeliveryStore) : list nat * DeliveryStore :=
  let '(released, h) :=
    update_where (lease_expired (now - lockTimeoutMs)) unlock_item ((outbox s).*2) (heap s) in
  (released, with_heap h s).

Definition releaseOutboxItem (id workerId : string) (s : DeliveryStore) : bool * DeliveryStore :=
  match lookup_item id s with
  | None => (false, s)
  | Some (l, item) =>
      if negb (bool_decide (oi_lockedBy item = Some workerId)) then (false, s)
      else (true, with_heap (<[l := unlock_item item]> (heap s)) s)
  end.

Definition markOutboxItemDelivered (id workerId : string) (s : DeliveryStore) : bool * DeliveryStore :=
  match lookup_item id s with
  | None => (false, s)
  | Some (l, item) =>
      if negb (bool_decide (oi_lockedBy item = Some workerId)) then (false, s)
      else (true, unlink id item (<[l := set_lock Delivered None None item]> (heap s)) s)
  end.

(** ** Delivery records *)

Definition with_deliveries (d : list (string * WebhookDelivery)) (idx : list (string * string))
    (m : Metrics) (s : DeliveryStore) : DeliveryStore :=
  {| heap := heap s; outbox := outbox s; queues := queues s; deliveries := d; deliveryIdIndex := idx;
     deadLetterQueue := deadLetterQueue s; metrics := m |}.

Definition store (delivery : WebhookDelivery) (s : DeliveryStore) : DeliveryStore :=
  let m := metrics s in
  with_deliveries (jm_set (wd_id delivery) delivery (deliveries s))
    (jm_set (wd_deliveryId delivery) (wd_id delivery) (deliveryIdIndex s))
    {| totalDeliveries := totalDeliveries m + 1; successfulDeliveries := successfulDeliveries m;
       failedDeliveries := failedDeliveries m; dlqItems := dlqItems m; outboxItems := outboxItems m |} s.

Definition get (id : string) (s : DeliveryStore) : option WebhookDelivery := jm_get id (deliveries s).

(** [id ? ... : undefined]: the empty id counts as absent. *)
Definition getByDeliveryId (deliveryId : string) (s : DeliveryStore) : option WebhookDelivery :=
  match jm_get deliveryId (deliveryIdIndex s) with
  | Some id => if str_empty id then None else get id s
  | None => None
  end.

Definition updateStatus (id : string) (status : WebhookDeliveryStatus) (now : Z) (s : DeliveryStore) : DeliveryStore :=
  match get id s with
  | None => s
  | Some d =>
      let old := wd_status d in
      let m := metrics s in
      let succ := negb (bool_decide (old = DDelivered)) && bool_decide (status = DDelivered) in
      let fail := negb (bool_decide (old = DPermanentFailure)) && bool_decide (status = DPermanentFailure) in
      with_deliveries
        (jm_set id {| wd_id := wd_id d; wd_deliveryId := wd_deliveryId d; wd_eventId := wd_eventId d;
                      wd_eventType := wd_eventType d; wd_endpointUrl := wd_endpointUrl d; wd_status := status;
                      wd_attempts := wd_attempts d; wd_createdAt := wd_createdAt d; wd_updatedAt := now;
                      wd_payload := wd_payload d |} (deliveries s))
        (deliveryIdIndex s)
        {| totalDeliveries := totalDeliveries m;
           successfulDeliveries := successfulDeliveries m + (if succ then 1 else 0);
           failedDeliveries := failedDeliveries m + (if succ then 0 else if fail then 1 else 0);
           dlqItems := dlqItems m; outboxItems := outboxItems m |} s
  end.

Definition getPendingRetries (now : Z) (s : DeliveryStore) : list WebhookDelivery :=
  List.filter (λ d,
    bool_decide (wd_status d = DPending)
    && match last (wd_attempts d) with
       | Some a => match truthy (at_nextRetryAt a) with Some t => t <=? now | None => false end
       | None => false
       end) ((deliveries s).*2).

Definition getByEventId (eventId : string) (s : DeliveryStore) : list WebhookDelivery :=
  List.filter (λ d, bool_decide (wd_eventId d = eventId)) ((deliveries s).*2).

Definition registerDeliveryId (deliveryId : string) (s : DeliveryStore) : DeliveryStore :=
  with_deliveries (deliveries s) (jm_set deliveryId deliveryId (deliveryIdIndex s)) (metrics s) s.

Definition isDuplicateDelivery (deliveryId : string) (s : DeliveryStore) : bool := jm_has deliveryId (deliveryIdIndex s).

(** ** Dead-letter queue *)

Definition with_dlq (q : list (string * DeadLetterQueueItem)) (d : Z) (s : DeliveryStore) : DeliveryStore :=
  {| heap := heap s; outbox := outbox s; queues := queues s; deliveries := deliveries s;
     deliveryIdIndex := deliveryIdIndex s; deadLetterQueue := q;
     metrics := {| totalDeliveries := totalDeliveries (metrics s); successfulDeliveries := successfulDeliveries (metrics s);
                   failedDeliveries := failedDeliveries (metrics s); dlqItems := dlqItems (metrics s) + d;
                   outboxItems := outboxItems (metrics s) |} |}.

(** [id] is the generated id and [now] the creation time. *)
Definition addToDeadLetterQueue (id : string) (delivery : WebhookDelivery) (failureReason reasonCode : string) (now : Z)
    (s : DeliveryStore) : string * DeliveryStore :=
  (id, with_dlq (jm_set id
    {| dl_id := id; dl_deliveryId := wd_deliveryId delivery; dl_eventId := wd_eventId delivery;
       dl_eventType := wd_eventType delivery; dl_endpointUrl := wd_endpointUrl delivery;
       dl_payload := wd_payload delivery; dl_originalDelivery := delivery; dl_failureReason := failureReason;
       dl_reasonCode := reasonCode; dl_createdAt := now |} (deadLetterQueue s)) 1 s).

(** [limit ? items.slice(offset, offset + limit) : items.slice(offset)] *)
Definition getDeadLetterQueueItems (limit : option nat) (offset : nat) (s : DeliveryStore) : list DeadLetterQueueItem :=
  let items := drop offset ((deadLetterQueue s).*2) in
  match limit with Some (S n) => take (S n) items | _ => items end.

Definition processDeadLetterQueueItem (id : string) (s : DeliveryStore) : bool * DeliveryStore :=
  match jm_get id (deadLetterQueue s) with
  | None => (false, s)
  | Some _ => (true, with_dlq (jm_delete id (deadLetterQueue s)) (-1) s)
  end.

(** [now] is the clock; the counters are left alone. *)
Definition cleanup (olderThanMs now : Z) (s : DeliveryStore) : Z * DeliveryStore :=
  let cutoff := now - olderThanMs in
  let old := filter (λ p, wd_status p.2 = DDelivered ∧ wd_updatedAt p.2 < cutoff) (deliveries s) in
  let oldDlq := filter (λ p, dl_createdAt p.2 < cutoff) (deadLetterQueue s) in
  (Z.of_nat (length old + length oldDlq),
   {| heap := heap s; outbox := outbox s; queues := queues s;
      deliveries := filter (λ p, ¬ (wd_status p.2 = DDelivered ∧ wd_updatedAt p.2 < cutoff)) (deliveries s);
      deliveryIdIndex := fold_left (λ idx p, jm_delete (wd_deliveryId p.2) idx) old (deliveryIdIndex s);
      deadLetterQueue := filter (λ p, ¬ (dl_createdAt p.2 < cutoff)) (deadLetterQueue s);
      metrics := metrics s |}).

(** ** Histories of outbox calls *)

Inductive outbox_op : Type :=
| OpAdd (item : OutboxItem)
| OpHydrate (item : OutboxItem)
| OpRemove (id : string)
| OpAttempt (id : string) (n : Z)
| OpClaim (workerId : string) (lockTimeoutMs now : Z)
| OpReclaim (workerId : string) (lockTimeoutMs now : Z)
| OpReleaseExpired (lockTimeoutMs now : Z)
| OpRelease (id workerId : string)
| OpMark (id workerId : string).

(** The locations a call claims, and the store after it. *)
Definition op_step (o : outbox_op) (s : DeliveryStore) : list nat * DeliveryStore :=
  match o with
  | OpAdd item => ([], (addToOutbox item s).2)
  | OpHydrate item => ([], (hydrateOutboxItem item s).2)
  | OpRemove id => ([], (removeFromOutbox id s).2)
  | OpAttempt id n => ([], updateOutboxItemAttempt id n s)
  | OpClaim w t now => claimReadyOutboxItems w t now s
  | OpReclaim w t now => reclaimStuckItems w t now s
  | OpReleaseExpired t now => ([], (releaseExpiredLeases t now s).2)
  | OpRelease id w => ([], (releaseOutboxItem id w s).2)
  | OpMark id w => ([], (markOutboxItemDelivered id w s).2)
  end.

Fixpoint op_run (os : list outbox_op) (s : DeliveryStore) : list nat * DeliveryStore :=
  match os with
  | [] => ([], s)
  | o :: os => let '(c, s1) := op_step o s in let '(cs, s2) := op_run os s1 in (c ++ cs, s2)
  end.

(** The item at [l] is leased to [w] since [t]. *)
Definition leased (l : nat) (w : string) (t : Z) (s : DeliveryStore) : Prop :=
  ∃ i, heap s !! l = Some i ∧ oi_status i = InFlight ∧ oi_lockedAt i = Some t ∧ oi_lockedBy i = Some w.

(** The call runs before the lease since [t] expires, and does not give it back
    on behalf of [w]. *)
Definition within_lease (w : string) (t : Z) (o : outbox_op) : Prop :=
  match o with
  | OpClaim _ timeout now | OpReclaim _ timeout now | OpReleaseExpired timeout now => now - timeout <= t
  | OpRelease _ w' | OpMark _ w' => w' ≠ w
  | _ => True
  end.

(** ** Lease lemmas *)
Lemma update_where_keep test upd ls h l i :
  h !! l = Some i → test i = false →
  let '(r, h') := update_where test upd ls h in h' !! l = Some i ∧ l ∉ r.
Proof.
  intros Hl Ht. revert h Hl. induction ls as [|x ls IH]; intros h Hl; simpl; [split; [done|apply not_elem_of_nil]|].
  destruct (h !! x) as [j|] eqn:Hx; [|by apply IH].
  destruct (test j) eqn:Hj; [|by apply IH].
  assert (x ≠ l) by congruence. specialize (IH (<[x := upd j]> h)). rewrite lookup_insert_ne in IH by done.
  destruct (update_where test upd ls _) as [r h']. destruct (IH Hl) as [? ?]. split; [done|].
  rewrite not_elem_of_cons. split; [congruence|done].
Qed.

Lemma update_where_hit test upd ls h l i :
  h !! l = Some i → test i = true → l ∈ ls → (∀ j, upd (upd j) = upd j) →
  let '(r, h') := update_where test upd ls h in h' !! l = Some (upd i) ∧ l ∈ r.
Proof.
  intros Hl Ht Hin Hidem. revert h Hl Hin. induction ls as [|x ls IH]; intros h Hl Hin; [by apply not_elem_of_nil in Hin|].
  assert (∀ h, h !! l = Some (upd i) → let '(r, h') := update_where test upd ls h in h' !! l = Some (upd i)) as Hdone.
  { clear -Hidem. intros h. revert h. induction ls as [|y ls IH]; intros h Hl; simpl; [done|].
    destruct (h !! y) as [j|] eqn:Hy; [|by apply IH]. destruct (test j); [|by apply IH].
    specialize (IH (<[y := upd j]> h)). destruct (update_where test upd ls _) as [r h']. apply IH.
    destruct (decide (y = l)) as [->|]; [|by rewrite lookup_insert_ne].
    rewrite lookup_insert_eq. f_equal. rewrite Hl in Hy. simplify_eq. apply Hidem. }
  simpl. apply elem_of_cons in Hin as [->|Hin].
  - rewrite Hl, Ht. specialize (Hdone (<[x := upd i]> h) ltac:(by rewrite lookup_insert_eq)).
    destruct (update_where test upd ls _) as [r h']. split; [done|left].
  - destruct (h !! x) as [j|] eqn:Hx; [|by apply IH]. destruct (test j) eqn:Hj; [|by apply IH].
    destruct (decide (x = l)) as [->|Hne].
    + rewrite Hl in Hx. injection Hx as <-. specialize (Hdone (<[l := upd i]> h) ltac:(by rewrite lookup_insert_eq)).
      destruct (update_where test upd ls _) as [r h']. split; [done|left].
    + specialize (IH (<[x := upd j]> h)). rewrite lookup_insert_ne in IH by done.
      destruct (update_where test upd ls _) as [r h']. destruct (IH Hl Hin). split; [done|by right].
Qed.

Lemma leased_not_expired i t window :
  oi_lockedAt i = Some t → window <= t → lease_expired window i = false.
Proof. intros Ht Hw. unfold lease_expired. rewrite Ht. cmp; [lia|]. apply andb_false_r. Qed.

(** A call within the lease leaves the item leased and does not claim it. *)
Lemma op_step_leased o l w t s :
  leased l w t s → within_lease w t o → leased l w t (op_step o s).2 ∧ l ∉ (op_step o s).1.
Proof.
  intros (i & Hl & Hst & Hat & Hby) Hw.
  assert (∀ x, heap s !! x = None → x ≠ l) as Hfresh by (intros x Hx ->; congruence).
  assert (∀ item, leased l w t (enqueue item s)) as Henq.
  { intros item. exists i. splits; try done. unfold enqueue. simpl. rewrite lookup_insert_ne; [done|].
    apply Hfresh. apply not_elem_of_dom, is_fresh. }
  destruct o as [item|item|id|id n|w' timeout now|w' timeout now|timeout now|id w'|id w']; simpl in *.
  - split; [apply Henq|apply not_elem_of_nil].
  - split; [apply Henq|apply not_elem_of_nil].
  - split; [|apply not_elem_of_nil]. unfold removeFromOutbox. destruct (lookup_item id s) as [[x j]|]; simpl; by exists i.
  - split; [|apply not_elem_of_nil]. unfold updateOutboxItemAttempt, lookup_item.
    destruct (jm_get id (outbox s)) as [x|]; [|by exists i]. destruct (heap s !! x) as [j|] eqn:Hx; [|by exists i].
    destruct (decide (x = l)) as [->|].
    + rewrite Hl in Hx. injection Hx as <-. exists (set_attempts n i). simpl. by rewrite lookup_insert_eq.
    + exists i. simpl. by rewrite lookup_insert_ne.
  - unfold claimReadyOutboxItems.
    assert (claimable now timeout i = false) as Hc.
    { unfold claimable. rewrite (leased_not_expired i t) by done. rewrite Hst. by rewrite andb_false_r. }
    pose proof (update_where_keep _ (lock_item now w') (mjoin ((λ p, queue p s) <$> priorities)) _ _ _ Hl Hc) as Hk.
    destruct (update_where _ _ _ _) as [r h']. destruct Hk. split; [by exists i|done].
  - unfold reclaimStuckItems.
    pose proof (update_where_keep _ (lock_item now w') ((outbox s).*2) _ _ _ Hl
      (leased_not_expired i t (now - timeout) Hat Hw)) as Hk.
    destruct (update_where _ _ _ _) as [r h']. destruct Hk. split; [by exists i|done].
  - unfold releaseExpiredLeases.
    pose proof (update_where_keep _ unlock_item ((outbox s).*2) _ _ _ Hl
      (leased_not_expired i t (now - timeout) Hat Hw)) as Hk.
    destruct (update_where _ _ _ _) as [r h']. destruct Hk. split; [by exists i|apply not_elem_of_nil].
  - split; [|apply not_elem_of_nil]. unfold releaseOutboxItem, lookup_item.
    destruct (jm_get id (outbox s)) as [x|]; [|by exists i]. destruct (heap s !! x) as [j|] eqn:Hx; [|by exists i].
    case_bool_decide as Hb; simpl; [|by exists i].
    exists i. simpl. rewrite lookup_insert_ne; [done|]. intros ->. congruence.
  - split; [|apply not_elem_of_nil]. unfold markOutboxItemDelivered, lookup_item.
    destruct (jm_get id (outbox s)) as [x|]; [|by exists i]. destruct (heap s !! x) as [j|] eqn:Hx; [|by exists i].
    case_bool_decide as Hb; simpl; [|by exists i].
    exists i. simpl. rewrite lookup_insert_ne; [done|]. intros ->. congruence.
Qed.

Lemma op_run_leased os l w t s :
  leased l w t s → Forall (within_lease w t) os → leased l w t (op_run os s).2 ∧ l ∉ (op_run os s).1.
Proof.
  revert s. induction os as [|o os IH]; intros s Hl Hw; simpl; [split; [done|apply not_elem_of_nil]|].
  apply Forall_cons_iff in Hw as [Ho Hw]. destruct (op_step_leased o l w t s Hl Ho) as [Hl1 Hn].
  destruct (op_step o s) as [c s1]. simpl in *. specialize (IH s1 Hl1 Hw).
  destruct (op_run os s1) as [cs s2]. simpl in *. destruct IH. split; [done|]. by rewrite not_elem_of_app.
Qed.

(** ** Well-formedness *)

(** The map, the queues, the objects and the counter agree. *)
Record outbox_wf (s : DeliveryStore) : Prop := {
  ow_keys : jm_wf (outbox s);
  ow_locs : NoDup (outbox s).*2;
  ow_item id l : (id, l) ∈ outbox s → ∃ i, heap s !! l = Some i ∧ oi_id i = id;
  ow_queue p l : l ∈ queue p s ↔ ∃ id i, (id, l) ∈ outbox s ∧ heap s !! l = Some i ∧ oi_priority i = p;
  ow_nodup p : NoDup (queue p s);
  ow_count : outboxItems (metrics s) = Z.of_nat (length (outbox s));
}.

(** Two heaps whose objects have the same ids and priorities. *)
Definition same_shape (h h' : gmap nat OutboxItem) : Prop :=
  ∀ l, (λ i, (oi_id i, oi_priority i)) <$> h' !! l = (λ i, (oi_id i, oi_priority i)) <$> h !! l.

Lemma same_shape_some h h' l i :
  same_shape h h' → h' !! l = Some i → ∃ j, h !! l = Some j ∧ oi_id j = oi_id i ∧ oi_priority j = oi_priority i.
Proof. intros Hs Hi. specialize (Hs l). rewrite Hi in Hs. destruct (h !! l) as [j|]; [|done]. simplify_eq/=. eauto. Qed.

Lemma same_shape_sym h h' : same_shape h h' → same_shape h' h.
Proof. intros Hs l. by rewrite Hs. Qed.

Lemma same_shape_insert h l i i' :
  h !! l = Some i → oi_id i' = oi_id i → oi_priority i' = oi_priority i → same_shape h (<[l := i']> h).
Proof.
  intros Hl Hid Hp x. destruct (decide (x = l)) as [->|]; [rewrite lookup_insert_eq, Hl; simpl; congruence|].
  by rewrite lookup_insert_ne.
Qed.

Lemma same_shape_update test upd ls h :
  (∀ i, oi_id (upd i) = oi_id i ∧ oi_priority (upd i) = oi_priority i) → same_shape h (update_where test upd ls h).2.
Proof.
  intros Hu. revert h. induction ls as [|l ls IH]; intros h; simpl; [done|].
  destruct (h !! l) as [i|] eqn:Hl; [|apply IH]. destruct (test i); [|apply IH].
  specialize (IH (<[l := upd i]> h)). destruct (update_where test upd ls _) as [r h']. simpl in *.
  intros x. rewrite IH. destruct (Hu i). by apply (same_shape_insert h l i).
Qed.

Lemma wf_with_heap h s : outbox_wf s → same_shape (heap s) h → outbox_wf (with_heap h s).
Proof.
  intros [Hk Hlo Hi Hq Hn Hc] Hs. split; simpl; try done.
  - intros id l Hin. destruct (Hi id l Hin) as (i & Hl & <-).
    destruct (same_shape_some _ _ l i (same_shape_sym _ _ Hs) Hl) as (j & Hj & Hid & _). exists j. done.
  - intros p l. unfold queue; simpl. fold (queue p s). rewrite Hq. split; intros (id & i & Hin & Hl & <-).
    + destruct (same_shape_some _ _ l i (same_shape_sym _ _ Hs) Hl) as (j & Hj & _ & Hp). by exists id, j.
    + destruct (same_shape_some _ _ l i Hs Hl) as (j & Hj & _ & Hp). by exists id, j.
Qed.

Lemma queue_set p q h o d p' qs s :
  queue p' (with_outbox h o (jm_set p q qs) d s) = if decide (p = p') then q else default [] (jm_get p' qs).
Proof.
  unfold queue. simpl. destruct (decide (p = p')) as [->|]; [by rewrite jm_get_set_eq|by rewrite jm_get_set_ne].
Qed.

Lemma wf_enqueue item s : outbox_wf s → jm_get (oi_id item) (outbox s) = None → outbox_wf (enqueue item s).
Proof.
  intros [Hk Hlo Hi Hq Hn Hc] Hf. set (l := fresh (dom (heap s))).
  assert (heap s !! l = None) as Hl by apply not_elem_of_dom, is_fresh.
  assert (∀ id, (id, l) ∉ outbox s) as Hnl.
  { intros id Hin. destruct (Hi id l Hin) as (i & Hl' & _). congruence. }
  unfold enqueue. fold l. split; simpl.
  - by apply jm_wf_set.
  - rewrite jm_set_fresh, fmap_app by done. apply list.NoDup_app. splits; [done| |apply NoDup_singleton].
    intros x Hx ->%list_elem_of_singleton. apply list_elem_of_fmap in Hx as ((id & x) & Heq & Hin). simpl in *. subst.
    by apply (Hnl id).
  - intros id x. rewrite jm_set_fresh, elem_of_app, list_elem_of_singleton by done. intros [Hin|[= -> ->]].
    + destruct (Hi id x Hin) as (i & Hx & Hid). exists i. split; [|done]. rewrite lookup_insert_ne; [done|congruence].
    + exists item. by rewrite lookup_insert_eq.
  - intros p x. rewrite queue_set. fold (queue p s). rewrite jm_set_fresh by done.
    setoid_rewrite elem_of_app. setoid_rewrite list_elem_of_singleton. destruct (decide (oi_priority item = p)) as [<-|Hp].
    + rewrite elem_of_app, list_elem_of_singleton, Hq. split.
      * intros [(id & i & Hin & Hx & Hpi)| -> ]; [|exists (oi_id item), item; rewrite lookup_insert_eq; auto].
        exists id, i. rewrite lookup_insert_ne by (intros <-; by apply (Hnl id)). auto.
      * intros (id & i & Hin & Hx & Hpi). destruct Hin as [Hin|Hin]; [left|right; by simplify_eq].
        exists id, i. rewrite lookup_insert_ne in Hx by (intros <-; by apply (Hnl id)). auto.
    + rewrite Hq. split.
      * intros (id & i & Hin & Hx & Hpi). exists id, i.
        rewrite lookup_insert_ne by (intros <-; by apply (Hnl id)). auto.
      * intros (id & i & Hin & Hx & Hpi). destruct Hin as [Hin|Hin]; [|simplify_eq; rewrite lookup_insert_eq in Hx; congruence].
        exists id, i. rewrite lookup_insert_ne in Hx by (intros <-; by apply (Hnl id)). auto.
  - intros p. rewrite queue_set. destruct (decide (oi_priority item = p)) as [<-|Hp]; [|apply Hn].
    apply list.NoDup_app. splits; [apply Hn| |apply NoDup_singleton].
    intros x Hx ->%list_elem_of_singleton. apply Hq in Hx as (id & i & Hin & _). by apply (Hnl id).
  - rewrite jm_length_set_fresh by done. lia.
Qed.

Lemma remove_first_spec h id l q :
  NoDup q → (∀ x, x ∈ q → (∃ i, h !! x = Some i ∧ oi_id i = id) ↔ x = l) →
  NoDup (remove_first h id q) ∧ ∀ x, x ∈ remove_first h id q ↔ x ∈ q ∧ x ≠ l.
Proof.
  induction q as [|y q IH]; intros Hnd Hid; simpl; [split; [constructor|]; intros x; split; [by intros ?%not_elem_of_nil|by intros [?%not_elem_of_nil _]]|].
  apply list.NoDup_cons in Hnd as [Hy Hnd].
  assert (match h !! y with Some i => bool_decide (oi_id i = id) | None => false end = bool_decide (y = l)) as ->.
  { pose proof (Hid y ltac:(left)) as Hyl. destruct (h !! y) as [i|].
    - apply bool_decide_ext. naive_solver.
    - symmetry. apply bool_decide_eq_false. intros ->. destruct Hyl as [_ Hyl]. by destruct (Hyl eq_refl) as (? & ? & _). }
  case_bool_decide as Hyl.
  - subst. split; [done|]. intros x. rewrite elem_of_cons. split; [|by intros [[->|?] ?]].
    intros Hx. split; [by right|]. by intros ->.
  - destruct IH as [Hn Hm]; [done|intros; apply Hid; by right|]. split.
    + apply list.NoDup_cons. split; [|done]. rewrite Hm. by intros [? _].
    + intros x. rewrite !elem_of_cons, Hm. naive_solver.
Qed.

Lemma length_jm_delete {V} (k : string) (m : list (string * V)) :
  jm_wf m → is_Some (jm_get k m) → length (jm_delete k m) = (length m - 1)%nat.
Proof.
  unfold jm_wf, jm_delete. induction m as [|[k' v] m IH]; simpl; [by intros _ [? ?]|].
  rewrite list.NoDup_cons. intros [Hn Hd] Hs. rewrite filter_cons. simpl.
  destruct (decide (k = k')) as [->|Hk].
  - rewrite decide_False by (intros Hne; by apply Hne). rewrite Nat.sub_0_r. clear IH Hs Hd.
    induction m as [|[k v'] m IH]; [done|]. rewrite filter_cons. simpl in *.
    apply not_elem_of_cons in Hn as [Hne Hn]. rewrite decide_True by congruence. simpl. by rewrite IH.
  - rewrite decide_True by congruence. simpl. rewrite IH by done. destruct Hs as [x Hx].
    destruct m; [done|]. simpl. lia.
Qed.

Lemma lookup_item_spec id s l i :
  outbox_wf s → lookup_item id s = Some (l, i) → (id, l) ∈ outbox s ∧ heap s !! l = Some i ∧ oi_id i = id.
Proof.
  intros Hwf. unfold lookup_item. destruct (jm_get id (outbox s)) as [x|] eqn:Hg; [|done].
  destruct (heap s !! x) as [j|] eqn:Hj; [|done]. intros [= -> ->]. apply jm_get_elem_of in Hg.
  destruct (ow_item _ Hwf id l Hg) as (j & Hj' & Hid). simplify_eq. done.
Qed.

Lemma wf_unlink id l item s :
  outbox_wf s → lookup_item id s = Some (l, item) → outbox_wf (unlink id item (heap s) s).
Proof.
  intros Hwf Hlk. destruct (lookup_item_spec _ _ _ _ Hwf Hlk) as (Hin & Hl & Hid).
  pose proof Hwf as [Hk Hlo Hi Hq Hn Hc].
  assert (∀ id', (id', l) ∈ outbox s → id' = id) as Huniq.
  { intros id' Hin'. destruct (Hi id' l Hin') as (j & Hj & <-). congruence. }
  assert (l ∈ queue (oi_priority item) s) as Hlq by (apply Hq; by exists id, item).
  assert (∀ p, queue p (unlink id item (heap s) s)
    = if decide (oi_priority item = p) then remove_first (heap s) id (queue p s) else queue p s) as Hqu.
  { intros p. unfold unlink, queue in *. simpl. destruct (jm_get (oi_priority item) (queues s)) as [q|] eqn:Hjq;
      [|simpl in Hlq; by apply not_elem_of_nil in Hlq].
    destruct (decide (oi_priority item = p)) as [<-|Hp]; [by rewrite jm_get_set_eq, Hjq|by rewrite jm_get_set_ne]. }
  assert (∀ x, x ∈ queue (oi_priority item) s → (∃ i, heap s !! x = Some i ∧ oi_id i = id) ↔ x = l) as Hone.
  { intros x Hx. apply Hq in Hx as (id' & i & Hin' & Hx & _). split; [|intros ->; by exists item].
    intros (j & Hj & Hjid). destruct (Hi id' x Hin') as (j' & Hj' & <-). simplify_eq.
    apply (jm_elem_of_get _ _ _ Hk) in Hin', Hin. congruence. }
  destruct (remove_first_spec (heap s) id l _ (Hn (oi_priority item)) Hone) as [Hnd Hmem].
  split; simpl.
  - by apply jm_wf_delete.
  - unfold jm_delete. clear -Hlo. induction (outbox s) as [|[k x] m IH]; simpl in *; [constructor|].
    apply list.NoDup_cons in Hlo as [Hx Hlo]. rewrite filter_cons. simpl. case_decide; simpl; [|auto].
    apply list.NoDup_cons. split; [|auto]. intros Hin. apply Hx. apply list_elem_of_fmap in Hin as ((k' & x') & -> & Hin).
    apply list_elem_of_filter in Hin as [_ Hin]. by apply (list_elem_of_fmap_2 snd) in Hin.
  - intros id' x [Hin' _]%elem_of_jm_delete. by apply Hi.
  - intros p x. rewrite Hqu. setoid_rewrite elem_of_jm_delete.
    destruct (decide (oi_priority item = p)) as [<-|Hp].
    + rewrite Hmem, Hq. split.
      * intros [(id' & i & Hin' & Hx & Hpi) Hne]. exists id', i. splits; try done. intros ->.
        apply (jm_elem_of_get _ _ _ Hk) in Hin', Hin. congruence.
      * intros (id' & i & [Hin' Hne] & Hx & Hpi). split; [by exists id', i|]. intros ->. by apply Hne, Huniq.
    + rewrite Hq. split; intros (id' & i & Hin' & Hx & Hpi); exists id', i; splits; try done.
      * intros ->. apply (jm_elem_of_get _ _ _ Hk) in Hin', Hin. congruence.
      * by destruct Hin'.
  - intros p. rewrite Hqu. destruct (decide (oi_priority item = p)) as [<-|Hp]; [done|apply Hn].
  - rewrite length_jm_delete by (done || (eexists; by apply jm_elem_of_get)).
    destruct (outbox s); [by apply not_elem_of_nil in Hin|]. simpl in *. lia.
Qed.

(** A new item's id is not in use. *)
Definition fresh_id (o : outbox_op) (s : DeliveryStore) : Prop :=
  match o with
  | OpAdd item | OpHydrate item => jm_get (oi_id item) (outbox s) = None
  | _ => True
  end.

Lemma op_step_wf o s : outbox_wf s → fresh_id o s → outbox_wf (op_step o s).2.
Proof.
  intros Hwf Hf. destruct o as [item|item|id|id n|w timeout now|w timeout now|timeout now|id w|id w]; simpl in *.
  - by apply wf_enqueue.
  - by apply wf_enqueue.
  - unfold removeFromOutbox. destruct (lookup_item id s) as [[l i]|] eqn:Hl; [|done]. by eapply wf_unlink.
  - unfold updateOutboxItemAttempt. destruct (lookup_item id s) as [[l i]|] eqn:Hl; [|done].
    destruct (lookup_item_spec _ _ _ _ Hwf Hl) as (_ & Hi & _). apply wf_with_heap; [done|].
    by apply (same_shape_insert _ _ i).
  - unfold claimReadyOutboxItems.
    pose proof (same_shape_update (claimable now timeout) (lock_item now w) (mjoin ((λ p, queue p s) <$> priorities)) (heap s)
      (λ i, conj eq_refl eq_refl)) as Hs.
    destruct (update_where _ _ _ _) as [r h]. by apply wf_with_heap.
  - unfold reclaimStuckItems.
    pose proof (same_shape_update (lease_expired (now - timeout)) (lock_item now w) ((outbox s).*2) (heap s)
      (λ i, conj eq_refl eq_refl)) as Hs.
    destruct (update_where _ _ _ _) as [r h]. by apply wf_with_heap.
  - unfold releaseExpiredLeases.
    pose proof (same_shape_update (lease_expired (now - timeout)) unlock_item ((outbox s).*2) (heap s)
      (λ i, conj eq_refl eq_refl)) as Hs.
    destruct (update_where _ _ _ _) as [r h]. by apply wf_with_heap.
  - unfold releaseOutboxItem. destruct (lookup_item id s) as [[l i]|] eqn:Hl; [|done].
    destruct (lookup_item_spec _ _ _ _ Hwf Hl) as (_ & Hi & _). case_bool_decide; [|done].
    apply wf_with_heap; [done|]. by apply (same_shape_insert _ _ i).
  - unfold markOutboxItemDelivered. destruct (lookup_item id s) as [[l i]|] eqn:Hl; [|done].
    destruct (lookup_item_spec _ _ _ _ Hwf Hl) as (Hin & Hi & _). case_bool_decide; [|done]. simpl.
    assert (outbox_wf (with_heap (<[l := set_lock Delivered None None i]> (heap s)) s)) as Hwf'.
    { apply wf_with_heap; [done|]. by apply (same_shape_insert _ _ i). }
    apply (wf_unlink id l (set_lock Delivered None None i) _ Hwf'). unfold lookup_item. simpl.
    rewrite (jm_elem_of_get id l) by (done || apply Hwf). by rewrite lookup_insert_eq.
Qed.

Lemma update_where_out test upd ls h l :
  (∀ j, upd (upd j) = upd j) →
  let '(r, h') := update_where test upd ls h in
  (l ∈ r → ∃ i, h' !! l = Some (upd i)) ∧ ((∃ i, h !! l = Some (upd i)) → ∃ i, h' !! l = Some (upd i)).
Proof.
  intros Hid. revert h. induction ls as [|x ls IH]; intros h; simpl; [split; [by intros ?%not_elem_of_nil|done]|].
  destruct (h !! x) as [j|] eqn:Hx; [|apply IH]. destruct (test j); [|apply IH].
  specialize (IH (<[x := upd j]> h)). destruct (update_where test upd ls _) as [r h']. destruct IH as [Hr Hk].
  split.
  - intros [->|Hl]%elem_of_cons; [|auto]. apply Hk. exists j. by rewrite lookup_insert_eq.
  - intros [i Hi]. apply Hk. destruct (decide (x = l)) as [->|Hne].
    + exists j. by rewrite lookup_insert_eq.
    + exists i. by rewrite lookup_insert_ne.
Qed.

(** A claimed item is leased to the claiming worker from the time of the claim. *)
Lemma claim_leases w timeout now s l :
  l ∈ (claimReadyOutboxItems w timeout now s).1 → leased l w now (claimReadyOutboxItems w timeout now s).2.
Proof.
  unfold claimReadyOutboxItems.
  pose proof (update_where_out (claimable now timeout) (lock_item now w) (mjoin ((λ p, queue p s) <$> priorities))
    (heap s) l (λ j, eq_refl)) as Ho.
  destruct (update_where _ _ _ _) as [r h']. simpl. intros Hl. destruct (proj1 Ho Hl) as [i Hi].
  by exists (lock_item now w i).
Qed.

(** ** Properties *)

(** C1: no delivery is handed to two workers: once a worker's claim returned an
    item, then through every sequence of calls before the lease expires, by any
    workers (other than the holder's own release or acknowledgement), the item
    stays locked by that worker and no claim or reclaim returns it again. *)
Theorem lease_exclusive w timeout t s l os :
  l ∈ (claimReadyOutboxItems w timeout t s).1 → Forall (within_lease w t) os →
  let s1 := (claimReadyOutboxItems w timeout t s).2 in
  leased l w t (op_run os s1).2 ∧ l ∉ (op_run os s1).1.
Proof. intros Hl Hos. cbv zeta. apply op_run_leased; [by apply claim_leases|done]. Qed.

Definition sample_item (id : string) (p : Priority) : OutboxItem :=
  {| oi_id := id; oi_deliveryId := id; oi_eventId := "e"; oi_eventType := "stream.created"; oi_endpointUrl := "u";
     oi_payload := "p"; oi_secret := "s"; oi_priority := p; oi_createdAt := 0; oi_scheduledFor := 0;
     oi_attempts := 0; oi_maxAttempts := 5; oi_status := Pending; oi_lockedAt := None; oi_lockedBy := None |}.

Definition sample_store : DeliveryStore :=
  (op_run [OpAdd (sample_item "x" Normal); OpAdd (sample_item "y" High)] clear).2.

(** ["w1"] claims both items (the high-priority one first); ["w2"] gets none. *)
Lemma lease_exclusive_witness :
  (claimReadyOutboxItems "w1" 30000 10 sample_store).1 = [1; 0]%nat ∧
  1%nat ∉ (op_run [OpClaim "w2" 30000 20; OpRelease "y" "w2"; OpReclaim "w2" 30000 30000]
    (claimReadyOutboxItems "w1" 30000 10 sample_store).2).1.
Proof.
  split; [vm_compute; reflexivity|].
  apply (lease_exclusive "w1" 30000 10 sample_store 1).
  - vm_compute. left.
  - repeat constructor; simpl; (lia || discriminate).
Defined.

(** C21: the work of a crashed worker is not lost: an item leased to a worker that
    never answers, still in the outbox and with attempts left, is returned by the
    first claim after the lease expired, leased to the claimant, who can then
    acknowledge it; the acknowledgement removes it from the map and its queue. *)
Theorem expired_lease_reclaimed id l i w t s w' timeout now :
  outbox_wf s → lookup_item id s = Some (l, i) → oi_status i = InFlight → oi_lockedAt i = Some t →
  oi_lockedBy i = Some w → oi_attempts i < oi_maxAttempts i → t < now - timeout →
  let '(claimed, s1) := claimReadyOutboxItems w' timeout now s in
  l ∈ claimed ∧ leased l w' now s1 ∧
  let '(ok, s2) := markOutboxItemDelivered id w' s1 in
  ok = true ∧ lookup_item id s2 = None ∧ (∀ p, l ∉ queue p s2) ∧ outbox_wf s2.
Proof.
  intros Hwf Hlk Hst Hat Hby Hatt Ht. destruct (lookup_item_spec _ _ _ _ Hwf Hlk) as (Hin & Hl & Hid).
  pose proof (op_step_wf (OpClaim w' timeout now) s Hwf I) as Hwf1. simpl in Hwf1.
  pose proof (claim_leases w' timeout now s l) as Hls. unfold claimReadyOutboxItems in *.
  assert (claimable now timeout i = true) as Hc.
  { unfold claimable, lease_expired. rewrite Hst, Hat. simpl. cmp; (done || lia). }
  assert (l ∈ mjoin ((λ p, queue p s) <$> priorities)) as Hq.
  { assert (l ∈ queue (oi_priority i) s) as Hq by (apply (ow_queue _ Hwf); by exists id, i).
    simpl. rewrite !elem_of_app. destruct (oi_priority i); auto. }
  pose proof (update_where_hit (claimable now timeout) (lock_item now w') _ _ _ _ Hl Hc Hq (λ j, eq_refl)) as Hh.
  destruct (update_where _ _ _ _) as [r h']. destruct Hh as [Hh Hr]. split; [done|]. split; [by apply Hls|].
  pose proof (op_step_wf (OpMark id w') _ Hwf1 I) as Hwf2. simpl in Hwf2.
  unfold markOutboxItemDelivered in *.
  assert (lookup_item id (with_heap h' s) = Some (l, lock_item now w' i)) as Hlk'.
  { unfold lookup_item. simpl. rewrite (jm_elem_of_get id l) by (done || apply Hwf). by rewrite Hh. }
  rewrite Hlk' in *. rewrite bool_decide_eq_true_2 in * by done. simpl in *. splits; [done| | |done].
  - unfold lookup_item. simpl. by rewrite jm_get_delete_eq.
  - intros p Hp. apply (ow_queue _ Hwf2) in Hp as (id' & j & Hin' & _). apply elem_of_jm_delete in Hin' as [Hin' Hne].
    destruct (ow_item _ Hwf id' l Hin') as (j' & Hj' & Hid'). by simplify_eq.
Qed.

Lemma clear_wf : outbox_wf clear.
Proof.
  split.
  - constructor.
  - constructor.
  - by intros ? ? ?%not_elem_of_nil.
  - intros p l. split; [by intros ?%not_elem_of_nil|by intros (? & ? & ?%not_elem_of_nil & _)].
  - intros p. constructor.
  - reflexivity.
Qed.

Lemma sample_store_wf : outbox_wf sample_store.
Proof.
  refine (op_step_wf (OpAdd (sample_item "y" High)) (op_step (OpAdd (sample_item "x" Normal)) clear).2 _ _).
  - refine (op_step_wf (OpAdd (sample_item "x" Normal)) clear clear_wf _). reflexivity.
  - reflexivity.
Qed.

Definition claimed_store : DeliveryStore := (claimReadyOutboxItems "w1" 30000 10 sample_store).2.

Lemma expired_lease_reclaimed_witness :
  (1%nat ∈ (claimReadyOutboxItems "w2" 30000 40011 claimed_store).1).
Proof.
  assert (outbox_wf claimed_store) as Hwf by apply (op_step_wf (OpClaim "w1" 30000 10) _ sample_store_wf I).
  pose proof (expired_lease_reclaimed "y" 1 (lock_item 10 "w1" (sample_item "y" High)) "w1" 10 claimed_store "w2" 30000 40011
    Hwf eq_refl eq_refl eq_refl eq_refl eq_refl eq_refl) as Hr.
  destruct (claimReadyOutboxItems "w2" 30000 40011 claimed_store) as [claimed s1]. exact (proj1 Hr).
Defined.

(** Every new item of a history gets an id not in use. *)
Fixpoint fresh_run (os : list outbox_op) (s : DeliveryStore) : Prop :=
  match os with [] => True | o :: os => fresh_id o s ∧ fresh_run os (op_step o s).2 end.

(** the outbox stays consistent: through every sequence of enqueues with new
    ids, hydrations, removals, attempt updates, claims, reclaims, releases and
    acknowledgements, each item of the map is in the queue of its priority
    exactly once, no queue holds anything else, and the counter is the number of
    items. *)
Theorem outbox_consistent os s :
  outbox_wf s → fresh_run os s → outbox_wf (op_run os s).2.
Proof.
  revert s. induction os as [|o os IH]; intros s Hwf Hf; simpl; [done|]. destruct Hf as [Ho Hf].
  pose proof (op_step_wf o s Hwf Ho) as Hwf1. destruct (op_step o s) as [c s1]. simpl in *.
  specialize (IH s1 Hwf1 Hf). by destruct (op_run os s1).
Qed.

Lemma outbox_consistent_witness :
  outbox_wf (op_run [OpClaim "w1" 30000 10; OpMark "y" "w1"; OpAdd (sample_item "y" Low); OpRelease "x" "w1"] sample_store).2.
Proof.
  apply (outbox_consistent [OpClaim "w1" 30000 10; OpMark "y" "w1"; OpAdd (sample_item "y" Low); OpRelease "x" "w1"]).
  - exact sample_store_wf.
  - simpl fresh_run. repeat (split; [first [exact I|vm_compute; reflexivity]|]). exact I.
Defined.

(** ** Histories of dead-letter calls *)

Inductive dlq_op : Type :=
| DlqAdd (id : string) (delivery : WebhookDelivery) (failureReason reasonCode : string) (now : Z)
| DlqProcess (id : string)
| DlqCleanup (olderThanMs now : Z).

Definition dlq_step (o : dlq_op) (s : DeliveryStore) : DeliveryStore :=
  match o with
  | DlqAdd id d reason code now => (addToDeadLetterQueue id d reason code now s).2
  | DlqProcess id => (processDeadLetterQueueItem id s).2
  | DlqCleanup age now => (cleanup age now s).2
  end.

(** The entries a cleanup drops from the queue. *)
Definition dlq_expired (o : dlq_op) (s : DeliveryStore) : Z :=
  match o with
  | DlqCleanup age now => Z.of_nat (length (filter (λ p, dl_createdAt p.2 < now - age) (deadLetterQueue s)))
  | _ => 0
  end.

Fixpoint dlq_run (os : list dlq_op) (s : DeliveryStore) : Z * DeliveryStore :=
  match os with
  | [] => (0, s)
  | o :: os => let '(n, s') := dlq_run os (dlq_step o s) in (dlq_expired o s + n, s')
  end.

(** Every generated id of a history is new. *)
Fixpoint dlq_fresh (os : list dlq_op) (s : DeliveryStore) : Prop :=
  match os with
  | [] => True
  | o :: os =>
      match o with DlqAdd id _ _ _ _ => jm_get id (deadLetterQueue s) = None | _ => True end ∧
      dlq_fresh os (dlq_step o s)
  end.

Definition dlq_size (s : DeliveryStore) : Z := Z.of_nat (length (deadLetterQueue s)).

Lemma length_filter_split {A} (P : A → Prop) `{∀ x, Decision (P x)} (l : list A) :
  Z.of_nat (length (filter P l)) + Z.of_nat (length (filter (λ x, ¬ P x) l)) = Z.of_nat (length l).
Proof. induction l as [|x l IH]; [done|]. rewrite !filter_cons. repeat case_decide; simpl; (lia || done). Qed.

Lemma dlq_step_count o s :
  jm_wf (deadLetterQueue s) →
  match o with DlqAdd id _ _ _ _ => jm_get id (deadLetterQueue s) = None | _ => True end →
  jm_wf (deadLetterQueue (dlq_step o s)) ∧
  dlqItems (metrics (dlq_step o s)) - dlq_size (dlq_step o s) = dlqItems (metrics s) - dlq_size s + dlq_expired o s.
Proof.
  intros Hwf Hf. unfold dlq_size. destruct o as [id d reason code now|id|age now]; simpl in *.
  - split; [by apply jm_wf_set|]. rewrite jm_length_set_fresh by done. lia.
  - unfold processDeadLetterQueueItem. destruct (jm_get id (deadLetterQueue s)) eqn:Hg; simpl; [|split; [done|lia]].
    split; [by apply jm_wf_delete|]. rewrite length_jm_delete by (done || by rewrite Hg).
    assert (0 < length (deadLetterQueue s))%nat by (destruct (deadLetterQueue s); [done|simpl; lia]). lia.
  - split; [by apply jm_wf_filter|].
    pose proof (length_filter_split (λ p : string * DeadLetterQueueItem, dl_createdAt p.2 < now - age) (deadLetterQueue s)). lia.
Qed.

(** the dead-letter counter is the size of the queue only as long as nothing
    expires: through every sequence of additions with new ids, processings and
    cleanups it exceeds the size by exactly the number of entries the cleanups
    dropped, and never recovers. *)
Theorem dlq_counter_drift os s :
  jm_wf (deadLetterQueue s) → dlqItems (metrics s) = dlq_size s → dlq_fresh os s →
  let '(expired, s') := dlq_run os s in dlqItems (metrics s') = dlq_size s' + expired.
Proof.
  intros Hwf Hc. assert (dlqItems (metrics s) - dlq_size s = 0) as Hd by lia. clear Hc.
  enough (∀ k, dlqItems (metrics s) - dlq_size s = k → dlq_fresh os s →
    let '(expired, s') := dlq_run os s in dlqItems (metrics s') = dlq_size s' + expired + k) as He.
  { intros Hf. specialize (He 0 Hd Hf). destruct (dlq_run os s). lia. }
  clear Hd. revert s Hwf. induction os as [|o os IH]; intros s Hwf k Hk Hf; simpl; [lia|]. destruct Hf as [Ho Hf].
  destruct (dlq_step_count o s Hwf Ho) as [Hwf' Hs]. specialize (IH _ Hwf' _ eq_refl Hf).
  destruct (dlq_run os (dlq_step o s)) as [n s']. lia.
Qed.

Definition sample_delivery : WebhookDelivery :=
  {| wd_id := "d1"; wd_deliveryId := "deliv_1"; wd_eventId := "e"; wd_eventType := "stream.created";
     wd_endpointUrl := "u"; wd_status := DFailed; wd_attempts := []; wd_createdAt := 0; wd_updatedAt := 0;
     wd_payload := "p" |}.

(** One entry expires and the counter of the empty queue stays at one. *)
Lemma dlq_counter_drift_witness :
  dlqItems (metrics (dlq_run [DlqAdd "a" sample_delivery "timeout" "timeout" 0; DlqCleanup 10 100] clear).2) = 0 + 1.
Proof.
  exact (dlq_counter_drift [DlqAdd "a" sample_delivery "timeout" "timeout" 0; DlqCleanup 10 100] clear
    (jm_wf_nil) eq_refl (conj eq_refl (conj I I))).
Defined.
