(* ===== verification/Batching.v ===== *)
(** * WebSocket micro-batching ([src/ws/batching.ts], class [BatchAccumulator])

    Accumulators per connection and stream, their flush timers, the early flush
    of a full batch, and the frame with its byte cap.  Timers are identifiers with
    the arguments of their callback; a cancelled timer is no longer pending.  The
    payload of an event is the JSON text [JSON.stringify] gives for it ([None] for
    [undefined]); the frame text and its UTF-8 length are written out.  Metrics
    are left out except as the reply of [deliver], which is the hub's. *)
From Stdlib Require Import Ascii ZArith Lia.
From stdpp Require Import base strings list.
From S2P Require Import Prelude.
Local Open Scope string_scope.
Local Open Scope list_scope.
Local Open Scope Z_scope.

Definition MAX_MESSAGE_BYTES : Z := 4096.

Record BatchedEvent : Type := {
  be_streamId : string;
  be_eventId : string;
  be_payload : option string;
  be_correlationId : option string;
}.

Record ClientBatchAccumulator : Type := {
  events : list BatchedEvent;
  timer : nat;
  createdAt : Z;
}.

(** ** Frames *)

Definition hex_char (n : nat) : ascii := ascii_of_nat (if decide (n < 10)%nat then 48 + n else 87 + n)%nat.

(** A code unit inside a JSON string. *)
Definition json_char (c : ascii) : text :=
  let n := nat_of_ascii c in
  if bool_decide (n = 34%nat) then chars "\" ++ [c]
  else if bool_decide (n = 92%nat) then chars "\\"
  else if bool_decide (n = 8%nat) then chars "\b"
  else if bool_decide (n = 9%nat) then chars "\t"
  else if bool_decide (n = 10%nat) then chars "\n"
  else if bool_decide (n = 12%nat) then chars "\f"
  else if bool_decide (n = 13%nat) then chars "\r"
  else if bool_decide (n < 32)%nat then chars "\u00" ++ [hex_char (n / 16); hex_char (n mod 16)]
  else [c].

Definition quote : text := chars dquote.

(** [JSON.stringify(s)] for a string. *)
Definition json_string (s : string) : text := quote ++ mjoin (json_char <$> chars s) ++ quote.

Definition json_member (k : string) (v : text) : text := json_string k ++ chars ":" ++ v.

Fixpoint json_join (l : list text) : text :=
  match l with [] => [] | [x] => x | x :: l => x ++ chars "," ++ json_join l end.

Definition json_object (l : list text) : text := chars "{" ++ json_join l ++ chars "}".

Definition event_json (e : BatchedEvent) : text :=
  json_object ([json_member "eventId" (json_string (be_eventId e))]
    ++ match be_payload e with Some p => [json_member "payload" (chars p)] | None => [] end
    ++ match be_correlationId e with Some c => [json_member "correlationId" (json_string c)] | None => [] end).

Definition frame (streamId : string) (subset : list BatchedEvent) : text :=
  json_object [json_member "type" (json_string "stream_update_batch");
               json_member "streamId" (json_string streamId);
               json_member "events" (chars "[" ++ json_join (event_json <$> subset) ++ chars "]")].

(** [Buffer.byteLength(t, 'utf8')] for code units below 256. *)
Definition byteLength (t : text) : Z :=
  foldr (λ c n, (if decide (nat_of_ascii c < 128)%nat then 1 else 2) + n) 0 t.

(** The loop that looks for the largest prefix that fits; [fuel] bounds its rounds. *)
Fixpoint bsearch (fuel : nat) (streamId : string) (evs : list BatchedEvent) (lo hi : Z) : Z :=
  match fuel with
  | O => lo
  | S fuel =>
      if lo <? hi then
        let mid := (lo + hi + 1) / 2 in
        if byteLength (frame streamId (take (Z.to_nat mid) evs)) <=? MAX_MESSAGE_BYTES
        then bsearch fuel streamId evs mid hi
        else bsearch fuel streamId evs lo (mid - 1)
      else lo
  end.

Definition safeEvents (streamId : string) (evs : list BatchedEvent) : list BatchedEvent :=
  if MAX_MESSAGE_BYTES <? byteLength (frame streamId evs) then
    take (Z.to_nat (bsearch (length evs) streamId evs 1 (Z.of_nat (length evs) - 1))) evs
  else evs.

#[global] Arguments frame : simpl never.
#[global] Arguments byteLength : simpl never.

(** ** The accumulator *)

Section batching.
Context {W : Type} (flushMs maxSize : Z).

(** [accumulators] and the pending timers with the arguments of their callback;
    [next] names the next timer. *)
Record Batches : Type := {
  accumulators : list (string * ClientBatchAccumulator);
  pending : list (nat * (W * string));
  next : nat;
}.

Definition new_batches : Batches := {| accumulators := []; pending := []; next := 0 |}.

Definition clearTimeout (t : nat) (p : list (nat * (W * string))) : list (nat * (W * string)) := jm_delete t p.

(** A call of [send]: the batch it was given and the events of the frame it hands
    to [deliver], if any. *)
Record Sent : Type := {
  sn_ws : W;
  sn_streamId : string;
  sn_batch : list BatchedEvent;
  sn_frame : option (list BatchedEvent);
  sn_early : bool;
}.

Definition send (isOpen : bool) (ws : W) (streamId : string) (evs : list BatchedEvent) (earlyFlush : bool) : Sent :=
  {| sn_ws := ws; sn_streamId := streamId; sn_batch := evs; sn_early := earlyFlush;
     sn_frame :=
       match evs with
       | [] => None
       | _ =>
           if negb isOpen then None
           else match safeEvents streamId evs with [] => None | safe => Some safe end
       end |}.

(** What the hub answers for a frame, and how many events were coalesced. *)
Definition coalesced (deliver : W → text → nat → bool) (s : Sent) : nat :=
  match sn_frame s with
  | Some safe => if deliver (sn_ws s) (frame (sn_streamId s) safe) (length safe) then length safe else 0%nat
  | None => 0%nat
  end.

Definition batch_key (connectionId streamId : string) : string := connectionId ++ ":" ++ streamId.

(** [isOpen] is the state of the socket when the call runs. *)
Definition enqueue (isOpen : bool) (ws : W) (connectionId : string) (entry : BatchedEvent) (now : Z) (b : Batches) :
    option Sent * Batches :=
  let key := batch_key connectionId (be_streamId entry) in
  let '(acc, p, n) :=
    match jm_get key (accumulators b) with
    | Some acc => (acc, pending b, next b)
    | None => ({| events := []; timer := next b; createdAt := now |}, pending b ++ [(next b, (ws, key))], S (next b))
    end in
  let acc := {| events := events acc ++ [entry]; timer := timer acc; createdAt := createdAt acc |} in
  if maxSize <=? Z.of_nat (length (events acc)) then
    (Some (send isOpen ws (be_streamId entry) (events acc) true),
     {| accumulators := jm_delete key (jm_set key acc (accumulators b)); pending := clearTimeout (timer acc) p; next := n |})
  else (None, {| accumulators := jm_set key acc (accumulators b); pending := p; next := n |}).

(** [key.slice(key.indexOf(':') + 1)] *)
Definition stream_of_key (key : string) : string :=
  match index_of ":"%char (chars key) with
  | Some i => unchars (drop (S i) (chars key))
  | None => key
  end.

Definition flush (isOpen : bool) (ws : W) (key : string) (b : Batches) : option Sent * Batches :=
  match jm_get key (accumulators b) with
  | None => (None, b)
  | Some acc =>
      (Some (send isOpen ws (stream_of_key key) (events acc) false),
       {| accumulators := jm_delete key (accumulators b); pending := pending b; next := next b |})
  end.

(** A pending timer fires. *)
Definition fire (isOpen : bool) (t : nat) (b : Batches) : option Sent * Batches :=
  match jm_get t (pending b) with
  | None => (None, b)
  | Some (ws, key) =>
      flush isOpen ws key {| accumulators := accumulators b; pending := jm_delete t (pending b); next := next b |}
  end.

Definition starts_with (p s : string) : bool := bool_decide (take (length (chars p)) (chars s) = chars p).

Definition clearConnection (connectionId : string) (b : Batches) : Batches :=
  let dropped := filter (λ x, starts_with (connectionId ++ ":") x.1 = true) (accumulators b) in
  {| accumulators := filter (λ x, ¬ starts_with (connectionId ++ ":") x.1 = true) (accumulators b);
     pending := foldr (λ x p, clearTimeout (timer x.2) p) (pending b) dropped; next := next b |}.

Definition clearAll (b : Batches) : Batches :=
  {| accumulators := []; pending := foldr (λ x p, clearTimeout (timer x.2) p) (pending b) (accumulators b);
     next := next b |}.
End batching.
Arguments Batches W : clear implicits.
Arguments Sent W : clear implicits.

(** ** Histories of one hub *)

Inductive batch_op (W : Type) : Type :=
| OpEnqueue (isOpen : bool) (ws : W) (connectionId : string) (entry : BatchedEvent) (now : Z)
| OpFire (isOpen : bool) (t : nat)
| OpClearConnection (connectionId : string)
| OpClearAll.
Arguments OpEnqueue {W}.
Arguments OpFire {W}.
Arguments OpClearConnection {W}.
Arguments OpClearAll {W}.

Section histories.
Context {W : Type} (maxSize : Z).

Definition op_step (o : batch_op W) (b : Batches W) : option (Sent W) * Batches W :=
  match o with
  | OpEnqueue isOpen ws c e now => enqueue maxSize isOpen ws c e now b
  | OpFire isOpen t => fire isOpen t b
  | OpClearConnection c => (None, clearConnection c b)
  | OpClearAll => (None, clearAll b)
  end.

(** The key whose buffer a call can flush. *)
Definition op_key (o : batch_op W) (b : Batches W) : string :=
  match o with
  | OpEnqueue _ _ c e _ => batch_key c (be_streamId e)
  | OpFire _ t => match jm_get t (pending b) with Some (_, key) => key | None => EmptyString end
  | _ => EmptyString
  end.

(** The calls of [send] a history makes, each with the key it flushed. *)
Fixpoint op_run (os : list (batch_op W)) (b : Batches W) : list (string * Sent W) * Batches W :=
  match os with
  | [] => ([], b)
  | o :: os =>
      let '(s, b1) := op_step o b in
      let '(l, b2) := op_run os b1 in (match s with Some x => (op_key o b, x) :: l | None => l end, b2)
  end.

(** The events waiting under [k], the batches flushed under [k], and the events
    a history enqueues under [k]. *)
Definition buffered (k : string) (b : Batches W) : list BatchedEvent :=
  match jm_get k (accumulators b) with Some acc => events acc | None => [] end.

Definition flushed (k : string) (sent : list (string * Sent W)) : list BatchedEvent :=
  mjoin ((λ x, if decide (x.1 = k) then sn_batch x.2 else []) <$> sent).

Definition entry_of (k : string) (o : batch_op W) : list BatchedEvent :=
  match o with
  | OpEnqueue _ _ c e _ => if decide (batch_key c (be_streamId e) = k) then [e] else []
  | _ => []
  end.

Definition enqueued (k : string) (os : list (batch_op W)) : list BatchedEvent := mjoin (entry_of k <$> os).

(** Calls on live connections; a connection id is a UUID, without a colon. *)
Definition live_op (o : batch_op W) : Prop :=
  match o with OpEnqueue _ _ c _ _ => no_colon c | OpFire _ _ => True | _ => False end.
End histories.

(** ** The byte cap *)
Lemma byteLength_app l1 l2 : byteLength (l1 ++ l2) = byteLength l1 + byteLength l2.
Proof. induction l1 as [|c l1 IH]; [done|]. cbn [app byteLength foldr] in *. unfold byteLength in *. simpl. rewrite IH. lia. Qed.

Lemma byteLength_nonneg l : 0 <= byteLength l.
Proof. induction l as [|c l IH]; [done|]. unfold byteLength in *. simpl. case_decide; lia. Qed.

Lemma byteLength_le l1 l2 : byteLength l1 <= byteLength (l1 ++ l2).
Proof. rewrite byteLength_app. pose proof (byteLength_nonneg l2). lia. Qed.

Lemma json_join_cons2 (x y : text) l : json_join (x :: y :: l) = x ++ chars "," ++ json_join (y :: l).
Proof. done. Qed.

Lemma json_join_prefix (l1 l2 : list text) : byteLength (json_join l1) <= byteLength (json_join (l1 ++ l2)).
Proof.
  induction l1 as [|x l1 IH]; [apply byteLength_nonneg|]. destruct l1 as [|y l1].
  - destruct l2 as [|z l2]; [done|]. cbn [app]. rewrite json_join_cons2. apply byteLength_le.
  - cbn [app] in *. rewrite !json_join_cons2, !byteLength_app. lia.
Qed.

Lemma frame_shape s : ∃ pre suf, ∀ l, frame s l = pre ++ json_join (event_json <$> l) ++ suf.
Proof.
  unfold frame, json_object. generalize (json_member "type" (json_string "stream_update_batch")) as m1.
  generalize (json_member "streamId" (json_string s)) as m2. intros m2 m1.
  exists (chars "{" ++ m1 ++ chars "," ++ m2 ++ chars "," ++ json_string "events" ++ chars ":" ++ chars "["), (chars "]" ++ chars "}").
  intros l. rewrite !json_join_cons2. cbn [json_join]. unfold json_member.
  generalize (chars "{") (chars ",") (json_string "events") (chars ":") (chars "[") (chars "]") (chars "}").
  intros. by rewrite <-!app_assoc.
Qed.

Lemma frame_prefix s (l1 l2 : list BatchedEvent) : byteLength (frame s l1) <= byteLength (frame s (l1 ++ l2)).
Proof.
  destruct (frame_shape s) as (pre & suf & Hf). rewrite !Hf, fmap_app, !byteLength_app.
  pose proof (json_join_prefix (event_json <$> l1) (event_json <$> l2)). lia.
Qed.

Definition fits (s : string) (l : list BatchedEvent) : Prop := byteLength (frame s l) <= MAX_MESSAGE_BYTES.

Lemma fits_take s l n m : (n <= m)%nat → fits s (take m l) → fits s (take n l).
Proof.
  intros Hn. unfold fits. pose proof (frame_prefix s (take n l) (drop n (take m l))) as Hf.
  replace (take n l ++ drop n (take m l)) with (take m l) in Hf; [lia|].
  rewrite <-(take_drop n (take m l)) at 1. by rewrite take_take, Nat.min_l by lia.
Qed.

Definition fitsb (s : string) (l : list BatchedEvent) : bool := byteLength (frame s l) <=? MAX_MESSAGE_BYTES.

Lemma fitsb_spec s l : fitsb s l = true ↔ fits s l.
Proof. unfold fitsb, fits. lia. Qed.

(** The search ends at a length whose successor does not fit, and which fits
    unless it is the lower end it started from. *)
Lemma bsearch_spec fuel s l lo hi :
  1 <= lo → lo <= Z.max 1 hi → hi - lo < Z.of_nat fuel → ¬ fits s (take (Z.to_nat (Z.max 1 hi + 1)) l) ∨ hi < 1 →
  let r := bsearch fuel s l lo hi in
  lo <= r <= Z.max lo hi ∧ (r = lo ∨ fits s (take (Z.to_nat r) l)) ∧ (¬ fits s (take (Z.to_nat (r + 1)) l) ∨ hi < 1).
Proof.
  revert lo hi. induction fuel as [|fuel IH]; intros lo hi Hlo Hle Hf Hhi; simpl.
  - assert (Z.max 1 hi = lo) as Hm by lia. rewrite Hm in Hhi. split; [lia|]. split; [by left|done].
  - destruct (Z.ltb_spec lo hi) as [Hlt|Hge].
    + pose proof (Z.div_mod (lo + hi + 1) 2 ltac:(lia)). pose proof (Z.mod_pos_bound (lo + hi + 1) 2 ltac:(lia)).
      set (mid := (lo + hi + 1) / 2) in *. fold (fitsb s (take (Z.to_nat mid) l)).
      destruct (fitsb s (take (Z.to_nat mid) l)) eqn:Hfit.
      * apply fitsb_spec in Hfit. destruct (IH mid hi ltac:(lia) ltac:(lia) ltac:(lia) Hhi) as (Hr & Hr1 & Hr2).
        split; [lia|]. split; [|done]. right. by destruct Hr1 as [-> |].
      * assert (¬ fits s (take (Z.to_nat mid) l)) as Hn by (rewrite <-fitsb_spec; congruence).
        destruct (IH lo (mid - 1)) as (Hr & Hr1 & Hr2); [lia|lia|lia| |].
        { left. replace (Z.max 1 (mid - 1) + 1) with mid by lia. done. }
        split; [lia|]. split; [done|]. destruct Hr2; [by left|lia].
    + assert (Z.max 1 hi = lo) as Hm by lia. rewrite Hm in Hhi. split; [lia|]. split; [by left|done].
Qed.

(** the byte cap: the frame of a batch holds a nonempty prefix of it: the whole
    batch when that fits, otherwise the longest prefix that fits; when not even
    the first event fits the frame is that event alone, above the cap. *)
Theorem frame_cap s evs :
  evs ≠ [] →
  let safe := safeEvents s evs in
  safe ≠ [] ∧ safe `prefix_of` evs ∧ (fits s evs → safe = evs) ∧
  (fits s (take 1 evs) → fits s safe ∧ ∀ l, l `prefix_of` evs → fits s l → (length l <= length safe)%nat) ∧
  (¬ fits s (take 1 evs) → safe = take 1 evs ∧ ¬ fits s safe).
Proof.
  intros Hne. assert (1 <= length evs)%nat as Hlen by (destruct evs; simpl; [done|lia]). unfold safeEvents.
  destruct (Z.ltb_spec MAX_MESSAGE_BYTES (byteLength (frame s evs))) as [Hbig|Hsmall]; cbv zeta; last first.
  { splits; [done|done|done| |].
    - intros _. split; [done|]. intros l [k ->] _. rewrite length_app. lia.
    - intros Hn. exfalso. apply Hn, (fits_take s evs 1 (length evs)); [lia|]. by rewrite firstn_all. }
  assert (¬ fits s evs) as Hnf by (unfold fits; lia).
  destruct (bsearch_spec (length evs) s evs 1 (Z.of_nat (length evs) - 1)) as (Hr & Hr1 & Hr2); [lia|lia|lia| |].
  { destruct (decide (length evs = 1)%nat) as [->|]; [right; lia|left]. replace (Z.to_nat _) with (length evs) by lia.
    by rewrite firstn_all. }
  set (r := bsearch _ s evs 1 _) in *.
  assert (¬ fits s (take (Z.to_nat (r + 1)) evs)) as Hnext.
  { destruct Hr2 as [|Hone]; [done|]. rewrite take_ge by lia. done. }
  splits.
  - intros Hnil. apply (f_equal length) in Hnil. rewrite length_take in Hnil. simpl in Hnil. lia.
  - exists (drop (Z.to_nat r) evs). by rewrite take_drop.
  - done.
  - intros H1. split; [by destruct Hr1 as [-> |]|]. intros l [k ->] Hfit. rewrite length_take.
    destruct (decide (length l <= Z.to_nat r)%nat) as [|Hgt]; [rewrite length_app; lia|]. exfalso.
    apply Hnext, (fits_take s (l ++ k) _ (length l)); [lia|]. by rewrite take_app_length.
  - intros H1. assert (r = 1) as ->; [|done]. destruct Hr1 as [|Hfit]; [done|]. exfalso.
    apply H1, (fits_take s evs 1 (Z.to_nat r)); [lia|done].
Qed.

(** Two events of 2 500 bytes: only the first is sent. *)
Definition big_event (id : string) : BatchedEvent :=
  {| be_streamId := "s"; be_eventId := id; be_payload := Some (unchars (replicate 2500 "1"%char)); be_correlationId := None |}.

Lemma frame_cap_witness :
  fits "s" (safeEvents "s" [big_event "a"; big_event "b"]) ∧ safeEvents "s" [big_event "a"; big_event "b"] ≠ [].
Proof.
  destruct (frame_cap "s" [big_event "a"; big_event "b"] ltac:(discriminate)) as (Hne & _ & _ & Hfit & _).
  split; [|exact Hne]. apply Hfit. unfold fits. apply Z.leb_le. vm_compute. reflexivity.
Defined.

(** ** Buffers and timers *)
Lemma index_colon c r : no_colon c → index_of ":"%char (chars (c ++ String ":" r)) = Some (length (chars c)).
Proof.
  induction c as [|a c IH]; simpl; [done|]. intros [Ha Hc]. rewrite bool_decide_eq_false_2 by done.
  fold (chars (c ++ String ":" r)). by rewrite (IH Hc).
Qed.

Lemma stream_of_batch_key c s : no_colon c → stream_of_key (batch_key c s) = s.
Proof.
  intros Hc. unfold stream_of_key, batch_key.
  change (c ++ ":" ++ s)%string with (c ++ String ":" s)%string. rewrite index_colon by done.
  assert (∀ t, drop (length (chars c)) (chars (c ++ t)) = chars t) as Hd.
  { intros t. clear Hc. unfold chars. induction c; simpl; [by rewrite drop_0|done]. }
  pose proof (Hd (String ":" s)) as H1. apply (f_equal tail) in H1.
  assert (∀ n (l : text), tail (drop n l) = drop (S n) l) as Ht.
  { intros n l. revert n. induction l as [|x l IH]; intros [|n]; simpl; try done. all: by destruct l. }
  rewrite Ht in H1. rewrite H1. simpl. apply unchars_chars.
Qed.

Section buffers.
Context {W : Type} (maxSize : Z).
Implicit Types (b : Batches W) (o : batch_op W) (k : string).

(** Every buffer is below the size of a full batch, holds events of its stream,
    and has one pending timer of its own. *)
Record batches_wf (b : Batches W) : Prop := {
  bw_accs : jm_wf (accumulators b);
  bw_pending : jm_wf (pending b);
  bw_next t w : (t, w) ∈ pending b → (t < next b)%nat;
  bw_timer k acc : jm_get k (accumulators b) = Some acc → ∃ ws, jm_get (timer acc) (pending b) = Some (ws, k);
  bw_owner t ws k : jm_get t (pending b) = Some (ws, k) → ∃ acc, jm_get k (accumulators b) = Some acc ∧ timer acc = t;
  bw_size k acc : jm_get k (accumulators b) = Some acc → 1 <= Z.of_nat (length (events acc)) < maxSize;
  bw_stream k acc : jm_get k (accumulators b) = Some acc →
    ∃ c s, no_colon c ∧ k = batch_key c s ∧ Forall (λ e, be_streamId e = s) (events acc);
}.

Lemma new_batches_wf : batches_wf new_batches.
Proof.
  split; simpl; try done; try constructor. by intros ? ? ?%not_elem_of_nil.
Qed.

(** The entry of [k] and its timer go. *)
Lemma wf_drop b k acc :
  batches_wf b → jm_get k (accumulators b) = Some acc →
  batches_wf {| accumulators := jm_delete k (accumulators b); pending := jm_delete (timer acc) (pending b); next := next b |}.
Proof.
  intros Hwf Hk. assert (∀ k' acc', jm_get k' (jm_delete k (accumulators b)) = Some acc' → k' ≠ k ∧ jm_get k' (accumulators b) = Some acc') as Hget.
  { intros k' acc' Hg. destruct (decide (k = k')) as [->|Hne]; [by rewrite jm_get_delete_eq in Hg|]. by rewrite jm_get_delete_ne in Hg. }
  destruct (bw_timer _ Hwf k acc Hk) as [ws Hws].
  split; simpl.
  - apply jm_wf_delete, Hwf.
  - apply jm_wf_delete, Hwf.
  - intros t w Ht. unfold jm_delete in Ht. apply list_elem_of_filter in Ht as [_ Ht]. by eapply bw_next.
  - intros k' acc' [Hne Hg]%Hget. destruct (bw_timer _ Hwf k' acc' Hg) as [ws' Hws'].
    exists ws'. rewrite jm_get_delete_ne; [done|]. intros Heq. congruence.
  - intros t ws' k' Hp. destruct (decide (timer acc = t)) as [<-|Hne]; [by rewrite jm_get_delete_eq in Hp|].
    rewrite jm_get_delete_ne in Hp by done. destruct (bw_owner _ Hwf t ws' k' Hp) as (acc' & Hg & Ht).
    exists acc'. split; [|done]. rewrite jm_get_delete_ne; [done|]. intros ->. congruence.
  - intros k' acc' [_ Hg]%Hget. by eapply bw_size.
  - intros k' acc' [_ Hg]%Hget. by eapply bw_stream.
Qed.

(** The entry of [k] is replaced by one with the same timer. *)
Lemma wf_replace b k acc acc' :
  batches_wf b → jm_get k (accumulators b) = Some acc → timer acc' = timer acc →
  1 <= Z.of_nat (length (events acc')) < maxSize →
  (∃ c s, no_colon c ∧ k = batch_key c s ∧ Forall (λ e, be_streamId e = s) (events acc')) →
  batches_wf {| accumulators := jm_set k acc' (accumulators b); pending := pending b; next := next b |}.
Proof.
  intros Hwf Hk Ht Hsz Hst.
  assert (∀ k1 a1, jm_get k1 (jm_set k acc' (accumulators b)) = Some a1 →
    k1 = k ∧ a1 = acc' ∨ k1 ≠ k ∧ jm_get k1 (accumulators b) = Some a1) as Hget.
  { intros k1 a1 Hg. destruct (decide (k = k1)) as [<-|Hne]; [rewrite jm_get_set_eq in Hg; simplify_eq; by left|].
    rewrite jm_get_set_ne in Hg by done. by right. }
  split; simpl; try apply Hwf.
  - apply jm_wf_set, Hwf.
  - intros k1 a1 [[-> ->]|[_ Hg]]%Hget; [rewrite Ht|]; by apply (bw_timer _ Hwf).
  - intros t ws k1 Hp. destruct (bw_owner _ Hwf t ws k1 Hp) as (a1 & Hg & Ht1).
    destruct (decide (k = k1)) as [<-|Hne].
    + exists acc'. rewrite jm_get_set_eq. split; [done|]. congruence.
    + exists a1. by rewrite jm_get_set_ne.
  - intros k1 a1 [[-> ->]|[_ Hg]]%Hget; [done|]. by eapply bw_size.
  - intros k1 a1 [[-> ->]|[_ Hg]]%Hget; [done|]. by eapply bw_stream.
Qed.

(** A new entry with a new timer. *)
Lemma wf_add b k acc ws :
  batches_wf b → jm_get k (accumulators b) = None → timer acc = next b →
  1 <= Z.of_nat (length (events acc)) < maxSize →
  (∃ c s, no_colon c ∧ k = batch_key c s ∧ Forall (λ e, be_streamId e = s) (events acc)) →
  batches_wf {| accumulators := jm_set k acc (accumulators b); pending := pending b ++ [(next b, (ws, k))]; next := S (next b) |}.
Proof.
  intros Hwf Hk Ht Hsz Hst.
  assert (jm_get (next b) (pending b) = None) as Hfresh.
  { destruct (jm_get (next b) (pending b)) as [w|] eqn:Hw; [|done]. apply jm_get_elem_of, (bw_next _ Hwf) in Hw. lia. }
  assert (∀ k1 a1, jm_get k1 (jm_set k acc (accumulators b)) = Some a1 →
    k1 = k ∧ a1 = acc ∨ k1 ≠ k ∧ jm_get k1 (accumulators b) = Some a1) as Hget.
  { intros k1 a1 Hg. destruct (decide (k = k1)) as [<-|Hne]; [rewrite jm_get_set_eq in Hg; simplify_eq; by left|].
    rewrite jm_get_set_ne in Hg by done. by right. }
  rewrite <-(jm_set_fresh (next b) (ws, k) (pending b) Hfresh). split; simpl.
  - apply jm_wf_set, Hwf.
  - apply jm_wf_set, Hwf.
  - rewrite jm_set_fresh by done. intros t w. rewrite elem_of_app, list_elem_of_singleton.
    intros [Hp|[= -> _]]; [apply (bw_next _ Hwf) in Hp|]; lia.
  - intros k1 a1 [[-> ->]|[_ Hg]]%Hget; [rewrite Ht, jm_get_set_eq; by exists ws|].
    destruct (bw_timer _ Hwf _ _ Hg) as [ws1 Hp]. exists ws1. rewrite jm_get_set_ne; [done|]. intros Heq. congruence.
  - intros t ws1 k1 Hp. destruct (decide (next b = t)) as [<-|Hne].
    + rewrite jm_get_set_eq in Hp. simplify_eq. exists acc. by rewrite jm_get_set_eq.
    + rewrite jm_get_set_ne in Hp by done. destruct (bw_owner _ Hwf t ws1 k1 Hp) as (a1 & Hg & Ht1). exists a1.
      rewrite jm_get_set_ne; [done|]. intros ->. congruence.
  - intros k1 a1 [[-> ->]|[_ Hg]]%Hget; [done|]. by eapply bw_size.
  - intros k1 a1 [[-> ->]|[_ Hg]]%Hget; [done|]. by eapply bw_stream.
Qed.

(** A batch given to [send]: not empty, at most [maxSize] events, all of its stream. *)
Definition batch_ok (x : Sent W) : Prop :=
  1 <= Z.of_nat (length (sn_batch x)) <= maxSize ∧ Forall (λ e, be_streamId e = sn_streamId x) (sn_batch x).

Lemma buffered_delete k k' b (p : list (nat * (W * string))) n :
  buffered k {| accumulators := jm_delete k' (accumulators b); pending := p; next := n |} =
    if decide (k' = k) then [] else buffered k b.
Proof.
  unfold buffered. simpl. case_decide as Hk; [subst; by rewrite jm_get_delete_eq|]. by rewrite jm_get_delete_ne.
Qed.

Lemma buffered_set k k' acc b (p : list (nat * (W * string))) n :
  buffered k {| accumulators := jm_set k' acc (accumulators b); pending := p; next := n |} =
    if decide (k' = k) then events acc else buffered k b.
Proof.
  unfold buffered. simpl. case_decide as Hk; [subst; by rewrite jm_get_set_eq|]. by rewrite jm_get_set_ne.
Qed.

(** What one call on live connections does. *)
Definition step_ok (o : batch_op W) b : Prop :=
  let '(s, b') := op_step maxSize o b in
  batches_wf b' ∧ (∀ x, s = Some x → batch_ok x) ∧
  ∀ k, flushed k (match s with Some x => [(op_key o b, x)] | None => [] end) ++ buffered k b' = buffered k b ++ entry_of k o.

Lemma fire_ok isOpen t b : batches_wf b → step_ok (OpFire isOpen t) b.
Proof.
  intros Hwf. unfold step_ok. simpl. unfold fire. destruct (jm_get t (pending b)) as [[ws key]|] eqn:Ht; last first.
  { splits; [done|done|]. intros k. by rewrite app_nil_r. }
  destruct (bw_owner _ Hwf t ws key Ht) as (acc & Hk & Hta). unfold flush. simpl. rewrite Hk. splits.
  - subst t. by apply wf_drop.
  - intros x [= <-]. destruct (bw_stream _ Hwf _ _ Hk) as (c & s & Hc & -> & Hs). pose proof (bw_size _ Hwf _ _ Hk).
    split; simpl; [lia|]. by rewrite stream_of_batch_key.
  - intros k. rewrite (buffered_delete k key b). unfold flushed. simpl. rewrite !app_nil_r. unfold buffered.
    case_decide as Hkk; [subst; by rewrite Hk, app_nil_r|done].
Qed.

Lemma enqueue_ok isOpen ws c e now b :
  1 <= maxSize → no_colon c → batches_wf b → step_ok (OpEnqueue isOpen ws c e now) b.
Proof.
  intros Hmax Hc Hwf. unfold step_ok. simpl. unfold enqueue. set (key := batch_key c (be_streamId e)).
  assert (∀ l, Forall (λ e', be_streamId e' = be_streamId e) l →
    ∃ c0 s, no_colon c0 ∧ key = batch_key c0 s ∧ Forall (λ e', be_streamId e' = s) l) as Hstream.
  { intros l Hl. by exists c, (be_streamId e). }
  assert (Forall (λ e', be_streamId e' = be_streamId e) (buffered key b)) as Hbuf.
  { unfold buffered. destruct (jm_get key (accumulators b)) as [acc|] eqn:Hk; [|done].
    destruct (bw_stream _ Hwf _ _ Hk) as (c' & s & Hc' & Heq & Hs). apply (colon_split c c') in Heq as [_ <-]; done. }
  unfold buffered in Hbuf. destruct (jm_get key (accumulators b)) as [acc|] eqn:Hk; simpl.
  - pose proof (bw_size _ Hwf _ _ Hk) as Hsz.
    assert (Forall (λ e', be_streamId e' = be_streamId e) (events acc ++ [e])) as Hall by (apply Forall_app; auto).
    destruct (Z.leb_spec maxSize (Z.of_nat (length (events acc ++ [e])))) as [Hfull|Hfree]; rewrite length_app in *; simpl in *.
    + rewrite jm_delete_set. splits.
      * by apply wf_drop.
      * intros x [= <-]. split; simpl; [rewrite length_app; simpl; lia|done].
      * intros k. rewrite (buffered_delete k key b). unfold flushed. simpl. rewrite app_nil_r. unfold buffered.
        case_decide as Hkk; [subst k; by rewrite Hk, app_nil_r|by rewrite app_nil_r].
    + splits; [|done|].
      * apply (wf_replace b key acc); simpl; rewrite ?length_app; simpl; auto; lia.
      * intros k. rewrite (buffered_set k key). unfold flushed, buffered. simpl.
        case_decide as Hkk; [subst k; by rewrite Hk|by rewrite app_nil_r].
  - destruct (Z.leb_spec maxSize (Z.of_nat 1)) as [Hfull|Hfree].
    + rewrite jm_delete_set. splits.
      * assert (jm_get (next b) (pending b) = None) as Hfresh.
        { destruct (jm_get (next b) (pending b)) as [w|] eqn:Hw; [|done]. apply jm_get_elem_of, (bw_next _ Hwf) in Hw. lia. }
        unfold clearTimeout. rewrite <-(jm_set_fresh (next b) (ws, key)), jm_delete_set, !jm_delete_fresh by done.
        split; simpl; try apply Hwf. intros t w Ht%(bw_next _ Hwf). lia.
      * intros x [= <-]. split; simpl; [lia|by constructor].
      * intros k. rewrite (buffered_delete k key b). unfold flushed. simpl. rewrite app_nil_r. unfold buffered.
        case_decide as Hkk; [subst k; by rewrite Hk|by rewrite app_nil_r].
    + splits; [|done|].
      * apply wf_add; simpl; auto. lia.
      * intros k. rewrite (buffered_set k key). unfold flushed, buffered. simpl.
        case_decide as Hkk; [subst k; by rewrite Hk|by rewrite app_nil_r].
Qed.

Lemma live_step_ok o b : 1 <= maxSize → live_op o → batches_wf b → step_ok o b.
Proof. intros Hmax Ho Hwf. destruct o; try done; [by apply enqueue_ok|by apply fire_ok]. Qed.

Lemma flushed_cons k (x : string * Sent W) l : flushed k (x :: l) = flushed k [x] ++ flushed k l.
Proof. unfold flushed. simpl. by rewrite app_nil_r. Qed.

Lemma live_run_ok os b :
  1 <= maxSize → Forall live_op os → batches_wf b →
  let '(sent, b') := op_run maxSize os b in
  batches_wf b' ∧ Forall (λ x, batch_ok x.2) sent ∧
  ∀ k, flushed k sent ++ buffered k b' = buffered k b ++ enqueued k os.
Proof.
  intros Hmax. revert b. induction os as [|o os IH]; intros b Hos Hwf; simpl.
  { splits; [done|constructor|]. intros k. by rewrite app_nil_r. }
  apply Forall_cons_iff in Hos as [Ho Hos]. pose proof (live_step_ok o b Hmax Ho Hwf) as Hs. unfold step_ok in Hs.
  destruct (op_step maxSize o b) as [s b1]. destruct Hs as (Hwf1 & Hok & Hk). specialize (IH b1 Hos Hwf1).
  destruct (op_run maxSize os b1) as [l b2]. destruct IH as (Hwf2 & Hall & Hk2). splits; [done| |].
  - destruct s as [x|]; [|done]. constructor; [by apply Hok|done].
  - intros k. unfold enqueued. simpl. rewrite (app_assoc (buffered k b)), <-Hk, <-app_assoc.
    fold (enqueued k os). rewrite <-Hk2, app_assoc. f_equal. destruct s; [by rewrite flushed_cons|done].
Qed.

(** batching loses and reorders nothing on live connections: for every
    connection and stream, the batches handed to [send], in order, followed by
    what is still buffered, are exactly the events enqueued, each batch has
    between one and [maxSize] events of the stream it is labelled with, and every
    nonempty buffer has a pending timer whose firing sends all of it. *)
Theorem batches_in_order os :
  1 <= maxSize → Forall live_op os →
  let '(sent, b) := op_run maxSize os new_batches in
  (∀ k, flushed k sent ++ buffered k b = enqueued k os) ∧ Forall (λ x, batch_ok x.2) sent ∧
  (∀ k acc, jm_get k (accumulators b) = Some acc →
     ∃ ws x b', jm_get (timer acc) (pending b) = Some (ws, k) ∧ fire true (timer acc) b = (Some x, b') ∧
       sn_ws x = ws ∧ sn_batch x = events acc ∧ buffered k b' = []).
Proof.
  intros Hmax Hos. pose proof (live_run_ok os new_batches Hmax Hos (new_batches_wf)) as Hr.
  destruct (op_run maxSize os new_batches) as [sent b]. destruct Hr as (Hwf & Hall & Hk). splits; [done|done|].
  intros k acc Hg. destruct (bw_timer _ Hwf k acc Hg) as [ws Hws]. exists ws. unfold fire. rewrite Hws.
  unfold flush. simpl. rewrite Hg. do 2 eexists. splits; try done.
  unfold buffered. simpl. by rewrite jm_get_delete_eq.
Qed.
End buffers.

Definition small_event (stream id : string) : BatchedEvent :=
  {| be_streamId := stream; be_eventId := id; be_payload := Some "{}"; be_correlationId := None |}.

(** Two streams of one connection; the second batch of ["s"] is flushed by its timer. *)
Definition sample_history : list (batch_op string) :=
  [OpEnqueue true "ws" "c1" (small_event "s" "1") 0; OpEnqueue true "ws" "c1" (small_event "t" "2") 1;
   OpEnqueue true "ws" "c1" (small_event "s" "3") 2; OpEnqueue true "ws" "c1" (small_event "s" "4") 3; OpFire true 2].

Lemma batches_in_order_witness :
  let '(sent, b) := op_run 2 sample_history new_batches in
  (∀ k, flushed k sent ++ buffered k b = enqueued k sample_history) ∧ Forall (λ x, batch_ok 2 x.2) sent ∧
  (∀ k acc, jm_get k (accumulators b) = Some acc →
     ∃ ws x b', jm_get (timer acc) (pending b) = Some (ws, k) ∧ fire true (timer acc) b = (Some x, b') ∧
       sn_ws x = ws ∧ sn_batch x = events acc ∧ buffered k b' = []).
Proof.
  apply (batches_in_order 2 sample_history); [lia|]. repeat constructor; discriminate.
Defined.
