(* ===== verification/LongPoll.v ===== *)
(** * Long-poll connection limiter ([src/streams/longPoll.ts])

    The knobs read from the environment, and the module's counters per IP, per API
    key and overall.  An accepted connection is an object with a [released] flag
    that its [release] closes over; the model keeps the issued connections in a
    list.  Metrics are left out and [acceptedAt] is the clock's argument. *)
From Stdlib Require Import Ascii ZArith Lia.
From stdpp Require Import base strings list.
From S2P Require Import Prelude.
Local Open Scope string_scope.
Local Open Scope list_scope.
Local Open Scope Z_scope.

Definition DEFAULT_LONG_POLL_MAX_CONNECTIONS_PER_IP : Z := 10.
Definition DEFAULT_LONG_POLL_MAX_GLOBAL_CONNECTIONS : Z := 1000.
Definition DEFAULT_LONG_POLL_MAX_CONNECTIONS_PER_API_KEY : Z := 50.
Definition DEFAULT_LONG_POLL_MAX_CONNECTION_DURATION_MS : Z := 30000.
Definition DEFAULT_LONG_POLL_RETRY_AFTER_SECONDS : Z := 15.
Definition MAX_LONG_POLL_CONNECTION_LIMIT : Z := 100000.
Definition MAX_LONG_POLL_CONNECTION_DURATION_MS : Z := 86400000.
Definition MAX_LONG_POLL_RETRY_AFTER_SECONDS : Z := 86400.
Definition MAX_SAFE_INTEGER : Z := 9007199254740991.

Inductive RejectionReason : Type := PerIpLimit | PerKeyLimit | GlobalLimit.

Record Limits : Type := {
  maxConnectionsPerIp : Z;
  maxConnectionsPerApiKey : Z;
  maxGlobalConnections : Z;
  maxConnectionDurationMs : Z;
  retryAfterSeconds : Z;
}.

(** ** The knobs *)

Definition normalizeApiKey (apiKey : option string) : option string :=
  match apiKey with
  | None => None
  | Some k => let n := js_trim k in if str_empty n then None else Some n
  end.

Definition normalizeIp (ip : string) : string :=
  let n := js_trim ip in if str_empty n then "unknown" else n.

(** [/^\d+$/.test(l)] *)
Definition all_digits (l : text) : bool := match l with [] => false | _ => forallb is_digit l end.

(** [env] reads one variable. *)
Definition readBoundedPositiveInteger (env : string → option string) (name : string) (fallback min max : Z) : Z :=
  match env name with
  | None => fallback
  | Some raw =>
      let trimmed := js_trim raw in
      if str_empty trimmed then fallback
      else if negb (all_digits (chars trimmed)) then fallback
      else
        let parsed := digits_val (chars trimmed) in
        if (parsed <=? MAX_SAFE_INTEGER) && (min <=? parsed) && (parsed <=? max) then parsed else fallback
  end.

Definition resolveLongPollConnectionLimits (env : string → option string) : Limits :=
  let sseIp := readBoundedPositiveInteger env "SSE_MAX_CONNECTIONS_PER_IP" DEFAULT_LONG_POLL_MAX_CONNECTIONS_PER_IP 1 MAX_LONG_POLL_CONNECTION_LIMIT in
  let sseKey := readBoundedPositiveInteger env "SSE_MAX_CONNECTIONS_PER_API_KEY" DEFAULT_LONG_POLL_MAX_CONNECTIONS_PER_API_KEY 1 MAX_LONG_POLL_CONNECTION_LIMIT in
  let sseGlobal := readBoundedPositiveInteger env "SSE_MAX_GLOBAL_CONNECTIONS" DEFAULT_LONG_POLL_MAX_GLOBAL_CONNECTIONS 1 MAX_LONG_POLL_CONNECTION_LIMIT in
  let sseRetry := readBoundedPositiveInteger env "SSE_RETRY_AFTER_SECONDS" DEFAULT_LONG_POLL_RETRY_AFTER_SECONDS 1 MAX_LONG_POLL_RETRY_AFTER_SECONDS in
  {| maxConnectionsPerIp := readBoundedPositiveInteger env "LONG_POLL_MAX_CONNECTIONS_PER_IP" sseIp 1 MAX_LONG_POLL_CONNECTION_LIMIT;
     maxConnectionsPerApiKey := readBoundedPositiveInteger env "LONG_POLL_MAX_CONNECTIONS_PER_API_KEY" sseKey 1 MAX_LONG_POLL_CONNECTION_LIMIT;
     maxGlobalConnections := readBoundedPositiveInteger env "LONG_POLL_MAX_GLOBAL_CONNECTIONS" sseGlobal 1 MAX_LONG_POLL_CONNECTION_LIMIT;
     maxConnectionDurationMs := readBoundedPositiveInteger env "LONG_POLL_MAX_CONNECTION_DURATION_MS" DEFAULT_LONG_POLL_MAX_CONNECTION_DURATION_MS 1 MAX_LONG_POLL_CONNECTION_DURATION_MS;
     retryAfterSeconds := readBoundedPositiveInteger env "LONG_POLL_RETRY_AFTER_SECONDS" sseRetry 1 MAX_LONG_POLL_RETRY_AFTER_SECONDS |}.

(** ** The counters *)

Record Limiter : Type := {
  activeConnectionsByIp : list (string * Z);
  activeConnections : Z;
  activeConnectionsByApiKey : list (string * Z);
}.

Definition reset : Limiter := {| activeConnectionsByIp := []; activeConnections := 0; activeConnectionsByApiKey := [] |}.

(** [map.get(k) ?? 0] *)
Definition count_of (k : string) (m : list (string * Z)) : Z := default 0 (jm_get k m).

(** An accepted connection with what its [release] closes over. *)
Record Connection : Type := {
  cn_ip : string;
  cn_key : option string;
  cn_acceptedAt : Z;
  cn_limits : Limits;
  cn_released : bool;
}.

Inductive Attempt : Type :=
| Accepted (c : Connection)
| Rejected (reason : RejectionReason) (limits : Limits) (retryAfter active activeForIp : Z).

Definition increment (k : string) (m : list (string * Z)) : list (string * Z) := jm_set k (count_of k m + 1) m.

(** One less, and no entry instead of zero. *)
Definition decrement (k : string) (m : list (string * Z)) : list (string * Z) :=
  if count_of k m <=? 1 then jm_delete k m else jm_set k (count_of k m - 1) m.

Definition tryAcquireLongPollConnection (ip : string) (limits : Limits) (apiKey : option string) (now : Z) (s : Limiter) :
    Attempt * Limiter :=
  let normalizedIp := normalizeIp ip in
  let normalizedKey := normalizeApiKey apiKey in
  let forIp := count_of normalizedIp (activeConnectionsByIp s) in
  let refuse reason := (Rejected reason limits (retryAfterSeconds limits) (activeConnections s) forIp, s) in
  if maxConnectionsPerIp limits <=? forIp then refuse PerIpLimit
  else if match normalizedKey with
          | Some k => maxConnectionsPerApiKey limits <=? count_of k (activeConnectionsByApiKey s)
          | None => false
          end then refuse PerKeyLimit
  else if maxGlobalConnections limits <=? activeConnections s then refuse GlobalLimit
  else
    (Accepted {| cn_ip := normalizedIp; cn_key := normalizedKey; cn_acceptedAt := now; cn_limits := limits; cn_released := false |},
     {| activeConnectionsByIp := jm_set normalizedIp (forIp + 1) (activeConnectionsByIp s);
        activeConnections := activeConnections s + 1;
        activeConnectionsByApiKey :=
          match normalizedKey with
          | Some k => increment k (activeConnectionsByApiKey s)
          | None => activeConnectionsByApiKey s
          end |}).

(** The first call releases, later ones do nothing. *)
Definition release (c : Connection) (s : Limiter) : Connection * Limiter :=
  if cn_released c then (c, s)
  else
    ({| cn_ip := cn_ip c; cn_key := cn_key c; cn_acceptedAt := cn_acceptedAt c; cn_limits := cn_limits c; cn_released := true |},
     {| activeConnectionsByIp := decrement (cn_ip c) (activeConnectionsByIp s);
        activeConnections := Z.max 0 (activeConnections s - 1);
        activeConnectionsByApiKey :=
          match cn_key c with
          | Some k => decrement k (activeConnectionsByApiKey s)
          | None => activeConnectionsByApiKey s
          end |}).

Definition getActiveLongPollConnectionCount (s : Limiter) : Z := activeConnections s.

Definition getActiveLongPollConnectionCountForIp (ip : string) (s : Limiter) : Z :=
  count_of (normalizeIp ip) (activeConnectionsByIp s).

(** ** Histories *)

Inductive poll_op : Type :=
| OpAcquire (ip : string) (limits : Limits) (apiKey : option string) (now : Z)
| OpRelease (i : nat).

(** The issued connections and the counters. *)
Definition op_step (o : poll_op) (x : list Connection * Limiter) : list Connection * Limiter :=
  let '(cs, s) := x in
  match o with
  | OpAcquire ip limits key now =>
      match tryAcquireLongPollConnection ip limits key now s with
      | (Accepted c, s') => (cs ++ [c], s')
      | (Rejected _ _ _ _ _, s') => (cs, s')
      end
  | OpRelease i =>
      match cs !! i with
      | Some c => let '(c', s') := release c s in (<[i := c']> cs, s')
      | None => (cs, s)
      end
  end.

Definition op_run (os : list poll_op) (x : list Connection * Limiter) : list Connection * Limiter :=
  fold_left (λ x o, op_step o x) os x.

(** The connections not released that satisfy [p]. *)
Definition open_count (p : Connection → bool) (cs : list Connection) : Z :=
  Z.of_nat (length (List.filter (λ c, negb (cn_released c) && p c) cs)).

Definition on_ip (ip : string) (c : Connection) : bool := bool_decide (cn_ip c = ip).
Definition on_key (k : string) (c : Connection) : bool := bool_decide (cn_key c = Some k).
Definition any (c : Connection) : bool := true.

(** ** The counters count the open connections *)
Lemma open_count_app p cs c :
  open_count p (cs ++ [c]) = open_count p cs + (if negb (cn_released c) && p c then 1 else 0).
Proof. unfold open_count. rewrite List.filter_app, length_app. simpl. destruct (negb (cn_released c) && p c); simpl; lia. Qed.

Lemma open_count_insert p cs i c c' :
  cs !! i = Some c →
  open_count p (<[i := c']> cs) + (if negb (cn_released c) && p c then 1 else 0)
    = open_count p cs + (if negb (cn_released c') && p c' then 1 else 0).
Proof.
  unfold open_count. revert i. induction cs as [|x cs IH]; intros [|i] Hi; simplify_eq/=.
  - destruct (negb (cn_released c) && p c), (negb (cn_released c') && p c'); simpl; lia.
  - specialize (IH i Hi). destruct (negb (cn_released x) && p x); simpl; lia.
Qed.

Lemma open_count_nonneg p cs : 0 <= open_count p cs.
Proof. unfold open_count. lia. Qed.

Lemma open_count_pos p cs i c : cs !! i = Some c → cn_released c = false → p c = true → 1 <= open_count p cs.
Proof.
  intros Hi Hr Hp. pose proof (open_count_insert p cs i c c Hi) as Hc.
  pose proof (open_count_insert p cs i c
    {| cn_ip := cn_ip c; cn_key := cn_key c; cn_acceptedAt := 0; cn_limits := cn_limits c; cn_released := true |} Hi) as Hd.
  rewrite Hr, Hp in Hd. simpl in Hd. pose proof (open_count_nonneg p (<[i := {| cn_ip := cn_ip c; cn_key := cn_key c; cn_acceptedAt := 0; cn_limits := cn_limits c; cn_released := true |}]> cs)). lia.
Qed.

Lemma count_of_set k k' v m : count_of k (jm_set k' v m) = if decide (k' = k) then v else count_of k m.
Proof. unfold count_of. case_decide as Hk; [subst; by rewrite jm_get_set_eq|by rewrite jm_get_set_ne]. Qed.

Lemma count_of_delete k k' m : count_of k (jm_delete k' m) = if decide (k' = k) then 0 else count_of k m.
Proof. unfold count_of. case_decide as Hk; [subst; by rewrite jm_get_delete_eq|by rewrite jm_get_delete_ne]. Qed.

Lemma count_of_increment k k' m : count_of k (increment k' m) = count_of k m + (if decide (k' = k) then 1 else 0).
Proof. unfold increment. rewrite count_of_set. case_decide; subst; lia. Qed.

Lemma count_of_decrement k k' m :
  1 <= count_of k' m → count_of k (decrement k' m) = count_of k m - (if decide (k' = k) then 1 else 0).
Proof.
  intros Hk. unfold decrement. destruct (Z.leb_spec (count_of k' m) 1); rewrite ?count_of_delete, ?count_of_set;
    case_decide; subst; lia.
Qed.

Record exact_counts (cs : list Connection) (s : Limiter) : Prop := {
  ec_ip ip : count_of ip (activeConnectionsByIp s) = open_count (on_ip ip) cs;
  ec_key k : count_of k (activeConnectionsByApiKey s) = open_count (on_key k) cs;
  ec_all : activeConnections s = open_count any cs;
}.

(** The attempt is within every limit that applies to it. *)
Definition within (limits : Limits) (ip : string) (key : option string) (cs : list Connection) : Prop :=
  open_count (on_ip (normalizeIp ip)) cs < maxConnectionsPerIp limits ∧
  (∀ k, normalizeApiKey key = Some k → open_count (on_key k) cs < maxConnectionsPerApiKey limits) ∧
  open_count any cs < maxGlobalConnections limits.

Lemma acquire_spec ip limits key now cs s :
  exact_counts cs s →
  match tryAcquireLongPollConnection ip limits key now s with
  | (Accepted c, s') =>
      within limits ip key cs ∧ exact_counts (cs ++ [c]) s' ∧
      cn_ip c = normalizeIp ip ∧ cn_key c = normalizeApiKey key ∧ cn_released c = false
  | (Rejected _ _ _ _ _, s') => ¬ within limits ip key cs ∧ s' = s
  end.
Proof.
  intros [Hip Hkey Hall]. unfold tryAcquireLongPollConnection, within. rewrite Hip.
  destruct (Z.leb_spec (maxConnectionsPerIp limits) (open_count (on_ip (normalizeIp ip)) cs)); [split; [lia|done]|].
  destruct (match normalizeApiKey key with Some k => _ | None => false end) eqn:Hk.
  { split; [|done]. intros (_ & Hw & _). destruct (normalizeApiKey key) as [k|]; [|done].
    specialize (Hw k eq_refl). rewrite Hkey in Hk. lia. }
  rewrite Hall. destruct (Z.leb_spec (maxGlobalConnections limits) (open_count any cs)); [split; [lia|done]|].
  simpl. splits; try done.
  - intros k Hn. rewrite Hn, Hkey in Hk. lia.
  - split; simpl.
    + intros ip'. rewrite open_count_app, count_of_set, Hip. cbn [cn_released negb andb].
      destruct (on_ip ip' (Build_Connection _ _ _ _ _)) eqn:Ho; unfold on_ip in Ho; simpl in Ho.
      * apply bool_decide_eq_true in Ho. subst ip'. rewrite decide_True by done. lia.
      * apply bool_decide_eq_false in Ho. rewrite decide_False by done. lia.
    + intros k. rewrite open_count_app. cbn [cn_released negb andb].
      destruct (on_key k (Build_Connection _ _ _ _ _)) eqn:Ho; unfold on_key in Ho; simpl in Ho.
      * apply bool_decide_eq_true in Ho. rewrite Ho, count_of_increment, Hkey, decide_True by done. lia.
      * apply bool_decide_eq_false in Ho. destruct (normalizeApiKey key) as [k'|]; [|rewrite Hkey; lia].
        rewrite count_of_increment, Hkey, decide_False by congruence. lia.
    + rewrite open_count_app. simpl. lia.
Qed.

Lemma release_spec cs s i c :
  exact_counts cs s → cs !! i = Some c → exact_counts (<[i := (release c s).1]> cs) (release c s).2.
Proof.
  intros [Hip Hkey Hall] Hi. unfold release. destruct (cn_released c) eqn:Hr; simpl.
  { rewrite list_insert_id by done. by split. }
  pose proof (λ p, open_count_pos p cs i c Hi Hr) as Hpos.
  pose proof (λ p c', open_count_insert p cs i c c' Hi) as Hins. rewrite Hr in Hins. simpl in Hins.
  assert (1 <= count_of (cn_ip c) (activeConnectionsByIp s)) as Hone.
  { rewrite Hip. apply Hpos. unfold on_ip. by apply bool_decide_eq_true. }
  split; simpl.
  - intros ip. match goal with |- _ = open_count _ (<[i := ?c']> cs) => specialize (Hins (on_ip ip) c') end. simpl in Hins.
    rewrite count_of_decrement, Hip by done.
    case_decide as He; destruct (on_ip ip c) eqn:Ho; unfold on_ip in Ho;
      [lia|by apply bool_decide_eq_false in Ho|by apply bool_decide_eq_true in Ho|lia].
  - intros k. match goal with |- _ = open_count _ (<[i := ?c']> cs) => specialize (Hins (on_key k) c') end. simpl in Hins.
    destruct (on_key k c) eqn:Ho; unfold on_key in Ho; [apply bool_decide_eq_true in Ho|apply bool_decide_eq_false in Ho].
    + rewrite Ho in *. rewrite count_of_decrement, Hkey, decide_True; [lia|done|].
      rewrite Hkey. apply Hpos. unfold on_key. by apply bool_decide_eq_true.
    + destruct (cn_key c) as [k'|] eqn:Hk; [|rewrite Hkey; lia].
      rewrite count_of_decrement, Hkey, decide_False; [lia|congruence|].
      rewrite Hkey. apply Hpos. unfold on_key. by apply bool_decide_eq_true.
  - match goal with |- _ = open_count _ (<[i := ?c']> cs) => specialize (Hins any c') end. simpl in Hins.
    pose proof (Hpos any eq_refl). rewrite Hall. lia.
Qed.

Lemma op_step_counts o cs s : exact_counts cs s → exact_counts (op_step o (cs, s)).1 (op_step o (cs, s)).2.
Proof.
  intros Hc. destruct o as [ip limits key now|i]; simpl.
  - pose proof (acquire_spec ip limits key now cs s Hc) as Ha.
    destruct (tryAcquireLongPollConnection ip limits key now s) as [[c|] s']; [by destruct Ha as (_ & ? & _)|].
    by destruct Ha as [_ ->].
  - destruct (cs !! i) as [c|] eqn:Hi; [|done]. pose proof (release_spec cs s i c Hc Hi) as Hr. by destruct (release c s).
Qed.

Lemma op_run_counts os cs s : exact_counts cs s → exact_counts (op_run os (cs, s)).1 (op_run os (cs, s)).2.
Proof.
  revert cs s. induction os as [|o os IH]; intros cs s Hc; [done|]. unfold op_run in *. cbn [fold_left].
  pose proof (op_step_counts o cs s Hc) as Hs. destruct (op_step o (cs, s)) as [cs' s']. by apply IH.
Qed.

Lemma reset_counts : exact_counts [] reset.
Proof. by split. Qed.

(** the limiter is exact: after any sequence of attempts and releases, repeated
    releases included, the counters are the numbers of open connections overall
    and of each IP, and the next attempt is accepted exactly when the IP, the API
    key if it has one, and the process are below their limits. *)
Theorem limiter_exact os ip limits key now :
  let '(cs, s) := op_run os ([], reset) in
  getActiveLongPollConnectionCount s = open_count any cs ∧
  (∀ ip', getActiveLongPollConnectionCountForIp ip' s = open_count (on_ip (normalizeIp ip')) cs) ∧
  ((∃ c, (tryAcquireLongPollConnection ip limits key now s).1 = Accepted c) ↔ within limits ip key cs).
Proof.
  pose proof (op_run_counts os [] reset reset_counts) as Hc. destruct (op_run os ([], reset)) as [cs s]. simpl in Hc.
  splits; [apply Hc|intros; apply Hc|]. pose proof (acquire_spec ip limits key now cs s Hc) as Ha.
  destruct (tryAcquireLongPollConnection ip limits key now s) as [[c|] s']; simpl.
  - destruct Ha as [Hw _]. split; [done|]. intros _. by exists c.
  - destruct Ha as [Hw _]. split; [by intros [? ?]|done].
Qed.

Definition uses (limits : Limits) (o : poll_op) : Prop :=
  match o with OpAcquire _ l _ _ => l = limits | OpRelease _ => True end.

(** All counts are within the limits. *)
Definition bounded (limits : Limits) (cs : list Connection) : Prop :=
  (∀ ip, open_count (on_ip ip) cs <= maxConnectionsPerIp limits) ∧
  (∀ k, open_count (on_key k) cs <= maxConnectionsPerApiKey limits) ∧
  open_count any cs <= maxGlobalConnections limits.

Lemma open_count_release p cs s i c : cs !! i = Some c → open_count p (<[i := (release c s).1]> cs) <= open_count p cs.
Proof.
  intros Hi. unfold release. destruct (cn_released c) eqn:Hr; simpl; [by rewrite list_insert_id|].
  match goal with |- open_count _ (<[i := ?c']> cs) <= _ => pose proof (open_count_insert p cs i c c' Hi) as Hins end.
  rewrite Hr in Hins. simpl in Hins. destruct (p c); lia.
Qed.

Lemma bounded_step limits o cs s :
  exact_counts cs s → uses limits o → bounded limits cs → bounded limits (op_step o (cs, s)).1.
Proof.
  intros Hc Ho (Hip & Hkey & Hall). destruct o as [ip l key now|i]; simpl in *.
  - subst l. pose proof (acquire_spec ip limits key now cs s Hc) as Ha.
    destruct (tryAcquireLongPollConnection ip limits key now s) as [[c|] s']; [|done]. simpl.
    destruct Ha as ((Hw1 & Hw2 & Hw3) & _ & Hcip & Hckey & Hr).
    unfold bounded. splits; intros; rewrite open_count_app, Hr; cbn [negb andb].
    + destruct (on_ip ip0 c) eqn:He; unfold on_ip in He; [|specialize (Hip ip0); lia].
      apply bool_decide_eq_true in He. subst ip0. rewrite Hcip. lia.
    + destruct (on_key k c) eqn:He; unfold on_key in He; [|specialize (Hkey k); lia].
      apply bool_decide_eq_true in He. specialize (Hw2 k). rewrite <-Hckey in Hw2. specialize (Hw2 He). lia.
    + simpl. lia.
  - destruct (cs !! i) as [c|] eqn:Hi; [|done]. pose proof (λ p, open_count_release p cs s i c Hi) as Hle.
    destruct (release c s) as [c' s']. simpl in *.
    unfold bounded. splits; intros; (etrans; [apply Hle|]); auto.
Qed.

Lemma bounded_run limits os cs s :
  exact_counts cs s → Forall (uses limits) os → bounded limits cs → bounded limits (op_run os (cs, s)).1.
Proof.
  revert cs s. induction os as [|o os IH]; intros cs s Hc Hos Hb; [done|]. apply Forall_cons_iff in Hos as [Ho Hos].
  unfold op_run in *. cbn [fold_left]. pose proof (op_step_counts o cs s Hc) as Hc'.
  pose proof (bounded_step limits o cs s Hc Ho Hb) as Hb'. destruct (op_step o (cs, s)) as [cs' s']. by apply IH.
Qed.

Lemma read_bounds env name fallback min max :
  min <= fallback <= max → min <= readBoundedPositiveInteger env name fallback min max <= max.
Proof.
  intros Hf. unfold readBoundedPositiveInteger. destruct (env name); [|done].
  destruct (str_empty _); [done|]. destruct (negb _); [done|].
  destruct ((digits_val _ <=? MAX_SAFE_INTEGER) && _ && _) eqn:He; [|done].
  apply andb_true_iff in He as [He Hmax]. apply andb_true_iff in He as [_ Hmin]. lia.
Qed.

(** capacity: whatever the environment holds, every knob is between 1 and its
    ceiling, and no sequence of attempts under these knobs and of releases ever
    has more open connections than they allow, per IP, per API key or overall. *)
Theorem capacity_bounded env os :
  let limits := resolveLongPollConnectionLimits env in
  (1 <= maxConnectionsPerIp limits <= 100000 ∧ 1 <= maxConnectionsPerApiKey limits <= 100000 ∧
   1 <= maxGlobalConnections limits <= 100000 ∧ 1 <= maxConnectionDurationMs limits <= 86400000 ∧
   1 <= retryAfterSeconds limits <= 86400) ∧
  (Forall (uses limits) os → bounded limits (op_run os ([], reset)).1).
Proof.
  intros limits.
  assert (1 <= maxConnectionsPerIp limits <= 100000 ∧ 1 <= maxConnectionsPerApiKey limits <= 100000 ∧
    1 <= maxGlobalConnections limits <= 100000 ∧ 1 <= maxConnectionDurationMs limits <= 86400000 ∧
    1 <= retryAfterSeconds limits <= 86400) as Hl.
  { unfold limits, resolveLongPollConnectionLimits. simpl.
    split; [|split; [|split; [|split]]]; apply read_bounds; try apply read_bounds; by vm_compute. }
  split; [done|]. intros Hos. apply bounded_run; [apply reset_counts|done|].
  destruct Hl as (H1 & H2 & H3 & _). split; [intros; change (0 <= maxConnectionsPerIp limits); lia|].
  split; [intros; change (0 <= maxConnectionsPerApiKey limits); lia|change (0 <= maxGlobalConnections limits); lia].
Qed.

(** A full address, a release that frees a slot, and a second release of it. *)
Definition no_env : string → option string := λ _, None.
Definition tight : Limits :=
  {| maxConnectionsPerIp := 1; maxConnectionsPerApiKey := 5; maxGlobalConnections := 5; maxConnectionDurationMs := 1000; retryAfterSeconds := 1 |}.
Example release_once :
  (op_run [OpAcquire " 1.2.3.4" tight (Some "k") 0; OpAcquire "1.2.3.4" tight None 1; OpAcquire "5.6.7.8" tight (Some "k") 2;
           OpRelease 0; OpRelease 0] ([], reset)).2 =
  {| activeConnectionsByIp := [("5.6.7.8", 1)]; activeConnections := 1; activeConnectionsByApiKey := [("k", 1)] |}.
Proof. vm_compute. reflexivity. Qed.

Definition default_limits : Limits := resolveLongPollConnectionLimits no_env.

Lemma capacity_bounded_witness :
  bounded default_limits (op_run [OpAcquire "1.2.3.4" default_limits None 0; OpRelease 0; OpAcquire "1.2.3.4" default_limits (Some "k") 1] ([], reset)).1.
Proof.
  apply (capacity_bounded no_env). repeat constructor.
Defined.
