(* ===== verification/StellarAddress.v ===== *)
(** * StrKey addresses ([src/validation/stellarAddress.ts],
    [src/validation/stellarAddressValidator.ts])

    The base-32 decoder with its 32-bit arithmetic, the CRC16-XModem checksum,
    the classification of an address and the validator that asks the network,
    with its Redis cache.

    The decoder is proved equal to reading the string as a number in base 32,
    although its accumulator overflows; the checksum is proved to be the
    remainder of the polynomial division over GF(2), from which follows that a
    mistyped character, or two adjacent ones, never give another valid address.

    The answer of [StellarRpcService.accountExists] is an argument. *)
From Stdlib Require Import Ascii ZArith Lia.
From stdpp Require Import base gmap strings list numbers.
From S2P Require Import Prelude Redis.
Local Open Scope string_scope.
Local Open Scope list_scope.
Local Open Scope Z_scope.

(** ** 32-bit integers: the bitwise operators of JavaScript *)

Definition to_int32 (z : Z) : Z :=
  let r := z mod 2 ^ 32 in if r <? 2 ^ 31 then r else r - 2 ^ 32.

Definition i32_shl (a n : Z) : Z := to_int32 (Z.shiftl a n).

(** ** Constants *)

Definition STELLAR_STRKEY_LENGTH : nat := 56.
Definition STELLAR_STRKEY_DECODED_LENGTH : nat := 35.
Definition STELLAR_STRKEY_PAYLOAD_LENGTH : nat := 33.
Definition STELLAR_STRKEY_ALPHABET : text := chars "ABCDEFGHIJKLMNOPQRSTUVWXYZ234567".
Definition STELLAR_ACCOUNT_CACHE_PREFIX : string := "fluxora:stellar:account:".

Definition STELLAR_MUXED_STRKEY_LENGTH : nat := 69.
Definition STELLAR_MUXED_STRKEY_DECODED_LENGTH : nat := 43.
Definition STELLAR_MUXED_STRKEY_PAYLOAD_LENGTH : nat := 41.

(** [[A-Z2-7]] *)
Definition base32_char (c : Ascii.ascii) : bool :=
  let n := Z.of_nat (Ascii.nat_of_ascii c) in
  ((65 <=? n) && (n <=? 90)) || ((50 <=? n) && (n <=? 55)).

(** [/^G[A-Z2-7]{55}$/] *)
Definition STELLAR_ACCOUNT_PUBLIC_KEY_REGEX (s : text) : bool :=
  match s with
  | c :: s' => bool_decide (c = "G"%char) && bool_decide (length s' = 55%nat) && forallb base32_char s'
  | [] => false
  end.

Inductive StellarAddressKind : Type :=
| account | muxed | contract | seed | preAuthTx | hashX | invalid.

#[export] Instance StellarAddressKind_eq_dec : EqDecision StellarAddressKind.
Proof. solve_decision. Defined.

Definition STELLAR_STRKEY_VERSION (k : StellarAddressKind) : option Z :=
  match k with
  | account => Some (i32_shl 6 3)
  | muxed => Some (i32_shl 12 3)
  | contract => Some (i32_shl 2 3)
  | seed => Some (i32_shl 18 3)
  | preAuthTx => Some (i32_shl 19 3)
  | hashX => Some (i32_shl 23 3)
  | invalid => None
  end.

Record AddressClassification : Type := {
  kind : StellarAddressKind;
  valid : bool;
  reason : option string;
}.

(** ** Decoding *)

(** The loop of [decodeStellarBase32]. *)
Fixpoint decode_loop (value : text) (bytes : list Z) (bits current : Z) : option (list Z) :=
  match value with
  | [] => Some bytes
  | char :: value' =>
      match index_of char STELLAR_STRKEY_ALPHABET with
      | None => None
      | Some digit =>
          let current := Z.lor (i32_shl current 5) (Z.of_nat digit) in
          let bits := bits + 5 in
          if 8 <=? bits
          then decode_loop value' (bytes ++ [Z.land (Z.shiftr current (bits - 8)) 255]) (bits - 8) current
          else decode_loop value' bytes bits current
      end
  end.

Definition decodeStellarBase32 (value : text) : option (list Z) := decode_loop value [] 0 0.

(** ** Checksum *)

(** One round of the inner loop. *)
Definition crc_bit (crc : Z) : Z :=
  let crc := if negb (Z.land crc 0x8000 =? 0) then Z.lxor (i32_shl crc 1) 0x1021 else i32_shl crc 1 in
  Z.land crc 0xffff.

Definition crc_byte (crc byte : Z) : Z := Nat.iter 8 crc_bit (Z.lxor crc (i32_shl byte 8)).

Definition crc16XModem (bytes : list Z) : Z := fold_left crc_byte bytes 0.

(** ** Classification *)

Definition VERSION_TO_KIND (v : Z) : option StellarAddressKind :=
  list_find (λ k, STELLAR_STRKEY_VERSION k = Some v) [account; muxed; contract; seed; preAuthTx; hashX]
    ≫= λ p, Some p.2.

(** [n.toString(16)] of a byte. *)
Definition hex_digit (n : Z) : Ascii.ascii :=
  Ascii.ascii_of_nat (Z.to_nat (if n <? 10 then 48 + n else 87 + n)).
Definition hex_byte (n : Z) : string :=
  unchars (if n <? 16 then [hex_digit n] else [hex_digit (n / 16); hex_digit (n mod 16)]).

Definition rejected (r : string) : AddressClassification :=
  {| kind := invalid; valid := false; reason := Some r |}.

(** [decoded[i]!] under the [|] operator, which reads [undefined] as 0. *)
Definition byte_at (l : list Z) (i : nat) : Z := default 0 (l !! i).

Definition classifyStellarAddress (value : jsval) : AddressClassification :=
  match value with
  | JStr s =>
      let value := chars s in
      let isMuxed := bool_decide (length value = STELLAR_MUXED_STRKEY_LENGTH) in
      let expectedLength := if isMuxed then STELLAR_MUXED_STRKEY_LENGTH else STELLAR_STRKEY_LENGTH in
      if negb (bool_decide (length value = expectedLength)) then
        rejected ("expected " ++ int_string (Z.of_nat expectedLength) ++ " characters, got "
                  ++ int_string (Z.of_nat (length value)))%string
      else if negb (forallb base32_char value && negb (bool_decide (value = []))) then
        rejected "address contains characters outside the Stellar base32 alphabet (expected uppercase A-Z and 2-7)"
      else
        match decodeStellarBase32 value with
        | None => rejected "base32 decoding failed"
        | Some decoded =>
            let expectedDecodedLength :=
              if isMuxed then STELLAR_MUXED_STRKEY_DECODED_LENGTH else STELLAR_STRKEY_DECODED_LENGTH in
            if negb (bool_decide (length decoded = expectedDecodedLength)) then rejected "base32 decoding failed"
            else
              let versionByte := byte_at decoded 0 in
              match VERSION_TO_KIND versionByte with
              | None => rejected ("unrecognized StrKey version byte 0x" ++ hex_byte versionByte)%string
              | Some k =>
                  let payloadLength :=
                    if isMuxed then STELLAR_MUXED_STRKEY_PAYLOAD_LENGTH else STELLAR_STRKEY_PAYLOAD_LENGTH in
                  let payload := take payloadLength decoded in
                  let expectedChecksum := crc16XModem payload in
                  let actualChecksum :=
                    Z.lor (byte_at decoded payloadLength) (i32_shl (byte_at decoded (payloadLength + 1)) 8) in
                  if negb (expectedChecksum =? actualChecksum)
                  then {| kind := k; valid := false; reason := Some "StrKey checksum mismatch" |}
                  else {| kind := k; valid := true; reason := None |}
              end
        end
  | _ => rejected "address must be a string"
  end.

Definition isValidStellarAccountAddress (value : jsval) : bool :=
  let classification := classifyStellarAddress value in
  valid classification && bool_decide (kind classification = account).

(** ** The validator *)

(** What [accountExists] does: it answers, or throws because the circuit
    breaker is open, or throws for another reason. *)
Inductive RpcAnswer : Type := RpcExists (exists_ : bool) | RpcCircuitOpen | RpcError.

Inductive RejectReason : Type := malformed | wrong_network.

Record AddressValidationResult : Type := {
  result_valid : bool;
  missingAddresses : option (list string);
  reasons : option (list (string * RejectReason));
}.

Section validator.
(** The Redis client is optional. *)
Context (redis : bool) (cacheTtlSeconds : Z) (accountExists : string → RpcAnswer).

Definition getCached (address : string) {B} (k : option bool → prog B) : prog B :=
  if negb redis then k None
  else awaiting (RGet (STELLAR_ACCOUNT_CACHE_PREFIX ++ address)) (λ _, k None)
         (λ v, k (if bool_decide (v = Some "1") then Some true else None)).

Definition setCached (address : string) {B} (k : prog B) : prog B :=
  if negb redis then k
  else awaiting (RSet (STELLAR_ACCOUNT_CACHE_PREFIX ++ address) "1" cacheTtlSeconds) (λ _, k) (λ _, k).

(** [Some b] for [true] and [false], [None] for [null]. *)
Definition checkAddress (address : string) : prog (option bool) :=
  getCached address (λ cached,
    if bool_decide (cached = Some true) then Ret (Some true)
    else match accountExists address with
         | RpcExists true => setCached address (Ret (Some true))
         | RpcExists false => Ret (Some false)
         | RpcCircuitOpen => Ret None
         | RpcError => Ret None
         end).
End validator.

(** [validate] up to the calls of [checkAddress]: the rejection of malformed
    addresses, which makes no call. *)
Definition validate_format (sender recipient : string) : option AddressValidationResult :=
  let bad := filter (λ a, isValidStellarAccountAddress (JStr a) = false) [sender; recipient] in
  if bool_decide (bad = []) then None
  else Some {| result_valid := false; missingAddresses := Some bad;
               reasons := Some (fold_left (λ m a, jm_set a malformed m) bad []) |}.

(** [validate] after both calls of [checkAddress], which run concurrently. *)
Definition validate_existence (sender recipient : string) (senderExists recipientExists : option bool)
    : AddressValidationResult :=
  let missing := (if bool_decide (senderExists = Some false) then [sender] else [])
                 ++ (if bool_decide (recipientExists = Some false) then [recipient] else []) in
  if bool_decide (missing = []) then {| result_valid := true; missingAddresses := None; reasons := None |}
  else {| result_valid := false; missingAddresses := Some missing;
          reasons := Some (fold_left (λ m a, jm_set a wrong_network m) missing []) |}.

#[global] Arguments to_int32 : simpl never.
#[global] Arguments i32_shl : simpl never.
#[global] Arguments crc_bit : simpl never.
#[global] Arguments crc_byte : simpl never.
#[global] Arguments STELLAR_STRKEY_ALPHABET : simpl never.

(** ** Bits and 32-bit integers *)

(** The goal is an equality of integers built from [Z.lxor], shifts and [Z.land]
    on which the two sides agree bit by bit. *)
Ltac bitwise :=
  let n := fresh "n" in let Hn := fresh "Hn" in
  apply Z.bits_inj'; intros n Hn; repeat first [rewrite Z.lxor_spec | rewrite Z.land_spec | rewrite Z.lor_spec].

Lemma small_bits n a : 0 <= a → 0 <= n → (a < 2 ^ n ↔ ∀ i, n <= i → Z.testbit a i = false).
Proof.
  intros Ha Hn. split.
  - intros Hlt i Hi. destruct (Z.eq_dec a 0) as [->|]; [apply Z.testbit_0_l|].
    apply Z.bits_above_log2; [done|]. assert (Z.log2 a < n) by (apply Z.log2_lt_pow2; lia). lia.
  - intros Hb. assert (a = a mod 2 ^ n) as ->.
    { apply Z.bits_inj'. intros i Hi. destruct (Z.lt_ge_cases i n).
      - by rewrite Z.mod_pow2_bits_low.
      - rewrite Z.mod_pow2_bits_high by lia. by apply Hb. }
    apply Z.mod_pos_bound. lia.
Qed.

Lemma lxor_small n a b : 0 <= n → 0 <= a < 2 ^ n → 0 <= b < 2 ^ n → 0 <= Z.lxor a b < 2 ^ n.
Proof.
  intros Hn Ha Hb. assert (0 <= Z.lxor a b) as H0 by (apply Z.lxor_nonneg; lia).
  split; [done|]. apply small_bits; [done..|]. intros i Hi. rewrite Z.lxor_spec.
  by rewrite (proj1 (small_bits n a ltac:(lia) Hn) ltac:(lia)), (proj1 (small_bits n b ltac:(lia) Hn) ltac:(lia)).
Qed.

Lemma to_int32_eqm z : ∃ q, to_int32 z = z + 2 ^ 32 * q.
Proof.
  unfold to_int32. pose proof (Z.div_mod z (2 ^ 32) ltac:(lia)).
  cmp; [exists (- (z / 2 ^ 32))|exists (- (z / 2 ^ 32) - 1)]; lia.
Qed.

Lemma to_int32_small z : - 2 ^ 31 <= z < 2 ^ 31 → to_int32 z = z.
Proof.
  intros Hz. unfold to_int32. destruct (Z.lt_ge_cases z 0).
  - replace (z mod 2 ^ 32) with (z + 2 ^ 32); [cmp; lia|].
    rewrite <-(Z.mod_small (z + 2 ^ 32) (2 ^ 32)) by lia.
    replace (z + 2 ^ 32) with (z + 1 * 2 ^ 32) by lia. by rewrite Z.mod_add by lia.
  - rewrite Z.mod_small by lia. cmp; lia.
Qed.

Lemma to_int32_congr a b q : a = b + 2 ^ 32 * q → to_int32 a = to_int32 b.
Proof.
  intros ->. unfold to_int32. replace (b + 2 ^ 32 * q) with (b + q * 2 ^ 32) by lia.
  by rewrite Z.mod_add by lia.
Qed.

Lemma i32_shl_small a n : 0 <= n → 0 <= a * 2 ^ n < 2 ^ 31 → i32_shl a n = a * 2 ^ n.
Proof. intros Hn Ha. unfold i32_shl. rewrite Z.shiftl_mul_pow2 by done. apply to_int32_small. lia. Qed.

(** [|] and [^] of disjoint bit fields are [+]. *)
Lemma land_disjoint k a d : 0 <= k → 0 <= d < 2 ^ k → Z.land (a * 2 ^ k) d = 0.
Proof.
  intros Hk Hd. bitwise. rewrite Z.testbit_0_l. destruct (Z.lt_ge_cases n k).
  - by rewrite Z.mul_pow2_bits_low by lia.
  - rewrite (proj1 (small_bits k d ltac:(lia) Hk)) by lia. apply andb_false_r.
Qed.

Lemma shift_in_xor k a d : 0 <= k → 0 <= d < 2 ^ k → Z.lxor (a * 2 ^ k) d = a * 2 ^ k + d.
Proof. intros Hk Hd. symmetry. by apply Z.add_nocarry_lxor, land_disjoint. Qed.

Lemma lor_add k a d : 0 <= k → 0 <= d < 2 ^ k → Z.lor (a * 2 ^ k) d = a * 2 ^ k + d.
Proof. intros Hk Hd. rewrite <-Z.lxor_lor by by apply land_disjoint. by apply shift_in_xor. Qed.

(** A field of 8 bits below the overflow is read correctly. *)
Lemma low_byte_int32 n k : 0 <= k <= 24 →
  Z.land (Z.shiftr (to_int32 n) k) 255 = (n / 2 ^ k) mod 256.
Proof.
  intros Hk. destruct (to_int32_eqm n) as [q ->]. change 255 with (Z.ones 8).
  rewrite Z.land_ones, Z.shiftr_div_pow2 by lia.
  replace (2 ^ 32 * q) with ((2 ^ (24 - k) * q * 256) * 2 ^ k).
  - rewrite Z.div_add by (apply Z.pow_nonzero; lia). by rewrite Z.mod_add by lia.
  - replace (2 ^ 32) with (2 ^ (24 - k) * 256 * 2 ^ k); [ring|].
    change 256 with (2 ^ 8). rewrite <-!Z.pow_add_r by lia. f_equal. lia.
Qed.

(** The accumulator: shifting in five bits commutes with the wrap-around. *)
Lemma int32_shift_in n d : 0 <= d < 32 →
  Z.lor (i32_shl (to_int32 n) 5) d = to_int32 (n * 32 + d).
Proof.
  intros Hd. destruct (to_int32_eqm n) as [q Hq]. unfold i32_shl. rewrite Z.shiftl_mul_pow2, Hq by lia.
  destruct (to_int32_eqm ((n + 2 ^ 32 * q) * 2 ^ 5)) as [q' Hq'].
  set (x := to_int32 ((n + 2 ^ 32 * q) * 2 ^ 5)) in *.
  assert (- 2 ^ 31 <= x < 2 ^ 31) as Hx.
  { subst x. unfold to_int32. pose proof (Z.mod_pos_bound ((n + 2 ^ 32 * q) * 2 ^ 5) (2 ^ 32)). cmp; lia. }
  assert (x = (n + 2 ^ 32 * q + 2 ^ 27 * q') * 2 ^ 5) as Hm by lia.
  rewrite Hm, lor_add by lia. rewrite <-(to_int32_small ((n + 2 ^ 32 * q + 2 ^ 27 * q') * 2 ^ 5 + d)) by lia.
  apply (to_int32_congr _ _ (32 * q + q')). lia.
Qed.

(** ** Decoding as reading a number *)

(** The value of a string in base 32 and of bytes in base 256. *)
Definition base32_digit (c : Ascii.ascii) : Z := Z.of_nat (default 0%nat (index_of c STELLAR_STRKEY_ALPHABET)).
Definition base32_val (l : text) : Z := fold_left (λ a c, a * 32 + base32_digit c) l 0.
Definition bytes_val (l : list Z) : Z := fold_left (λ a b, a * 256 + b) l 0.

Definition is_byte (b : Z) : Prop := 0 <= b < 256.

Lemma positional_snoc {A} (f : A → Z) k l c :
  fold_left (λ a x, a * k + f x) (l ++ [c]) 0 = fold_left (λ a x, a * k + f x) l 0 * k + f c.
Proof. by rewrite fold_left_app. Qed.

Lemma base32_val_snoc l c : base32_val (l ++ [c]) = base32_val l * 32 + base32_digit c.
Proof. apply (positional_snoc base32_digit). Qed.
Lemma bytes_val_snoc l b : bytes_val (l ++ [b]) = bytes_val l * 256 + b.
Proof. apply (positional_snoc id). Qed.

Lemma index_of_Some c l i : index_of c l = Some i → l !! i = Some c.
Proof.
  revert i. induction l as [|x l IH]; simpl; [done|]. intros i. case_bool_decide; [intros [= <-]; by subst|].
  destruct (index_of c l); simpl; [|done]. intros [= <-]. by apply IH.
Qed.

Lemma index_of_None c l : index_of c l = None ↔ c ∉ l.
Proof.
  induction l as [|x l IH]; simpl; [split; [intros _ []%not_elem_of_nil|done]|].
  rewrite not_elem_of_cons. case_bool_decide; [naive_solver|]. destruct (index_of c l); simpl; naive_solver.
Qed.

Lemma base32_char_spec c : base32_char c = bool_decide (is_Some (index_of c STELLAR_STRKEY_ALPHABET)).
Proof. destruct c as [[] [] [] [] [] [] [] []]; reflexivity. Qed.

Lemma base32_digit_bound c : 0 <= base32_digit c < 32.
Proof.
  unfold base32_digit. destruct (index_of c _) as [i|] eqn:Hi; simpl; [|lia].
  apply index_of_Some, lookup_lt_Some in Hi. change (length STELLAR_STRKEY_ALPHABET) with 32%nat in Hi. lia.
Qed.

Lemma base32_digit_inj c c' :
  base32_char c = true → base32_char c' = true → base32_digit c = base32_digit c' → c = c'.
Proof.
  rewrite !base32_char_spec, !bool_decide_eq_true. unfold base32_digit. intros [i Hi] [j Hj].
  rewrite Hi, Hj. simpl. intros ?%Nat2Z.inj. subst j. apply index_of_Some in Hi, Hj. congruence.
Qed.

Lemma base32_val_nonneg l : 0 <= base32_val l.
Proof.
  induction l as [|c l IH] using rev_ind; [done|]. rewrite base32_val_snoc. pose proof (base32_digit_bound c). lia.
Qed.

(** After the characters [before] the buffer holds the leading bits of their number
    and the accumulator the number itself, up to overflow. *)
Definition decode_inv (before : text) (bytes : list Z) (bits current : Z) : Prop :=
  0 <= bits < 8 ∧ 8 * Z.of_nat (length bytes) + bits = 5 * Z.of_nat (length before) ∧
  current = to_int32 (base32_val before) ∧ bytes_val bytes = base32_val before / 2 ^ bits ∧ Forall is_byte bytes.

Lemma decode_inv_init : decode_inv [] [] 0 0.
Proof. unfold decode_inv. splits; try done; lia. Qed.

Lemma decode_step before c bytes bits current :
  decode_inv before bytes bits current →
  let current' := Z.lor (i32_shl current 5) (base32_digit c) in
  if 8 <=? bits + 5
  then decode_inv (before ++ [c]) (bytes ++ [Z.land (Z.shiftr current' (bits + 5 - 8)) 255]) (bits + 5 - 8) current'
  else decode_inv (before ++ [c]) bytes (bits + 5) current'.
Proof.
  intros (Hb & Hlen & -> & Hv & Hf) current'. pose proof (base32_digit_bound c) as Hc.
  assert (current' = to_int32 (base32_val (before ++ [c]))) as Hcur.
  { rewrite base32_val_snoc. by apply int32_shift_in. }
  clearbody current'. subst current'. set (n := base32_val before) in *.
  assert (base32_val (before ++ [c]) = n * 32 + base32_digit c) as Hn by apply base32_val_snoc.
  assert (∀ k, 0 <= k → (n * 32 + base32_digit c) / 2 ^ (5 + k) = n / 2 ^ k) as Hdiv.
  { intros k Hk. rewrite Z.pow_add_r, <-Z.div_div by lia. change (2 ^ 5) with 32.
    by rewrite Z.div_add_l, (Z.div_small (base32_digit c)), Z.add_0_r by lia. }
  destruct (Z.leb_spec 8 (bits + 5)); unfold decode_inv; rewrite !length_app; simpl.
  - rewrite low_byte_int32 by lia. splits; [lia|lia|lia|done| |].
    + rewrite bytes_val_snoc, Hv, Hn, <-(Hdiv bits) by lia. set (m := n * 32 + base32_digit c).
      replace (5 + bits) with ((bits + 5 - 8) + 8) by lia.
      rewrite Z.pow_add_r, <-Z.div_div by lia. change (2 ^ 8) with 256.
      pose proof (Z.div_mod (m / 2 ^ (bits + 5 - 8)) 256). lia.
    + apply Forall_app. split; [done|]. constructor; [|done]. apply Z.mod_pos_bound. lia.
  - splits; [lia|lia|lia|done| |done]. rewrite Hv, Hn, (Z.add_comm bits), Hdiv by lia. done.
Qed.

Lemma decode_loop_spec value before bytes bits current :
  decode_inv before bytes bits current →
  match decode_loop value bytes bits current with
  | Some bytes' => forallb base32_char value = true ∧ ∃ bits' current', decode_inv (before ++ value) bytes' bits' current'
  | None => forallb base32_char value = false
  end.
Proof.
  revert before bytes bits current. induction value as [|c value IH]; intros before bytes bits current Hinv; cbn [decode_loop forallb].
  - split; [done|]. exists bits, current. by rewrite app_nil_r.
  - rewrite base32_char_spec. pose proof (decode_step before c bytes bits current Hinv) as Hs.
    unfold base32_digit in Hs.
    destruct (index_of c STELLAR_STRKEY_ALPHABET) as [d|]; [|by rewrite bool_decide_false by (by intros [])].
    rewrite bool_decide_true by done. cbn [andb default id] in *. rewrite (cons_middle c before value).
    rewrite app_assoc. destruct (8 <=? bits + 5); apply IH in Hs; exact Hs.
Qed.

Lemma decode_spec value :
  match decodeStellarBase32 value with
  | Some bytes => forallb base32_char value = true ∧ Forall is_byte bytes ∧
      Z.of_nat (length bytes) = 5 * Z.of_nat (length value) / 8 ∧
      bytes_val bytes = base32_val value / 2 ^ (5 * Z.of_nat (length value) mod 8)
  | None => forallb base32_char value = false
  end.
Proof.
  unfold decodeStellarBase32. pose proof (decode_loop_spec value [] [] 0 0 decode_inv_init) as Hd.
  destruct (decode_loop value [] 0 0) as [bytes|].
  - destruct Hd as (Ha & bits' & cur' & Hb & Hl & _ & Hv & Hf).
    splits; [done|done| |].
    + apply (Z.div_unique _ _ _ bits'); [lia|]. simpl in Hl. lia.
    + rewrite Hv. simpl in *. do 2 f_equal. apply (Z.mod_unique _ _ (Z.of_nat (length bytes))); lia.
  - exact Hd.
Qed.

(** ** The checksum as a remainder over GF(2)

    An integer stands for the polynomial whose coefficients are its bits;
    addition is [Z.lxor] and [gmul] multiplies by x^16 + x^12 + x^5 + 1. *)

Definition gmul (q : Z) : Z := Z.lxor (Z.shiftl q 16) (Z.lxor (Z.shiftl q 12) (Z.lxor (Z.shiftl q 5) q)).

(** [r] is the remainder of the message [m] times x^16. *)
Definition is_remainder (m r : Z) : Prop := 0 <= r < 2 ^ 16 ∧ ∃ q, 0 <= q ∧ Z.shiftl m 16 = Z.lxor (gmul q) r.

(** The two checksum bytes of an address are the remainder, low byte first. *)
Definition swap16 (n : Z) : Z := Z.lxor (Z.shiftl (Z.land n 255) 8) (Z.land (Z.shiftr n 8) 255).

(** Equality of exclusive-or sums up to associativity, commutativity and
    cancellation. *)
Ltac xor := bitwise;
  repeat match goal with |- context [Z.testbit ?a ?i] => destruct (Z.testbit a i) end; reflexivity.

Lemma gmul_lxor a b : gmul (Z.lxor a b) = Z.lxor (gmul a) (gmul b).
Proof. unfold gmul. rewrite !Z.shiftl_lxor. xor. Qed.

Lemma gmul_shiftl q k : 0 <= k → gmul (Z.shiftl q k) = Z.shiftl (gmul q) k.
Proof.
  intros Hk. unfold gmul. rewrite !Z.shiftl_lxor, !Z.shiftl_shiftl by lia.
  by rewrite (Z.add_comm k 16), (Z.add_comm k 12), (Z.add_comm k 5).
Qed.

Lemma gmul_nonneg q : 0 <= q → 0 <= gmul q.
Proof.
  intros Hq. unfold gmul. repeat (apply Z.lxor_nonneg; split; intros _); try (by apply Z.shiftl_nonneg); done.
Qed.

(** A nonzero multiple of the generator has degree at least 16. *)
Lemma gmul_small q : 0 <= q → gmul q < 2 ^ 16 → q = 0.
Proof.
  intros Hq Hlt. destruct (Z.eq_dec q 0) as [|Hne]; [done|exfalso].
  pose proof (Z.log2_nonneg q) as Hl.
  assert (∀ i, Z.log2 q < i → Z.testbit q i = false) as Hhi by (intros; by apply Z.bits_above_log2).
  pose proof (proj1 (small_bits 16 (gmul q) (gmul_nonneg q Hq) ltac:(lia)) Hlt (Z.log2 q + 16) ltac:(lia)) as Hb.
  unfold gmul in Hb. rewrite !Z.lxor_spec, !Z.shiftl_spec in Hb by lia.
  replace (Z.log2 q + 16 - 16) with (Z.log2 q) in Hb by lia. rewrite Z.bit_log2 in Hb by lia.
  by rewrite !Hhi in Hb by lia.
Qed.

(** The generator has constant term 1, so it divides no short burst. *)
Lemma gmul_burst e k q : 0 <= e < 2 ^ 16 → 0 <= q → gmul q = Z.shiftl e (Z.of_nat k) → e = 0.
Proof.
  intros He. revert q. induction k as [|k IH]; intros q Hq Heq.
  - rewrite Z.shiftl_0_r in Heq. assert (q = 0) as -> by (apply gmul_small; lia). by rewrite <-Heq.
  - apply (IH (Z.shiftr q 1)); [by apply Z.shiftr_nonneg|].
    assert (q = Z.shiftl (Z.shiftr q 1) 1) as Hqe.
    { assert (Z.testbit q 0 = false) as H0.
      { apply (f_equal (λ z, Z.testbit z 0)) in Heq. unfold gmul in Heq. rewrite !Z.lxor_spec in Heq.
        rewrite !Z.shiftl_spec_low in Heq by lia. by destruct (Z.testbit q 0). }
      bitwise. destruct (Z.eq_dec n 0) as [->|]; [by rewrite Z.shiftl_spec_low, H0 by lia|].
      rewrite Z.shiftl_spec_high, Z.shiftr_spec by lia. f_equal. lia. }
    rewrite Hqe in Heq. rewrite gmul_shiftl in Heq by lia.
    apply (f_equal (λ z, Z.shiftr z 1)) in Heq. rewrite !Z.shiftr_shiftl_l in Heq by lia.
    rewrite Z.shiftl_0_r in Heq. rewrite Heq. f_equal. lia.
Qed.

Lemma is_remainder_unique m r r' : is_remainder m r → is_remainder m r' → r = r'.
Proof.
  intros (Hr & q & Hq & Heq) (Hr' & q' & Hq' & Heq').
  assert (gmul (Z.lxor q q') = Z.lxor r r') as Hx.
  { rewrite gmul_lxor. rewrite Heq in Heq'.
    transitivity (Z.lxor (Z.lxor (gmul q) r) (Z.lxor r (gmul q'))); [xor|]. rewrite Heq'. xor. }
  pose proof (lxor_small 16 r r' ltac:(lia) Hr Hr').
  assert (Z.lxor q q' = 0) as Hz by (apply gmul_small; [by apply Z.lxor_nonneg|lia]).
  rewrite Hz in Hx. by apply Z.lxor_eq.
Qed.

Lemma is_remainder_lxor m m' r r' :
  is_remainder m r → is_remainder m' r' → is_remainder (Z.lxor m m') (Z.lxor r r').
Proof.
  intros (Hr & q & Hq & Heq) (Hr' & q' & Hq' & Heq'). split; [by apply lxor_small|].
  exists (Z.lxor q q'). split; [by apply Z.lxor_nonneg|]. rewrite Z.shiftl_lxor, Heq, Heq', gmul_lxor. xor.
Qed.

(** ** The code's checksum is that remainder *)
Lemma land_0x8000 c : Z.land c 0x8000 = if Z.testbit c 15 then 0x8000 else 0.
Proof.
  change 0x8000 with (2 ^ 15). bitwise. rewrite Z.pow2_bits_eqb by lia.
  destruct (Z.eqb_spec 15 n) as [<-|Hne]; [destruct (Z.testbit c 15); reflexivity|].
  rewrite andb_false_r. destruct (Z.testbit c 15); [|by rewrite Z.testbit_0_l].
  rewrite Z.pow2_bits_eqb by lia. by destruct (Z.eqb_spec 15 n).
Qed.

Lemma crc_bit_spec c : 0 <= c < 2 ^ 16 →
  0 <= crc_bit c < 2 ^ 16 ∧ Z.shiftl c 1 = Z.lxor (gmul (Z.b2z (Z.testbit c 15))) (crc_bit c).
Proof.
  intros Hc. unfold crc_bit. rewrite land_0x8000. change 0xffff with (Z.ones 16).
  assert (i32_shl c 1 = Z.shiftl c 1) as -> by (rewrite i32_shl_small, Z.shiftl_mul_pow2 by lia; done).
  split; [rewrite Z.land_ones by lia; apply Z.mod_pos_bound; lia|].
  assert (∀ i, 16 <= i → Z.testbit c i = false) as Hhi by (apply small_bits; lia).
  bitwise. rewrite Z.testbit_ones_nonneg by lia.
  destruct (Z.testbit c 15) eqn:H15; cbn [negb Z.eqb Z.b2z]; rewrite ?Z.lxor_spec;
    [change (gmul 1) with (Z.lxor (2 ^ 16) 0x1021)|change (gmul 0) with 0]; rewrite ?Z.lxor_spec, ?Z.testbit_0_l.
  - rewrite Z.pow2_bits_eqb by lia. destruct (Z.ltb_spec n 16).
    + replace (16 =? n) with false by (symmetry; apply Z.eqb_neq; lia). rewrite andb_true_r.
      destruct (Z.testbit 0x1021 n), (Z.testbit (Z.shiftl c 1) n); done.
    + rewrite (proj1 (small_bits 16 0x1021 ltac:(lia) ltac:(lia)) ltac:(lia) n) by lia.
      rewrite andb_false_r, !xorb_false_r, Z.shiftl_spec by lia. destruct (Z.eqb_spec 16 n) as [<-|]; [done|].
      apply Hhi. lia.
  - rewrite xorb_false_l. destruct (Z.ltb_spec n 16); [by rewrite andb_true_r|].
    rewrite andb_false_r, Z.shiftl_spec by lia. destruct (Z.eq_dec n 16) as [->|]; [done|]. apply Hhi. lia.
Qed.

Lemma crc_bits_spec k c : 0 <= c < 2 ^ 16 →
  0 <= Nat.iter k crc_bit c < 2 ^ 16 ∧
  ∃ q, 0 <= q ∧ Z.shiftl c (Z.of_nat k) = Z.lxor (gmul q) (Nat.iter k crc_bit c).
Proof.
  intros Hc. induction k as [|k (Hr & q & Hq & Heq)].
  - split; [done|]. exists 0. split; [done|]. by rewrite Z.shiftl_0_r.
  - cbn [Nat.iter nat_rect]. fold (Nat.iter k crc_bit c). set (d := Nat.iter k crc_bit c) in *.
    destruct (crc_bit_spec d Hr) as [Hb Hs]. split; [done|].
    exists (Z.lxor (Z.shiftl q 1) (Z.b2z (Z.testbit d 15))). split.
    + apply Z.lxor_nonneg. split; intros _; [by destruct (Z.testbit d 15)|by apply Z.shiftl_nonneg].
    + rewrite Nat2Z.inj_succ, <-Z.add_1_r, <-Z.shiftl_shiftl by lia.
      rewrite Heq, Z.shiftl_lxor, Hs, gmul_lxor, gmul_shiftl by lia. xor.
Qed.

Lemma bytes_val_snoc_xor l b : is_byte b → bytes_val (l ++ [b]) = Z.lxor (Z.shiftl (bytes_val l) 8) b.
Proof.
  intros Hb. rewrite bytes_val_snoc. rewrite Z.shiftl_mul_pow2 by lia. change 256 with (2 ^ 8).
  symmetry. apply shift_in_xor; [lia|done].
Qed.

Lemma crc_remainder l : Forall is_byte l → is_remainder (bytes_val l) (crc16XModem l).
Proof.
  induction l as [|b l IH] using rev_ind; intros Hl.
  - split; [done|]. by exists 0.
  - apply Forall_app in Hl as [Hl Hb%Forall_inv]. destruct (IH Hl) as (Hr & q & Hq & Heq).
    unfold crc16XModem. rewrite fold_left_app. cbn [fold_left]. fold (crc16XModem l).
    set (c := crc16XModem l) in *. unfold crc_byte.
    assert (i32_shl b 8 = Z.shiftl b 8) as ->.
    { unfold is_byte in Hb. rewrite (i32_shl_small b 8), Z.shiftl_mul_pow2 by (change (2 ^ 8) with 256; lia). done. }
    assert (0 <= Z.lxor c (Z.shiftl b 8) < 2 ^ 16) as Hc'.
    { apply lxor_small; [lia|done|]. unfold is_byte in Hb. rewrite Z.shiftl_mul_pow2 by lia. lia. }
    destruct (crc_bits_spec 8 _ Hc') as (Hr' & q' & Hq' & Heq'). split; [exact Hr'|].
    exists (Z.lxor (Z.shiftl q 8) q'). split; [by apply Z.lxor_nonneg; rewrite Z.shiftl_nonneg|].
    rewrite bytes_val_snoc_xor, Z.shiftl_lxor, gmul_lxor, gmul_shiftl by (lia || done).
    rewrite Z.shiftl_shiftl by lia. change (8 + 16) with (16 + 8). rewrite <-Z.shiftl_shiftl, Heq by lia.
    rewrite Z.shiftl_lxor in *. rewrite (Z.shiftl_shiftl b) in Heq' by lia.
    change (8 + Z.of_nat 8) with 16 in Heq'. change (Z.of_nat 8) with 8 in Heq'.
    transitivity (Z.lxor (Z.shiftl (gmul q) 8) (Z.lxor (Z.shiftl c 8) (Z.shiftl b 16))); [xor|].
    rewrite Heq'. xor.
Qed.

(** ** Classification in terms of the number an address stands for *)
Lemma bytes_val_bound l : Forall is_byte l → 0 <= bytes_val l < 2 ^ (8 * Z.of_nat (length l)).
Proof.
  induction l as [|b l IH] using rev_ind; [done|]. intros [Hl Hb%Forall_inv]%Forall_app.
  specialize (IH Hl). unfold is_byte in Hb. rewrite bytes_val_snoc, length_app. simpl.
  replace (8 * Z.of_nat (length l + 1)) with (8 * Z.of_nat (length l) + 8) by lia.
  rewrite Z.pow_add_r by lia. change (2 ^ 8) with 256. lia.
Qed.

Lemma bytes_val_app l1 l2 : bytes_val (l1 ++ l2) = bytes_val l1 * 2 ^ (8 * Z.of_nat (length l2)) + bytes_val l2.
Proof.
  induction l2 as [|b l2 IH] using rev_ind.
  - rewrite app_nil_r. simpl. change (bytes_val []) with 0. lia.
  - rewrite app_assoc, !bytes_val_snoc, IH, length_app. simpl.
    replace (8 * Z.of_nat (length l2 + 1)) with (8 * Z.of_nat (length l2) + 8) by lia.
    rewrite Z.pow_add_r by lia. change (2 ^ 8) with 256. ring.
Qed.

Lemma first_byte b l : Forall is_byte (b :: l) →
  byte_at (b :: l) 0 = bytes_val (b :: l) / 2 ^ (8 * Z.of_nat (length l)).
Proof.
  intros Hl%Forall_inv_tail%bytes_val_bound. change (b :: l) with ([b] ++ l).
  rewrite bytes_val_app. rewrite Z.div_add_l, Z.div_small by lia.
  unfold bytes_val; simpl. unfold byte_at. simpl. lia.
Qed.

Lemma swap16_bytes a x y : is_byte x → is_byte y → swap16 (a * 2 ^ 16 + (x * 256 + y)) = Z.lor x (i32_shl y 8).
Proof.
  unfold is_byte. intros Hx Hy. unfold swap16. change 255 with (Z.ones 8).
  assert (∀ k z, 0 <= z < 256 → (k * 256 + z) mod 256 = z) as Hm.
  { intros k z Hz. by rewrite Z.add_comm, Z.mod_add, Z.mod_small by lia. }
  rewrite !Z.land_ones, Z.shiftr_div_pow2, Z.shiftl_mul_pow2 by lia.
  rewrite i32_shl_small by (change (2 ^ 8) with 256; lia). rewrite Z.lor_comm, lor_add by lia.
  replace (a * 2 ^ 16 + (x * 256 + y)) with ((a * 256 + x) * 256 + y) by lia. change (2 ^ 8) with 256.
  rewrite Z.div_add_l, (Z.div_small y), Z.add_0_r, !Hm by lia. by apply (shift_in_xor 8).
Qed.

(** Length in bytes of the decoding of a string of [n] characters. *)
Definition decoded_length (n : nat) : Z := 5 * Z.of_nat n / 8.
Definition address_number (l : text) : Z := base32_val l / 2 ^ (5 * Z.of_nat (length l) mod 8).

(** What makes an address of kind [k]: the length, the alphabet, the leading byte
    of its number, and its last two bytes as the remainder of the rest. *)
Definition well_formed (l : text) (k : StellarAddressKind) : Prop :=
  (length l = 56%nat ∨ length l = 69%nat) ∧ forallb base32_char l = true ∧
  STELLAR_STRKEY_VERSION k = Some (address_number l / 2 ^ (8 * (decoded_length (length l) - 1))) ∧
  is_remainder (address_number l / 2 ^ 16) (swap16 (address_number l)).

Lemma VERSION_TO_KIND_spec v k : VERSION_TO_KIND v = Some k ↔ STELLAR_STRKEY_VERSION k = Some v.
Proof.
  split.
  - unfold VERSION_TO_KIND. intros ([i k'] & Hf & [= <-])%bind_Some. by apply list_find_Some in Hf as (_ & ? & _).
  - destruct k; intros [= <-]; reflexivity.
Qed.

Lemma split_last2 {A} (l : list A) p : length l = (p + 2)%nat → ∃ x y, l = take p l ++ [x; y].
Proof.
  intros Hl. destruct (drop p l) as [|x [|y [|z r]]] eqn:Hd;
    pose proof (f_equal length Hd) as He; rewrite length_drop in He; simpl in He; try lia.
  exists x, y. by rewrite <-Hd, take_drop.
Qed.

(** The version and checksum tests, on a decoded address of [p + 2] bytes. *)
Lemma strkey_checks l bytes p :
  decodeStellarBase32 l = Some bytes → length bytes = (p + 2)%nat →
  byte_at bytes 0 = address_number l / 2 ^ (8 * (decoded_length (length l) - 1)) ∧
  (crc16XModem (take p bytes) = Z.lor (byte_at bytes p) (i32_shl (byte_at bytes (p + 1)) 8) ↔
   is_remainder (address_number l / 2 ^ 16) (swap16 (address_number l))).
Proof.
  intros Hd Hlen. pose proof (decode_spec l) as Hs. rewrite Hd in Hs. destruct Hs as (_ & Hf & Hn & Hv).
  fold (decoded_length (length l)) in Hn. fold (address_number l) in Hv. rewrite <-Hv, <-Hn. split.
  - destruct bytes as [|b r]; [simpl in Hlen; lia|]. rewrite first_byte by done. do 3 f_equal. simpl. lia.
  - destruct (split_last2 bytes p Hlen) as (x & y & Hb). set (pl := take p bytes) in *.
    assert (length pl = p) as Hp by (unfold pl; rewrite length_take; lia).
    rewrite Hb in *. apply Forall_app in Hf as [Hpl Hxy].
    pose proof (Forall_inv Hxy) as Hx. pose proof (Forall_inv (Forall_inv_tail Hxy)) as Hy.
    unfold byte_at. rewrite !lookup_app_r by lia. rewrite Hp.
    replace (p - p)%nat with 0%nat by lia. replace (p + 1 - p)%nat with 1%nat by lia. cbn [lookup list_lookup default id].
    rewrite bytes_val_app. change (8 * Z.of_nat (length [x; y])) with 16.
    replace (bytes_val [x; y]) with (x * 256 + y) by (unfold bytes_val; simpl; lia).
    rewrite swap16_bytes by done. unfold is_byte in Hx, Hy. rewrite Z.div_add_l, Z.div_small, Z.add_0_r by lia.
    pose proof (crc_remainder pl Hpl) as Hr. split; [by intros <-|]. by apply is_remainder_unique.
Qed.

Lemma classify_spec s k :
  (valid (classifyStellarAddress (JStr s)) = true ∧ kind (classifyStellarAddress (JStr s)) = k)
  ↔ well_formed (chars s) k.
Proof.
  unfold well_formed. set (l := chars s). cbn [classifyStellarAddress]. fold l.
  destruct (decide (length l = 56%nat ∨ length l = 69%nat)) as [Hlen|Hlen]; cycle 1.
  { rewrite (bool_decide_false (length l = STELLAR_MUXED_STRKEY_LENGTH)) by naive_solver.
    rewrite bool_decide_false by naive_solver. simpl. naive_solver. }
  set (m := bool_decide (length l = STELLAR_MUXED_STRKEY_LENGTH)).
  assert (length l = (if m then STELLAR_MUXED_STRKEY_LENGTH else STELLAR_STRKEY_LENGTH)) as Hm.
  { unfold m. case_bool_decide; naive_solver. }
  rewrite (bool_decide_true _ Hm). cbn [negb].
  assert (l ≠ []) as Hne by (destruct l; [simpl in Hlen; lia|done]). rewrite (bool_decide_false _ Hne), andb_true_r.
  pose proof (decode_spec l) as Hd.
  destruct (forallb base32_char l) eqn:Ha; cbn [negb]; [|simpl; naive_solver].
  destruct (decodeStellarBase32 l) as [bytes|] eqn:Hdec; [|done]. destruct Hd as (_ & _ & Hn & _).
  set (p := if m then STELLAR_MUXED_STRKEY_PAYLOAD_LENGTH else STELLAR_STRKEY_PAYLOAD_LENGTH).
  assert (length bytes = (p + 2)%nat) as Hp.
  { rewrite Hm in Hn. unfold p. destruct m; vm_compute Z.div in Hn; simpl; lia. }
  rewrite bool_decide_true by (rewrite Hp; unfold p; by destruct m). cbn [negb].
  destruct (strkey_checks l bytes p Hdec Hp) as [Hv Hc]. rewrite Hv. rewrite <-VERSION_TO_KIND_spec.
  destruct (VERSION_TO_KIND _) as [k'|]; [|simpl; naive_solver].
  destruct (Z.eqb_spec (crc16XModem (take p bytes)) (Z.lor (byte_at bytes p) (i32_shl (byte_at bytes (p + 1)) 8)));
    simpl; rewrite <-Hc; naive_solver.
Qed.

(** ** Windows of two characters *)
Lemma base32_val_app l1 l2 : base32_val (l1 ++ l2) = base32_val l1 * 2 ^ (5 * Z.of_nat (length l2)) + base32_val l2.
Proof.
  induction l2 as [|c l2 IH] using rev_ind.
  - rewrite app_nil_r. simpl. change (base32_val []) with 0. lia.
  - rewrite app_assoc, !base32_val_snoc, IH, length_app. simpl.
    replace (5 * Z.of_nat (length l2 + 1)) with (5 * Z.of_nat (length l2) + 5) by lia.
    rewrite Z.pow_add_r by lia. change (2 ^ 5) with 32. ring.
Qed.

Lemma base32_val_bound l : 0 <= base32_val l < 2 ^ (5 * Z.of_nat (length l)).
Proof.
  induction l as [|c l IH] using rev_ind; [done|]. rewrite base32_val_snoc, length_app. simpl.
  pose proof (base32_digit_bound c). replace (5 * Z.of_nat (length l + 1)) with (5 * Z.of_nat (length l) + 5) by lia.
  rewrite Z.pow_add_r by lia. change (2 ^ 5) with 32. lia.
Qed.

(** The number of a string is injective on strings of the same length. *)
Lemma base32_val_inj l l' :
  length l = length l' → forallb base32_char l = true → forallb base32_char l' = true →
  base32_val l = base32_val l' → l = l'.
Proof.
  revert l'. induction l as [|c l IH] using rev_ind; intros l'; destruct l' as [|c' l' _] using rev_ind; rewrite ?length_app; simpl; try lia; [done|].
  intros Hlen. rewrite !forallb_app, !andb_true_iff. simpl. rewrite !andb_true_r. intros [Hl Hc] [Hl' Hc'].
  rewrite !base32_val_snoc. intros Hv. pose proof (base32_digit_bound c). pose proof (base32_digit_bound c').
  f_equal; [apply IH; done || lia|]. f_equal. apply base32_digit_inj; [done..|lia].
Qed.

(** Two strings that differ in a window have numbers that differ by a shifted burst. *)
Lemma window_difference p w w' s :
  length w = length w' →
  Z.lxor (base32_val (p ++ w ++ s)) (base32_val (p ++ w' ++ s)) =
  Z.shiftl (Z.lxor (base32_val w) (base32_val w')) (5 * Z.of_nat (length s)).
Proof.
  intros Hw. rewrite !base32_val_app, !length_app, <-Hw. set (j := 5 * Z.of_nat (length s)).
  set (k := 5 * Z.of_nat (length w + length s)).
  pose proof (base32_val_bound s) as Hs. fold j in Hs.
  assert (∀ v, length v = length w → 0 <= base32_val v * 2 ^ j + base32_val s < 2 ^ k) as Hws.
  { intros v Hv. pose proof (base32_val_bound v) as Hb. rewrite Hv in Hb. unfold k, j in *.
    rewrite Nat2Z.inj_add, Z.mul_add_distr_l, Z.pow_add_r by lia. nia. }
  pose proof (Hws w eq_refl) as H1. pose proof (Hws w' (eq_sym Hw)) as H2.
  rewrite <-!(shift_in_xor k), <-!(shift_in_xor j), <-!Z.shiftl_mul_pow2, Z.shiftl_lxor
    by (done || (unfold k, j; lia) || lia). xor.
Qed.

(** A burst across the boundary of payload and checksum is detected: reduce the
    payload part modulo the generator and compare it with the checksum part. *)
Definition reduce (x : Z) : Z :=
  let h := Z.shiftr x 16 in
  Z.lxor (Z.shiftl h 12) (Z.lxor (Z.shiftl h 5) (Z.lxor h (Z.land x 0xffff))).
Definition boundary_detects (j e : Z) : bool :=
  let d := Z.shiftl e (5 * j) in
  let r := reduce (reduce (reduce (Z.shiftl (Z.shiftr d 16) 16))) in
  (0 <=? r) && (r <? 2 ^ 16) && negb (r =? swap16 d).

Lemma reduce_spec x : 0 <= x → ∃ q, 0 <= q ∧ x = Z.lxor (gmul q) (reduce x).
Proof.
  intros Hx. exists (Z.shiftr x 16). split; [by apply Z.shiftr_nonneg|].
  unfold gmul, reduce. set (h := Z.shiftr x 16).
  transitivity (Z.lxor (Z.shiftl h 16) (Z.land x 0xffff)); [|xor].
  change 0xffff with (Z.ones 16). rewrite Z.land_ones, Z.shiftl_mul_pow2 by lia.
  rewrite shift_in_xor by (try apply Z.mod_pos_bound; lia). unfold h. rewrite Z.shiftr_div_pow2 by lia.
  pose proof (Z.div_mod x (2 ^ 16)). lia.
Qed.

Lemma boundary_check :
  forallb (λ j, forallb (boundary_detects j) (seqZ 1 1023)) [0; 1; 2; 3] = true.
Proof. vm_compute. reflexivity. Qed.

Lemma reduce_nonneg x : 0 <= x → 0 <= reduce x.
Proof.
  intros Hx. unfold reduce. repeat (apply Z.lxor_nonneg; split; intros _);
    repeat apply Z.shiftl_nonneg; try apply Z.shiftr_nonneg; try apply Z.land_nonneg; lia.
Qed.

Lemma boundary_remainder j e : 0 <= j <= 3 → 0 < e < 2 ^ 10 →
  is_remainder (Z.shiftr (Z.shiftl e (5 * j)) 16) (swap16 (Z.shiftl e (5 * j))) → False.
Proof.
  intros Hj He Hr. pose proof boundary_check as Hc.
  rewrite forallb_forall in Hc. specialize (Hc j ltac:(simpl; lia)).
  rewrite forallb_forall in Hc. specialize (Hc e). rewrite <-list_elem_of_In, elem_of_seqZ in Hc. specialize (Hc ltac:(lia)).
  unfold boundary_detects in Hc. set (d := Z.shiftl e (5 * j)) in *. cbv zeta in Hc.
  set (m := Z.shiftl (Z.shiftr d 16) 16) in *.
  rewrite !andb_true_iff, negb_true_iff, Z.leb_le, Z.ltb_lt, Z.eqb_neq in Hc. destruct Hc as [Hb Hne].
  apply Hne. apply (is_remainder_unique (Z.shiftr d 16)); [|done]. split; [lia|]. fold m.
  assert (0 <= m) as Hm by (unfold m, d; rewrite Z.shiftl_nonneg, Z.shiftr_nonneg, Z.shiftl_nonneg; lia).
  destruct (reduce_spec m Hm) as (q1 & H1 & E1).
  destruct (reduce_spec (reduce m) (reduce_nonneg _ Hm)) as (q2 & H2 & E2).
  destruct (reduce_spec (reduce (reduce m)) (reduce_nonneg _ (reduce_nonneg _ Hm))) as (q3 & H3 & E3).
  exists (Z.lxor q1 (Z.lxor q2 q3)). split; [repeat (apply Z.lxor_nonneg; split; intros _); done|].
  rewrite !gmul_lxor. rewrite E1 at 1. rewrite E2 at 1. rewrite E3 at 1. xor.
Qed.

(** A burst inside the payload is detected because the generator has constant term 1. *)
Lemma payload_remainder j e : 4 <= j → 0 < e < 2 ^ 10 →
  is_remainder (Z.shiftr (Z.shiftl e (5 * j)) 16) (swap16 (Z.shiftl e (5 * j))) → False.
Proof.
  intros Hj He (_ & q & Hq & Heq).
  assert (Z.shiftr (Z.shiftl e (5 * j)) 16 = Z.shiftl e (5 * j - 16)) as Hs.
  { rewrite Z.shiftr_shiftl_l by lia. done. }
  assert (swap16 (Z.shiftl e (5 * j)) = 0) as Hz.
  { unfold swap16. change 255 with (Z.ones 8). rewrite !Z.land_ones by lia. rewrite Z.shiftr_shiftl_l by lia.
    rewrite !Z.shiftl_mul_pow2 by lia.
    replace (5 * j) with (5 * j - 16 + 8 + 8) at 1 by lia. replace (5 * j - 8) with (5 * j - 16 + 8) by lia.
    rewrite !Z.pow_add_r by lia. rewrite !Z.mul_assoc, !Z.mod_mul by lia. done. }
  rewrite Hs, Hz, Z.lxor_0_r, Z.shiftl_shiftl in Heq by lia.
  assert (e = 0); [|lia]. apply (gmul_burst e (Z.to_nat (5 * j - 16 + 16)) q); [lia|done|].
  by rewrite Z2Nat.id by lia.
Qed.

(** The numbers of addresses of 56 characters differ by no burst of ten bits. *)
Lemma burst_detected n n' e j :
  0 <= j → 0 <= e < 2 ^ 10 → Z.lxor n n' = Z.shiftl e (5 * j) →
  is_remainder (n / 2 ^ 16) (swap16 n) → is_remainder (n' / 2 ^ 16) (swap16 n') → e = 0.
Proof.
  intros Hj He Hx Hr Hr'. destruct (Z.eq_dec e 0) as [|Hne]; [done|exfalso].
  pose proof (is_remainder_lxor _ _ _ _ Hr Hr') as Hd. rewrite <-!Z.shiftr_div_pow2, <-Z.shiftr_lxor in Hd by lia.
  assert (Z.lxor (swap16 n) (swap16 n') = swap16 (Z.lxor n n')) as Hs.
  { unfold swap16. rewrite Z.shiftr_lxor.
    assert (∀ a b m, Z.land (Z.lxor a b) m = Z.lxor (Z.land a m) (Z.land b m)) as Hl by (intros; xor).
    rewrite !Hl, Z.shiftl_lxor. xor. }
  rewrite Hs, Hx in Hd. destruct (Z.le_gt_cases 4 j).
  - apply (payload_remainder j e); done || lia.
  - apply (boundary_remainder j e); done || lia.
Qed.

(** ** Properties *)

(** The big-endian bytes of a number. *)
Fixpoint to_bytes (n : nat) (v : Z) : list Z :=
  match n with O => [] | S n' => to_bytes n' (v / 256) ++ [v mod 256] end.

Lemma to_bytes_val l : Forall is_byte l → to_bytes (length l) (bytes_val l) = l.
Proof.
  induction l as [|b l IH] using rev_ind; [done|]. intros [Hl Hb%Forall_inv]%Forall_app.
  unfold is_byte in Hb. rewrite length_app, Nat.add_comm. cbn [length Nat.add to_bytes].
  rewrite bytes_val_snoc. rewrite Z.div_add_l, (Z.div_small b), Z.add_0_r, IH by (done || lia).
  by rewrite Z.add_comm, Z.mod_add, Z.mod_small by lia.
Qed.

(** The decoder, whose accumulator is a 32-bit integer that overflows after
    the seventh character, computes the RFC 4648 decoding: it rejects exactly the
    strings with a character outside the alphabet and otherwise returns the
    leading 5n/8 bytes of the string read as a number in base 32. *)
Theorem decode_is_base32 value :
  decodeStellarBase32 value =
    if forallb base32_char value
    then Some (to_bytes (Z.to_nat (5 * Z.of_nat (length value) / 8))
                        (base32_val value / 2 ^ (5 * Z.of_nat (length value) mod 8)))
    else None.
Proof.
  pose proof (decode_spec value) as Hd. destruct (decodeStellarBase32 value) as [bytes|]; [|by rewrite Hd].
  destruct Hd as (-> & Hf & <- & <-). by rewrite Nat2Z.id, to_bytes_val.
Qed.

(** The checksum is the remainder of the message times x^16 in the division by
    x^16 + x^12 + x^5 + 1 over GF(2), and the only one. *)
Theorem crc_is_polynomial_remainder bytes r :
  Forall is_byte bytes →
  crc16XModem bytes = r ↔
  (0 <= r < 2 ^ 16 ∧ ∃ q, 0 <= q ∧ Z.shiftl (bytes_val bytes) 16 = Z.lxor (gmul q) r).
Proof.
  intros Hf. apply crc_remainder in Hf. split; [by intros <-|]. by apply is_remainder_unique.
Qed.

(** What the account check accepts: a string of 56 or 69 characters of the
    alphabet whose leading byte is 0x30 and whose last two bytes are the checksum
    of the rest. *)
Theorem valid_account_exact v :
  isValidStellarAccountAddress v = true ↔ ∃ s, v = JStr s ∧ well_formed (chars s) account.
Proof.
  unfold isValidStellarAccountAddress. rewrite andb_true_iff, bool_decide_eq_true. split.
  - destruct v; try (by intros [? ?]). intros Hc%classify_spec. by eexists.
  - intros (s & -> & Hw). by apply classify_spec.
Qed.

(** Typing errors are detected: changing one character of a valid address,
    exchanging two adjacent ones, or replacing two adjacent characters in any other
    way never gives a valid address, of any kind. *)
Theorem typing_error_detected p w w' s :
  length (p ++ w ++ s) = 56%nat → length w = 2%nat → length w' = 2%nat → w ≠ w' →
  valid (classifyStellarAddress (JStr (unchars (p ++ w ++ s)))) = true →
  valid (classifyStellarAddress (JStr (unchars (p ++ w' ++ s)))) = false.
Proof.
  intros Hlen Hw Hw' Hne Hv. apply not_true_is_false. intros Hv'. apply Hne.
  destruct (proj1 (classify_spec _ _) (conj Hv eq_refl)) as (_ & Ha & _ & Hr).
  destruct (proj1 (classify_spec _ _) (conj Hv' eq_refl)) as (_ & Ha' & _ & Hr').
  rewrite !chars_unchars in *. unfold address_number in *.
  assert (length (p ++ w' ++ s) = 56%nat) as Hlen' by (rewrite !length_app in *; lia).
  rewrite Hlen in Hr. rewrite Hlen' in Hr'. change (5 * Z.of_nat 56 mod 8) with 0 in *. rewrite Z.div_1_r in *.
  rewrite !forallb_app, !andb_true_iff in Ha, Ha'.
  apply base32_val_inj; [lia|naive_solver..|]. apply Z.lxor_eq.
  apply (burst_detected (base32_val (p ++ w ++ s)) (base32_val (p ++ w' ++ s)) _ (Z.of_nat (length s)));
    [lia| | |exact Hr|exact Hr'].
  - apply (lxor_small 10); [lia| |]; [pose proof (base32_val_bound w) as Hb|pose proof (base32_val_bound w') as Hb];
      rewrite ?Hw, ?Hw' in Hb; exact Hb.
  - apply window_difference. lia.
Qed.

Definition sample_account : string := "GAAQEAYEAUDAOCAJBIFQYDIOB4IBCEQTCQKRMFYYDENBWHA5DYPSABOV".
Definition sample_overlong : string :=
  "GAAQEAYEAUDAOCAJBIFQYDIOB4IBCEQTCQKRMFYYDENBWHA5DYPSAIJCEMSCKJRHFB7MU".
Definition sample_overlong' : string :=
  "GAAQEAYEAUDAOCAJBIFQYDIOB4IBCEQTCQKRMFYYDENBWHA5DYPSAIJCEMSCKJRHFB7MV".

Lemma crc_is_polynomial_remainder_witness :
  Forall is_byte [49; 50; 51] ∧
  (crc16XModem [49; 50; 51] = 0x9752 ↔
   (0 <= 0x9752 < 2 ^ 16 ∧ ∃ q, 0 <= q ∧ Z.shiftl (bytes_val [49; 50; 51]) 16 = Z.lxor (gmul q) 0x9752)).
Proof.
  assert (Forall is_byte [49; 50; 51]) as Hf.
  { unfold is_byte. repeat (constructor; [lia|]). constructor. }
  split; [exact Hf|]. exact (crc_is_polynomial_remainder [49; 50; 51] 0x9752 Hf).
Defined.

Lemma typing_error_detected_witness :
  valid (classifyStellarAddress (JStr sample_account)) = true ∧
  valid (classifyStellarAddress (JStr (unchars ([] ++ chars "AG" ++ drop 2 (chars sample_account))))) = false.
Proof.
  split; [vm_compute; reflexivity|].
  apply (typing_error_detected [] (chars "GA") (chars "AG") (drop 2 (chars sample_account)));
    try reflexivity; try done; vm_compute; reflexivity.
Defined.

(** The account check is laxer than its comment: the kind is not tied to the
    length, so a string of 69 characters with the version byte of an account is
    accepted as an account, although the structural regular expression for
    accounts rejects it; and the last bit of 69 characters is ignored, so that two
    different strings are valid and decode to the same bytes. *)
Theorem overlong_account_accepted :
  isValidStellarAccountAddress (JStr sample_overlong) = true ∧
  isValidStellarAccountAddress (JStr sample_overlong') = true ∧
  sample_overlong ≠ sample_overlong' ∧
  decodeStellarBase32 (chars sample_overlong) = decodeStellarBase32 (chars sample_overlong') ∧
  STELLAR_ACCOUNT_PUBLIC_KEY_REGEX (chars sample_overlong) = false.
Proof. splits; try done; vm_compute; reflexivity. Qed.

(** ** The validator *)

(** What a program may return, whatever the replies to its commands. *)
Fixpoint may_return {A} (p : prog A) (a : A) : Prop :=
  match p with Ret b => a = b | Cmd c k => ∃ r, may_return (k r) a end.

Lemma may_return_awaiting {A X} (c : rcmd X) h (k : X → prog A) a :
  may_return (awaiting c h k) a → (∃ e, may_return (h e) a) ∨ ∃ x, may_return (k x) a.
Proof. intros ([x|e] & Hr); eauto. Qed.

Lemma may_return_checkAddress redis ttl rpc address a :
  may_return (checkAddress redis ttl rpc address) a →
  (redis = true ∧ a = Some true) ∨
  a = match rpc address with RpcExists b => Some b | RpcCircuitOpen | RpcError => None end.
Proof.
  assert (∀ a', may_return (setCached redis ttl address (Ret (Some true))) a' → a' = Some true) as Hset.
  { intros a'. unfold setCached. destruct redis; simpl; [by intros ([]&->)|done]. }
  unfold checkAddress, getCached. destruct redis; simpl.
  - intros ([v|e] & Hr).
    + case_bool_decide as Hv; simpl in Hr; [auto|]. right.
      destruct (rpc address) as [[]| |]; simpl in Hr; auto.
    + right. destruct (rpc address) as [[]| |]; simpl in Hr; auto.
  - intros Hr. right. destruct (rpc address) as [[]| |]; simpl in Hr; auto.
Qed.

(** The validator fails open and only there: whatever Redis replies to the
    concurrent checks, the request is rejected exactly when an address is malformed
    or one of the checks reports [false], and a check reports [false] only when the
    network answered that the account does not exist. *)
Theorem validator_rejects_only_confirmed redis ttl rpc sender recipient a b :
  may_return (checkAddress redis ttl rpc sender) a → may_return (checkAddress redis ttl rpc recipient) b →
  let r := default (validate_existence sender recipient a b) (validate_format sender recipient) in
  (result_valid r = false →
     ∃ x, x ∈ [sender; recipient] ∧ x ∈ default [] (missingAddresses r) ∧
          (isValidStellarAccountAddress (JStr x) = false ∨ rpc x = RpcExists false)) ∧
  (result_valid r = true →
     ∀ x, x ∈ [sender; recipient] →
          isValidStellarAccountAddress (JStr x) = true ∧ (rpc x = RpcExists false → redis = true)).
Proof.
  intros Ha Hb. apply may_return_checkAddress in Ha, Hb. unfold validate_format. case_bool_decide as Hbad; simpl.
  - assert (∀ x, x ∈ [sender; recipient] → isValidStellarAccountAddress (JStr x) = true) as Hok.
    { intros x Hx. apply not_false_is_true. intros Hf.
      assert (x ∈ filter (λ a, isValidStellarAccountAddress (JStr a) = false) [sender; recipient]) as Hin
        by by apply list_elem_of_filter.
      rewrite Hbad in Hin. by apply not_elem_of_nil in Hin. }
    assert (∀ x c, (redis = true ∧ c = Some true)
              ∨ c = match rpc x with RpcExists b => Some b | RpcCircuitOpen | RpcError => None end →
            (c = Some false → rpc x = RpcExists false) ∧ (c ≠ Some false → rpc x = RpcExists false → redis = true)) as Hc.
    { intros x c [[-> ->]| ->]; [done|]. destruct (rpc x) as [[]| |]; done. }
    destruct (Hc _ _ Ha) as [Ha1 Ha2], (Hc _ _ Hb) as [Hb1 Hb2]. unfold validate_existence.
    destruct (decide (a = Some false)) as [Hsa|Hsa], (decide (b = Some false)) as [Hsb|Hsb];
      rewrite ?(bool_decide_true (a = _)), ?(bool_decide_false (a = _)),
        ?(bool_decide_true (b = _)), ?(bool_decide_false (b = _)) by done; simpl; (split; [|try done]); try done.
    1,2: intros _; exists sender; split; [left|split; [left|auto]].
    1: intros _; exists recipient; split; [right; left|split; [left|auto]].
    intros _ x Hx. split; [by apply Hok|].
    apply elem_of_cons in Hx as [-> |Hx%list_elem_of_singleton]; [|subst x]; auto.
  - split; [|done]. intros _. destruct (filter _ _) as [|x l] eqn:Hf; [done|].
    assert (x ∈ filter (λ a, isValidStellarAccountAddress (JStr a) = false) [sender; recipient]) as Hin
      by (rewrite Hf; left). exists x. apply list_elem_of_filter in Hin as [Hx Hin].
    split; [done|]. split; [left|]. by left.
Qed.

Definition nobody (_ : string) : RpcAnswer := RpcExists false.

Lemma validator_rejects_only_confirmed_witness :
  may_return (checkAddress false 300 nobody sample_account) (Some false) ∧
  ∃ x, x ∈ [sample_account; sample_account] ∧
       x ∈ default [] (missingAddresses (validate_existence sample_account sample_account (Some false) (Some false))) ∧
       (isValidStellarAccountAddress (JStr x) = false ∨ nobody x = RpcExists false).
Proof.
  assert (may_return (checkAddress false 300 nobody sample_account) (Some false)) as Hm by reflexivity.
  split; [exact Hm|].
  assert (validate_format sample_account sample_account = None) as Hf by (vm_compute; reflexivity).
  pose proof (validator_rejects_only_confirmed false 300 nobody sample_account sample_account _ _ Hm Hm) as Hv.
  cbv zeta in Hv. rewrite Hf in Hv. destruct Hv as [Hv _]. apply Hv. reflexivity.
Defined.
