(* ===== verification/SsrfGuard.v ===== *)
(** * The SSRF guard of webhook targets ([src/webhooks/ssrfGuard.ts])

    Parsing of IPv4 and IPv6 addresses, the blocked ranges, the protocol and
    allowlist checks and the validation of a target URL.

    An accepted target is shown to have an allowed scheme, an allowed host and an
    address outside every blocked range; the IPv4 test is the CIDR table, the IPv6
    parser gives the value of the address in every spelling, and an IPv4 address
    wrapped in an IPv6 one gets the verdict of the IPv4 address.

    The URL parser, [net.isIP] and the DNS are outside the repository: they are
    arguments. *)
From Stdlib Require Import Ascii ZArith Lia.
From stdpp Require Import base gmap strings list numbers.
From S2P Require Import Prelude.
Local Open Scope string_scope.
Local Open Scope list_scope.
Local Open Scope Z_scope.

Definition MAX_WEBHOOK_URL_LENGTH : Z := 2048.
Definition MAX_IP_ADDRESS_LENGTH : Z := 256.

Record IPRange : Type := { name : string; start : Z; end_ : Z; description : string }.

(** ** Text operations *)

(** [s.split(sep)] for a separator of one character. *)
Fixpoint split_char (sep : Ascii.ascii) (l : text) : list text :=
  match l with
  | [] => [[]]
  | c :: l' =>
      if bool_decide (c = sep) then [] :: split_char sep l'
      else match split_char sep l' with
           | w :: ws => (c :: w) :: ws
           | [] => [[c]]
           end
  end.

(** [s.split('::')]: separators are taken from the left and do not overlap. *)
Fixpoint split_colons (l : text) : list text :=
  match l with
  | [] => [[]]
  | c :: l' =>
      match l' with
      | c' :: l'' =>
          if bool_decide (c = ":"%char) && bool_decide (c' = ":"%char) then [] :: split_colons l''
          else match split_colons l' with w :: ws => (c :: w) :: ws | [] => [[c]] end
      | [] => [[c]]
      end
  end.

Definition is_hex_digit (c : Ascii.ascii) : bool :=
  let n := Z.of_nat (Ascii.nat_of_ascii c) in
  ((48 <=? n) && (n <=? 57)) || ((97 <=? n) && (n <=? 102)) || ((65 <=? n) && (n <=? 70)).

Definition hex_digit_val (c : Ascii.ascii) : Z :=
  let n := Z.of_nat (Ascii.nat_of_ascii c) in
  if n <=? 57 then n - 48 else if 97 <=? n then n - 87 else n - 55.

Definition hex_val (l : text) : Z := fold_left (λ a c, a * 16 + hex_digit_val c) l 0.

Definition hex_digit (n : Z) : Ascii.ascii :=
  Ascii.ascii_of_nat (Z.to_nat (if n <? 10 then 48 + n else 87 + n)).

(** [n.toString(16)] for [0 <= n < 2^16]. *)
Definition hex_text (n : Z) : text :=
  if n <? 16 then [hex_digit n]
  else if n <? 256 then [hex_digit (n / 16); hex_digit (n mod 16)]
  else if n <? 4096 then [hex_digit (n / 256); hex_digit (n / 16 mod 16); hex_digit (n mod 16)]
  else [hex_digit (n / 4096); hex_digit (n / 256 mod 16); hex_digit (n / 16 mod 16); hex_digit (n mod 16)].

(** [s.toLowerCase()] on code units below 256. *)
Definition lower_char (c : Ascii.ascii) : Ascii.ascii :=
  let n := Z.of_nat (Ascii.nat_of_ascii c) in
  if ((65 <=? n) && (n <=? 90)) || ((192 <=? n) && (n <=? 222) && negb (n =? 215))
  then Ascii.ascii_of_nat (Z.to_nat (n + 32)) else c.
Definition to_lower (l : text) : text := lower_char <$> l.

(** [s.replace(/^\[|\]$/g, '')] *)
Definition strip_brackets (l : text) : text :=
  let l := match l with c :: r => if bool_decide (c = "["%char) then r else l | [] => [] end in
  match reverse l with c :: r => if bool_decide (c = "]"%char) then reverse r else l | [] => [] end.

(** ** Addresses as numbers *)

(** The loop over the four octets. *)
Fixpoint octet_loop (parts : list (option Z)) (acc : Z) : result string Z :=
  match parts with
  | [] => Ok acc
  | p :: parts' =>
      let part := default 0 p in
      if (part <? 0) || (255 <? part) then Err ("Invalid IPv4 octet: " ++ int_string part)%string
      else octet_loop parts' (Z.shiftl acc 8 + part)
  end.

Definition ipv4ToBigInt (ip : text) : result string Z :=
  let parts := parse_int10 <$> split_char "."%char ip in
  if negb (bool_decide (length parts = 4%nat)) || existsb (λ p, bool_decide (p = None)) parts
  then Err ("Invalid IPv4 address: " ++ unchars ip)%string
  else octet_loop parts 0.

(** [.] in a regular expression: any character but a line terminator. *)
Definition not_newline (c : Ascii.ascii) : bool :=
  negb (bool_decide (c = Ascii.ascii_of_nat 10)) && negb (bool_decide (c = Ascii.ascii_of_nat 13)).

(** [/^(.*:)(\d+\.\d+\.\d+\.\d+)$/]: the second group holds no colon, so the
    first one ends at the last colon. *)
Definition v4_suffix (l : text) : option (text * text) :=
  let '(suffix, rest) := span (λ c, negb (bool_decide (c = ":"%char))) (reverse l) in
  let suffix := reverse suffix in
  let prefix := reverse rest in
  let parts := split_char "."%char suffix in
  if negb (bool_decide (prefix = [])) && forallb not_newline prefix && bool_decide (length parts = 4%nat)
     && forallb (λ p, negb (bool_decide (p = [])) && forallb is_digit p) parts
  then Some (prefix, suffix) else None.

(** [/^[0-9a-f]{1,4}$/i] *)
Definition valid_section (s : text) : bool :=
  bool_decide (1 <= length s <= 4)%nat && forallb is_hex_digit s.

Definition split_sections (s : text) : list text :=
  if bool_decide (s = []) then [] else split_char ":"%char s.

(** The dotted suffix is rewritten as two hexadecimal sections. *)
Definition expand_v4 (normalized : text) : result string text :=
  match v4_suffix normalized with
  | Some (prefix, dotted) =>
      v4 ← ipv4ToBigInt dotted;
      Ok (prefix ++ hex_text (Z.shiftr v4 16) ++ ":"%char :: hex_text (Z.land v4 0xffff))
  | None => Ok normalized
  end.

(** The loop over the sections. *)
Fixpoint section_loop (ip : text) (sections : list text) (acc : Z) : result string Z :=
  match sections with
  | [] => Ok acc
  | s :: sections' =>
      if bool_decide (s = []) then Err ("Invalid IPv6 address (empty section): " ++ unchars ip)%string
      else
        let value := hex_val s in
        if (value <? 0) || (0xffff <? value) then Err ("Invalid IPv6 section: " ++ unchars s)%string
        else section_loop ip sections' (Z.shiftl acc 16 + value)
  end.

Definition invalid_ipv6 (ip : text) : result string Z := Err ("Invalid IPv6 address: " ++ unchars ip)%string.

Definition read_sections (ip : text) (sections : list text) : result string Z :=
  if negb (bool_decide (length sections = 8%nat)) || existsb (λ s, negb (valid_section s)) sections
  then invalid_ipv6 ip else section_loop ip sections 0.

(** [ipv6ToBigInt] after the dotted suffix is expanded. *)
Definition read_compressed (ip normalized : text) : result string Z :=
  match split_colons normalized with
  | [left_] => read_sections ip (split_sections left_)
  | [left_; right_] =>
      let left := split_sections left_ in
      let right := split_sections right_ in
      (* [Array(n)] throws for a negative [n]. *)
      if (8 <? length left + length right)%nat then Err "Invalid array length"
      else read_sections ip (left ++ replicate (8 - length left - length right) ["0"%char] ++ right)
  | _ => invalid_ipv6 ip
  end.

Definition ipv6ToBigInt (ip : text) : result string Z :=
  normalized ← expand_v4 (to_lower (strip_brackets ip)); read_compressed ip normalized.

(** ** Blocked ranges *)

Definition ipv4_literal (s : string) : Z := match ipv4ToBigInt (chars s) with Ok n => n | Err _ => 0 end.

Definition range (n lo hi d : string) : IPRange :=
  {| name := n; start := ipv4_literal lo; end_ := ipv4_literal hi; description := d |}.

Definition BLOCKED_RANGES : list IPRange := [
  range "loopback" "127.0.0.0" "127.255.255.255" "Loopback addresses (127.0.0.0/8)";
  range "link-local" "169.254.0.0" "169.254.255.255" "Link-local addresses (169.254.0.0/16)";
  range "private-10" "10.0.0.0" "10.255.255.255" "Private network (10.0.0.0/8)";
  range "private-172" "172.16.0.0" "172.31.255.255" "Private network (172.16.0.0/12)";
  range "private-192" "192.168.0.0" "192.168.255.255" "Private network (192.168.0.0/16)";
  range "reserved-0" "0.0.0.0" "0.255.255.255" "Reserved addresses (0.0.0.0/8)";
  range "reserved-240" "240.0.0.0" "255.255.255.255" "Reserved addresses (240.0.0.0/4)";
  range "multicast" "224.0.0.0" "239.255.255.255" "Multicast addresses (224.0.0.0/4)" ].

(** The result [{ blocked, reason }]: [Some reason] when blocked. *)
Definition isBlockedIPv4 (ip : text) : option string :=
  match ipv4ToBigInt ip with
  | Ok n =>
      match list_find (λ r, start r <= n ∧ n <= end_ r) BLOCKED_RANGES with
      | Some (_, r) => Some (description r)
      | None => None
      end
  | Err _ => Some "Unparseable IPv4 address"
  end.

(** [bytes.join('.')] *)
Definition dotted (n : Z) : text :=
  let byte shift := int_text (Z.land (Z.shiftr n shift) 0xff) in
  byte 24 ++ ["."%char] ++ byte 16 ++ ["."%char] ++ byte 8 ++ ["."%char] ++ byte 0.

Definition isBlockedIPv6 (ip : text) : option string :=
  match ipv6ToBigInt ip with
  | Ok value =>
      if value =? 0 then Some "IPv6 unspecified address"
      else if value =? 1 then Some "IPv6 loopback address"
      else if Z.shiftr value 32 =? 0xffff then isBlockedIPv4 (dotted value)
      else if Z.shiftr value 118 =? 0x3fa then Some "IPv6 link-local address"
      else if Z.shiftr value 121 =? 0x7e then Some "IPv6 unique local address (private)"
      else None
  | Err _ => Some "Unparseable IPv6 address"
  end.

(** ** Targets *)

(** The parts of a parsed [URL] the guard reads. *)
Record URL : Type := { protocol : string; hostname : string }.

(** [options?.k] *)
Definition js_field (v : jsval) (k : string) : jsval :=
  match v with JObj o => js_get o k | _ => JUndefined end.

(** [v.length === 0] *)
Definition js_length_zero (v : jsval) : bool :=
  match v with
  | JStr s => str_empty s
  | JArr l => bool_decide (length l = 0%nat)
  | JObj o => match js_get o "length" with JNum (NumInt z) => z =? 0 | _ => false end
  | _ => false
  end.

Definition validateProtocol (url : URL) (requireHttps : jsval) : result string unit :=
  if js_truthy requireHttps && negb (bool_decide (protocol url = "https:"))
  then Err ("Webhook URL must use HTTPS, got: " ++ protocol url)%string
  else if negb (bool_decide (protocol url = "http:")) && negb (bool_decide (protocol url = "https:"))
  then Err ("Webhook URL must use HTTP or HTTPS, got: " ++ protocol url)%string
  else Ok tt.

(** [s.startsWith(p)] and [s.endsWith(p)]. *)
Definition starts_with (p l : text) : bool := bool_decide (take (length p) l = p).
Definition ends_with (p l : text) : bool := starts_with (reverse p) (reverse l).

(** One entry of the allowlist against the host, both in lower case. *)
Definition entry_matches (host allowed : text) : bool :=
  bool_decide (allowed = host)
  || (starts_with ["*"; "."]%char allowed
      && let domain := drop 2 allowed in
         bool_decide (host = domain) || ends_with ("."%char :: domain) host).

Fixpoint allowlist_loop (hostname : string) (entries : list jsval) : result string unit :=
  match entries with
  | [] => Err ("Webhook hostname not in allowlist: " ++ hostname)%string
  | JStr allowed :: entries' =>
      if str_empty (js_trim allowed) then Err "Allowlist entries must be non-empty strings"
      else if entry_matches (to_lower (chars hostname)) (to_lower (chars allowed)) then Ok tt
      else allowlist_loop hostname entries'
  | _ :: _ => Err "Allowlist entries must be non-empty strings"
  end.

Definition validateAllowlist (hostname : string) (allowlist : jsval) : result string unit :=
  if negb (js_truthy allowlist) || js_length_zero allowlist then Ok tt
  else
    match allowlist with
    | JArr entries => allowlist_loop hostname entries
    | _ => Err "Allowlist must be an array of hostnames"
    end.

Section guard.
(** [new URL(s)] ([None] when it throws), [net.isIP(s)] and the addresses the DNS
    has for a host ([None] when the lookup fails). *)
Context (parseURL : string → option URL) (isIP : text → Z) (dns : string → option (list string)).

Definition validateWebhookIPAddress (ip : jsval) : result string unit :=
  match ip with
  | JStr ip =>
      let trimmedIp := js_trim ip in
      if str_empty trimmedIp then Err "IP address cannot be empty"
      else if MAX_IP_ADDRESS_LENGTH <? Z.of_nat (length (chars ip))
      then Err ("IP address exceeds maximum length of " ++ int_string MAX_IP_ADDRESS_LENGTH ++ " characters")%string
      else
        let normalizedIp := strip_brackets (chars trimmedIp) in
        let family := isIP normalizedIp in
        if family =? 6 then
          match isBlockedIPv6 normalizedIp with
          | Some reason => Err ("Blocked IPv6 address: " ++ unchars normalizedIp ++ " (" ++ reason ++ ")")%string
          | None => Ok tt
          end
        else if family =? 4 then
          match isBlockedIPv4 normalizedIp with
          | Some reason => Err ("Blocked IPv4 address: " ++ unchars normalizedIp ++ " (" ++ reason ++ ")")%string
          | None => Ok tt
          end
        else Err ("Unparseable IP address: " ++ ip)%string
  | _ => Err "IP address must be a string"
  end.

(** [dns.promises.lookup(hostname, { all: false })] gives the first address. *)
Definition resolveHostname (hostname : string) : result string (list string) :=
  match dns hostname ≫= head with
  | Some address => Ok [address]
  | None => Err ("DNS resolution failed for hostname: " ++ hostname)%string
  end.

Fixpoint validate_all (ips : list string) : result string unit :=
  match ips with
  | [] => Ok tt
  | ip :: ips' => _ ← validateWebhookIPAddress (JStr ip); validate_all ips'
  end.

Definition validateWebhookTarget (url options : jsval) : result string unit :=
  let requireHttps :=
    let v := js_field options "requireHttps" in if js_nullish v then JBool true else v in
  let allowlist := js_field options "allowlist" in
  match url with
  | JStr url =>
      let trimmedUrl := js_trim url in
      if str_empty trimmedUrl then Err "Webhook URL cannot be empty"
      else if MAX_WEBHOOK_URL_LENGTH <? Z.of_nat (length (chars url))
      then Err ("Webhook URL exceeds maximum length of " ++ int_string MAX_WEBHOOK_URL_LENGTH ++ " characters")%string
      else if negb (js_nullish options) && negb (bool_decide (js_typeof options = "object"))
      then Err "Options must be an object"
      else
        match parseURL trimmedUrl with
        | None => Err ("Invalid webhook URL format: " ++ url)%string
        | Some parsedUrl =>
            _ ← validateProtocol parsedUrl requireHttps;
            let hostname := hostname parsedUrl in
            if str_empty hostname || str_empty (js_trim hostname)
            then Err "Webhook URL must include a valid hostname"
            else
              _ ← validateAllowlist hostname allowlist;
              let isDirectIP := negb (isIP (strip_brackets (chars hostname)) =? 0) in
              if isDirectIP then validateWebhookIPAddress (JStr hostname)
              else resolvedIPs ← resolveHostname hostname; validate_all resolvedIPs
        end
  | _ => Err "Webhook URL must be a string"
  end.
End guard.

#[global] Arguments hex_val : simpl never.
#[global] Arguments split_colons : simpl never.
#[global] Arguments BLOCKED_RANGES : simpl never.

(** ** Splitting and joining *)
Lemma split_char_word sep w : sep ∉ w → split_char sep w = [w].
Proof.
  induction w as [|c w IH]; [done|]. rewrite not_elem_of_cons. intros [Hc Hw]. simpl.
  rewrite bool_decide_false by done. by rewrite IH.
Qed.

Lemma split_char_app sep w l : sep ∉ w → split_char sep (w ++ sep :: l) = w :: split_char sep l.
Proof.
  induction w as [|c w IH]; simpl; [by rewrite bool_decide_true|].
  rewrite not_elem_of_cons. intros [Hc Hw]. rewrite bool_decide_false by done. by rewrite IH.
Qed.

Lemma split_char_join sep ws :
  ws ≠ [] → Forall (λ w, sep ∉ w) ws → split_char sep (join sep ws) = ws.
Proof.
  intros Hne Hf. induction Hf as [|w ws Hw Hws IH]; [done|]. destruct ws as [|w' ws].
  - by apply split_char_word.
  - cbn [join]. rewrite split_char_app by done. f_equal. by apply IH.
Qed.

Lemma not_in_class (p : Ascii.ascii → bool) c w : forallb p w = true → p c = false → c ∉ w.
Proof.
  intros Hw Hc Hin. rewrite forallb_forall in Hw. apply list_elem_of_In in Hin.
  specialize (Hw c Hin). congruence.
Qed.

(** ** IPv4 *)
Definition quad (a b c d : Z) : text := join "."%char [int_text a; int_text b; int_text c; int_text d].
Definition octet (z : Z) : Prop := 0 <= z < 256.

Lemma ipv4_quad a b c d : octet a → octet b → octet c → octet d →
  ipv4ToBigInt (quad a b c d) = Ok (((a * 256 + b) * 256 + c) * 256 + d).
Proof.
  unfold octet. intros Ha Hb Hc Hd.
  assert (∀ z, 0 <= z < 256 → "."%char ∉ int_text z ∧ parse_int10 (int_text z) = Some z) as Hp.
  { intros z Hz. destruct (int_text_digits z ltac:(lia)) as (Hne & Hdig & Hv). split.
    - by apply (not_in_class is_digit).
    - by rewrite parse_int10_digits, Hv. }
  unfold ipv4ToBigInt, quad. rewrite split_char_join; [|done|].
  2:{ repeat (apply Forall_cons_2; [by apply Hp|]). apply Forall_nil_2. }
  cbn [fmap list_fmap]. rewrite (proj2 (Hp a Ha)), (proj2 (Hp b Hb)), (proj2 (Hp c Hc)), (proj2 (Hp d Hd)).
  cbn. rewrite !Z.shiftl_mul_pow2 by lia. change (2 ^ 8) with 256.
  assert (∀ z, 0 <= z < 256 → ((z <? 0) || (255 <? z)) = false) as Ht by (intros z Hz; rewrite orb_false_iff, !Z.ltb_ge; lia).
  rewrite !Ht by lia. reflexivity.
Qed.

Lemma octet_loop_bound parts acc n : 0 <= acc → octet_loop parts acc = Ok n →
  0 <= n < (acc + 1) * 256 ^ Z.of_nat (length parts).
Proof.
  revert acc. induction parts as [|p parts IH]; intros acc Hacc; cbn [octet_loop length]; [intros [= <-]; lia|].
  case_match eqn:Hb; [done|]. rewrite orb_false_iff, !Z.ltb_ge in Hb.
  rewrite Z.shiftl_mul_pow2 by lia. intros Hn%IH; [|lia].
  rewrite Nat2Z.inj_succ, Z.pow_succ_r by lia. pose proof (Z.pow_pos_nonneg 256 (Z.of_nat (length parts))). nia.
Qed.

Lemma ipv4_bound ip n : ipv4ToBigInt ip = Ok n → 0 <= n < 2 ^ 32.
Proof.
  unfold ipv4ToBigInt. case_match eqn:Hb; [done|]. rewrite orb_false_iff, negb_false_iff, bool_decide_eq_true in Hb.
  destruct Hb as [Hl _]. intros Hn%octet_loop_bound; [|done]. rewrite Hl in Hn. lia.
Qed.

(** The blocked blocks: prefix and prefix length. *)
Definition BLOCKED_CIDRS : list (Z * Z) :=
  [(127, 8); (169 * 256 + 254, 16); (10, 8); (172 * 16 + 1, 12); (192 * 256 + 168, 16); (0, 8); (15, 4); (14, 4)].
Definition public_v4 (n : Z) : Prop := Forall (λ b, n / 2 ^ (32 - b.2) ≠ b.1) BLOCKED_CIDRS.

Lemma div_prefix n m p : 0 < m → n / m = p ↔ p * m <= n ∧ n <= p * m + m - 1.
Proof.
  intros Hm. split.
  - intros <-. pose proof (Z.mul_div_le n m Hm). pose proof (Z.mul_succ_div_gt n m Hm). lia.
  - intros Hn. symmetry. apply (Z.div_unique _ _ _ (n - p * m)); lia.
Qed.

Lemma BLOCKED_RANGES_bounds :
  (λ r, (start r, end_ r)) <$> BLOCKED_RANGES =
  (λ b, (b.1 * 2 ^ (32 - b.2), b.1 * 2 ^ (32 - b.2) + 2 ^ (32 - b.2) - 1)) <$> BLOCKED_CIDRS.
Proof. vm_compute. reflexivity. Qed.

Lemma ranges_are_cidrs n :
  list_find (λ r, start r <= n ∧ n <= end_ r) BLOCKED_RANGES = None ↔ public_v4 n.
Proof.
  rewrite list_find_None. unfold public_v4.
  transitivity (Forall (λ p, ¬ (p.1 <= n ∧ n <= p.2)) ((λ r, (start r, end_ r)) <$> BLOCKED_RANGES)).
  - rewrite Forall_fmap. done.
  - rewrite BLOCKED_RANGES_bounds, Forall_fmap. unfold BLOCKED_CIDRS.
    rewrite !list.Forall_cons, !list.Forall_nil. cbn [compose fst snd].
    rewrite !div_prefix by lia. done.
Qed.

(** ** IPv6 *)

Definition colon : Ascii.ascii := ":"%char.
Definition prepend (c : Ascii.ascii) (ws : list text) : list text :=
  match ws with w :: ws' => (c :: w) :: ws' | [] => [[c]] end.

Lemma split_colons_char c l : c ≠ colon → split_colons (c :: l) = prepend c (split_colons l).
Proof.
  intros Hc. destruct l as [|c' l]; [done|].
  change (split_colons (c :: c' :: l)) with
    (if bool_decide (c = ":"%char) && bool_decide (c' = ":"%char) then [] :: split_colons l
     else prepend c (split_colons (c' :: l))).
  by rewrite (bool_decide_false (c = ":"%char)).
Qed.

Lemma split_colons_single c l : c ≠ colon → split_colons (colon :: c :: l) = prepend colon (split_colons (c :: l)).
Proof.
  intros Hc. change (split_colons (colon :: c :: l)) with
    (if bool_decide (colon = ":"%char) && bool_decide (c = ":"%char) then [] :: split_colons l
     else prepend colon (split_colons (c :: l))).
  by rewrite (bool_decide_false (c = ":"%char)), andb_false_r.
Qed.

(** A list of sections, as between the colons of an address. *)
Definition sections (ws : list text) : Prop := Forall (λ g, valid_section g = true) ws.

Lemma valid_section_spec g : valid_section g = true → g ≠ [] ∧ (length g <= 4)%nat ∧ forallb is_hex_digit g = true.
Proof.
  unfold valid_section. rewrite andb_true_iff, bool_decide_eq_true. intros [Hl Hh]. splits; [|lia|done].
  intros ->. simpl in Hl. lia.
Qed.

Lemma section_no_char g c : valid_section g = true → is_hex_digit c = false → c ∉ g.
Proof. intros (_ & _ & Hh)%valid_section_spec Hc. by apply (not_in_class is_hex_digit). Qed.

Lemma join_no_char ws c : sections ws → is_hex_digit c = false → c ≠ colon → c ∉ join colon ws.
Proof.
  intros Hs Hc Hcol. induction Hs as [|g ws Hg Hs IH]; [apply not_elem_of_nil|].
  pose proof (section_no_char g c Hg Hc). destruct ws; [done|]. cbn [join].
  rewrite not_elem_of_app, not_elem_of_cons. naive_solver.
Qed.

Lemma join_head ws c r : sections ws → join colon ws = c :: r → c ≠ colon.
Proof.
  intros Hs Hj ->. destruct ws as [|g ws]; [done|]. apply Forall_inv in Hs as Hg.
  pose proof (section_no_char g colon Hg eq_refl) as Hc. apply valid_section_spec in Hg as (Hne & _).
  destruct g as [|x g]; [done|]. destruct ws; simpl in Hj; simplify_eq; apply Hc; left.
Qed.

Lemma join_nil ws : sections ws → join colon ws = [] → ws = [].
Proof.
  intros Hs Hj. destruct ws as [|g ws]; [done|]. apply Forall_inv, valid_section_spec in Hs as (Hne & _).
  destruct g; [done|]. by destruct ws.
Qed.

Lemma split_colons_word g l :
  colon ∉ g → split_colons (g ++ l) = foldr prepend (split_colons l) g.
Proof.
  induction g as [|c g IH]; [done|]. rewrite not_elem_of_cons. intros [Hc Hg]. cbn [app foldr].
  rewrite split_colons_char by done. by rewrite IH.
Qed.

Lemma foldr_prepend g w ws : foldr prepend (w :: ws) g = (g ++ w) :: ws.
Proof. induction g as [|c g IH]; [done|]. simpl. by rewrite IH. Qed.

(** Sections joined by single colons, then two colons or the end. *)
Lemma split_colons_join ws rest w0 rs :
  sections ws → split_colons rest = w0 :: rs → (w0 = [] ∧ (rs ≠ [] ∨ rest = [])) →
  split_colons (join colon ws ++ rest) = (join colon ws ++ w0) :: rs.
Proof.
  intros Hs Hr Hw0. induction Hs as [|g ws Hg Hs IH]; [done|].
  pose proof (section_no_char g colon Hg eq_refl) as Hc. destruct ws as [|g' ws].
  - cbn [join]. by rewrite split_colons_word, Hr, foldr_prepend by done.
  - change (join colon (g :: g' :: ws)) with (g ++ colon :: join colon (g' :: ws)).
    set (j := join colon (g' :: ws)) in *.
    rewrite <-app_assoc, split_colons_word by done. cbn [app].
    destruct (j ++ rest) as [|c r] eqn:Hj.
    { apply app_eq_nil in Hj as [Hj _]. by apply (join_nil (g' :: ws) Hs) in Hj. }
    assert (c ≠ colon).
    { destruct j as [|x j'] eqn:Hjx; [by apply (join_nil (g' :: ws) Hs) in Hjx|]. cbn [app] in Hj. injection Hj as -> _.
      exact (join_head (g' :: ws) c j' Hs Hjx). }
    rewrite split_colons_single, IH by done. cbn [prepend].
    by rewrite foldr_prepend, <-app_assoc.
Qed.

Lemma split_sections_join ws : sections ws → split_sections (join colon ws) = ws.
Proof.
  intros Hs. unfold split_sections. case_bool_decide as Hj; [by apply join_nil in Hj|].
  apply split_char_join; [by intros ->|]. eapply list.Forall_impl; [exact Hs|].
  intros g Hg. by apply section_no_char.
Qed.

(** Lower case keeps the class and the value of hexadecimal digits and the
    separators. *)
Lemma lower_hex c : is_hex_digit (lower_char c) = is_hex_digit c ∧
  (is_hex_digit c = true → hex_digit_val (lower_char c) = hex_digit_val c).
Proof. destruct c as [[] [] [] [] [] [] [] []]; split; try done; intros; reflexivity. Qed.

Lemma to_lower_app l1 l2 : to_lower (l1 ++ l2) = to_lower l1 ++ to_lower l2.
Proof. apply fmap_app. Qed.

Lemma to_lower_join ws : to_lower (join colon ws) = join colon (to_lower <$> ws).
Proof.
  induction ws as [|g ws IH]; [done|]. destruct ws as [|g' ws]; [done|].
  change (join colon (g :: g' :: ws)) with (g ++ colon :: join colon (g' :: ws)).
  rewrite to_lower_app. change (to_lower (colon :: join colon (g' :: ws))) with (colon :: to_lower (join colon (g' :: ws))).
  by rewrite IH.
Qed.

Lemma hex_val_fold g acc : fold_left (λ a c, a * 16 + hex_digit_val c) g acc = acc * 16 ^ Z.of_nat (length g) + hex_val g.
Proof.
  revert acc. induction g as [|c g IH]; intros acc; [unfold hex_val; simpl; lia|].
  unfold hex_val. cbn [fold_left length]. rewrite !IH, Nat2Z.inj_succ, Z.pow_succ_r by lia. ring.
Qed.

Lemma hex_val_cons c g : hex_val (c :: g) = hex_digit_val c * 16 ^ Z.of_nat (length g) + hex_val g.
Proof. unfold hex_val at 1. cbn [fold_left]. by rewrite hex_val_fold. Qed.

Lemma hex_val_bound g : forallb is_hex_digit g = true → 0 <= hex_val g < 16 ^ Z.of_nat (length g).
Proof.
  induction g as [|c g IH]; [done|]. cbn [forallb]. intros [Hc Hg]%andb_true_iff. specialize (IH Hg).
  rewrite hex_val_cons. cbn [length]. rewrite Nat2Z.inj_succ, Z.pow_succ_r by lia.
  assert (0 <= hex_digit_val c < 16); [|nia].
  destruct c as [[] [] [] [] [] [] [] []]; try discriminate; vm_compute; split; congruence.
Qed.

Lemma section_bound g : valid_section g = true → 0 <= hex_val g < 65536.
Proof.
  intros (_ & Hl & Hh)%valid_section_spec. apply hex_val_bound in Hh.
  pose proof (Z.pow_le_mono_r 16 (Z.of_nat (length g)) 4). lia.
Qed.

Lemma lower_section g : valid_section g = true →
  valid_section (to_lower g) = true ∧ hex_val (to_lower g) = hex_val g.
Proof.
  intros Hv. unfold valid_section in *.
  assert (length (to_lower g) = length g) as -> by apply length_fmap.
  apply andb_true_iff in Hv as [-> Hh]. cbn [andb]. induction g as [|c g IH]; [done|].
  cbn [forallb] in Hh. apply andb_true_iff in Hh as [Hc Hg]. destruct (IH Hg) as [IH1 IH2].
  destruct (lower_hex c) as [H1 H2]. change (to_lower (c :: g)) with (lower_char c :: to_lower g). split.
  - cbn [forallb]. by rewrite H1, Hc, IH1.
  - rewrite !hex_val_cons, IH2, H2 by done. unfold to_lower. by rewrite length_fmap.
Qed.

Lemma lower_sections ws : sections ws →
  sections (to_lower <$> ws) ∧ hex_val <$> (to_lower <$> ws) = hex_val <$> ws.
Proof.
  intros Hs. induction Hs as [|g ws Hg Hs [IH1 IH2]]; [by split; [constructor|]|]. destruct (lower_section g Hg) as [H1 H2]. split.
  - by constructor.
  - rewrite !fmap_cons. by rewrite H2, IH2.
Qed.

(** The number that eight sections stand for. *)
Definition sections_val (vs : list Z) : Z := fold_left (λ a v, a * 65536 + v) vs 0.

Lemma section_loop_val ip ws acc : sections ws →
  section_loop ip ws acc = Ok (fold_left (λ a v, a * 65536 + v) (hex_val <$> ws) acc).
Proof.
  intros Hs. revert acc. induction Hs as [|g ws Hg Hs IH]; intros acc; [done|]. cbn [section_loop].
  pose proof (section_bound g Hg). apply valid_section_spec in Hg as (Hne & _). rewrite bool_decide_false by done.
  rewrite (proj2 (Z.ltb_ge (hex_val g) 0)), (proj2 (Z.ltb_ge 0xffff (hex_val g))) by lia. cbn [orb].
  rewrite IH, Z.shiftl_mul_pow2 by lia. done.
Qed.

Lemma read_sections_val ip ws : sections ws → length ws = 8%nat →
  read_sections ip ws = Ok (sections_val (hex_val <$> ws)).
Proof.
  intros Hs Hl. unfold read_sections. rewrite bool_decide_true by done.
  replace (existsb (λ s, negb (valid_section s)) ws) with false; [by apply section_loop_val|].
  symmetry. apply not_true_is_false. rewrite existsb_exists. intros (g & Hin%list_elem_of_In & Hg).
  unfold sections in Hs. rewrite list.Forall_forall in Hs. by rewrite Hs in Hg.
Qed.

Lemma read_sections_inv ip ws v : read_sections ip ws = Ok v →
  sections ws ∧ length ws = 8%nat ∧ v = sections_val (hex_val <$> ws).
Proof.
  unfold read_sections. case_match eqn:Hc; [done|]. rewrite orb_false_iff, negb_false_iff, bool_decide_eq_true in Hc.
  destruct Hc as [Hl He]. intros Hv. assert (sections ws) as Hs.
  { apply list.Forall_forall. intros g Hg. apply not_false_is_true. intros Hf.
    assert (existsb (λ s, negb (valid_section s)) ws = true); [|congruence].
    apply existsb_exists. exists g. by rewrite Hf, <-list_elem_of_In. }
  split; [done|]. split; [done|]. rewrite section_loop_val in Hv by done. by injection Hv.
Qed.

(** The spellings of eight sections: in full, or with a run of zeros written as two
    colons. *)
Inductive spelled : list text → text → Prop :=
| spelled_full ws : spelled ws (join colon ws)
| spelled_short left_ n right_ :
    spelled (left_ ++ replicate n ["0"%char] ++ right_) (join colon left_ ++ colon :: colon :: join colon right_).

Lemma read_spelled ip ws l : spelled ws l → sections ws → length ws = 8%nat →
  read_compressed ip l = Ok (sections_val (hex_val <$> ws)).
Proof.
  intros Hsp Hs Hl. unfold read_compressed. destruct Hsp as [ws|left_ n right_].
  - pose proof (split_colons_join ws [] [] [] Hs eq_refl ltac:(auto)) as Hc.
    rewrite !app_nil_r in Hc. rewrite Hc, split_sections_join by done. by apply read_sections_val.
  - apply Forall_app in Hs as Hs'. destruct Hs' as [Hsl [_ Hsr]%Forall_app].
    pose proof (split_colons_join right_ [] [] [] Hsr eq_refl ltac:(auto)) as Hr. rewrite !app_nil_r in Hr.
    assert (split_colons (colon :: colon :: join colon right_) = [] :: [join colon right_]) as Hr2.
    { change (split_colons (colon :: colon :: join colon right_)) with ([] :: split_colons (join colon right_)).
      by rewrite Hr. }
    rewrite (split_colons_join left_ _ _ _ Hsl Hr2) by (split; [done|by left]). rewrite app_nil_r.
    rewrite !split_sections_join by done. rewrite !length_app, length_replicate in Hl.
    destruct (Nat.ltb_spec 8 (length left_ + length right_)); [lia|].
    replace (8 - length left_ - length right_)%nat with n by lia.
    apply read_sections_val; [done|]. rewrite !length_app, length_replicate. lia.
Qed.

(** Whatever is read, the number has 128 bits. *)
Lemma fold_sections_bound ws acc : sections ws → 0 <= acc →
  0 <= fold_left (λ a v, a * 65536 + v) (hex_val <$> ws) acc < (acc + 1) * 65536 ^ Z.of_nat (length ws).
Proof.
  intros Hs. revert acc. induction Hs as [|g ws Hg Hs IH]; intros acc Hacc; [simpl; lia|].
  apply section_bound in Hg. cbn [fmap list_fmap fold_left length]. specialize (IH (acc * 65536 + hex_val g) ltac:(lia)).
  rewrite Nat2Z.inj_succ, Z.pow_succ_r by lia. pose proof (Z.pow_pos_nonneg 65536 (Z.of_nat (length ws))). nia.
Qed.

Lemma ipv6_bound ip v : ipv6ToBigInt ip = Ok v → 0 <= v < 2 ^ 128.
Proof.
  assert (∀ ws, read_sections ip ws = Ok v → 0 <= v < 2 ^ 128) as Hr.
  { intros ws (Hs & Hl & ->)%read_sections_inv. pose proof (fold_sections_bound ws 0 Hs ltac:(lia)) as Hb.
    rewrite Hl in Hb. exact Hb. }
  unfold ipv6ToBigInt. destruct (expand_v4 _) as [normalized|]; [|done]. cbn.
  unfold read_compressed. destruct (split_colons normalized) as [|l [|r [|]]]; try done; [by apply Hr|].
  case_match; [done|]. by apply Hr.
Qed.

(** Without brackets and dots the address is read as it stands. *)
Lemma strip_brackets_none l : "["%char ∉ l → "]"%char ∉ l → strip_brackets l = l.
Proof.
  intros Hl Hr. unfold strip_brackets. destruct l as [|c r]; [done|].
  rewrite bool_decide_false by (intros ->; apply Hl; left).
  destruct (reverse (c :: r)) as [|x y] eqn:Hx; [|].
  - by apply (f_equal length) in Hx; rewrite length_reverse in Hx.
  - rewrite bool_decide_false; [done|]. intros ->. apply Hr. apply elem_of_reverse. rewrite Hx. left.
Qed.

Lemma strip_brackets_both l : "]"%char ∉ l → strip_brackets ("["%char :: l ++ ["]"%char]) = l.
Proof.
  intros Hr. unfold strip_brackets. rewrite bool_decide_true by done.
  rewrite reverse_app. cbn. rewrite bool_decide_true by done. apply reverse_involutive.
Qed.

Lemma v4_suffix_no_dot l : "."%char ∉ l → v4_suffix l = None.
Proof.
  intros Hd. unfold v4_suffix. destruct (span _ (reverse l)) as [suffix rest] eqn:Hs.
  apply span_spec in Hs as (Hl & _). rewrite split_char_word; [cbn [length]|].
  - rewrite (bool_decide_false (1%nat = 4%nat)) by done. by rewrite andb_false_r.
  - intros Hin. apply Hd. apply elem_of_reverse. rewrite Hl. apply elem_of_app. left. by apply elem_of_reverse.
Qed.

Lemma spelled_no_char ws l c : spelled ws l → sections ws → is_hex_digit c = false → c ≠ colon → c ∉ l.
Proof.
  intros Hsp Hs Hc Hcol. destruct Hsp as [ws|left_ n right_]; [by apply join_no_char|].
  apply Forall_app in Hs as [Hsl [_ Hsr]%Forall_app]. rewrite not_elem_of_app, !not_elem_of_cons.
  pose proof (join_no_char left_ c Hsl Hc Hcol). pose proof (join_no_char right_ c Hsr Hc Hcol). naive_solver.
Qed.

Lemma spelled_lower ws l : spelled ws l → spelled (to_lower <$> ws) (to_lower l).
Proof.
  intros [ws'|left_ n right_]; [rewrite to_lower_join; constructor|].
  rewrite to_lower_app. change (to_lower (colon :: colon :: join colon right_)) with
    (colon :: colon :: to_lower (join colon right_)).
  rewrite !to_lower_join, !fmap_app, fmap_replicate. constructor.
Qed.

Lemma ipv6_spelled ws l : spelled ws l → sections ws → length ws = 8%nat →
  ipv6ToBigInt l = Ok (sections_val (hex_val <$> ws)) ∧
  ipv6ToBigInt ("["%char :: l ++ ["]"%char]) = Ok (sections_val (hex_val <$> ws)).
Proof.
  intros Hsp Hs Hl.
  assert (∀ ip, strip_brackets ip = l → ipv6ToBigInt ip = Ok (sections_val (hex_val <$> ws))) as Hip.
  { intros ip Hip. unfold ipv6ToBigInt, expand_v4. rewrite Hip.
    destruct (lower_sections ws Hs) as [Hs' Hv]. pose proof (spelled_lower ws l Hsp) as Hsp'.
    rewrite v4_suffix_no_dot by (by eapply spelled_no_char). cbn.
    rewrite (read_spelled ip _ _ Hsp' Hs') by by rewrite length_fmap. by rewrite Hv. }
  split; apply Hip.
  - by apply strip_brackets_none; eapply spelled_no_char.
  - apply strip_brackets_both. by eapply spelled_no_char.
Qed.

(** *** Dotted suffixes *)
Lemma hex_digit_spec d : 0 <= d < 16 →
  is_hex_digit (hex_digit d) = true ∧ hex_digit_val (hex_digit d) = d ∧ lower_char (hex_digit d) = hex_digit d.
Proof.
  intros Hd. assert (forallb (λ d, is_hex_digit (hex_digit d) && (hex_digit_val (hex_digit d) =? d)
    && bool_decide (lower_char (hex_digit d) = hex_digit d)) (seqZ 0 16) = true) as Hc by (vm_compute; reflexivity).
  rewrite forallb_forall in Hc. specialize (Hc d). rewrite <-list_elem_of_In, elem_of_seqZ in Hc.
  specialize (Hc ltac:(lia)). rewrite !andb_true_iff, Z.eqb_eq, bool_decide_eq_true in Hc. naive_solver.
Qed.

#[global] Arguments hex_digit : simpl never.

Lemma base16_fold ds acc :
  fold_left (λ a d, a * 16 + d) ds acc = acc * 16 ^ Z.of_nat (length ds) + fold_left (λ a d, a * 16 + d) ds 0.
Proof.
  revert acc. induction ds as [|d ds IH]; intros acc; [simpl; lia|]. cbn [fold_left length].
  rewrite (IH (acc * 16 + d)), (IH (0 * 16 + d)), Nat2Z.inj_succ, Z.pow_succ_r by lia. ring.
Qed.

Lemma hex_digits_spec ds : Forall (λ d, 0 <= d < 16) ds →
  forallb is_hex_digit (hex_digit <$> ds) = true ∧ to_lower (hex_digit <$> ds) = hex_digit <$> ds ∧
  hex_val (hex_digit <$> ds) = fold_left (λ a d, a * 16 + d) ds 0.
Proof.
  intros Hf. induction Hf as [|d ds Hd Hf (IH1 & IH2 & IH3)] using Forall_ind; [done|].
  destruct (hex_digit_spec d Hd) as (H1 & H2 & H3). rewrite fmap_cons. splits.
  - cbn [forallb]. by rewrite H1, IH1.
  - change (lower_char (hex_digit d) :: to_lower (hex_digit <$> ds) = hex_digit d :: (hex_digit <$> ds)).
    by rewrite H3, IH2.
  - rewrite hex_val_cons, H2, IH3, length_fmap. cbn [fold_left]. by rewrite (base16_fold ds (0 * 16 + d)).
Qed.

Lemma hex_text_spec n : 0 <= n < 65536 →
  valid_section (hex_text n) = true ∧ hex_val (hex_text n) = n ∧ to_lower (hex_text n) = hex_text n.
Proof.
  intros Hn.
  assert (∃ ds, hex_text n = hex_digit <$> ds ∧ (1 <= length ds <= 4)%nat ∧ Forall (λ d, 0 <= d < 16) ds ∧
                fold_left (λ a d, a * 16 + d) ds 0 = n) as (ds & -> & Hl & Hf & Hv).
  { unfold hex_text.
    pose proof (Z.div_mod n 16 ltac:(lia)). pose proof (Z.mod_pos_bound n 16 ltac:(lia)).
    pose proof (Z.div_mod (n / 16) 16 ltac:(lia)). pose proof (Z.mod_pos_bound (n / 16) 16 ltac:(lia)).
    pose proof (Z.div_mod (n / 256) 16 ltac:(lia)). pose proof (Z.mod_pos_bound (n / 256) 16 ltac:(lia)).
    rewrite Z.div_div in * by lia. change (16 * 16) with 256 in *. change (256 * 16) with 4096 in *.
    cmp; [exists [n]|exists [n / 16; n mod 16]|exists [n / 256; n / 16 mod 16; n mod 16]
         |exists [n / 4096; n / 256 mod 16; n / 16 mod 16; n mod 16]];
      (split; [done|split; [simpl; lia|split; [repeat constructor; lia|cbn [fold_left]; lia]]]). }
  destruct (hex_digits_spec ds Hf) as (H1 & H2 & H3). splits; [|congruence|done].
  unfold valid_section. by rewrite length_fmap, H1, bool_decide_true.
Qed.

(** The characters of a dotted quad. *)
Definition quad_char (c : Ascii.ascii) : bool := is_digit c || bool_decide (c = "."%char).

Lemma quad_chars a b c d : octet a → octet b → octet c → octet d → forallb quad_char (quad a b c d) = true.
Proof.
  unfold octet. intros Ha Hb Hc Hd.
  assert (∀ z, 0 <= z < 256 → forallb quad_char (int_text z) = true) as Hz.
  { intros z Hz. destruct (int_text_digits z ltac:(lia)) as (_ & Hdig & _). rewrite forallb_forall in *.
    intros x Hx. unfold quad_char. by rewrite (Hdig x Hx). }
  unfold quad. cbn [join]. rewrite !forallb_app. cbn [forallb]. rewrite !forallb_app. cbn [forallb].
  rewrite !forallb_app. cbn [forallb]. rewrite !Hz by done. done.
Qed.

Lemma quad_char_lower c : quad_char c = true → lower_char c = c.
Proof. destruct c as [[] [] [] [] [] [] [] []]; intros Hc; first [reflexivity|discriminate]. Qed.

Lemma to_lower_id l : forallb quad_char l = true → to_lower l = l.
Proof.
  induction l as [|c l IH]; [done|]. cbn [forallb]. intros [Hc Hl]%andb_true_iff.
  change (lower_char c :: to_lower l = c :: l). by rewrite quad_char_lower, IH.
Qed.

Lemma v4_suffix_quad p a b c d : octet a → octet b → octet c → octet d → forallb not_newline p = true →
  v4_suffix (p ++ colon :: quad a b c d) = Some (p ++ [colon], quad a b c d).
Proof.
  intros Ha Hb Hc Hd Hp. pose proof (quad_chars a b c d Ha Hb Hc Hd) as Hq. unfold v4_suffix.
  rewrite reverse_app, reverse_cons, <-app_assoc.
  assert (forallb (λ c, negb (bool_decide (c = ":"%char))) (reverse (quad a b c d)) = true) as Hnc.
  { rewrite forallb_reverse. rewrite forallb_forall in *. intros x Hx. specialize (Hq x Hx).
    rewrite negb_true_iff, bool_decide_eq_false. by intros ->. }
  rewrite (span_all _ _ ([colon] ++ reverse p) Hnc) by done. rewrite reverse_involutive, reverse_app, reverse_involutive.
  change (reverse [colon]) with [colon].
  assert (Forall (λ w, "."%char ∉ w) [int_text a; int_text b; int_text c; int_text d]) as Hf.
  { unfold octet in *. repeat (apply Forall_cons_2; [apply (not_in_class is_digit); [|done];
      by apply int_text_digits; lia|]). apply Forall_nil_2. }
  assert (split_char "."%char (quad a b c d) = [int_text a; int_text b; int_text c; int_text d]) as ->
    by by apply split_char_join.
  rewrite (bool_decide_true (length _ = 4%nat)) by done.
  rewrite forallb_app, Hp. rewrite (bool_decide_false (p ++ [colon] = [])) by (by destruct p).
  cbn [forallb].
  assert (∀ z, octet z → negb (bool_decide (int_text z = [])) && forallb is_digit (int_text z) = true) as Hz.
  { intros z Hz. destruct (int_text_digits z) as (Hne & -> & _); [by destruct Hz|]. by rewrite bool_decide_false. }
  by rewrite !Hz by done.
Qed.

Lemma newline_lower p : (∀ x, is_hex_digit x = false → x ≠ colon → x ∉ p) → forallb not_newline (to_lower p) = true.
Proof.
  intros Hp. induction p as [|c p IH]; [done|]. change (to_lower (c :: p)) with (lower_char c :: to_lower p).
  cbn [forallb]. rewrite IH; [|intros x Hx Hxc Hin; by apply (Hp x Hx Hxc); right]. rewrite andb_true_r.
  destruct (not_newline (lower_char c)) eqn:Hn; [done|exfalso]. apply (Hp c); [| |left].
  - destruct c as [[] [] [] [] [] [] [] []]; try discriminate; reflexivity.
  - by intros ->.
Qed.

(** A dotted suffix stands for its two hexadecimal sections. *)
Lemma ipv6_dotted ws p a b c d : octet a → octet b → octet c → octet d →
  spelled ws (p ++ colon :: hex_text (a * 256 + b) ++ colon :: hex_text (c * 256 + d)) →
  sections ws → length ws = 8%nat →
  ipv6ToBigInt (p ++ colon :: quad a b c d) = Ok (sections_val (hex_val <$> ws)).
Proof.
  intros Ha Hb Hc Hd Hsp Hs Hl. pose proof (quad_chars a b c d Ha Hb Hc Hd) as Hq.
  assert (∀ x, is_hex_digit x = false → x ≠ colon → x ∉ p) as Hp.
  { intros x Hx Hxc Hin. apply (spelled_no_char _ _ x Hsp Hs Hx Hxc). apply elem_of_app. by left. }
  assert (∀ x, quad_char x = false → x ≠ colon → is_hex_digit x = false → x ∉ p ++ colon :: quad a b c d) as Hno.
  { intros x Hx Hxc Hxh. rewrite not_elem_of_app, not_elem_of_cons. split; [by apply Hp|]. split; [done|].
    by apply (not_in_class quad_char). }
  unfold ipv6ToBigInt, expand_v4. rewrite strip_brackets_none by by apply Hno.
  rewrite to_lower_app. change (to_lower (colon :: quad a b c d)) with (colon :: to_lower (quad a b c d)).
  rewrite (to_lower_id (quad a b c d)) by done.
  rewrite v4_suffix_quad, ipv4_quad by (done || by apply newline_lower).
  cbn [mbind result_bind]. set (n := ((a * 256 + b) * 256 + c) * 256 + d).
  assert (Z.shiftr n 16 = a * 256 + b ∧ Z.land n 0xffff = c * 256 + d) as [-> ->].
  { unfold octet in *. rewrite Z.shiftr_div_pow2 by lia. change 0xffff with (Z.ones 16). rewrite Z.land_ones by lia.
    split; symmetry; [apply (Z.div_unique _ _ _ (c * 256 + d))|apply (Z.mod_unique _ _ (a * 256 + b))]; lia. }
  destruct (hex_text_spec (a * 256 + b) ltac:(unfold octet in *; lia)) as (_ & _ & H1).
  destruct (hex_text_spec (c * 256 + d) ltac:(unfold octet in *; lia)) as (_ & _ & H2).
  pose proof (spelled_lower _ _ Hsp) as Hsp'. rewrite to_lower_app in Hsp'.
  change (to_lower (colon :: ?x)) with (colon :: to_lower x) in Hsp'. rewrite to_lower_app, H1 in Hsp'.
  change (to_lower (colon :: ?x)) with (colon :: to_lower x) in Hsp'. rewrite H2 in Hsp'.
  destruct (lower_sections ws Hs) as [Hs' Hv]. rewrite <-app_assoc. cbn [app].
  rewrite (read_spelled _ _ _ Hsp' Hs') by by rewrite length_fmap. by rewrite Hv.
Qed.

(** ** Verdicts *)
Lemma dotted_value n : 0 <= n → ipv4ToBigInt (dotted n) = Ok (n mod 2 ^ 32).
Proof.
  intros Hn.
  assert (∀ k, 0 <= k → octet (Z.land (Z.shiftr n k) 0xff) ∧ Z.land (Z.shiftr n k) 0xff = n / 2 ^ k mod 256) as Ho.
  { intros k Hk. change 0xff with (Z.ones 8). rewrite Z.land_ones, Z.shiftr_div_pow2 by lia.
    split; [|done]. apply Z.mod_pos_bound. lia. }
  change (dotted n) with (quad (Z.land (Z.shiftr n 24) 0xff) (Z.land (Z.shiftr n 16) 0xff)
                               (Z.land (Z.shiftr n 8) 0xff) (Z.land (Z.shiftr n 0) 0xff)).
  rewrite ipv4_quad by (apply Ho; lia). 
  rewrite (proj2 (Ho 24 ltac:(lia))), (proj2 (Ho 16 ltac:(lia))), (proj2 (Ho 8 ltac:(lia))), (proj2 (Ho 0 ltac:(lia))).
  f_equal.
  change (2 ^ 0) with 1. rewrite Z.div_1_r. change (2 ^ 8) with 256.
  replace (n / 2 ^ 16) with (n / 256 / 256) by by rewrite Z.div_div by lia.
  replace (n / 2 ^ 24) with (n / 256 / 256 / 256) by by rewrite !Z.div_div by lia.
  apply (Z.mod_unique _ _ (n / 256 / 256 / 256 / 256)); [|];
    pose proof (Z.div_mod n 256); pose proof (Z.div_mod (n / 256) 256); pose proof (Z.div_mod (n / 256 / 256) 256);
    pose proof (Z.div_mod (n / 256 / 256 / 256) 256);
    pose proof (Z.mod_pos_bound n 256); pose proof (Z.mod_pos_bound (n / 256) 256);
    pose proof (Z.mod_pos_bound (n / 256 / 256) 256); pose proof (Z.mod_pos_bound (n / 256 / 256 / 256) 256); lia.
Qed.

Definition public_v6 (v : Z) : Prop :=
  v ≠ 0 ∧ v ≠ 1 ∧ (v / 2 ^ 32 = 0xffff → public_v4 (v mod 2 ^ 32)) ∧
  (v / 2 ^ 32 ≠ 0xffff → v / 2 ^ 118 ≠ 0x3fa ∧ v / 2 ^ 121 ≠ 0x7e).

Lemma isBlockedIPv4_None ip : isBlockedIPv4 ip = None ↔ ∃ n, ipv4ToBigInt ip = Ok n ∧ public_v4 n.
Proof.
  unfold isBlockedIPv4. destruct (ipv4ToBigInt ip) as [n|e]; [|split; [done|by intros (? & ? & _)]].
  split.
  - intros Hn. exists n. split; [done|]. apply ranges_are_cidrs. by destruct (list_find _ _) as [[]|].
  - intros (m & [= <-] & Hp%ranges_are_cidrs). by rewrite Hp.
Qed.

Lemma isBlockedIPv6_None ip : isBlockedIPv6 ip = None ↔ ∃ v, ipv6ToBigInt ip = Ok v ∧ public_v6 v.
Proof.
  unfold isBlockedIPv6. destruct (ipv6ToBigInt ip) as [v|e] eqn:Hv; [|split; [done|by intros (? & ? & _)]].
  apply ipv6_bound in Hv. transitivity (public_v6 v); [|split; [by eauto|by intros (? & [= <-] & ?)]].
  unfold public_v6. rewrite !Z.shiftr_div_pow2 by lia.
  destruct (Z.eqb_spec v 0), (Z.eqb_spec v 1); try naive_solver.
  destruct (Z.eqb_spec (v / 2 ^ 32) 0xffff) as [Hm|Hm].
  - rewrite isBlockedIPv4_None, dotted_value by lia. naive_solver.
  - destruct (Z.eqb_spec (v / 2 ^ 118) 0x3fa), (Z.eqb_spec (v / 2 ^ 121) 0x7e); naive_solver.
Qed.

(** What the allowlist demands of the host. *)
Definition entry_allows (host allowed : text) : Prop :=
  allowed = host ∨ ∃ domain, allowed = "*"%char :: "."%char :: domain ∧
    (host = domain ∨ ∃ sub, host = sub ++ "."%char :: domain).

Lemma starts_with_spec p l : starts_with p l = true ↔ ∃ r, l = p ++ r.
Proof.
  unfold starts_with. rewrite bool_decide_eq_true. split.
  - intros Ht. exists (drop (length p) l). by rewrite <-Ht at 1; rewrite take_drop.
  - intros (r & ->). by rewrite take_app_length.
Qed.

Lemma ends_with_spec p l : ends_with p l = true ↔ ∃ r, l = r ++ p.
Proof.
  unfold ends_with. rewrite starts_with_spec. split; intros (r & Hr).
  - exists (reverse r). rewrite <-(reverse_involutive l), Hr, reverse_app, reverse_involutive. done.
  - exists (reverse r). by rewrite Hr, reverse_app.
Qed.

Lemma entry_matches_spec host allowed : entry_matches host allowed = true ↔ entry_allows host allowed.
Proof.
  unfold entry_matches, entry_allows.
  rewrite orb_true_iff, andb_true_iff, orb_true_iff, !bool_decide_eq_true, starts_with_spec, ends_with_spec. split.
  - intros [?|[(r & ->) Hd]]; [by left|]. right. exists r. split; [done|]. exact Hd.
  - intros [?|(domain & -> & Hd)]; [by left|]. right. split; [by exists domain|]. exact Hd.
Qed.

Lemma allowlist_loop_Ok hostname entries : allowlist_loop hostname entries = Ok tt →
  ∃ allowed, JStr allowed ∈ entries ∧ entry_allows (to_lower (chars hostname)) (to_lower (chars allowed)).
Proof.
  induction entries as [|v entries IH]; [done|]. simpl. destruct v; try done.
  destruct (str_empty _); [done|]. case_match eqn:Hm.
  - intros _. exists s. split; [left|by apply entry_matches_spec].
  - intros (a & Ha & Hr)%IH. exists a. split; [by right|done].
Qed.

Section guard_properties.
Context (parseURL : string → option URL) (isIP : text → Z) (dns : string → option (list string)).

(** An address literal that parses to a number outside every blocked block. *)
Definition public_address (ip : string) : Prop :=
  let ip := strip_brackets (chars (js_trim ip)) in
  (isIP ip = 6 ∧ ∃ v, ipv6ToBigInt ip = Ok v ∧ public_v6 v) ∨
  (isIP ip = 4 ∧ ∃ n, ipv4ToBigInt ip = Ok n ∧ public_v4 n).

Lemma validateWebhookIPAddress_Ok ip : validateWebhookIPAddress isIP (JStr ip) = Ok tt → public_address ip.
Proof.
  unfold validateWebhookIPAddress, public_address. do 2 (case_match; [done|]).
  destruct (Z.eqb_spec (isIP (strip_brackets (chars (js_trim ip)))) 6) as [H6|H6].
  - case_match eqn:Hb; [done|]. left. split; [done|]. by apply isBlockedIPv6_None.
  - destruct (Z.eqb_spec (isIP (strip_brackets (chars (js_trim ip)))) 4); [|done].
    case_match eqn:Hb; [done|]. right. split; [done|]. by apply isBlockedIPv4_None.
Qed.

Lemma result_bind_Ok {E A B} (m : result E A) (f : A → result E B) b :
  m ≫= f = Ok b → ∃ a, m = Ok a ∧ f a = Ok b.
Proof. destruct m; [|done]. by eexists. Qed.
End guard_properties.

(** The spellings whose last two sections are a dotted quad. *)
Inductive spelled_dotted (a b c d : Z) : list text → text → Prop :=
| dotted_full ws :
    ws ≠ [] →
    spelled_dotted a b c d (ws ++ [hex_text (a * 256 + b); hex_text (c * 256 + d)])
      (join colon (ws ++ [quad a b c d]))
| dotted_short left_ n right_ :
    spelled_dotted a b c d
      (left_ ++ replicate n ["0"%char] ++ right_ ++ [hex_text (a * 256 + b); hex_text (c * 256 + d)])
      (join colon left_ ++ colon :: colon :: join colon (right_ ++ [quad a b c d])).

Lemma join_snoc ws x : ws ≠ [] → join colon (ws ++ [x]) = join colon ws ++ colon :: x.
Proof.
  induction ws as [|w ws IH]; [done|]. intros _. destruct ws as [|w' ws]; [done|].
  change (join colon ((w :: w' :: ws) ++ [x])) with (w ++ colon :: join colon ((w' :: ws) ++ [x])).
  rewrite IH by done. change (join colon (w :: w' :: ws)) with (w ++ colon :: join colon (w' :: ws)).
  by rewrite <-app_assoc.
Qed.

Lemma spelled_dotted_prefix a b c d ws l : spelled_dotted a b c d ws l →
  ∃ p, l = p ++ colon :: quad a b c d ∧
       spelled ws (p ++ colon :: hex_text (a * 256 + b) ++ colon :: hex_text (c * 256 + d)).
Proof.
  intros [ws' Hne|left_ n right_].
  - exists (join colon ws'). rewrite join_snoc by done. split; [done|].
    replace (join colon ws' ++ _) with (join colon (ws' ++ [hex_text (a * 256 + b); hex_text (c * 256 + d)]));
      [constructor|].
    rewrite (cons_middle (hex_text (a * 256 + b)) ws' [_]), app_assoc.
    rewrite join_snoc by (by destruct ws'). rewrite join_snoc by done. by rewrite <-app_assoc.
  - destruct right_ as [|r right_].
    + exists (join colon left_ ++ [colon]). rewrite <-!app_assoc. split; [done|]. apply (spelled_short left_ n [_; _]).
    + exists (join colon left_ ++ colon :: colon :: join colon (r :: right_)).
      rewrite join_snoc by done. rewrite <-!app_assoc. split; [done|].
      replace (join colon left_ ++ _) with (join colon left_ ++ colon :: colon ::
        join colon ((r :: right_) ++ [hex_text (a * 256 + b); hex_text (c * 256 + d)])); [constructor|].
      rewrite (cons_middle (hex_text (a * 256 + b)) (r :: right_) [_]), app_assoc.
      rewrite join_snoc by done. rewrite join_snoc by done. by rewrite <-!app_assoc.
Qed.

Lemma spelled_dotted_low a b c d ws l : octet a → octet b → octet c → octet d → spelled_dotted a b c d ws l →
  ∃ h, sections_val (hex_val <$> ws) = h * 2 ^ 32 + (((a * 256 + b) * 256 + c) * 256 + d).
Proof.
  unfold octet. intros Ha Hb Hc Hd Hsp.
  assert (∃ ws', ws = ws' ++ [hex_text (a * 256 + b); hex_text (c * 256 + d)]) as (ws' & ->).
  { destruct Hsp as [ws'|left_ n right_]; eexists; [done|]. by rewrite !app_assoc. }
  exists (sections_val (hex_val <$> ws')). unfold sections_val. rewrite fmap_app, fold_left_app.
  cbn [fmap list_fmap fold_left].
  destruct (hex_text_spec (a * 256 + b) ltac:(lia)) as (_ & -> & _).
  destruct (hex_text_spec (c * 256 + d) ltac:(lia)) as (_ & -> & _). lia.
Qed.

(** C24: A target that passes the guard is a string that parses as a URL, its
    scheme is https (or http, when the caller turned the requirement off), its
    host is on the allowlist when there is one, and the address the guard looked at
    (the literal, or the first one of the DNS) lies outside every blocked block, for
    every URL parser, address classifier and resolver: all other outcomes are
    errors. *)
Theorem accepted_target_safe parseURL isIP dns url options :
  validateWebhookTarget parseURL isIP dns url options = Ok tt →
  ∃ s u, url = JStr s ∧ parseURL (js_trim s) = Some u ∧
    (protocol u = "https:" ∨
     protocol u = "http:" ∧ js_nullish (js_field options "requireHttps") = false
       ∧ js_truthy (js_field options "requireHttps") = false) ∧
    (js_truthy (js_field options "allowlist") = false ∨ js_length_zero (js_field options "allowlist") = true ∨
     ∃ entries allowed, js_field options "allowlist" = JArr entries ∧ JStr allowed ∈ entries ∧
       entry_allows (to_lower (chars (hostname u))) (to_lower (chars allowed))) ∧
    (public_address isIP (hostname u) ∨
     ∃ ip rest, dns (hostname u) = Some (ip :: rest) ∧ public_address isIP ip).
Proof.
  unfold validateWebhookTarget. destruct url as [| | | | |s| |]; try done. do 3 (case_match; [done|]).
  destruct (parseURL (js_trim s)) as [u|] eqn:Hu; [|done]. intros ([] & Hp & Hr)%result_bind_Ok.
  case_match; [done|]. apply result_bind_Ok in Hr as ([] & Ha & Hr). exists s, u. splits; [done|done| | |].
  - unfold validateProtocol in Hp. destruct (js_nullish (js_field options "requireHttps")) eqn:Hn; simpl in Hp;
      repeat case_bool_decide; try done; try (by left); destruct (js_truthy _) eqn:Ht; try done; right; done.
  - unfold validateAllowlist in Ha. destruct (js_truthy (js_field options "allowlist")) eqn:Ht; [|by left].
    destruct (js_length_zero (js_field options "allowlist")) eqn:Hz; [by right; left|]. simpl in Ha.
    right; right. destruct (js_field options "allowlist") as [| | | | | |entries|]; try done.
    apply allowlist_loop_Ok in Ha as (a & Hin & He). by exists entries, a.
  - case_match; [left; by apply validateWebhookIPAddress_Ok|]. right.
    apply result_bind_Ok in Hr as (ips & Hd & Hr). unfold resolveHostname in Hd.
    destruct (dns (hostname u)) as [[|ip rest]|]; try done. simpl in Hd. injection Hd as <-.
    cbn [validate_all] in Hr. apply result_bind_Ok in Hr as ([] & Hip & _).
    exists ip, rest. split; [done|]. by apply validateWebhookIPAddress_Ok.
Qed.

(** The IPv4 verdict is the table of CIDR blocks: a dotted quad is let through
    exactly when its number lies in none of 127.0.0.0/8, 169.254.0.0/16,
    10.0.0.0/8, 172.16.0.0/12, 192.168.0.0/16, 0.0.0.0/8, 240.0.0.0/4 and
    224.0.0.0/4. *)
Theorem ipv4_is_cidr_table a b c d : octet a → octet b → octet c → octet d →
  isBlockedIPv4 (quad a b c d) = None ↔
  Forall (λ blk, (((a * 256 + b) * 256 + c) * 256 + d) / 2 ^ (32 - blk.2) ≠ blk.1) BLOCKED_CIDRS.
Proof.
  intros Ha Hb Hc Hd. rewrite isBlockedIPv4_None, ipv4_quad by done.
  split; [by intros (n & [= <-] & ?)|by eexists].
Qed.

(** The IPv6 verdict depends on the number and not on the spelling: for eight
    sections of one to four hexadecimal digits, written in full or with any run of
    zeros as two colons, in either case of letters, in brackets or not, and with the
    last two sections as a dotted quad or not, it is the verdict on their number;
    an IPv4-mapped address gets the verdict of its IPv4 address. *)
Theorem ipv6_verdict_by_value ws :
  sections ws → length ws = 8%nat →
  let v := sections_val (hex_val <$> ws) in
  (∀ l, spelled ws l →
     (isBlockedIPv6 l = None ↔ public_v6 v) ∧ (isBlockedIPv6 ("["%char :: l ++ ["]"%char]) = None ↔ public_v6 v)) ∧
  (∀ a b c d l, octet a → octet b → octet c → octet d → spelled_dotted a b c d ws l →
     (isBlockedIPv6 l = None ↔ public_v6 v) ∧
     (v / 2 ^ 32 = 0xffff → isBlockedIPv6 l = isBlockedIPv4 (quad a b c d))).
Proof.
  intros Hs Hl v.
  assert (∀ x, ipv6ToBigInt x = Ok v → (isBlockedIPv6 x = None ↔ public_v6 v)) as Hx.
  { intros x Hx. rewrite isBlockedIPv6_None, Hx. split; [by intros (? & [= <-] & ?)|by eexists]. }
  split.
  - intros l Hsp. destruct (ipv6_spelled ws l Hsp Hs Hl). split; by apply Hx.
  - intros a b c d l Ha Hb Hc Hd Hsd.
    destruct (spelled_dotted_prefix a b c d ws l Hsd) as (p & -> & Hsp).
    destruct (spelled_dotted_low a b c d ws _ Ha Hb Hc Hd Hsd) as (h & Hlow). fold v in Hlow.
    pose proof (ipv6_dotted ws p a b c d Ha Hb Hc Hd Hsp Hs Hl) as Hv. fold v in Hv.
    split; [by apply Hx|]. intros Hm. pose proof (ipv6_bound _ _ Hv) as Hb0.
    unfold isBlockedIPv6. rewrite Hv, Z.shiftr_div_pow2, Hm by lia.
    destruct (Z.eqb_spec v 0) as [H0|]; [rewrite H0 in Hm; discriminate|].
    destruct (Z.eqb_spec v 1) as [H0|]; [rewrite H0 in Hm; discriminate|]. cbn [Z.eqb Pos.eqb].
    unfold isBlockedIPv4. rewrite dotted_value, ipv4_quad by (done || lia).
    replace (v mod 2 ^ 32) with (((a * 256 + b) * 256 + c) * 256 + d); [done|].
    rewrite Hlow, (Z.add_comm (h * 2 ^ 32)), Z.mod_add, Z.mod_small by (unfold octet in *; lia). done.
Qed.

(** ** Witnesses and the one-address check *)

Definition sample_url : string := "https://hooks.example/x".
Definition sample_parse (s : string) : option URL :=
  if bool_decide (s = sample_url) then Some {| protocol := "https:"; hostname := "hooks.example" |} else None.
(** Enough of [net.isIP] for the samples. *)
Definition sample_isIP (l : text) : Z :=
  if negb (bool_decide (l = [])) && forallb quad_char l then 4 else if existsb (λ c, bool_decide (c = colon)) l then 6 else 0.
Definition sample_dns (s : string) : option (list string) := Some ["93.184.216.34"; "127.0.0.1"].

Lemma accepted_target_safe_witness :
  validateWebhookTarget sample_parse sample_isIP sample_dns (JStr sample_url) JUndefined = Ok tt ∧
  ∃ s u, JStr sample_url = JStr s ∧ sample_parse (js_trim s) = Some u ∧
    (public_address sample_isIP (hostname u) ∨
     ∃ ip rest, sample_dns (hostname u) = Some (ip :: rest) ∧ public_address sample_isIP ip).
Proof.
  assert (validateWebhookTarget sample_parse sample_isIP sample_dns (JStr sample_url) JUndefined = Ok tt) as Hok
    by (vm_compute; reflexivity).
  split; [exact Hok|].
  destruct (accepted_target_safe _ _ _ _ _ Hok) as (s & u & H1 & H2 & _ & _ & H3). exists s, u. exact (conj H1 (conj H2 H3)).
Defined.

Lemma ipv4_is_cidr_table_witness :
  octet 100 ∧ (isBlockedIPv4 (quad 100 64 0 1) = None ↔
    Forall (λ blk, (((100 * 256 + 64) * 256 + 0) * 256 + 1) / 2 ^ (32 - blk.2) ≠ blk.1) BLOCKED_CIDRS).
Proof. split; [unfold octet; lia|]. apply (ipv4_is_cidr_table 100 64 0 1); unfold octet; lia. Defined.

Definition mapped_loopback : list text :=
  (chars <$> ["0"; "0"; "0"; "0"; "0"; "ffff"]) ++ [hex_text (127 * 256 + 0); hex_text (0 * 256 + 1)].

Lemma ipv6_verdict_by_value_witness :
  isBlockedIPv6 (chars "::ffff:127.0.0.1") = isBlockedIPv4 (quad 127 0 0 1) ∧
  isBlockedIPv4 (quad 127 0 0 1) ≠ None.
Proof.
  split; [|vm_compute; discriminate].
  assert (sections mapped_loopback) as Hs.
  { unfold mapped_loopback. repeat (apply Forall_cons_2; [reflexivity|]). apply Forall_nil_2. }
  apply (proj2 (ipv6_verdict_by_value mapped_loopback Hs eq_refl) 127 0 0 1); [unfold octet; lia..| |reflexivity].
  apply (dotted_short 127 0 0 1 [] 5 [chars "ffff"]).
Defined.

(** Only the first address of a host is looked at: a host with the addresses
    93.184.216.34 and 127.0.0.1 passes, although the second one is refused when it
    is validated by itself. *)
Theorem one_address_checked :
  validateWebhookTarget sample_parse sample_isIP sample_dns (JStr sample_url) JUndefined = Ok tt ∧
  sample_dns "hooks.example" = Some ["93.184.216.34"; "127.0.0.1"] ∧
  validateWebhookIPAddress sample_isIP (JStr "127.0.0.1") =
    Err "Blocked IPv4 address: 127.0.0.1 (Loopback addresses (127.0.0.0/8))" ∧
  isBlockedIPv6 (chars "ff02::1") = None ∧ isBlockedIPv4 (quad 224 0 0 1) ≠ None.
Proof. splits; vm_compute; try reflexivity. discriminate. Qed.
