(* ===== verification/ConnectionRegistry.v ===== *)
(** * The registry of WebSocket connections ([src/ws/connectionRegistry.ts])

    Connected sockets with their state, the inbound rate limit and the two
    subscription indexes used for fanout.  A socket is a number; the state object of
    a connection lives in the [clients] map only, so an update of it is an update
    of the map.

    [registry_wf] relates the indexes to the filters the connections hold: every
    operation preserves it, except that detaching a stream ([takeStreamSubscribers])
    leaves the filters of the detached sockets behind. *)
From Stdlib Require Import Ascii ZArith Lia.
From stdpp Require Import base strings list.
From S2P Require Import Prelude.
Local Open Scope string_scope.
Local Open Scope list_scope.
Local Open Scope Z_scope.

Notation WebSocket := nat.

Definition RATE_LIMIT_MAX : Z := 30.
Definition RATE_LIMIT_WINDOW_MS : Z := 10000.

Record SubscriptionFilter : Type := {
  streamId : option string;
  recipientAddress : option string;
  batchingEnabled : option bool;
}.

Record ConnectionMetrics : Type := {
  messagesReceived : Z;
  messagesSent : Z;
  bytesReceived : Z;
  bytesSent : Z;
}.

Record ClientState : Type := {
  id : string;
  connectedAt : Z;
  ip : string;
  correlationId : option string;
  authenticatedSubject : option string;
  metrics : ConnectionMetrics;
  subscriptionFilters : list (string * SubscriptionFilter);
  messageTimestamps : list Z;
  missedPongs : Z;
}.

Definition createClientState (id : string) (connectedAt : Z) (ip : string)
    (correlationId authenticatedSubject : option string) : ClientState := {|
  id := id; connectedAt := connectedAt; ip := ip;
  correlationId := correlationId; authenticatedSubject := authenticatedSubject;
  metrics := {| messagesReceived := 0; messagesSent := 0; bytesReceived := 0; bytesSent := 0 |};
  subscriptionFilters := []; messageTimestamps := []; missedPongs := 0 |}.

Definition set_filters (f : list (string * SubscriptionFilter)) (s : ClientState) : ClientState := {|
  id := id s; connectedAt := connectedAt s; ip := ip s; correlationId := correlationId s;
  authenticatedSubject := authenticatedSubject s; metrics := metrics s;
  subscriptionFilters := f; messageTimestamps := messageTimestamps s; missedPongs := missedPongs s |}.

Definition set_timestamps (t : list Z) (s : ClientState) : ClientState := {|
  id := id s; connectedAt := connectedAt s; ip := ip s; correlationId := correlationId s;
  authenticatedSubject := authenticatedSubject s; metrics := metrics s;
  subscriptionFilters := subscriptionFilters s; messageTimestamps := t; missedPongs := missedPongs s |}.

Definition set_metrics (m : ConnectionMetrics) (s : ClientState) : ClientState := {|
  id := id s; connectedAt := connectedAt s; ip := ip s; correlationId := correlationId s;
  authenticatedSubject := authenticatedSubject s; metrics := m;
  subscriptionFilters := subscriptionFilters s; messageTimestamps := messageTimestamps s; missedPongs := missedPongs s |}.

Definition set_missedPongs (n : Z) (s : ClientState) : ClientState := {|
  id := id s; connectedAt := connectedAt s; ip := ip s; correlationId := correlationId s;
  authenticatedSubject := authenticatedSubject s; metrics := metrics s;
  subscriptionFilters := subscriptionFilters s; messageTimestamps := messageTimestamps s; missedPongs := n |}.

Definition subscriptionKey (filter : SubscriptionFilter) : string :=
  match streamId filter with
  | Some s => "stream:" ++ s
  | None => match recipientAddress filter with
            | Some r => "recipient:" ++ r
            | None => "recipient:"
            end
  end%string.

(** ** Sets in insertion order *)

Definition set_add (ws : WebSocket) (s : list WebSocket) : list WebSocket :=
  if bool_decide (ws ∈ s) then s else s ++ [ws].
Definition set_delete (ws : WebSocket) (s : list WebSocket) : list WebSocket := filter (λ x, x ≠ ws) s.

Notation index := (list (string * list WebSocket)).

(** [index.get(k)] or a new set, with [ws] added. *)
Definition index_add (k : string) (ws : WebSocket) (m : index) : index :=
  jm_set k (set_add ws (default [] (jm_get k m))) m.

(** [index.get(k)?.delete(ws)], and the entry goes when its set is empty. *)
Definition index_remove (k : string) (ws : WebSocket) (m : index) : index :=
  match jm_get k m with
  | None => m
  | Some subscribers =>
      let subscribers := set_delete ws subscribers in
      if bool_decide (length subscribers = 0%nat) then jm_delete k m else jm_set k subscribers m
  end.

(** ** The registry *)

Record ConnectionRegistry : Type := {
  clients : list (WebSocket * ClientState);
  streamSubscriptions : index;
  recipientSubscriptions : index;
}.

Definition new_registry : ConnectionRegistry :=
  {| clients := []; streamSubscriptions := []; recipientSubscriptions := [] |}.

Definition set_clients (c : list (WebSocket * ClientState)) (r : ConnectionRegistry) : ConnectionRegistry :=
  {| clients := c; streamSubscriptions := streamSubscriptions r; recipientSubscriptions := recipientSubscriptions r |}.

Definition register (ws : WebSocket) (state : ClientState) (r : ConnectionRegistry) : ConnectionRegistry :=
  set_clients (jm_set ws state (clients r)) r.

Definition get (r : ConnectionRegistry) (ws : WebSocket) : option ClientState := jm_get ws (clients r).

(** A write through the state object of a registered connection. *)
Definition update (ws : WebSocket) (f : ClientState → ClientState) (r : ConnectionRegistry) : ConnectionRegistry :=
  match get r ws with
  | Some s => set_clients (jm_set ws (f s) (clients r)) r
  | None => r
  end.

Definition unregister (ws : WebSocket) (r : ConnectionRegistry) : ConnectionRegistry :=
  set_clients (jm_delete ws (clients r)) r.

Definition checkRateLimit (now : Z) (ws : WebSocket) (r : ConnectionRegistry) : bool * ConnectionRegistry :=
  match get r ws with
  | None => (false, r)
  | Some state =>
      let cutoff := now - RATE_LIMIT_WINDOW_MS in
      let timestamps := filter (λ t, cutoff <= t) (messageTimestamps state) in
      if RATE_LIMIT_MAX <=? Z.of_nat (length timestamps)
      then (false, update ws (set_timestamps timestamps) r)
      else (true, update ws (set_timestamps (timestamps ++ [now])) r)
  end.

Definition addSubscription (ws : WebSocket) (filter : SubscriptionFilter) (r : ConnectionRegistry)
    : bool * ConnectionRegistry :=
  match get r ws with
  | None => (false, r)
  | Some state =>
      let key := subscriptionKey filter in
      if jm_has key (subscriptionFilters state) then (false, r)
      else
        let r := update ws (λ s, set_filters (jm_set key filter (subscriptionFilters s)) s) r in
        match streamId filter with
        | Some s =>
            (true, {| clients := clients r;
                      streamSubscriptions := index_add s ws (streamSubscriptions r);
                      recipientSubscriptions := recipientSubscriptions r |})
        | None =>
            match recipientAddress filter with
            | Some a =>
                (true, {| clients := clients r; streamSubscriptions := streamSubscriptions r;
                          recipientSubscriptions := index_add a ws (recipientSubscriptions r) |})
            | None => (true, r)
            end
        end
  end.

Definition removeSubscription (ws : WebSocket) (filter : SubscriptionFilter) (r : ConnectionRegistry)
    : ConnectionRegistry :=
  match get r ws with
  | None => r
  | Some state =>
      let r := update ws (λ s, set_filters (jm_delete (subscriptionKey filter) (subscriptionFilters s)) s) r in
      match streamId filter with
      | Some s =>
          {| clients := clients r; streamSubscriptions := index_remove s ws (streamSubscriptions r);
             recipientSubscriptions := recipientSubscriptions r |}
      | None =>
          match recipientAddress filter with
          | Some a =>
              {| clients := clients r; streamSubscriptions := streamSubscriptions r;
                 recipientSubscriptions := index_remove a ws (recipientSubscriptions r) |}
          | None => r
          end
      end
  end.

Definition removeAllSubscriptions (ws : WebSocket) (r : ConnectionRegistry) : ConnectionRegistry :=
  match get r ws with
  | None => r
  | Some state => fold_left (λ r filter, removeSubscription ws filter r) (subscriptionFilters state).*2 r
  end.

Definition streamSubscribers (s : string) (r : ConnectionRegistry) : list WebSocket :=
  default [] (jm_get s (streamSubscriptions r)).
Definition recipientSubscribers (a : string) (r : ConnectionRegistry) : list WebSocket :=
  default [] (jm_get a (recipientSubscriptions r)).
Definition streamSubscriberCount (s : string) (r : ConnectionRegistry) : nat := length (streamSubscribers s r).

Definition takeStreamSubscribers (s : string) (r : ConnectionRegistry) : list WebSocket * ConnectionRegistry :=
  match jm_get s (streamSubscriptions r) with
  | None => ([], r)
  | Some subscribers =>
      if bool_decide (length subscribers = 0%nat) then ([], r)
      else (subscribers, {| clients := clients r; streamSubscriptions := jm_delete s (streamSubscriptions r);
                            recipientSubscriptions := recipientSubscriptions r |})
  end.

(** ** The invariant *)

(** The filters a connection holds ([[]] when it is not registered). *)
Definition filters_of (r : ConnectionRegistry) (ws : WebSocket) : list (string * SubscriptionFilter) :=
  match get r ws with Some s => subscriptionFilters s | None => [] end.

(** The stream and the recipient index entry a filter stands for. *)
Definition stream_of (f : SubscriptionFilter) : option string := streamId f.
Definition recipient_of (f : SubscriptionFilter) : option string :=
  match streamId f with Some _ => None | None => recipientAddress f end.

(** A filter that names a stream or a non-empty recipient. *)
Definition proper (f : SubscriptionFilter) : Prop :=
  is_Some (stream_of f) ∨ ∃ a, recipient_of f = Some a ∧ a ≠ "".

(** Each filter is proper and stored under its own key, once. *)
Definition filters_wf (r : ConnectionRegistry) : Prop :=
  ∀ ws, jm_wf (filters_of r ws) ∧ ∀ k f, (k, f) ∈ filters_of r ws → k = subscriptionKey f ∧ proper f.

(** The sockets of an index entry. *)
Definition members (m : index) (k : string) : list WebSocket := default [] (jm_get k m).

(** An index has no empty sets and no repetitions. *)
Definition index_wf (m : index) : Prop :=
  jm_wf m ∧ ∀ k l, jm_get k m = Some l → l ≠ [] ∧ NoDup l.

Definition holds (r : ConnectionRegistry) (ws : WebSocket) (P : SubscriptionFilter → Prop) : Prop :=
  ∃ k f, (k, f) ∈ filters_of r ws ∧ P f.

(** Whoever is in an index holds the filter, and the other way round for the
    streams outside [cut]. *)
Record registry_wf (cut : string → Prop) (r : ConnectionRegistry) : Prop := {
  wf_filters : filters_wf r;
  wf_stream_index : index_wf (streamSubscriptions r);
  wf_recipient_index : index_wf (recipientSubscriptions r);
  wf_stream_sound s ws : ws ∈ members (streamSubscriptions r) s → holds r ws (λ f, stream_of f = Some s);
  wf_recipient_sound a ws : ws ∈ members (recipientSubscriptions r) a → holds r ws (λ f, recipient_of f = Some a);
  wf_stream_complete s ws : ¬ cut s → holds r ws (λ f, stream_of f = Some s) → ws ∈ members (streamSubscriptions r) s;
  wf_recipient_complete a ws : holds r ws (λ f, recipient_of f = Some a) → ws ∈ members (recipientSubscriptions r) a;
}.

(** ** Keys *)
Lemma key_stream f s : stream_of f = Some s → subscriptionKey f = ("stream:" ++ s)%string.
Proof. unfold stream_of, subscriptionKey. by intros ->. Qed.

Lemma key_recipient f a : recipient_of f = Some a → subscriptionKey f = ("recipient:" ++ a)%string.
Proof. unfold recipient_of, subscriptionKey. destruct (streamId f); [done|]. by intros ->. Qed.

(** The key of a proper filter determines its target. *)
Lemma key_target f g : proper f → proper g → subscriptionKey f = subscriptionKey g →
  stream_of f = stream_of g ∧ recipient_of f = recipient_of g.
Proof.
  assert (∀ x a, stream_of x = Some a → recipient_of x = None) as Hsr.
  { intros x a. unfold stream_of, recipient_of. by intros ->. }
  assert (∀ x a, recipient_of x = Some a → stream_of x = None) as Hrs.
  { intros x a. unfold stream_of, recipient_of. by destruct (streamId x). }
  intros [[s Hf]|(a & Hf & Ha)] [[s' Hg]|(a' & Hg & Ha')];
    rewrite ?(key_stream f s Hf), ?(key_stream g s' Hg), ?(key_recipient f a Hf), ?(key_recipient g a' Hg); intros Hk.
  - apply (app_inv_prefix "stream:") in Hk. subst. rewrite (Hsr _ _ Hf), (Hsr _ _ Hg). by rewrite Hf, Hg.
  - discriminate.
  - discriminate.
  - apply (app_inv_prefix "recipient:") in Hk. subst. rewrite (Hrs _ _ Hf), (Hrs _ _ Hg). by rewrite Hf, Hg.
Qed.

(** ** Sets and indexes *)
Lemma elem_of_set_add ws x l : x ∈ set_add ws l ↔ x = ws ∨ x ∈ l.
Proof.
  unfold set_add. case_bool_decide; [naive_solver|].
  rewrite elem_of_app, list_elem_of_singleton. naive_solver.
Qed.

Lemma elem_of_set_delete ws x l : x ∈ set_delete ws l ↔ x ∈ l ∧ x ≠ ws.
Proof. unfold set_delete. rewrite list_elem_of_filter. naive_solver. Qed.

Lemma NoDup_set_add ws l : NoDup l → NoDup (set_add ws l).
Proof.
  intros Hl. unfold set_add. case_bool_decide as Hin; [done|]. apply list.NoDup_app. split; [done|].
  split; [|apply NoDup_singleton]. by intros x Hx ->%list_elem_of_singleton.
Qed.

Lemma members_set k l m j : members (jm_set k l m) j = if decide (j = k) then l else members m j.
Proof.
  unfold members. case_decide; [subst; by rewrite jm_get_set_eq|]. by rewrite jm_get_set_ne by done.
Qed.

Lemma members_delete k m j : members (jm_delete k m) j = if decide (j = k) then [] else members m j.
Proof.
  unfold members. case_decide; [subst; by rewrite jm_get_delete_eq|]. by rewrite jm_get_delete_ne by done.
Qed.

Lemma members_add k ws m j x : x ∈ members (index_add k ws m) j ↔ x ∈ members m j ∨ (j = k ∧ x = ws).
Proof.
  unfold index_add. rewrite members_set. fold (members m k). case_decide; [subst|naive_solver].
  rewrite elem_of_set_add. naive_solver.
Qed.

Lemma members_remove k ws m j x : x ∈ members (index_remove k ws m) j ↔ x ∈ members m j ∧ ¬ (j = k ∧ x = ws).
Proof.
  unfold index_remove. destruct (jm_get k m) as [l|] eqn:Hk.
  - assert (x ∈ members m k ↔ x ∈ l) as Hm by (unfold members; by rewrite Hk).
    case_bool_decide as Hl; [rewrite members_delete|rewrite members_set]; (case_decide; [subst j|naive_solver]).
    + apply length_zero_iff_nil in Hl. rewrite <-Hl, elem_of_set_delete. naive_solver.
    + rewrite elem_of_set_delete. naive_solver.
  - split; [|naive_solver]. intros Hx. split; [done|]. intros [-> ->]. unfold members in Hx. rewrite Hk in Hx.
    by apply not_elem_of_nil in Hx.
Qed.

Lemma index_wf_nil : index_wf [].
Proof. split; [apply jm_wf_nil|done]. Qed.

Lemma index_wf_set k l m : l ≠ [] → NoDup l → index_wf m → index_wf (jm_set k l m).
Proof.
  intros Hl Hnd [Hwf Hm]. split; [by apply jm_wf_set|]. intros j l'.
  destruct (decide (j = k)) as [->|Hne]; [rewrite jm_get_set_eq; by intros [= <-]|].
  rewrite jm_get_set_ne by done. apply Hm.
Qed.

Lemma index_wf_delete k m : index_wf m → index_wf (jm_delete k m).
Proof.
  intros [Hwf Hm]. split; [by apply jm_wf_delete|]. intros j l'.
  destruct (decide (j = k)) as [->|Hne]; [by rewrite jm_get_delete_eq|].
  rewrite jm_get_delete_ne by done. apply Hm.
Qed.

Lemma NoDup_members m k : index_wf m → NoDup (members m k).
Proof. intros [_ Hm]. unfold members. destruct (jm_get k m) eqn:Hk; [by apply Hm in Hk as []|constructor]. Qed.

Lemma index_wf_add k ws m : index_wf m → index_wf (index_add k ws m).
Proof.
  intros Hwf. apply index_wf_set; [|apply NoDup_set_add; by apply (NoDup_members m k)|done].
  intros Hn. assert (ws ∈ set_add ws (default [] (jm_get k m))) as Hin by (apply elem_of_set_add; auto).
  rewrite Hn in Hin. by apply not_elem_of_nil in Hin.
Qed.

Lemma index_wf_remove k ws m : index_wf m → index_wf (index_remove k ws m).
Proof.
  intros Hwf. unfold index_remove. destruct (jm_get k m) as [l|] eqn:Hk; [|done].
  case_bool_decide as Hl; [by apply index_wf_delete|]. apply index_wf_set; [|apply NoDup_filter|done].
  - intros Hn. by rewrite Hn in Hl.
  - destruct Hwf as [_ Hm]. by apply Hm in Hk as [].
Qed.

#[export] Hint Resolve index_wf_nil index_wf_add index_wf_remove index_wf_delete : fluxora.

(** ** Filters under the operations *)
Lemma get_update ws f r x : get (update ws f r) x = if decide (x = ws) then f <$> get r ws else get r x.
Proof.
  unfold update. destruct (get r ws) as [s|] eqn:Hg; simpl.
  - unfold get, set_clients. simpl. case_decide; [subst; by rewrite jm_get_set_eq|]. by rewrite jm_get_set_ne by done.
  - by case_decide; [subst|].
Qed.

Lemma indexes_update ws f r :
  streamSubscriptions (update ws f r) = streamSubscriptions r ∧
  recipientSubscriptions (update ws f r) = recipientSubscriptions r.
Proof. unfold update. by destruct (get r ws). Qed.

Lemma filters_of_update ws F r x :
  is_Some (get r ws) →
  filters_of (update ws (λ s, set_filters (F (subscriptionFilters s)) s) r) x =
    if decide (x = ws) then F (filters_of r ws) else filters_of r x.
Proof.
  intros [s Hs]. unfold filters_of. rewrite get_update. case_decide; [|done]. subst. by rewrite Hs.
Qed.

(** A write that keeps the filters keeps the invariant. *)
Lemma filters_of_keep ws f r x :
  (∀ s, subscriptionFilters (f s) = subscriptionFilters s) → filters_of (update ws f r) x = filters_of r x.
Proof.
  intros Hf. unfold filters_of. rewrite get_update. case_decide; [|done]. subst.
  destruct (get r ws); simpl; [apply Hf|done].
Qed.

(** [registry_wf] only reads the filters and the indexes. *)
Lemma registry_wf_ext cut r r' :
  (∀ x, filters_of r' x = filters_of r x) → streamSubscriptions r' = streamSubscriptions r →
  recipientSubscriptions r' = recipientSubscriptions r → registry_wf cut r → registry_wf cut r'.
Proof.
  intros Hf Hs Hr Hwf.
  assert (∀ ws P, holds r' ws P ↔ holds r ws P) as Hh by (intros; unfold holds; by rewrite Hf).
  destruct Hwf. split; rewrite ?Hs, ?Hr; try done.
  - intros ws. rewrite Hf. apply wf_filters0.
  - intros. apply Hh. auto.
  - intros. apply Hh. auto.
  - intros s ws Hc Hw. apply wf_stream_complete0; [done|by apply Hh].
  - intros a ws Hw. apply wf_recipient_complete0. by apply Hh.
Qed.

Lemma wf_update cut ws f r :
  (∀ s, subscriptionFilters (f s) = subscriptionFilters s) → registry_wf cut r → registry_wf cut (update ws f r).
Proof.
  intros Hf. destruct (indexes_update ws f r). apply registry_wf_ext; [|done..]. intros x. by apply filters_of_keep.
Qed.

Lemma wf_checkRateLimit cut now ws r : registry_wf cut r → registry_wf cut (checkRateLimit now ws r).2.
Proof.
  intros Hwf. unfold checkRateLimit. destruct (get r ws); [|done]. case_match; simpl; by apply wf_update.
Qed.

(** ** Subscribing *)
Lemma holds_mono r r' ws (P : SubscriptionFilter → Prop) :
  (∀ k f, (k, f) ∈ filters_of r ws → (k, f) ∈ filters_of r' ws) → holds r ws P → holds r' ws P.
Proof. intros Hi (k & f & Hin & HP). exists k, f. auto. Qed.

(** What [addSubscription] does to a registered connection without the filter. *)
Lemma addSubscription_spec ws f r s :
  get r ws = Some s → jm_get (subscriptionKey f) (subscriptionFilters s) = None →
  let r' := (addSubscription ws f r).2 in
  (addSubscription ws f r).1 = true ∧
  (∀ x, filters_of r' x = if decide (x = ws) then filters_of r ws ++ [(subscriptionKey f, f)] else filters_of r x) ∧
  streamSubscriptions r' = match stream_of f with
                           | Some k => index_add k ws (streamSubscriptions r) | None => streamSubscriptions r end ∧
  recipientSubscriptions r' = match recipient_of f with
                              | Some k => index_add k ws (recipientSubscriptions r) | None => recipientSubscriptions r end.
Proof.
  intros Hg Hk. unfold addSubscription. rewrite Hg. unfold jm_has. rewrite Hk.
  set (r0 := update ws _ r).
  assert (∀ x, filters_of r0 x = if decide (x = ws) then filters_of r ws ++ [(subscriptionKey f, f)] else filters_of r x) as Hf.
  { intros x. unfold r0. rewrite (filters_of_update ws (jm_set (subscriptionKey f) f)) by by eexists.
    case_decide; [|done]. apply jm_set_fresh. unfold filters_of. by rewrite Hg. }
  destruct (indexes_update ws (λ s, set_filters (jm_set (subscriptionKey f) f (subscriptionFilters s)) s) r) as [H1 H2].
  unfold stream_of, recipient_of. destruct (streamId f); [|destruct (recipientAddress f)]; simpl.
  - splits; [done|exact Hf|unfold r0; by rewrite H1|exact H2].
  - splits; [done|exact Hf|exact H1|unfold r0; by rewrite H2].
  - splits; [done|exact Hf|exact H1|exact H2].
Qed.

Lemma addSubscription_noop ws f r :
  (∀ s, get r ws = Some s → is_Some (jm_get (subscriptionKey f) (subscriptionFilters s))) →
  addSubscription ws f r = (false, r).
Proof.
  intros Hs. unfold addSubscription. destruct (get r ws) as [s|]; [|done].
  destruct (Hs s eq_refl) as [x Hx]. unfold jm_has. by rewrite Hx.
Qed.

Lemma wf_addSubscription cut ws f r : proper f → registry_wf cut r → registry_wf cut (addSubscription ws f r).2.
Proof.
  intros Hp Hwf. destruct (get r ws) as [s|] eqn:Hg; [|by rewrite addSubscription_noop by (by rewrite Hg)].
  destruct (jm_get (subscriptionKey f) (subscriptionFilters s)) as [y|] eqn:Hk.
  { rewrite addSubscription_noop; [done|]. intros s'. rewrite Hg. intros [= <-]. by eexists. }
  destruct (addSubscription_spec ws f r s Hg Hk) as (_ & Hf & Hs & Hr).
  set (r' := (addSubscription ws f r).2) in *.
  assert (∀ x P, holds r' x P ↔ holds r x P ∨ (x = ws ∧ P f)) as Hh.
  { intros x P. unfold holds. rewrite Hf. case_decide; [subst|naive_solver].
    setoid_rewrite elem_of_app. setoid_rewrite list_elem_of_singleton. naive_solver. }
  assert (∀ k x, x ∈ members (streamSubscriptions r') k ↔
            x ∈ members (streamSubscriptions r) k ∨ (stream_of f = Some k ∧ x = ws)) as Hms.
  { intros k x. rewrite Hs. destruct (stream_of f); [rewrite members_add|]; naive_solver. }
  assert (∀ k x, x ∈ members (recipientSubscriptions r') k ↔
            x ∈ members (recipientSubscriptions r) k ∨ (recipient_of f = Some k ∧ x = ws)) as Hmr.
  { intros k x. rewrite Hr. destruct (recipient_of f); [rewrite members_add|]; naive_solver. }
  destruct Hwf as [W1 W2 W3 W4 W5 W6 W7]. split.
  - intros x. rewrite Hf. case_decide; [subst x|apply W1]. destruct (W1 ws) as [Wa Wb]. split.
    + unfold jm_wf. rewrite fmap_app. apply list.NoDup_app. split; [exact Wa|]. split; [|apply NoDup_singleton].
      intros k Hin ->%list_elem_of_singleton. apply jm_get_None in Hk. apply Hk. unfold filters_of in Hin. by rewrite Hg in Hin.
    + intros k g. rewrite elem_of_app, list_elem_of_singleton. intros [Hin|[= -> ->]]; [by apply Wb|done].
  - rewrite Hs. destruct (stream_of f); auto with fluxora.
  - rewrite Hr. destruct (recipient_of f); auto with fluxora.
  - intros k x [Hx|[Hx ->]]%Hms; apply Hh; auto.
  - intros k x [Hx|[Hx ->]]%Hmr; apply Hh; auto.
  - intros k x Hc [Hx|[-> Hx]]%Hh; apply Hms; auto.
  - intros k x [Hx|[-> Hx]]%Hh; apply Hmr; auto.
Qed.

(** ** Unsubscribing *)
Lemma removeSubscription_spec ws f r :
  is_Some (get r ws) →
  let r' := removeSubscription ws f r in
  (∀ x, filters_of r' x = if decide (x = ws) then jm_delete (subscriptionKey f) (filters_of r ws) else filters_of r x) ∧
  streamSubscriptions r' = match stream_of f with
                           | Some k => index_remove k ws (streamSubscriptions r) | None => streamSubscriptions r end ∧
  recipientSubscriptions r' = match recipient_of f with
                              | Some k => index_remove k ws (recipientSubscriptions r)
                              | None => recipientSubscriptions r end ∧
  (∀ x, is_Some (get r' x) ↔ is_Some (get r x)).
Proof.
  intros [s Hg]. unfold removeSubscription. rewrite Hg. set (F := jm_delete (subscriptionKey f)).
  set (r0 := update ws _ r).
  assert (∀ x, filters_of r0 x = if decide (x = ws) then F (filters_of r ws) else filters_of r x) as Hf.
  { intros x. unfold r0. by rewrite (filters_of_update ws F) by by eexists. }
  assert (∀ x, is_Some (get r0 x) ↔ is_Some (get r x)) as Hd.
  { intros x. unfold r0. rewrite get_update. case_decide; [subst|done]. by rewrite fmap_is_Some. }
  destruct (indexes_update ws (λ s, set_filters (F (subscriptionFilters s)) s) r) as [H1 H2].
  unfold stream_of, recipient_of. destruct (streamId f); [|destruct (recipientAddress f)]; simpl.
  - splits; [exact Hf|unfold r0; by rewrite H1|exact H2|exact Hd].
  - splits; [exact Hf|exact H1|unfold r0; by rewrite H2|exact Hd].
  - splits; [exact Hf|exact H1|exact H2|exact Hd].
Qed.

Lemma wf_remove cut ws f r : proper f → registry_wf cut r → registry_wf cut (removeSubscription ws f r).
Proof.
  intros Hp Hwf. destruct (get r ws) as [s|] eqn:Hg; [|unfold removeSubscription; by rewrite Hg].
  destruct (removeSubscription_spec ws f r ltac:(by eexists)) as (Hf & Hs & Hr & _).
  set (r' := removeSubscription ws f r) in *.
  destruct Hwf as [W1 W2 W3 W4 W5 W6 W7].
  assert (∀ x k g, (k, g) ∈ filters_of r' x ↔ (k, g) ∈ filters_of r x ∧ ¬ (x = ws ∧ k = subscriptionKey f)) as Hin.
  { intros x k g. rewrite Hf. case_decide; [subst; rewrite elem_of_jm_delete|]; naive_solver. }
  assert (∀ k x, x ∈ members (streamSubscriptions r') k ↔
            x ∈ members (streamSubscriptions r) k ∧ ¬ (stream_of f = Some k ∧ x = ws)) as Hms.
  { intros k x. rewrite Hs. destruct (stream_of f); [rewrite members_remove|]; naive_solver. }
  assert (∀ k x, x ∈ members (recipientSubscriptions r') k ↔
            x ∈ members (recipientSubscriptions r) k ∧ ¬ (recipient_of f = Some k ∧ x = ws)) as Hmr.
  { intros k x. rewrite Hr. destruct (recipient_of f); [rewrite members_remove|]; naive_solver. }
  assert (∀ x k g, (k, g) ∈ filters_of r x → k = subscriptionKey f →
            stream_of g = stream_of f ∧ recipient_of g = recipient_of f) as Htgt.
  { intros x k g Hg' Hk. destruct (proj2 (W1 x) k g Hg') as [-> Hpg]. by apply key_target. }
  split.
  - intros x. rewrite Hf. destruct (W1 x) as [Wa Wb]. case_decide; [subst x|done]. split; [by apply jm_wf_delete|].
    intros k g [? _]%elem_of_jm_delete. by apply Wb.
  - rewrite Hs. destruct (stream_of f); auto with fluxora.
  - rewrite Hr. destruct (recipient_of f); auto with fluxora.
  - intros k x [(j & g & Hg' & HP)%W4 Hne]%Hms. exists j, g. rewrite Hin. split; [|done].
    split; [done|]. intros [-> Hk]. destruct (Htgt _ _ _ Hg' Hk) as [Ht _]. apply Hne. by rewrite <-Ht.
  - intros k x [(j & g & Hg' & HP)%W5 Hne]%Hmr. exists j, g. rewrite Hin. split; [|done].
    split; [done|]. intros [-> Hk]. destruct (Htgt _ _ _ Hg' Hk) as [_ Ht]. apply Hne. by rewrite <-Ht.
  - intros k x Hc (j & g & [Hg' Hne]%Hin & HP). apply Hms. split; [apply W6; [done|by exists j, g]|].
    intros [Hk ->]. apply Hne. split; [done|]. rewrite (key_stream f k Hk).
    destruct (proj2 (W1 ws) j g Hg') as [-> _]. by apply key_stream.
  - intros k x (j & g & [Hg' Hne]%Hin & HP). apply Hmr. split; [apply W7; by exists j, g|].
    intros [Hk ->]. apply Hne. split; [done|]. rewrite (key_recipient f k Hk).
    destruct (proj2 (W1 ws) j g Hg') as [-> _]. by apply key_recipient.
Qed.

(** ** Disconnecting *)
Lemma removes_spec cut ws fs r :
  is_Some (get r ws) → Forall proper fs → registry_wf cut r →
  let r' := fold_left (λ r filter, removeSubscription ws filter r) fs r in
  registry_wf cut r' ∧ (∀ x, x ≠ ws → filters_of r' x = filters_of r x) ∧
  (∀ k g, (k, g) ∈ filters_of r' ws → (k, g) ∈ filters_of r ws ∧ k ∉ subscriptionKey <$> fs) ∧
  (∀ x, is_Some (get r' x) ↔ is_Some (get r x)).
Proof.
  intros Hg Hp. revert r Hg. induction Hp as [|f fs Hf Hp IH]; intros r Hg Hwf; cbn [fold_left].
  - splits; try done. intros k g Hk. split; [done|]. apply not_elem_of_nil.
  - destruct (removeSubscription_spec ws f r Hg) as (Hfs & _ & _ & Hd).
    destruct (IH (removeSubscription ws f r)) as (I1 & I2 & I3 & I4); [by apply Hd|by apply wf_remove|].
    splits; [done| | |].
    + intros x Hx. rewrite I2, Hfs by done. by rewrite decide_False.
    + intros k g [Hin Hk]%I3. rewrite Hfs, decide_True, elem_of_jm_delete in Hin by done.
      destruct Hin as [Hin Hne]. split; [done|]. rewrite fmap_cons, not_elem_of_cons. done.
    + intros x. by rewrite I4, Hd.
Qed.

Lemma removeAll_spec cut ws r : registry_wf cut r →
  registry_wf cut (removeAllSubscriptions ws r) ∧ filters_of (removeAllSubscriptions ws r) ws = [] ∧
  (∀ x, x ≠ ws → filters_of (removeAllSubscriptions ws r) x = filters_of r x).
Proof.
  intros Hwf. unfold removeAllSubscriptions. destruct (get r ws) as [s|] eqn:Hg.
  - assert (filters_of r ws = subscriptionFilters s) as Hs by (unfold filters_of; by rewrite Hg).
    destruct (wf_filters _ _ Hwf ws) as [_ Wb]. rewrite Hs in Wb.
    destruct (removes_spec cut ws (subscriptionFilters s).*2 r) as (I1 & I2 & I3 & _); [by eexists| |done|].
    { apply Forall_fmap, list.Forall_forall. intros [k g] Hk. by apply Wb in Hk as []. }
    split; [done|]. split; [|done].
    set (r' := fold_left _ _ _) in *. destruct (filters_of r' ws) as [|[k g] l] eqn:Hl; [done|exfalso].
    destruct (I3 k g) as [Hin Hk]; [left|]. rewrite Hs in Hin. apply Hk.
    destruct (Wb k g Hin) as [-> _]. apply list_elem_of_fmap. exists g. split; [done|].
    by apply (list_elem_of_fmap_2 snd) in Hin.
  - split; [done|]. unfold filters_of. by rewrite Hg.
Qed.

Lemma wf_unregister cut ws r : filters_of r ws = [] → registry_wf cut r → registry_wf cut (unregister ws r).
Proof.
  intros Hf. apply registry_wf_ext; [|done..]. intros x. unfold filters_of, get, unregister, set_clients. simpl.
  destruct (decide (x = ws)) as [->|]; [|by rewrite jm_get_delete_ne].
  rewrite jm_get_delete_eq. unfold filters_of, get in Hf. by rewrite Hf.
Qed.

Lemma wf_register cut ws s r : get r ws = None → subscriptionFilters s = [] →
  registry_wf cut r → registry_wf cut (register ws s r).
Proof.
  intros Hg Hs. apply registry_wf_ext; [|done..]. intros x. unfold filters_of, get, register, set_clients in *. simpl.
  destruct (decide (x = ws)) as [->|]; [|by rewrite jm_get_set_ne]. by rewrite jm_get_set_eq, Hg, Hs.
Qed.

Lemma wf_take cut s r : registry_wf cut r →
  registry_wf (λ x, cut x ∨ x = s) (takeStreamSubscribers s r).2.
Proof.
  intros Hwf. unfold takeStreamSubscribers. destruct (jm_get s (streamSubscriptions r)) as [l|] eqn:Hl; [|].
  - case_bool_decide.
    + destruct Hwf. split; try done. intros k x Hc. apply wf_stream_complete0. tauto.
    + destruct Hwf as [W1 W2 W3 W4 W5 W6 W7]. split; simpl; try done; auto with fluxora.
      * intros k x. rewrite members_delete. case_decide; [by intros ?%not_elem_of_nil|]. apply W4.
      * intros k x Hc Hx. rewrite members_delete. rewrite decide_False by tauto. apply W6; [tauto|done].
  - destruct Hwf. split; try done. intros k x Hc. apply wf_stream_complete0. tauto.
Qed.

Lemma wf_new cut : registry_wf cut new_registry.
Proof.
  assert (∀ ws P, ¬ holds new_registry ws P) as Hh by (intros ws P (k & f & Hin & _); by apply not_elem_of_nil in Hin).
  split; auto with fluxora; try (by intros ? ? []%Hh); try (by intros ? ? ? []%Hh);
    try (by intros ? ? []%not_elem_of_nil).
  intros ws. split; [apply jm_wf_nil|]. by intros k f ?%not_elem_of_nil.
Qed.

#[export] Hint Resolve wf_new wf_addSubscription wf_remove wf_checkRateLimit wf_take : fluxora.
