(* ===== verification/SubscriptionRouter.v ===== *)
(** * Subscription routing ([src/ws/subscriptionRouter.ts], with the normalisation
    of messages of [src/ws/messageHandler.ts])

    Validation and authorization of subscription filters, the per-connection cap,
    and the resolution of the subscribers of an event over the indexes of
    [ConnectionRegistry].  The [streams] table is an argument; a protocol error sent
    to the client is part of the result. *)
From Stdlib Require Import Ascii ZArith Lia.
From stdpp Require Import base strings list.
From S2P Require Import Prelude StellarAddress ConnectionRegistry.
Local Open Scope string_scope.
Local Open Scope list_scope.
Local Open Scope Z_scope.

Definition MAX_HANDSHAKE_QUERY_LENGTH : Z := 2048.
Definition MAX_FILTER_FIELD_LENGTH : Z := 256.

(** [{ ok: true, filter }] or [{ ok: false, code, message }]. *)
Notation Authorization := (result (string * string)).

(** ** Messages *)

(** The fields of a subscription message that passed its schema. *)
Record FilterFields : Type := {
  m_stream_id : option string;
  m_streamId : option string;
  m_recipient_address : option string;
  m_recipientAddress : option string;
  m_batching : option bool;
}.
Record SubscriptionMessage : Type := { top : FilterFields; nested : option FilterFields }.

Definition firstConsistentValue (values : list (option string)) (field : string) : result string (option string) :=
  match omap (λ v, v) values with
  | [] => Ok None
  | first :: rest =>
      if existsb (λ v, negb (bool_decide (v = first))) (first :: rest)
      then Err (field ++ " aliases must not contain conflicting values")%string
      else Ok (Some first)
  end.

Definition normalizeSubscriptionFilter (value : SubscriptionMessage) : result string SubscriptionFilter :=
  streamId ← firstConsistentValue
    [m_stream_id (top value); m_streamId (top value); nested value ≫= m_stream_id; nested value ≫= m_streamId]
    "stream_id";
  recipientAddress ← firstConsistentValue
    [m_recipient_address (top value); m_recipientAddress (top value);
     nested value ≫= m_recipient_address; nested value ≫= m_recipientAddress]
    "recipient_address";
  let batchingEnabled := match m_batching (top value) with Some b => Some b | None => nested value ≫= m_batching end in
  match streamId, recipientAddress with
  | Some _, Some _ => Err "subscription filter accepts either stream_id or recipient_address, not both"
  | Some s, None => Ok {| streamId := Some s; recipientAddress := None; batchingEnabled := batchingEnabled |}
  | None, Some a => Ok {| streamId := None; recipientAddress := Some a; batchingEnabled := batchingEnabled |}
  | None, None =>
      if bool_decide (is_Some (nested value))
      then Ok {| streamId := None; recipientAddress := None; batchingEnabled := None |}
      else Err "subscribe and unsubscribe messages require stream_id, recipient_address, or an explicit empty filter"
  end.

(** ** Validation *)

Definition js_string_field (v : jsval) (name : string) : Authorization unit :=
  match v with
  | JUndefined => Ok tt
  | JStr s =>
      if str_empty (js_trim s) then Err ("INVALID_FILTER", name ++ " must be a non-empty string")%string
      else if MAX_FILTER_FIELD_LENGTH <? Z.of_nat (length (chars s))
      then Err ("OVERSIZED_INPUT", name ++ " is too long")%string
      else Ok tt
  | _ => Err ("INVALID_FILTER", name ++ " must be a non-empty string")%string
  end.

Definition js_undefined (v : jsval) : bool := match v with JUndefined => true | _ => false end.

Definition validateSubscriptionFilter (filter : jsval) : Authorization unit :=
  match filter with
  | JObj o =>
      let streamId := js_get o "streamId" in
      let recipientAddress := js_get o "recipientAddress" in
      if js_undefined streamId && js_undefined recipientAddress
      then Err ("EMPTY_INPUT", "Subscription filter must not be empty")
      else
        _ ← js_string_field streamId "streamId";
        js_string_field recipientAddress "recipientAddress"
  | _ => Err ("INVALID_FILTER", "Subscription filter must be an object")
  end.

(** A typed filter as the object it is. *)
Definition opt_js {A} (f : A → jsval) (v : option A) : jsval := match v with Some a => f a | None => JUndefined end.
Definition filter_value (f : SubscriptionFilter) : jsval :=
  JObj [("streamId", opt_js JStr (streamId f)); ("recipientAddress", opt_js JStr (recipientAddress f));
        ("batchingEnabled", opt_js JBool (batchingEnabled f))].

(** ** Authorization *)

Record Stream : Type := { sender_address : string; recipient_address : string }.

Definition isValidStellarPublicKey (value : string) : bool := isValidStellarAccountAddress (JStr (js_trim value)).

Definition authenticatedRecipientSubject (state : ClientState) : option string :=
  match authenticatedSubject state with
  | Some subject => if isValidStellarPublicKey subject then Some subject else None
  | None => None
  end.

(** [!subject] for an optional string. *)
Definition falsy (s : option string) : bool := match s with Some s => str_empty s | None => true end.

(** [getById] is the [streams] table when it is asked; the outer [result] is the
    promise, rejected when the query throws. *)
Definition authorize (getById : string → result string (option Stream)) (r : ConnectionRegistry)
    (ws : WebSocket) (filter : SubscriptionFilter) : result string (Authorization SubscriptionFilter) :=
  match validateSubscriptionFilter (filter_value filter) with
  | Err e => Ok (Err e)
  | Ok _ =>
      match get r ws with
      | None => Ok (Err ("UNAUTHORIZED", "WebSocket client is not registered"))
      | Some state =>
          match streamId filter with
          | Some s =>
              stream ← getById s;
              match stream with
              | None => Ok (Err ("NOT_FOUND", "Stream not found"))
              | Some stream =>
                  let subject := authenticatedSubject state in
                  if falsy subject
                     || (negb (bool_decide (Some (sender_address stream) = subject))
                         && negb (bool_decide (Some (recipient_address stream) = subject)))
                  then Ok (Err ("FORBIDDEN", "Not authorized for this stream"))
                  else Ok (Ok filter)
              end
          | None =>
              let authenticatedRecipient := authenticatedRecipientSubject state in
              match recipientAddress filter with
              | Some a =>
                  match authenticatedRecipient with
                  | None => Ok (Err ("UNAUTHORIZED",
                      "recipient_address subscriptions require an authenticated Stellar public key subject"))
                  | Some subject =>
                      if negb (bool_decide (a = subject))
                      then Ok (Err ("FORBIDDEN",
                             "recipient_address subscriptions must match the authenticated subject"))
                      else Ok (Ok filter)
                  end
              | None =>
                  match authenticatedRecipient with
                  | None => Ok (Err ("UNAUTHORIZED",
                      "empty subscription filters require an authenticated Stellar public key subject"))
                  | Some subject =>
                      Ok (Ok {| streamId := None; recipientAddress := Some subject; batchingEnabled := None |})
                  end
              end
          end
      end
  end.

(** ** Subscription lifecycle *)

(** A protocol error for the client, and whether the limit counter is incremented. *)
Inductive RouterOutput : Type :=
| SendError (ws : WebSocket) (code message : string)
| LimitExceeded.

Section router.
Context (maxSubscriptionsPerConnection : Z).

Definition subscribe (ws : WebSocket) (filter : SubscriptionFilter) (r : ConnectionRegistry)
    : list RouterOutput * ConnectionRegistry :=
  match get r ws with
  | None => ([], r)
  | Some state =>
      match validateSubscriptionFilter (filter_value filter) with
      | Err (code, message) => ([SendError ws code message], r)
      | Ok _ =>
          if jm_has (subscriptionKey filter) (subscriptionFilters state) then ([], r)
          else if maxSubscriptionsPerConnection <=? Z.of_nat (length (subscriptionFilters state)) then
            ([LimitExceeded;
              SendError ws "SUBSCRIPTION_LIMIT_EXCEEDED"
                ("Connection is limited to " ++ int_string maxSubscriptionsPerConnection ++ " subscriptions")%string], r)
          else ([], (addSubscription ws filter r).2)
      end
  end.

Definition unsubscribe (ws : WebSocket) (filter : SubscriptionFilter) (r : ConnectionRegistry) : ConnectionRegistry :=
  match get r ws with
  | None => r
  | Some state =>
      if negb (jm_has (subscriptionKey filter) (subscriptionFilters state)) then r
      else removeSubscription ws filter r
  end.
End router.

(** [applyHandshakeSubscription] up to the call of [authorize]; [parsed] is the
    result of [parseHandshakeSubscriptionFilter] and [urlBytes] the length of the URL. *)
Definition handshake_filter (ws : WebSocket) (urlBytes : Z) (parsed : result string (option SubscriptionFilter))
    : list RouterOutput * option SubscriptionFilter :=
  if MAX_HANDSHAKE_QUERY_LENGTH <? urlBytes
  then ([SendError ws "OVERSIZED_INPUT" "Handshake subscription query string is too large"], None)
  else match parsed with
       | Err message => ([SendError ws "INVALID_MESSAGE" message], None)
       | Ok filter => ([], filter)
       end.

(** The callbacks of [authorize] in [applyHandshakeSubscription]. *)
Definition handshake_authorized (max : Z) (ws : WebSocket) (a : result string (Authorization SubscriptionFilter))
    (r : ConnectionRegistry) : list RouterOutput * ConnectionRegistry :=
  match a with
  | Err _ => ([SendError ws "INTERNAL_ERROR" "Failed to authorize subscription filter"], r)
  | Ok (Err (code, message)) => ([SendError ws code message], r)
  | Ok (Ok filter) => subscribe max ws filter r
  end.

(** ** Fanout *)

Record StreamUpdateEvent : Type := {
  ev_streamId : string;
  ev_eventId : string;
  ev_payload : jsval;
  ev_correlationId : option string;
  ev_ledger : option Z;
  ev_recipientAddress : option string;
}.

Definition js_or (v w : jsval) : jsval := if js_nullish v then w else v.

Definition extractRecipientAddress (event : StreamUpdateEvent) : option string :=
  let from_payload :=
    match ev_payload event with
    | JObj o =>
        match js_or (js_get o "recipient_address") (js_or (js_get o "recipientAddress") (js_get o "recipient")) with
        | JStr candidate => if str_empty (js_trim candidate) then None else Some (js_trim candidate)
        | _ => None
        end
    | _ => None
    end in
  match ev_recipientAddress event with
  | Some a => if str_empty (js_trim a) then from_payload else Some (js_trim a)
  | None => from_payload
  end.

Definition matchingSubscribers (event : StreamUpdateEvent) (r : ConnectionRegistry) : list WebSocket :=
  let targets := streamSubscribers (ev_streamId event) r in
  match extractRecipientAddress event with
  | Some a => fold_left (λ targets ws, set_add ws targets) (recipientSubscribers a r) targets
  | None => targets
  end.

Record FanoutTargets : Type := { batched : list (WebSocket * ClientState); immediate : list WebSocket }.

Definition wantsBatching (state : ClientState) : bool :=
  existsb (λ f, bool_decide (batchingEnabled f = Some true)) (subscriptionFilters state).*2.

(** The loop of [resolveTargets] over the matching subscribers. *)
Fixpoint split_targets (r : ConnectionRegistry) (l : list WebSocket) (t : FanoutTargets) : FanoutTargets :=
  match l with
  | [] => t
  | ws :: l =>
      match get r ws with
      | None => split_targets r l t
      | Some state =>
          if wantsBatching state
          then split_targets r l {| batched := batched t ++ [(ws, state)]; immediate := immediate t |}
          else split_targets r l {| batched := batched t; immediate := immediate t ++ [ws] |}
      end
  end.

Definition resolveTargets (event : StreamUpdateEvent) (r : ConnectionRegistry) : FanoutTargets :=
  split_targets r (matchingSubscribers event r) {| batched := []; immediate := [] |}.

(** ** Validation and authorization *)

(** A field that passes validation. *)
Definition valid_field (v : option string) : Prop :=
  ∀ s, v = Some s → str_empty (js_trim s) = false ∧ Z.of_nat (length (chars s)) <= MAX_FILTER_FIELD_LENGTH.

Lemma js_string_field_Ok v name : js_string_field (opt_js JStr v) name = Ok tt ↔ valid_field v.
Proof.
  unfold valid_field. destruct v as [s|]; simpl; [|split; [by intros _ s|done]]. split.
  - destruct (str_empty (js_trim s)) eqn:He; [done|]. destruct (Z.ltb_spec MAX_FILTER_FIELD_LENGTH (Z.of_nat (length (chars s))));
      [done|]. intros _ s' [= <-]. by split.
  - intros Hs. destruct (Hs s eq_refl) as [-> Hl]. by destruct (Z.ltb_spec MAX_FILTER_FIELD_LENGTH (Z.of_nat (length (chars s)))); [lia|].
Qed.

Lemma validate_Ok f : validateSubscriptionFilter (filter_value f) = Ok tt ↔
  (is_Some (streamId f) ∨ is_Some (recipientAddress f)) ∧ valid_field (streamId f) ∧ valid_field (recipientAddress f).
Proof.
  rewrite <-!(js_string_field_Ok _ "streamId"). rewrite (js_string_field_Ok (recipientAddress f) "streamId").
  rewrite <-(js_string_field_Ok _ "recipientAddress").
  unfold validateSubscriptionFilter, filter_value. cbn [js_get].
  rewrite (bool_decide_true ("streamId" = "streamId")) by done.
  rewrite (bool_decide_false ("recipientAddress" = "streamId")) by done.
  rewrite (bool_decide_true ("recipientAddress" = "recipientAddress")) by done.
  destruct (streamId f) as [s|] eqn:Hs, (recipientAddress f) as [a|] eqn:Ha; cbn [opt_js js_undefined andb].
  4: { split; [done|]. intros [[[]|[]] _]; done. }
  all: destruct (js_string_field _ "streamId") as [[]|] eqn:H1; cbn; try (split; [by auto|naive_solver]).
  all: split; [intros ->; eauto|naive_solver].
Qed.

Lemma validate_proper f : validateSubscriptionFilter (filter_value f) = Ok tt → proper f.
Proof.
  rewrite validate_Ok. unfold proper, stream_of, recipient_of. intros (Hsome & _ & Ha).
  destruct (streamId f) as [s|]; [left; by eexists|]. right.
  destruct Hsome as [[? ?]|[a Heq]]; [done|]. exists a. split; [done|]. intros ->.
  by destruct (Ha _ Heq).
Qed.

(** What an authorization of a filter rests on, with the table as it was asked. *)
Definition authorized (getById : string → result string (option Stream)) (subject : option string)
    (f : SubscriptionFilter) : Prop :=
  match streamId f with
  | Some s => ∃ stream a, getById s = Ok (Some stream) ∧ subject = Some a ∧ str_empty a = false ∧
                          (sender_address stream = a ∨ recipient_address stream = a)
  | None => ∃ a, recipientAddress f = Some a ∧ subject = Some a ∧ isValidStellarPublicKey a = true
  end.

Lemma authorize_Ok getById r ws f f' : authorize getById r ws f = Ok (Ok f') →
  ∃ state, get r ws = Some state ∧ authorized getById (authenticatedSubject state) f' ∧
           validateSubscriptionFilter (filter_value f) = Ok tt ∧ f' = f.
Proof.
  unfold authorize. destruct (validateSubscriptionFilter (filter_value f)) as [[]|] eqn:Hv; [|done].
  destruct (get r ws) as [state|] eqn:Hg; [|done]. intros Ha. exists state. split; [done|].
  apply validate_Ok in Hv as Hv'. destruct Hv' as [Hsome _]. unfold authorized.
  destruct (streamId f) as [s|] eqn:Hs.
  - destruct (getById s) as [[stream|]|] eqn:Hget; cbn in Ha; try done.
    case_match eqn:Hc; [done|]. injection Ha as <-. rewrite Hs. split; [|done].
    rewrite orb_false_iff, andb_false_iff, !negb_false_iff, !bool_decide_eq_true in Hc. destruct Hc as [Hf Hc].
    destruct (authenticatedSubject state) as [a|]; [|done]. exists stream, a. naive_solver.
  - destruct (recipientAddress f) as [a|] eqn:Hr; [|by destruct Hsome as [[]|[]]].
    unfold authenticatedRecipientSubject in Ha. destruct (authenticatedSubject state) as [a'|]; [|done].
    destruct (isValidStellarPublicKey a') eqn:Hk; [|done].
    case_bool_decide; cbn in Ha; [|done]. injection Ha as <-. subst. rewrite Hs. split; [|done]. by exists a'.
Qed.

(** ** Subscribing under the cap *)
Lemma subscribe_cases max ws f r :
  (subscribe max ws f r).2 = r ∨
  ((subscribe max ws f r).2 = (addSubscription ws f r).2 ∧ (subscribe max ws f r).1 = [] ∧
   validateSubscriptionFilter (filter_value f) = Ok tt ∧
   ∃ state, get r ws = Some state ∧ jm_get (subscriptionKey f) (subscriptionFilters state) = None ∧
            Z.of_nat (length (subscriptionFilters state)) < max).
Proof.
  unfold subscribe. destruct (get r ws) as [state|]; [|by left].
  destruct (validateSubscriptionFilter _) as [[]|[]]; [|by left].
  destruct (jm_has (subscriptionKey f) (subscriptionFilters state)) eqn:Hk; [by left|].
  destruct (Z.leb_spec max (Z.of_nat (length (subscriptionFilters state)))); [by left|]. right.
  splits; [done..|]. exists state. splits; [done| |done].
  destruct (jm_get _ _) eqn:Hj; [|done]. unfold jm_has in Hk. by rewrite Hj in Hk.
Qed.

Lemma wf_subscribe cut max ws f r : registry_wf cut r → registry_wf cut (subscribe max ws f r).2.
Proof.
  intros Hwf. destruct (subscribe_cases max ws f r) as [->|(-> & _ & Hv & _)]; [done|].
  apply wf_addSubscription; [by apply validate_proper|done].
Qed.

Lemma wf_unsubscribe cut ws f r : proper f → registry_wf cut r → registry_wf cut (unsubscribe ws f r).
Proof.
  intros Hp Hwf. unfold unsubscribe. destruct (get r ws); [|done]. case_match; [done|]. by apply wf_remove.
Qed.

Lemma filters_subscribe max ws f r x k g : (k, g) ∈ filters_of (subscribe max ws f r).2 x →
  (k, g) ∈ filters_of r x ∨ (x = ws ∧ g = f ∧ k = subscriptionKey f).
Proof.
  destruct (subscribe_cases max ws f r) as [->|(-> & _ & _ & state & Hg & Hk & _)]; [by left|].
  destruct (addSubscription_spec ws f r state Hg Hk) as (_ & -> & _). case_decide; [subst|by left].
  rewrite elem_of_app, list_elem_of_singleton. naive_solver.
Qed.

Lemma count_subscribe max ws f r x :
  Z.of_nat (length (filters_of r x)) <= Z.max 0 max →
  Z.of_nat (length (filters_of (subscribe max ws f r).2 x)) <= Z.max 0 max.
Proof.
  intros Hx. destruct (subscribe_cases max ws f r) as [->|(-> & _ & _ & state & Hg & Hk & Hc)]; [done|].
  destruct (addSubscription_spec ws f r state Hg Hk) as (_ & -> & _). case_decide; [subst|done].
  rewrite length_app. simpl. unfold filters_of in *. rewrite Hg in *. lia.
Qed.

Lemma filters_unsubscribe ws f r x k g : (k, g) ∈ filters_of (unsubscribe ws f r) x → (k, g) ∈ filters_of r x.
Proof.
  unfold unsubscribe. destruct (get r ws) as [state|] eqn:Hg; [|done]. case_match; [done|].
  destruct (removeSubscription_spec ws f r) as (-> & _); [by eexists|]. case_decide; [subst|done].
  by intros [? _]%elem_of_jm_delete.
Qed.

(** ** Resolving targets *)
Lemma elem_of_union l targets x : x ∈ fold_left (λ t ws, set_add ws t) l targets ↔ x ∈ targets ∨ x ∈ l.
Proof.
  revert targets. induction l as [|y l IH]; intros targets; simpl.
  - split; [by left|]. intros [?|?%not_elem_of_nil]; done.
  - rewrite IH, elem_of_set_add, elem_of_cons. tauto.
Qed.

Lemma NoDup_union l targets : NoDup targets → NoDup (fold_left (λ t ws, set_add ws t) l targets).
Proof. revert targets. induction l as [|y l IH]; intros targets Ht; simpl; [done|]. apply IH. by apply NoDup_set_add. Qed.

Lemma split_targets_spec r l t :
  batched (split_targets r l t) =
    batched t ++ omap (λ ws, match get r ws with Some s => if wantsBatching s then Some (ws, s) else None | None => None end) l ∧
  immediate (split_targets r l t) =
    immediate t ++ omap (λ ws, match get r ws with Some s => if wantsBatching s then None else Some ws | None => None end) l.
Proof.
  revert t. induction l as [|ws l IH]; intros t; cbn [split_targets omap list_omap].
  - by rewrite !app_nil_r.
  - destruct (get r ws) as [s|]; [|apply IH]. destruct (wantsBatching s);
      match goal with |- context [split_targets r l ?t'] => destruct (IH t') as [-> ->] end;
      simpl; by rewrite <-?app_assoc.
Qed.

Lemma NoDup_omap_key {A B} (f : A → option B) (key : B → A) l :
  (∀ x y, f x = Some y → key y = x) → NoDup l → NoDup (key <$> omap f l).
Proof.
  intros Hf. induction l as [|x l IH]; cbn [omap list_omap]; [constructor|]. rewrite list.NoDup_cons. intros [Hx Hl].
  destruct (f x) as [y|] eqn:Hy; [|by apply IH]. rewrite fmap_cons. apply list.NoDup_cons. split; [|by apply IH].
  rewrite (Hf x y Hy). intros (z & -> & (w & Hw & Hz)%list_elem_of_omap)%list_elem_of_fmap.
  by rewrite (Hf w z Hz) in Hx.
Qed.

Lemma NoDup_batched r l : NoDup l →
  NoDup (omap (λ ws, match get r ws with Some s => if wantsBatching s then Some (ws, s) else None | None => None end) l).*1.
Proof. apply NoDup_omap_key. intros x y. destruct (get r x); [|done]. case_match; [|done]. by intros [= <-]. Qed.

Lemma NoDup_immediate r l : NoDup l →
  NoDup (omap (λ ws, match get r ws with Some s => if wantsBatching s then None else Some ws | None => None end) l).
Proof.
  intros Hl. rewrite <-(list_fmap_id (omap _ l)). apply (NoDup_omap_key _ (λ ws, ws)); [|done].
  intros x y. destruct (get r x); [|done]. case_match; [done|]. by intros [= <-].
Qed.

(** The filter matches the event: by its stream, or by its recipient. *)
Definition matches (event : StreamUpdateEvent) (f : SubscriptionFilter) : Prop :=
  stream_of f = Some (ev_streamId event) ∨
  ∃ a, recipient_of f = Some a ∧ extractRecipientAddress event = Some a.

Lemma matching_spec cut event r : registry_wf cut r →
  NoDup (matchingSubscribers event r) ∧
  (∀ x, x ∈ matchingSubscribers event r → holds r x (matches event)) ∧
  (∀ x, ¬ cut (ev_streamId event) → holds r x (matches event) → x ∈ matchingSubscribers event r).
Proof.
  intros Hwf. unfold matchingSubscribers.
  change (streamSubscribers (ev_streamId event) r) with (members (streamSubscriptions r) (ev_streamId event)).
  assert (∀ x, x ∈ members (streamSubscriptions r) (ev_streamId event) → holds r x (matches event)) as Hs.
  { intros x (k & f & Hin & HP)%(wf_stream_sound _ _ Hwf). exists k, f. split; [done|]. by left. }
  pose proof (NoDup_members _ (ev_streamId event) (wf_stream_index _ _ Hwf)) as Hnd.
  assert (∀ x k f, ¬ cut (ev_streamId event) → (k, f) ∈ filters_of r x → stream_of f = Some (ev_streamId event) →
            x ∈ members (streamSubscriptions r) (ev_streamId event)) as Hc.
  { intros x k f Hcut Hin Hf. apply (wf_stream_complete _ _ Hwf); [done|by exists k, f]. }
  destruct (extractRecipientAddress event) as [a|] eqn:Ha.
  - change (recipientSubscribers a r) with (members (recipientSubscriptions r) a).
    split; [by apply NoDup_union|]. split.
    + intros x [Hx|(k & f & Hin & HP)%(wf_recipient_sound _ _ Hwf)]%elem_of_union; [by apply Hs|].
      exists k, f. split; [done|]. right. by exists a.
    + intros x Hcut (k & f & Hin & [Hf|(a' & Hf & Ha')]); apply elem_of_union; [left; by eapply Hc|]. right.
      apply (wf_recipient_complete _ _ Hwf). exists k, f. split; [done|]. congruence.
  - split; [done|]. split; [done|]. intros x Hcut (k & f & Hin & [Hf|(a' & Hf & Ha')]); [by eapply Hc|congruence].
Qed.

Lemma resolve_targets_spec cut event r :
  registry_wf cut r →
  let t := resolveTargets event r in
  NoDup ((batched t).*1 ++ immediate t) ∧
  (∀ ws s, (ws, s) ∈ batched t → get r ws = Some s ∧ wantsBatching s = true ∧ holds r ws (matches event)) ∧
  (∀ ws, ws ∈ immediate t → (∃ s, get r ws = Some s ∧ wantsBatching s = false) ∧ holds r ws (matches event)) ∧
  (∀ ws, ¬ cut (ev_streamId event) → holds r ws (matches event) → ws ∈ (batched t).*1 ++ immediate t).
Proof.
  intros Hwf t. destruct (matching_spec cut event r Hwf) as (Hnd & Hsound & Hcomplete).
  destruct (split_targets_spec r (matchingSubscribers event r) {| batched := []; immediate := [] |}) as [Hb Hi].
  fold (resolveTargets event r) in Hb, Hi. fold t in Hb, Hi. simpl in Hb, Hi.
  assert (∀ ws s, (ws, s) ∈ batched t ↔ ws ∈ matchingSubscribers event r ∧ get r ws = Some s ∧ wantsBatching s = true) as Hbs.
  { intros ws s. rewrite Hb, list_elem_of_omap. split.
    - intros (x & Hx & Hs). destruct (get r x) as [sx|] eqn:Hgx; [|done]. destruct (wantsBatching sx) eqn:Hw; naive_solver.
    - intros (Hx & Hs & Hw). exists ws. by rewrite Hs, Hw. }
  assert (∀ ws, ws ∈ immediate t ↔ ws ∈ matchingSubscribers event r ∧ ∃ s, get r ws = Some s ∧ wantsBatching s = false) as His.
  { intros ws. rewrite Hi, list_elem_of_omap. split.
    - intros (x & Hx & Hs). destruct (get r x) as [sx|] eqn:Hgx; [|done]. destruct (wantsBatching sx) eqn:Hw; naive_solver.
    - intros (Hx & s & Hs & Hw). exists ws. by rewrite Hs, Hw. }
  splits.
  - apply list.NoDup_app. splits.
    + rewrite Hb. by apply NoDup_batched.
    + intros ws [[ws' s] [-> (_ & Hs & Hw)%Hbs]]%list_elem_of_fmap (_ & s' & Hs' & Hw')%His. simpl in *. congruence.
    + rewrite Hi. by apply NoDup_immediate.
  - intros ws s (Hx & Hs & Hw)%Hbs. splits; [done..|by apply Hsound].
  - intros ws (Hx & s & Hs & Hw)%His. split; [by exists s|by apply Hsound].
  - intros ws Hcut Hh. pose proof (Hcomplete ws Hcut Hh) as Hx. rewrite elem_of_app.
    destruct (get r ws) as [s|] eqn:Hs; [|destruct Hh as (k & f & Hin & _); unfold filters_of in Hin;
      rewrite Hs in Hin; by apply not_elem_of_nil in Hin].
    destruct (wantsBatching s) eqn:Hw; [left|right; apply His; eauto].
    apply list_elem_of_fmap. exists (ws, s). split; [done|]. by apply Hbs.
Qed.

(** ** Properties *)

(** An event is fanned out to the right clients: under the registry's
    invariant each target is a connected socket that holds a filter for the event's
    stream or for its recipient, no socket is a target twice, it is on the batched
    list exactly when one of its filters asks for batching, and outside the detached
    streams every socket with such a filter is a target. *)
Theorem resolve_targets_exact cut event r :
  registry_wf cut r →
  let t := resolveTargets event r in
  NoDup ((batched t).*1 ++ immediate t) ∧
  (∀ ws s, (ws, s) ∈ batched t → get r ws = Some s ∧ wantsBatching s = true ∧ holds r ws (matches event)) ∧
  (∀ ws, ws ∈ immediate t → (∃ s, get r ws = Some s ∧ wantsBatching s = false) ∧ holds r ws (matches event)) ∧
  (∀ ws, ¬ cut (ev_streamId event) → holds r ws (matches event) → ws ∈ (batched t).*1 ++ immediate t).
Proof. apply resolve_targets_spec. Qed.

(** ** Witness *)

Definition sample_filter : SubscriptionFilter := {| streamId := Some "s1"; recipientAddress := None; batchingEnabled := None |}.
Definition sample_registry : ConnectionRegistry :=
  (addSubscription 7%nat sample_filter (register 7%nat (createClientState "c" 0 "ip" None None) new_registry)).2.
Definition sample_event : StreamUpdateEvent :=
  {| ev_streamId := "s1"; ev_eventId := "e1"; ev_payload := JObj []; ev_correlationId := None; ev_ledger := None; ev_recipientAddress := None |}.

Lemma sample_registry_wf : registry_wf (λ _, False) sample_registry.
Proof. apply wf_addSubscription; [left; by exists "s1"|]. apply wf_register; [done|done|apply wf_new]. Qed.

Lemma resolve_targets_exact_witness :
  7%nat ∈ (batched (resolveTargets sample_event sample_registry)).*1 ++ immediate (resolveTargets sample_event sample_registry).
Proof.
  destruct (resolve_targets_exact (λ _, False) sample_event sample_registry sample_registry_wf) as (_ & _ & _ & Hc).
  apply (Hc 7%nat).
  - intros [].
  - exists "stream:s1", sample_filter. split; [|by left]. vm_compute. left.
Defined.
