(* ===== verification/Backpressure.v ===== *)
(** * Outbound backpressure of WebSocket clients ([src/ws/backpressure.ts])

    The outbound queue of each connection with its two ceilings, the flush loop with
    the drop and terminate thresholds, and the delivery of one frame to a batch of
    recipients.  The sockets of the [ws] library are an interface ([Socket]); what
    they were given to send is kept in a log.  [onTerminate] is the hub's teardown;
    the class [Teardown] states what the queues rely on, and [Hub] proves it of the
    hub's. *)
From Stdlib Require Import Ascii ZArith Lia.
From stdpp Require Import base functions strings list.
From S2P Require Import Prelude Batching ConnectionRegistry.
Local Open Scope string_scope.
Local Open Scope list_scope.
Local Open Scope Z_scope.

Definition BACKPRESSURE_DROP_BYTES : Z := 1 * 1024 * 1024.
Definition BACKPRESSURE_TERMINATE_BYTES : Z := 4 * 1024 * 1024.

(** A socket: [readyState === OPEN], [bufferedAmount], [send] (the boolean is false
    when it throws) and [terminate]. *)
Class Socket (S : Type) := {
  isOpen : S → bool;
  bufferedAmount : S → Z;
  send : string → S → bool * S;
  terminate : S → S;
}.

Inductive BackpressureAction : Type := drop_action | terminate_action.

Record StreamHubBackpressureEvent : Type := {
  bp_action : BackpressureAction;
  bp_streamId : string;
  bp_eventId : string;
  bp_connectionId : string;
  bp_bufferedAmount : Z;
  bp_thresholdBytes : Z;
}.

Record BackpressureMetrics : Type := {
  droppedMessages : Z;
  terminatedConnections : Z;
  sentMessages : Z;
}.

Definition byteLen (m : string) : Z := byteLength (chars m).

Section backpressure.
Context {S X : Type} `{Socket S}.

(** The state of [OutboundBackpressure] with what it shares with the hub: the
    registry, the sockets, and the rest of the hub ([bp_rest]), which only
    [onTerminate] touches.  [bp_log] is what [ws.send] accepted. *)
Record OutboundBackpressure : Type := {
  dropBytes : Z;
  terminateBytes : Z;
  outboundQueues : list (WebSocket * list string);
  bp_metrics : BackpressureMetrics;
  queueLimitViolations : Z;
  bp_events : list StreamHubBackpressureEvent;
  registry : ConnectionRegistry;
  sockets : WebSocket → S;
  bp_log : list (WebSocket * string);
  bp_rest : X;
}.
Implicit Types st : OutboundBackpressure.

Definition with_queues (q : list (WebSocket * list string)) st : OutboundBackpressure := {|
  dropBytes := dropBytes st; terminateBytes := terminateBytes st; outboundQueues := q; bp_metrics := bp_metrics st;
  queueLimitViolations := queueLimitViolations st; bp_events := bp_events st; registry := registry st;
  sockets := sockets st; bp_log := bp_log st; bp_rest := bp_rest st |}.
Definition with_metrics (m : BackpressureMetrics) st : OutboundBackpressure := {|
  dropBytes := dropBytes st; terminateBytes := terminateBytes st; outboundQueues := outboundQueues st; bp_metrics := m;
  queueLimitViolations := queueLimitViolations st; bp_events := bp_events st; registry := registry st;
  sockets := sockets st; bp_log := bp_log st; bp_rest := bp_rest st |}.
Definition with_violations (v : Z) st : OutboundBackpressure := {|
  dropBytes := dropBytes st; terminateBytes := terminateBytes st; outboundQueues := outboundQueues st;
  bp_metrics := bp_metrics st; queueLimitViolations := v; bp_events := bp_events st; registry := registry st;
  sockets := sockets st; bp_log := bp_log st; bp_rest := bp_rest st |}.
Definition with_events (e : list StreamHubBackpressureEvent) st : OutboundBackpressure := {|
  dropBytes := dropBytes st; terminateBytes := terminateBytes st; outboundQueues := outboundQueues st;
  bp_metrics := bp_metrics st; queueLimitViolations := queueLimitViolations st; bp_events := e; registry := registry st;
  sockets := sockets st; bp_log := bp_log st; bp_rest := bp_rest st |}.
Definition with_registry (r : ConnectionRegistry) st : OutboundBackpressure := {|
  dropBytes := dropBytes st; terminateBytes := terminateBytes st; outboundQueues := outboundQueues st;
  bp_metrics := bp_metrics st; queueLimitViolations := queueLimitViolations st; bp_events := bp_events st; registry := r;
  sockets := sockets st; bp_log := bp_log st; bp_rest := bp_rest st |}.
Definition with_thresholds (d t : Z) st : OutboundBackpressure := {|
  dropBytes := d; terminateBytes := t; outboundQueues := outboundQueues st; bp_metrics := bp_metrics st;
  queueLimitViolations := queueLimitViolations st; bp_events := bp_events st; registry := registry st;
  sockets := sockets st; bp_log := bp_log st; bp_rest := bp_rest st |}.
Definition with_socket (ws : WebSocket) (s : S) st : OutboundBackpressure := {|
  dropBytes := dropBytes st; terminateBytes := terminateBytes st; outboundQueues := outboundQueues st;
  bp_metrics := bp_metrics st; queueLimitViolations := queueLimitViolations st; bp_events := bp_events st;
  registry := registry st; sockets := <[ws := s]> (sockets st); bp_log := bp_log st; bp_rest := bp_rest st |}.
Definition with_log (l : list (WebSocket * string)) st : OutboundBackpressure := {|
  dropBytes := dropBytes st; terminateBytes := terminateBytes st; outboundQueues := outboundQueues st;
  bp_metrics := bp_metrics st; queueLimitViolations := queueLimitViolations st; bp_events := bp_events st;
  registry := registry st; sockets := sockets st; bp_log := l; bp_rest := bp_rest st |}.

Definition add_dropped (n : Z) st : OutboundBackpressure :=
  let m := bp_metrics st in
  with_metrics {| droppedMessages := droppedMessages m + n; terminatedConnections := terminatedConnections m;
                  sentMessages := sentMessages m |} st.
Definition add_terminated st : OutboundBackpressure :=
  let m := bp_metrics st in
  with_metrics {| droppedMessages := droppedMessages m; terminatedConnections := terminatedConnections m + 1;
                  sentMessages := sentMessages m |} st.
Definition add_sent st : OutboundBackpressure :=
  let m := bp_metrics st in
  with_metrics {| droppedMessages := droppedMessages m; terminatedConnections := terminatedConnections m;
                  sentMessages := sentMessages m + 1 |} st.

Definition setThresholds (drop term : option Z) st : OutboundBackpressure :=
  with_thresholds (match drop with Some d => if 0 <=? d then d else dropBytes st | None => dropBytes st end)
                  (match term with Some t => if 0 <=? t then t else terminateBytes st | None => terminateBytes st end) st.

Definition resetMetrics st : OutboundBackpressure :=
  with_metrics {| droppedMessages := 0; terminatedConnections := 0; sentMessages := 0 |} st.
Definition countDropped (frames : Z) st : OutboundBackpressure := add_dropped frames st.

Definition reportBackpressure (action : BackpressureAction) (ws : WebSocket) (buffered threshold : Z)
    (streamId eventId : string) st : OutboundBackpressure :=
  match get (registry st) ws with
  | None => st
  | Some state => with_events (bp_events st ++
      [{| bp_action := action; bp_streamId := streamId; bp_eventId := eventId; bp_connectionId := id state;
          bp_bufferedAmount := buffered; bp_thresholdBytes := threshold |}]) st
  end.

Definition forget (ws : WebSocket) st : OutboundBackpressure := with_queues (jm_delete ws (outboundQueues st)) st.
Definition clearAll st : OutboundBackpressure :=
  with_queues (fold_left (λ q ws, jm_delete ws q) (outboundQueues st).*1 (outboundQueues st)) st.

(** The per-connection counters after a frame was sent. *)
Definition count_sent_frame (next : string) (s : ClientState) : ClientState :=
  let m := ConnectionRegistry.metrics s in
  set_metrics {| messagesReceived := messagesReceived m; messagesSent := messagesSent m + 1;
                 bytesReceived := bytesReceived m; bytesSent := bytesSent m + byteLen next |} s.

Section queue.
Context (maxQueuePerConnection maxQueueBytesPerConnection : Z) (onTerminate : WebSocket → OutboundBackpressure → OutboundBackpressure).

(** The loop of [flushOutboundQueue]; [queue] is the array the map holds for [ws]. *)
Fixpoint flush_loop (ws : WebSocket) (queue : list string) st : OutboundBackpressure :=
  match queue with
  | [] => with_queues (jm_delete ws (outboundQueues st)) st
  | next :: rest =>
      if negb (isOpen (sockets st ws)) then with_queues (jm_delete ws (outboundQueues st)) st
      else
        let buffered := bufferedAmount (sockets st ws) in
        if terminateBytes st <? buffered then
          let st := add_dropped (Z.of_nat (length queue)) (add_terminated st) in
          onTerminate ws (with_socket ws (terminate (sockets st ws)) st)
        else if dropBytes st <? buffered then st
        else
          let st := with_queues (jm_set ws rest (outboundQueues st)) st in
          let '(ok, s) := send next (sockets st ws) in
          let st := with_socket ws s st in
          if negb ok then add_dropped 1 st
          else
            let st := with_log (bp_log st ++ [(ws, next)]) (add_sent st) in
            flush_loop ws rest (with_registry (update ws (count_sent_frame next) (registry st)) st)
  end.

Definition flushOutboundQueue (ws : WebSocket) st : OutboundBackpressure :=
  match jm_get ws (outboundQueues st) with
  | None => st
  | Some queue => if bool_decide (length queue = 0%nat) then st else flush_loop ws queue st
  end.

Definition queued_bytes (queue : list string) : Z := fold_left (λ total m, total + byteLen m) queue 0.

Definition queueOutboundMessage (ws : WebSocket) (message : string) st : bool * OutboundBackpressure :=
  if negb (isOpen (sockets st ws)) then (false, st)
  else
    let queue := default [] (jm_get ws (outboundQueues st)) in
    if (maxQueuePerConnection <=? Z.of_nat (length queue))
       || (maxQueueBytesPerConnection <? queued_bytes queue + byteLen message)
    then (false, with_violations (queueLimitViolations st + 1) st)
    else
      let st := with_queues (jm_set ws (queue ++ [message]) (outboundQueues st)) st in
      (true, flushOutboundQueue ws st).

(** One round of the loop of [deliverBatch]; the boolean is the increment of [sent]. *)
Definition deliver_one (message streamId eventId : string) (ws : WebSocket) st : bool * OutboundBackpressure :=
  if negb (isOpen (sockets st ws)) then (false, st)
  else
    let buffered := bufferedAmount (sockets st ws) in
    if terminateBytes st <? buffered then
      let st := add_dropped 1 (add_terminated st) in
      let st := reportBackpressure terminate_action ws buffered (terminateBytes st) streamId eventId st in
      (false, onTerminate ws (with_socket ws (terminate (sockets st ws)) st))
    else if dropBytes st <? buffered then
      (false, reportBackpressure drop_action ws buffered (dropBytes st) streamId eventId (add_dropped 1 st))
    else
      let '(queued, st) := queueOutboundMessage ws message st in
      if negb queued then (false, add_dropped 1 st) else (true, st).

Fixpoint deliverBatch (batch : list WebSocket) (message streamId eventId : string) st : Z * OutboundBackpressure :=
  match batch with
  | [] => (0, st)
  | ws :: batch =>
      let '(ok, st) := deliver_one message streamId eventId ws st in
      let '(sent, st) := deliverBatch batch message streamId eventId st in
      ((if ok : bool then 1 else 0) + sent, st)
  end.
End queue.
End backpressure.
Arguments OutboundBackpressure : clear implicits.

(** ** What the queues rely on in the hub's teardown *)

Class Teardown {S X} `{Socket S} (onTerminate : WebSocket → OutboundBackpressure S X → OutboundBackpressure S X) : Prop := {
  teardown_queues ws st j q :
    jm_get j (outboundQueues (onTerminate ws st)) = Some q → jm_get j (outboundQueues st) = Some q;
  teardown_log ws st : bp_log (onTerminate ws st) = bp_log st;
  teardown_metrics ws st : bp_metrics (onTerminate ws st) = bp_metrics st;
  teardown_others ws st j : j ≠ ws → jm_get j (outboundQueues (onTerminate ws st)) = jm_get j (outboundQueues st);
  teardown_sockets ws st : sockets (onTerminate ws st) = sockets st;
  teardown_thresholds ws st :
    dropBytes (onTerminate ws st) = dropBytes st ∧ terminateBytes (onTerminate ws st) = terminateBytes st;
}.

(** The frames handed to one socket, in order. *)
Definition to_socket (ws : WebSocket) (l : list (WebSocket * string)) : list string :=
  omap (λ p, if bool_decide (p.1 = ws) then Some p.2 else None) l.

Lemma to_socket_app j l1 l2 : to_socket j (l1 ++ l2) = to_socket j l1 ++ to_socket j l2.
Proof. apply omap_app. Qed.

Lemma to_socket_snoc ws l j m : to_socket j (l ++ [(ws, m)]) = to_socket j l ++ if bool_decide (ws = j) then [m] else [].
Proof. unfold to_socket. rewrite omap_app. simpl. by case_bool_decide. Qed.

Lemma byteLen_nonneg m : 0 <= byteLen m.
Proof. unfold byteLen, byteLength. induction (chars m) as [|c l IH]; simpl; [lia|]. case_decide; lia. Qed.

Lemma queued_bytes_cons m q : queued_bytes (m :: q) = byteLen m + queued_bytes q.
Proof.
  unfold queued_bytes. cbn [fold_left]. assert (∀ q acc, fold_left (λ t m, t + byteLen m) q acc = acc + fold_left (λ t m, t + byteLen m) q 0) as Hf.
  { clear. induction q as [|x q IH]; intros acc; cbn [fold_left]; [lia|]. rewrite IH, (IH (0 + byteLen x)). lia. }
  rewrite Hf. lia.
Qed.

Lemma queued_bytes_app q1 q2 : queued_bytes (q1 ++ q2) = queued_bytes q1 + queued_bytes q2.
Proof. induction q1 as [|m q1 IH]; [done|]. simpl. rewrite !queued_bytes_cons, IH. lia. Qed.

Lemma queued_bytes_nonneg q : 0 <= queued_bytes q.
Proof. induction q as [|m q IH]; [done|]. rewrite queued_bytes_cons. pose proof (byteLen_nonneg m). lia. Qed.

Section flush.
Context {S X : Type} `{Socket S} (maxQ maxB : Z) (onTerminate : WebSocket → OutboundBackpressure S X → OutboundBackpressure S X)
  `{!Teardown onTerminate}.
Implicit Types st : OutboundBackpressure S X.
Notation flush_loop := (flush_loop onTerminate).

Definition queue_of st (ws : WebSocket) : list string := default [] (jm_get ws (outboundQueues st)).

(** What the flush of [ws] may do: the queue loses a prefix, of which a
    subsequence is sent, in order; other connections keep their queue or lose it. *)
Definition flushed (ws : WebSocket) (queue : list string) st st' : Prop :=
  (∃ new, bp_log st' = bp_log st ++ ((λ m, (ws, m)) <$> new) ∧ (new ++ queue_of st' ws) `sublist_of` queue ∧
          sentMessages (bp_metrics st') = sentMessages (bp_metrics st) + Z.of_nat (length new)) ∧
  (∀ q, jm_get ws (outboundQueues st') = Some q → ∃ pre, queue = pre ++ q) ∧
  (∀ j q, j ≠ ws → jm_get j (outboundQueues st') = Some q → jm_get j (outboundQueues st) = Some q).

Lemma flushed_nothing ws queue st st' :
  jm_get ws (outboundQueues st) = Some queue →
  bp_log st' = bp_log st → sentMessages (bp_metrics st') = sentMessages (bp_metrics st) →
  (∀ j q, jm_get j (outboundQueues st') = Some q → jm_get j (outboundQueues st) = Some q) →
  flushed ws queue st st'.
Proof.
  intros Hq Hl Hm Hj. split; [|split].
  - exists []. splits; [by rewrite app_nil_r| |simpl; lia]. simpl. unfold queue_of.
    destruct (jm_get ws (outboundQueues st')) as [q|] eqn:Hw; simpl; [|apply sublist_nil_l].
    apply Hj in Hw. by simplify_eq.
  - intros q Hw. apply Hj in Hw. exists []. by simplify_eq.
  - intros j q _. apply Hj.
Qed.

Lemma jm_get_delete_Some {K V} `{EqDecision K} (k j : K) (m : list (K * V)) v :
  jm_get j (jm_delete k m) = Some v → jm_get j m = Some v.
Proof.
  destruct (decide (k = j)) as [->|Hne]; [by rewrite jm_get_delete_eq|]. by rewrite jm_get_delete_ne.
Qed.

Lemma flush_loop_flushed ws queue st :
  jm_get ws (outboundQueues st) = Some queue → flushed ws queue st (flush_loop ws queue st).
Proof.
  revert st. induction queue as [|next rest IH]; intros st Hq; cbn [Backpressure.flush_loop].
  - apply flushed_nothing; try done. intros j q. apply jm_get_delete_Some.
  - destruct (isOpen (sockets st ws)); cbn [negb]; [|apply flushed_nothing; try done; intros j q; apply jm_get_delete_Some].
    destruct (terminateBytes st <? _).
    { apply flushed_nothing; [done|by rewrite teardown_log|by rewrite teardown_metrics|].
      intros j q Hj. by apply teardown_queues in Hj. }
    destruct (dropBytes st <? _); [by apply flushed_nothing|].
    destruct (send next (sockets (with_queues _ st) ws)) as [ok s]. destruct ok; cbn [negb].
    + set (st1 := with_registry _ _).
      assert (jm_get ws (outboundQueues st1) = Some rest) as Hq1 by apply jm_get_set_eq.
      destruct (IH st1 Hq1) as ((new & Hl & Hs & Hm) & Hw & Hj). split; [|split].
      * exists (next :: new). splits.
        -- rewrite Hl. simpl. by rewrite <-app_assoc.
        -- simpl. by apply sublist_skip.
        -- rewrite Hm. cbn [length]. change (sentMessages (bp_metrics st1)) with (sentMessages (bp_metrics st) + 1). lia.
      * intros q Hq'. destruct (Hw q Hq') as [pre ->]. by exists (next :: pre).
      * intros j q Hne Hq'. specialize (Hj j q Hne Hq'). unfold st1 in Hj. simpl in Hj.
        by rewrite jm_get_set_ne in Hj by done.
    + split; [|split].
      * exists []. splits; [by rewrite app_nil_r| |simpl; lia]. unfold queue_of. simpl. rewrite jm_get_set_eq. simpl.
        by apply sublist_cons.
      * simpl. rewrite jm_get_set_eq. intros q [= <-]. by exists [next].
      * simpl. intros j q Hne. by rewrite jm_get_set_ne.
Qed.

Lemma flush_flushed ws st : flushed ws (queue_of st ws) st (flushOutboundQueue onTerminate ws st).
Proof.
  unfold flushOutboundQueue, queue_of. destruct (jm_get ws (outboundQueues st)) as [queue|] eqn:Hq; simpl.
  - case_bool_decide; [by apply flushed_nothing|by apply flush_loop_flushed].
  - split; [|split].
    + exists []. splits; [by rewrite app_nil_r| |simpl; lia]. unfold queue_of. by rewrite Hq.
    + rewrite Hq. done.
    + done.
Qed.
End flush.

(** ** Other connections *)

(** The operation on [ws] leaves the sockets and the queues of the others alone,
    keeps the thresholds, and only adds to the log. *)
Record only_touches {S X} `{Socket S} (ws : WebSocket) (st st' : OutboundBackpressure S X) : Prop := {
  ot_sockets j : j ≠ ws → sockets st' j = sockets st j;
  ot_queues j : j ≠ ws → jm_get j (outboundQueues st') = jm_get j (outboundQueues st);
  ot_thresholds : dropBytes st' = dropBytes st ∧ terminateBytes st' = terminateBytes st;
  ot_log : bp_log st `prefix_of` bp_log st';
}.

#[export] Instance only_touches_preorder {S X} `{Socket S} ws : PreOrder (only_touches (S:=S) (X:=X) ws).
Proof.
  split.
  - by intros st.
  - intros st1 st2 st3 [A1 A2 [A3 A4] A5] [B1 B2 [B3 B4] B5]. split.
    + intros j Hj. by rewrite B1, A1.
    + intros j Hj. by rewrite B2, A2.
    + split; congruence.
    + by etrans.
Qed.

Section others.
Context {S X : Type} `{Socket S} (maxQ maxB : Z) (onTerminate : WebSocket → OutboundBackpressure S X → OutboundBackpressure S X)
  `{!Teardown onTerminate}.
Implicit Types st : OutboundBackpressure S X.

Lemma touches_teardown ws st st' : only_touches ws st st' → only_touches ws st (onTerminate ws st').
Proof.
  intros Ht. etrans; [exact Ht|]. split.
  - intros j _. by rewrite teardown_sockets.
  - intros j Hj. by rewrite teardown_others.
  - apply teardown_thresholds.
  - by rewrite teardown_log.
Qed.

Lemma touches_flush_loop ws queue st : only_touches ws st (flush_loop onTerminate ws queue st).
Proof.
  revert st. induction queue as [|m q IH]; intros st; cbn [flush_loop].
  { split; try done. intros j Hj. by apply jm_get_delete_ne. }
  destruct (isOpen _); cbn [negb]; [|split; try done; intros j Hj; by apply jm_get_delete_ne].
  destruct (terminateBytes st <? _).
  { apply touches_teardown. split; try done. intros j Hj. by apply fn_lookup_insert_ne. }
  destruct (dropBytes st <? _); [done|]. destruct (send m _) as [[] x]; cbn [negb].
  - etrans; [|apply IH]. split; try done.
    + intros j Hj. by apply fn_lookup_insert_ne.
    + intros j Hj. simpl. by rewrite jm_get_set_ne.
    + by eexists.
  - split; try done.
    + intros j Hj. by apply fn_lookup_insert_ne.
    + intros j Hj. simpl. by rewrite jm_get_set_ne.
Qed.

Lemma touches_queue ws m st : only_touches ws st (queueOutboundMessage maxQ maxB onTerminate ws m st).2.
Proof.
  unfold queueOutboundMessage. destruct (negb _); [done|]. destruct (_ || _); [done|]. cbn [snd].
  set (st1 := with_queues _ st). assert (only_touches ws st st1) as H1.
  { split; try done. intros j Hj. simpl. by rewrite jm_get_set_ne. }
  etrans; [exact H1|]. generalize st1 as st2. intros st2.
  unfold flushOutboundQueue. destruct (jm_get ws (outboundQueues st2)) as [q|]; [|done]. case_bool_decide; [done|].
  apply touches_flush_loop.
Qed.

(** ** Peers that keep up *)

(** A socket that stays open, below the thresholds, and does not throw. *)
Record keeps_up (healthy : S → Prop) (d t : Z) : Prop := {
  ku_open s : healthy s → isOpen s = true ∧ bufferedAmount s <= d ∧ bufferedAmount s <= t;
  ku_send s m : healthy s → (send m s).1 = true ∧ healthy (send m s).2;
}.

Lemma flush_loop_healthy healthy ws q st :
  keeps_up healthy (dropBytes st) (terminateBytes st) → healthy (sockets st ws) →
  bp_log (flush_loop onTerminate ws q st) = bp_log st ++ ((λ x, (ws, x)) <$> q) ∧
  jm_get ws (outboundQueues (flush_loop onTerminate ws q st)) = None ∧
  healthy (sockets (flush_loop onTerminate ws q st) ws).
Proof.
  intros Hk. remember (dropBytes st) as d eqn:Hd. remember (terminateBytes st) as t eqn:Ht. symmetry in Hd, Ht.
  revert st Hd Ht. induction q as [|x q IH]; intros st Hd Ht Hh; cbn [flush_loop].
  - rewrite app_nil_r. split; [done|]. split; [apply jm_get_delete_eq|done].
  - destruct (ku_open _ _ _ Hk _ Hh) as (-> & Hbd & Hbt). cbn [negb]. rewrite Ht, Hd.
    destruct (Z.ltb_spec t (bufferedAmount (sockets st ws))); [lia|].
    destruct (Z.ltb_spec d (bufferedAmount (sockets st ws))); [lia|].
    destruct (ku_send _ _ _ Hk _ x Hh) as [Hok Hh2]. cbn [with_queues sockets].
    destruct (send x (sockets st ws)) as [ok s']. simpl in Hok, Hh2. subst ok. cbn [negb].
    set (st2 := with_registry _ _). destruct (IH st2) as (Hl & Hq & Hs); [done|done| |].
    { unfold st2. simpl. by rewrite fn_lookup_insert. }
    split; [|done]. rewrite Hl. unfold st2. simpl. by rewrite <-app_assoc.
Qed.

Lemma queue_healthy healthy ws m st :
  keeps_up healthy (dropBytes st) (terminateBytes st) → healthy (sockets st ws) →
  Z.of_nat (length (queue_of st ws)) < maxQ → queued_bytes (queue_of st ws) + byteLen m <= maxB →
  let '(ok, st') := queueOutboundMessage maxQ maxB onTerminate ws m st in
  ok = true ∧ bp_log st' = bp_log st ++ ((λ x, (ws, x)) <$> queue_of st ws ++ [m]) ∧
  jm_get ws (outboundQueues st') = None.
Proof.
  intros Hk Hh Hc Hb. unfold queueOutboundMessage. fold (queue_of st ws).
  destruct (ku_open _ _ _ Hk _ Hh) as (-> & _ & _). cbn [negb].
  destruct (Z.leb_spec maxQ (Z.of_nat (length (queue_of st ws)))); [lia|].
  destruct (Z.ltb_spec maxB (queued_bytes (queue_of st ws) + byteLen m)); [lia|]. cbn [orb].
  split; [done|]. unfold flushOutboundQueue. cbn [with_queues outboundQueues]. rewrite jm_get_set_eq.
  rewrite bool_decide_false by (rewrite length_app; simpl; lia).
  destruct (flush_loop_healthy healthy ws (queue_of st ws ++ [m])
    (with_queues (jm_set ws (queue_of st ws ++ [m]) (outboundQueues st)) st)) as (Hl & Hq & _); [done|done|by split].
Qed.

Lemma deliverBatch_healthy healthy batch m s e st :
  keeps_up healthy (dropBytes st) (terminateBytes st) → NoDup batch →
  (∀ ws, ws ∈ batch → healthy (sockets st ws) ∧ queue_of st ws = []) → 0 < maxQ → byteLen m <= maxB →
  (deliverBatch maxQ maxB onTerminate batch m s e st).1 = Z.of_nat (length batch) ∧
  bp_log (deliverBatch maxQ maxB onTerminate batch m s e st).2 = bp_log st ++ ((λ ws, (ws, m)) <$> batch).
Proof.
  intros Hk Hnd Hb HQ HB. revert st Hk Hb. induction batch as [|ws batch IH]; intros st Hk Hb; cbn [deliverBatch].
  { by rewrite app_nil_r. }
  apply list.NoDup_cons in Hnd as [Hx Hnd]. destruct (Hb ws) as [Hh Hq]; [left|].
  unfold deliver_one. destruct (ku_open _ _ _ Hk _ Hh) as (-> & Hd & Ht). cbn [negb].
  destruct (Z.ltb_spec (terminateBytes st) (bufferedAmount (sockets st ws))); [lia|].
  destruct (Z.ltb_spec (dropBytes st) (bufferedAmount (sockets st ws))); [lia|].
  pose proof (queue_healthy healthy ws m st Hk Hh) as Hqm. pose proof (touches_queue ws m st) as Ht'.
  rewrite Hq in Hqm. destruct (queueOutboundMessage maxQ maxB onTerminate ws m st) as [ok st1].
  destruct Hqm as (-> & Hl & _); [simpl; lia|change (0 + byteLen m <= maxB); lia|]. cbn [negb snd] in *.
  destruct Ht' as [T1 T2 [T3 T4] _]. destruct (IH Hnd st1) as [Hs Hl'].
  - by rewrite T3, T4.
  - intros j Hj. assert (j ≠ ws) as Hne by (by intros ->). rewrite T1 by done. unfold queue_of. rewrite T2 by done.
    apply Hb. by right.
  - destruct (deliverBatch _ _ _ _ _ _ _ st1) as [sent st2]. simpl in *. rewrite Hl', Hl, Hs. split; [lia|].
    simpl. by rewrite <-app_assoc.
Qed.
End others.

(** ** Runs *)

Inductive bp_op (S : Type) : Type :=
| OpQueue (ws : WebSocket) (message : string)
| OpDeliver (ws : WebSocket) (message streamId eventId : string)
| OpForget (ws : WebSocket)
| OpClearAll
| OpThresholds (drop term : option Z)
| OpCountDropped (n : Z)
| OpSocket (ws : WebSocket) (s : S)     (** the peer or the library changes a socket *)
| OpRegistry (r : ConnectionRegistry).  (** the hub changes the registry *)
Arguments OpQueue {S}. Arguments OpDeliver {S}. Arguments OpForget {S}. Arguments OpClearAll {S}.
Arguments OpThresholds {S}. Arguments OpCountDropped {S}. Arguments OpSocket {S}. Arguments OpRegistry {S}.

Section runs.
Context {S X : Type} `{Socket S} (maxQ maxB : Z) (onTerminate : WebSocket → OutboundBackpressure S X → OutboundBackpressure S X)
  `{!Teardown onTerminate}.
Implicit Types st : OutboundBackpressure S X.

(** An operation, with the frames it accepted. *)
Definition bp_step (o : bp_op S) st : list (WebSocket * string) * OutboundBackpressure S X :=
  match o with
  | OpQueue ws m =>
      let '(ok, st') := queueOutboundMessage maxQ maxB onTerminate ws m st in (if ok : bool then [(ws, m)] else [], st')
  | OpDeliver ws m s e =>
      let '(ok, st') := deliver_one maxQ maxB onTerminate m s e ws st in (if ok : bool then [(ws, m)] else [], st')
  | OpForget ws => ([], forget ws st)
  | OpClearAll => ([], clearAll st)
  | OpThresholds d t => ([], setThresholds d t st)
  | OpCountDropped n => ([], countDropped n st)
  | OpSocket ws s => ([], with_socket ws s st)
  | OpRegistry r => ([], with_registry r st)
  end.

Fixpoint bp_run (ops : list (bp_op S)) (acc : list (WebSocket * string)) st
    : list (WebSocket * string) * OutboundBackpressure S X :=
  match ops with
  | [] => (acc, st)
  | o :: ops => let '(a, st') := bp_step o st in bp_run ops (acc ++ a) st'
  end.

(** [deliverBatch] is its rounds one after the other. *)
Lemma deliverBatch_run batch m s e st acc :
  let '(sent, st') := deliverBatch maxQ maxB onTerminate batch m s e st in
  ∃ acc', bp_run ((λ ws, OpDeliver ws m s e) <$> batch) acc st = (acc ++ acc', st') ∧ Z.of_nat (length acc') = sent.
Proof.
  revert st acc. induction batch as [|ws batch IH]; intros st acc; cbn [deliverBatch].
  - exists []. by rewrite app_nil_r.
  - destruct (deliver_one maxQ maxB onTerminate m s e ws st) as [ok st1] eqn:Hd.
    specialize (IH st1 (acc ++ if ok then [(ws, m)] else [])).
    destruct (deliverBatch maxQ maxB onTerminate batch m s e st1) as [sent st2]. destruct IH as (acc' & Hr & Hl).
    exists ((if ok then [(ws, m)] else []) ++ acc'). rewrite fmap_cons. cbn [bp_run bp_step]. rewrite Hd, Hr.
    rewrite <-app_assoc. split; [done|]. rewrite length_app. destruct ok; simpl; lia.
Qed.

(** The queues keep within the ceilings, what was sent and is queued is a
    subsequence of what was accepted, and the counter counts the sends. *)
Record bp_inv (acc : list (WebSocket * string)) st : Prop := {
  inv_count ws q : jm_get ws (outboundQueues st) = Some q → Z.of_nat (length q) <= maxQ ∧ queued_bytes q <= maxB;
  inv_order ws : (to_socket ws (bp_log st) ++ queue_of st ws) `sublist_of` to_socket ws acc;
  inv_sent : sentMessages (bp_metrics st) = Z.of_nat (length (bp_log st));
}.

Lemma inv_shrink acc st st' :
  (∀ j q, jm_get j (outboundQueues st') = Some q → jm_get j (outboundQueues st) = Some q) →
  bp_log st' = bp_log st → sentMessages (bp_metrics st') = sentMessages (bp_metrics st) →
  bp_inv acc st → bp_inv acc st'.
Proof.
  intros Hj Hl Hm [I1 I2 I3]. split.
  - intros ws q Hq%Hj. by apply I1 in Hq.
  - intros ws. rewrite Hl. etrans; [|exact (I2 ws)]. apply sublist_app; [done|]. unfold queue_of.
    destruct (jm_get ws (outboundQueues st')) as [q|] eqn:Hq; simpl; [|apply sublist_nil_l]. apply Hj in Hq. by rewrite Hq.
  - by rewrite Hm, Hl.
Qed.

Lemma to_socket_map ws j new : to_socket j ((λ m, (ws, m)) <$> new) = if bool_decide (ws = j) then new else [].
Proof.
  induction new as [|m new IH]; [by case_bool_decide|]. rewrite fmap_cons.
  change (to_socket j ((ws, m) :: ((λ m, (ws, m)) <$> new)))
    with (match (if bool_decide (ws = j) then Some m else None) with
          | Some x => x :: to_socket j ((λ m, (ws, m)) <$> new) | None => to_socket j ((λ m, (ws, m)) <$> new) end).
  rewrite IH. by case_bool_decide.
Qed.

Lemma inv_queue acc ws m st ok st' :
  bp_inv acc st → queueOutboundMessage maxQ maxB onTerminate ws m st = (ok, st') →
  bp_inv (acc ++ if ok then [(ws, m)] else []) st'.
Proof.
  intros [I1 I2 I3]. unfold queueOutboundMessage.
  destruct (isOpen (sockets st ws)); cbn [negb]; [|intros [= <- <-]; by rewrite app_nil_r].
  fold (queue_of st ws). destruct (_ || _) eqn:Hb; [intros [= <- <-]; rewrite app_nil_r; by split|].
  rewrite orb_false_iff, Z.leb_gt, Z.ltb_ge in Hb. destruct Hb as [Hc Hby]. intros [= <- <-].
  set (st1 := with_queues _ st).
  assert (queue_of st1 ws = queue_of st ws ++ [m]) as Hq1 by (unfold queue_of at 1, st1; simpl; by rewrite jm_get_set_eq).
  assert (∀ j, j ≠ ws → jm_get j (outboundQueues st1) = jm_get j (outboundQueues st)) as Hoth.
  { intros j Hj. unfold st1. simpl. by rewrite jm_get_set_ne. }
  destruct (flush_flushed onTerminate ws st1) as ((new & Hl & Hs & Hm) & Hw & Hj). rewrite Hq1 in *.
  set (st2 := flushOutboundQueue onTerminate ws st1) in *. split.
  - intros j q Hq. destruct (decide (j = ws)) as [->|Hne].
    + destruct (Hw q Hq) as [pre Hpre]. apply (f_equal length) in Hpre as Hlen. apply (f_equal queued_bytes) in Hpre.
      rewrite !queued_bytes_app in Hpre. rewrite !length_app in Hlen. simpl in Hlen.
      rewrite queued_bytes_cons in Hpre. change (queued_bytes []) with 0 in Hpre.
      pose proof (queued_bytes_nonneg pre). lia.
    + specialize (Hj j q Hne Hq). rewrite Hoth in Hj by done. by apply I1 in Hj.
  - intros j. rewrite Hl, to_socket_app, to_socket_map, to_socket_snoc. change (bp_log st1) with (bp_log st).
    specialize (I2 j). case_bool_decide as Hws.
    + subst j. rewrite <-app_assoc. etrans; [apply sublist_app; [done|exact Hs]|].
      rewrite app_assoc. by apply sublist_app.
    + rewrite !app_nil_r. etrans; [|exact I2]. apply sublist_app; [done|]. unfold queue_of.
      destruct (jm_get j (outboundQueues st2)) as [q|] eqn:Hq; simpl; [|apply sublist_nil_l].
      apply Hj in Hq; [|done]. rewrite Hoth in Hq by done. by rewrite Hq.
  - rewrite Hm, Hl, length_app, length_fmap. change (bp_metrics st1) with (bp_metrics st). change (bp_log st1) with (bp_log st).
    lia.
Qed.

Lemma report_same a ws b t s e st :
  outboundQueues (reportBackpressure a ws b t s e st) = outboundQueues st ∧
  bp_log (reportBackpressure a ws b t s e st) = bp_log st ∧
  bp_metrics (reportBackpressure a ws b t s e st) = bp_metrics st.
Proof. unfold reportBackpressure. by destruct (get (registry st) ws). Qed.

Lemma jm_get_deletes {V} (ks : list nat) (m : list (nat * V)) j v :
  jm_get j (fold_left (λ q k, jm_delete k q) ks m) = Some v → jm_get j m = Some v.
Proof.
  revert m. induction ks as [|k ks IH]; intros m; [done|]. simpl. intros Hj%IH. by apply jm_get_delete_Some in Hj.
Qed.

Lemma inv_step acc o st : bp_inv acc st → bp_inv (acc ++ (bp_step o st).1) (bp_step o st).2.
Proof.
  intros Hi. destruct o as [ws m|ws m s e|ws| |d t|n|ws s|r]; cbn [bp_step].
  - destruct (queueOutboundMessage maxQ maxB onTerminate ws m st) as [ok st'] eqn:Hq. by apply (inv_queue acc) in Hq.
  - unfold deliver_one. destruct (isOpen (sockets st ws)); cbn [negb fst snd]; [|by rewrite app_nil_r].
    destruct (terminateBytes st <? _); cbn [fst snd].
    { rewrite app_nil_r. revert Hi. apply inv_shrink.
      - intros j q Hj%teardown_queues. cbn [with_socket outboundQueues] in Hj. by rewrite (proj1 (report_same _ _ _ _ _ _ _)) in Hj.
      - rewrite teardown_log. cbn [with_socket bp_log]. by rewrite (proj1 (proj2 (report_same _ _ _ _ _ _ _))).
      - rewrite teardown_metrics. cbn [with_socket bp_metrics]. by rewrite (proj2 (proj2 (report_same _ _ _ _ _ _ _))). }
    destruct (dropBytes st <? _); cbn [fst snd].
    { rewrite app_nil_r. revert Hi. destruct (report_same drop_action ws (bufferedAmount (sockets st ws)) (dropBytes st) s e (add_dropped 1 st)) as (R1 & R2 & R3).
      apply inv_shrink; [by rewrite R1|by rewrite R2|by rewrite R3]. }
    destruct (queueOutboundMessage maxQ maxB onTerminate ws m st) as [ok st'] eqn:Hq. apply (inv_queue acc) in Hq; [|done].
    destruct ok; cbn [negb fst snd]; [done|]. revert Hq. by apply inv_shrink.
  - rewrite app_nil_r. revert Hi. apply inv_shrink; try done. intros j q. apply jm_get_delete_Some.
  - rewrite app_nil_r. revert Hi. apply inv_shrink; try done. intros j q. apply jm_get_deletes.
  - rewrite app_nil_r. revert Hi. by apply inv_shrink.
  - rewrite app_nil_r. revert Hi. by apply inv_shrink.
  - rewrite app_nil_r. revert Hi. by apply inv_shrink.
  - rewrite app_nil_r. revert Hi. by apply inv_shrink.
Qed.

Lemma inv_run ops acc st : bp_inv acc st → bp_inv (bp_run ops acc st).1 (bp_run ops acc st).2.
Proof.
  revert acc st. induction ops as [|o ops IH]; intros acc st Hi; [done|]. cbn [bp_run].
  pose proof (inv_step acc o st Hi) as Hs. destruct (bp_step o st) as [a st']. by apply IH.
Qed.
End runs.

(** ** Properties *)

Definition new_backpressure {S X} (d t : Z) (r : ConnectionRegistry) (sockets : WebSocket → S) (rest : X)
    : OutboundBackpressure S X := {|
  dropBytes := d; terminateBytes := t; outboundQueues := [];
  bp_metrics := {| droppedMessages := 0; terminatedConnections := 0; sentMessages := 0 |};
  queueLimitViolations := 0; bp_events := []; registry := r; sockets := sockets; bp_log := []; bp_rest := rest |}.

Lemma inv_new {S X} maxQ maxB d t r socks (rest : X) :
  bp_inv maxQ maxB [] (new_backpressure (S:=S) d t r socks rest).
Proof. split; [done|intros ws; apply sublist_nil_l|done]. Qed.

(** A saturated peer cannot make the hub buffer without bound: whatever the
    order of sends, deliveries, threshold changes, disconnects and changes of the
    sockets, no queue ever holds more messages or bytes than its ceilings. *)
Theorem outbound_queue_bounded {S X} `{Socket S} maxQ maxB onTerminate `{!Teardown onTerminate} ops d t r socks (rest : X) ws q :
  jm_get ws (outboundQueues (bp_run maxQ maxB onTerminate ops [] (new_backpressure d t r socks rest)).2) = Some q →
  Z.of_nat (length q) <= maxQ ∧ queued_bytes q <= maxB.
Proof.
  pose proof (inv_run maxQ maxB onTerminate ops [] _ (inv_new maxQ maxB d t r socks rest)) as Hi.
  exact (inv_count _ _ _ _ Hi ws q).
Qed.

(** Frames are not reordered, duplicated or invented: what a socket was given
    to send, followed by what is queued for it, is a subsequence of the frames
    accepted for it in their order, and the counter of sent messages is the number
    of frames given to sockets. *)
Theorem outbound_in_order {S X} `{Socket S} maxQ maxB onTerminate `{!Teardown onTerminate} ops d t r socks (rest : X) :
  let '(acc, st) := bp_run maxQ maxB onTerminate ops [] (new_backpressure d t r socks rest) in
  (∀ ws, (to_socket ws (bp_log st) ++ queue_of st ws) `sublist_of` to_socket ws acc) ∧
  sentMessages (bp_metrics st) = Z.of_nat (length (bp_log st)).
Proof.
  pose proof (inv_run maxQ maxB onTerminate ops [] _ (inv_new maxQ maxB d t r socks rest)) as Hi.
  destruct (bp_run _ _ _ _ _ _) as [acc st]. destruct Hi. by split.
Qed.

(** Peers that keep up get everything at once: delivered to a batch of distinct
    sockets that stay open, below the thresholds and do not throw, with nothing
    queued, a frame within the byte ceiling is sent to each of them exactly once in
    the order of the batch, nothing else is sent, and all are counted. *)
Theorem healthy_batch_all_sent {S X} `{Socket S} maxQ maxB onTerminate `{!Teardown onTerminate} healthy batch m s e
    (st : OutboundBackpressure S X) :
  keeps_up healthy (dropBytes st) (terminateBytes st) → NoDup batch →
  (∀ ws, ws ∈ batch → healthy (sockets st ws) ∧ queue_of st ws = []) → 0 < maxQ → byteLen m <= maxB →
  (deliverBatch maxQ maxB onTerminate batch m s e st).1 = Z.of_nat (length batch) ∧
  bp_log (deliverBatch maxQ maxB onTerminate batch m s e st).2 = bp_log st ++ ((λ ws, (ws, m)) <$> batch).
Proof. apply deliverBatch_healthy. done. Qed.

(** ** Witnesses *)

(** A socket that is open and has buffered [n] bytes. *)
#[global] Instance counting_socket : Socket Z := {|
  isOpen s := 0 <=? s; bufferedAmount s := s;
  send m s := (true, s + byteLen m); terminate _ := -1 |}.

#[global] Instance forget_teardown {S X} `{Socket S} : Teardown (S:=S) (X:=X) forget.
Proof.
  split; try done.
  - intros ws st j q. apply jm_get_delete_Some.
  - intros ws st j Hj. by apply jm_get_delete_ne.
Qed.

Definition sample_ops : list (bp_op Z) := [OpQueue 1%nat "abc"; OpSocket 1%nat 5; OpQueue 1%nat "de"].
Definition sample_start : OutboundBackpressure Z unit := new_backpressure 4 9 new_registry (λ _, 0) tt.

Lemma outbound_queue_bounded_witness :
  jm_get 1%nat (outboundQueues (bp_run 2 10 forget sample_ops [] sample_start).2) = Some ["de"] ∧
  (Z.of_nat (length ["de"]) <= 2 ∧ queued_bytes ["de"] <= 10).
Proof.
  assert (jm_get 1%nat (outboundQueues (bp_run 2 10 forget sample_ops [] sample_start).2) = Some ["de"]) as Hq
    by (vm_compute; reflexivity).
  split; [exact Hq|]. exact (outbound_queue_bounded 2 10 forget sample_ops 4 9 new_registry (λ _, 0) tt 1%nat ["de"] Hq).
Defined.

Lemma outbound_in_order_witness :
  let '(acc, st) := bp_run 2 10 forget sample_ops [] sample_start in
  (∀ ws, (to_socket ws (bp_log st) ++ queue_of st ws) `sublist_of` to_socket ws acc) ∧
  sentMessages (bp_metrics st) = Z.of_nat (length (bp_log st)).
Proof. exact (outbound_in_order 2 10 forget sample_ops 4 9 new_registry (λ _, 0) tt). Defined.

(** A socket whose peer takes every frame at once. *)
#[global] Instance draining_socket : Socket unit := {|
  isOpen _ := true; bufferedAmount _ := 0; send _ _ := (true, tt); terminate s := s |}.

Lemma draining_keeps_up d t : 0 <= d → 0 <= t → keeps_up (S:=unit) (λ _, True) d t.
Proof. intros Hd Ht. split; [|done]. intros s _. simpl. auto. Qed.

Lemma healthy_batch_all_sent_witness :
  let st := new_backpressure (X:=unit) 4 9 new_registry (λ _, tt) tt in
  (deliverBatch 2 10 forget [1%nat; 2%nat] "abc" "s" "e" st).1 = 2 ∧
  bp_log (deliverBatch 2 10 forget [1%nat; 2%nat] "abc" "s" "e" st).2 = bp_log st ++ [(1%nat, "abc"); (2%nat, "abc")].
Proof.
  apply (healthy_batch_all_sent 2 10 forget (λ _ : unit, True) [1%nat; 2%nat] "abc" "s" "e").
  - apply draining_keeps_up; vm_compute; discriminate.
  - apply (bool_decide_eq_true_1 _). vm_compute. reflexivity.
  - intros ws _. split; [exact I|vm_compute; reflexivity].
  - lia.
  - vm_compute; discriminate.
Defined.
