(* ===== verification/ConnectionLimiter.v ===== *)
(** * The WebSocket connection limiter ([src/ws/connectionLimiter.ts],
    [src/ws/upgradeHandler.ts])

    Reservations per client key, the reconnect rate, the abuse bans, and the life of
    an upgrade from the reservation to the disconnect as a step relation: the check
    of the ban store is awaited, so other upgrades and the close of the socket come
    between.

    The cap holds under every interleaving, and the counter is exact as long as no
    socket closes during the ban check; one that does leaves its reservation behind
    for good.

    The knobs are the texts of environment variables; the ban store's answer is an
    argument. *)
From Stdlib Require Import Ascii ZArith Lia.
From stdpp Require Import base strings list.
From S2P Require Import Prelude.
Local Open Scope string_scope.
Local Open Scope list_scope.
Local Open Scope Z_scope.

(** ** Knobs *)

(** [parseInt(v || dflt, 10)]; [None] is NaN, with which every comparison fails. *)
Definition env_int (v : option string) (dflt : string) : option Z :=
  parse_int10 (chars (match v with Some s => if str_empty s then dflt else s | None => dflt end)).

Definition at_least (n : Z) (limit : option Z) : bool := match limit with Some l => l <=? n | None => false end.
Definition more_than (n : Z) (limit : option Z) : bool := match limit with Some l => l <? n | None => false end.
Definition less_than (n : Z) (limit : option Z) : bool := match limit with Some l => n <? l | None => false end.

Record RuntimeEnv : Type := {
  WS_MAX_CONNECTIONS_PER_IP : option string;
  WS_RECONNECT_LIMIT : option string;
  WS_RECONNECT_WINDOW_MS : option string;
  WS_ABUSE_THRESHOLD : option string;
  WS_BAN_TTL_S : option string;
}.

(** ** State *)

Record Limiter : Type := {
  connectionCounts : list (string * Z);
  rejectionHistory : list (string * list Z);
  reconnectHistory : list (string * list Z);
  shuttingDown : bool;
  activeConnections : Z;
}.

Definition new_limiter : Limiter := {|
  connectionCounts := []; rejectionHistory := []; reconnectHistory := []; shuttingDown := false; activeConnections := 0 |}.

(** What the limiter sends out: a rejection it counts, and a ban it asks for. *)
Inductive LimiterOutput : Type :=
| Rejection (reason : string)
| Ban (ip : string) (ttlSeconds : option Z).

Definition Refusal : Type := Z * string.

Section limiter.
Context (env : RuntimeEnv).

Definition resolveConnectionKey (ip : string) (clientIdentity : option string) : string :=
  match clientIdentity with
  | Some i => if str_empty (js_trim i) then "ip:" ++ ip else "identity:" ++ js_trim i
  | None => "ip:" ++ ip
  end%string.

Definition set_history (h : list (string * list Z)) (l : Limiter) : Limiter := {|
  connectionCounts := connectionCounts l; rejectionHistory := h; reconnectHistory := reconnectHistory l;
  shuttingDown := shuttingDown l; activeConnections := activeConnections l |}.
Definition set_reconnects (h : list (string * list Z)) (l : Limiter) : Limiter := {|
  connectionCounts := connectionCounts l; rejectionHistory := rejectionHistory l; reconnectHistory := h;
  shuttingDown := shuttingDown l; activeConnections := activeConnections l |}.
Definition set_counts (c : list (string * Z)) (active : Z) (l : Limiter) : Limiter := {|
  connectionCounts := c; rejectionHistory := rejectionHistory l; reconnectHistory := reconnectHistory l;
  shuttingDown := shuttingDown l; activeConnections := active |}.

Definition recordRejection (key ip : string) (now : Z) (reason : string) (l : Limiter) : list LimiterOutput * Limiter :=
  let abuseThreshold := env_int (WS_ABUSE_THRESHOLD env) "5" in
  let banTtl := env_int (WS_BAN_TTL_S env) "3600" in
  let abuseWindowMs := 60000 in
  let rejections := filter (λ t, now - t < abuseWindowMs) (default [] (jm_get key (rejectionHistory l))) ++ [now] in
  let l := set_history (jm_set key rejections (rejectionHistory l)) l in
  if more_than (Z.of_nat (length rejections)) abuseThreshold
  then ([Rejection reason; Ban ip banTtl], set_history (jm_delete key (rejectionHistory l)) l)
  else ([Rejection reason], l).

(** [checkAndReserve] up to its await. *)
Definition reserve (now : Z) (ip : string) (clientIdentity : option string) (l : Limiter)
    : result Refusal unit * list LimiterOutput * Limiter :=
  if shuttingDown l then (Err (4029, "Server shutting down"), [], l)
  else
    let maxConnections := env_int (WS_MAX_CONNECTIONS_PER_IP env) "10" in
    let reconnectLimit := env_int (WS_RECONNECT_LIMIT env) "20" in
    let reconnectWindowMs := env_int (WS_RECONNECT_WINDOW_MS env) "60000" in
    let key := resolveConnectionKey ip clientIdentity in
    let attempts := filter (λ t, less_than (now - t) reconnectWindowMs = true)
                           (default [] (jm_get key (reconnectHistory l))) in
    if at_least (Z.of_nat (length attempts)) reconnectLimit then
      let l := set_reconnects (jm_set key attempts (reconnectHistory l)) l in
      let '(out, l) := recordRejection key ip now "Reconnect rate exceeded" l in
      (Err (4029, "Reconnect rate exceeded"), out, l)
    else
      let l := set_reconnects (jm_set key (attempts ++ [now]) (reconnectHistory l)) l in
      let currentCount := default 0 (jm_get key (connectionCounts l)) in
      if at_least currentCount maxConnections then
        let '(out, l) := recordRejection key ip now "Too many connections" l in
        (Err (4029, "Too many connections"), out, l)
      else (Ok tt, [], set_counts (jm_set key (currentCount + 1) (connectionCounts l)) (activeConnections l + 1) l).

Definition untrackConnection (ip : string) (clientIdentity : option string) (l : Limiter) : Limiter :=
  let key := resolveConnectionKey ip clientIdentity in
  let current := default 0 (jm_get key (connectionCounts l)) in
  let counts := if current <=? 1 then jm_delete key (connectionCounts l) else jm_set key (current - 1) (connectionCounts l) in
  set_counts counts (if 0 <? activeConnections l then activeConnections l - 1 else activeConnections l) l.

(** [checkAndReserve] after its await; [banned] is [Err] when the ban store throws. *)
Definition ban_checked (banned : result string bool) (ip : string) (clientIdentity : option string) (l : Limiter)
    : result Refusal unit * list LimiterOutput * Limiter :=
  match banned with
  | Ok true => (Err (4029, "IP banned due to abuse"), [Rejection "IP banned due to abuse"], untrackConnection ip clientIdentity l)
  | _ => (Ok tt, [], l)
  end.

Definition trackConnection (ip : string) (clientIdentity : option string) (l : Limiter) : Limiter :=
  let key := resolveConnectionKey ip clientIdentity in
  set_counts (jm_set key (default 0 (jm_get key (connectionCounts l)) + 1) (connectionCounts l)) (activeConnections l) l.

(** [gracefulDrain] up to its wait: no new connection is reserved. *)
Definition start_drain (l : Limiter) : Limiter := {|
  connectionCounts := connectionCounts l; rejectionHistory := rejectionHistory l;
  reconnectHistory := reconnectHistory l; shuttingDown := true; activeConnections := activeConnections l |}.

(** ** Upgrades *)

(** Where an upgrade stands: the ban check is awaited (and the socket may have
    closed meanwhile, unnoticed), the close listener is attached, the connection is
    registered with the hub, everything is released, or the socket closed before
    the listener was attached. *)
Inductive phase : Type :=
| AwaitingBan (closed : bool)
| Listening
| Connected
| Released
| Stranded.

#[export] Instance phase_eq_dec : EqDecision phase.
Proof. solve_decision. Defined.

Record Upgrade : Type := { up_ip : string; up_identity : option string; up_phase : phase }.

Definition up_key (u : Upgrade) : string := resolveConnectionKey (up_ip u) (up_identity u).
Definition to_phase (p : phase) (u : Upgrade) : Upgrade := {| up_ip := up_ip u; up_identity := up_identity u; up_phase := p |}.

(** The handler of ['upgrade'] after the ban check of a reserved upgrade: the
    listener is attached and [handleUpgrade] called, which destroys a closed socket
    without calling back. *)
Definition after_ban_check (banned : result string bool) (closed : bool) (u : Upgrade) (l : Limiter)
    : list LimiterOutput * Upgrade * Limiter :=
  let '(r, out, l) := ban_checked banned (up_ip u) (up_identity u) l in
  match r with
  | Err _ => (out, to_phase Released u, l)
  | Ok _ => (out, to_phase (if closed : bool then Stranded else Listening) u, l)
  end.

(** The steps of a server: upgrade requests arrive, ban checks return, sockets
    close, [handleUpgrade] calls back, connections end, the drain starts. *)
Inductive server_step : list Upgrade * Limiter → list Upgrade * Limiter → Prop :=
| step_reserved us l now ip identity out l' :
    reserve now ip identity l = (Ok tt, out, l') →
    server_step (us, l) (us ++ [{| up_ip := ip; up_identity := identity; up_phase := AwaitingBan false |}], l')
| step_refused us l now ip identity e out l' :
    reserve now ip identity l = (Err e, out, l') → server_step (us, l) (us, l')
| step_close_unheard us l i u :
    us !! i = Some u → up_phase u = AwaitingBan false →
    server_step (us, l) (<[i := to_phase (AwaitingBan true) u]> us, l)
| step_ban_checked us l i u closed banned out u' l' :
    us !! i = Some u → up_phase u = AwaitingBan closed → after_ban_check banned closed u l = (out, u', l') →
    server_step (us, l) (<[i := u']> us, l')
| step_close_heard us l i u :
    us !! i = Some u → up_phase u = Listening →
    server_step (us, l) (<[i := to_phase Released u]> us, untrackConnection (up_ip u) (up_identity u) l)
| step_connected us l i u :
    us !! i = Some u → up_phase u = Listening → server_step (us, l) (<[i := to_phase Connected u]> us, l)
| step_disconnected us l i u :
    us !! i = Some u → up_phase u = Connected →
    server_step (us, l) (<[i := to_phase Released u]> us, untrackConnection (up_ip u) (up_identity u) l)
| step_drain us l : server_step (us, l) (us, start_drain l).

Inductive server_run : list Upgrade * Limiter → list Upgrade * Limiter → Prop :=
| run_nil s : server_run s s
| run_cons s1 s2 s3 : server_run s1 s2 → server_step s2 s3 → server_run s1 s3.

(** ** The counters *)

(** A slot is held from the reservation to the release. *)
Definition holding (u : Upgrade) : bool := match up_phase u with Released => false | _ => true end.
Definition held (k : string) (us : list Upgrade) : Z :=
  Z.of_nat (length (filter (λ u, holding u = true ∧ up_key u = k) us)).
Definition held_total (us : list Upgrade) : Z := Z.of_nat (length (filter (λ u, holding u = true) us)).

Definition count (l : Limiter) (k : string) : Z := default 0 (jm_get k (connectionCounts l)).

Definition max_connections : option Z := env_int (WS_MAX_CONNECTIONS_PER_IP env) "10".

Record limiter_inv (s : list Upgrade * Limiter) : Prop := {
  inv_count k : count s.2 k = held k s.1;
  inv_active : activeConnections s.2 = held_total s.1;
  inv_cap k m : max_connections = Some m → held k s.1 <= Z.max 0 m;
  inv_empty k : jm_get k (connectionCounts s.2) ≠ Some 0;
}.

Lemma filter_insert_length {A} (P : A → Prop) `{∀ x, Decision (P x)} (us : list A) i u u' :
  us !! i = Some u →
  Z.of_nat (length (filter P (<[i := u']> us))) =
    Z.of_nat (length (filter P us)) - (if decide (P u) then 1 else 0) + (if decide (P u') then 1 else 0).
Proof.
  revert i. induction us as [|x us IH]; intros [|i] Hi; simplify_eq/=.
  - rewrite !filter_cons. repeat case_decide; simpl; lia.
  - rewrite !filter_cons. specialize (IH i Hi). repeat case_decide; simpl in *; lia.
Qed.

Lemma filter_snoc_length {A} (P : A → Prop) `{∀ x, Decision (P x)} (us : list A) u :
  Z.of_nat (length (filter P (us ++ [u]))) = Z.of_nat (length (filter P us)) + (if decide (P u) then 1 else 0).
Proof. rewrite filter_app, length_app, filter_cons. case_decide; simpl; lia. Qed.

Lemma held_insert k us i u p : us !! i = Some u →
  held k (<[i := to_phase p u]> us) =
    held k us - (if decide (holding u = true ∧ up_key u = k) then 1 else 0)
              + (if decide (holding (to_phase p u) = true ∧ up_key u = k) then 1 else 0).
Proof. intros Hi. unfold held. by rewrite (filter_insert_length _ us i u). Qed.

Lemma held_total_insert us i u p : us !! i = Some u →
  held_total (<[i := to_phase p u]> us) =
    held_total us - (if decide (holding u = true) then 1 else 0) + (if decide (holding (to_phase p u) = true) then 1 else 0).
Proof. intros Hi. unfold held_total. by rewrite (filter_insert_length _ us i u). Qed.

Lemma held_nonneg k us : 0 <= held k us.
Proof. unfold held. lia. Qed.

(** A phase change that neither takes nor releases the slot. *)
Lemma inv_same_slot us l i u p : us !! i = Some u → holding u = true → holding (to_phase p u) = true →
  limiter_inv (us, l) → limiter_inv (<[i := to_phase p u]> us, l).
Proof.
  intros Hi H1 H2 [I1 I2 I3 I4]. simpl in *.
  assert (∀ k, held k (<[i := to_phase p u]> us) = held k us) as Hh.
  { intros k. rewrite held_insert by done. rewrite H1, H2. lia. }
  split; simpl; intros; rewrite ?Hh; auto. rewrite held_total_insert by done. rewrite H1, H2. rewrite I2. simpl. lia.
Qed.

Lemma inv_release us l i u : us !! i = Some u → holding u = true →
  limiter_inv (us, l) → limiter_inv (<[i := to_phase Released u]> us, untrackConnection (up_ip u) (up_identity u) l).
Proof.
  intros Hi H1 [I1 I2 I3 I4]. simpl in *. fold (up_key u).
  assert (∀ k, held k (<[i := to_phase Released u]> us) = held k us - (if decide (up_key u = k) then 1 else 0)) as Hh.
  { intros k. rewrite held_insert by done. rewrite H1. simpl. repeat case_decide; naive_solver lia. }
  assert (1 <= held (up_key u) us) as Hpos.
  { pose proof (held_nonneg (up_key u) (<[i := to_phase Released u]> us)) as Hn. rewrite Hh in Hn. case_decide; [lia|done]. }
  assert (1 <= held_total us) as Htot.
  { unfold held_total. destruct (filter (λ u, holding u = true) us) as [|x r] eqn:Hf; [|simpl; lia].
    assert (u ∈ filter (λ u, holding u = true) us) as Hin
      by (apply list_elem_of_filter; split; [done|by eapply list_elem_of_lookup_2]).
    rewrite Hf in Hin. by apply not_elem_of_nil in Hin. }
  unfold untrackConnection. fold (up_key u). unfold count in I1.
  split; simpl.
  - intros k. unfold count. simpl. rewrite Hh, <-I1. rewrite (I1 (up_key u)).
    destruct (decide (up_key u = k)) as [<-|Hne].
    + destruct (Z.leb_spec (held (up_key u) us) 1); [rewrite jm_get_delete_eq|rewrite jm_get_set_eq]; simpl; rewrite ?I1; lia.
    + destruct (Z.leb_spec (held (up_key u) us) 1); [rewrite jm_get_delete_ne by done|rewrite jm_get_set_ne by done]; lia.
  - rewrite held_total_insert by done. rewrite H1, I2. simpl. destruct (Z.ltb_spec 0 (held_total us)); lia.
  - intros k m Hm. specialize (I3 k m Hm). rewrite Hh. case_decide; lia.
  - intros k. rewrite (I1 (up_key u)). destruct (decide (up_key u = k)) as [<-|Hne].
    + destruct (Z.leb_spec (held (up_key u) us) 1); [by rewrite jm_get_delete_eq|rewrite jm_get_set_eq]. intros [= ?]. lia.
    + destruct (Z.leb_spec (held (up_key u) us) 1); [rewrite jm_get_delete_ne by done|rewrite jm_get_set_ne by done]; apply I4.
Qed.

Lemma recordRejection_counts key ip now reason l :
  connectionCounts (recordRejection key ip now reason l).2 = connectionCounts l ∧
  activeConnections (recordRejection key ip now reason l).2 = activeConnections l.
Proof. unfold recordRejection. by case_match. Qed.

Lemma inv_same_counts us l l' : connectionCounts l' = connectionCounts l → activeConnections l' = activeConnections l →
  limiter_inv (us, l) → limiter_inv (us, l').
Proof. intros Hc Ha [I1 I2 I3 I4]. unfold count in I1. split; unfold count; simpl in *; rewrite ?Hc, ?Ha; auto. Qed.

Lemma limiter_inv_step s s' : server_step s s' → limiter_inv s → limiter_inv s'.
Proof.
  intros Hs Hi. destruct Hs as [us l now ip identity out l' Hr|us l now ip identity e out l' Hr|us l i u Hu Hp
    |us l i u closed banned out u' l' Hu Hp Hb|us l i u Hu Hp|us l i u Hu Hp|us l i u Hu Hp|us l].
  - unfold reserve in Hr. destruct (shuttingDown l); [done|]. destruct (at_least (Z.of_nat _) _); [by destruct (recordRejection _ _ _ _ _)|].
    cbn [set_reconnects connectionCounts] in Hr. fold max_connections in Hr.
    set (k0 := resolveConnectionKey ip identity) in *. fold (count l k0) in Hr.
    destruct (at_least (count l k0) max_connections) eqn:Hc; [by destruct (recordRejection _ _ _ _ _)|].
    injection Hr as <- <-. destruct Hi as [I1 I2 I3 I4]. simpl in *.
    set (u := {| up_ip := ip; up_identity := identity; up_phase := AwaitingBan false |}).
    assert (∀ k, held k (us ++ [u]) = held k us + (if decide (k0 = k) then 1 else 0)) as Hh.
    { intros k. unfold held. rewrite filter_snoc_length. change (up_key u) with k0. repeat case_decide; naive_solver lia. }
    pose proof (held_nonneg k0 us) as Hn. split; simpl.
    + intros k. unfold count at 1. simpl. rewrite Hh. destruct (decide (k0 = k)) as [<-|Hne];
        [rewrite jm_get_set_eq; simpl; by rewrite I1|rewrite jm_get_set_ne by done; fold (count l k); rewrite I1; lia].
    + unfold held_total. rewrite filter_snoc_length. fold (held_total us). rewrite I2. simpl. lia.
    + intros k m Hm. rewrite Hh. specialize (I3 k m Hm). case_decide; [subst k|lia].
      rewrite Hm in Hc. simpl in Hc. apply Z.leb_gt in Hc. rewrite I1 in Hc. lia.
    + intros k. destruct (decide (k0 = k)) as [<-|Hne]; [rewrite jm_get_set_eq|rewrite jm_get_set_ne by done; apply I4].
      rewrite I1. intros [= ?]. lia.
  - revert Hi. unfold reserve in Hr. destruct (shuttingDown l); [injection Hr as <- <- <-; by apply inv_same_counts|].
    destruct (at_least (Z.of_nat _) _).
    { match type of Hr with context [recordRejection ?k ?ip ?n ?r ?l0] =>
        destruct (recordRejection_counts k ip n r l0) as [Hc Ha]; destruct (recordRejection k ip n r l0) as [o l1] end.
      injection Hr as <- <- <-. by apply inv_same_counts. }
    destruct (at_least _ _); [|done].
    match type of Hr with context [recordRejection ?k ?ip ?n ?r ?l0] =>
      destruct (recordRejection_counts k ip n r l0) as [Hc Ha]; destruct (recordRejection k ip n r l0) as [o l1] end.
    injection Hr as <- <- <-. by apply inv_same_counts.
  - apply inv_same_slot; [done| |done|done]. unfold holding. by rewrite Hp.
  - assert (holding u = true) as Hh by (unfold holding; by rewrite Hp).
    unfold after_ban_check, ban_checked in Hb. destruct banned as [[]|]; injection Hb as <- <- <-.
    + by apply inv_release.
    + apply inv_same_slot; [done..| |done]. by destruct closed.
    + apply inv_same_slot; [done..| |done]. by destruct closed.
  - apply inv_release; [done| |done]. unfold holding. by rewrite Hp.
  - apply inv_same_slot; [done| |done|done]. unfold holding. by rewrite Hp.
  - apply inv_release; [done| |done]. unfold holding. by rewrite Hp.
  - revert Hi. by apply inv_same_counts.
Qed.

Lemma limiter_inv_run s : server_run ([], new_limiter) s → limiter_inv s.
Proof.
  remember ([], new_limiter) as s0 eqn:Hs0. intros Hr. induction Hr as [s|s1 s2 s3 Hr IH Hs]; subst.
  - split; simpl; try done. intros k m _. unfold held. simpl. lia.
  - eapply limiter_inv_step; [done|]. by apply IH.
Qed.
End limiter.

Lemma holding_le_held k us (P : Upgrade → Prop) `{∀ u, Decision (P u)} :
  (∀ u, P u → holding u = true) →
  Z.of_nat (length (filter (λ u, P u ∧ up_key u = k) us)) <= held k us.
Proof.
  intros HP. unfold held. induction us as [|u us IH]; [done|]. rewrite !filter_cons.
  repeat case_decide; simpl; naive_solver lia.
Qed.

Lemma run_app env s1 s2 s3 : server_run env s1 s2 → server_run env s2 s3 → server_run env s1 s3.
Proof. intros H1 H2. induction H2 as [s|s2 s3 s4 H2 IH Hs]; [done|]. eapply run_cons; [by apply IH|done]. Qed.

Lemma stranded_step env s s' i u : server_step env s s' → s.1 !! i = Some u → up_phase u = Stranded → s'.1 !! i = Some u.
Proof.
  intros Hs Hi Hp. destruct Hs as [us l now ip identity out l' Hr|us l now ip identity e out l' Hr|us l j v Hj Hv
    |us l j v closed banned out v' l' Hj Hv Hb|us l j v Hj Hv|us l j v Hj Hv|us l j v Hj Hv|us l]; simpl in *; try done.
  - by apply lookup_app_l_Some.
  - rewrite list_lookup_insert_ne; [done|]. intros ->. congruence.
  - rewrite list_lookup_insert_ne; [done|]. intros ->. congruence.
  - rewrite list_lookup_insert_ne; [done|]. intros ->. congruence.
  - rewrite list_lookup_insert_ne; [done|]. intros ->. congruence.
  - rewrite list_lookup_insert_ne; [done|]. intros ->. congruence.
Qed.

(** ** Properties *)

(** The cap holds under bursts: however upgrade requests, ban checks, closes
    and disconnects interleave, no key ever has more than the configured number of
    established connections, the counter of a key is the number of its reservations
    that are not released, and the global counter is their total. *)
Theorem connection_cap_holds env us l :
  server_run env ([], new_limiter) (us, l) →
  (∀ k m, max_connections env = Some m →
     Z.of_nat (length (filter (λ u, up_phase u = Connected ∧ up_key u = k) us)) <= Z.max 0 m) ∧
  (∀ k, count l k = held k us) ∧ activeConnections l = held_total us.
Proof.
  intros Hr%limiter_inv_run. destruct Hr as [I1 I2 I3 I4]. simpl in *. splits; [|done|done].
  intros k m Hm. etrans; [|by apply (I3 k m Hm)].
  apply (holding_le_held k us (λ u, up_phase u = Connected)). intros u Hu. unfold holding. by rewrite Hu.
Qed.

(** No counter leaks or underflows when every upgrade has been released: then
    no key has an entry left and the global counter is zero. *)
Theorem released_limiter_is_empty env us l :
  server_run env ([], new_limiter) (us, l) → Forall (λ u, up_phase u = Released) us →
  (∀ k, jm_get k (connectionCounts l) = None) ∧ activeConnections l = 0.
Proof.
  intros Hr%limiter_inv_run Hf. destruct Hr as [I1 I2 I3 I4]. simpl in *.
  assert (∀ P `{∀ u, Decision (P u)}, (∀ u, P u → holding u = true) → filter P us = []) as Hnil.
  { intros P ? HP. induction Hf as [|u us' Hu Hf IH]; [done|]. clear I1 I2 I3.
    rewrite filter_cons, decide_False; [|intros Hp%HP; unfold holding in Hp; by rewrite Hu in Hp].
    revert HP. clear -Hf. intros HP. induction Hf as [|u us' Hu Hf IH]; [done|].
    rewrite filter_cons, decide_False; [done|]. intros Hp%HP. unfold holding in Hp. by rewrite Hu in Hp. }
  split.
  - intros k. specialize (I1 k). unfold held in I1. rewrite Hnil in I1 by (by intros u [? _]). simpl in I1.
    unfold count in I1. destruct (jm_get k (connectionCounts l)) as [z|] eqn:Hk; [|done]. simpl in I1. subst z. by destruct (I4 k).
  - rewrite I2. unfold held_total. by rewrite Hnil.
Qed.

(** A socket that closes while the ban check is awaited strands its
    reservation: the close listener is attached afterwards and never runs, the
    upgrade is abandoned, and the slot is counted from then on, whatever happens;
    with a cap of one its client is refused for good. *)
Theorem stranded_reservation_never_returns env s s' i u :
  server_run env ([], new_limiter) s → server_run env s s' → s.1 !! i = Some u → up_phase u = Stranded →
  s'.1 !! i = Some u ∧ 1 <= count s'.2 (up_key u) ∧
  (max_connections env = Some 1 → ∀ now ip identity, resolveConnectionKey ip identity = up_key u →
     (reserve env now ip identity s'.2).1.1 ≠ Ok tt).
Proof.
  intros Hr Hr' Hi Hp.
  assert (s'.1 !! i = Some u) as Hi'.
  { clear Hr. induction Hr' as [s|s1 s2 s3 Hr' IH Hs]; [done|]. eapply stranded_step; eauto. }
  destruct (limiter_inv_run env s' (run_app _ _ _ _ Hr Hr')) as [I1 I2 I3 I4].
  assert (1 <= count s'.2 (up_key u)) as Hc.
  { rewrite I1. unfold held. destruct (filter _ _) as [|x r] eqn:Hf; [|simpl; lia].
    assert (u ∈ filter (λ v, holding v = true ∧ up_key v = up_key u) s'.1) as Hin.
    { apply list_elem_of_filter. split; [split; [unfold holding; by rewrite Hp|done]|by eapply list_elem_of_lookup_2]. }
    rewrite Hf in Hin. by apply not_elem_of_nil in Hin. }
  splits; [done|done|]. intros Hm now ip identity Hk. unfold reserve. destruct (shuttingDown s'.2); [done|].
  destruct (at_least (Z.of_nat _) _); [by destruct (recordRejection _ _ _ _ _)|].
  cbn [set_reconnects connectionCounts]. fold (max_connections env). rewrite Hm, Hk. fold (count s'.2 (up_key u)).
  cbn [at_least]. destruct (Z.leb_spec 1 (count s'.2 (up_key u))); [|lia]. by destruct (recordRejection _ _ _ _ _).
Qed.

(** ** Witnesses *)

Definition sample_env : RuntimeEnv := {|
  WS_MAX_CONNECTIONS_PER_IP := Some "1"; WS_RECONNECT_LIMIT := None; WS_RECONNECT_WINDOW_MS := None;
  WS_ABUSE_THRESHOLD := None; WS_BAN_TTL_S := None |}.
Definition sample_upgrade (p : phase) : Upgrade := {| up_ip := "10.0.0.9"; up_identity := None; up_phase := p |}.
Definition sample_reserved : Limiter := (reserve sample_env 1000 "10.0.0.9" None new_limiter).2.

Lemma sample_run_reserved : server_run sample_env ([], new_limiter) ([sample_upgrade (AwaitingBan false)], sample_reserved).
Proof. econstructor; [constructor|]. apply (step_reserved sample_env [] new_limiter 1000 "10.0.0.9" None []). reflexivity. Qed.

Lemma sample_run_stranded : server_run sample_env ([], new_limiter) ([sample_upgrade Stranded], sample_reserved).
Proof.
  apply (run_cons _ _ ([sample_upgrade (AwaitingBan true)], sample_reserved)).
  - apply (run_cons _ _ _ _ sample_run_reserved).
    exact (step_close_unheard sample_env [sample_upgrade (AwaitingBan false)] _ 0%nat _ eq_refl eq_refl).
  - exact (step_ban_checked sample_env [sample_upgrade (AwaitingBan true)] _ 0%nat _ true (Ok false) [] _ _ eq_refl eq_refl eq_refl).
Qed.

Lemma sample_run_connected : server_run sample_env ([], new_limiter) ([sample_upgrade Connected], sample_reserved).
Proof.
  apply (run_cons _ _ ([sample_upgrade Listening], sample_reserved)).
  - apply (run_cons _ _ _ _ sample_run_reserved).
    exact (step_ban_checked sample_env [sample_upgrade (AwaitingBan false)] _ 0%nat _ false (Ok false) [] _ _ eq_refl eq_refl eq_refl).
  - exact (step_connected sample_env [sample_upgrade Listening] _ 0%nat _ eq_refl eq_refl).
Qed.

Lemma sample_run_released : server_run sample_env ([], new_limiter)
  ([sample_upgrade Released], untrackConnection "10.0.0.9" None sample_reserved).
Proof.
  apply (run_cons _ _ _ _ sample_run_connected).
  exact (step_disconnected sample_env [sample_upgrade Connected] _ 0%nat _ eq_refl eq_refl).
Qed.

Lemma connection_cap_holds_witness :
  max_connections sample_env = Some 1 ∧
  Z.of_nat (length (filter (λ u, up_phase u = Connected ∧ up_key u = "ip:10.0.0.9") [sample_upgrade Connected])) <= Z.max 0 1.
Proof.
  split; [reflexivity|].
  apply (proj1 (connection_cap_holds sample_env _ _ sample_run_connected) "ip:10.0.0.9" 1). reflexivity.
Defined.

Lemma released_limiter_is_empty_witness :
  activeConnections (untrackConnection "10.0.0.9" None sample_reserved) = 0.
Proof.
  apply (released_limiter_is_empty sample_env [sample_upgrade Released] _ sample_run_released).
  apply Forall_cons_2; [reflexivity|apply Forall_nil_2].
Defined.

Lemma stranded_reservation_never_returns_witness :
  up_phase (sample_upgrade Stranded) = Stranded ∧
  (reserve sample_env 99999999 "10.0.0.9" None sample_reserved).1.1 ≠ Ok tt.
Proof.
  split; [reflexivity|].
  apply (stranded_reservation_never_returns sample_env _ _ 0%nat (sample_upgrade Stranded)
           sample_run_stranded (run_nil _ _)); reflexivity.
Defined.
