(* ===== verification/Hub.v ===== *)
(** * The WebSocket hub ([src/ws/hub.ts], [src/ws/connectionLifecycle.ts],
    [src/ws/fanout.ts], [src/ws/healthProbe.ts])

    The composition of registry, router, backpressure, batches and limiter: control
    messages with their asynchronous authorization, dispatch of events, disconnects
    and health probes, as a step relation over one hub.

    The streams table is an argument at every question; the relation keeps a log of
    its answers, which only serves to state what subscriptions rest on.  Parsing of
    frames by the schema library and the replay of stored events (file [Replay]) are
    outside. *)
From Stdlib Require Import Ascii ZArith Lia.
From stdpp Require Import base functions strings list.
From S2P Require Import Prelude Batching ConnectionRegistry SubscriptionRouter Backpressure ConnectionLimiter.
Local Open Scope string_scope.
Local Open Scope list_scope.
Local Open Scope Z_scope.

Definition FANOUT_YIELD_BATCH : nat := 256.

Record HubRest : Type := { hub_limiter : Limiter; hub_batches : Batches WebSocket }.

(** The settings of one hub. *)
Record HubConfig : Type := {
  maxSubscriptionsPerConnection : Z;
  maxOutboundQueuePerConnection : Z;
  maxOutboundQueueBytesPerConnection : Z;
  batchMaxSize : Z;
  healthProbeMaxMissed : Z;
}.

Section hub.
Context {S : Type} `{Socket S} (config : HubConfig).
(** [JSON.stringify] of a payload, [None] for [undefined]. *)
Context (payload_json : jsval → option string).

Notation Hub := (OutboundBackpressure S HubRest).
Implicit Types st : Hub.

Definition with_rest (x : HubRest) st : Hub := {|
  dropBytes := dropBytes st; terminateBytes := terminateBytes st; outboundQueues := outboundQueues st;
  bp_metrics := bp_metrics st; queueLimitViolations := queueLimitViolations st; bp_events := bp_events st;
  registry := registry st; sockets := sockets st; bp_log := bp_log st; bp_rest := x |}.

Definition with_limiter (l : Limiter) st : Hub :=
  with_rest {| hub_limiter := l; hub_batches := hub_batches (bp_rest st) |} st.
Definition with_batches (b : Batches WebSocket) st : Hub :=
  with_rest {| hub_limiter := hub_limiter (bp_rest st); hub_batches := b |} st.

(** ** Connections *)

(** [onDisconnect], also the hub's teardown of a terminated socket. *)
Definition onDisconnect (ws : WebSocket) st : Hub :=
  match get (registry st) ws with
  | None => st
  | Some state =>
      let st := with_limiter (untrackConnection (ip state) (authenticatedSubject state) (hub_limiter (bp_rest st))) st in
      let st := with_registry (removeAllSubscriptions ws (registry st)) st in
      let st := with_batches (clearConnection (id state) (hub_batches (bp_rest st))) st in
      let st := forget ws st in
      with_registry (unregister ws (registry st)) st
  end.

(** The registration of [onConnect]. *)
Definition onConnect (ws : WebSocket) (connectionId : string) (now : Z) (ip : string)
    (correlationId authenticatedSubject : option string) st : Hub :=
  with_registry (register ws (createClientState connectionId now ip correlationId authenticatedSubject) (registry st)) st.

Definition queueOutbound (ws : WebSocket) (message : string) st : bool * Hub :=
  queueOutboundMessage (maxOutboundQueuePerConnection config) (maxOutboundQueueBytesPerConnection config)
    onDisconnect ws message st.

Definition error_frame (code message : string) : string :=
  unchars (json_object [json_member "type" (json_string "error"); json_member "code" (json_string code);
                        json_member "message" (json_string message)]).

Definition sendError (ws : WebSocket) (code message : string) st : Hub := (queueOutbound ws (error_frame code message) st).2.

(** The router's outputs, carried out. *)
Definition run_output (o : RouterOutput) st : Hub :=
  match o with SendError ws code message => sendError ws code message st | LimitExceeded => st end.

(** The admission of an inbound text frame of [onConnect]'s message handler. *)
Definition count_received (byteLength : Z) (s : ClientState) : ClientState :=
  let m := ConnectionRegistry.metrics s in
  set_metrics {| messagesReceived := messagesReceived m + 1; messagesSent := messagesSent m;
                 bytesReceived := bytesReceived m + byteLength; bytesSent := bytesSent m |} s.

Definition onMessage (maxInboundMessageBytes now : Z) (isBinary : bool) (ws : WebSocket) (raw : string) st : bool * Hub :=
  if isBinary then (false, sendError ws "BINARY_NOT_SUPPORTED" "Binary frames are not accepted" st)
  else
    let byteLength := byteLen raw in
    let st := with_registry (update ws (count_received byteLength) (registry st)) st in
    if maxInboundMessageBytes <? byteLength then
      (false, sendError ws "PAYLOAD_TOO_LARGE"
                ("Message exceeds " ++ int_string maxInboundMessageBytes ++ " bytes")%string st)
    else
      let '(ok, r) := checkRateLimit now ws (registry st) in
      let st := with_registry r st in
      if negb ok then (false, sendError ws "RATE_LIMIT_EXCEEDED" "Too many messages; slow down" st)
      else (true, st).

(** ** Control messages *)

Inductive Control : Type := CSubscribe | CUnsubscribe | CHandshake.

(** What follows the answer of [authorize], in [handleMessage] and for the filter
    of the handshake.  A rejected promise is reported to the client in the latter
    case; in the former it is not handled and nothing happens to the hub. *)
Definition handle_authorized (c : Control) (ws : WebSocket) (a : result string (Authorization SubscriptionFilter)) st : Hub :=
  match a with
  | Err _ =>
      match c with
      | CHandshake => sendError ws "INTERNAL_ERROR" "Failed to authorize subscription filter" st
      | _ => st
      end
  | Ok (Err (code, message)) => sendError ws code message st
  | Ok (Ok filter) =>
      match c with
      | CUnsubscribe => with_registry (unsubscribe ws filter (registry st)) st
      | _ =>
          let '(out, r) := subscribe (maxSubscriptionsPerConnection config) ws filter (registry st) in
          fold_left (λ st o, run_output o st) out (with_registry r st)
      end
  end.

(** ** Fanout *)

(** The batch accumulator's [deliver]: what the hub refuses is counted. *)
Definition deliver_frame (s : Sent WebSocket) st : Hub :=
  match sn_frame s with
  | None => st
  | Some safe =>
      let '(queued, st) := queueOutbound (sn_ws s) (unchars (frame (sn_streamId s) safe)) st in
      if queued then st else countDropped (Z.of_nat (length safe)) st
  end.

Definition enqueue_batched (entry : BatchedEvent) (now : Z) (t : WebSocket * ClientState) st : Hub :=
  let '(sent, b) := enqueue (batchMaxSize config) (isOpen (sockets st t.1)) t.1 (id t.2) entry now (hub_batches (bp_rest st)) in
  let st := with_batches b st in
  match sent with Some s => deliver_frame s st | None => st end.

Definition update_frame (event : StreamUpdateEvent) (correlationId : option string) : string :=
  unchars (json_object ([json_member "type" (json_string "stream_update");
      json_member "streamId" (json_string (ev_streamId event)); json_member "eventId" (json_string (ev_eventId event))]
    ++ match payload_json (ev_payload event) with Some p => [json_member "payload" (chars p)] | None => [] end
    ++ match correlationId with Some c => [json_member "correlationId" (json_string c)] | None => [] end)).

Definition deliver_chunk (chunk : list WebSocket) (message : string) (event : StreamUpdateEvent) st : Z * Hub :=
  deliverBatch (maxOutboundQueuePerConnection config) (maxOutboundQueueBytesPerConnection config) onDisconnect
    chunk message (ev_streamId event) (ev_eventId event) st.

(** [dispatchEvent]: the first chunk is delivered at once; the rest, if any, is
    left to [setImmediate]. *)
Definition dispatchEvent (event : StreamUpdateEvent) (ambient : option string) (now : Z) st : list WebSocket * Hub :=
  let t := resolveTargets event (registry st) in
  if bool_decide (batched t = []) && bool_decide (immediate t = []) then ([], st)
  else
    let correlationId := match ev_correlationId event with Some c => Some c | None => ambient end in
    let entry := {| be_streamId := ev_streamId event; be_eventId := ev_eventId event;
                    be_payload := payload_json (ev_payload event); be_correlationId := correlationId |} in
    let st := fold_left (λ st t, enqueue_batched entry now t st) (batched t) st in
    let message := update_frame event correlationId in
    (drop FANOUT_YIELD_BATCH (immediate t), (deliver_chunk (take FANOUT_YIELD_BATCH (immediate t)) message event st).2).

(** [broadcastEvent] with the answer of the dedup cache: whether the event is
    mirrored to the SSE bus, and the targets left for later chunks. *)
Definition broadcastEvent (added : bool) (event : StreamUpdateEvent) (ambient : option string) (now : Z) st
    : bool * list WebSocket * Hub :=
  if negb added then (false, [], st)
  else let '(later, st) := dispatchEvent event ambient now st in (true, later, st).

(** A pending flush timer fires. *)
Definition fire_timer (t : nat) st : Hub :=
  let ws := match jm_get t (pending (hub_batches (bp_rest st))) with Some (ws, _) => ws | None => 0%nat end in
  let '(sent, b) := fire (isOpen (sockets st ws)) t (hub_batches (bp_rest st)) in
  let st := with_batches b st in
  match sent with Some s => deliver_frame s st | None => st end.

(** ** Administration and probes *)

(** [disconnectByStreamId]: the sockets that are asked to close. *)
Definition disconnectByStreamId (s : string) st : list WebSocket * Hub :=
  let '(targets, r) := takeStreamSubscribers s (registry st) in (targets, with_registry r st).

(** The probe of one connection: the ones to terminate, and one more missed pong
    for the others. *)
Definition probe_one (ws : WebSocket) st : list WebSocket * Hub :=
  match get (registry st) ws with
  | None => ([], st)
  | Some state =>
      if negb (isOpen (sockets st ws)) then ([], st)
      else if healthProbeMaxMissed config <=? missedPongs state then ([ws], with_socket ws (terminate (sockets st ws)) st)
      else ([], with_registry (update ws (λ s, set_missedPongs (missedPongs s + 1) s) (registry st)) st)
  end.
Definition onPong (ws : WebSocket) st : Hub := with_registry (update ws (set_missedPongs 0) (registry st)) st.

(** ** The hub as a step relation *)

(** Steps: the operations above, in any order and with any arguments; the upgrade
    handler changes the limiter, an administrator the thresholds, and the peers and
    the library the sockets.

    The state: the hub, the control messages whose authorization is under way, the subject of
    every socket that ever connected, and the answers of the streams table. *)
Record HubState : Type := {
  hub : Hub;
  waiting : list (Control * WebSocket * result string (Authorization SubscriptionFilter));
  subjects : list (WebSocket * option string);
  answers : list (string * Stream);
  cut : list string;
}.

Definition set_hub (h : Hub) (s : HubState) : HubState :=
  {| hub := h; waiting := waiting s; subjects := subjects s; answers := answers s; cut := cut s |}.

(** What the table answered to the question of [authorize], if it asked. *)
Definition answer_of (getById : string → result string (option Stream)) (f : SubscriptionFilter) : list (string * Stream) :=
  match streamId f with
  | Some s => match getById s with Ok (Some stream) => [(s, stream)] | _ => [] end
  | None => []
  end.

Inductive hub_step : HubState → HubState → Prop :=
| hub_connect s ws connectionId now ip c subject :
    jm_get ws (subjects s) = None →
    hub_step s {| hub := onConnect ws connectionId now ip c subject (hub s); waiting := waiting s;
                  subjects := jm_set ws subject (subjects s); answers := answers s; cut := cut s |}
| hub_inbound s max now bin ws raw : hub_step s (set_hub (onMessage max now bin ws raw (hub s)).2 s)
| hub_authorize s c ws f getById :
    hub_step s {| hub := hub s; waiting := waiting s ++ [(c, ws, authorize getById (registry (hub s)) ws f)];
                  subjects := subjects s; answers := answers s ++ answer_of getById f; cut := cut s |}
| hub_authorized s i c ws a :
    waiting s !! i = Some (c, ws, a) →
    hub_step s {| hub := handle_authorized c ws a (hub s); waiting := delete i (waiting s);
                  subjects := subjects s; answers := answers s; cut := cut s |}
| hub_broadcast s added event ambient now :
    hub_step s (set_hub (broadcastEvent added event ambient now (hub s)).2 s)
| hub_chunk s chunk message event : hub_step s (set_hub (deliver_chunk chunk message event (hub s)).2 s)
| hub_timer s t : hub_step s (set_hub (fire_timer t (hub s)) s)
| hub_disconnect s ws : hub_step s (set_hub (onDisconnect ws (hub s)) s)
| hub_admin s stream :
    hub_step s {| hub := (disconnectByStreamId stream (hub s)).2; waiting := waiting s;
                  subjects := subjects s; answers := answers s; cut := stream :: cut s |}
| hub_probe s ws : hub_step s (set_hub (probe_one ws (hub s)).2 s)
| hub_pong s ws : hub_step s (set_hub (onPong ws (hub s)) s)
| hub_upgrade s l : hub_step s (set_hub (with_limiter l (hub s)) s)
| hub_thresholds s d t : hub_step s (set_hub (setThresholds d t (hub s)) s)
| hub_socket s ws x : hub_step s (set_hub (with_socket ws x (hub s)) s).

Inductive hub_run : HubState → HubState → Prop :=
| hub_run_nil s : hub_run s s
| hub_run_snoc s1 s2 s3 : hub_run s1 s2 → hub_step s2 s3 → hub_run s1 s3.
End hub.

(** ** What leaves the subscriptions alone

    Everything but a subscribe only takes filters away and keeps the subjects. *)

Record reg_shrinks (cut : string → Prop) (r r' : ConnectionRegistry) : Prop := {
  le_wf : registry_wf cut r';
  le_filters ws k f : (k, f) ∈ filters_of r' ws → (k, f) ∈ filters_of r ws;
  le_length ws : (length (filters_of r' ws) <= length (filters_of r ws))%nat;
  le_subject ws s' : get r' ws = Some s' → ∃ s, get r ws = Some s ∧ authenticatedSubject s' = authenticatedSubject s;
}.
Definition reg_le cut r r' : Prop := registry_wf cut r → reg_shrinks cut r r'.

#[export] Instance reg_le_preorder cut : PreOrder (reg_le cut).
Proof.
  split.
  - intros r Hwf. split; eauto.
  - intros r1 r2 r3 H12 H23 Hwf. destruct (H12 Hwf) as [A1 A2 A3 A4]. destruct (H23 A1) as [B1 B2 B3 B4]. split; eauto.
    + intros ws. etrans; eauto.
    + intros ws s3 (s2 & H2 & E2)%B4. destruct (A4 ws s2 H2) as (s1 & H1 & E1). exists s1. split; [done|congruence].
Qed.

Lemma reg_le_update cut ws f r :
  (∀ s, subscriptionFilters (f s) = subscriptionFilters s) → (∀ s, authenticatedSubject (f s) = authenticatedSubject s) →
  reg_le cut r (update ws f r).
Proof.
  intros Hf Ha Hwf. split.
  - by apply wf_update.
  - intros x k g. by rewrite filters_of_keep.
  - intros x. by rewrite filters_of_keep.
  - intros x s'. rewrite get_update. case_decide; [subst|by eauto].
    destruct (get r ws) as [s|]; [|done]. intros [= <-]. exists s. by rewrite Ha.
Qed.

Lemma reg_le_rate cut now ws r : reg_le cut r (checkRateLimit now ws r).2.
Proof. unfold checkRateLimit. destruct (get r ws); [|done]. case_match; by apply reg_le_update. Qed.

Lemma jm_delete_length {K V} `{EqDecision K} (k : K) (m : list (K * V)) : (length (jm_delete k m) <= length m)%nat.
Proof. unfold jm_delete. apply length_filter. Qed.

Lemma reg_le_remove cut ws f r : proper f → reg_le cut r (removeSubscription ws f r).
Proof.
  intros Hp Hwf. pose proof (wf_remove cut ws f r Hp Hwf) as Hwf'.
  destruct (get r ws) as [s|] eqn:Hg; [|unfold removeSubscription in *; rewrite Hg in *; by split; eauto].
  destruct (removeSubscription_spec ws f r ltac:(by eexists)) as (Hf & _ & _ & _). split; [done| | |].
  - intros x k g. rewrite Hf. case_decide; [subst|done]. by intros [? _]%elem_of_jm_delete.
  - intros x. rewrite Hf. case_decide; [subst; apply jm_delete_length|done].
  - intros x s'. assert (get (removeSubscription ws f r) x =
      get (update ws (λ s, set_filters (jm_delete (subscriptionKey f) (subscriptionFilters s)) s) r) x) as ->.
    { unfold removeSubscription. rewrite Hg. by destruct (streamId f), (recipientAddress f). }
    rewrite get_update. case_decide; [subst; rewrite Hg; intros [= <-]; by exists s|by eauto].
Qed.

Lemma reg_le_unsubscribe cut ws f r : proper f → reg_le cut r (unsubscribe ws f r).
Proof.
  intros Hp. unfold unsubscribe. destruct (get r ws); [|done]. case_match; [done|]. by apply reg_le_remove.
Qed.

Lemma reg_le_removes cut ws fs r : Forall proper fs →
  reg_le cut r (fold_left (λ r filter, removeSubscription ws filter r) fs r).
Proof.
  intros Hp. revert r. induction Hp as [|f fs Hf Hp IH]; intros r; [done|]. cbn [fold_left].
  etrans; [by apply reg_le_remove|apply IH].
Qed.

Lemma reg_le_disconnect cut ws r : reg_le cut r (unregister ws (removeAllSubscriptions ws r)).
Proof.
  intros Hwf. destruct (removeAll_spec cut ws r Hwf) as (Hwf' & Hnil & _).
  assert (reg_le cut r (removeAllSubscriptions ws r)) as Hle.
  { unfold removeAllSubscriptions. destruct (get r ws) as [s|] eqn:Hg; [|done]. apply reg_le_removes.
    apply Forall_fmap, list.Forall_forall. intros [k g] Hk. destruct (wf_filters _ _ Hwf ws) as [_ Wb].
    unfold filters_of in Wb. rewrite Hg in Wb. by apply Wb in Hk as []. }
  destruct (Hle Hwf) as [A1 A2 A3 A4].
  assert (∀ x, get (unregister ws (removeAllSubscriptions ws r)) x =
            if decide (x = ws) then None else get (removeAllSubscriptions ws r) x) as Hg.
  { intros x. unfold get, unregister, set_clients. simpl. case_decide; [subst; apply jm_get_delete_eq|by apply jm_get_delete_ne]. }
  unfold filters_of in A2, A3. split; [by apply wf_unregister| | |]; intros x; unfold filters_of; rewrite Hg; case_decide.
  - by intros k f ?%not_elem_of_nil.
  - apply A2.
  - simpl. lia.
  - apply A3.
  - done.
  - apply A4.
Qed.

(** ** The hub's operations on the registry *)

Section queues.
Context {S X : Type} `{Socket S} (cut : string → Prop) (maxQ maxB : Z)
  (onTerminate : WebSocket → OutboundBackpressure S X → OutboundBackpressure S X).
Context (Hterm : ∀ ws st, reg_le cut (registry st) (registry (onTerminate ws st))).
Implicit Types st : OutboundBackpressure S X.

Lemma reg_le_flush_loop ws queue st : reg_le cut (registry st) (registry (flush_loop onTerminate ws queue st)).
Proof.
  revert st. induction queue as [|m q IH]; intros st; cbn [flush_loop]; [done|].
  destruct (isOpen _); cbn [negb]; [|done]. destruct (terminateBytes st <? _); [by etrans; [|apply Hterm]|].
  destruct (dropBytes st <? _); [done|]. destruct (send m _) as [[] x]; cbn [negb]; [|done].
  etrans; [|apply IH]. cbn. by apply reg_le_update.
Qed.

Lemma reg_le_queue ws m st :
  reg_le cut (registry st) (registry (queueOutboundMessage maxQ maxB onTerminate ws m st).2).
Proof.
  unfold queueOutboundMessage. destruct (negb _); [done|]. destruct (_ || _); [done|]. cbn [snd].
  unfold flushOutboundQueue. destruct (jm_get ws _) as [q|]; [|done]. case_bool_decide; [done|].
  by etrans; [|apply reg_le_flush_loop].
Qed.

Lemma registry_report a ws b t s e st : registry (reportBackpressure a ws b t s e st) = registry st.
Proof. unfold reportBackpressure. by destruct (get _ _). Qed.

Lemma reg_le_deliver_one m s e ws st :
  reg_le cut (registry st) (registry (deliver_one maxQ maxB onTerminate m s e ws st).2).
Proof.
  unfold deliver_one. destruct (negb _); [done|]. destruct (terminateBytes st <? _).
  { cbn [snd]. etrans; [|apply Hterm]. cbn [with_socket registry]. by rewrite registry_report. }
  destruct (dropBytes st <? _); [cbn [snd]; by rewrite registry_report|].
  pose proof (reg_le_queue ws m st) as Hq. destruct (queueOutboundMessage _ _ _ _ _ _) as [ok st']. by destruct ok.
Qed.

Lemma reg_le_deliverBatch batch m s e st :
  reg_le cut (registry st) (registry (deliverBatch maxQ maxB onTerminate batch m s e st).2).
Proof.
  revert st. induction batch as [|ws batch IH]; intros st; cbn [deliverBatch]; [done|].
  pose proof (reg_le_deliver_one m s e ws st) as H1. destruct (deliver_one _ _ _ _ _ _ _ _) as [ok st1].
  specialize (IH st1). destruct (deliverBatch _ _ _ _ _ _ _ st1) as [sent st2]. cbn [snd] in *. by etrans.
Qed.
End queues.

Section invariant.
Context {S : Type} `{Socket S} (config : HubConfig) (payload_json : jsval → option string).
Notation Hub := (OutboundBackpressure S HubRest).
Notation HubState := (Hub.HubState (S:=S)).
Implicit Types st : Hub.
Implicit Types s : HubState.

Lemma registry_onDisconnect ws st :
  registry (onDisconnect ws st) = match get (registry st) ws with
                                  | None => registry st
                                  | Some _ => unregister ws (removeAllSubscriptions ws (registry st))
                                  end.
Proof. unfold onDisconnect. by destruct (get (registry st) ws). Qed.

Lemma hub_le_disconnect cut ws st : reg_le cut (registry st) (registry (onDisconnect ws st)).
Proof. rewrite registry_onDisconnect. destruct (get _ _); [apply reg_le_disconnect|done]. Qed.

(** The hub's teardown is what the queues expect. *)
#[export] Instance hub_teardown : Teardown (S:=S) onDisconnect.
Proof.
  split; intros ws st; unfold onDisconnect; destruct (get (registry st) ws); try done.
  - intros j q. apply jm_get_delete_Some.
  - intros j Hj. by apply jm_get_delete_ne.
Qed.

Lemma hub_le_queue cut ws m st : reg_le cut (registry st) (registry (queueOutbound config ws m st).2).
Proof. apply reg_le_queue. intros. apply hub_le_disconnect. Qed.

Lemma hub_le_error cut ws code m st : reg_le cut (registry st) (registry (sendError config ws code m st)).
Proof. apply hub_le_queue. Qed.

Lemma hub_le_chunk cut chunk m event st :
  reg_le cut (registry st) (registry (deliver_chunk config chunk m event st).2).
Proof. apply reg_le_deliverBatch. intros. apply hub_le_disconnect. Qed.

Lemma hub_le_outputs cut out st : reg_le cut (registry st) (registry (fold_left (λ st o, run_output config o st) out st)).
Proof.
  revert st. induction out as [|o out IH]; intros st; [done|]. cbn [fold_left]. etrans; [|apply IH].
  destruct o; [apply hub_le_error|done].
Qed.

Lemma hub_le_message cut max now bin ws raw st :
  reg_le cut (registry st) (registry (onMessage config max now bin ws raw st).2).
Proof.
  unfold onMessage. destruct bin; [apply hub_le_error|]. set (st1 := with_registry _ st).
  assert (reg_le cut (registry st) (registry st1)) as H1 by (by apply reg_le_update).
  destruct (_ <? _); [etrans; [exact H1|apply hub_le_error]|].
  pose proof (reg_le_rate cut now ws (registry st1)) as H2. destruct (checkRateLimit now ws (registry st1)) as [ok r].
  assert (reg_le cut (registry st) (registry (with_registry r st1))) as H3 by (by etrans).
  destruct ok; [exact H3|]. etrans; [exact H3|apply hub_le_error].
Qed.

Lemma hub_le_frame cut x st : reg_le cut (registry st) (registry (deliver_frame config x st)).
Proof.
  unfold deliver_frame. destruct (sn_frame x) as [safe|]; [|done].
  pose proof (hub_le_queue cut (sn_ws x) (unchars (frame (sn_streamId x) safe)) st) as Hq.
  destruct (queueOutbound _ _ _ _) as [[] st']; exact Hq.
Qed.

Lemma hub_le_enqueue cut entry now t st : reg_le cut (registry st) (registry (enqueue_batched config entry now t st)).
Proof.
  unfold enqueue_batched. destruct (enqueue _ _ _ _ _ _ _) as [[x|] b]; [|done]. by etrans; [|apply hub_le_frame].
Qed.

Lemma hub_le_timer cut t st : reg_le cut (registry st) (registry (fire_timer config t st)).
Proof.
  unfold fire_timer. destruct (fire _ _ _) as [[x|] b]; [|done]. by etrans; [|apply hub_le_frame].
Qed.

Lemma hub_le_dispatch cut event ambient now st :
  reg_le cut (registry st) (registry (dispatchEvent config payload_json event ambient now st).2).
Proof.
  unfold dispatchEvent. destruct (_ && _); [done|]. cbn [snd]. etrans; [|apply hub_le_chunk].
  generalize (batched (resolveTargets event (registry st))) as l. intros l. revert st.
  induction l as [|t l IH]; intros st; [done|]. cbn [fold_left]. etrans; [apply hub_le_enqueue|apply IH].
Qed.

Lemma hub_le_broadcast cut added event ambient now st :
  reg_le cut (registry st) (registry (broadcastEvent config payload_json added event ambient now st).2).
Proof.
  unfold broadcastEvent. destruct added; [|done]. pose proof (hub_le_dispatch cut event ambient now st) as Hd.
  by destruct (dispatchEvent _ _ _ _ _ _).
Qed.

Lemma hub_le_probe cut ws st : reg_le cut (registry st) (registry (probe_one config ws st).2).
Proof.
  unfold probe_one. destruct (get _ _); [|done]. destruct (negb _); [done|]. destruct (_ <=? _); [done|].
  by apply reg_le_update.
Qed.

(** ** The invariant *)

(** What a subscription of a connection rests on: the connection authenticated as a
    subject which the table named as a party of the stream, or which is the
    recipient asked for. *)
Definition granted (subjects : list (WebSocket * option string)) (answers : list (string * Stream))
    (ws : WebSocket) (f : SubscriptionFilter) : Prop :=
  ∃ subject, jm_get ws subjects = Some (Some subject) ∧
    match streamId f with
    | Some s => ∃ stream, (s, stream) ∈ answers ∧ str_empty subject = false ∧
                          (sender_address stream = subject ∨ recipient_address stream = subject)
    | None => recipientAddress f = Some subject ∧ isValidStellarPublicKey subject = true
    end.

Record hub_inv (s : HubState) : Prop := {
  inv_wf : registry_wf (λ x, x ∈ cut s) (registry (hub s));
  inv_cap ws : Z.of_nat (length (filters_of (registry (hub s)) ws)) <= Z.max 0 (maxSubscriptionsPerConnection config);
  inv_subject ws x : get (registry (hub s)) ws = Some x → jm_get ws (subjects s) = Some (authenticatedSubject x);
  inv_held ws k f : (k, f) ∈ filters_of (registry (hub s)) ws → granted (subjects s) (answers s) ws f;
  inv_waiting c ws f : (c, ws, Ok (Ok f)) ∈ waiting s → granted (subjects s) (answers s) ws f ∧ proper f;
}.

(** A step that shrinks the registry and does not touch the rest. *)
Lemma inv_calm s h w :
  reg_le (λ x, x ∈ cut s) (registry (hub s)) (registry h) → (∀ x, x ∈ w → x ∈ waiting s) → hub_inv s →
  hub_inv {| hub := h; waiting := w; subjects := subjects s; answers := answers s; cut := cut s |}.
Proof.
  intros Hle Hw [I1 I2 I3 I4 I5]. destruct (Hle I1) as [L1 L2 L3 L4]. split; simpl.
  - done.
  - intros ws. specialize (I2 ws). specialize (L3 ws). lia.
  - intros ws x (y & Hy & ->)%L4. by apply I3.
  - intros ws k f Hf%L2. by eapply I4.
  - intros c ws f Hin%Hw. by eapply I5.
Qed.

Lemma granted_mono su su' an an' ws f :
  (∀ x, jm_get ws su = Some (Some x) → jm_get ws su' = Some (Some x)) → (∀ x, x ∈ an → x ∈ an') →
  granted su an ws f → granted su' an' ws f.
Proof.
  intros Hs Ha (x & Hx & Hf). exists x. split; [auto|]. destruct (streamId f); [|done].
  destruct Hf as (stream & Hin & Hrest). exists stream. auto.
Qed.

Lemma inv_connect s ws connectionId now ip c subject :
  jm_get ws (subjects s) = None → hub_inv s →
  hub_inv {| hub := onConnect ws connectionId now ip c subject (hub s); waiting := waiting s;
             subjects := jm_set ws subject (subjects s); answers := answers s; cut := cut s |}.
Proof.
  intros Hn [I1 I2 I3 I4 I5].
  assert (get (registry (hub s)) ws = None) as Hg.
  { destruct (get (registry (hub s)) ws) as [x|] eqn:Hx; [|done]. apply I3 in Hx. congruence. }
  set (cs := createClientState connectionId now ip c subject).
  assert (∀ x, get (register ws cs (registry (hub s))) x = if decide (x = ws) then Some cs else get (registry (hub s)) x) as Hget.
  { intros x. unfold get, register, set_clients. simpl. case_decide; [subst; apply jm_get_set_eq|by apply jm_get_set_ne]. }
  assert (∀ x, filters_of (register ws cs (registry (hub s))) x = filters_of (registry (hub s)) x) as Hf.
  { intros x. unfold filters_of. rewrite Hget. case_decide; [subst; by rewrite Hg|done]. }
  assert (∀ w f, granted (subjects s) (answers s) w f → granted (jm_set ws subject (subjects s)) (answers s) w f) as Hgr.
  { intros w f. apply granted_mono; [|done]. intros x Hx. rewrite jm_get_set_ne; [done|]. intros ->. congruence. }
  split; simpl.
  - by apply wf_register.
  - intros w. by rewrite Hf.
  - intros w x. rewrite Hget. case_decide; [subst|].
    + intros [= <-]. by rewrite jm_get_set_eq.
    + rewrite jm_get_set_ne by done. apply I3.
  - intros w k f. rewrite Hf. intros Hin. eauto.
  - intros c' w f Hin. destruct (I5 _ _ _ Hin). auto.
Qed.

Lemma inv_authorize s c ws f getById : hub_inv s →
  hub_inv {| hub := hub s; waiting := waiting s ++ [(c, ws, authorize getById (registry (hub s)) ws f)];
             subjects := subjects s; answers := answers s ++ answer_of getById f; cut := cut s |}.
Proof.
  intros [I1 I2 I3 I4 I5].
  assert (∀ w g, granted (subjects s) (answers s) w g → granted (subjects s) (answers s ++ answer_of getById f) w g) as Hgr.
  { intros w g. apply granted_mono; [done|]. intros x. rewrite elem_of_app. auto. }
  split; simpl; eauto. intros c' w g. rewrite elem_of_app, list_elem_of_singleton.
  intros [Hin|[= -> -> Ha]]; [destruct (I5 _ _ _ Hin); auto|].
  symmetry in Ha. apply authorize_Ok in Ha as (x & Hx & Hau & Hv & ->). split; [|by apply validate_proper].
  apply I3 in Hx. unfold authorized in Hau. unfold granted, answer_of. destruct (streamId f) as [sid|].
  - destruct Hau as (stream & a & Hget & Hs & He & Hp). exists a. rewrite Hx, Hs. split; [done|]. exists stream.
    rewrite Hget, elem_of_app, list_elem_of_singleton. auto.
  - destruct Hau as (a & Hr & Hs & Hk). exists a. rewrite Hx, Hs. auto.
Qed.

Lemma inv_subscribe s w ws f : granted (subjects s) (answers s) ws f → (∀ x, x ∈ w → x ∈ waiting s) → hub_inv s →
  hub_inv {| hub := with_registry (subscribe (maxSubscriptionsPerConnection config) ws f (registry (hub s))).2 (hub s);
             waiting := w; subjects := subjects s; answers := answers s; cut := cut s |}.
Proof.
  intros Hg Hw [I1 I2 I3 I4 I5]. set (max := maxSubscriptionsPerConnection config) in *. split; simpl.
  - by apply wf_subscribe.
  - intros x. by apply count_subscribe.
  - intros x y. assert (get (subscribe max ws f (registry (hub s))).2 x = Some y →
      ∃ z, get (registry (hub s)) x = Some z ∧ authenticatedSubject y = authenticatedSubject z) as Hz.
    { destruct (subscribe_cases max ws f (registry (hub s))) as [->|(-> & _)]; [eauto|].
      unfold addSubscription. destruct (get (registry (hub s)) ws) as [z|] eqn:Hz; [|eauto].
      destruct (jm_has _ _); [eauto|]. set (r0 := update _ _ _).
      assert (get r0 x = Some y → ∃ z, get (registry (hub s)) x = Some z ∧ authenticatedSubject y = authenticatedSubject z) as Hr0.
      { unfold r0. rewrite get_update. case_decide; [subst; rewrite Hz; intros [= <-]; by exists z|eauto]. }
      destruct (streamId f); [exact Hr0|]. destruct (recipientAddress f); exact Hr0. }
    intros (z & Hx & ->)%Hz. by apply I3.
  - intros x k g [Hin|(-> & -> & _)]%filters_subscribe; eauto.
  - intros c x g Hin%Hw. by eapply I5.
Qed.

Lemma elem_of_delete_list {A} i (l : list A) x : x ∈ delete i l → x ∈ l.
Proof. intros Hx. eapply elem_of_submseteq; [done|apply submseteq_delete]. Qed.

Lemma inv_authorized s i c ws a : waiting s !! i = Some (c, ws, a) → hub_inv s →
  hub_inv {| hub := handle_authorized config c ws a (hub s); waiting := delete i (waiting s);
             subjects := subjects s; answers := answers s; cut := cut s |}.
Proof.
  intros Hi Hinv. assert (∀ x, x ∈ delete i (waiting s) → x ∈ waiting s) as Hw by apply elem_of_delete_list.
  apply list_elem_of_lookup_2 in Hi. destruct a as [[f|[code m]]|e]; cbn [handle_authorized].
  - destruct (inv_waiting s Hinv _ _ _ Hi) as [Hg Hp].
    assert (∀ out, hub_inv {| hub := fold_left (λ st o, run_output config o st) out
        (with_registry (subscribe (maxSubscriptionsPerConnection config) ws f (registry (hub s))).2 (hub s));
      waiting := delete i (waiting s); subjects := subjects s; answers := answers s; cut := cut s |}) as Hsub.
    { intros out. pose proof (inv_subscribe s _ ws f Hg Hw Hinv) as H1.
      revert H1. apply (inv_calm {| hub := _; waiting := _; subjects := _; answers := _; cut := _ |}); [|done].
      apply hub_le_outputs. }
    destruct c; [|apply inv_calm; [by apply reg_le_unsubscribe|done|done]|];
      (destruct (subscribe _ _ _ _) as [out r]; apply Hsub).
  - apply inv_calm; [apply hub_le_error|done|done].
  - apply inv_calm; [|done|done]. destruct c; [done|done|apply hub_le_error].
Qed.

Lemma inv_admin s stream : hub_inv s →
  hub_inv {| hub := (disconnectByStreamId stream (hub s)).2; waiting := waiting s; subjects := subjects s;
             answers := answers s; cut := stream :: cut s |}.
Proof.
  intros [I1 I2 I3 I4 I5]. pose proof (wf_take _ stream _ I1) as Hwf. unfold disconnectByStreamId.
  assert (clients (takeStreamSubscribers stream (registry (hub s))).2 = clients (registry (hub s))) as Hc.
  { unfold takeStreamSubscribers. destruct (jm_get _ _); [|done]. by case_bool_decide. }
  destruct (takeStreamSubscribers stream (registry (hub s))) as [targets r]. simpl in *.
  assert (∀ x, get r x = get (registry (hub s)) x) as Hg by (intros x; unfold get; by rewrite Hc).
  assert (∀ x, filters_of r x = filters_of (registry (hub s)) x) as Hf by (intros x; unfold filters_of; by rewrite Hg).
  split; simpl; try done.
  - revert Hwf. clear. intros [W1 W2 W3 W4 W5 W6 W7]. split; try done. intros k x Hk. apply W6. rewrite elem_of_cons in Hk. tauto.
  - intros x. by rewrite Hf.
  - intros x y. rewrite Hg. apply I3.
  - intros x k f. rewrite Hf. apply I4.
Qed.

Lemma inv_hub_step s s' : hub_step config payload_json s s' → hub_inv s → hub_inv s'.
Proof.
  intros Hs. destruct Hs as [s ws ? ? ? ? ? Hn|s max now bin ws raw|s c ws f getById|s i c ws a Hi|s added event ambient now
    |s chunk m event|s t|s ws|s stream|s ws|s ws|s l|s d t|s ws x].
  - by apply inv_connect.
  - intros Hi. apply inv_calm; [apply hub_le_message|done|done].
  - apply inv_authorize.
  - by apply inv_authorized.
  - intros Hi. apply inv_calm; [apply hub_le_broadcast|done|done].
  - intros Hi. apply inv_calm; [apply hub_le_chunk|done|done].
  - intros Hi. apply inv_calm; [apply hub_le_timer|done|done].
  - intros Hi. apply inv_calm; [apply hub_le_disconnect|done|done].
  - apply inv_admin.
  - intros Hi. apply inv_calm; [apply hub_le_probe|done|done].
  - intros Hi. apply inv_calm; [by apply reg_le_update|done|done].
  - intros Hi. by apply inv_calm.
  - intros Hi. by apply inv_calm.
  - intros Hi. by apply inv_calm.
Qed.

(** A hub that has just been constructed. *)
Definition new_hub (drop term : Z) (sockets : WebSocket → S) : HubState := {|
  hub := new_backpressure drop term new_registry sockets {| hub_limiter := new_limiter; hub_batches := new_batches |};
  waiting := []; subjects := []; answers := []; cut := [] |}.

Lemma inv_new_hub drop term socks : hub_inv (new_hub drop term socks).
Proof.
  split; simpl; [apply wf_new| | | |]; try done.
  - intros ws. simpl. lia.
  - by intros ? ? ? ?%not_elem_of_nil.
  - by intros ? ? ? ?%not_elem_of_nil.
Qed.

Lemma inv_hub_run s0 s : hub_run config payload_json s0 s → hub_inv s0 → hub_inv s.
Proof. intros Hr Hi. induction Hr as [s|s1 s2 s3 Hr IH Hs]; [done|]. eapply inv_hub_step; [done|auto]. Qed.
End invariant.

(** ** Disconnects *)
Lemma get_remove_ne ws f r x : x ≠ ws → get (removeSubscription ws f r) x = get r x.
Proof.
  intros Hx. unfold removeSubscription. destruct (get r ws) as [s|]; [|done].
  assert (∀ F, get (update ws F r) x = get r x) as Hu by (intros F; rewrite get_update; by rewrite decide_False).
  destruct (streamId f); [apply Hu|]. destruct (recipientAddress f); apply Hu.
Qed.

Lemma get_removeAll_ne ws r x : x ≠ ws → get (removeAllSubscriptions ws r) x = get r x.
Proof.
  intros Hx. unfold removeAllSubscriptions. destruct (get r ws) as [s|]; [|done].
  generalize (subscriptionFilters s).*2 as fs. intros fs. revert r. induction fs as [|f fs IH]; intros r; [done|].
  cbn [fold_left]. by rewrite IH, get_remove_ne.
Qed.

Lemma get_unregister ws r x : get (unregister ws r) x = if decide (x = ws) then None else get r x.
Proof.
  unfold get, unregister, set_clients. simpl. case_decide; [subst; apply jm_get_delete_eq|by apply jm_get_delete_ne].
Qed.

(** Nobody without filters is in an index. *)
Lemma no_filters_no_members cut r ws : registry_wf cut r → filters_of r ws = [] →
  ∀ k, ws ∉ members (streamSubscriptions r) k ∧ ws ∉ members (recipientSubscriptions r) k.
Proof.
  intros Hwf Hn k. split; [intros (j & f & Hin & _)%(wf_stream_sound _ _ Hwf)|intros (j & f & Hin & _)%(wf_recipient_sound _ _ Hwf)];
    rewrite Hn in Hin; by apply not_elem_of_nil in Hin.
Qed.

Lemma members_unregister ws r : streamSubscriptions (unregister ws r) = streamSubscriptions r ∧
  recipientSubscriptions (unregister ws r) = recipientSubscriptions r.
Proof. done. Qed.

(** ** Batched clients do not get in the way of the others *)

Section batched_others.
Context {S : Type} `{Socket S} (config : HubConfig).
Implicit Types st : OutboundBackpressure S HubRest.

Lemma touches_frame x st : only_touches (sn_ws x) st (deliver_frame config x st).
Proof.
  unfold deliver_frame. destruct (sn_frame x) as [safe|]; [|done]. unfold queueOutbound.
  pose proof (touches_queue (maxOutboundQueuePerConnection config) (maxOutboundQueueBytesPerConnection config)
    onDisconnect (sn_ws x) (unchars (frame (sn_streamId x) safe)) st) as Ht.
  destruct (queueOutboundMessage _ _ _ _ _ _) as [[] st1]; simpl in Ht; [done|]. etrans; [exact Ht|]. by split.
Qed.

Lemma enqueue_ws (isOpen : bool) (ws : WebSocket) c entry now b x :
  (enqueue (batchMaxSize config) isOpen ws c entry now b).1 = Some x → sn_ws x = ws.
Proof.
  unfold enqueue. destruct (match jm_get _ _ with Some _ => _ | None => _ end) as [[acc p] n]. destruct (_ <=? _); [|done].
  by intros [= <-].
Qed.

Lemma touches_enqueue entry now t st : only_touches t.1 st (enqueue_batched config entry now t st).
Proof.
  unfold enqueue_batched. destruct (enqueue _ _ _ _ _ _ _) as [[x|] b] eqn:He; [|by split].
  assert (sn_ws x = t.1) as <- by (eapply enqueue_ws; by rewrite He). etrans; [|apply touches_frame]. by split.
Qed.

Lemma batched_touch entry now l st :
  let st' := fold_left (λ st t, enqueue_batched config entry now t st) l st in
  (∀ j, j ∉ l.*1 → sockets st' j = sockets st j ∧ jm_get j (outboundQueues st') = jm_get j (outboundQueues st)) ∧
  dropBytes st' = dropBytes st ∧ terminateBytes st' = terminateBytes st ∧ bp_log st `prefix_of` bp_log st'.
Proof.
  revert st. induction l as [|t l IH]; intros st; [done|]. cbn [fold_left].
  destruct (touches_enqueue entry now t st) as [T1 T2 [T3 T4] T5].
  destruct (IH (enqueue_batched config entry now t st)) as (I1 & I2 & I3 & I4). splits; [|congruence|congruence|by etrans].
  intros j Hj. rewrite fmap_cons, not_elem_of_cons in Hj. destruct Hj as [Hne Hj]. destruct (I1 j Hj) as [-> ->]. auto.
Qed.
End batched_others.

(** ** Properties *)

Section properties.
Context {S : Type} `{Socket S} (config : HubConfig) (payload_json : jsval → option string).

(** C23: Events reach authorized clients only: in every run of a hub, with any
    interleaving of connects, messages, slow authorizations, disconnects and
    deliveries and any changing streams table, each target of an event is a
    connected socket whose authenticated subject either was named by the table as a
    party of the event's stream or is a valid key that the event names as its
    recipient. *)
Theorem fanout_only_to_authorised drop term socks s event ws :
  hub_run config payload_json (new_hub drop term socks) s →
  ws ∈ (batched (resolveTargets event (registry (hub s)))).*1 ++ immediate (resolveTargets event (registry (hub s))) →
  ∃ x subject, get (registry (hub s)) ws = Some x ∧ authenticatedSubject x = Some subject ∧
    ((∃ stream, (ev_streamId event, stream) ∈ answers s ∧
        (sender_address stream = subject ∨ recipient_address stream = subject)) ∨
     (extractRecipientAddress event = Some subject ∧ isValidStellarPublicKey subject = true)).
Proof.
  intros Hr Hin. destruct (inv_hub_run config payload_json _ _ Hr (inv_new_hub config drop term socks)) as [I1 _ I3 I4 _].
  destruct (split_targets_spec (registry (hub s)) (matchingSubscribers event (registry (hub s))) {| batched := []; immediate := [] |})
    as [Hb Hi]. fold (resolveTargets event (registry (hub s))) in Hb, Hi. cbn [batched immediate app] in Hb, Hi.
  assert (ws ∈ matchingSubscribers event (registry (hub s))) as Hm.
  { rewrite elem_of_app, Hb, Hi in Hin. destruct Hin as [(y & -> & (x & Hx & Hy)%list_elem_of_omap)%list_elem_of_fmap
      |(x & Hx & Hy)%list_elem_of_omap]; destruct (get _ x); try done; case_match; by simplify_eq/=. }
  destruct (matching_spec _ event _ I1) as (_ & Hs & _). destruct (Hs ws Hm) as (k & f & Hf & Hmatch).
  destruct (I4 _ _ _ Hf) as (subject & Hsub & Hg).
  destruct (get (registry (hub s)) ws) as [x|] eqn:Hx; [|unfold filters_of in Hf; rewrite Hx in Hf; by apply not_elem_of_nil in Hf].
  exists x, subject. split; [done|]. split; [apply I3 in Hx; congruence|].
  unfold matches, stream_of, recipient_of in Hmatch. destruct (streamId f) as [sid|].
  - destruct Hmatch as [[= ->]|(a & [=] & _)]. left. naive_solver.
  - destruct Hmatch as [[=]|(a & Ha & He)]. right. destruct Hg as [Hg ?]. split; [congruence|done].
Qed.


(** A disconnect releases everything the connection held, once: the client is
    unregistered and out of both indexes, its queue and its batches with their keys
    are gone, its slot is given back to the limiter, the other connections are as
    they were, and a second disconnect changes nothing. *)
Theorem disconnect_releases_everything cut ws (st : OutboundBackpressure S HubRest) state :
  registry_wf cut (registry st) → get (registry st) ws = Some state →
  let st' := onDisconnect ws st in
  get (registry st') ws = None ∧
  (∀ k, ws ∉ members (streamSubscriptions (registry st')) k ∧ ws ∉ members (recipientSubscriptions (registry st')) k) ∧
  jm_get ws (outboundQueues st') = None ∧
  (∀ k acc, (k, acc) ∈ accumulators (hub_batches (bp_rest st')) → starts_with (id state ++ ":")%string k = false) ∧
  hub_limiter (bp_rest st') = untrackConnection (ip state) (authenticatedSubject state) (hub_limiter (bp_rest st)) ∧
  (∀ x, x ≠ ws → get (registry st') x = get (registry st) x ∧ jm_get x (outboundQueues st') = jm_get x (outboundQueues st)) ∧
  onDisconnect ws st' = st'.
Proof.
  intros Hwf Hg st'. destruct (removeAll_spec cut ws (registry st) Hwf) as (Hwf' & Hnil & _).
  assert (registry st' = unregister ws (removeAllSubscriptions ws (registry st))) as Hreg
    by (unfold st'; by rewrite registry_onDisconnect, Hg).
  assert (get (registry st') ws = None) as Hnone by (rewrite Hreg, get_unregister; by rewrite decide_True).
  splits.
  - done.
  - intros k. rewrite Hreg. apply (no_filters_no_members cut _ ws Hwf' Hnil k).
  - unfold st', onDisconnect. rewrite Hg. apply jm_get_delete_eq.
  - intros k acc. unfold st', onDisconnect. rewrite Hg. simpl. intros [Hs _]%list_elem_of_filter. by apply not_true_is_false.
  - unfold st', onDisconnect. by rewrite Hg.
  - intros x Hx. rewrite Hreg, get_unregister, decide_False, get_removeAll_ne by done. split; [done|].
    unfold st', onDisconnect. rewrite Hg. by apply jm_get_delete_ne.
  - unfold onDisconnect at 1. by rewrite Hnone.
Qed.

(** Subscribers get their events: when an event is dispatched to at most one
    chunk of immediate targets whose peers keep up and have nothing queued, every
    connection that holds a matching filter and does not batch is sent the event's
    frame, whatever happens to the batched targets. *)
Theorem dispatch_delivers cut event ambient now healthy (st : OutboundBackpressure S HubRest) ws x :
  registry_wf cut (registry st) → ¬ cut (ev_streamId event) →
  keeps_up healthy (dropBytes st) (terminateBytes st) →
  (length (immediate (resolveTargets event (registry st))) <= FANOUT_YIELD_BATCH)%nat →
  (∀ w, w ∈ immediate (resolveTargets event (registry st)) → healthy (sockets st w) ∧ queue_of st w = []) →
  let message := update_frame payload_json event (match ev_correlationId event with Some c => Some c | None => ambient end) in
  0 < maxOutboundQueuePerConnection config → byteLen message <= maxOutboundQueueBytesPerConnection config →
  get (registry st) ws = Some x → holds (registry st) ws (matches event) → wantsBatching x = false →
  (ws, message) ∈ bp_log (dispatchEvent config payload_json event ambient now st).2.
Proof.
  intros Hwf Hcut Hk Hlen Hh message HQ HB Hg Hm Hw.
  destruct (resolve_targets_spec cut event (registry st) Hwf) as (Hnd & Hb & Hi & Hc).
  set (t := resolveTargets event (registry st)) in *. specialize (Hc ws Hcut Hm).
  assert (ws ∈ immediate t) as Himm.
  { apply elem_of_app in Hc as [([w s] & -> & Hin)%list_elem_of_fmap|?]; [|done]. apply Hb in Hin as (Hg' & Hw' & _).
    simpl in *. congruence. }
  unfold dispatchEvent. fold t. rewrite (bool_decide_false (immediate t = [])), andb_false_r
    by (intros Hn; rewrite Hn in Himm; by apply not_elem_of_nil in Himm).
  cbn [snd]. set (entry := {| be_streamId := _ |}).
  destruct (batched_touch config entry now (batched t) st) as (I1 & I2 & I3 & I4). set (st1 := fold_left _ _ st) in *.
  apply list.NoDup_app in Hnd as (_ & Hdisj & Hnd).
  rewrite (take_ge (immediate t)) by done. unfold deliver_chunk. fold message.
  destruct (deliverBatch_healthy (maxOutboundQueuePerConnection config) (maxOutboundQueueBytesPerConnection config)
    onDisconnect healthy (immediate t) message (ev_streamId event) (ev_eventId event) st1) as [_ ->]; try done.
  - by rewrite I2, I3.
  - intros w Hin. destruct (I1 w) as [-> Hq]; [intros Hin'; by apply (Hdisj w Hin')|]. unfold queue_of. rewrite Hq. by apply Hh.
  - apply elem_of_app. right. apply list_elem_of_fmap. by exists ws.
Qed.
End properties.

(** ** Witnesses *)

Definition sample_config : HubConfig := {|
  maxSubscriptionsPerConnection := 2; maxOutboundQueuePerConnection := 4; maxOutboundQueueBytesPerConnection := 1000;
  batchMaxSize := 10; healthProbeMaxMissed := 3 |}.
Definition sample_json (v : jsval) : option string := Some "{}".
Definition sample_table (s : string) : result string (option Stream) :=
  Ok (Some {| sender_address := "alice"; recipient_address := "bob" |}).

(** Alice connects, asks for the stream, is authorized. *)
Definition hub0 : HubState (S:=unit) := new_hub 4 9 (λ _, tt).
Definition hub1 : HubState (S:=unit) := {|
  hub := onConnect 7%nat "c7" 0 "ip" None (Some "alice") (hub hub0); waiting := [];
  subjects := [(7%nat, Some "alice")]; answers := []; cut := [] |}.
Definition hub2 : HubState (S:=unit) := {|
  hub := hub hub1; waiting := [(CSubscribe, 7%nat, authorize sample_table (registry (hub hub1)) 7%nat sample_filter)];
  subjects := subjects hub1; answers := answer_of sample_table sample_filter; cut := [] |}.
Definition hub3 : HubState (S:=unit) := {|
  hub := handle_authorized sample_config CSubscribe 7%nat (Ok (Ok sample_filter)) (hub hub2); waiting := [];
  subjects := subjects hub2; answers := answers hub2; cut := [] |}.

Lemma sample_run : hub_run sample_config sample_json hub0 hub3.
Proof.
  apply (hub_run_snoc _ _ _ hub2); [apply (hub_run_snoc _ _ _ hub1); [apply (hub_run_snoc _ _ _ hub0); [constructor|]|]|].
  - exact (hub_connect sample_config sample_json hub0 7%nat "c7" 0 "ip" None (Some "alice") eq_refl).
  - exact (hub_authorize sample_config sample_json hub1 CSubscribe 7%nat sample_filter sample_table).
  - exact (hub_authorized sample_config sample_json hub2 0 CSubscribe 7%nat (Ok (Ok sample_filter)) eq_refl).
Qed.

Lemma sample_books : registry_wf (λ x, x ∈ cut hub3) (registry (hub hub3)).
Proof. exact (inv_wf _ _ (inv_hub_run sample_config sample_json _ _ sample_run (inv_new_hub sample_config 4 9 _))). Qed.

Lemma fanout_only_to_authorised_witness :
  immediate (resolveTargets sample_event (registry (hub hub3))) = [7%nat] ∧
  ∃ x subject, get (registry (hub hub3)) 7%nat = Some x ∧ authenticatedSubject x = Some subject ∧
    ((∃ stream, ("s1", stream) ∈ answers hub3 ∧ (sender_address stream = subject ∨ recipient_address stream = subject)) ∨
     (extractRecipientAddress sample_event = Some subject ∧ isValidStellarPublicKey subject = true)).
Proof.
  split; [vm_compute; reflexivity|].
  apply (fanout_only_to_authorised sample_config sample_json 4 9 (λ _, tt) hub3 sample_event 7%nat sample_run).
  vm_compute. left.
Defined.


Lemma disconnect_releases_everything_witness :
  streamSubscribers "s1" (registry (hub hub3)) = [7%nat] ∧ get (registry (onDisconnect 7%nat (hub hub3))) 7%nat = None.
Proof.
  split; [vm_compute; reflexivity|].
  assert (is_Some (get (registry (hub hub3)) 7%nat)) as [x Hx] by (vm_compute; eexists; reflexivity).
  apply (disconnect_releases_everything (λ x, x ∈ cut hub3) 7%nat (hub hub3) x sample_books Hx).
Defined.

Lemma dispatch_delivers_witness :
  let message := update_frame sample_json sample_event None in
  byteLen message <= 1000 ∧ (7%nat, message) ∈ bp_log (dispatchEvent sample_config sample_json sample_event None 5 (hub hub3)).2.
Proof.
  split; [vm_compute; discriminate|].
  assert (is_Some (get (registry (hub hub3)) 7%nat)) as [x Hx] by (vm_compute; eexists; reflexivity).
  apply (dispatch_delivers sample_config sample_json (λ x, x ∈ cut hub3) sample_event None 5 (λ _ : unit, True) (hub hub3) 7%nat x).
  - exact sample_books.
  - apply not_elem_of_nil.
  - apply draining_keeps_up; vm_compute; discriminate.
  - apply Nat.leb_le. vm_compute. reflexivity.
  - intros w _. split; [exact I|vm_compute; reflexivity].
  - reflexivity.
  - vm_compute; discriminate.
  - exact Hx.
  - exists "stream:s1", sample_filter. split; [vm_compute; left|by left].
  - vm_compute in Hx. injection Hx as <-. reflexivity.
Defined.
