(* ===== verification/RpcCache.v ===== *)
(** * The fallback cache of Stellar RPC responses ([src/redis/rpcFallbackCache.ts])

    Keys, envelopes and the Redis and in-memory caches of last-known-good responses.
    SHA-256 is an argument.  A JSON value read back is an [envelope]: a field is
    [None] when it is missing or has another type than the reader asks for. *)
From Stdlib Require Import Ascii ZArith Lia.
From stdpp Require Import base gmap strings list countable.
From S2P Require Import Prelude Redis.
Local Open Scope string_scope.
Local Open Scope list_scope.
Local Open Scope Z_scope.

Definition RPC_FALLBACK_CACHE_PREFIX : string := "rpc:cache::".
Definition RPC_FALLBACK_CACHE_ENVELOPE_VERSION : Z := 1.
Definition RPC_FALLBACK_CACHE_KEY_VERSION : Z := 2.

(** ** Keys *)

(** The class [[A-Za-z0-9._-]]. *)
Definition safe_char (c : ascii) : bool :=
  let n := nat_of_ascii c in
  ((65 <=? n) && (n <=? 90) || (97 <=? n) && (n <=? 122) || (48 <=? n) && (n <=? 57)
   || (n =? 46) || (n =? 95) || (n =? 45))%nat.

Definition SAFE_OPERATION (s : string) : bool := negb (str_empty s) && forallb safe_char (chars s).

Section keys.
Context (sha256 : string → string).

Definition hashCachePart (value : string) : string := sha256 value.

Definition encodeCacheKeyPart (part : string) : result string string :=
  if negb (SAFE_OPERATION part) then Err "RPC fallback cache key part contains unsafe characters"
  else Ok (hashCachePart part).

Definition buildRpcFallbackCacheKey (operation : string) (cacheParts : list string) : result string string :=
  if negb (SAFE_OPERATION operation) then Err "RPC fallback cache operation contains unsafe characters"
  else
    let encodedOperation := hashCachePart operation in
    encodedParts ← result_map_list encodeCacheKeyPart cacheParts;
    Ok (RPC_FALLBACK_CACHE_PREFIX ++ "v" ++ int_string RPC_FALLBACK_CACHE_KEY_VERSION ++ "::op:" ++ encodedOperation
        ++ "::parts:" ++ unchars (join ","%char (chars <$> encodedParts)))%string.
End keys.

(** ** Envelopes *)

Record RpcFallbackCacheEntry (V : Type) : Type := {
  value : V;
  writtenAt : Z;
  expiresAt : Z;
  ttlSeconds : Z;
  refreshDurationMs : Z;
}.
Arguments value {V}. Arguments writtenAt {V}. Arguments expiresAt {V}. Arguments ttlSeconds {V}.
Arguments refreshDurationMs {V}.

Record envelope (V : Type) : Type := {
  env_version : option Z;
  env_value : option V;
  env_writtenAt : option Z;
  env_expiresAt : option Z;
  env_ttlSeconds : option Z;
  env_refreshDurationMs : option Z;
}.
Arguments env_version {V}. Arguments env_value {V}. Arguments env_writtenAt {V}. Arguments env_expiresAt {V}.
Arguments env_ttlSeconds {V}. Arguments env_refreshDurationMs {V}.

Section cache.
Context {V : Type} `{JsonCodec (envelope V)} (sha256 : string → string).
Notation Entry := (RpcFallbackCacheEntry V).
Notation buildCacheKey := (buildRpcFallbackCacheKey sha256).

(** The entry of a value that passes [isCacheEnvelope]. *)
Definition isCacheEnvelope (e : envelope V) : option Entry :=
  if bool_decide (env_version e = Some RPC_FALLBACK_CACHE_ENVELOPE_VERSION) then
    match env_value e, env_writtenAt e, env_expiresAt e, env_ttlSeconds e, env_refreshDurationMs e with
    | Some v, Some w, Some x, Some t, Some d =>
        Some {| value := v; writtenAt := w; expiresAt := x; ttlSeconds := t; refreshDurationMs := d |}
    | _, _, _, _, _ => None
    end
  else None.

Definition createCacheEnvelope (v : V) (ttl : Z) (nowMs : Z) (refreshDuration : option Z) : envelope V := {|
  env_version := Some RPC_FALLBACK_CACHE_ENVELOPE_VERSION;
  env_value := Some v;
  env_writtenAt := Some nowMs;
  env_expiresAt := Some (nowMs + ttl * 1000);
  env_ttlSeconds := Some ttl;
  env_refreshDurationMs := Some (Z.max 1 (default 1 refreshDuration)) |}.

Definition parseCacheEntry (raw : string) : option Entry := of_json raw ≫= isCacheEnvelope.
Definition parseCachedValue (raw : string) : option V := value <$> parseCacheEntry raw.

(** ** The Redis cache *)

Definition redis_get (operation : string) (cacheParts : list string) : prog (result string (option V)) :=
  match buildCacheKey operation cacheParts with
  | Err e => Ret (Err e)
  | Ok key =>
      awaiting (RGet key) (λ e, Ret (Err e)) (λ raw,
        match raw with
        | None => Ret (Ok None)
        | Some raw =>
            match parseCachedValue raw with
            | None => awaiting (RDel key) (λ e, Ret (Err e)) (λ _, Ret (Ok None))
            | Some v => Ret (Ok (Some v))
            end
        end)
  end.

Definition redis_getEntry (operation : string) (cacheParts : list string) : prog (result string (option Entry)) :=
  match buildCacheKey operation cacheParts with
  | Err e => Ret (Err e)
  | Ok key =>
      awaiting (RGet key) (λ _, Ret (Ok None)) (λ raw,
        match raw with
        | None => Ret (Ok None)
        | Some raw =>
            match parseCacheEntry raw with
            | None => awaiting (RDel key) (λ _, Ret (Ok None)) (λ _, Ret (Ok None))
            | Some e => Ret (Ok (Some e))
            end
        end)
  end.

Definition redis_setEntry (operation : string) (v : V) (ttl : Z) (cacheParts : list string)
    (nowMs : Z) (refreshDuration : option Z) : prog (result string unit) :=
  match buildCacheKey operation cacheParts with
  | Err e => Ret (Err e)
  | Ok key =>
      if ttl <? 1 then Ret (Ok tt)
      else awaiting (RSet key (to_json (createCacheEnvelope v ttl nowMs refreshDuration)) ttl)
             (λ _, Ret (Ok tt)) (λ _, Ret (Ok tt))
  end.

(** ** The in-memory cache *)

Notation memory := (list (string * (string * Z))).

(** The live entry of a key; an expired one is deleted. *)
Definition memory_lookup (now : Z) (key : string) (m : memory) : option string * memory :=
  match jm_get key m with
  | None => (None, m)
  | Some (raw, x) => if x <=? now then (None, jm_delete key m) else (Some raw, m)
  end.

Definition memory_get (now : Z) (operation : string) (cacheParts : list string) (m : memory)
    : result string (option V) * memory :=
  match buildCacheKey operation cacheParts with
  | Err e => (Err e, m)
  | Ok key => let '(raw, m) := memory_lookup now key m in (Ok (raw ≫= parseCachedValue), m)
  end.

Definition memory_getEntry (now : Z) (operation : string) (cacheParts : list string) (m : memory)
    : result string (option Entry) * memory :=
  match buildCacheKey operation cacheParts with
  | Err e => (Err e, m)
  | Ok key => let '(raw, m) := memory_lookup now key m in (Ok (raw ≫= parseCacheEntry), m)
  end.

Definition memory_setEntry (now : Z) (operation : string) (v : V) (ttl : Z) (cacheParts : list string)
    (refreshDuration : option Z) (m : memory) : result string unit * memory :=
  match buildCacheKey operation cacheParts with
  | Err e => (Err e, m)
  | Ok key => (Ok tt, jm_set key (to_json (createCacheEnvelope v ttl now refreshDuration), now + ttl * 1000) m)
  end.
End cache.

(** ** Keys determine what they were built from *)

(** Words of one positive length are determined by their join. *)
Lemma join_fixed_inj sep n l1 l2 : n ≠ 0%nat →
  Forall (λ w, length w = n) l1 → Forall (λ w, length w = n) l2 → join sep l1 = join sep l2 → l1 = l2.
Proof.
  intros Hn H1. revert l2. induction H1 as [|w1 l1 Hw1 H1 IH]; intros l2 H2.
  - destruct H2 as [|w2 l2 Hw2 H2]; [done|]. destruct w2; [simpl in *; lia|by destruct l2].
  - destruct H2 as [|w2 l2 Hw2 H2]; [destruct w1; [simpl in *; lia|by destruct l1]|].
    intros Hj. assert (∀ w l, length (join sep (w :: l)) = n → length w = n → l = []) as Hlen.
    { intros w [|w' l]; [done|]. cbn [join]. rewrite length_app. simpl. lia. }
    destruct l1 as [|x1 l1].
    { change (join sep [w1]) with w1 in Hj. assert (l2 = []) as -> by (apply (Hlen w2); [rewrite <-Hj; lia|done]).
      simpl in Hj. by f_equal. }
    destruct l2 as [|x2 l2].
    { exfalso. assert (x1 :: l1 = []) as [=]. apply (Hlen w1); [|lia]. rewrite Hj. simpl. lia. }
    cbn [join] in Hj. apply app_inj_1 in Hj as [-> Hj]; [|lia]. injection Hj as Hj. f_equal. by apply IH.
Qed.

Lemma encode_parts_Ok sha ps es : result_map_list (encodeCacheKeyPart sha) ps = Ok es → es = sha <$> ps.
Proof.
  revert es. induction ps as [|p ps IH]; intros es; cbn [result_map_list]; [by intros [= <-]|].
  unfold encodeCacheKeyPart at 1. destruct (negb _); [done|]. destruct (result_map_list _ ps) as [es'|]; [|done].
  intros [= <-]. rewrite fmap_cons. f_equal. by apply IH.
Qed.

Lemma key_Ok sha op ps key : buildRpcFallbackCacheKey sha op ps = Ok key →
  key = (RPC_FALLBACK_CACHE_PREFIX ++ "v" ++ int_string RPC_FALLBACK_CACHE_KEY_VERSION ++ "::op:" ++ sha op
         ++ "::parts:" ++ unchars (join ","%char (chars <$> (sha <$> ps))))%string.
Proof.
  unfold buildRpcFallbackCacheKey. destruct (negb _); [done|].
  destruct (result_map_list _ ps) as [es|] eqn:Hes; [|done]. intros [= <-]. by rewrite (encode_parts_Ok _ _ _ Hes).
Qed.

(** What SHA-256 is assumed to do on the strings in use: 64 digits, no collision. *)
Record sha_good (sha : string → string) (used : list string) : Prop := {
  sha_length s : s ∈ used → length (chars (sha s)) = 64%nat;
  sha_inj x y : x ∈ used → y ∈ used → sha x = sha y → x = y;
}.

Lemma key_inj sha used op1 ps1 op2 ps2 key :
  sha_good sha used → op1 ∈ used → op2 ∈ used → ps1 ⊆ used → ps2 ⊆ used →
  buildRpcFallbackCacheKey sha op1 ps1 = Ok key → buildRpcFallbackCacheKey sha op2 ps2 = Ok key →
  op1 = op2 ∧ ps1 = ps2.
Proof.
  intros [Hlen Hinj] Ho1 Ho2 Hp1 Hp2 ->%key_Ok H2%key_Ok. do 4 apply app_inv_prefix in H2.
  apply app_inv_length in H2 as [Ho Hp]; [|by rewrite !Hlen]. apply app_inv_prefix in Hp.
  apply (f_equal chars) in Hp. rewrite !chars_unchars in Hp.
  assert (∀ ps, ps ⊆ used → Forall (λ w, length w = 64%nat) (chars <$> (sha <$> ps))) as Hall.
  { intros ps Hps. apply Forall_fmap, Forall_fmap, list.Forall_forall. intros x Hx. simpl. apply Hlen. by apply Hps. }
  apply (join_fixed_inj _ 64) in Hp; [|done|by apply Hall|by apply Hall].
  split; [by apply Hinj|]. clear Ho Hall. revert ps2 Hp2 Hp. induction ps1 as [|x ps1 IH]; intros [|y ps2] Hp2; try done.
  intros [= Hx Hr]. assert (sha x = sha y) as Hxy by (by rewrite <-(unchars_chars (sha x)), Hx, unchars_chars).
  assert (x = y) as -> by (apply Hinj; [apply Hp1; left|apply Hp2; left|done]). f_equal.
  apply IH; [intros z Hz; apply Hp1; by right|intros z Hz; apply Hp2; by right|done].
Qed.

(** ** The Redis cache alone is the in-memory cache *)

Section equivalence.
Context {R V : Type} `{RedisLaws R} `{JsonCodec (envelope V)} (sha : string → string).
Implicit Types (r : R) (m : list (string * (string * Z))).

Inductive cache_op : Type :=
| CacheGet (operation : string) (cacheParts : list string)
| CacheGetEntry (operation : string) (cacheParts : list string)
| CacheSet (operation : string) (v : V) (ttl : Z) (cacheParts : list string) (refreshDuration : option Z).

Inductive cache_reply : Type :=
| GotValue (x : result string (option V))
| GotEntry (x : result string (option (RpcFallbackCacheEntry V)))
| Stored (x : result string unit).

Definition memory_op (t : Z) (o : cache_op) m : cache_reply * list (string * (string * Z)) :=
  match o with
  | CacheGet op ps => let '(x, m) := memory_get sha t op ps m in (GotValue x, m)
  | CacheGetEntry op ps => let '(x, m) := memory_getEntry sha t op ps m in (GotEntry x, m)
  | CacheSet op v ttl ps d => let '(x, m) := memory_setEntry sha t op v ttl ps d m in (Stored x, m)
  end.

Definition redis_op (t : Z) (o : cache_op) r : cache_reply * R :=
  match o with
  | CacheGet op ps => let '(x, r) := run t (redis_get sha op ps) r in (GotValue x, r)
  | CacheGetEntry op ps => let '(x, r) := run t (redis_getEntry sha op ps) r in (GotEntry x, r)
  | CacheSet op v ttl ps d => let '(x, r) := run t (redis_setEntry sha op v ttl ps t d) r in (Stored x, r)
  end.

Fixpoint memory_ops (os : list (Z * cache_op)) m : list cache_reply :=
  match os with [] => [] | (t, o) :: os => let '(x, m) := memory_op t o m in x :: memory_ops os m end.
Fixpoint redis_ops (os : list (Z * cache_op)) r : list cache_reply :=
  match os with [] => [] | (t, o) :: os => let '(x, r) := redis_op t o r in x :: redis_ops os r end.

(** The operations come in the order of the clock, and times to live are positive. *)
Fixpoint ops_ordered (t : Z) (os : list (Z * cache_op)) : Prop :=
  match os with
  | [] => True
  | (t', o) :: os => t <= t' ∧ (match o with CacheSet _ _ ttl _ _ => 1 <= ttl | _ => True end) ∧ ops_ordered t' os
  end.

Lemma parse_create v ttl now d : ∃ e, parseCacheEntry (to_json (createCacheEnvelope v ttl now d)) = Some e ∧
  value e = v ∧ writtenAt e = now.
Proof. eexists. unfold parseCacheEntry. rewrite of_to_json. simpl. unfold isCacheEnvelope. simpl. by split. Qed.

(** From time [t] on the server shows the live part of the map, which holds entries only. *)
Record cache_sim (t : Z) m r : Prop := {
  cs_view op ps key t' : buildRpcFallbackCacheKey sha op ps = Ok key → t <= t' →
    srv_view t' r key = match jm_get key m with Some (raw, x) => if t' <? x then Some raw else None | None => None end;
  cs_entry key raw x : jm_get key m = Some (raw, x) → ∃ e, parseCacheEntry raw = Some e;
}.

Lemma sim_later t t' m r : t <= t' → cache_sim t m r → cache_sim t' m r.
Proof. intros Ht [S1 S2]. split; [|done]. intros op ps key u Hk Hu. eapply S1; [exact Hk|lia]. Qed.

Lemma sim_lookup t m r op ps key : cache_sim t m r → buildRpcFallbackCacheKey sha op ps = Ok key →
  srv_view t r key = (memory_lookup t key m).1 ∧ cache_sim t (memory_lookup t key m).2 r ∧
  (∀ raw, srv_view t r key = Some raw → ∃ e, parseCacheEntry raw = Some e).
Proof.
  intros Hs Hk. rewrite (cs_view _ _ _ Hs op ps key t Hk) by lia. unfold memory_lookup.
  destruct (jm_get key m) as [[raw x]|] eqn:Hm; [|by split].
  destruct (Z.leb_spec x t); cmp; try lia; simpl.
  - split; [done|]. split; [|done]. split.
    + intros op' ps' key' t' Hk' Ht. rewrite (cs_view _ _ _ Hs op' ps' key' t' Hk' Ht).
      destruct (decide (key = key')) as [<-|Hne]; [|by rewrite jm_get_delete_ne].
      rewrite Hm, jm_get_delete_eq. cmp; [lia|done].
    + intros key' raw' x'. destruct (decide (key = key')) as [<-|Hne]; [by rewrite jm_get_delete_eq|].
      rewrite jm_get_delete_ne by done. apply (cs_entry _ _ _ Hs).
  - split; [done|]. split; [done|]. intros raw' [= <-]. by eapply (cs_entry _ _ _ Hs).
Qed.

Lemma sim_op t o m r : cache_sim t m r → (match o with CacheSet _ _ ttl _ _ => 1 <= ttl | _ => True end) →
  (redis_op t o r).1 = (memory_op t o m).1 ∧ cache_sim t (memory_op t o m).2 (redis_op t o r).2.
Proof.
  intros Hs Ho. destruct o as [op ps|op ps|op v ttl ps d]; cbn [redis_op memory_op].
  - unfold redis_get, memory_get. destruct (buildRpcFallbackCacheKey sha op ps) as [key|e] eqn:Hk; [|done].
    destruct (sim_lookup t m r op ps key Hs Hk) as (Hv & Hs' & He). rewrite run_get.
    destruct (memory_lookup t key m) as [raw m']. simpl in Hv, Hs'. rewrite Hv in *. destruct raw as [raw|]; [|done].
    destruct (He raw eq_refl) as [e Hp]. unfold parseCachedValue. simpl. unfold parseCachedValue. by rewrite Hp.
  - unfold redis_getEntry, memory_getEntry. destruct (buildRpcFallbackCacheKey sha op ps) as [key|e] eqn:Hk; [|done].
    destruct (sim_lookup t m r op ps key Hs Hk) as (Hv & Hs' & He). rewrite run_get.
    destruct (memory_lookup t key m) as [raw m']. simpl in Hv, Hs'. rewrite Hv in *. destruct raw as [raw|]; [|done].
    destruct (He raw eq_refl) as [e Hp]. simpl. by rewrite Hp.
  - unfold redis_setEntry, memory_setEntry. destruct (buildRpcFallbackCacheKey sha op ps) as [key|e] eqn:Hk; [|done].
    destruct (Z.ltb_spec ttl 1); [lia|]. rewrite run_awaiting by (simpl; cmp; lia || done). unfold run. cbn [fst snd].
    split; [done|]. set (raw := to_json _). split.
    + intros op' ps' key' t' Hk' Ht. rewrite law_set by done. case_decide as Hd.
      * subst. rewrite jm_get_set_eq. by rewrite (Z.mul_comm ttl).
      * rewrite jm_get_set_ne by done. by apply (cs_view _ _ _ Hs op' ps').
    + intros key' raw' x'. destruct (decide (key = key')) as [<-|Hne].
      * rewrite jm_get_set_eq. intros [= <- _]. destruct (parse_create v ttl t d) as (e & He & _). by exists e.
      * rewrite jm_get_set_ne by done. apply (cs_entry _ _ _ Hs).
Qed.

(** The Redis cache used alone answers every clock-ordered history of reads and
    writes with positive times to live exactly as the in-memory cache does:
    expiry, replacement, unsafe keys and all. *)
Theorem redis_cache_is_memory_cache t os r :
  (∀ op ps key t', buildRpcFallbackCacheKey sha op ps = Ok key → t <= t' → srv_view t' r key = None) →
  ops_ordered t os → redis_ops os r = memory_ops os [].
Proof.
  intros Hr. assert (cache_sim t [] r) as Hs.
  { split; [|done]. intros op ps key t' Hk Ht. by apply (Hr op ps). }
  clear Hr. revert t r Hs. generalize (@nil (string * (string * Z))) as m.
  induction os as [|[t' o] os IH]; intros m t r Hs Ho; [done|]. destruct Ho as (Ht & Hok & Ho).
  cbn [redis_ops memory_ops]. destruct (sim_op t' o m r (sim_later _ _ _ _ Ht Hs) Hok) as [Hx Hs'].
  destruct (redis_op t' o r) as [x r'], (memory_op t' o m) as [y m']. simpl in *. subst. f_equal. by eapply IH.
Qed.

End equivalence.

(** ** Witness *)

#[export] Instance envelope_eq_dec {V} `{EqDecision V} : EqDecision (envelope V).
Proof. solve_decision. Defined.
#[export] Instance envelope_countable {V} `{Countable V} : Countable (envelope V).
Proof.
  refine (inj_countable' (λ e, (env_version e, env_value e, env_writtenAt e, env_expiresAt e, env_ttlSeconds e, env_refreshDurationMs e))
    (λ '(a, b, c, d, e, f), {| env_version := a; env_value := b; env_writtenAt := c; env_expiresAt := d; env_ttlSeconds := e;
                               env_refreshDurationMs := f |}) _).
  by intros [].
Defined.

Definition sample_history : list (Z * cache_op (V:=Z)) :=
  [(0, CacheSet "getLatestLedger" 41 1 [] None); (400, CacheGet "getLatestLedger" []);
   (900, CacheSet "getLatestLedger" 42 1 [] (Some 7)); (1400, CacheGetEntry "getLatestLedger" []);
   (1900, CacheGetEntry "getLatestLedger" []); (1901, CacheGet "bad operation" [])].

Lemma redis_cache_is_memory_cache_witness :
  ops_ordered 0 sample_history ∧
  redis_ops (R:=gredis) (λ s, s) sample_history ∅ = memory_ops (λ s, s) sample_history [].
Proof.
  assert (ops_ordered 0 sample_history) as Ho by (vm_compute; repeat split; discriminate).
  split; [exact Ho|]. apply (redis_cache_is_memory_cache (R:=gredis) (V:=Z) (λ s, s) 0 sample_history ∅); [|exact Ho].
  intros op ps key t' _ _. reflexivity.
Defined.
