(* ===== verification/StellarRpc.v ===== *)
(** * The Stellar RPC service ([src/services/stellar-rpc.ts])

    Failure classification, the circuit breaker, the provider health check, and the
    call through breaker and fallback cache as a program over [RpcCache]: a call may
    be interleaved with others of the process, which share the breaker, and of other
    processes, which share the Redis server.

    How the raw call of the client ends (result, error, timeout or cancellation) is
    an argument of a call; so is the random number of the early-expiry test.  Metrics,
    logs and the trace header are left out. *)
From Stdlib Require Import Ascii ZArith QArith Lia Lqa.
From stdpp Require Import base gmap strings list countable.
From S2P Require Import Prelude Redis Retry RpcCache.
Local Open Scope string_scope.
Local Open Scope list_scope.
Local Open Scope Z_scope.

(** ** Errors *)

Inductive CircuitState : Type := CLOSED | OPEN | HALF_OPEN.
Inductive RpcFailureKind : Type := TIMEOUT | NETWORK | PROVIDER | CIRCUIT_OPEN | CANCELLED.
#[export] Instance circuit_state_eq_dec : EqDecision CircuitState.
Proof. solve_decision. Defined.
#[export] Instance failure_kind_eq_dec : EqDecision RpcFailureKind.
Proof. solve_decision. Defined.

Record ProviderError : Type := {
  pe_message : string;
  pe_kind : RpcFailureKind;
  pe_statusCode : option Z;
  pe_durationMs : option Z;
}.

(** What a call can throw.  [RawError] is any other error, with the properties the
    classifier looks at. *)
Inductive RpcError : Type :=
| RpcProviderError (e : ProviderError)
| CircuitOpenError
| RpcFallbackExhaustedError (operation : string) (ageMs maxAgeMs : Z)
| RawError (code : option string) (statusCode status : option Z) (message : string).

Definition NETWORK_ERROR_CODES : list string :=
  ["ECONNREFUSED"; "ECONNRESET"; "ENOTFOUND"; "ETIMEDOUT"; "EHOSTUNREACH"; "ENETUNREACH"; "ECONNABORTED"].

Definition lower_ascii (c : ascii) : ascii :=
  let n := nat_of_ascii c in if ((65 <=? n) && (n <=? 90))%nat then ascii_of_nat (n + 32) else c.

Fixpoint is_prefix (p l : text) : bool :=
  match p, l with
  | [], _ => true
  | c :: p, d :: l => bool_decide (c = d) && is_prefix p l
  | _, [] => false
  end.
Fixpoint is_infix (p l : text) : bool :=
  is_prefix p l || match l with [] => false | _ :: l => is_infix p l end.
(** The message matches one of the words, in any case. *)
Definition mentions (words : list string) (message : string) : bool :=
  existsb (λ w, is_infix (chars w) (lower_ascii <$> chars message)) words.

Definition error_message (e : RpcError) : string :=
  match e with
  | RpcProviderError e => pe_message e
  | CircuitOpenError => "Stellar RPC circuit breaker is OPEN — calls suspended during cool-off period"
  | RpcFallbackExhaustedError op age max =>
      ("Stellar RPC fallback cache entry for " ++ dquote ++ op ++ dquote ++ " is " ++ int_string age
       ++ "ms old, exceeding the maximum fallback age of " ++ int_string max ++ "ms — refusing to serve stale data")
  | RawError _ _ _ message => message
  end%string.

(** The properties [code], [statusCode] and [status] of an error. *)
Definition error_code (err : RpcError) : option string := match err with RawError code _ _ _ => code | _ => None end.
Definition error_status (err : RpcError) : option Z :=
  match err with RawError _ (Some s) _ _ => Some s | RawError _ None s _ => s | _ => None end.

Definition classifyError (err : RpcError) : RpcFailureKind :=
  match err with
  | RpcProviderError e => pe_kind e
  | CircuitOpenError => CIRCUIT_OPEN
  | _ =>
      if existsb (λ c, bool_decide (error_code err = Some c)) NETWORK_ERROR_CODES then NETWORK
      else match error_status err with
           | Some _ => PROVIDER
           | None =>
               if mentions ["timeout"; "time out"; "timedout"; "timed out"] (error_message err) then TIMEOUT
               else if mentions ["network"; "connection"; "socket"] (error_message err) then NETWORK
               else PROVIDER
           end
  end.

Definition isRetryableRpcError (err : RpcError) : bool :=
  match err with
  | RpcProviderError e =>
      if bool_decide (pe_kind e = TIMEOUT) || bool_decide (pe_kind e = NETWORK) then true
      else if negb (bool_decide (pe_kind e = PROVIDER)) then false
      else if bool_decide (pe_statusCode e = Some 429) then true
      else match pe_statusCode e with Some s => 500 <=? s | None => false end
  | _ => false
  end.

(** ** The circuit breaker *)

Record BreakerOptions : Type := { failureThreshold : Z; windowMs : Z; resetTimeoutMs : Z }.
Definition breaker_options (threshold window reset : option Z) : BreakerOptions := {|
  failureThreshold := default 5 threshold; windowMs := default 30000 window; resetTimeoutMs := default 60000 reset |}.

Record CircuitBreaker : Type := { cb_state : CircuitState; failures : list Z; openedAt : Z }.
Definition new_breaker : CircuitBreaker := {| cb_state := CLOSED; failures := []; openedAt := 0 |}.

Section breaker.
Context (opts : BreakerOptions).

Definition evictOldFailures (now : Z) (b : CircuitBreaker) : CircuitBreaker :=
  {| cb_state := cb_state b; failures := filter (λ t, now - windowMs opts <= t) (failures b); openedAt := openedAt b |}.

Definition getFailureCount (now : Z) (b : CircuitBreaker) : nat * CircuitBreaker :=
  let b := evictOldFailures now b in (length (failures b), b).

(** [call] up to [fn()]: whether the call is admitted. *)
Definition call_begin (now : Z) (b : CircuitBreaker) : bool * CircuitBreaker :=
  let b := evictOldFailures now b in
  match cb_state b with
  | OPEN =>
      if resetTimeoutMs opts <=? now - openedAt b
      then (true, {| cb_state := HALF_OPEN; failures := failures b; openedAt := openedAt b |})
      else (false, b)
  | _ => (true, b)
  end.

Definition onSuccess (b : CircuitBreaker) : CircuitBreaker :=
  {| cb_state := CLOSED; failures := []; openedAt := openedAt b |}.

Definition onFailure (now : Z) (b : CircuitBreaker) : CircuitBreaker :=
  let fs := failures b ++ [now] in
  if failureThreshold opts <=? Z.of_nat (length fs)
  then {| cb_state := OPEN; failures := fs; openedAt := now |}
  else {| cb_state := cb_state b; failures := fs; openedAt := openedAt b |}.

(** [call] after [fn()]. *)
Definition call_end (now : Z) (succeeded : bool) (b : CircuitBreaker) : CircuitBreaker :=
  if succeeded then onSuccess b else onFailure now b.

Definition reset (b : CircuitBreaker) : CircuitBreaker := new_breaker.
End breaker.

(** ** Provider health *)

Record Health : Type := {
  healthy : bool;
  lastHealthyAt : option Z;
  lastHealthError : option string;
  consecutiveHealthFailures : Z;
}.
Definition new_health : Health :=
  {| healthy := true; lastHealthyAt := None; lastHealthError := None; consecutiveHealthFailures := 0 |}.

(** One tick of the loop of [startHealthCheck]; [ping] is the outcome of the raw call. *)
Definition health_tick (healthCheckFailureThreshold now : Z) (ping : result string unit) (h : Health) : Health :=
  match ping with
  | Ok _ => {| healthy := true; lastHealthyAt := Some now; lastHealthError := None; consecutiveHealthFailures := 0 |}
  | Err e =>
      let n := consecutiveHealthFailures h + 1 in
      {| healthy := if healthCheckFailureThreshold <=? n then false else healthy h;
         lastHealthyAt := lastHealthyAt h; lastHealthError := Some e; consecutiveHealthFailures := n |}
  end.

(** ** Calls with a deadline *)

Definition resolveDeadline (callTimeoutMs : option Z) (operationDeadlines : list (string * Z)) (timeoutMs : Z)
    (operation : string) : Z :=
  match callTimeoutMs with Some t => t | None => default timeoutMs (jm_get operation operationDeadlines) end.

(** What settles the promise of [callWithTimeout] first. *)
Inductive Settled (V : Type) : Type :=
| Resolved (v : V)
| Rejected (e : RpcError)
| TimerFired
| Aborted.
Arguments Resolved {V}. Arguments Rejected {V}. Arguments TimerFired {V}. Arguments Aborted {V}.

Definition error_statusCode (e : RpcError) : option Z :=
  match e with RpcProviderError e => pe_statusCode e | RawError _ s _ _ => s | _ => None end.

Definition callWithTimeout {V} (operation : string) (timeoutMs : Z) (alreadyAborted : bool) (durationMs : Z)
    (s : Settled V) : result ProviderError V :=
  let cancelled d := {| pe_message := (operation ++ " was cancelled")%string; pe_kind := CANCELLED;
                        pe_statusCode := None; pe_durationMs := Some d |} in
  if alreadyAborted then Err (cancelled 0)
  else match s with
       | Resolved v => Ok v
       | TimerFired => Err {| pe_message := (operation ++ " timed out after " ++ int_string timeoutMs ++ "ms")%string;
                              pe_kind := TIMEOUT; pe_statusCode := None; pe_durationMs := Some durationMs |}
       | Aborted => Err (cancelled durationMs)
       | Rejected (RpcProviderError e) => Err e
       | Rejected e => Err {| pe_message := error_message e; pe_kind := classifyError e;
                              pe_statusCode := error_statusCode e; pe_durationMs := Some durationMs |}
       end.

(** The retried operation of [getLatestLedger] and [accountExists]. *)
Definition retry_options (maxRetries retryDelayMs : Z) : JitteredRetryOptions := {|
  baseDelayMs := retryDelayMs; maxDelayMs := retryDelayMs * 5; maxAttempts := maxRetries + 1;
  jitterAlgorithm := None; jitterPercent := None; previousDelayMs := None |}.

Definition retried {V} (maxRetries retryDelayMs : Z) (operation : Z → result RpcError V) (rnd : Z → Q)
    : option (result RpcError V * list Z) :=
  withJitteredRetry operation (retry_options maxRetries retryDelayMs) isRetryableRpcError None rnd.

(** One attempt of [accountExists]: the outcome of [fetch] is the HTTP status. *)
Definition account_exists_attempt (horizonUrl : option string) (fetch : result RpcError Z) : result RpcError bool :=
  match horizonUrl with
  | None | Some "" | Some "/" => Err (RpcProviderError {| pe_message := "horizonUrl not configured on RPC client";
                              pe_kind := PROVIDER; pe_statusCode := None; pe_durationMs := None |})
  | Some _ =>
      status ← fetch;
      if status =? 200 then Ok true
      else if status =? 404 then Ok false
      else Err (RpcProviderError {| pe_message := ("Horizon returned HTTP " ++ int_string status ++ " for account lookup")%string;
                                    pe_kind := PROVIDER; pe_statusCode := Some status; pe_durationMs := None |})
  end.

(** ** The service *)

Record ServiceOptions : Type := {
  so_breaker : BreakerOptions;
  so_cacheTtlSeconds : Z;
  so_earlyExpiryBeta : Q;
  so_cacheMaxAgeMs : Z;
}.

(** The constructor's defaults and bounds. *)
Definition service_options (b : BreakerOptions) (ttlSeconds : option Z) (beta : option Q) (maxAgeMs : option Z)
    : ServiceOptions := {|
  so_breaker := b;
  so_cacheTtlSeconds := default 300 ttlSeconds;
  so_earlyExpiryBeta := if Qle_bool 0 (default 0%Q beta) then default 0%Q beta else 0%Q;
  so_cacheMaxAgeMs := Z.max 1 (default 300000 maxAgeMs) |}.

(** The state of one process: the breaker, the refreshes under way, and the ones
    launched that have not settled yet, with the time of their start ([None] when
    the breaker refused them). *)
Record Service : Type := {
  breaker : CircuitBreaker;
  earlyRefreshes : list string;
  launched : list (string * option Z);
}.
Definition set_breaker (b : CircuitBreaker) (s : Service) : Service :=
  {| breaker := b; earlyRefreshes := earlyRefreshes s; launched := launched s |}.

(** Where a result came from; a stale one with its age. *)
Inductive Source : Type := Fresh | Cached | Stale (ageMs : Z).

Definition buildRefreshKey (operation : string) (cacheParts : list string) : string :=
  operation ++ "::" ++ unchars (match chars <$> cacheParts with
                                | [] => []
                                | p :: ps => p ++ mjoin ((λ q, ":"%char :: ":"%char :: q) <$> ps)
                                end).

(** [shouldEarlyRefresh]; [negLog] is [-Math.log(uniform)]. *)
Definition shouldEarlyRefresh {V} (entry : RpcFallbackCacheEntry V) (beta : Q) (nowMs : Z) (negLog : Q) : bool :=
  if Qle_bool beta 0 then false
  else if expiresAt entry <=? nowMs then true
  else Qle_bool (inject_Z (expiresAt entry))
         (inject_Z nowMs + beta * inject_Z (Z.max 1 (refreshDurationMs entry)) * negLog).

Section service.
Context {V : Type} `{JsonCodec (envelope V)} (sha256 : string → string) (opts : ServiceOptions).
Notation getEntry := (redis_getEntry (V:=V) sha256).
Notation setEntry := (redis_setEntry (V:=V) sha256).
Notation result_of_call := (result RpcError (V * Source)).

Definition key_error (e : string) : RpcError := RawError None None None e.

(** [breaker.call] of the service up to [fn()], at time [t]; an admitted call knows
    when it started. *)
Definition begin_call (t : Z) (s : Service) : option Z * Service :=
  let '(admitted, b) := call_begin (so_breaker opts) t (breaker s) in
  (if admitted then Some t else None, set_breaker b s).
Definition settle_call (succeeded : bool) (t : Z) (s : Service) : Z * Service :=
  (t, set_breaker (call_end (so_breaker opts) t succeeded (breaker s)) s).
Definition read_clock (t : Z) (s : Service) : Z * Service := (t, s).

Definition writeFallbackCache {A} (operation : string) (v : V) (cacheParts : list string) (startedAt : Z)
    (k : result string unit → hprog Service A) : hprog Service A :=
  HMem read_clock (λ now,
    redis_calls (setEntry operation v (so_cacheTtlSeconds opts) cacheParts now (Some (now - startedAt))) k).

(** [startEarlyRefresh]: at most one refresh of a key is under way. *)
Definition startEarlyRefresh (operation : string) (cacheParts : list string) (t : Z) (s : Service) : Service :=
  let refreshKey := buildRefreshKey operation cacheParts in
  if bool_decide (refreshKey ∈ earlyRefreshes s) then s
  else let '(started, s) := begin_call t s in
       {| breaker := breaker s; earlyRefreshes := earlyRefreshes s ++ [refreshKey];
          launched := launched s ++ [(refreshKey, started)] |}.

(** The first launched refresh of a key leaves the list. *)
Definition take_launched (refreshKey : string) (s : Service) : option (option Z) * Service :=
  (jm_get refreshKey (launched s),
   {| breaker := breaker s; earlyRefreshes := earlyRefreshes s; launched := jm_delete refreshKey (launched s) |}).
Definition refresh_done (refreshKey : string) (s : Service) : Service :=
  {| breaker := breaker s; earlyRefreshes := filter (λ k, k ≠ refreshKey) (earlyRefreshes s); launched := launched s |}.

(** A launched refresh: the promise chain of [startEarlyRefresh].  Its result is
    reported to nobody. *)
Definition earlyRefresh {A} (operation : string) (cacheParts : list string) (outcome : result ProviderError V) (done : A)
    : hprog Service A :=
  let refreshKey := buildRefreshKey operation cacheParts in
  let finally := HMem (λ _ s, (tt, refresh_done refreshKey s)) (λ _, HRet done) in
  HMem (λ _ s, take_launched refreshKey s) (λ l,
    match l with
    | None => HRet done
    | Some None => finally
    | Some (Some startedAt) =>
        HMem (settle_call (is_ok outcome)) (λ _,
          match outcome with
          | Ok v => writeFallbackCache operation v cacheParts startedAt (λ _, finally)
          | Err _ => finally
          end)
    end).

(** The [try] and [catch] of [callWithFallbackCache]. *)
Definition guarded_call (operation : string) (cacheParts : list string) (outcome : result ProviderError V)
    : hprog Service result_of_call :=
  HMem begin_call (λ started,
    match started with
    | Some startedAt =>
        HMem (settle_call (is_ok outcome)) (λ _,
          match outcome with
          | Ok v => writeFallbackCache operation v cacheParts startedAt (λ w,
              match w with Ok _ => HRet (Ok (v, Fresh)) | Err e => HRet (Err (key_error e)) end)
          | Err e => HRet (Err (RpcProviderError e))
          end)
    | None =>
        redis_calls (getEntry operation cacheParts) (λ entry,
          match entry with
          | Err e => HRet (Err (key_error e))
          | Ok None => HRet (Err CircuitOpenError)
          | Ok (Some entry) =>
              HMem read_clock (λ now,
                let ageMs := Z.max 0 (now - writtenAt entry) in
                if so_cacheMaxAgeMs opts <? ageMs
                then HRet (Err (RpcFallbackExhaustedError operation ageMs (so_cacheMaxAgeMs opts)))
                else HRet (Ok (value entry, Stale ageMs)))
          end)
    end).

Definition uses_cache (s : Service) : bool :=
  bool_decide (cb_state (breaker s) = CLOSED) && negb (Qle_bool (so_earlyExpiryBeta opts) 0).

Definition callWithFallbackCache (operation : string) (cacheParts : list string) (negLog : Q)
    (outcome : result ProviderError V) : hprog Service result_of_call :=
  HMem (λ _ s, (uses_cache s, s)) (λ cache,
    if cache : bool then
      redis_calls (getEntry operation cacheParts) (λ cached,
        match cached with
        | Err e => HRet (Err (key_error e))
        | Ok None => guarded_call operation cacheParts outcome
        | Ok (Some entry) =>
            HMem (λ t s, (tt, if shouldEarlyRefresh entry (so_earlyExpiryBeta opts) t negLog
                              then startEarlyRefresh operation cacheParts t s else s))
              (λ _, HRet (Ok (value entry, Cached)))
        end)
    else guarded_call operation cacheParts outcome).
End service.

(** ** Histories of the breaker *)

Section histories.
Context (opts : BreakerOptions).
Implicit Types (b : CircuitBreaker).

(** Beginnings and ends of calls, in the order of the clock. *)
Inductive breaker_event : Type := Begin | End (succeeded : bool).

(** The answers to the beginnings, and the breaker. *)
Fixpoint breaker_run (evs : list (Z * breaker_event)) b : list bool * CircuitBreaker :=
  match evs with
  | [] => ([], b)
  | (t, Begin) :: evs =>
      let '(a, b) := call_begin opts t b in let '(l, b) := breaker_run evs b in (a :: l, b)
  | (t, End ok) :: evs => breaker_run evs (call_end opts t ok b)
  end.

(** Calls one after the other: begin, end and outcome of each. *)
Definition sequential_call (c : Z * Z * bool) b : bool * CircuitBreaker :=
  let '(tb, te, ok) := c in
  let '(a, b) := call_begin opts tb b in (a, if a : bool then call_end opts te ok b else b).

Fixpoint sequential (h : list (Z * Z * bool)) b : list bool * CircuitBreaker :=
  match h with
  | [] => ([], b)
  | c :: h => let '(a, b) := sequential_call c b in let '(l, b) := sequential h b in (a :: l, b)
  end.

(** Calls in clock order, each beginning more than [gap] after the last one ended. *)
Fixpoint spaced (gap : Z) (last : Z) (h : list (Z * Z * bool)) : Prop :=
  match h with [] => True | (tb, te, _) :: h => last + gap <= tb /\ tb <= te /\ spaced gap te h end.

Lemma begin_admitted t b : cb_state b ≠ OPEN ∨ resetTimeoutMs opts <= t - openedAt b →
  call_begin opts t b = (true, {| cb_state := (if decide (cb_state b = CLOSED) then CLOSED else HALF_OPEN);
    failures := filter (λ f, t - windowMs opts <= f) (failures b); openedAt := openedAt b |}).
Proof.
  intros Hb. unfold call_begin, evictOldFailures. destruct b as [[] fs o]; simpl in *; try done.
  destruct (Z.leb_spec (resetTimeoutMs opts) (t - o)); [done|]. destruct Hb; [done|lia].
Qed.

Lemma filter_old (c : Z) (l : list Z) : (∀ f, f ∈ l → f < c) → filter (λ f, c <= f) l = [].
Proof.
  induction l as [|x l IH]; intros Hl; [done|]. rewrite filter_cons, decide_False.
  - apply IH. intros f Hf. apply Hl. by right.
  - specialize (Hl x ltac:(left)). lia.
Qed.

Lemma filter_filter_le (c d : Z) (l : list Z) : c <= d → filter (λ f, d <= f) (filter (λ f, c <= f) l) = filter (λ f, d <= f) l.
Proof.
  intros Hcd. induction l as [|x l IH]; [done|]. rewrite (filter_cons (λ f, c <= f)), (filter_cons (λ f, d <= f) x l).
  case_decide; [rewrite filter_cons; by rewrite IH|]. rewrite decide_False by lia. exact IH.
Qed.

(** A failure in the half-open state with few failures on record. *)
Lemma probe_fails t tb te b : cb_state b ≠ CLOSED → (cb_state b ≠ OPEN ∨ resetTimeoutMs opts <= tb - openedAt b) →
  Z.of_nat (length (filter (λ f, tb - windowMs opts <= f) (failures b))) + 1 < failureThreshold opts →
  t = te →
  sequential_call (tb, te, false) b =
    (true, {| cb_state := HALF_OPEN; failures := filter (λ f, tb - windowMs opts <= f) (failures b) ++ [te];
              openedAt := openedAt b |}).
Proof.
  intros Hc Ho Hn ->. unfold sequential_call. rewrite begin_admitted by done. rewrite decide_False by done.
  unfold call_end, onFailure. cbn [failures]. rewrite length_app. simpl.
  destruct (Z.leb_spec (failureThreshold opts) (Z.of_nat (length (filter (λ f, tb - windowMs opts <= f) (failures b)) + 1))); [lia|done].
Qed.

Lemma few_probes h b n last :
  cb_state b = HALF_OPEN → Z.of_nat (length (failures b)) <= n → n + Z.of_nat (length h) < failureThreshold opts →
  Forall (λ c, c.2 = false) h → spaced 0 last h →
  (sequential h b).1 = replicate (length h) true ∧ cb_state (sequential h b).2 = HALF_OPEN.
Proof.
  revert b n last. induction h as [|[[tb te] ok] h IH]; intros b n last Hs Hn Ht Hf Hsp; [done|].
  apply list.Forall_cons in Hf as [Hok Hf]. simpl in Hok. subst ok. destruct Hsp as (_ & _ & Hsp).
  pose proof (length_filter (λ f, tb - windowMs opts <= f) (failures b)) as Hl. cbn [length] in Ht.
  cbn [sequential]. rewrite (probe_fails te tb te b) by (rewrite ?Hs; auto; lia).
  set (b1 := {| cb_state := _ |}). destruct (IH b1 (n + 1) te) as [H1 H2]; [done| |lia|done|done|].
  - unfold b1. cbn [failures]. rewrite length_app. simpl. lia.
  - destruct (sequential h b1) as [l b2]. simpl in *. by rewrite H1.
Qed.

Lemma spaced_probes h b last :
  cb_state b = HALF_OPEN → (∀ f, f ∈ failures b → f <= last) → 1 < failureThreshold opts → 0 <= windowMs opts →
  Forall (λ c, c.2 = false) h → spaced (windowMs opts + 1) last h →
  (sequential h b).1 = replicate (length h) true ∧ cb_state (sequential h b).2 = HALF_OPEN.
Proof.
  revert b last. induction h as [|[[tb te] ok] h IH]; intros b last Hs Hl Ht Hw Hf Hsp; [done|].
  apply list.Forall_cons in Hf as [Hok Hf]. simpl in Hok. subst ok. destruct Hsp as (Hb & He & Hsp).
  assert (filter (λ f, tb - windowMs opts <= f) (failures b) = []) as Hnil.
  { apply filter_old. intros f Hf1. specialize (Hl f Hf1). lia. }
  cbn [sequential]. rewrite (probe_fails te tb te b) by (rewrite ?Hs, ?Hnil; simpl; auto; lia). rewrite Hnil.
  set (b1 := {| cb_state := _ |}). destruct (IH b1 te) as [H1 H2]; [done| |done|done|done|done|].
  - intros f Hf1. unfold b1 in Hf1. cbn [failures app] in Hf1. apply list_elem_of_singleton in Hf1. lia.
  - destruct (sequential h b1) as [l b2]. simpl in *. by rewrite H1.
Qed.

(** ** The count the breaker trips on *)

(** The ends of the failed calls since the last success. *)
Definition since_success (h : list (Z * Z * bool)) : list Z :=
  fold_left (λ l c, if c.2 : bool then [] else l ++ [c.1.2]) h [].

Definition since_from (l : list Z) (h : list (Z * Z * bool)) : list Z :=
  fold_left (λ l c, if c.2 : bool then [] else l ++ [c.1.2]) h l.

(** A closed breaker remembers the failures a later call may count. *)
Definition remembers (acc : list Z) b (lb : Z) : Prop :=
  cb_state b = CLOSED → ∀ c, lb - windowMs opts <= c → filter (λ f, c <= f) (failures b) = filter (λ f, c <= f) acc.

Lemma remembers_call acc b lb tb te (ok : bool) : remembers acc b lb → lb <= tb →
  remembers (if ok then [] else acc ++ [te]) (sequential_call (tb, te, ok) b).2 tb.
Proof.
  intros Hr Hle. unfold sequential_call. destruct (decide (cb_state b = OPEN ∧ tb - openedAt b < resetTimeoutMs opts)) as [[Ho Ht]|Hn].
  - unfold call_begin. cbn [evictOldFailures cb_state openedAt]. rewrite Ho.
    destruct (Z.leb_spec (resetTimeoutMs opts) (tb - openedAt b)); [lia|]. intros Hc. simpl in Hc. congruence.
  - rewrite begin_admitted by (destruct (decide (cb_state b = OPEN)); [right|by left];
      destruct (Z.lt_ge_cases (tb - openedAt b) (resetTimeoutMs opts)); [tauto|lia]).
    destruct ok; [by intros _ c _|]. cbn [snd]. unfold call_end, onFailure. cbn [failures cb_state openedAt].
    destruct (_ <=? _); [intros Hc; simpl in Hc; done|]. intros Hc c Hcb. simpl in Hc. cbn [failures].
    case_decide as Hcl; [|done]. rewrite !list.filter_app, filter_filter_le by lia. f_equal. apply (Hr Hcl). lia.
Qed.

Lemma trips_from h acc b lb tb te (ok : bool) : remembers acc b lb → spaced 0 lb (h ++ [(tb, te, ok)]) →
  cb_state (sequential h b).2 = CLOSED →
  cb_state (sequential (h ++ [(tb, te, ok)]) b).2 =
    if negb ok && (failureThreshold opts <=? Z.of_nat (S (length (filter (λ f, tb - windowMs opts <= f) (since_from acc h)))))
    then OPEN else CLOSED.
Proof.
  revert acc b lb. induction h as [|[[tb1 te1] ok1] h IH]; intros acc b lb Hr Hsp Hc.
  - destruct Hsp as (Hle & _). simpl in Hc. cbn [app sequential]. unfold sequential_call.
    rewrite begin_admitted by (left; congruence). rewrite Hc, decide_True by done. unfold call_end. destruct ok; [done|].
    unfold onFailure. cbn [failures cb_state openedAt negb andb]. rewrite (Hr Hc) by lia. rewrite length_app, Nat.add_comm. simpl.
    by destruct (_ <=? _).
  - destruct Hsp as (Hle & Hte & Hsp). cbn [app sequential] in *.
    pose proof (remembers_call acc b lb tb1 te1 ok1 Hr ltac:(lia)) as Hr'.
    destruct (sequential_call (tb1, te1, ok1) b) as [a b1]. cbn [snd] in Hr'.
    assert (spaced 0 tb1 (h ++ [(tb, te, ok)])) as Hsp'.
    { clear -Hsp Hte. destruct h as [|[[? ?] ?] h]; simpl in *; lia || (destruct Hsp as (? & ? & ?); repeat split; auto; lia). }
    specialize (IH _ b1 tb1 Hr' Hsp').
    destruct (sequential h b1) as [l b2], (sequential (h ++ [(tb, te, ok)]) b1) as [l' b3]. simpl in *. by apply IH.
Qed.

(** ** An open breaker *)
Lemma open_run evs b : cb_state b = OPEN →
  Forall (λ e, openedAt b <= e.1 < openedAt b + resetTimeoutMs opts ∧ e.2 ≠ End true) evs →
  Forall (λ a, a = false) (breaker_run evs b).1 ∧ cb_state (breaker_run evs b).2 = OPEN.
Proof.
  revert b. assert (∀ lo b, cb_state b = OPEN → lo <= openedAt b →
    Forall (λ e, lo <= e.1 < lo + resetTimeoutMs opts ∧ e.2 ≠ End true) evs →
    Forall (λ a, a = false) (breaker_run evs b).1 ∧ cb_state (breaker_run evs b).2 = OPEN) as Hgen.
  { intros lo. induction evs as [|[t e] evs IH]; intros b Hs Hlo Hf; [done|].
    apply list.Forall_cons in Hf as [[Ht He] Hf]. simpl in Ht, He. destruct e as [|[]]; [| done|]; cbn [breaker_run].
    - unfold call_begin. cbn [evictOldFailures cb_state openedAt]. rewrite Hs.
      destruct (Z.leb_spec (resetTimeoutMs opts) (t - openedAt b)); [lia|].
      set (b1 := evictOldFailures opts t b). destruct (IH b1) as [H1 H2]; [done..|].
      destruct (breaker_run evs b1). simpl in *. split; [by apply Forall_cons_2|done].
    - apply IH; [| |done]; unfold call_end, onFailure; destruct (_ <=? _); simpl; done || lia. }
  intros b Hs Hf. by apply (Hgen (openedAt b)).
Qed.
End histories.

(** ** Where fallback values come from *)

(** A call of the service by one process, or a background refresh it launched,
    with the way its raw call ends. *)
Record rpc_call (V : Type) : Type := {
  rc_process : nat;
  rc_operation : string;
  rc_parts : list string;
  rc_negLog : Q;
  rc_outcome : result ProviderError V;
  rc_refresh : bool;
}.
Arguments rc_process {V}. Arguments rc_operation {V}. Arguments rc_parts {V}. Arguments rc_negLog {V}.
Arguments rc_outcome {V}. Arguments rc_refresh {V}.

Section provenance.
Context {R V : Type} `{RedisLaws R} `{JsonCodec (envelope V)} (sha : string → string) (opts : ServiceOptions).
Context (calls : list (rpc_call V)).
Implicit Types (c : rpc_call V) (r : R).

Definition program_of c : hprog Service (result RpcError (V * Source)) :=
  if rc_refresh c then earlyRefresh sha opts (rc_operation c) (rc_parts c) (rc_outcome c) (Err CircuitOpenError)
  else callWithFallbackCache sha opts (rc_operation c) (rc_parts c) (rc_negLog c) (rc_outcome c).

Definition rpc_pool : list (nat * hprog Service (result RpcError (V * Source))) :=
  (λ c, (rc_process c, program_of c)) <$> calls.

(** The raw call of some call with this operation and these parts returned [v]. *)
Definition fetched (op : string) (ps : list string) (v : V) : Prop :=
  ∃ c, c ∈ calls ∧ rc_operation c = op ∧ rc_parts c = ps ∧ rc_outcome c = Ok v.

Definition key_strings : list string := calls ≫= λ c, rc_operation c :: rc_parts c.
Context (Hsha : sha_good sha key_strings).

(** The server holds only fetched values, written in the past. *)
Definition honest (t : Z) r : Prop := ∀ c key t' raw, c ∈ calls →
  buildRpcFallbackCacheKey sha (rc_operation c) (rc_parts c) = Ok key → t <= t' → srv_view t' r key = Some raw →
  ∃ e, parseCacheEntry raw = Some e ∧ fetched (rc_operation c) (rc_parts c) (value e) ∧ writtenAt e <= t.

Lemma honest_later t t' r : t <= t' → honest t r → honest t' r.
Proof.
  intros Ht Hr c key u raw Hc Hk Hu Hv. destruct (Hr c key u raw Hc Hk ltac:(lia) Hv) as (e & He & Hf & Hw).
  exists e. splits; [done|done|lia].
Qed.

Lemma used_strings c : c ∈ calls → rc_operation c ∈ key_strings ∧ rc_parts c ⊆ key_strings.
Proof.
  intros Hc. split; [|intros s Hs]; apply list_elem_of_bind; exists c; (split; [|done]); [left|by right].
Qed.

Lemma honest_set t t0 r c key v d : c ∈ calls → rc_outcome c = Ok v → t0 <= t →
  buildRpcFallbackCacheKey sha (rc_operation c) (rc_parts c) = Ok key → honest t r →
  honest t (srv_exec t (RSet key (to_json (createCacheEnvelope v (so_cacheTtlSeconds opts) t0 d)) (so_cacheTtlSeconds opts)) r).2.
Proof.
  intros Hc Hv Ht0 Hk Hr c' key' t' raw Hc' Hk' Ht. rewrite law_set by done. case_decide as Hd; [|by apply Hr].
  destruct (_ <? _); [|done]. intros [= <-]. subst key'.
  destruct (used_strings c Hc), (used_strings c' Hc').
  destruct (key_inj sha key_strings (rc_operation c) (rc_parts c) (rc_operation c') (rc_parts c') key) as [Ho Hp]; try done.
  destruct (parse_create v (so_cacheTtlSeconds opts) t0 d) as (e & He & Hve & Hw). exists e. splits; [done| |lia].
  exists c. rewrite Hve. done.
Qed.

Lemma reply_getEntry t f key r : (reply t f (RGet key) r).2 = r ∧
  ((reply t f (RGet key) r).1 = Ok (srv_view t r key) ∨ ∃ e, (reply t f (RGet key) r).1 = Err e).
Proof. unfold reply. simpl. destruct f; rewrite ?law_get; simpl; eauto. Qed.

Notation safe := (hsafe honest (λ (_ : Z) (_ : Service), True)).
Notation Result := (result RpcError (V * Source)).

Lemma safe_getEntry (Q : Result → Prop) lo c k : c ∈ calls →
  (∀ t x, lo <= t → (∀ e, x = Ok (Some e) → fetched (rc_operation c) (rc_parts c) (value e)) → safe Q t (k x)) →
  safe Q lo (redis_calls (redis_getEntry sha (rc_operation c) (rc_parts c)) k).
Proof.
  intros Hc Hk. unfold redis_getEntry. destruct (buildRpcFallbackCacheKey _ _ _) as [key|e] eqn:Hkey; [|apply Hk; [lia|done]].
  cbn [redis_calls awaiting hsafe]. intros t f r Ht Hr. destruct (reply_getEntry t f key r) as [-> Hx]. split; [done|].
  destruct Hx as [-> | [e ->]]; [|apply Hk; [lia|done]].
  destruct (srv_view t r key) as [raw|] eqn:Hv; [|apply Hk; [lia|done]].
  destruct (Hr c key t raw Hc Hkey ltac:(lia) Hv) as (e & -> & Hf & _). apply Hk; [lia|]. by intros ? [= <-].
Qed.

Lemma safe_write (Q : Result → Prop) lo c v t0 k : c ∈ calls → rc_outcome c = Ok v →
  (∀ t x, lo <= t → safe Q t (k x)) →
  safe Q lo (writeFallbackCache sha opts (rc_operation c) v (rc_parts c) t0 k).
Proof.
  intros Hc Hv Hk. unfold writeFallbackCache. cbn [hsafe]. intros now s Hnow _. split; [done|]. unfold redis_setEntry.
  destruct (buildRpcFallbackCacheKey _ _ _) as [key|e] eqn:Hkey; [|apply Hk; simpl; lia].
  destruct (_ <? 1); [apply Hk; simpl; lia|]. cbn [read_clock fst redis_calls awaiting hsafe]. intros t f r Ht Hr.
  assert (∀ x : result string unit, safe Q t (redis_calls match x with Ok _ | Err _ => Ret (Ok tt) end k)) as Hrest
    by (intros [[]|]; apply Hk; lia).
  unfold reply. destruct (client_accepts _); [|by split].
  pose proof (honest_set t now r c key v (Some (now - t0)) Hc Hv Ht Hkey Hr) as Hset.
  destruct f; [destruct (srv_exec _ _ r) as [x r1]; by split|by split|by split].
Qed.

(** What a finished call may return. *)
Definition returns c (x : Result) : Prop :=
  rc_refresh c = false → ∀ v src, x = Ok (v, src) →
    fetched (rc_operation c) (rc_parts c) v ∧
    match src with Fresh => rc_outcome c = Ok v | Cached => True | Stale age => 0 <= age <= so_cacheMaxAgeMs opts end.

Lemma safe_guarded lo c : c ∈ calls → safe (returns c) lo (guarded_call sha opts (rc_operation c) (rc_parts c) (rc_outcome c)).
Proof.
  intros Hc. unfold guarded_call. cbn [hsafe]. intros t s _ _. split; [done|].
  destruct (begin_call opts t s) as [[t0|] s1]; cbn [fst].
  - intros t1 s2 _ _. split; [done|]. destruct (rc_outcome c) as [v|e] eqn:Ho; [|by intros ? ? ?].
    apply safe_write; [done|done|]. intros t2 [[]|e] _; intros ? v' src; [|done].
    intros [= <- <-]. split; [by exists c|done].
  - apply safe_getEntry; [done|]. intros t1 [[e|]|e] _ Hx; [|done|done]. cbn [hsafe]. intros now s2 Hn _. split; [done|].
    cbn [read_clock fst]. destruct (Z.ltb_spec (so_cacheMaxAgeMs opts) (Z.max 0 (now - writtenAt e))); intros ? v src; [done|].
    intros [= <- <-]. split; [by apply Hx|lia].
Qed.

Lemma safe_call lo c : c ∈ calls → safe (returns c) lo (program_of c).
Proof.
  intros Hc. unfold program_of. destruct (rc_refresh c) eqn:Hrf.
  - assert (∀ t, safe (returns c) t (HMem (λ _ s, (tt, refresh_done (buildRefreshKey (rc_operation c) (rc_parts c)) s))
      (λ _, HRet (Err CircuitOpenError)))) as Hfin.
    { intros t. cbn [hsafe]. intros t' s _ _. split; [done|]. intros Hf. congruence. }
    unfold earlyRefresh. cbn [hsafe]. intros t s _ _. split; [done|]. destruct (take_launched _ s) as [[[t0|]|] s1]; cbn [fst].
    + intros t1 s2 _ _. split; [done|]. destruct (rc_outcome c) as [v|e] eqn:Ho; [|apply Hfin].
      apply safe_write; [done|done|]. intros. apply Hfin.
    + apply Hfin.
    + intros Hf. congruence.
  - unfold callWithFallbackCache. cbn [hsafe]. intros t s _ _. split; [done|]. cbn [fst].
    destruct (uses_cache opts s); [|by apply safe_guarded]. apply safe_getEntry; [done|].
    intros t1 [[e|]|e] _ Hx; [|by apply safe_guarded|done]. cbn [hsafe]. intros t2 s2 _ _. split; [done|].
    intros _ v src [= <- <-]. split; [by apply Hx|done].
Qed.
End provenance.

(** ** Health *)

(** The number of failed ticks since the last good one. *)
Definition failing_suffix (h : list (Z * result string unit)) : Z :=
  fold_left (λ n x, match x.2 with Ok _ => 0 | Err _ => n + 1 end) h 0.
Definition health_run (threshold : Z) (h : list (Z * result string unit)) : Health :=
  fold_left (λ s x, health_tick threshold x.1 x.2 s) h new_health.

Lemma health_run_spec threshold h : 1 <= threshold →
  consecutiveHealthFailures (health_run threshold h) = failing_suffix h ∧
  healthy (health_run threshold h) = negb (threshold <=? failing_suffix h).
Proof.
  intros Ht. unfold health_run, failing_suffix. induction h as [|[t x] h IH] using rev_ind; simpl.
  - split; [done|]. by destruct (Z.leb_spec threshold 0); [lia|].
  - rewrite !fold_left_app. simpl. destruct IH as [IH1 IH2]. destruct x as [|e]; simpl.
    + split; [done|]. by destruct (Z.leb_spec threshold 0); [lia|].
    + rewrite IH1. split; [done|]. rewrite IH2. destruct (Z.leb_spec threshold (fold_left (λ n x, match x.2 with Ok _ => 0 | Err _ => n + 1 end) h 0 + 1)); [done|].
      by destruct (Z.leb_spec threshold (fold_left (λ n x, match x.2 with Ok _ => 0 | Err _ => n + 1 end) h 0)); [lia|].
Qed.

(** ** Properties *)

(** The fallback cache serves only what the network once answered: in every
    interleaving of calls and background refreshes of any number of processes on a
    shared Redis server, whatever commands fail, the value of a call was fetched by
    some call with the same operation and parameters, by the call itself when it is
    fresh, and a stale value is never older than the configured maximum. *)
Theorem fallback_serves_fetched_values {R V} `{RedisLaws R} `{JsonCodec (envelope V)} sha opts (calls : list (rpc_call V))
    lo hi ss (r : R) ps' ss' r' i j c v src :
  sha_good sha (key_strings calls) →
  (∀ c key t, c ∈ calls → buildRpcFallbackCacheKey sha (rc_operation c) (rc_parts c) = Ok key → lo <= t → srv_view t r key = None) →
  hpool_steps (λ _, True) lo hi (rpc_pool sha opts calls, ss, r) (ps', ss', r') →
  calls !! i = Some c → rc_refresh c = false → ps' !! i = Some (j, HRet (Ok (v, src))) →
  fetched calls (rc_operation c) (rc_parts c) v ∧
  match src with Fresh => rc_outcome c = Ok v | Cached => True | Stale age => 0 <= age <= so_cacheMaxAgeMs opts end.
Proof.
  intros Hsha Hr Hsteps Hc Hrf Hi.
  destruct (hpool_safe (honest sha calls) (λ _ _, True) (λ _, True)
    (λ i x, ∀ c, calls !! i = Some c → returns opts calls c x) lo hi (rpc_pool sha opts calls) ss r (ps', ss', r'))
    as (t & _ & Hp & _); try done.
  - intros t t' s Ht. by apply honest_later.
  - intros k l p Hk. unfold rpc_pool in Hk. rewrite list_lookup_fmap in Hk. destruct (calls !! k) as [c'|] eqn:Hc'; [|done].
    injection Hk as <- <-. pose proof (safe_call sha opts calls Hsha lo c' ltac:(by eapply list_elem_of_lookup_2)) as Hs.
    revert Hs. apply hsafe_weaken. by intros x Hx ? [= <-].
  - intros c' key t' raw Hc' Hk Ht Hv. by rewrite (Hr c' key t' Hc' Hk Ht) in Hv.
  - exact (Hp i j _ Hi c Hc Hrf v src eq_refl).
Qed.

(** The breaker trips exactly at its threshold: in any sequence of calls one
    after the other, as long as it is closed, it opens on a failed call if and only
    if that call and the failures since the last success that lie within the window
    before its begin reach the threshold. *)
Theorem rpc_breaker_trips_exactly opts t0 h tb te ok :
  spaced 0 t0 (h ++ [(tb, te, ok)]) → cb_state (sequential opts h new_breaker).2 = CLOSED →
  cb_state (sequential opts (h ++ [(tb, te, ok)]) new_breaker).2 =
    if negb ok && (failureThreshold opts <=? Z.of_nat (S (length (filter (λ f, tb - windowMs opts <= f) (since_success h)))))
    then OPEN else CLOSED.
Proof. intros Hsp Hc. apply (trips_from opts h [] new_breaker t0 tb te ok); [by intros _ c _|done|done]. Qed.

(** While it is open no call reaches the provider: until the reset time has
    passed every call is refused, whatever calls admitted before fail meanwhile. *)
Theorem rpc_open_blocks opts evs b :
  cb_state b = OPEN →
  Forall (λ e, openedAt b <= e.1 < openedAt b + resetTimeoutMs opts ∧ e.2 ≠ End true) evs →
  Forall (λ a, a = false) (breaker_run opts evs b).1 ∧ cb_state (breaker_run opts evs b).2 = OPEN.
Proof. apply open_run. Qed.

(** A failed probe does not reopen the breaker: when the window is shorter than
    the reset time, as with the defaults, the failures that tripped it are forgotten
    by the time of the probe, so fewer calls than the threshold, and any number of
    calls spaced by more than the window, all reach the dead provider. *)
Theorem failed_probe_does_not_reopen opts b h :
  cb_state b = OPEN → (∀ f, f ∈ failures b → f <= openedAt b) →
  0 <= windowMs opts < resetTimeoutMs opts → 1 < failureThreshold opts →
  Forall (λ c, c.2 = false) h → spaced (resetTimeoutMs opts) (openedAt b) (firstn 1 h) →
  (Z.of_nat (length h) < failureThreshold opts ∧ spaced 0 (openedAt b) h) ∨ spaced (windowMs opts + 1) (openedAt b) h →
  (sequential opts h b).1 = replicate (length h) true ∧ (h ≠ [] → cb_state (sequential opts h b).2 = HALF_OPEN).
Proof.
  intros Hs Hl Hw Ht Hf H1 Hsp. destruct h as [|[[tb te] ok] h]; [done|].
  apply list.Forall_cons in Hf as [Hok Hf]. simpl in Hok. subst ok. destruct H1 as (Htb & Hte & _).
  assert (filter (λ f, tb - windowMs opts <= f) (failures b) = []) as Hnil.
  { apply filter_old. intros f Hf1. specialize (Hl f Hf1). lia. }
  cbn [sequential]. rewrite (probe_fails opts te tb te b) by (rewrite ?Hs, ?Hnil; simpl; auto; lia). rewrite Hnil.
  set (b1 := {| cb_state := _ |}).
  assert ((sequential opts h b1).1 = replicate (length h) true ∧ cb_state (sequential opts h b1).2 = HALF_OPEN) as [H2 H3].
  { destruct Hsp as [[Hn (_ & _ & Hsp)]|(_ & _ & Hsp)].
    - apply (few_probes opts h b1 1 te); try done. simpl in Hn. lia.
    - apply (spaced_probes opts h b1 te); try done; [|lia]. intros f Hf1. apply list_elem_of_singleton in Hf1. lia. }
  destruct (sequential opts h b1) as [l b2]. simpl in *. by rewrite H2.
Qed.

(** The provider counts as unhealthy exactly while at least the threshold of
    health checks in a row have failed, however long the loop has run. *)
Theorem health_reflects_history threshold h :
  1 <= threshold → (healthy (health_run threshold h) = false ↔ threshold <= failing_suffix h).
Proof.
  intros Ht. rewrite (proj2 (health_run_spec threshold h Ht)).
  destruct (Z.leb_spec threshold (failing_suffix h)); simpl; split; intros; done || lia.
Qed.

(** ** Witnesses *)

Definition defaults : BreakerOptions := breaker_options None None None.
Definition sample_opts : ServiceOptions := service_options defaults None None None.
Definition sample_service : Service := {| breaker := new_breaker; earlyRefreshes := []; launched := [] |}.
(** A digest, for the one string it is applied to. *)
Definition sample_sha (s : string) : string := unchars (replicate 64 "0"%char).
Definition ledger_call : rpc_call Z := {|
  rc_process := 0%nat; rc_operation := "getLatestLedger"; rc_parts := []; rc_negLog := 0%Q;
  rc_outcome := Ok 41; rc_refresh := false |}.

Lemma sample_sha_good : sha_good sample_sha (key_strings [ledger_call]).
Proof.
  split; [reflexivity|]. intros x y Hx Hy _. change (key_strings [ledger_call]) with ["getLatestLedger"] in *.
  apply list_elem_of_singleton in Hx, Hy. congruence.
Qed.

Lemma fallback_serves_fetched_values_witness :
  fetched [ledger_call] "getLatestLedger" [] 41 ∧ rc_outcome ledger_call = Ok 41.
Proof.
  eapply (fallback_serves_fetched_values (R:=gredis) sample_sha sample_opts [ledger_call] 0 10 [sample_service] ∅
    [(0%nat, HRet (Ok (41, Fresh)))] _ _ 0%nat 0%nat ledger_call 41 Fresh).
  - exact sample_sha_good.
  - intros c key t _ _ _. reflexivity.
  - call_step 1 (@NoFault) 0%nat. call_step 1 (@NoFault) 0%nat. call_step 3 (@NoFault) 0%nat. call_step 3 (@NoFault) 0%nat.
    call_step 4 (@NoFault) 0%nat. apply hsteps_nil.
  - reflexivity.
  - reflexivity.
  - reflexivity.
Defined.

Definition failing_calls : list (Z * Z * bool) := [(0, 10, false); (20, 30, false); (40, 50, false); (60, 70, false)].

Lemma rpc_breaker_trips_exactly_witness :
  cb_state (sequential defaults (failing_calls ++ [(80, 90, false)]) new_breaker).2 = OPEN.
Proof.
  rewrite (rpc_breaker_trips_exactly defaults 0 failing_calls 80 90 false).
  - vm_compute. reflexivity.
  - repeat split; vm_compute; discriminate.
  - vm_compute. reflexivity.
Defined.

Definition tripped : CircuitBreaker := {| cb_state := OPEN; failures := [10; 30; 50; 70; 90]; openedAt := 90 |}.

Lemma rpc_open_blocks_witness :
  cb_state (breaker_run defaults [(100, Begin); (150, End false); (60089, Begin)] tripped).2 = OPEN.
Proof.
  apply (rpc_open_blocks defaults [(100, Begin); (150, End false); (60089, Begin)] tripped).
  - reflexivity.
  - repeat constructor; vm_compute; discriminate.
Defined.

Lemma failed_probe_does_not_reopen_witness :
  (sequential defaults [(60090, 65090, false); (65091, 65092, false); (65093, 70000, false); (70001, 75000, false)] tripped).1
    = [true; true; true; true].
Proof.
  apply (failed_probe_does_not_reopen defaults tripped
    [(60090, 65090, false); (65091, 65092, false); (65093, 70000, false); (70001, 75000, false)]).
  - reflexivity.
  - intros f Hf. assert (Forall (λ f, f <= openedAt tripped) (failures tripped)) as Ha
      by (repeat constructor; vm_compute; discriminate).
    exact (proj1 (list.Forall_forall _ _) Ha f Hf).
  - split; vm_compute; done.
  - reflexivity.
  - repeat constructor.
  - repeat split; vm_compute; discriminate.
  - left. split; [reflexivity|]. repeat split; vm_compute; discriminate.
Defined.

Lemma health_reflects_history_witness :
  healthy (health_run 2 [(0, Err "down"); (5, Ok tt); (10, Err "down"); (15, Err "down")]) = false.
Proof. apply (health_reflects_history 2); vm_compute; discriminate. Defined.
