(* ===== verification/Effects.v ===== *)
(** * Programs over an external service

    A method that awaits commands of a service is a tree of commands whose
    continuation receives the reply ([eff]).  What a command can do to the service
    and reply is a relation, so delays, faults and stale reads are choices of the
    environment.  [eff_steps] interleaves the commands of concurrent calls, and
    [safe] and [owned] prove a call correct against what the others may do; [certain] proves
    that a call alone ends, and in what. *)
From Stdlib Require Import Lia.
From stdpp Require Import base list relations.
From S2P Require Import Prelude.

Inductive eff (C : Type → Type) (A : Type) : Type :=
| Done (a : A)
| Do {X : Type} (c : C X) (k : X → eff C A).
Arguments Done {C A} a.
Arguments Do {C A X} c k.

Fixpoint eff_then {C A B} (p : eff C A) (f : A → eff C B) : eff C B :=
  match p with Done a => f a | Do c k => Do c (λ x, eff_then (k x) f) end.

#[export] Instance eff_ret {C} : MRet (eff C) := λ A a, Done a.
#[export] Instance eff_bind {C} : MBind (eff C) := λ A B f p, eff_then p f.

(** One command. *)
Definition ask {C X} (c : C X) : eff C X := Do c Done.

(** [await]ing a call that may throw: the exception is passed on. *)
Definition try_bind {C E A B} (p : eff C (result E A)) (f : A → eff C (result E B)) : eff C (result E B) :=
  eff_then p (λ r, match r with Ok a => f a | Err e => Done (Err e) end).

(** The same call where more commands are available. *)
Fixpoint embed {C C' A} (f : ∀ X, C X → C' X) (p : eff C A) : eff C' A :=
  match p with Done a => Done a | Do c k => Do (f _ c) (λ x, embed f (k x)) end.

Section pools.
Context {C : Type → Type} {W : Type} (step : ∀ X, C X → W → X → W → Prop).

Inductive eff_step {A} : list (eff C A) * W → list (eff C A) * W → Prop :=
| eff_step_at i ps X (c : C X) k w x w' :
    ps !! i = Some (Do c k) → step _ c w x w' → eff_step (ps, w) (<[i := k x]> ps, w').

Definition eff_steps {A} : list (eff C A) * W → list (eff C A) * W → Prop := rtc eff_step.

(** The call alone. *)
Fixpoint runs {A} (p : eff C A) (w : W) (a : A) (w' : W) : Prop :=
  match p with
  | Done b => b = a ∧ w = w'
  | Do c k => ∃ x w1, step _ c w x w1 ∧ runs (k x) w1 a w'
  end.

Lemma runs_then {A B} (p : eff C A) (f : A → eff C B) w b w' :
  runs (eff_then p f) w b w' ↔ ∃ a w1, runs p w a w1 ∧ runs (f a) w1 b w'.
Proof.
  revert w. induction p as [a|X c k IH]; intros w; simpl; [naive_solver|].
  setoid_rewrite IH. naive_solver.
Qed.

Lemma runs_steps {A} (p : eff C A) w a w' : runs p w a w' → eff_steps ([p], w) ([Done a], w').
Proof.
  revert w. induction p as [b|X c k IH]; intros w; simpl; [by intros [<- <-]|]. intros (x & w1 & Hst & Hr).
  eapply rtc_l; [exact (eff_step_at 0 [Do c k] X c k w x w1 eq_refl Hst)|by apply IH].
Qed.

(** ** A call alone, whatever the environment answers

    The service can always answer, and the call ends in [Q]. *)
Fixpoint certain {A} (Q : A → W → Prop) (p : eff C A) (w : W) : Prop :=
  match p with
  | Done a => Q a w
  | Do c k => (∃ x w', step _ c w x w') ∧ ∀ x w', step _ c w x w' → certain Q (k x) w'
  end.

Lemma certain_runs {A} (Q : A → W → Prop) p w : certain Q p w → (∃ a w', runs p w a w') ∧ ∀ a w', runs p w a w' → Q a w'.
Proof.
  revert w. induction p as [a|X c k IH]; intros w; simpl; [intros HQ; split; [by exists a, w|by intros b w' [<- <-]]|].
  intros [(x & w1 & Hst) Hk]. split.
  - destruct (IH x w1 (Hk x w1 Hst)) as [(a & w' & Hr) _]. by exists a, w', x, w1.
  - intros a w' (y & w2 & Hst' & Hr). by apply (IH y w2 (Hk y w2 Hst')).
Qed.

Lemma certain_weaken {A} (Q Q' : A → W → Prop) p w : (∀ a w', Q a w' → Q' a w') → certain Q p w → certain Q' p w.
Proof.
  intros HQ. revert w. induction p as [a|X c k IH]; intros w; simpl; [by apply HQ|]. intros [Hc Hk]. split; [done|]. intros x w' Hst. auto.
Qed.

Lemma certain_then {A B} (Q : B → W → Prop) (p : eff C A) f w : certain (λ a w', certain Q (f a) w') p w → certain Q (eff_then p f) w.
Proof.
  revert w. induction p as [a|X c k IH]; intros w; simpl; [done|]. intros [Hc Hk]. split; [done|]. intros x w' Hst. auto.
Qed.

(** ** Spending

    When the step that makes [P] true gives a call the right to raise the count [μ]
    by one, once, and no other step raises it, the count of a pool rises by one at
    most.  [h] tells whether the call holds the right. *)
Fixpoint spends {A} (P : W → Prop) (μ : W → nat) (h : bool) (p : eff C A) : Prop :=
  match p with
  | Done _ => True
  | Do c k => ∀ w x w', step _ c w x w' → (P w → P w') ∧
      if h then (μ w' = μ w ∧ spends P μ true (k x)) ∨ ((μ w' ≤ S (μ w))%nat ∧ spends P μ false (k x))
      else μ w' = μ w ∧ (spends P μ false (k x) ∨ (¬ P w ∧ P w' ∧ spends P μ true (k x)))
  end.

Lemma spends_returns {A B} P μ h (p : eff C A) (g : A → B) : spends P μ h p → spends P μ h (eff_then p (λ a, Done (g a))).
Proof.
  revert h. induction p as [a|X c k IH]; intros h; simpl; [done|]. intros Hs w x w' Hst. destruct (Hs w x w' Hst) as [HP Hn].
  split; [done|]. destruct h; [|destruct Hn as [Hμ Hn]; split; [done|]]; naive_solver.
Qed.

Lemma spent_once {A} P μ (ps : list (eff C A)) w ps' w' :
  (∀ i p, ps !! i = Some p → spends P μ false p) → eff_steps (ps, w) (ps', w') →
  (μ w' ≤ S (μ w))%nat ∧ (P w → μ w' = μ w).
Proof.
  set (m := μ w). set (all := λ (h : nat → bool) (q : list (eff C A) * W), ∀ i p, q.1 !! i = Some p → spends P μ (h i) p).
  set (inv := λ q : list (eff C A) * W, (μ q.2 = m ∧ (P w → P q.2) ∧ all (λ _, false) q) ∨
    (P q.2 ∧ ¬ P w ∧ ((μ q.2 = m ∧ ∃ i0, all (λ i, bool_decide (i = i0)) q) ∨ ((μ q.2 ≤ S m)%nat ∧ all (λ _, false) q)))).
  intros Hp Hs. assert (inv (ps', w')) as Hinv; [|unfold inv in Hinv; simpl in Hinv; intuition lia].
  assert (inv (ps, w)) as Hi by by left. revert Hi. generalize (ps, w) (ps', w') Hs. clear Hp Hs. intros q q' Hs.
  induction Hs as [q|q1 q2 q3 Hst _ IH]; [done|]. intros Hi. apply IH. clear IH q3.
  destruct Hst as [i l X c k w1 x w2 Hk Hst].
  assert (∀ h h' : nat → bool, all h (l, w1) → (∀ j, j ≠ i → h' j = h j) → spends P μ (h' i) (k x) → all h' (<[i := k x]> l, w2)) as Hnew.
  { intros h h' Ha Hj Hx j p Hl. apply list_lookup_insert_Some in Hl as [(-> & <- & _)|[Hne Hl]]; [done|]. rewrite Hj by done. by apply Ha. }
  destruct Hi as [(Hμ & HPw & Ha)|(HP & HnP & [[Hμ [i0 Ha]]|[Hμ Ha]])]; simpl in *; unfold inv; simpl.
  - destruct (Ha _ _ Hk _ _ _ Hst) as [HP [Hμ' [Hn|(Hn1 & Hn2 & Hn)]]].
    + left. splits; [congruence|auto|]. by apply (Hnew (λ _, false)).
    + right. splits; [done|by intros ?; apply Hn1, HPw|left]. split; [congruence|]. exists i. apply (Hnew (λ _, false)); [done|intros; by apply bool_decide_eq_false|by rewrite bool_decide_true].
  - destruct (Ha _ _ Hk _ _ _ Hst) as [HP' Hn]. right. splits; [by apply HP'|done|]. case_bool_decide as Hi0.
    + destruct Hn as [[Hμ' Hn]|[Hμ' Hn]]; [left|right].
      * split; [congruence|]. exists i0. apply (Hnew _ _ Ha); [done|]. by rewrite bool_decide_true.
      * split; [lia|]. apply (Hnew _ _ Ha); [|done]. intros j Hj. symmetry. apply bool_decide_eq_false. congruence.
    + destruct Hn as [Hμ' [Hn|[? _]]]; [|done]. left. split; [congruence|]. exists i0. apply (Hnew _ _ Ha); [done|]. by rewrite bool_decide_false.
  - destruct (Ha _ _ Hk _ _ _ Hst) as [HP' [Hμ' [Hn|[? _]]]]; [|done]. right. splits; [by apply HP'|done|right].
    split; [lia|]. by apply (Hnew (λ _, false)).
Qed.

(** ** Calls among others

    [G] is what the steps of every call guarantee.  A call is safe in [w] when, with
    any number of such steps before each of its own, its own steps guarantee [G] and
    its result satisfies [Q] at the end and from then on. *)
Context (G : W → W → Prop).

Fixpoint safe {A} (Q : A → W → Prop) (p : eff C A) (w : W) : Prop :=
  match p with
  | Done a => ∀ w', rtc G w w' → Q a w'
  | Do c k => ∀ w1 x w2, rtc G w w1 → step _ c w1 x w2 → G w1 w2 ∧ safe Q (k x) w2
  end.

Lemma safe_later {A} (Q : A → W → Prop) p w w' : rtc G w w' → safe Q p w → safe Q p w'.
Proof.
  intros Hw. destruct p; simpl; intros Hs.
  - intros w1 H1. apply Hs. by etrans.
  - intros w1 x w2 H1. apply Hs. by etrans.
Qed.

Lemma safe_runs {A} (Q : A → W → Prop) p w a w' : safe Q p w → runs p w a w' → Q a w'.
Proof.
  revert w. induction p as [b|X c k IH]; intros w; simpl; [intros HQ [<- <-]; by apply HQ|]. intros Hs (x & w1 & Hst & Hr).
  apply (IH x w1); [|done]. by eapply Hs.
Qed.

Lemma safe_weaken {A} (Q Q' : A → W → Prop) p w : (∀ a w', Q a w' → Q' a w') → safe Q p w → safe Q' p w.
Proof.
  intros HQ. revert w. induction p as [a|X c k IH]; intros w; simpl; intros Hs.
  - intros w' Hw. by apply HQ, Hs.
  - intros w1 x w2 Hw Hst. destruct (Hs w1 x w2 Hw Hst). split; [done|by apply IH].
Qed.

Lemma certain_safe {A} (Q Q' : A → W → Prop) p w : safe Q p w → certain Q' p w → certain (λ a w', Q a w' ∧ Q' a w') p w.
Proof.
  revert w. induction p as [a|X c k IH]; intros w; simpl; [intros Hs HQ; split; [by apply Hs|done]|]. intros Hs [Hc Hk].
  split; [done|]. intros x w' Hst. apply IH; [by eapply Hs|by apply Hk].
Qed.

Lemma safe_steps {A} (Q : A → W → Prop) p w : safe Q p w → safe (λ a w', Q a w' ∧ rtc G w w') p w.
Proof.
  revert w. induction p as [a|X c k IH]; intros w; simpl; [auto|]. intros Hs w1 x w2 Hw Hst. destruct (Hs w1 x w2 Hw Hst) as [Hg Hk].
  split; [done|]. eapply safe_weaken; [|by apply IH]. intros a w' [HQ Hw']. split; [done|]. etrans; [exact Hw|by eapply rtc_l].
Qed.

Lemma safe_then {A B} (Q : B → W → Prop) (p : eff C A) f w :
  safe (λ a w', safe Q (f a) w') p w → safe Q (eff_then p f) w.
Proof.
  revert w. induction p as [a|X c k IH]; intros w; simpl; intros Hs; [by apply Hs|].
  intros w1 x w2 Hw Hst. destruct (Hs w1 x w2 Hw Hst). split; [done|by apply IH].
Qed.

Lemma pool_safe {A} (Q : nat → A → W → Prop) ps w ps' w' :
  (∀ i p, ps !! i = Some p → safe (Q i) p w) → eff_steps (ps, w) (ps', w') →
  rtc G w w' ∧ ∀ i p, ps' !! i = Some p → safe (Q i) p w'.
Proof.
  intros Hp Hs. remember (ps, w) as q eqn:Hq. remember (ps', w') as q' eqn:Hq'.
  revert ps w Hq Hp. induction Hs as [q|q1 q2 q3 Hst Hs IH]; intros ps w Hq Hp.
  { rewrite Hq in Hq'. by simplify_eq. }
  destruct Hst as [i l X c k w1 x w2 Hi Hst]. simplify_eq. destruct (Hp i _ Hi w x w2 (rtc_refl _ _) Hst) as [Hg Hk].
  destruct (IH eq_refl (<[i := k x]> ps) w2 eq_refl) as [Hr Hp'].
  - intros j p Hj. apply list_lookup_insert_Some in Hj as [(-> & <- & _)|[Hne Hj]]; [done|].
    eapply safe_later; [by apply rtc_once|eauto].
  - split; [by eapply rtc_l|done].
Qed.

(** ** Calls that own a part of the state

    [O i] is what the steps of the [i]th call guarantee to the others.  A call may
    rely on what no step of another call changes. *)
Section owners.
Context (O : nat → W → W → Prop).

Definition others (i : nat) (w w' : W) : Prop := ∃ j, j ≠ i ∧ O j w w'.
Definition anyone (w w' : W) : Prop := ∃ j, O j w w'.

Fixpoint owned {A} (i : nat) (Q : A → W → Prop) (p : eff C A) (w : W) : Prop :=
  match p with
  | Done a => ∀ w', rtc (others i) w w' → Q a w'
  | Do c k => ∀ w1 x w2, rtc (others i) w w1 → step _ c w1 x w2 → O i w1 w2 ∧ owned i Q (k x) w2
  end.

Lemma owned_later {A} i (Q : A → W → Prop) p w w' : rtc (others i) w w' → owned i Q p w → owned i Q p w'.
Proof.
  intros Hw. destruct p; simpl; intros Hs.
  - intros w1 H1. apply Hs. by etrans.
  - intros w1 x w2 H1. apply Hs. by etrans.
Qed.

Lemma owned_weaken {A} i (Q Q' : A → W → Prop) p w : (∀ a w', Q a w' → Q' a w') → owned i Q p w → owned i Q' p w.
Proof.
  intros HQ. revert w. induction p as [a|X c k IH]; intros w; simpl; intros Hs.
  - intros w' Hw. by apply HQ, Hs.
  - intros w1 x w2 Hw Hst. destruct (Hs w1 x w2 Hw Hst). split; [done|by apply IH].
Qed.

Lemma owned_then {A B} i (Q : B → W → Prop) (p : eff C A) f w :
  owned i (λ a w', owned i Q (f a) w') p w → owned i Q (eff_then p f) w.
Proof.
  revert w. induction p as [a|X c k IH]; intros w; simpl; intros Hs; [apply Hs, rtc_refl|].
  intros w1 x w2 Hw Hst. destruct (Hs w1 x w2 Hw Hst). split; [done|by apply IH].
Qed.

Lemma pool_owned {A} (Q : nat → A → W → Prop) ps w ps' w' :
  (∀ i p, ps !! i = Some p → owned i (Q i) p w) → eff_steps (ps, w) (ps', w') →
  rtc anyone w w' ∧ ∀ i p, ps' !! i = Some p → owned i (Q i) p w'.
Proof.
  intros Hp Hs. remember (ps, w) as q eqn:Hq. remember (ps', w') as q' eqn:Hq'.
  revert ps w Hq Hp. induction Hs as [q|q1 q2 q3 Hst Hs IH]; intros ps w Hq Hp.
  { rewrite Hq in Hq'. by simplify_eq. }
  destruct Hst as [i l X c k w1 x w2 Hi Hst]. simplify_eq. destruct (Hp i _ Hi w x w2 (rtc_refl _ _) Hst) as [Hg Hk].
  destruct (IH eq_refl (<[i := k x]> ps) w2 eq_refl) as [Hr Hp'].
  - intros j p Hj. apply list_lookup_insert_Some in Hj as [(-> & <- & _)|[Hne Hj]]; [done|].
    eapply owned_later; [|eauto]. apply rtc_once. by exists i.
  - split; [|done]. eapply rtc_l; [by exists i|done].
Qed.

End owners.

(** ** Contention

    When winning takes a step that makes [P] true where it was false, and no step
    makes it false again, at most one call of a pool wins.  [b] tells whether the
    call has taken its step. *)
Fixpoint contends {A} (P : W → Prop) (won : A → Prop) (b : bool) (p : eff C A) : Prop :=
  match p with
  | Done a => b = true ∨ ¬ won a
  | Do c k => ∀ w x w', step _ c w x w' →
      (P w → P w') ∧ (contends P won b (k x) ∨ (¬ P w ∧ P w' ∧ contends P won true (k x)))
  end.

Lemma contends_mono {A} (P : W → Prop) (won : A → Prop) b p : contends P won b p → contends P won true p.
Proof.
  revert b. induction p as [a|X c k IH]; intros b Hc; [by left|]. intros w x w' Hst.
  destruct (Hc w x w' Hst) as [HP [Hn|(H1 & H2 & Hn)]]; (split; [done|]); [left; by eapply IH|by right].
Qed.

Lemma contends_then {A B} (P : W → Prop) (wonA : A → Prop) (won : B → Prop) b p f :
  contends P wonA b p → (∀ a b', b' = true ∨ ¬ wonA a → contends P won b' (f a)) → contends P won b (eff_then p f).
Proof.
  intros Hp Hf. revert b Hp. induction p as [a|X c k IH]; intros b Hp; [by apply Hf|]. intros w x w' Hst.
  destruct (Hp w x w' Hst) as [HP [Hn|(H1 & H2 & Hn)]]; (split; [done|]); [left|right; splits; [done|done|]]; by apply IH.
Qed.

Lemma one_winner {A} (P : W → Prop) (won : A → Prop) ps w ps' w' :
  (∀ i p, ps !! i = Some p → contends P won false p) → eff_steps (ps, w) (ps', w') →
  ∀ i j a a', ps' !! i = Some (Done a) → ps' !! j = Some (Done a') → won a → won a' → i = j.
Proof.
  set (inv := λ q : list (eff C A) * W, (∀ i p, q.1 !! i = Some p → contends P won false p) ∨
    (P q.2 ∧ ∃ i0, ∀ i p, q.1 !! i = Some p → contends P won (bool_decide (i = i0)) p)).
  intros Hp Hs. assert (inv (ps', w')) as Hinv.
  { assert (inv (ps, w)) as Hi by by left. revert Hi. generalize (ps, w) (ps', w') Hs. clear. intros q q' Hs.
    induction Hs as [q|q1 q2 q3 Hst _ IH]; [done|]. intros Hi. apply IH. clear IH q3.
    destruct Hst as [i ps X c k w x w' Hk Hst]. destruct Hi as [Hc|[HP [i0 Hc]]]; simpl in *.
    - destruct (Hc _ _ Hk _ _ _ Hst) as [_ [Hn|(_ & HP & Hn)]]; [left|right; split; [done|exists i]]; simpl; intros j p Hj;
        apply list_lookup_insert_Some in Hj as [(-> & <- & _)|[Hne Hj]]; rewrite ?bool_decide_true, ?bool_decide_false by done; eauto.
    - pose proof (Hc _ _ Hk _ _ _ Hst) as [HPk Hn]. right. split; [by apply HPk|]. exists i0. simpl. intros j p Hj.
      apply list_lookup_insert_Some in Hj as [(-> & <- & _)|[Hne Hj]]; [|eauto]. destruct Hn as [?|[? _]]; done. }
  intros i j a a' Hi Hj Ha Ha'. destruct Hinv as [Hc|[_ [i0 Hc]]]; simpl in *.
  - destruct (Hc _ _ Hi); done.
  - destruct (Hc _ _ Hi) as [E1|]; [|done]. destruct (Hc _ _ Hj) as [E2|]; [|done].
    apply bool_decide_eq_true in E1, E2. congruence.
Qed.

(** When every step of every call guarantees [G] only the result matters. *)
Lemma safe_guaranteed {A} (Q : A → W → Prop) (p : eff C A) w :
  (∀ X (c : C X) w x w', step X c w x w' → G w w') → (∀ a w', rtc G w w' → Q a w') → safe Q p w.
Proof.
  intros HG. revert w. induction p as [a|X c k IH]; intros w HQ; simpl; [auto|]. intros w1 x w2 Hw Hst. split; [by eapply HG|].
  apply IH. intros a w' Hw'. apply HQ. etrans; [exact Hw|]. eapply rtc_l; [by eapply HG|done].
Qed.

End pools.
