(* ===== verification/StreamRepository.v ===== *)
(** * The streams table ([src/db/repositories/streamRepository.ts])

    The repository of streams with the statements it issues, at the level of SQL:
    placeholders, parameters, conditions, order and limit.  A statement is atomic;
    the table has a primary and replicas that may lag, so a read that allows a
    replica sees the primary or any earlier version; any statement may be rejected,
    or executed with its reply lost.  pgcrypto, the HMAC of addresses and the
    collation of ids are arguments.  [src/db/queries/streams.ts] and the address
    filter of [src/pii/pgcryptoEncryption.ts] belong to the statements. *)
From Stdlib Require Import Ascii ZArith QArith Qround Lia Sorted.
From stdpp Require Import base gmap strings list sorting relations.
From S2P Require Import Prelude Effects StreamStatus.
Local Open Scope string_scope.
Local Open Scope list_scope.
Local Open Scope Z_scope.

(** ** Data *)

Record StreamRecord : Type := {
  id : string; sender_address : string; recipient_address : string;
  amount : string; streamed_amount : string; remaining_amount : string; rate_per_second : string;
  start_time : Z; end_time : Z; status : ApiStreamStatus;
  contract_id : string; transaction_hash : string; event_index : Z;
  created_at : Z; updated_at : Z;
}.

Record CreateStreamInput : Type := {
  ci_id : string; ci_sender_address : string; ci_recipient_address : string;
  ci_amount : string; ci_streamed_amount : string; ci_remaining_amount : string; ci_rate_per_second : string;
  ci_start_time : Z; ci_end_time : Z;
  ci_contract_id : string; ci_transaction_hash : string; ci_event_index : Z;
}.

Record UpdateStreamInput : Type := {
  ui_status : option ApiStreamStatus;
  ui_streamed_amount : option string;
  ui_remaining_amount : option string;
  ui_end_time : option Z;
}.

(** [status] is the text of a query string: an unknown one matches no row. *)
Record StreamFilter : Type := {
  f_status : option string; f_sender_address : option string; f_recipient_address : option string;
  f_contract_id : option string;
  f_start_time_from : option Z; f_start_time_to : option Z;
  f_end_time_from : option Z; f_end_time_to : option Z;
}.

Definition no_filter : StreamFilter := {|
  f_status := None; f_sender_address := None; f_recipient_address := None; f_contract_id := None;
  f_start_time_from := None; f_start_time_to := None; f_end_time_from := None; f_end_time_to := None |}.

Inductive RepoError : Type :=
| MissingKey
| DbError (e : string)
| StreamNotFound (id : string)
| InvalidTransition (from to : ApiStreamStatus)
| StatusConflictError (id : string) (from : ApiStreamStatus)
| NotFoundAfterUpdate (id : string)
| IdempotencyConflict
| UnboundedStreamQueryError
| CrossTenantCount.

(** A stored row: addresses as the column holds them, with their hashes. *)
Record row : Type := {
  r_id : string; r_sender : string; r_recipient : string; r_sender_hash : string; r_recipient_hash : string;
  r_amount : string; r_streamed : string; r_remaining : string; r_rate : string;
  r_start : Z; r_end : Z; r_status : ApiStreamStatus;
  r_contract : string; r_event : string * Z; r_created : Z; r_updated : Z;
}.
Notation table := (gmap string row).

(** ** Statements *)

Inductive param : Type := PText (s : string) | PInt (z : Z).

(** The parameter of placeholder [$n]. *)
Definition param_at (ps : list param) (n : nat) : option param := match n with O => None | S k => ps !! k end.
Definition text_at (ps : list param) (n : nat) : option string :=
  match param_at ps n with Some (PText s) => Some s | _ => None end.
Definition int_at (ps : list param) (n : nat) : option Z :=
  match param_at ps n with Some (PInt z) => Some z | _ => None end.

Inductive address_column : Type := SenderColumn | RecipientColumn.
Definition stored_address (c : address_column) (r : row) : string :=
  match c with SenderColumn => r_sender r | RecipientColumn => r_recipient r end.
Definition stored_hash (c : address_column) (r : row) : string :=
  match c with SenderColumn => r_sender_hash r | RecipientColumn => r_recipient_hash r end.

Inductive condition : Type :=
| IdIs (n : nat)
| EventIs (hash index : nat)
| StatusIs (n : nat)
| AddressIs (c : address_column) (value current : nat) (previous : option nat)
| ContractIs (n : nat)
| StartFrom (n : nat) | StartTo (n : nat) | EndFrom (n : nat) | EndTo (n : nat)
| IdAfter (n : nat).

Inductive ordering : Type := IdAsc | CreatedDescIdDesc.
Inductive limit_clause : Type := LimitParam (n : nat) | LimitLiteral (z : Z).

(** [SELECT columns FROM streams WHERE ... ORDER BY ... LIMIT ... OFFSET ...]; the
    columns name the placeholders of the keys the addresses are decrypted with. *)
Record select : Type := {
  sel_columns : nat * option nat;
  sel_where : list condition;
  sel_order : option ordering;
  sel_limit : option limit_clause;
  sel_offset : option nat;
}.

Inductive assignment : Type := SetStatus (n : nat) | SetStreamed (n : nat) | SetRemaining (n : nat) | SetEndTime (n : nat).

(** The statements; the ones that only read may name the pool of [getReadPool].
    [Insert] is [upsertStream]'s, with the placeholders it fixes. *)
Inductive sql : Type → Type :=
| Select (forcePrimary : bool) (s : select) (ps : list param) : sql (list StreamRecord)
| Count (w : list condition) (ps : list param) : sql Z
| CountByStatus : sql (list (ApiStreamStatus * Z))
| SelectUpdatedAt (id : string) : sql (option Z)
| Exists (id : string) : sql bool
| Insert (previous : option nat) (ps : list param) : sql (list StreamRecord)
| Update (sets : list assignment) (id_at status_at key : nat) (previous : option nat) (ps : list param)
    : sql (list StreamRecord).

(** Awaiting a statement: it may be rejected. *)
Inductive statement : Type → Type :=
| Stm (A : Type) (q : sql A) : statement (result string A).
Arguments Stm {A} q.

Definition PGP_MESSAGE_PREFIX : string := "-----BEGIN PGP MESSAGE-----".

Definition truthy (s : option string) : option string :=
  match s with Some EmptyString => None | _ => s end.
#[global] Arguments truthy : simpl never.

Section repository.
Context (pgp_sym_encrypt : Z → string → string → string) (pgp_sym_decrypt : string → string → option string).
Context (collate : string → string → Prop) `{!RelDecision collate}.

(** The SQL function of the same name: [None] when it raises. *)
Definition decrypt_stream_address (value current_key : string) (previous_key : option string) : option string :=
  if String.prefix PGP_MESSAGE_PREFIX value then
    match pgp_sym_decrypt value current_key with
    | Some decrypted => Some decrypted
    | None => previous_key ≫= pgp_sym_decrypt value
    end
  else Some value.

(** [streamSelectColumns] and [rowToRecord]. *)
Definition project (key : string) (previous : option string) (r : row) : option StreamRecord :=
  sender ← decrypt_stream_address (r_sender r) key previous;
  recipient ← decrypt_stream_address (r_recipient r) key previous;
  Some {| id := r_id r; sender_address := sender; recipient_address := recipient;
          amount := r_amount r; streamed_amount := r_streamed r; remaining_amount := r_remaining r;
          rate_per_second := r_rate r; start_time := r_start r; end_time := r_end r; status := r_status r;
          contract_id := r_contract r; transaction_hash := (r_event r).1; event_index := (r_event r).2;
          created_at := r_created r; updated_at := r_updated r |}.

Definition project_at (ps : list param) (columns : nat * option nat) (r : row) : option StreamRecord :=
  key ← text_at ps columns.1;
  match columns.2 with
  | None => project key None r
  | Some n => previous ← text_at ps n; project key (Some previous) r
  end.

(** A condition on a row; [None] when a placeholder has no parameter of its type. *)
Definition holds (ps : list param) (r : row) (c : condition) : option bool :=
  match c with
  | IdIs n => v ← text_at ps n; Some (bool_decide (r_id r = v))
  | EventIs h i => vh ← text_at ps h; vi ← int_at ps i; Some (bool_decide (r_event r = (vh, vi)))
  | StatusIs n => v ← text_at ps n; Some (bool_decide (api_literal (r_status r) = v))
  | AddressIs c value current previous =>
      v ← text_at ps value;
      h ← text_at ps current;
      p ← match previous with None => Some None | Some n => Some <$> text_at ps n end;
      Some (bool_decide (stored_hash c r = h) || bool_decide (Some (stored_hash c r) = p) || bool_decide (stored_address c r = v))
  | ContractIs n => v ← text_at ps n; Some (bool_decide (r_contract r = v))
  | StartFrom n => v ← int_at ps n; Some (v <=? r_start r)
  | StartTo n => v ← int_at ps n; Some (r_start r <=? v)
  | EndFrom n => v ← int_at ps n; Some (v <=? r_end r)
  | EndTo n => v ← int_at ps n; Some (r_end r <=? v)
  | IdAfter n => v ← text_at ps n; Some (bool_decide (¬ collate (r_id r) v))
  end.

Fixpoint all_hold (ps : list param) (r : row) (w : list condition) : option bool :=
  match w with
  | [] => Some true
  | c :: w => b ← holds ps r c; b' ← all_hold ps r w; Some (b && b')
  end.

Fixpoint where_rows (ps : list param) (w : list condition) (l : list row) : option (list row) :=
  match l with
  | [] => Some []
  | r :: l => b ← all_hold ps r w; l' ← where_rows ps w l; Some (if b : bool then r :: l' else l')
  end.

Definition ordered (o : ordering) (a b : row) : Prop :=
  match o with
  | IdAsc => collate (r_id a) (r_id b)
  | CreatedDescIdDesc => r_created b < r_created a ∨ (r_created a = r_created b ∧ collate (r_id b) (r_id a))
  end.
#[export] Instance ordered_dec o : RelDecision (ordered o).
Proof. destruct o; intros a b; simpl; apply _. Defined.

Definition order_rows (o : option ordering) (l : list row) : list row :=
  match o with None => l | Some o => merge_sort (ordered o) l end.

(** A negative [LIMIT] or [OFFSET] is an error. *)
Definition natural (z : Z) : option nat := if z <? 0 then None else Some (Z.to_nat z).

Definition limited (ps : list param) (s : select) (l : list row) : option (list row) :=
  l ← match sel_offset s with None => Some l | Some n => z ← int_at ps n; k ← natural z; Some (drop k l) end;
  match sel_limit s with
  | None => Some l
  | Some (LimitLiteral z) => k ← natural z; Some (take k l)
  | Some (LimitParam n) => z ← int_at ps n; k ← natural z; Some (take k l)
  end.

Definition rows (t : table) : list row := (map_to_list t).*2.

Definition exec_select (s : select) (ps : list param) (t : table) : option (list StreamRecord) :=
  l ← where_rows ps (sel_where s) (rows t);
  l ← limited ps s (order_rows (sel_order s) l);
  mapM (project_at ps (sel_columns s)) l.

(** [VALUES ($1, ..., 'active', ..., NOW(), NOW())] of [upsertStream]. *)
Definition values_row (now seed : Z) (ps : list param) : option row :=
  id ← text_at ps 1; sender ← text_at ps 2; key ← text_at ps 3; sender_hash ← text_at ps 4;
  recipient ← text_at ps 5; recipient_hash ← text_at ps 6;
  amount ← text_at ps 7; streamed ← text_at ps 8; remaining ← text_at ps 9; rate ← text_at ps 10;
  start ← int_at ps 11; end_ ← int_at ps 12; contract ← text_at ps 13; hash ← text_at ps 14; index ← int_at ps 15;
  Some {| r_id := id; r_sender := pgp_sym_encrypt seed sender key; r_recipient := pgp_sym_encrypt (seed + 1) recipient key;
          r_sender_hash := sender_hash; r_recipient_hash := recipient_hash;
          r_amount := amount; r_streamed := streamed; r_remaining := remaining; r_rate := rate;
          r_start := start; r_end := end_; r_status := Api_active; r_contract := contract; r_event := (hash, index);
          r_created := now; r_updated := now |}.

Definition has_event (e : string * Z) (t : table) : bool := existsb (λ r, bool_decide (r_event r = e)) (rows t).

(** [ON CONFLICT (transaction_hash, event_index) DO NOTHING]; another row with the
    same id violates the primary key. *)
Definition exec_insert (now seed : Z) (previous : option nat) (ps : list param) (t : table)
    : result string (list StreamRecord) * table :=
  match values_row now seed ps with
  | None => (Err "invalid parameters", t)
  | Some r =>
      if has_event (r_event r) t then (Ok [], t)
      else if t !! r_id r then (Err "duplicate key value violates unique constraint", t)
      else match project_at ps (3%nat, previous) r with
           | None => (Err "Wrong key or corrupt data", t)
           | Some record => (Ok [record], <[r_id r := r]> t)
           end
  end.

Definition assign (ps : list param) (r : row) (a : assignment) : option row :=
  match a with
  | SetStatus n =>
      v ← text_at ps n; s ← isApiStreamStatus (JStr v);
      Some {| r_id := r_id r; r_sender := r_sender r; r_recipient := r_recipient r; r_sender_hash := r_sender_hash r;
              r_recipient_hash := r_recipient_hash r; r_amount := r_amount r; r_streamed := r_streamed r;
              r_remaining := r_remaining r; r_rate := r_rate r; r_start := r_start r; r_end := r_end r; r_status := s;
              r_contract := r_contract r; r_event := r_event r; r_created := r_created r; r_updated := r_updated r |}
  | SetStreamed n =>
      v ← text_at ps n;
      Some {| r_id := r_id r; r_sender := r_sender r; r_recipient := r_recipient r; r_sender_hash := r_sender_hash r;
              r_recipient_hash := r_recipient_hash r; r_amount := r_amount r; r_streamed := v;
              r_remaining := r_remaining r; r_rate := r_rate r; r_start := r_start r; r_end := r_end r; r_status := r_status r;
              r_contract := r_contract r; r_event := r_event r; r_created := r_created r; r_updated := r_updated r |}
  | SetRemaining n =>
      v ← text_at ps n;
      Some {| r_id := r_id r; r_sender := r_sender r; r_recipient := r_recipient r; r_sender_hash := r_sender_hash r;
              r_recipient_hash := r_recipient_hash r; r_amount := r_amount r; r_streamed := r_streamed r;
              r_remaining := v; r_rate := r_rate r; r_start := r_start r; r_end := r_end r; r_status := r_status r;
              r_contract := r_contract r; r_event := r_event r; r_created := r_created r; r_updated := r_updated r |}
  | SetEndTime n =>
      v ← int_at ps n;
      Some {| r_id := r_id r; r_sender := r_sender r; r_recipient := r_recipient r; r_sender_hash := r_sender_hash r;
              r_recipient_hash := r_recipient_hash r; r_amount := r_amount r; r_streamed := r_streamed r;
              r_remaining := r_remaining r; r_rate := r_rate r; r_start := r_start r; r_end := v; r_status := r_status r;
              r_contract := r_contract r; r_event := r_event r; r_created := r_created r; r_updated := r_updated r |}
  end.

(** [updated_at = NOW()]. *)
Definition touch (now : Z) (r : row) : row :=
  {| r_id := r_id r; r_sender := r_sender r; r_recipient := r_recipient r; r_sender_hash := r_sender_hash r;
     r_recipient_hash := r_recipient_hash r; r_amount := r_amount r; r_streamed := r_streamed r;
     r_remaining := r_remaining r; r_rate := r_rate r; r_start := r_start r; r_end := r_end r; r_status := r_status r;
     r_contract := r_contract r; r_event := r_event r; r_created := r_created r; r_updated := now |}.

Fixpoint assign_all (ps : list param) (sets : list assignment) (r : row) : option row :=
  match sets with [] => Some r | a :: sets => r' ← assign ps r a; assign_all ps sets r' end.

(** [UPDATE streams SET ... WHERE id = $id_at AND status = $status_at RETURNING ...]. *)
Definition exec_update (now : Z) (sets : list assignment) (id_at status_at : nat) (columns : nat * option nat)
    (ps : list param) (t : table) : result string (list StreamRecord) * table :=
  match text_at ps id_at, text_at ps status_at with
  | Some key, Some expected =>
      match t !! key with
      | None => (Ok [], t)
      | Some r =>
          if bool_decide (api_literal (r_status r) = expected) then
            match r' ← assign_all ps sets (touch now r); record ← project_at ps columns r'; Some (r', record) with
            | None => (Err "Wrong key or corrupt data", t)
            | Some (r', record) => (Ok [record], <[key := r']> t)
            end
          else (Ok [], t)
      end
  | _, _ => (Err "invalid parameters", t)
  end.

Definition or_error {A} (e : string) (x : option A) : result string A := match x with Some a => Ok a | None => Err e end.

Definition count_status (l : list row) (s : ApiStreamStatus) : Z :=
  Z.of_nat (length (filter (λ r, r_status r = s) l)).

(** A statement on one version of the table, with the value of [NOW()] and the
    randomness of the encryption. *)
Definition exec {A} (now seed : Z) (q : sql A) (t : table) : result string A * table :=
  match q in sql A return result string A * table with
  | Select _ s ps => (or_error "invalid statement" (exec_select s ps t), t)
  | Count w ps => (or_error "invalid statement" (l ← where_rows ps w (rows t); Some (Z.of_nat (length l))), t)
  | CountByStatus =>
      (Ok (filter (λ p, p.2 ≠ 0) ((λ s, (s, count_status (rows t) s)) <$> API_STREAM_STATUSES)), t)
  | SelectUpdatedAt i => (Ok (r_updated <$> t !! i), t)
  | Exists i => (Ok (bool_decide (is_Some (t !! i))), t)
  | Insert previous ps => exec_insert now seed previous ps t
  | Update sets id_at status_at key previous ps => exec_update now sets id_at status_at (key, previous) ps t
  end.

(** Whether the pool of the statement may be a replica's, and whether it writes. *)
Definition on_read_pool {X} (q : sql X) : bool :=
  match q with
  | Select forcePrimary _ _ => negb forcePrimary
  | Count _ _ | CountByStatus | SelectUpdatedAt _ => true
  | Exists _ | Insert _ _ | Update _ _ _ _ _ _ => false
  end.
Definition writes {X} (q : sql X) : bool := match q with Insert _ _ | Update _ _ _ _ _ _ => true | _ => false end.

(** The current table and the earlier versions a replica may still show. *)
Notation db := (table * list table)%type.
Definition commit (t : table) (w : db) : db := (t, w.1 :: w.2).

Inductive sql_step {A} (q : sql A) (w : db) : result string A → db → Prop :=
| step_rejected e : sql_step q w (Err e) w
| step_read t now seed :
    writes q = false → (if on_read_pool q then t ∈ w.1 :: w.2 else t = w.1) →
    sql_step q w (exec now seed q t).1 w
| step_write now seed : writes q = true → sql_step q w (exec now seed q w.1).1 (commit (exec now seed q w.1).2 w)
| step_reply_lost now seed e :
    writes q = true → sql_step q w (Err e) (commit (exec now seed q w.1).2 w).

Definition db_step X (c : statement X) : db → X → db → Prop :=
  match c in statement X return db → X → db → Prop with Stm q => sql_step q end.

End repository.

(** ** The query builder ([src/db/queries/streams.ts]) *)

Definition MAX_STREAM_LIMIT : Z := 100.
Definition MIN_STREAM_LIMIT : Z := 1.
Definition MAX_PAGE_SIZE : Z := MAX_STREAM_LIMIT.

(** The constructor of [StreamQueryBuilder]: the effective limit. *)
Definition newStreamQueryBuilder (limit : jsnum) : result RepoError Z :=
  match limit with
  | NumNaN | NumInf _ => Err UnboundedStreamQueryError
  | NumInt z => if z <=? 0 then Err UnboundedStreamQueryError
                else Ok (Z.min (Z.max z MIN_STREAM_LIMIT) MAX_STREAM_LIMIT)
  | NumFrac q => if Qle_bool q 0 then Err UnboundedStreamQueryError
                 else Ok (Z.min (Z.max (Qfloor q) MIN_STREAM_LIMIT) MAX_STREAM_LIMIT)
  end.

Definition assertBounded (s : select) : result RepoError select :=
  match sel_limit s with Some _ => Ok s | None => Err UnboundedStreamQueryError end.

(** [build] with given columns; without an order it is [id ASC], without a placeholder
    for the limit the effective limit is written out. *)
Definition build (effectiveLimit : Z) (columns : nat * option nat) (w : list condition) (o : option ordering)
    (limitParamIndex offsetParamIndex : option nat) : result RepoError select :=
  assertBounded {| sel_columns := columns; sel_where := w; sel_order := Some (default IdAsc o);
    sel_limit := Some (match limitParamIndex with Some n => LimitParam n | None => LimitLiteral effectiveLimit end);
    sel_offset := offsetParamIndex |}.

Definition buildCursorQuery (effectiveLimit : Z) columns w (limitParamIndex : nat) : result RepoError select :=
  build effectiveLimit columns w (Some IdAsc) (Some limitParamIndex) None.
Definition buildOffsetQuery (effectiveLimit : Z) columns w (limitParamIndex offsetParamIndex : nat) : result RepoError select :=
  build effectiveLimit columns w (Some CreatedDescIdDesc) (Some limitParamIndex) (Some offsetParamIndex).

(** ** The repository *)

Section operations.
Context (hmac_sha256 : string → string → string).
Context (pgcryptoKey pgcryptoKeyPrevious : option string).

Notation call A := (eff statement (result RepoError A)).

(** [await query(...)]: a rejected statement throws. *)
Definition query {A B} (q : sql A) (k : A → call B) : call B :=
  Do (Stm q) (λ r, match r with Ok a => k a | Err e => Done (Err (DbError e)) end).

Definition orThrow {A B} (r : result RepoError A) (k : A → call B) : call B :=
  match r with Ok a => k a | Err e => Done (Err e) end.

Record PgcryptoKeySet : Type := { current : string; previous : option string }.

Definition resolvePgcryptoKeys : result RepoError PgcryptoKeySet :=
  match truthy pgcryptoKey with
  | None => Err MissingKey
  | Some key => Ok {| current := key; previous := pgcryptoKeyPrevious |}
  end.

Definition computeAddressHash (address key : string) : string := hmac_sha256 key address.
Definition computeAddressHashes (address : string) (keys : PgcryptoKeySet) : string * option string :=
  (computeAddressHash address (current keys), computeAddressHash address <$> truthy (previous keys)).

(** The previous key as one more parameter, and its placeholder. *)
Definition push_previous (keys : PgcryptoKeySet) (ps : list param) : list param * option nat :=
  match truthy (previous keys) with
  | Some p => (ps ++ [PText p], Some (S (length ps)))
  | None => (ps, None)
  end.

Definition by_condition (columns : nat * option nat) (c : condition) : select :=
  {| sel_columns := columns; sel_where := [c]; sel_order := None; sel_limit := None; sel_offset := None |}.

Definition getById (i : string) (forcePrimary : bool) : call (option StreamRecord) :=
  orThrow resolvePgcryptoKeys (λ keys,
    let '(ps, previousKeyIndex) := push_previous keys [PText i; PText (current keys)] in
    query (Select forcePrimary (by_condition (2%nat, previousKeyIndex) (IdIs 1)) ps) (λ l, Done (Ok (head l)))).

Definition getByEvent (transactionHash : string) (eventIndex : Z) : call (option StreamRecord) :=
  orThrow resolvePgcryptoKeys (λ keys,
    let '(ps, previousKeyIndex) := push_previous keys [PText transactionHash; PInt eventIndex; PText (current keys)] in
    query (Select false (by_condition (3%nat, previousKeyIndex) (EventIs 1 2)) ps) (λ l, Done (Ok (head l)))).

Definition existsById (i : string) : call (option Z) := query (SelectUpdatedAt i) (λ u, Done (Ok u)).

Record UpsertResult : Type := { created : bool; stream : StreamRecord }.

(** [insertSql] and its parameters. *)
Definition insert_statement (keys : PgcryptoKeySet) (input : CreateStreamInput) : sql (list StreamRecord) :=
  let senderHashes := computeAddressHashes (ci_sender_address input) keys in
  let recipientHashes := computeAddressHashes (ci_recipient_address input) keys in
  let params := [PText (ci_id input); PText (ci_sender_address input); PText (current keys); PText senderHashes.1;
                 PText (ci_recipient_address input); PText recipientHashes.1; PText (ci_amount input);
                 PText (ci_streamed_amount input); PText (ci_remaining_amount input); PText (ci_rate_per_second input);
                 PInt (ci_start_time input); PInt (ci_end_time input); PText (ci_contract_id input);
                 PText (ci_transaction_hash input); PInt (ci_event_index input)] in
  let '(params, decryptionPreviousKeyIndex) := push_previous keys params in
  Insert decryptionPreviousKeyIndex params.

Definition upsertStream (input : CreateStreamInput) : call UpsertResult :=
  orThrow resolvePgcryptoKeys (λ keys,
    query (insert_statement keys input) (λ l,
      match head l with
      | Some s => Done (Ok {| created := true; stream := s |})
      | None =>
          try_bind (getById (ci_id input) false) (λ existing,
            match existing with
            | Some s => Done (Ok {| created := false; stream := s |})
            | None =>
                try_bind (getByEvent (ci_transaction_hash input) (ci_event_index input)) (λ byEvent,
                  match byEvent with
                  | Some s => Done (Ok {| created := false; stream := s |})
                  | None => Done (Err IdempotencyConflict)
                  end)
            end)
      end)).

Definition isValidStatusTransition (from to : ApiStreamStatus) : bool := isValidApiTransition from to.

(** [setClauses] and [values] after the assignments. *)
Definition set_clauses (input : UpdateStreamInput) : list assignment * list param :=
  let push {A} (o : option A) (mk : nat → assignment) (pr : A → param) (s : list assignment * list param) :=
    match o with Some a => (s.1 ++ [mk (S (length s.2))], s.2 ++ [pr a]) | None => s end in
  push (ui_end_time input) SetEndTime PInt
    (push (ui_remaining_amount input) SetRemaining PText
      (push (ui_streamed_amount input) SetStreamed PText
        (push (ui_status input) SetStatus (λ s, PText (api_literal s)) ([], [])))).

(** The conditional [UPDATE], after a read that found the status [from]. *)
Definition update_statement (keys : PgcryptoKeySet) (i : string) (input : UpdateStreamInput) (from : ApiStreamStatus)
    : sql (list StreamRecord) :=
  let '(sets, values) := set_clauses input in
  let idx := S (length values) in
  let values := values ++ [PText i] in
  let statusParamIdx := S (length values) in
  let values := values ++ [PText (api_literal from)] in
  let keyIndex := S (length values) in
  let '(values, previousKeyIndex) := push_previous keys (values ++ [PText (current keys)]) in
  Update sets idx statusParamIdx keyIndex previousKeyIndex values.

Definition updateStream (i : string) (input : UpdateStreamInput) : call StreamRecord :=
  try_bind (getById i true) (λ c,
    match c with
    | None => Done (Err (StreamNotFound i))
    | Some cur =>
        if match ui_status input with Some s => negb (isValidStatusTransition (status cur) s) | None => false end
        then Done (Err (InvalidTransition (status cur) (default Api_active (ui_status input))))
        else
          orThrow resolvePgcryptoKeys (λ keys,
            query (update_statement keys i input (status cur)) (λ l,
              match head l with
              | Some s => Done (Ok s)
              | None => query (Exists i) (λ e : bool,
                  if e then Done (Err (StatusConflictError i (status cur))) else Done (Err (NotFoundAfterUpdate i)))
              end))
    end).

(** [conditions], [params] and [idx] while a filter is turned into a condition. *)
Record where_builder : Type := { conditions : list condition; params : list param; idx : nat }.
Definition empty_where : where_builder := {| conditions := []; params := []; idx := 1 |}.

Definition push_condition (c : nat → condition) (p : param) (b : where_builder) : where_builder :=
  {| conditions := conditions b ++ [c (idx b)]; params := params b ++ [p]; idx := S (idx b) |}.

Definition push_some {A} (o : option A) (c : nat → condition) (p : A → param) (b : where_builder) : where_builder :=
  match o with Some a => push_condition c (p a) b | None => b end.

Definition push_address (o : option string) (col : address_column) (keys : PgcryptoKeySet) (b : where_builder) : where_builder :=
  match truthy o with
  | None => b
  | Some a =>
      let hashes := computeAddressHashes a keys in
      let filterIndex := idx b in
      let currentHashIndex := S filterIndex in
      let '(previousHashIndex, idx') :=
        if truthy (previous keys) then (Some (S currentHashIndex), S (S currentHashIndex)) else (None, S currentHashIndex) in
      {| conditions := conditions b ++ [AddressIs col filterIndex currentHashIndex previousHashIndex];
         params := params b ++ [PText a; PText hashes.1] ++ match truthy hashes.2 with Some h => [PText h] | None => [] end;
         idx := idx' |}
  end.

(** The conditions both lists share, and the ones of [find] only. *)
Definition common_conditions (filter : StreamFilter) (keys : PgcryptoKeySet) : where_builder :=
  push_some (truthy (f_contract_id filter)) ContractIs PText
    (push_address (f_recipient_address filter) RecipientColumn keys
      (push_address (f_sender_address filter) SenderColumn keys
        (push_some (truthy (f_status filter)) StatusIs PText empty_where))).

Definition time_conditions (filter : StreamFilter) (b : where_builder) : where_builder :=
  push_some (f_end_time_to filter) EndTo PInt
    (push_some (f_end_time_from filter) EndFrom PInt
      (push_some (f_start_time_to filter) StartTo PInt
        (push_some (f_start_time_from filter) StartFrom PInt b))).

Record StreamPage : Type := { page_streams : list StreamRecord; page_hasMore : bool; page_total : option Z }.

Definition findWithCursor (filter : StreamFilter) (limit : jsnum) (afterId : option string) (includeTotal forcePrimary : bool)
    : call StreamPage :=
  orThrow (newStreamQueryBuilder limit) (λ effectiveLimit,
    orThrow resolvePgcryptoKeys (λ keys,
      let base := common_conditions filter keys in
      let cursor := push_some (truthy afterId) IdAfter PText base in
      let cursorParams := params cursor in
      let limitParamIndex := S (length cursorParams) in
      let cursorParams := cursorParams ++ [PInt (effectiveLimit + 1)] in
      let keyIndex := S (length cursorParams) in
      let '(cursorParams, previousKeyIndex) := push_previous keys (cursorParams ++ [PText (current keys)]) in
      orThrow (buildCursorQuery effectiveLimit (keyIndex, previousKeyIndex) (conditions cursor) limitParamIndex) (λ dataSql,
        query (Select forcePrimary dataSql cursorParams) (λ rows,
          let hasMore := effectiveLimit <? Z.of_nat (length rows) in
          let rows := if hasMore then take (Z.to_nat effectiveLimit) rows else rows in
          if includeTotal
          then query (Count (conditions base) (params base)) (λ n,
                 Done (Ok {| page_streams := rows; page_hasMore := hasMore; page_total := Some n |}))
          else Done (Ok {| page_streams := rows; page_hasMore := hasMore; page_total := None |}))))).

Record PaginatedStreams : Type := { ps_streams : list StreamRecord; ps_total : Z; ps_limit : Z; ps_offset : Z; ps_hasMore : bool }.

Definition find (filter : StreamFilter) (limit : jsnum) (offset : Z) : call PaginatedStreams :=
  orThrow (newStreamQueryBuilder limit) (λ effectiveLimit,
    orThrow resolvePgcryptoKeys (λ keys,
      let b := time_conditions filter (common_conditions filter keys) in
      let countParams := params b in
      let keyIndex := S (length (params b)) in
      let '(ps, previousKeyIndex) := push_previous keys (params b ++ [PText (current keys)]) in
      let limitParamIndex := S (length ps) in
      let offsetParamIndex := S (S (length ps)) in
      orThrow (buildOffsetQuery effectiveLimit (keyIndex, previousKeyIndex) (conditions b) limitParamIndex offsetParamIndex) (λ dataSql,
        query (Count (conditions b) countParams) (λ total,
          query (Select false dataSql (ps ++ [PInt effectiveLimit; PInt offset])) (λ streams,
            Done (Ok {| ps_streams := streams; ps_total := total; ps_limit := effectiveLimit; ps_offset := offset;
                        ps_hasMore := offset + Z.of_nat (length streams) <? total |})))))).

Definition countByStatus : call (list (ApiStreamStatus * Z)) :=
  query CountByStatus (λ rows, Done (Ok (fold_left (λ counts p, jm_set p.1 p.2 counts) rows ((λ s, (s, 0)) <$> API_STREAM_STATUSES)))).

(** ** Per-tenant access *)

Definition for_tenant (tenantId : string) (filter : StreamFilter) : StreamFilter :=
  {| f_status := f_status filter; f_sender_address := Some tenantId; f_recipient_address := f_recipient_address filter;
     f_contract_id := f_contract_id filter; f_start_time_from := f_start_time_from filter;
     f_start_time_to := f_start_time_to filter; f_end_time_from := f_end_time_from filter; f_end_time_to := f_end_time_to filter |}.

Definition findForTenant (tenantId : string) (filter : StreamFilter) (limit : jsnum) (offset : Z) : call PaginatedStreams :=
  find (for_tenant tenantId filter) limit offset.
Definition findForTenantWithCursor (tenantId : string) (filter : StreamFilter) (limit : jsnum) (afterId : option string)
    (includeTotal forcePrimary : bool) : call StreamPage :=
  findWithCursor (for_tenant tenantId filter) limit afterId includeTotal forcePrimary.

Definition getForTenant (tenantId i : string) : call (option StreamRecord) :=
  try_bind (getById i false) (λ record,
    Done (Ok (r ← record; if bool_decide (sender_address r = tenantId) then Some r else None))).

Definition existsForTenant (tenantId i : string) : call bool :=
  try_bind (getById i false) (λ record,
    Done (Ok match record with Some r => bool_decide (sender_address r = tenantId) | None => false end)).

Definition countForTenant (tenantId : string) (filter : StreamFilter) : call Z :=
  try_bind (find (for_tenant tenantId filter) (NumInt 1) 0) (λ page, Done (Ok (ps_total page))).

Definition countByTenant (_ : string) (_ : StreamFilter) : call Z := Done (Err CrossTenantCount).

End operations.

(** ** Lemmas: what the statements do *)
Lemma api_literal_inj s s' : api_literal s = api_literal s' → s = s'.
Proof. by destruct s, s'. Qed.

Section statements.
Context (pgp_sym_encrypt : Z → string → string → string) (pgp_sym_decrypt : string → string → option string).
Context (hmac_sha256 : string → string → string).
Context (collate : string → string → Prop) `{!RelDecision collate}.
Context (keys : PgcryptoKeySet).
Notation project := (project pgp_sym_decrypt).
Notation exec := (exec pgp_sym_encrypt pgp_sym_decrypt collate).

(** The row [input] becomes. *)
Definition inserted (now seed : Z) (input : CreateStreamInput) : row := {|
  r_id := ci_id input; r_sender := pgp_sym_encrypt seed (ci_sender_address input) (current keys);
  r_recipient := pgp_sym_encrypt (seed + 1) (ci_recipient_address input) (current keys);
  r_sender_hash := hmac_sha256 (current keys) (ci_sender_address input);
  r_recipient_hash := hmac_sha256 (current keys) (ci_recipient_address input);
  r_amount := ci_amount input; r_streamed := ci_streamed_amount input; r_remaining := ci_remaining_amount input;
  r_rate := ci_rate_per_second input; r_start := ci_start_time input; r_end := ci_end_time input; r_status := Api_active;
  r_contract := ci_contract_id input; r_event := (ci_transaction_hash input, ci_event_index input);
  r_created := now; r_updated := now |}.

Definition updated (now : Z) (input : UpdateStreamInput) (r : row) : row := {|
  r_id := r_id r; r_sender := r_sender r; r_recipient := r_recipient r; r_sender_hash := r_sender_hash r;
  r_recipient_hash := r_recipient_hash r; r_amount := r_amount r;
  r_streamed := default (r_streamed r) (ui_streamed_amount input);
  r_remaining := default (r_remaining r) (ui_remaining_amount input); r_rate := r_rate r; r_start := r_start r;
  r_end := default (r_end r) (ui_end_time input); r_status := default (r_status r) (ui_status input);
  r_contract := r_contract r; r_event := r_event r; r_created := r_created r; r_updated := now |}.

(** A row as the repository reads it. *)
Definition readable (r : row) : option StreamRecord := project (current keys) (truthy (previous keys)) r.

(** The placeholders of the insertion name the right parameters. *)
Lemma exec_insert_statement now seed input t :
  let r := inserted now seed input in
  exec now seed (insert_statement hmac_sha256 keys input) t =
    if has_event (r_event r) t then (Ok [], t)
    else if t !! r_id r then (Err "duplicate key value violates unique constraint", t)
    else match readable r with
         | None => (Err "Wrong key or corrupt data", t)
         | Some record => (Ok [record], <[r_id r := r]> t)
         end.
Proof. unfold insert_statement, push_previous, readable. by destruct (truthy (previous keys)). Qed.

(** So do the ones of every update. *)
Lemma exec_update_statement now seed i input from t :
  exec now seed (update_statement keys i input from) t =
    match t !! i with
    | None => (Ok [], t)
    | Some r =>
        if bool_decide (r_status r = from) then
          match readable (updated now input r) with
          | None => (Err "Wrong key or corrupt data", t)
          | Some record => (Ok [record], <[i := updated now input r]> t)
          end
        else (Ok [], t)
    end.
Proof.
  assert (∀ ps sets n m k p, text_at ps n = Some i → text_at ps m = Some (api_literal from) →
    (∀ r, assign_all ps sets (touch now r) = Some (updated now input r)) →
    (∀ r, project_at pgp_sym_decrypt ps (k, p) r = readable r) →
    exec_update pgp_sym_decrypt now sets n m (k, p) ps t = match t !! i with
      | None => (Ok [], t)
      | Some r => if bool_decide (r_status r = from) then
          match readable (updated now input r) with
          | None => (Err "Wrong key or corrupt data", t)
          | Some record => (Ok [record], <[i := updated now input r]> t)
          end else (Ok [], t)
      end) as Hx.
  { intros ps sets n m k p Hn Hm Ha Hp. unfold exec_update. rewrite Hn, Hm. destruct (t !! i) as [r|]; [|done].
    rewrite (bool_decide_ext (api_literal (r_status r) = api_literal from) (r_status r = from))
      by (split; [apply api_literal_inj|by intros ->]).
    case_bool_decide; [|done]. rewrite Ha. simpl. rewrite Hp. by destruct (readable _). }
  unfold update_statement, push_previous. destruct (truthy (previous keys)) as [p|] eqn:Hprev;
    destruct input as [[s|] [a|] [b|] [e|]]; apply Hx; try done; intros r; unfold readable; rewrite ?Hprev; try done;
    by destruct s.
Qed.

(** ** Filters *)

Definition truthy_is (o : option string) (v : string) : bool := match truthy o with Some s => bool_decide (v = s) | None => true end.
Definition address_is (o : option string) (c : address_column) (r : row) : bool :=
  match truthy o with
  | None => true
  | Some a =>
      bool_decide (stored_hash c r = hmac_sha256 (current keys) a)
      || bool_decide (Some (stored_hash c r) = (λ k, hmac_sha256 k a) <$> truthy (previous keys))
      || bool_decide (stored_address c r = a)
  end.
Definition some_le (o : option Z) (f : Z → bool) : bool := match o with Some z => f z | None => true end.

(** What a filter means. *)
Definition matches_common (f : StreamFilter) (r : row) : bool :=
  truthy_is (f_status f) (api_literal (r_status r)) && address_is (f_sender_address f) SenderColumn r
  && address_is (f_recipient_address f) RecipientColumn r && truthy_is (f_contract_id f) (r_contract r).
Definition matches_times (f : StreamFilter) (r : row) : bool :=
  some_le (f_start_time_from f) (λ v, v <=? r_start r) && some_le (f_start_time_to f) (λ v, r_start r <=? v)
  && some_le (f_end_time_from f) (λ v, v <=? r_end r) && some_le (f_end_time_to f) (λ v, r_end r <=? v).

(** The conditions of [b] mean [pred] whatever parameters follow. *)
Definition means (b : where_builder) (pred : row → bool) : Prop :=
  idx b = S (length (params b)) ∧
  ∀ ps r, all_hold collate (params b ++ ps) r (conditions b) = Some (pred r).

Lemma all_hold_app ps r w w' :
  all_hold collate ps r (w ++ w') = (b ← all_hold collate ps r w; b' ← all_hold collate ps r w'; Some (b && b')).
Proof.
  induction w as [|c w IH]; simpl; [by destruct (all_hold _ _ _ _)|].
  destruct (holds collate ps r c); simpl; [|done]. rewrite IH. destruct (all_hold collate ps r w); simpl; [|done].
  destruct (all_hold collate ps r w'); simpl; [|done]. by rewrite andb_assoc.
Qed.

Lemma means_empty : means empty_where (λ _, true).
Proof. by split. Qed.

Lemma param_at_app ps ps' ps'' k : param_at ((ps ++ ps') ++ ps'') (S (length ps + k)) = (ps' ++ ps'') !! k.
Proof. simpl. rewrite <-app_assoc, lookup_app_r by lia. f_equal. lia. Qed.

Lemma param_here ps ps' ps'' : param_at ((ps ++ ps') ++ ps'') (S (length ps)) = (ps' ++ ps'') !! 0%nat.
Proof. rewrite <-(Nat.add_0_r (length ps)). apply param_at_app. Qed.
Lemma param_next ps p ps' ps'' : param_at ((ps ++ p :: ps') ++ ps'') (S (S (length ps))) = (ps' ++ ps'') !! 0%nat.
Proof. replace (S (length ps)) with (length ps + 1)%nat by lia. by rewrite param_at_app. Qed.
Lemma param_next2 ps p q ps' ps'' : param_at ((ps ++ p :: q :: ps') ++ ps'') (S (S (S (length ps)))) = (ps' ++ ps'') !! 0%nat.
Proof. replace (S (S (length ps))) with (length ps + 2)%nat by lia. by rewrite param_at_app. Qed.

Lemma means_push b pred c p q : means b pred →
  (∀ ps r, holds collate ((params b ++ [p]) ++ ps) r (c (idx b)) = Some (q r)) →
  means (push_condition c p b) (λ r, pred r && q r).
Proof.
  intros [Hi Hb] Hc. split; simpl; [rewrite length_app, Hi; simpl; lia|].
  intros ps r. rewrite all_hold_app, <-app_assoc, Hb, app_assoc. cbn [mbind option_bind all_hold].
  rewrite Hc. simpl. by rewrite andb_true_r.
Qed.

Lemma text_at_last b p pred ps : means b pred → text_at ((params b ++ [PText p]) ++ ps) (idx b) = Some p.
Proof. intros [Hi _]. unfold text_at. rewrite Hi. by rewrite param_here. Qed.
Lemma int_at_last b p pred ps : means b pred → int_at ((params b ++ [PInt p]) ++ ps) (idx b) = Some p.
Proof. intros [Hi _]. unfold int_at. rewrite Hi. by rewrite param_here. Qed.

Lemma means_ext b pred pred' : (∀ r, pred r = pred' r) → means b pred → means b pred'.
Proof. intros He [Hi Hb]. split; [done|]. intros ps r. by rewrite Hb, He. Qed.

Lemma means_text b pred o c q : means b pred →
  (∀ ps r n v, text_at ps n = Some v → holds collate ps r (c n) = Some (q v r)) →
  means (push_some o c PText b) (λ r, pred r && match o with Some v => q v r | None => true end).
Proof.
  intros Hb Hc. destruct o as [v|]; simpl.
  - apply means_push; [done|]. intros ps r. apply Hc. by eapply text_at_last.
  - revert Hb. apply means_ext. intros r. by rewrite andb_true_r.
Qed.

Lemma means_int b pred o c q : means b pred →
  (∀ ps r n v, int_at ps n = Some v → holds collate ps r (c n) = Some (q v r)) →
  means (push_some o c PInt b) (λ r, pred r && match o with Some v => q v r | None => true end).
Proof.
  intros Hb Hc. destruct o as [v|]; simpl.
  - apply means_push; [done|]. intros ps r. apply Hc. by eapply int_at_last.
  - revert Hb. apply means_ext. intros r. by rewrite andb_true_r.
Qed.

Lemma means_address b pred o col : (∀ k a, truthy (Some (hmac_sha256 k a)) ≠ None) → means b pred →
  means (push_address hmac_sha256 o col keys b) (λ r, pred r && address_is o col r).
Proof.
  intros Hh Hb. unfold push_address, address_is. destruct (truthy o) as [a|]; [|revert Hb; apply means_ext; intros r; by rewrite andb_true_r].
  destruct Hb as [Hi Hb]. unfold computeAddressHashes, computeAddressHash. simpl.
  destruct (truthy (previous keys)) as [k|] eqn:Hk; simpl.
  - destruct (truthy (Some (hmac_sha256 k a))) as [h|] eqn:Hkh; [|by destruct (Hh k a)].
    assert (h = hmac_sha256 k a) as -> by (revert Hkh; unfold truthy; by destruct (hmac_sha256 k a); intros [= <-]).
    split; simpl; [rewrite length_app, Hi; simpl; lia|]. intros ps r.
    rewrite all_hold_app, <-app_assoc, Hb, app_assoc. cbn [mbind option_bind all_hold holds]. unfold text_at.
    rewrite Hi, (param_here (params b) _ ps), (param_next (params b) _ _ ps), (param_next2 (params b) _ _ _ ps). simpl.
    by rewrite andb_true_r.
  - split; simpl; [rewrite length_app, Hi; simpl; lia|]. intros ps r.
    rewrite all_hold_app, <-app_assoc, Hb, app_assoc. cbn [mbind option_bind all_hold holds]. unfold text_at.
    rewrite Hi, (param_here (params b) _ ps), (param_next (params b) _ _ ps). simpl. by rewrite andb_true_r.
Qed.

Lemma means_common f : (∀ k a, truthy (Some (hmac_sha256 k a)) ≠ None) → means (common_conditions hmac_sha256 f keys) (matches_common f).
Proof.
  intros Hh. unfold common_conditions.
  eapply means_ext; [|apply means_text with (q := λ v r, bool_decide (r_contract r = v)); [|intros ps r n v Hv; simpl; by rewrite Hv];
    apply means_address; [done|]; apply means_address; [done|];
    apply means_text with (q := λ v r, bool_decide (api_literal (r_status r) = v)); [apply means_empty|intros ps r n v Hv; simpl; by rewrite Hv]].
  intros r. done.
Qed.

Lemma means_times f b pred : means b pred → means (time_conditions f b) (λ r, pred r && matches_times f r).
Proof.
  intros Hb. unfold time_conditions.
  eapply means_ext; [|apply means_int with (q := λ v r, r_end r <=? v); [|intros ps r n v Hv; simpl; by rewrite Hv];
    apply means_int with (q := λ v r, v <=? r_end r); [|intros ps r n v Hv; simpl; by rewrite Hv];
    apply means_int with (q := λ v r, r_start r <=? v); [|intros ps r n v Hv; simpl; by rewrite Hv];
    apply means_int with (q := λ v r, v <=? r_start r); [done|intros ps r n v Hv; simpl; by rewrite Hv]].
  intros r. unfold matches_times, some_le. by rewrite <-!andb_assoc.
Qed.

End statements.

(** ** Lemmas: how the table evolves *)

(** Documented behaviour of pgcrypto: decryption inverts encryption with the same
    key and fails with another one, and a message is armored. *)
Record pgcrypto_laws (enc : Z → string → string → string) (dec : string → string → option string) : Prop := {
  decrypt_encrypt seed v k k' : dec (enc seed v k) k' = if decide (k = k') then Some v else None;
  armored seed v k : String.prefix PGP_MESSAGE_PREFIX (enc seed v k) = true;
}.

Section evolution.
Context (pgp_sym_encrypt : Z → string → string → string) (pgp_sym_decrypt : string → string → option string).
Context (pgcrypto : pgcrypto_laws pgp_sym_encrypt pgp_sym_decrypt).
Context (hmac_sha256 : string → string → string).
Context (collate : string → string → Prop) `{!RelDecision collate}.
Context (pgcryptoKey pgcryptoKeyPrevious : option string) (keys : PgcryptoKeySet).
Context (Hkeys : resolvePgcryptoKeys pgcryptoKey pgcryptoKeyPrevious = Ok keys).

Notation sql_step := (sql_step pgp_sym_encrypt pgp_sym_decrypt collate).
Notation step := (db_step pgp_sym_encrypt pgp_sym_decrypt collate).
Notation exec := (exec pgp_sym_encrypt pgp_sym_decrypt collate).
Notation readable := (readable pgp_sym_decrypt keys).
Notation inserted := (inserted pgp_sym_encrypt hmac_sha256 keys).
Notation insert_statement := (insert_statement hmac_sha256 keys).
Notation update_statement := (update_statement keys).
Notation db := (table * list table)%type.

(** What no update changes. *)
Definition immutable (r r' : row) : Prop :=
  r_id r' = r_id r ∧ r_sender r' = r_sender r ∧ r_recipient r' = r_recipient r ∧ r_sender_hash r' = r_sender_hash r ∧
  r_recipient_hash r' = r_recipient_hash r ∧ r_amount r' = r_amount r ∧ r_rate r' = r_rate r ∧ r_start r' = r_start r ∧
  r_contract r' = r_contract r ∧ r_event r' = r_event r ∧ r_created r' = r_created r.

Definition row_ok (r : row) : Prop := is_Some (readable r) ∧ r_id r ≠ "".
Definition table_ok (t : table) : Prop := ∀ i r, t !! i = Some r → r_id r = i ∧ row_ok r.
Definition db_ok (w : db) : Prop := ∀ t, t ∈ w.1 :: w.2 → table_ok t.

Record table_evolves (t t' : table) : Prop := {
  kept_rows i r : t !! i = Some r → ∃ r', t' !! i = Some r' ∧ immutable r r' ∧
    (r_status r' = r_status r ∨ api_step (r_status r) (r_status r'));
  new_rows i r : t !! i = None → t' !! i = Some r → r_id r = i ∧ r_status r = Api_active ∧ row_ok r ∧ has_event (r_event r) t = false;
  one_new_row i j r r' : t !! i = None → t' !! i = Some r → t !! j = None → t' !! j = Some r' → i = j;
}.

Definition db_evolves (w w' : db) : Prop := w' = w ∨ ∃ t', w' = commit t' w ∧ table_evolves w.1 t'.

Lemma immutable_refl r : immutable r r.
Proof. by unfold immutable. Qed.

Lemma evolves_same w : db_evolves w (commit w.1 w).
Proof. right. exists w.1. split; [done|]. split; [|intros; congruence|intros; congruence]. intros i r Hr. exists r. auto using immutable_refl. Qed.

Lemma project_stored k p r r' : r_sender r' = r_sender r → r_recipient r' = r_recipient r →
  is_Some (project pgp_sym_decrypt k p r) → is_Some (project pgp_sym_decrypt k p r').
Proof.
  unfold project. intros -> ->. destruct (decrypt_stream_address _ _ _ _); simpl; [|by intros []].
  destruct (decrypt_stream_address _ _ _ _); simpl; [|by intros []]. by eexists.
Qed.

Lemma immutable_ok r r' : immutable r r' → row_ok r → row_ok r'.
Proof.
  intros (Hid & Hs & Hr & _) [Hrd Hne]. split; [|by rewrite Hid]. unfold readable. by eapply project_stored.
Qed.

Lemma inserted_readable now seed input : is_Some (readable (inserted now seed input)).
Proof.
  unfold StreamRepository.readable, project, decrypt_stream_address. simpl.
  rewrite !(armored _ _ pgcrypto), !(decrypt_encrypt _ _ pgcrypto). rewrite !decide_True by done. by eexists.
Qed.

Lemma read_step {A} (q : sql A) w x w' : writes q = false → sql_step q w x w' →
  w' = w ∧ ((∃ e, x = Err e) ∨ ∃ t now seed, (if on_read_pool q then t ∈ w.1 :: w.2 else t = w.1) ∧ x = (exec now seed q t).1).
Proof. intros Hq Hs. destruct Hs; [by eauto|by eauto 10|congruence|congruence]. Qed.

Lemma write_step {A} (q : sql A) w x w' : writes q = true → sql_step q w x w' →
  (w' = w ∧ ∃ e, x = Err e) ∨ ∃ now seed, w' = commit (exec now seed q w.1).2 w ∧ (x = (exec now seed q w.1).1 ∨ ∃ e, x = Err e).
Proof. intros Hq Hs. destruct Hs; [by eauto|congruence|by eauto 10|by eauto 10]. Qed.

Lemma insert_writes input : writes (insert_statement input) = true.
Proof. unfold StreamRepository.insert_statement. by destruct (push_previous _ _). Qed.
Lemma update_writes i input from : writes (update_statement i input from) = true.
Proof. unfold StreamRepository.update_statement. destruct (set_clauses _). by destruct (push_previous _ _). Qed.

Lemma has_event_true e t : has_event e t = true ↔ ∃ i r, t !! i = Some r ∧ r_event r = e.
Proof.
  unfold has_event, rows. rewrite existsb_exists. split.
  - intros (r & Hr & He). apply list_elem_of_In, list_elem_of_fmap in Hr as ([i r'] & -> & Hi).
    apply elem_of_map_to_list in Hi. apply bool_decide_eq_true in He. by exists i, r'.
  - intros (i & r & Hr & He). exists r. split; [|by apply bool_decide_eq_true].
    apply list_elem_of_In, list_elem_of_fmap. exists (i, r). split; [done|]. by apply elem_of_map_to_list.
Qed.

(** An insertion adds the row when the event is new and otherwise changes nothing. *)
Lemma insert_effect now seed input t :
  let r := inserted now seed input in
  (exec now seed (insert_statement input) t).2 = t ∧
    (has_event (r_event r) t = true ∧ (exec now seed (insert_statement input) t).1 = Ok [] ∨
     ∃ e, (exec now seed (insert_statement input) t).1 = Err e) ∨
  has_event (r_event r) t = false ∧ t !! r_id r = None ∧ (exec now seed (insert_statement input) t).2 = <[r_id r := r]> t ∧
    ∃ s, readable r = Some s ∧ (exec now seed (insert_statement input) t).1 = Ok [s].
Proof.
  rewrite exec_insert_statement. simpl. destruct (has_event _ _) eqn:He; [by eauto|].
  destruct (t !! ci_id input) eqn:Hi; [left; eauto|]. pose proof (inserted_readable now seed input) as [s Hs].
  rewrite Hs. right. eauto 10.
Qed.

Lemma insert_evolves input w x w' : ci_id input ≠ "" → sql_step (insert_statement input) w x w' → db_evolves w w'.
Proof.
  intros Hid Hs. apply write_step in Hs as [[-> _]|(now & seed & -> & _)]; [by left| |apply insert_writes].
  destruct (insert_effect now seed input w.1) as [[-> _]|(He & Hi & -> & _)]; [apply evolves_same|].
  right. eexists. split; [done|]. split.
  - intros j r Hr. exists r. split; [|auto using immutable_refl]. rewrite lookup_insert_ne; [done|]. intros E. rewrite <-E in Hr. simpl in *. congruence.
  - intros j r Hj Hr. apply lookup_insert_Some in Hr as [[<- <-]|[_ Hr]]; [|congruence]. simpl. splits; [done|done| |done].
    split; [apply inserted_readable|done].
  - intros j k r r' Hj Hr Hk Hr'. apply lookup_insert_Some in Hr as [[<- _]|[_ Hr]]; [|congruence].
    by apply lookup_insert_Some in Hr' as [[<- _]|[_ Hr']]; [|congruence].
Qed.

Lemma updated_immutable now input r : immutable r (updated now input r).
Proof. by unfold immutable. Qed.

(** An update changes the row only when its status is still the one that was read. *)
Lemma update_effect now seed i input from t :
  (exec now seed (update_statement i input from) t).2 = t ∧
    ((exec now seed (update_statement i input from) t).1 = Ok [] ∨ ∃ e, (exec now seed (update_statement i input from) t).1 = Err e) ∨
  ∃ r s, t !! i = Some r ∧ r_status r = from ∧ readable (updated now input r) = Some s ∧
    exec now seed (update_statement i input from) t = (Ok [s], <[i := updated now input r]> t).
Proof.
  rewrite exec_update_statement. destruct (t !! i) as [r|] eqn:Hr; [|by left; auto]. case_bool_decide; [|by left; auto].
  destruct (readable (updated now input r)) as [s|] eqn:Hs; [|by left; eauto]. right. by exists r, s.
Qed.

Definition permitted (from : ApiStreamStatus) (input : UpdateStreamInput) : Prop :=
  match ui_status input with Some s => api_step from s | None => True end.

Lemma updated_evolves now i input t r : t !! i = Some r → permitted (r_status r) input →
  table_evolves t (<[i := updated now input r]> t).
Proof.
  intros Hr Hp. split.
  - intros j r0 Hj. destruct (decide (i = j)) as [<-|Hne].
    + rewrite lookup_insert_eq. exists (updated now input r0). simplify_eq. splits; [done|by apply updated_immutable|].
      unfold permitted in Hp. simpl. destruct (ui_status input); auto.
    + rewrite lookup_insert_ne by done. exists r0. auto using immutable_refl.
  - intros j r0 Hj Hr0. apply lookup_insert_Some in Hr0 as [[<- _]|[_ ?]]; congruence.
  - intros j k r0 r1 Hj Hr0. apply lookup_insert_Some in Hr0 as [[<- _]|[_ ?]]; congruence.
Qed.

Lemma update_evolves i input from w x w' : permitted from input → sql_step (update_statement i input from) w x w' → db_evolves w w'.
Proof.
  intros Hp Hs. apply write_step in Hs as [[-> _]|(now & seed & -> & _)]; [by left| |apply update_writes].
  destruct (update_effect now seed i input from w.1) as [[-> _]|(r & s & Hr & <- & _ & ->)]; [apply evolves_same|].
  right. eexists. split; [done|]. by apply updated_evolves.
Qed.

(** Well-formed tables stay well-formed, and rows once shown stay. *)
Lemma evolves_ok w w' : db_evolves w w' → db_ok w → db_ok w'.
Proof.
  intros [->|(t' & -> & He)] Hok; [done|]. intros t Ht. simpl in Ht. apply elem_of_cons in Ht as [->|Ht]; [|by apply Hok].
  intros i r Hr. destruct (w.1 !! i) as [r0|] eqn:Hi.
  - destruct (kept_rows _ _ He i r0 Hi) as (r' & Hr' & Him & _). simplify_eq.
    destruct (Hok w.1 ltac:(by left) i r0 Hi) as [Hid Hr0]. split; [|by eapply immutable_ok].
    destruct Him as [-> _]. done.
  - destruct (new_rows _ _ He i r Hi Hr) as (Hid & _ & Hro & _). done.
Qed.

Lemma evolves_ok_rtc w w' : rtc db_evolves w w' → db_ok w → db_ok w'.
Proof. induction 1; eauto using evolves_ok. Qed.

(** The status of a row along any evolution. *)
Lemma evolves_status w w' i r : rtc db_evolves w w' → w.1 !! i = Some r →
  ∃ r', w'.1 !! i = Some r' ∧ immutable r r' ∧ rtc api_step (r_status r) (r_status r').
Proof.
  intros Hs. revert r. induction Hs as [w|w1 w2 w3 Hst _ IH]; intros r Hr; [exists r; auto using immutable_refl, rtc_refl|].
  destruct Hst as [->|(t' & -> & He)]; [by apply IH|].
  destruct (kept_rows _ _ He i r Hr) as (r1 & Hr1 & Him1 & Hst1). destruct (IH r1 Hr1) as (r' & Hr' & Him & Hst).
  exists r'. splits; [done|unfold immutable in *; intuition congruence|].
  destruct Hst1 as [E|E]; [by rewrite <-E|by eapply rtc_l].
Qed.

Lemma evolves_new w w' i r : rtc db_evolves w w' → w.1 !! i = None → w'.1 !! i = Some r → rtc api_step Api_active (r_status r).
Proof.
  intros Hs. induction Hs as [w|w1 w2 w3 Hst Hs IH]; intros Hn Hr; [congruence|].
  destruct Hst as [->|(t' & -> & He)]; [by apply IH|]. destruct (t' !! i) as [r1|] eqn:Hr1.
  - destruct (new_rows _ _ He i r1 Hn Hr1) as (_ & Hact & _). destruct (evolves_status _ _ i r1 Hs Hr1) as (r' & Hr' & _ & Hst).
    simpl in *. rewrite Hact in Hst. by simplify_eq.
  - by apply IH.
Qed.

(** ** Lemmas: calls among others *)

Notation call A := (eff statement (result RepoError A)).
Notation safe := (safe step db_evolves).
Notation getById := (getById pgcryptoKey pgcryptoKeyPrevious).
Notation getByEvent := (getByEvent pgcryptoKey pgcryptoKeyPrevious).
Notation upsertStream := (upsertStream hmac_sha256 pgcryptoKey pgcryptoKeyPrevious).
Notation updateStream := (updateStream pgcryptoKey pgcryptoKeyPrevious).
Notation find := (find hmac_sha256 pgcryptoKey pgcryptoKeyPrevious).
Notation findWithCursor := (findWithCursor hmac_sha256 pgcryptoKey pgcryptoKeyPrevious).

Lemma safe_query {A B} (Q : result RepoError B → db → Prop) (q : sql A) (k : A → call B) w :
  (∀ w1 x w2, rtc db_evolves w w1 → sql_step q w1 x w2 → db_evolves w1 w2 ∧
     match x with Ok a => safe Q (k a) w2 | Err e => ∀ w3, rtc db_evolves w2 w3 → Q (Err (DbError e)) w3 end) →
  safe Q (query q k) w.
Proof. intros Hq w1 x w2 Hw Hst. destruct (Hq w1 x w2 Hw Hst) as [He Hx]. split; [done|]. by destruct x. Qed.

(** A read returns what some version of the table shows. *)
Lemma safe_read {A B} (Q : result RepoError B → db → Prop) (q : sql A) (k : A → call B) w :
  writes q = false → (∀ e w1, rtc db_evolves w w1 → Q (Err (DbError e)) w1) →
  (∀ w1 t now seed a, rtc db_evolves w w1 → (if on_read_pool q then t ∈ w1.1 :: w1.2 else t = w1.1) →
     (exec now seed q t).1 = Ok a → safe Q (k a) w1) →
  safe Q (query q k) w.
Proof.
  intros Hq He Hk. apply safe_query. intros w1 x w2 Hw Hst.
  destruct (read_step q w1 x w2 Hq Hst) as [-> [[e ->]|(t & now & seed & Ht & ->)]]; (split; [by left|]).
  - intros w3 Hw3. apply He. by etrans.
  - destruct (exec now seed q t).1 as [a|e] eqn:Hx; [by eapply Hk|]. intros w3 Hw3. apply He. by etrans.
Qed.

Definition getById_query (i : string) (forcePrimary : bool) : sql (list StreamRecord) :=
  let '(ps, previousKeyIndex) := push_previous keys [PText i; PText (current keys)] in
  Select forcePrimary (by_condition (2%nat, previousKeyIndex) (IdIs 1)) ps.
Definition getByEvent_query (h : string) (x : Z) : sql (list StreamRecord) :=
  let '(ps, previousKeyIndex) := push_previous keys [PText h; PInt x; PText (current keys)] in
  Select false (by_condition (3%nat, previousKeyIndex) (EventIs 1 2)) ps.

Lemma getById_eq i fp : getById i fp = query (getById_query i fp) (λ l, Done (Ok (head l))).
Proof. unfold StreamRepository.getById, getById_query. rewrite Hkeys. simpl. by destruct (push_previous _ _). Qed.
Lemma getByEvent_eq h x : getByEvent h x = query (getByEvent_query h x) (λ l, Done (Ok (head l))).
Proof. unfold StreamRepository.getByEvent, getByEvent_query. rewrite Hkeys. simpl. by destruct (push_previous _ _). Qed.

(** Rows read by one condition. *)
Lemma where_rows_filter ps c l f : (∀ r, all_hold collate ps r c = Some (f r)) → where_rows collate ps c l = Some (filter (λ r, f r = true) l).
Proof.
  intros Hc. induction l as [|r l IH]; simpl; [done|]. rewrite Hc, IH. simpl. rewrite filter_cons.
  destruct (f r); [by rewrite decide_True|by rewrite decide_False].
Qed.

Lemma mapM_head {A B} (f : A → option B) l l' b : mapM f l = Some l' → head l' = Some b → ∃ a, a ∈ l ∧ f a = Some b.
Proof.
  intros Hl Hb. apply mapM_Some in Hl. destruct Hl as [|a b' l l' Ha _]; [done|]. simplify_eq/=. exists a. split; [by left|done].
Qed.
Lemma mapM_elem {A B} (f : A → option B) l l' b : mapM f l = Some l' → b ∈ l' → ∃ a, a ∈ l ∧ f a = Some b.
Proof.
  intros Hl Hb. apply mapM_Some in Hl. induction Hl as [|x y l l' Hx _ IH]; [by apply elem_of_nil in Hb|].
  apply elem_of_cons in Hb as [->|Hb]; [exists x; split; [by left|done]|]. destruct (IH Hb) as (a & Ha & Hfa).
  exists a. split; [by right|done].
Qed.
Lemma mapM_nil {A B} (f : A → option B) l l' : mapM f l = Some l' → head l' = None → l = [].
Proof. intros Hl Hb. apply mapM_Some in Hl. by destruct Hl. Qed.

Lemma exec_by_condition now seed q t fp ps p c n l f :
  q = Select fp (by_condition (n, p) c) ps → (∀ r, holds collate ps r c = Some (f r)) →
  (∀ r, project_at pgp_sym_decrypt ps (n, p) r = readable r) →
  (exec now seed q t).1 = Ok l →
  (∀ s, head l = Some s → ∃ i r, t !! i = Some r ∧ f r = true ∧ readable r = Some s) ∧
  (head l = None → ∀ i r, t !! i = Some r → f r = false).
Proof.
  intros -> Hc Hp Hx. simpl in Hx. unfold exec_select in Hx. simpl in Hx.
  rewrite (where_rows_filter ps [c] (rows t) f) in Hx by (intros r; simpl; rewrite Hc; simpl; by rewrite andb_true_r).
  simpl in Hx. unfold limited in Hx. simpl in Hx. destruct (mapM _ _) as [l'|] eqn:Hm; simpl in Hx; [|done]. simplify_eq. split.
  - intros s Hs. destruct (mapM_head _ _ _ _ Hm Hs) as (r & Hr & Hs'). apply list_elem_of_filter in Hr as [Hf Hr].
    apply list_elem_of_fmap in Hr as ([i r'] & -> & Hi). apply elem_of_map_to_list in Hi. simpl in *.
    exists i, r'. splits; [done|done|by rewrite <-Hp].
  - intros Hn i r Hi. destruct (f r) eqn:Hf; [|done]. apply mapM_nil in Hm; [|done].
    assert (r ∈ filter (λ r, f r = true) (rows t)) as Hin.
    { apply list_elem_of_filter. split; [done|]. apply list_elem_of_fmap. exists (i, r). split; [done|]. by apply elem_of_map_to_list. }
    rewrite Hm in Hin. by apply elem_of_nil in Hin.
Qed.

Lemma getById_reads now seed i fp t l : table_ok t → (exec now seed (getById_query i fp) t).1 = Ok l →
  match head l with Some s => ∃ r, t !! i = Some r ∧ readable r = Some s | None => t !! i = None end.
Proof.
  intros Hok Hx. unfold getById_query, push_previous in Hx.
  assert (∀ ps p, text_at ps 1 = Some i → (∀ r, project_at pgp_sym_decrypt ps (2%nat, p) r = readable r) →
    (exec now seed (Select fp (by_condition (2%nat, p) (IdIs 1)) ps) t).1 = Ok l →
    match head l with Some s => ∃ r, t !! i = Some r ∧ readable r = Some s | None => t !! i = None end) as Hg.
  { intros ps p Hi Hp Hx'. destruct (exec_by_condition now seed _ t fp ps p (IdIs 1) 2 l (λ r, bool_decide (r_id r = i)) eq_refl) as [H1 H2];
      [intros r; simpl; by rewrite Hi|done|done|]. destruct (head l) as [s|].
    - destruct (H1 s eq_refl) as (j & r & Hj & Hid & Hs). apply bool_decide_eq_true in Hid.
      destruct (Hok j r Hj) as [<- _]. exists r. by rewrite <-Hid.
    - destruct (t !! i) as [r|] eqn:Hr; [|done]. pose proof (H2 eq_refl i r Hr) as Hf. apply bool_decide_eq_false in Hf.
      by destruct (Hok i r Hr). }
  destruct (truthy (previous keys)) as [p|] eqn:Hp; eapply Hg; try exact Hx; try done; intros r; unfold StreamRepository.readable; by rewrite Hp.
Qed.

Lemma getByEvent_reads now seed h x t l s : (exec now seed (getByEvent_query h x) t).1 = Ok l → head l = Some s →
  ∃ i r, t !! i = Some r ∧ r_event r = (h, x) ∧ readable r = Some s.
Proof.
  intros Hx Hs. unfold getByEvent_query, push_previous in Hx.
  assert (∀ ps p, text_at ps 1 = Some h → int_at ps 2 = Some x → (∀ r, project_at pgp_sym_decrypt ps (3%nat, p) r = readable r) →
    (exec now seed (Select false (by_condition (3%nat, p) (EventIs 1 2)) ps) t).1 = Ok l →
    ∃ i r, t !! i = Some r ∧ r_event r = (h, x) ∧ readable r = Some s) as Hg.
  { intros ps p Hh Hi Hp Hx'. destruct (exec_by_condition now seed _ t false ps p (EventIs 1 2) 3 l (λ r, bool_decide (r_event r = (h, x))) eq_refl) as [H1 _];
      [intros r; simpl; by rewrite Hh, Hi|done|done|]. destruct (H1 s Hs) as (j & r & Hj & Hid & Hr).
    apply bool_decide_eq_true in Hid. eauto. }
  destruct (truthy (previous keys)) as [p|] eqn:Hp; eapply Hg; try exact Hx; try done; intros r; unfold StreamRepository.readable; by rewrite Hp.
Qed.

Lemma readable_status r s : readable r = Some s → status s = r_status r ∧ id s = r_id r ∧ (transaction_hash s, event_index s) = r_event r.
Proof.
  unfold StreamRepository.readable, project.
  destruct (decrypt_stream_address _ (r_recipient r) _ _), (decrypt_stream_address _ (r_sender r) _ _); simpl; try done. intros [= <-]. simpl. by destruct (r_event r).
Qed.

Lemma getById_read_query i fp : writes (getById_query i fp) = false.
Proof. unfold getById_query. by destruct (push_previous _ _). Qed.
Lemma getByEvent_read_query h x : writes (getByEvent_query h x) = false ∧ on_read_pool (getByEvent_query h x) = true.
Proof. unfold getByEvent_query. by destruct (push_previous _ _). Qed.
Lemma getById_pool i fp : on_read_pool (getById_query i fp) = negb fp.
Proof. unfold getById_query. by destruct (push_previous _ _). Qed.

Lemma safe_getById Q i fp w : db_ok w →
  (∀ e w1, rtc db_evolves w w1 → Q (Err e) w1) →
  (∀ w1 t x w2, rtc db_evolves w w1 → (if fp : bool then t = w1.1 else t ∈ w1.1 :: w1.2) →
     match x with Some s => ∃ r, t !! i = Some r ∧ readable r = Some s | None => t !! i = None end →
     rtc db_evolves w1 w2 → Q (Ok x) w2) →
  safe Q (getById i fp) w.
Proof.
  intros Hok He Hx. rewrite getById_eq. apply safe_read; [apply getById_read_query|auto|].
  intros w1 t now seed l Hw Ht Hl w2 Hw2. rewrite getById_pool in Ht.
  assert (t ∈ w1.1 :: w1.2) as Hin by (destruct fp; simpl in Ht; [subst; by left|done]).
  pose proof (getById_reads now seed i fp t l (evolves_ok_rtc _ _ Hw Hok t Hin) Hl) as Hr.
  eapply (Hx w1 t); [done|by destruct fp|exact Hr|done].
Qed.

Lemma safe_getByEvent Q h x w : (∀ e w1, rtc db_evolves w w1 → Q (Err e) w1) →
  (∀ w1 t l w2, rtc db_evolves w w1 → t ∈ w1.1 :: w1.2 →
     (∀ s, l = Some s → ∃ i r, t !! i = Some r ∧ r_event r = (h, x) ∧ readable r = Some s) → rtc db_evolves w1 w2 → Q (Ok l) w2) →
  safe Q (getByEvent h x) w.
Proof.
  intros He Hx. rewrite getByEvent_eq. destruct (getByEvent_read_query h x) as [Hwr Hpool].
  apply safe_read; [done|auto|]. intros w1 t now seed l Hw Ht Hl w2 Hw2. rewrite Hpool in Ht.
  apply (Hx w1 t); [done|done| |done]. intros s Hs. by eapply getByEvent_reads.
Qed.

Lemma safe_orThrow {A B} Q (r : result RepoError A) (k : A → call B) w : (∀ e w1, rtc db_evolves w w1 → Q (Err e) w1) →
  (∀ a, safe Q (k a) w) → safe Q (orThrow r k) w.
Proof. intros He Hk. destruct r as [a|e]; [apply Hk|]. intros w1 Hw. by apply He. Qed.

Lemma safe_try {A B} Q (p : call A) (f : A → call B) w :
  safe (λ x w1, match x with Ok a => safe Q (f a) w1 | Err e => ∀ w2, rtc db_evolves w1 w2 → Q (Err e) w2 end) p w → safe Q (try_bind p f) w.
Proof. intros Hp. apply safe_then. revert Hp. apply safe_weaken. by intros [a|e] w1. Qed.

Lemma safe_upsertStream input w : ci_id input ≠ "" → db_ok w → safe (λ _ _, True) (upsertStream input) w.
Proof.
  intros Hid Hok. unfold StreamRepository.upsertStream. rewrite Hkeys. simpl orThrow. apply safe_query.
  intros w1 x w2 Hw Hst. pose proof (insert_evolves input w1 x w2 Hid Hst) as Hev. split; [done|].
  assert (db_ok w2) as Hok2 by (eapply evolves_ok; [done|]; by eapply evolves_ok_rtc).
  destruct x as [l|e]; [|done]. destruct (head l) as [s|]; [done|].
  apply safe_try, safe_getById; [done|done|]. intros w3 t y w4 Hw3 _ _ Hw4. destruct y; [done|].
  apply safe_try, safe_getByEvent; [done|]. intros w5 t' l' w6 _ _ _ _. by destruct l'.
Qed.

Lemma permitted_of from input : 
  match ui_status input with Some s => negb (isValidStatusTransition from s) | None => false end = false → permitted from input.
Proof. unfold permitted, api_step, isValidStatusTransition. destruct (ui_status input); [|done]. by destruct (isValidApiTransition _ _). Qed.

Lemma safe_updateStream i input w : db_ok w → safe (λ _ _, True) (updateStream i input) w.
Proof.
  intros Hok. apply safe_try, safe_getById; [done|done|]. intros w1 t x w2 Hw Ht Hx Hw2.
  destruct x as [cur|]; [|done].
  match goal with |- context [if ?b then _ else _] => destruct b eqn:Hv; [done|] end. apply permitted_of in Hv. rewrite Hkeys. simpl orThrow. apply safe_query. intros w3 y w4 Hw3 Hst.
  split; [by eapply update_evolves|]. destruct y as [l|e]; [|done]. destruct (head l) as [s|]; [done|].
  apply safe_read; [done|done|]. intros w5 t' now seed b _ _ _. by destruct b.
Qed.

Lemma safe_find f limit offset w : safe (λ _ _, True) (find f limit offset) w.
Proof.
  apply safe_orThrow; [done|]. intros eff. apply safe_orThrow; [done|]. intros ks. cbv beta zeta.
  destruct (push_previous _ _) as [ps prev]. apply safe_orThrow; [done|]. intros q.
  apply safe_read; [done|done|]. intros w1 t now seed n _ _ _. by apply safe_read.
Qed.

Lemma safe_findWithCursor f limit afterId total fp w : safe (λ _ _, True) (findWithCursor f limit afterId total fp) w.
Proof.
  apply safe_orThrow; [done|]. intros eff. apply safe_orThrow; [done|]. intros ks. cbv beta zeta.
  destruct (push_previous _ _) as [ps prev]. apply safe_orThrow; [done|]. intros q.
  apply safe_read; [done|done|]. intros w1 t now seed l _ _ _. destruct total; [|done]. by apply safe_read.
Qed.

(** Any call of the repository. *)
Inductive operation : Type :=
| OpGet (i : string) (forcePrimary : bool) | OpGetByEvent (h : string) (x : Z) | OpExists (i : string)
| OpUpsert (input : CreateStreamInput) | OpUpdate (i : string) (input : UpdateStreamInput)
| OpFind (f : StreamFilter) (limit : jsnum) (offset : Z)
| OpFindWithCursor (f : StreamFilter) (limit : jsnum) (afterId : option string) (total forcePrimary : bool)
| OpCountByStatus.

Definition perform (o : operation) : call unit :=
  match o with
  | OpGet i fp => try_bind (getById i fp) (λ _, Done (Ok tt))
  | OpGetByEvent h x => try_bind (getByEvent h x) (λ _, Done (Ok tt))
  | OpExists i => try_bind (existsById i) (λ _, Done (Ok tt))
  | OpUpsert input => try_bind (upsertStream input) (λ _, Done (Ok tt))
  | OpUpdate i input => try_bind (updateStream i input) (λ _, Done (Ok tt))
  | OpFind f limit offset => try_bind (find f limit offset) (λ _, Done (Ok tt))
  | OpFindWithCursor f limit a total fp => try_bind (findWithCursor f limit a total fp) (λ _, Done (Ok tt))
  | OpCountByStatus => try_bind countByStatus (λ _, Done (Ok tt))
  end.

Definition names_ids (o : operation) : Prop := match o with OpUpsert input => ci_id input ≠ "" | _ => True end.

Lemma safe_perform o w : names_ids o → db_ok w → safe (λ _ _, True) (perform o) w.
Proof.
  intros Hn Hok. assert (∀ A (p : call A), safe (λ _ _, True) p w → safe (λ _ _, True) (try_bind p (λ _, Done (Ok tt))) w) as Ht.
  { intros A p Hp. apply safe_try. refine (safe_weaken _ _ _ _ _ _ _ Hp). by intros [a|e]. }
  destruct o; cbn [perform names_ids] in *; apply Ht; auto using safe_upsertStream, safe_updateStream, safe_find, safe_findWithCursor.
  - by apply safe_getById.
  - by apply safe_getByEvent.
  - by apply safe_read.
  - by apply safe_read.
Qed.

(** ** Lemmas: contention *)

Definition terminal_row (i : string) (w : db) : Prop :=
  ∃ r, w.1 !! i = Some r ∧ isTerminalStatus (Reported (r_status r)) = true.

Lemma contends_read {A B} P won (q : sql A) (k : A → call B) b : writes q = false →
  (∀ a, contends step P won b (k a)) → (∀ e, ¬ won (Err (DbError e))) → contends step P won b (query q k).
Proof.
  intros Hq Hk He w x w' Hst. destruct (read_step q w x w' Hq Hst) as [-> _]. split; [done|left].
  destruct x; [apply Hk|]. right. apply He.
Qed.

Lemma contends_try {A B} (P : db → Prop) (won : result RepoError B → Prop) (wonA : result RepoError A → Prop) b b' (p : call A) (f : A → call B) :
  (∀ a, contends step P won b (f a)) → (∀ e, ¬ won (Err e)) → contends step P wonA b' p → contends step P won b (try_bind p f).
Proof.
  intros Hf He. unfold try_bind. revert b'. induction p as [[a|e]|X c k IH]; intros b'; simpl; [by auto|by auto|].
  intros Hc w x w' Hst. destruct (Hc w x w' Hst) as [HP [Hn|(_ & _ & Hn)]]; (split; [done|left]); by eapply IH.
Qed.

Lemma contends_getById P i fp : contends step P (λ _, False) false (getById i fp).
Proof. rewrite getById_eq. apply contends_read; [apply getById_read_query|intros ?; right; intros []|by intros ? ?]. Qed.
Lemma contends_getByEvent P h x : contends step P (λ _, False) false (getByEvent h x).
Proof. rewrite getByEvent_eq. apply contends_read; [apply getByEvent_read_query|intros ?; right; intros []|by intros ? ?]. Qed.

Definition has_created (x : result RepoError UpsertResult) : Prop := ∃ s, x = Ok {| created := true; stream := s |}.

Lemma contends_upsert input e : (ci_transaction_hash input, ci_event_index input) = e →
  contends step (λ w, has_event e w.1 = true) has_created false (upsertStream input).
Proof.
  intros He. unfold StreamRepository.upsertStream. rewrite Hkeys. simpl orThrow. intros w x w' Hst.
  apply write_step in Hst; [|apply insert_writes]. destruct Hst as [[-> [e' ->]]|(now & seed & -> & Hx)].
  { split; [done|]. left. right. by intros [s ?]. }
  destruct (insert_effect now seed input w.1) as [[Ht Hr]|(Hn & Hi & Ht & s & Hs & Hr)].
  - rewrite Ht. split; [done|]. left. assert (x = Ok [] ∨ ∃ e', x = Err e') as Hx' by naive_solver. clear Hx Hr Ht.
    destruct Hx' as [->|[e' ->]]; simpl; [|right; by intros [s ?]].
    eapply contends_try; [|by intros ? [? ?]|apply contends_getById]. intros [s|]; [right; by intros [s' ?]|].
    eapply contends_try; [|by intros ? [? ?]|apply contends_getByEvent]. intros [s|]; right; by intros [s' ?].
  - assert (has_event e (<[ci_id input := inserted now seed input]> w.1) = true) as Hnew.
    { apply has_event_true. eexists _, _. split; [apply lookup_insert_eq|done]. }
    simpl in Hn, Ht. rewrite Ht. simpl. split; [done|]. rewrite Hr in Hx. destruct Hx as [->|[e' ->]]; simpl.
    + right. rewrite He in Hn. splits; [congruence|done|by left].
    + left. right. by intros [s' ?].
Qed.

Definition succeeded {A} (x : result RepoError A) : Prop := ∃ a, x = Ok a.

Lemma contends_update i input s : ui_status input = Some s → isTerminalStatus (Reported s) = true →
  contends step (terminal_row i) succeeded false (updateStream i input).
Proof.
  intros Hs Hterm. eapply contends_try; [|by intros ? [? ?]|apply contends_getById].
  intros [cur|]; [|right; by intros [? ?]].
  match goal with |- context [if ?b then _ else _] => destruct b eqn:Hv; [right; by intros [? ?]|] end.
  apply permitted_of in Hv. unfold permitted in Hv. rewrite Hs in Hv. rewrite Hkeys. simpl orThrow. intros w x w' Hst.
  apply write_step in Hst; [|apply update_writes]. destruct Hst as [[-> [e' ->]]|(now & seed & -> & Hx)].
  { split; [done|]. left. right. by intros [? ?]. }
  destruct (update_effect now seed i input (status cur) w.1) as [[Ht Hr]|(r & rec & Hi & Hf & Hrd & Hr)].
  - rewrite Ht. split; [done|]. left. assert (x = Ok [] ∨ ∃ e', x = Err e') as Hx' by naive_solver. clear Hx Hr Ht.
    destruct Hx' as [->|[e' ->]]; simpl; [|right; by intros [? ?]].
    intros w1 y w1' Hst. apply read_step in Hst as [-> _]; [|done]. split; [done|]. left. destruct y as [[]|]; right; by intros [? ?].
  - rewrite Hr in Hx |- *. assert (terminal_row i (commit (<[i := updated now input r]> w.1) w)) as HP.
    { exists (updated now input r). split; [apply lookup_insert_eq|]. simpl. by rewrite Hs. }
    split; [done|]. destruct Hx as [->|[e' ->]]; simpl; [|left; right; by intros [? ?]].
    right. splits; [|done|by left]. intros (r' & Hr' & Hterm'). simplify_eq. rewrite Hf in Hterm'. by eapply isTerminal_stuck.
Qed.

(** A terminal row keeps its status. *)
Lemma terminal_stays w w' i r : rtc db_evolves w w' → w.1 !! i = Some r → isTerminalStatus (Reported (r_status r)) = true →
  ∃ r', w'.1 !! i = Some r' ∧ r_status r' = r_status r.
Proof.
  intros Hw Hr Hterm. destruct (evolves_status w w' i r Hw Hr) as (r' & Hr' & _ & Hst). exists r'. split; [done|].
  inversion Hst as [|? s2 ? Hs _]; [done|]. by apply isTerminal_stuck in Hs.
Qed.

Lemma safe_update_final i input s w : db_ok w → ui_status input = Some s → isTerminalStatus (Reported s) = true →
  safe (λ x w', ∀ a, x = Ok a → status a = s ∧ ∃ r, w'.1 !! i = Some r ∧ r_status r = s) (updateStream i input) w.
Proof.
  intros Hok Hs Hterm. apply safe_try, safe_getById; [done|done|]. intros w1 t x w2 _ _ _ _.
  destruct x as [cur|]; [|done].
  match goal with |- context [if ?b then _ else _] => destruct b eqn:Hv; [done|] end. apply permitted_of in Hv.
  rewrite Hkeys. simpl orThrow. apply safe_query. intros w3 y w4 Hw3 Hst. split; [by eapply update_evolves|].
  apply write_step in Hst; [|apply update_writes]. destruct Hst as [[-> [e' ->]]|(now & seed & -> & Hx)]; [done|].
  destruct (update_effect now seed i input (status cur) w3.1) as [[Ht Hr]|(r & rec & Hi & Hf & Hrd & Hr)].
  - assert (y = Ok [] ∨ ∃ e', y = Err e') as Hx' by naive_solver. destruct Hx' as [->|[e' ->]]; [simpl head; cbv iota|done].
    apply safe_read; [done|done|]. intros w5 t' now' seed' b _ _ _. by destruct b.
  - rewrite Hr in Hx |- *. destruct Hx as [->|[e' ->]]; [|done]. intros w5 Hw5 a [= <-].
    apply readable_status in Hrd as [Hst _]. simpl in Hst. rewrite Hs in Hst. split; [done|].
    destruct (terminal_stays _ _ i (updated now input r) Hw5) as (r' & Hr' & E); [apply lookup_insert_eq|simpl; by rewrite Hs|].
    exists r'. split; [done|]. rewrite E. simpl. by rewrite Hs.
Qed.

Lemma evolves_has_event w w' e : rtc db_evolves w w' → has_event e w.1 = true → has_event e w'.1 = true.
Proof.
  intros Hw. rewrite !has_event_true. intros (i & r & Hr & He). destruct (evolves_status w w' i r Hw Hr) as (r' & Hr' & Him & _).
  exists i, r'. split; [done|]. destruct Him as (_ & _ & _ & _ & _ & _ & _ & _ & _ & -> & _). done.
Qed.

(** A call that returns has found or made a row of its event. *)
Lemma safe_upsert_present input w : ci_id input ≠ "" → db_ok w →
  safe (λ x w', is_ok x = true → has_event (ci_transaction_hash input, ci_event_index input) w'.1 = true) (upsertStream input) w.
Proof.
  intros Hid Hok. unfold StreamRepository.upsertStream. rewrite Hkeys. simpl orThrow. apply safe_query.
  intros w1 x w2 Hw Hst. pose proof (insert_evolves input w1 x w2 Hid Hst) as Hev. split; [done|].
  assert (db_ok w2) as Hok2 by (eapply evolves_ok; [done|]; by eapply evolves_ok_rtc).
  apply write_step in Hst; [|apply insert_writes]. destruct Hst as [[-> [e' ->]]|(now & seed & -> & Hx)]; [done|].
  destruct x as [l|e']; [|done].
  set (w2 := commit _ _) in *. assert (has_event (ci_transaction_hash input, ci_event_index input) w2.1 = true) as Hhas.
  { unfold w2. simpl. destruct (insert_effect now seed input w1.1) as [[-> [[Hh _]|[e' Hr]]]|(_ & _ & -> & _)]; [done| |].
    - rewrite Hr in Hx. destruct Hx as [?|[? ?]]; done.
    - apply has_event_true. eexists _, _. split; [apply lookup_insert_eq|done]. }
  destruct (head l) as [s|]; [intros w3 Hw3 _; by eapply evolves_has_event|].
  apply safe_try, safe_getById; [done|intros e' w3 Hw3 w4 Hw4; done|]. intros w3 t y w4 Hw3 _ _ Hw4.
  assert (rtc db_evolves w2 w4) as Hw24 by by etrans.
  destruct y; [intros w5 Hw5 _; eapply evolves_has_event; [|done]; by etrans|].
  apply safe_try, safe_getByEvent; [done|]. intros w5 t' l' w6 Hw5 _ _ Hw6.
  destruct l'; [|done]. intros w7 Hw7 _. eapply evolves_has_event; [|done]. etrans; [exact Hw24|]. etrans; [exact Hw5|]. by etrans.
Qed.

(** An event that had no row has at most one. *)
Lemma one_row w w' e : has_event e w.1 = false → rtc db_evolves w w' → has_event e w'.1 = true →
  exists! k, ∃ r, w'.1 !! k = Some r ∧ r_event r = e.
Proof.
  intros Hn Hw Hh. assert (∀ i j r r', w'.1 !! i = Some r → w'.1 !! j = Some r' → r_event r = e → r_event r' = e → i = j) as Hu.
  { clear Hh. assert (∀ i j r r', w.1 !! i = Some r → w.1 !! j = Some r' → r_event r = e → r_event r' = e → i = j) as Hu0.
    { intros i j r r' Hr _ He _. assert (has_event e w.1 = true) by (apply has_event_true; eauto). congruence. }
    clear Hn. induction Hw as [|w1 w2 w3 Hst _ IH]; [done|]. apply IH. clear IH w3. destruct Hst as [->|(t' & -> & He)]; [done|].
    assert (∀ i r, t' !! i = Some r → r_event r = e →
      (∃ r0, w1.1 !! i = Some r0 ∧ r_event r0 = e) ∨ (w1.1 !! i = None ∧ has_event e w1.1 = false)) as Hold.
    { intros i r Hr Her. destruct (w1.1 !! i) as [r0|] eqn:Hi.
      - left. destruct (kept_rows _ _ He i r0 Hi) as (r1 & Hr1 & Him & _). simplify_eq. exists r0. split; [done|].
        destruct Him as (_ & _ & _ & _ & _ & _ & _ & _ & _ & E & _). congruence.
      - right. split; [done|]. rewrite <-Her. by destruct (new_rows _ _ He i r Hi Hr) as (_ & _ & _ & ?). }
    simpl. intros i j r r' Hr Hr' Hei Hej.
    destruct (Hold i r Hr Hei) as [(r0 & Hr0 & E0)|[Hi Hno]], (Hold j r' Hr' Hej) as [(r1 & Hr1 & E1)|[Hj Hno']].
    - by eapply (Hu0 i j r0 r1).
    - assert (has_event e w1.1 = true) by (apply has_event_true; eauto). congruence.
    - assert (has_event e w1.1 = true) by (apply has_event_true; eauto). congruence.
    - by eapply (one_new_row _ _ He). }
  apply has_event_true in Hh as (k & r & Hr & He). exists k. split; [by exists r|]. intros k' (r' & Hr' & He'). by eapply Hu.
Qed.

(** ** Lemmas: pages *)

(** The statement of [findWithCursor] and its parameters. *)
Definition cursor_statement (f : StreamFilter) (afterId : option string) (effectiveLimit : Z) (fp : bool) : sql (list StreamRecord) :=
  let cursor := push_some (truthy afterId) IdAfter PText (common_conditions hmac_sha256 f keys) in
  let limitParamIndex := S (length (params cursor)) in
  let ps := params cursor ++ [PInt (effectiveLimit + 1)] in
  let '(ps', previousKeyIndex) := push_previous keys (ps ++ [PText (current keys)]) in
  Select fp {| sel_columns := (S (length ps), previousKeyIndex); sel_where := conditions cursor; sel_order := Some IdAsc;
               sel_limit := Some (LimitParam limitParamIndex); sel_offset := None |} ps'.

(** What the page after [afterId] shows of a table. *)
Definition after_cursor (afterId : option string) (r : row) : bool :=
  match truthy afterId with Some a => bool_decide (¬ collate (r_id r) a) | None => true end.
Definition selected (f : StreamFilter) (afterId : option string) (t : table) : list row :=
  merge_sort (ordered collate IdAsc) (filter (λ r, matches_common hmac_sha256 keys f r && after_cursor afterId r = true) (rows t)).

(** The keys where the columns expect them. *)
Lemma project_here ps tail r : truthy (previous keys) = None →
  project_at pgp_sym_decrypt (ps ++ PText (current keys) :: tail) (S (length ps), None) r = readable r.
Proof.
  intros Hk. unfold project_at, text_at, StreamRepository.readable. simpl fst. simpl snd. rewrite Hk.
  replace (ps ++ _) with ((ps ++ [PText (current keys)]) ++ tail) by by rewrite <-app_assoc.
  by rewrite (param_here ps _ tail).
Qed.
Lemma project_here2 ps tail k r : truthy (previous keys) = Some k →
  project_at pgp_sym_decrypt (ps ++ PText (current keys) :: PText k :: tail) (S (length ps), Some (S (S (length ps)))) r = readable r.
Proof.
  intros Hk. unfold project_at, text_at, StreamRepository.readable. simpl fst. simpl snd. rewrite Hk.
  replace (ps ++ _) with ((ps ++ [PText (current keys); PText k]) ++ tail) by by rewrite <-app_assoc.
  by rewrite (param_here ps _ tail), (param_next ps _ _ tail).
Qed.

Lemma exec_cursor_statement now seed f afterId eff fp t : (∀ k a, truthy (Some (hmac_sha256 k a)) ≠ None) → 0 <= eff →
  (exec now seed (cursor_statement f afterId eff fp) t).1 =
    or_error "invalid statement" (mapM readable (take (Z.to_nat (eff + 1)) (selected f afterId t))).
Proof.
  intros Hh Heff. unfold cursor_statement. set (cursor := push_some _ _ _ _).
  assert (means collate cursor (λ r, matches_common hmac_sha256 keys f r && after_cursor afterId r)) as [Hi Hm].
  { eapply means_ext; [|apply means_text with (q := λ v r, bool_decide (¬ collate (r_id r) v)); [by apply means_common|intros ps r n v Hv; simpl; by rewrite Hv]].
    intros r. done. }
  assert (∀ ps p, (∃ tail, ps = (params cursor ++ [PInt (eff + 1); PText (current keys)]) ++ tail) →
    (∀ r, project_at pgp_sym_decrypt ps (S (length (params cursor ++ [PInt (eff + 1)])), p) r = readable r) →
    exec_select pgp_sym_decrypt collate {| sel_columns := (S (length (params cursor ++ [PInt (eff + 1)])), p);
      sel_where := conditions cursor; sel_order := Some IdAsc; sel_limit := Some (LimitParam (S (length (params cursor)))); sel_offset := None |} ps t =
    mapM readable (take (Z.to_nat (eff + 1)) (selected f afterId t))) as Hx.
  { intros ps p [tail ->] Hp. unfold exec_select. simpl sel_where.
    rewrite (where_rows_filter _ (conditions cursor) (rows t) (λ r, matches_common hmac_sha256 keys f r && after_cursor afterId r))
      by (intros r; rewrite <-app_assoc; apply Hm).
    cbn [mbind option_bind sel_order order_rows]. unfold limited. simpl sel_offset. simpl sel_limit. cbn [mbind option_bind].
    unfold int_at. rewrite (param_here (params cursor) _ tail). simpl. unfold natural.
    destruct (Z.ltb_spec (eff + 1) 0); [lia|]. simpl. apply mapM_ext. auto. }
  unfold push_previous. destruct (truthy (previous keys)) as [k|] eqn:Hk; simpl; f_equal.
  - apply Hx; [exists [PText k]; by rewrite <-!app_assoc|]. intros r. rewrite (length_app (_ ++ _)), Nat.add_1_r, <-app_assoc.
    by apply project_here2.
  - apply Hx; [exists []; by rewrite <-!app_assoc|]. intros r. by apply project_here.
Qed.

Lemma findWithCursor_eq f limit afterId total fp eff : newStreamQueryBuilder limit = Ok eff →
  findWithCursor f limit afterId total fp =
    query (cursor_statement f afterId eff fp) (λ rows,
      let hasMore := eff <? Z.of_nat (length rows) in
      let rows := if hasMore then take (Z.to_nat eff) rows else rows in
      if total
      then query (Count (conditions (common_conditions hmac_sha256 f keys)) (params (common_conditions hmac_sha256 f keys))) (λ n,
             Done (Ok {| page_streams := rows; page_hasMore := hasMore; page_total := Some n |}))
      else Done (Ok {| page_streams := rows; page_hasMore := hasMore; page_total := None |})).
Proof.
  intros Hl. unfold StreamRepository.findWithCursor. rewrite Hl, Hkeys. simpl orThrow. cbv zeta. unfold cursor_statement.
  by destruct (push_previous _ _).
Qed.

Lemma effective_limit limit eff : newStreamQueryBuilder limit = Ok eff → 1 <= eff <= 100.
Proof.
  unfold newStreamQueryBuilder, MIN_STREAM_LIMIT, MAX_STREAM_LIMIT. destruct limit as [z|q| |]; try done.
  - destruct (z <=? 0); [done|]. intros [= <-]. lia.
  - destruct (Qle_bool q 0); [done|]. intros [= <-]. lia.
Qed.

Lemma exec_select_means s b pred tail t : means collate b pred → sel_where s = conditions b →
  exec_select pgp_sym_decrypt collate s (params b ++ tail) t =
    (l ← limited (params b ++ tail) s (order_rows collate (sel_order s) (filter (λ r, pred r = true) (rows t)));
     mapM (project_at pgp_sym_decrypt (params b ++ tail) (sel_columns s)) l).
Proof. intros [_ Hm] Hw. unfold exec_select. rewrite Hw. by rewrite (where_rows_filter _ _ _ pred). Qed.

Definition offset_conditions (f : StreamFilter) : where_builder := time_conditions f (common_conditions hmac_sha256 f keys).
Definition offset_statement (f : StreamFilter) (effectiveLimit offset : Z) : sql (list StreamRecord) :=
  let b := offset_conditions f in
  let '(ps, previousKeyIndex) := push_previous keys (params b ++ [PText (current keys)]) in
  Select false {| sel_columns := (S (length (params b)), previousKeyIndex); sel_where := conditions b; sel_order := Some CreatedDescIdDesc;
                  sel_limit := Some (LimitParam (S (length ps))); sel_offset := Some (S (S (length ps))) |}
    (ps ++ [PInt effectiveLimit; PInt offset]).

Definition matches_all (f : StreamFilter) (r : row) : bool := matches_common hmac_sha256 keys f r && matches_times f r.
Definition newest (f : StreamFilter) (t : table) : list row :=
  merge_sort (ordered collate CreatedDescIdDesc) (filter (λ r, matches_all f r = true) (rows t)).

Lemma exec_offset_statement now seed f eff offset t : (∀ k a, truthy (Some (hmac_sha256 k a)) ≠ None) → 0 <= eff → 0 <= offset →
  (exec now seed (offset_statement f eff offset) t).1 =
    or_error "invalid statement" (mapM readable (take (Z.to_nat eff) (drop (Z.to_nat offset) (newest f t)))).
Proof.
  intros Hh Heff Hoff. unfold offset_statement, push_previous. set (b := offset_conditions f).
  assert (means collate b (matches_all f)) as Hm by (apply means_times, means_common; done).
  assert (∀ tail p, (∀ r, project_at pgp_sym_decrypt (params b ++ tail ++ [PInt eff; PInt offset]) (S (length (params b)), p) r = readable r) →
    exec_select pgp_sym_decrypt collate {| sel_columns := (S (length (params b)), p); sel_where := conditions b; sel_order := Some CreatedDescIdDesc;
      sel_limit := Some (LimitParam (S (length (params b ++ tail)))); sel_offset := Some (S (S (length (params b ++ tail)))) |}
      (params b ++ tail ++ [PInt eff; PInt offset]) t =
    mapM readable (take (Z.to_nat eff) (drop (Z.to_nat offset) (newest f t)))) as Hx.
  { intros tail p Hp. rewrite (exec_select_means _ b (matches_all f)) by done. unfold limited. simpl sel_offset. simpl sel_limit.
    unfold int_at. rewrite app_assoc.
    replace ((params b ++ tail) ++ [PInt eff; PInt offset]) with (((params b ++ tail) ++ [PInt eff; PInt offset]) ++ []) by by rewrite app_nil_r.
    rewrite (param_next (params b ++ tail) _ _ []), (param_here (params b ++ tail) [PInt eff; PInt offset] []). simpl.
    unfold natural. destruct (Z.ltb_spec offset 0); [lia|]. simpl. destruct (Z.ltb_spec eff 0); [lia|]. simpl. rewrite app_nil_r, <-app_assoc. apply mapM_ext. done. }
  destruct (truthy (previous keys)) as [k|] eqn:Hk; cbn [StreamRepository.exec fst]; f_equal; rewrite <-!app_assoc; simpl app.
  - rewrite length_app, Nat.add_1_r. apply (Hx [PText (current keys); PText k]). intros r. by apply project_here2.
  - apply (Hx [PText (current keys)]). intros r. by apply project_here.
Qed.

Lemma find_eq f limit offset eff : newStreamQueryBuilder limit = Ok eff →
  find f limit offset =
    query (Count (conditions (offset_conditions f)) (params (offset_conditions f))) (λ total,
      query (offset_statement f eff offset) (λ streams,
        Done (Ok {| ps_streams := streams; ps_total := total; ps_limit := eff; ps_offset := offset;
                    ps_hasMore := offset + Z.of_nat (length streams) <? total |}))).
Proof.
  intros Hl. unfold StreamRepository.find. rewrite Hl, Hkeys. simpl orThrow. cbv zeta. unfold offset_statement, offset_conditions.
  by destruct (push_previous _ _).
Qed.

Lemma exec_count now seed f t : (∀ k a, truthy (Some (hmac_sha256 k a)) ≠ None) →
  (exec now seed (Count (conditions (offset_conditions f)) (params (offset_conditions f))) t).1 =
    Ok (Z.of_nat (length (newest f t))).
Proof.
  intros Hh. assert (means collate (offset_conditions f) (matches_all f)) as [_ Hm] by (apply means_times, means_common; done).
  simpl. rewrite <-(app_nil_r (params _)). rewrite (where_rows_filter _ _ _ (matches_all f)) by done. simpl.
  unfold newest. by rewrite (Permutation_length (merge_sort_Permutation _ _)).
Qed.

(** A collation is a total order. *)
Context (collate_total : ∀ a b, collate a b ∨ collate b a) (collate_trans : ∀ a b c, collate a b → collate b c → collate a c)
  (collate_antisym : ∀ a b, collate a b → collate b a → a = b).

Definition id_before (a b : string) : Prop := collate a b ∧ a ≠ b.

Lemma rows_elem t r : r ∈ rows t ↔ ∃ i, t !! i = Some r.
Proof.
  unfold rows. rewrite list_elem_of_fmap. split.
  - intros ([i r'] & -> & Hi). apply elem_of_map_to_list in Hi. by exists i.
  - intros [i Hi]. exists (i, r). split; [done|]. by apply elem_of_map_to_list.
Qed.

Lemma rows_ids t : table_ok t → NoDup (r_id <$> rows t).
Proof.
  intros Hok. replace (r_id <$> rows t) with ((map_to_list t).*1); [apply NoDup_fst_map_to_list|].
  unfold rows. rewrite <-list_fmap_compose. apply list_fmap_ext. intros n [i r] Hn. simpl.
  apply list_elem_of_lookup_2, elem_of_map_to_list in Hn. by destruct (Hok i r Hn).
Qed.

Lemma selected_elem f a t r : r ∈ selected f a t ↔
  (∃ i, t !! i = Some r) ∧ matches_common hmac_sha256 keys f r = true ∧ after_cursor a r = true.
Proof.
  unfold selected. rewrite merge_sort_Permutation, list_elem_of_filter, rows_elem, andb_true_iff. naive_solver.
Qed.

Lemma sorted_strict l : StronglySorted (ordered collate IdAsc) l → NoDup (r_id <$> l) → StronglySorted (λ r r', id_before (r_id r) (r_id r')) l.
Proof.
  induction 1 as [|r l Hs IH Hf]; simpl; [by constructor|]. rewrite list.NoDup_cons. intros [Hr Hn]. constructor; [by apply IH|].
  apply list.Forall_forall. intros r' Hr'. rewrite list.Forall_forall in Hf. split; [by apply Hf|]. intros E. apply Hr. rewrite E.
  by apply list_elem_of_fmap_2.
Qed.

Lemma selected_sorted f a t : table_ok t → StronglySorted (λ r r', id_before (r_id r) (r_id r')) (selected f a t).
Proof.
  intros Hok. apply sorted_strict.
  - apply StronglySorted_merge_sort; [intros r r' r''; apply collate_trans|intros r r'; apply collate_total].
  - unfold selected. rewrite merge_sort_Permutation. eapply sublist_NoDup; [by apply (rows_ids t)|]. f_equiv. apply sublist_filter.
Qed.

Lemma readable_ids l recs : mapM readable l = Some recs → id <$> recs = r_id <$> l.
Proof.
  intros Hm. apply mapM_Some in Hm. induction Hm as [|r s l recs Hr _ IH]; [done|]. rewrite !fmap_cons, IH.
  by destruct (readable_status r s Hr) as (_ & -> & _).
Qed.

Lemma mapM_take {A B} (g : A → option B) n l l' : mapM g l = Some l' → mapM g (take n l) = Some (take n l').
Proof.
  intros Hm. apply mapM_Some in Hm. apply mapM_Some. revert n. induction Hm as [|x y l l' Hx _ IH]; intros [|n]; simpl; constructor; auto.
Qed.

Lemma exec_count_common now seed f t : (∀ k a, truthy (Some (hmac_sha256 k a)) ≠ None) →
  (exec now seed (Count (conditions (common_conditions hmac_sha256 f keys)) (params (common_conditions hmac_sha256 f keys))) t).1 =
    Ok (Z.of_nat (length (selected f None t))).
Proof.
  intros Hh. pose proof (means_common hmac_sha256 collate keys f Hh) as [_ Hm].
  simpl. rewrite <-(app_nil_r (params _)). rewrite (where_rows_filter _ _ _ (matches_common hmac_sha256 keys f)) by done. simpl.
  unfold selected. rewrite (Permutation_length (merge_sort_Permutation _ _)). do 3 f_equal.
  apply list_filter_iff. intros r. unfold after_cursor. simpl. by rewrite andb_true_r.
Qed.

Lemma versions_grow w w' t : rtc db_evolves w w' → t ∈ w.1 :: w.2 → t ∈ w'.1 :: w'.2.
Proof. induction 1 as [|w1 w2 w3 [->|(t' & -> & _)] _ IH]; [done|done|]. intros Ht. apply IH. simpl. by right. Qed.

(** A page is a page of some version of the table. *)
Lemma safe_page (Q : result RepoError StreamPage → db → Prop) f limit afterId total fp eff w : db_ok w → newStreamQueryBuilder limit = Ok eff →
  (∀ k a, truthy (Some (hmac_sha256 k a)) ≠ None) →
  (∀ e w1, rtc db_evolves w w1 → Q (Err e) w1) →
  (∀ w1 t recs n w2, rtc db_evolves w w1 → t ∈ w1.1 :: w1.2 → table_ok t →
     mapM readable (take (Z.to_nat eff) (selected f afterId t)) = Some recs →
     (if total : bool then ∃ t', t' ∈ w2.1 :: w2.2 ∧ table_ok t' ∧ n = Some (Z.of_nat (length (selected f None t'))) else n = None) → rtc db_evolves w1 w2 →
     Q (Ok {| page_streams := recs; page_hasMore := eff <? Z.of_nat (length (selected f afterId t)); page_total := n |}) w2) →
  safe Q (findWithCursor f limit afterId total fp) w.
Proof.
  intros Hok Hl Hh He Hq. pose proof (effective_limit _ _ Hl) as Heff. rewrite (findWithCursor_eq _ _ _ _ _ eff Hl).
  apply safe_read; [unfold cursor_statement; by destruct (push_previous _ _)|auto|].
  intros w1 t now seed recs Hw Ht Hx. rewrite exec_cursor_statement in Hx by (done || lia).
  assert (t ∈ w1.1 :: w1.2) as Hin by (destruct (on_read_pool _); [done|subst; by left]).
  destruct (mapM _ _) as [recs'|] eqn:Hm; simplify_eq/=.
  assert (length recs = Nat.min (Z.to_nat (eff + 1)) (length (selected f afterId t))) as Hlen.
  { pose proof (Forall2_length _ _ _ (proj1 (mapM_Some _ _ _) Hm)) as E. by rewrite length_take in E. }
  set (l := selected f afterId t) in *.
  replace (eff <? Z.of_nat (length recs)) with (eff <? Z.of_nat (length l)) by
    (destruct (Z.ltb_spec eff (Z.of_nat (length recs))), (Z.ltb_spec eff (Z.of_nat (length l))); done || lia).
  replace (if eff <? Z.of_nat (length l) then take (Z.to_nat eff) recs else recs) with (take (Z.to_nat eff) recs); cycle 1.
  { destruct (Z.ltb_spec eff (Z.of_nat (length l))); [done|]. apply take_ge. lia. }
  apply (mapM_take _ (Z.to_nat eff)) in Hm. rewrite take_take, Nat.min_l in Hm by lia.
  assert (table_ok t) as Htok by by eapply (evolves_ok_rtc w w1).
  destruct total; [|intros w2 Hw2; by apply (Hq w1 t)].
  apply safe_read; [done|intros e w2 Hw2; apply He; by etrans|]. intros w2 t' now' seed' n Hw2 Ht' Hn w3 Hw3.
  rewrite exec_count_common in Hn by done. simplify_eq. apply (Hq w1 t); try done; [|by etrans].
  exists t'. splits; [by eapply versions_grow| |done].
  assert (rtc db_evolves w w2) as Hww2 by by etrans. by apply (evolves_ok_rtc _ _ Hww2 Hok).
Qed.

Lemma safe_offset_page (Q : result RepoError PaginatedStreams → db → Prop) f limit offset w :
  (∀ k a, truthy (Some (hmac_sha256 k a)) ≠ None) → 0 <= offset →
  (∀ e w1, rtc db_evolves w w1 → Q (Err e) w1) →
  (∀ eff w1 t w2 recs n, newStreamQueryBuilder limit = Ok eff → rtc db_evolves w w1 → t ∈ w1.1 :: w1.2 → rtc db_evolves w1 w2 →
     mapM readable (take (Z.to_nat eff) (drop (Z.to_nat offset) (newest f t))) = Some recs →
     Q (Ok {| ps_streams := recs; ps_total := n; ps_limit := eff; ps_offset := offset; ps_hasMore := offset + Z.of_nat (length recs) <? n |}) w2) →
  safe Q (find f limit offset) w.
Proof.
  intros Hh Hoff He Hq. destruct (newStreamQueryBuilder limit) as [eff|e] eqn:Hl.
  - pose proof (effective_limit _ _ Hl) as Heff. rewrite (find_eq _ _ _ eff Hl). apply safe_read; [done|auto|].
    intros w1 t now seed n Hw1 _ _. apply safe_read; [unfold offset_statement; by destruct (push_previous _ _)|intros e w2 Hw2; apply He; by etrans|].
    intros w2 t' now' seed' recs Hw2 Ht' Hx w3 Hw3. rewrite exec_offset_statement in Hx by (done || lia).
    assert (t' ∈ w2.1 :: w2.2) as Hin by (destruct (on_read_pool _); [done|subst; by left]).
    destruct (mapM _ _) as [recs'|] eqn:Hm; simplify_eq/=. apply (Hq eff w2 t'); try done. by etrans.
  - unfold StreamRepository.find. rewrite Hl. intros w1 Hw1. by apply He.
Qed.

(** ** Lemmas: whose rows a tenant sees *)

(** A column sealed for the address [a]: encrypted with a configured key and hashed
    with it, or a plaintext from before the encryption. *)
Definition column_sealed (v h a : string) : Prop :=
  (∃ seed k, (k = current keys ∨ truthy (previous keys) = Some k) ∧ v = pgp_sym_encrypt seed a k ∧ h = hmac_sha256 k a) ∨
  (v = a ∧ h = "" ∧ String.prefix PGP_MESSAGE_PREFIX a = false).

Definition sealed (addrs : list string) (t : table) : Prop :=
  ∀ i r, t !! i = Some r → ∃ a, a ∈ addrs ∧ column_sealed (r_sender r) (r_sender_hash r) a.

(** The HMAC is never empty and tells the addresses in use apart. *)
Record hmac_good (addrs : list string) : Prop := {
  hmac_nonempty k a : truthy (Some (hmac_sha256 k a)) ≠ None;
  hmac_inj k k' a b : a ∈ addrs → b ∈ addrs → hmac_sha256 k a = hmac_sha256 k' b → a = b;
}.

Lemma sealed_decrypts v h a : column_sealed v h a → decrypt_stream_address pgp_sym_decrypt v (current keys) (truthy (previous keys)) = Some a.
Proof.
  unfold decrypt_stream_address. intros [(seed & k & Hk & -> & _)|(-> & _ & ->)]; [|done].
  rewrite (armored _ _ pgcrypto), (decrypt_encrypt _ _ pgcrypto). case_decide as Hc; [done|].
  destruct Hk as [?|Hk]; [done|]. rewrite Hk. simpl. rewrite (decrypt_encrypt _ _ pgcrypto). by rewrite decide_True.
Qed.

Definition read_address (c : address_column) (s : StreamRecord) : string :=
  match c with SenderColumn => sender_address s | RecipientColumn => recipient_address s end.

Lemma sealed_reads c r a s : column_sealed (stored_address c r) (stored_hash c r) a → readable r = Some s → read_address c s = a.
Proof.
  intros Ha%sealed_decrypts. unfold StreamRepository.readable, project. destruct c; simpl in Ha; rewrite Ha.
  - by destruct (decrypt_stream_address _ (r_recipient r) _ _); intros [= <-].
  - by destruct (decrypt_stream_address _ (r_sender r) _ _); intros [= <-].
Qed.

Lemma address_matches c addrs tenant r a : hmac_good addrs → tenant ∈ addrs → a ∈ addrs → tenant ≠ "" →
  String.prefix PGP_MESSAGE_PREFIX tenant = false → column_sealed (stored_address c r) (stored_hash c r) a →
  address_is hmac_sha256 keys (Some tenant) c r = true → a = tenant.
Proof.
  intros Hh Ht Ha Hne Hpre Hs. unfold address_is. destruct (truthy (Some tenant)) as [x|] eqn:Hx; [|unfold truthy in Hx; by destruct tenant].
  assert (x = tenant) as -> by (unfold truthy in Hx; destruct tenant; congruence).
  rewrite !orb_true_iff, !bool_decide_eq_true. destruct Hs as [(seed & k & Hk & Hv & Hhash)|(Hv & Hhash & _)].
  - intros [[E|E]|E].
    + rewrite Hhash in E. by apply (hmac_inj _ Hh) in E.
    + rewrite Hhash in E. destruct (truthy (previous keys)); simplify_eq/=. by eapply (hmac_inj _ Hh).
    + rewrite Hv in E. pose proof (armored _ _ pgcrypto seed a k) as Hp. rewrite E in Hp. congruence.
  - intros [[E|E]|E]; [| |congruence].
    + rewrite Hhash in E. pose proof (hmac_nonempty _ Hh (current keys) tenant) as Hn. by rewrite <-E in Hn.
    + rewrite Hhash in E. destruct (truthy (previous keys)) as [k|]; simplify_eq/=.
      pose proof (hmac_nonempty _ Hh k tenant) as Hn. match goal with Hy : "" = _ |- _ => by rewrite <-Hy in Hn end.
Qed.

End evolution.

(** ** Properties *)

Section properties.
Context (enc : Z → string → string → string) (dec : string → string → option string) (pgcrypto : pgcrypto_laws enc dec).
Context (hmac : string → string → string).
Context (collate : string → string → Prop) `{!RelDecision collate}.
Context (key previousKey : option string) (keys : PgcryptoKeySet) (Hkeys : resolvePgcryptoKeys key previousKey = Ok keys).
Notation step := (db_step enc dec collate).
Notation perform := (perform hmac key previousKey).
Notation db_ok := (db_ok dec keys).
Notation db := (table * list table)%type.

(** C8: Whatever calls of the repository run at the same time, whichever statements
    fail and however far the replicas lag: no row disappears, what identifies a
    stream never changes, its status only moves along the transition table, and a
    new stream has started as active. *)
Theorem stream_status_machine ops w ps' w' :
  Forall names_ids ops → db_ok w → eff_steps step (perform <$> ops, w) (ps', w') →
  ∀ i, match w.1 !! i, w'.1 !! i with
       | Some r, Some r' => immutable r r' ∧ rtc api_step (r_status r) (r_status r')
       | Some _, None => False
       | None, Some r' => rtc api_step Api_active (r_status r')
       | None, None => True
       end.
Proof.
  intros Hn Hok Hs i. rewrite list.Forall_forall in Hn.
  destruct (pool_safe step (db_evolves dec keys) (λ _ _ _, True) (perform <$> ops) w ps' w') as [Hev _]; [|done|].
  - intros j p Hj. apply list_lookup_fmap_Some in Hj as (o & -> & Ho).
    eapply safe_perform; eauto. apply Hn. by eapply list_elem_of_lookup_2.
  - destruct (w.1 !! i) as [r|] eqn:Hr.
    + destruct (evolves_status dec hmac keys w w' i r Hev Hr) as (r' & -> & Him & Hst). done.
    + destruct (w'.1 !! i) as [r'|] eqn:Hr'; [|done]. by eapply evolves_new.
Qed.

(** C6: Concurrent insertions of one event create one stream: at most one call
    reports that it created the row, and once any call has returned without an
    error the table holds exactly one row of the event. *)
Theorem upsert_creates_once inputs e w ps' w' :
  Forall (λ input, (ci_transaction_hash input, ci_event_index input) = e ∧ ci_id input ≠ "") inputs →
  db_ok w → has_event e w.1 = false →
  eff_steps step (upsertStream hmac key previousKey <$> inputs, w) (ps', w') →
  (∀ i j x y, ps' !! i = Some (Done x) → ps' !! j = Some (Done y) → has_created x → has_created y → i = j) ∧
  (∀ i x, ps' !! i = Some (Done (Ok x)) → exists! k, ∃ r, w'.1 !! k = Some r ∧ r_event r = e).
Proof.
  intros Hin Hok Hnew Hs. rewrite list.Forall_forall in Hin. split.
  - eapply (one_winner step (λ w, has_event e w.1 = true) has_created); [|exact Hs]. intros i p Hi.
    apply list_lookup_fmap_Some in Hi as (input & -> & Hi). apply list_elem_of_lookup_2 in Hi.
    eapply contends_upsert; [done|done|]. by apply Hin.
  - intros i x Hx.
    destruct (pool_safe step (db_evolves dec keys) (λ _ x w', is_ok x = true → has_event e w'.1 = true)
      (upsertStream hmac key previousKey <$> inputs) w ps' w') as [Hev Hsafe]; [|done|].
    + intros j p Hj. apply list_lookup_fmap_Some in Hj as (input & -> & Hj). apply list_elem_of_lookup_2, Hin in Hj as [<- Hid].
      by eapply safe_upsert_present.
    + specialize (Hsafe i _ Hx w' (rtc_refl _ _) eq_refl). by eapply one_row.
Qed.

(** C5: A stream ends once: of any number of concurrent calls that complete or
    cancel it at most one succeeds, and the row keeps the status that call set. *)
Theorem one_terminal_transition i inputs w ps' w' :
  Forall (λ input, ∃ s, ui_status input = Some s ∧ isTerminalStatus (Reported s) = true) inputs → db_ok w →
  eff_steps step (updateStream key previousKey i <$> inputs, w) (ps', w') →
  (∀ j k x y, ps' !! j = Some (Done x) → ps' !! k = Some (Done y) → succeeded x → succeeded y → j = k) ∧
  (∀ j input a, inputs !! j = Some input → ps' !! j = Some (Done (Ok a)) →
     ui_status input = Some (status a) ∧ r_status <$> w'.1 !! i = Some (status a)).
Proof.
  intros Hin Hok Hs. rewrite list.Forall_forall in Hin. split.
  - eapply (one_winner step (terminal_row i) succeeded); [|exact Hs]. intros j p Hj.
    apply list_lookup_fmap_Some in Hj as (input & -> & Hj). apply list_elem_of_lookup_2, Hin in Hj as (s & Hs' & Ht).
    by eapply contends_update.
  - intros j input a Hj Ha. destruct (Hin input) as (s & Hst & Hterm); [by eapply list_elem_of_lookup_2|].
    destruct (pool_safe step (db_evolves dec keys) (λ j' x w', j' = j → ∀ a, x = Ok a → status a = s ∧ ∃ r, w'.1 !! i = Some r ∧ r_status r = s)
      (updateStream key previousKey i <$> inputs) w ps' w') as [_ Hsafe]; [|done|].
    + intros j' p Hj'. apply list_lookup_fmap_Some in Hj' as (input' & -> & Hj').
      destruct (decide (j' = j)) as [->|Hne].
      * simplify_eq. eapply safe_weaken; [|by eapply safe_update_final]. auto.
      * eapply safe_weaken; [|by eapply safe_updateStream]. by intros.
    + destruct (Hsafe j _ Ha w' (rtc_refl _ _) eq_refl a eq_refl) as (-> & r & -> & <-). done.
Qed.

(** Other calls beside a read whose result is kept. *)
Definition beside {A} (p : eff statement (result RepoError A)) (ops : list operation) : list (eff statement (result RepoError (option A))) :=
  try_bind p (λ a, Done (Ok (Some a))) :: ((λ o, try_bind (perform o) (λ _, Done (Ok None))) <$> ops).

Lemma beside_safe {A} (p : eff statement (result RepoError A)) ops w ps' w' (P : A → db → Prop) a :
  Forall names_ids ops → db_ok w →
  (∀ a w w', rtc (db_evolves dec keys) w w' → P a w → P a w') →
  safe step (db_evolves dec keys) (λ x w', ∀ a, x = Ok a → P a w') p w →
  eff_steps step (beside p ops, w) (ps', w') → ps' !! 0%nat = Some (Done (Ok (Some a))) → P a w'.
Proof.
  intros Hn Hok Hst Hp Hs Ha. rewrite list.Forall_forall in Hn.
  destruct (pool_safe step (db_evolves dec keys) (λ i x w', i = 0%nat → ∀ a, x = Ok (Some a) → P a w') (beside p ops) w ps' w')
    as [_ Hsafe]; [|done|by apply (Hsafe 0%nat _ Ha w' (rtc_refl _ _) eq_refl)].
  intros [|i] q Hq; simpl in Hq.
  - injection Hq as <-. unfold try_bind. apply safe_then. eapply safe_weaken; [|exact Hp].
    intros [x|e] w1 Hx; simpl; [intros w2 Hw2 _ y [= <-]|done]. apply (Hst _ _ _ Hw2). by apply Hx.
  - apply list_lookup_fmap_Some in Hq as (o & -> & Ho). unfold try_bind. apply safe_then.
    eapply safe_weaken; [|eapply safe_perform; eauto; apply Hn; by eapply list_elem_of_lookup_2].
    by intros [x|e] w1 _; simpl.
Qed.

Context (collate_total : ∀ a b, collate a b ∨ collate b a) (collate_trans : ∀ a b c, collate a b → collate b c → collate a c).

(** A page is exact: beside any other calls and with any replica lag it shows,
    for one version of the table, the first rows after the cursor that match the
    filter, in strictly increasing order of ids and never more than 100; it says
    that there is more exactly when there is, and the total it reports is that of a
    version of the table. *)
Theorem list_page_exact f limit afterId total fp ops w ps' w' page :
  (∀ k a, hmac k a ≠ "") → Forall names_ids ops → db_ok w →
  eff_steps step (beside (findWithCursor hmac key previousKey f limit afterId total fp) ops, w) (ps', w') →
  ps' !! 0%nat = Some (Done (Ok (Some page))) →
  ∃ t rows eff, t ∈ w'.1 :: w'.2 ∧ newStreamQueryBuilder limit = Ok eff ∧ 1 <= eff <= 100 ∧
    StronglySorted (λ r r', id_before collate (r_id r) (r_id r')) rows ∧
    (∀ r, r ∈ rows ↔ (∃ i, t !! i = Some r) ∧ matches_common hmac keys f r = true ∧ after_cursor collate afterId r = true) ∧
    mapM (readable dec keys) (take (Z.to_nat eff) rows) = Some (page_streams page) ∧
    page_hasMore page = (eff <? Z.of_nat (length rows)) ∧
    (if total then ∃ t' all, t' ∈ w'.1 :: w'.2 ∧ NoDup all ∧ (∀ r, r ∈ all ↔ (∃ i, t' !! i = Some r) ∧ matches_common hmac keys f r = true) ∧
                             page_total page = Some (Z.of_nat (length all))
     else page_total page = None).
Proof.
  intros Hh Hn Hok Hs Hp. assert (∀ k a, truthy (Some (hmac k a)) ≠ None) as Hh'.
  { intros k a. unfold truthy. specialize (Hh k a). by destruct (hmac k a). }
  revert Hs Hp. apply (beside_safe _ ops w ps' w' (λ page w', _) page Hn Hok).
  - intros a w1 w2 Hw (t & rows & eff & Ht & Hl & Heff & Hsort & Hel & Hm & Hmore & Htot).
    exists t, rows, eff. splits; try (done || lia); [by eapply versions_grow|].
    destruct total; [|done]. destruct Htot as (t' & all & Ht' & Hrest). exists t', all. split; [by eapply versions_grow|done].
  - destruct (newStreamQueryBuilder limit) as [eff|e] eqn:Hl.
    + apply safe_page with eff; eauto; [done|]. intros w1 t recs n w2 Hw1 Ht Htok Hm Htot Hw2 a [= <-].
      exists t, (selected hmac collate keys f afterId t), eff. destruct (effective_limit _ _ Hl).
      splits; [by eapply versions_grow|done|done|done| | |done|done|].
      * by eapply selected_sorted.
      * intros r. by rewrite selected_elem.
      * destruct total; [|done]. destruct Htot as (t' & Ht' & Htok' & ->). exists t', (selected hmac collate keys f None t'). splits; [done| | |done].
        -- unfold selected. rewrite merge_sort_Permutation. apply NoDup_filter. by eapply NoDup_fmap_1, rows_ids.
        -- intros r. rewrite selected_elem. unfold after_cursor. simpl. naive_solver.
    + unfold findWithCursor. rewrite Hl. by intros w1 _.
Qed.

(** The reads a tenant's request can make. *)
Inductive tenant_read : Type :=
| TenantList (f : StreamFilter) (limit : jsnum) (afterId : option string) (total fp : bool)
| TenantFind (f : StreamFilter) (limit : jsnum) (offset : Z)
| TenantGet (i : string).

Definition tenant_program (tenant : string) (q : tenant_read) : eff statement (result RepoError (list StreamRecord)) :=
  match q with
  | TenantList f limit a total fp =>
      try_bind (findForTenantWithCursor hmac key previousKey tenant f limit a total fp) (λ page, Done (Ok (page_streams page)))
  | TenantFind f limit offset =>
      try_bind (findForTenant hmac key previousKey tenant f limit offset) (λ page, Done (Ok (ps_streams page)))
  | TenantGet i => try_bind (getForTenant key previousKey tenant i) (λ r, Done (Ok (match r with Some s => [s] | None => [] end)))
  end.

(** C7: Tenants are isolated: every stream a tenant's read returns was sent by that
    tenant, whatever filter it passes and whatever runs beside it, when the
    addresses are stored encrypted, with the current or the previous key, or as
    plaintexts from before the encryption. *)
Theorem tenant_isolation addrs tenant q ops w ps' w' l :
  hmac_good hmac addrs → tenant ∈ addrs → tenant ≠ "" → String.prefix PGP_MESSAGE_PREFIX tenant = false →
  match q with TenantFind _ _ offset => 0 <= offset | _ => True end →
  Forall names_ids ops → db_ok w →
  eff_steps step (beside (tenant_program tenant q) ops, w) (ps', w') → Forall (sealed enc hmac keys addrs) (w'.1 :: w'.2) →
  ps' !! 0%nat = Some (Done (Ok (Some l))) → Forall (λ s, sender_address s = tenant) l.
Proof.
  intros Hh Hten Hne Hpre Hoff Hn Hok Hs Hsealed Hl.
  pose (P := λ (l : list StreamRecord) (w' : db), Forall (λ s, sender_address s = tenant ∨ ∃ t i r, t ∈ w'.1 :: w'.2 ∧ t !! i = Some r ∧
    readable dec keys r = Some s ∧ address_is hmac keys (Some tenant) SenderColumn r = true) l).
  assert (P l w') as Hp; cycle 1.
  { eapply list.Forall_impl; [exact Hp|]. intros s [Hsd|(t & i & r & Ht & Hr & Hrd & Hm)]; [done|]. simpl in *.
    rewrite list.Forall_forall in Hsealed. destruct (Hsealed t Ht i r Hr) as (a & Ha & Hc).
    pose proof (sealed_reads _ _ pgcrypto hmac keys SenderColumn r a s Hc Hrd) as Hsa. simpl in Hsa. rewrite Hsa.
    by eapply (address_matches enc dec pgcrypto hmac keys SenderColumn). }
  revert Hs Hl. apply (beside_safe _ ops w ps' w' P l Hn Hok).
  { intros l' w1 w2 Hw Hf. eapply list.Forall_impl; [exact Hf|]. intros s [?|(t & i & r & Ht & Hrest)]; [by left|right]. exists t, i, r.
    split; [by eapply versions_grow|done]. }
  assert (∀ w1 w2 t recs l f, mapM (readable dec keys) l = Some recs → t ∈ w1.1 :: w1.2 → rtc (db_evolves dec keys) w1 w2 →
    (∀ r, r ∈ l → (∃ i, t !! i = Some r) ∧ matches_common hmac keys (for_tenant tenant f) r = true) → P recs w2) as Hrows.
  { intros w1 w2 t recs l' f Hm Ht Hw Hsel. apply list.Forall_forall. intros s Hs. right.
    destruct (mapM_elem _ _ _ _ Hm Hs) as (r & Hr & Hrd). destruct (Hsel r Hr) as [[i Hi] Hmc]. exists t, i, r.
    splits; [by eapply versions_grow|done|done|]. unfold matches_common in Hmc. rewrite !andb_true_iff in Hmc. naive_solver. }
  destruct q as [f limit a total fp|f limit offset|i]; unfold tenant_program, try_bind; apply safe_then.
  - destruct (newStreamQueryBuilder limit) as [eff|e] eqn:Hlim; [|unfold findForTenantWithCursor, findWithCursor; rewrite Hlim; simpl; intros w1 _ w2 _ x [=]].
    eapply safe_page; eauto; [apply Hh|intros e w1 _ w2 _ x [=]|]. intros w1 t recs n w2 Hw1 Ht Htok Hm _ Hw2 w3 Hw3 x [= <-].
    eapply (Hrows w1 w3 t); [exact Hm|done|by etrans|]. intros r Hr. apply subseteq_take in Hr.
    apply selected_elem in Hr. naive_solver.
  - eapply safe_offset_page; eauto; [apply Hh|intros e w1 _ w2 _ x [=]|]. intros eff w1 t w2 recs n _ Hw1 Ht Hw2 Hm w3 Hw3 x [= <-].
    eapply (Hrows w1 w3 t); [exact Hm|done|by etrans|]. intros r Hr. apply subseteq_take, subseteq_drop in Hr.
    unfold newest in Hr. rewrite merge_sort_Permutation, list_elem_of_filter, rows_elem in Hr. unfold matches_all in Hr.
    rewrite andb_true_iff in Hr. naive_solver.
  - unfold getForTenant, try_bind. apply safe_then. eapply safe_getById; eauto; [intros e w1 _ w2 _ w3 _ x [=]|].
    intros w1 t x w2 Hw1 Ht Hx Hw2 w3 Hw3 w4 Hw4 y. simpl. destruct x as [s|]; simpl.
    + case_bool_decide; intros [= <-]; [|constructor]. constructor; [by left|constructor].
    + intros [= <-]. constructor.
Qed.

End properties.

(** ** Witnesses *)

(** A sealing that tags the message with its key, an HMAC that tells strings apart,
    and the order of strings. *)
Definition key_tag (k : text) : text := replicate (length k) "1"%char ++ "0"%char :: k.
Fixpoint strip (p l : text) : option text :=
  match p, l with
  | [], _ => Some l
  | a :: p, b :: l => if Ascii.eqb a b then strip p l else None
  | _ :: _, [] => None
  end.
Definition sample_enc (seed : Z) (v k : string) : string := PGP_MESSAGE_PREFIX +:+ unchars (key_tag (chars k) ++ chars v).
Definition sample_dec (x k : string) : option string := unchars <$> strip (key_tag (chars k)) (drop 27 (chars x)).

Lemma strip_app p l : strip p (p ++ l) = Some l.
Proof. induction p as [|a p IH]; simpl; [done|]. by rewrite Ascii.eqb_refl. Qed.
Lemma strip_tag_ne k k' n l : length k = length k' → k ≠ k' → strip (replicate n "1"%char ++ "0"%char :: k) (replicate n "1"%char ++ "0"%char :: k' ++ l) = None.
Proof.
  intros Hl Hne. induction n as [|n IH]; simpl; [|done]. revert k' Hl Hne.
  induction k as [|a k IHk]; intros [|b k'] Hl Hne; simplify_eq/=; try done.
  destruct (Ascii.eqb_spec a b) as [->|]; [|done]. apply IHk; [lia|congruence].
Qed.
Lemma strip_tag_length n m k l : n ≠ m → strip (replicate n "1"%char ++ "0"%char :: k) (replicate m "1"%char ++ "0"%char :: l) = None.
Proof. revert m. induction n as [|n IH]; intros [|m] Hne; simpl; try done. apply IH. lia. Qed.

Definition sample_hmac (k a : string) : string := "#" +:+ a.
Definition sample_keys : PgcryptoKeySet := {| current := "new"; previous := Some "old" |}.

Lemma sample_pgcrypto : pgcrypto_laws sample_enc sample_dec.
Proof.
  split.
  - intros seed v k k'. unfold sample_dec, sample_enc.
    assert (∀ l, drop 27 (chars (PGP_MESSAGE_PREFIX +:+ unchars l)) = l) as -> by (intros l; apply chars_unchars).
    case_decide as Hk; [subst; by rewrite strip_app; simpl; rewrite unchars_chars|].
    assert (strip (key_tag (chars k')) (key_tag (chars k) ++ chars v) = None) as ->; [|done].
    unfold key_tag. rewrite <-app_assoc. simpl app.
    destruct (decide (length (chars k') = length (chars k))) as [E|E]; [|by apply strip_tag_length].
    rewrite E. apply strip_tag_ne; [done|]. intros Hc. apply Hk. by rewrite <-(unchars_chars k), <-Hc, unchars_chars.
  - intros seed v k. unfold sample_enc. by destruct (unchars _).
Qed.

Definition sample_stream (i : string) (index : Z) : CreateStreamInput := {|
  ci_id := i; ci_sender_address := "alice"; ci_recipient_address := "bob"; ci_amount := "10"; ci_streamed_amount := "0";
  ci_remaining_amount := "10"; ci_rate_per_second := "1"; ci_start_time := 5; ci_end_time := 0; ci_contract_id := "C";
  ci_transaction_hash := "tx"; ci_event_index := index |}.
Definition sample_row (i : string) (index : Z) : row := inserted sample_enc sample_hmac sample_keys 0 0 (sample_stream i index).
Definition sample_db : table * list table := ({[ "tx-0" := sample_row "tx-0" 0 ]}, []).

Lemma sample_db_ok : db_ok sample_dec sample_keys sample_db.
Proof.
  intros t Ht i r Hr. apply list_elem_of_singleton in Ht as ->. unfold sample_db, fst in Hr. apply lookup_singleton_Some in Hr as [<- <-].
  split; [done|]. split; [|done]. apply (inserted_readable _ _ sample_pgcrypto).
Qed.

(** One statement of the call at [i], executed at [now]. *)
Ltac statement_step i now :=
  eapply rtc_l; [eapply (eff_step_at _ i); [reflexivity|apply (step_write _ _ _ _ _ now 0); reflexivity]|].
Ltac read_step i how :=
  eapply rtc_l; [eapply (eff_step_at _ i); [reflexivity|eapply (step_read _ _ _ _ _ _ 0 0); [reflexivity|how]]|].

Notation sample_step := (db_step sample_enc sample_dec String.le).

Lemma stream_status_machine_witness :
  ∃ ps' w', eff_steps sample_step (perform sample_hmac (Some "new") (Some "old") <$> [OpUpsert (sample_stream "tx-1" 1)], sample_db) (ps', w') ∧
    is_Some (w'.1 !! "tx-1") ∧ (∀ i, match sample_db.1 !! i, w'.1 !! i with
       | Some r, Some r' => immutable r r' ∧ rtc api_step (r_status r) (r_status r')
       | Some _, None => False
       | None, Some r' => rtc api_step Api_active (r_status r')
       | None, None => True
       end).
Proof.
  assert (∃ ps' w', eff_steps sample_step (perform sample_hmac (Some "new") (Some "old") <$> [OpUpsert (sample_stream "tx-1" 1)], sample_db) (ps', w') ∧
    is_Some (w'.1 !! "tx-1")) as (ps' & w' & Hs & Hr).
  { eexists _, _. split; [statement_step 0%nat 7; apply rtc_refl|]. vm_compute. by eexists. }
  exists ps', w'. split; [exact Hs|]. split; [exact Hr|].
  apply (stream_status_machine sample_enc sample_dec sample_pgcrypto sample_hmac String.le (Some "new") (Some "old") sample_keys eq_refl
    [OpUpsert (sample_stream "tx-1" 1)] sample_db ps' w'); [by repeat constructor|apply sample_db_ok|exact Hs].
Defined.

(** Two calls insert the same event: the first creates the row, the second finds it. *)
Lemma upsert_creates_once_witness :
  let inputs := [sample_stream "tx-1" 1; sample_stream "tx-1" 1] in
  ∃ ps' w' s, eff_steps sample_step (upsertStream sample_hmac (Some "new") (Some "old") <$> inputs, sample_db) (ps', w') ∧
    ps' !! 0%nat = Some (Done (Ok {| created := true; stream := s |})) ∧
    ps' !! 1%nat = Some (Done (Ok {| created := false; stream := s |})) ∧
    (exists! k, ∃ r, w'.1 !! k = Some r ∧ r_event r = ("tx", 1)).
Proof.
  intros inputs.
  assert (∃ ps' w' s, eff_steps sample_step (upsertStream sample_hmac (Some "new") (Some "old") <$> inputs, sample_db) (ps', w') ∧
    ps' !! 0%nat = Some (Done (Ok {| created := true; stream := s |})) ∧
    ps' !! 1%nat = Some (Done (Ok {| created := false; stream := s |}))) as (ps' & w' & s & Hs & H0 & H1).
  { eexists _, _, _. split; [statement_step 0%nat 7; statement_step 1%nat 8; read_step 1%nat ltac:(left); apply rtc_refl|].
    split; vm_compute; reflexivity. }
  exists ps', w', s. split; [exact Hs|]. split; [exact H0|]. split; [exact H1|].
  apply (proj2 (upsert_creates_once sample_enc sample_dec sample_pgcrypto sample_hmac String.le (Some "new") (Some "old") sample_keys eq_refl
    inputs ("tx", 1) sample_db ps' w' ltac:(by repeat constructor) sample_db_ok ltac:(by vm_compute) Hs) 0%nat _ H0).
Defined.

Definition set_status (s : ApiStreamStatus) : UpdateStreamInput :=
  {| ui_status := Some s; ui_streamed_amount := None; ui_remaining_amount := None; ui_end_time := None |}.

(** A cancellation and a completion both read the active stream; the second loses. *)
Lemma one_terminal_transition_witness :
  let inputs := [set_status Api_cancelled; set_status Api_completed] in
  ∃ ps' w' a, eff_steps sample_step (updateStream (Some "new") (Some "old") "tx-0" <$> inputs, sample_db) (ps', w') ∧
    ps' !! 0%nat = Some (Done (Ok a)) ∧ ps' !! 1%nat = Some (Done (Err (StatusConflictError "tx-0" Api_active))) ∧
    Some Api_cancelled = Some (status a) ∧ r_status <$> w'.1 !! "tx-0" = Some (status a).
Proof.
  intros inputs.
  assert (∃ ps' w' a, eff_steps sample_step (updateStream (Some "new") (Some "old") "tx-0" <$> inputs, sample_db) (ps', w') ∧
    ps' !! 0%nat = Some (Done (Ok a)) ∧ ps' !! 1%nat = Some (Done (Err (StatusConflictError "tx-0" Api_active)))) as (ps' & w' & a & Hs & H0 & H1).
  { eexists _, _, _. split; [read_step 0%nat ltac:(reflexivity); read_step 1%nat ltac:(reflexivity);
      statement_step 0%nat 7; statement_step 1%nat 8; read_step 1%nat ltac:(reflexivity); apply rtc_refl|].
    split; vm_compute; reflexivity. }
  exists ps', w', a. split; [exact Hs|]. split; [exact H0|]. split; [exact H1|].
  apply (proj2 (one_terminal_transition sample_enc sample_dec sample_hmac String.le (Some "new") (Some "old") sample_keys eq_refl
    "tx-0" inputs sample_db ps' w' ltac:(repeat constructor; by eexists) sample_db_ok Hs) 0%nat (set_status Api_cancelled) a eq_refl H0).
Defined.

Definition sample_db2 : table * list table :=
  (<["tx-1" := sample_row "tx-1" 1]> sample_db.1, [sample_db.1]).

Lemma sample_db2_ok : db_ok sample_dec sample_keys sample_db2.
Proof.
  intros t Ht i r Hr. apply elem_of_cons in Ht as [->|Ht].
  - unfold sample_db2, fst in Hr. apply lookup_insert_Some in Hr as [[<- <-]|[_ Hr]].
    + split; [done|]. split; [|done]. apply (inserted_readable _ _ sample_pgcrypto).
    + eapply (sample_db_ok sample_db.1); [by left|done].
  - apply list_elem_of_singleton in Ht as ->. eapply (sample_db_ok sample_db.1); [by left|done].
Qed.

(** The first page of one stream, with the total. *)
Lemma list_page_exact_witness :
  ∃ page, page_hasMore page = true ∧ id <$> page_streams page = ["tx-0"] ∧ page_total page = Some 2 ∧
  ∃ (t : table) rows eff, newStreamQueryBuilder (NumInt 1) = Ok eff ∧ StronglySorted (λ r r', id_before String.le (r_id r) (r_id r')) rows ∧
    (∀ r, r ∈ rows ↔ (∃ i, t !! i = Some r) ∧ matches_common sample_hmac sample_keys no_filter r = true ∧ after_cursor String.le None r = true) ∧
    mapM (readable sample_dec sample_keys) (take (Z.to_nat eff) rows) = Some (page_streams page).
Proof.
  assert (∃ ps' w' page, eff_steps sample_step (beside sample_hmac (Some "new") (Some "old")
      (findWithCursor sample_hmac (Some "new") (Some "old") no_filter (NumInt 1) None true false) [], sample_db2) (ps', w') ∧
    ps' !! 0%nat = Some (Done (Ok (Some page))) ∧ page_hasMore page = true ∧ id <$> page_streams page = ["tx-0"] ∧ page_total page = Some 2)
    as (ps' & w' & page & Hs & H0 & H1 & H2 & H3).
  { eexists _, _, _. split; [read_step 0%nat ltac:(left); read_step 0%nat ltac:(left); apply rtc_refl|].
    split; [vm_compute; reflexivity|]. split; [vm_compute; reflexivity|]. split; vm_compute; reflexivity. }
  exists page. split; [exact H1|]. split; [exact H2|]. split; [exact H3|].
  destruct (list_page_exact sample_enc sample_dec sample_pgcrypto sample_hmac String.le (Some "new") (Some "old") sample_keys eq_refl
    (total String.le) (transitivity (R:=String.le)) no_filter (NumInt 1) None true false [] sample_db2 ps' w' page
    ltac:(done) ltac:(constructor) sample_db2_ok Hs H0) as (t & rows & eff & _ & Hl & _ & Hsort & Hel & Hm & _).
  exists t, rows, eff. done.
Defined.

Lemma sample_hmac_good addrs : hmac_good sample_hmac addrs.
Proof. split; [done|]. intros k k' a b _ _ E. by injection E. Qed.

(** Alice lists her streams. *)
Lemma tenant_isolation_witness :
  ∃ l, id <$> l = ["tx-0"; "tx-1"] ∧ Forall (λ s, sender_address s = "alice") l.
Proof.
  assert (∃ ps' w' l, eff_steps sample_step (beside sample_hmac (Some "new") (Some "old")
      (tenant_program sample_hmac (Some "new") (Some "old") "alice" (TenantList no_filter (NumInt 50) None false false)) [], sample_db2) (ps', w') ∧
    ps' !! 0%nat = Some (Done (Ok (Some l))) ∧ id <$> l = ["tx-0"; "tx-1"] ∧ w' = sample_db2)
    as (ps' & w' & l & Hs & H0 & H1 & Hw).
  { eexists _, _, _. split; [read_step 0%nat ltac:(left); apply rtc_refl|].
    split; [vm_compute; reflexivity|]. split; [vm_compute; reflexivity|reflexivity]. }
  exists l. split; [exact H1|].
  apply (tenant_isolation sample_enc sample_dec sample_pgcrypto sample_hmac String.le (Some "new") (Some "old") sample_keys eq_refl
    ["alice"] "alice" (TenantList no_filter (NumInt 50) None false false) [] sample_db2 ps' w' l
    (sample_hmac_good _) ltac:(by left) ltac:(done) eq_refl I ltac:(constructor) sample_db2_ok Hs); [|exact H0].
  subst w'. repeat constructor; intros i r Hr; exists "alice"; (split; [by left|]); left; unfold sample_db2, sample_db, fst in Hr.
  - apply lookup_insert_Some in Hr as [[_ <-]|[_ Hr]]; [|apply lookup_singleton_Some in Hr as [_ <-]];
      exists 0, "new"; (split; [by left|done]).
  - apply lookup_singleton_Some in Hr as [_ <-]. exists 0, "new". split; [by left|done].
Defined.
