(* ===== verification/Idempotency.v ===== *)
(** * Idempotent requests ([src/redis/idempotencyStore.ts], [src/middleware/idempotency.ts])

    The stores of responses by idempotency key, the canonical form of a request body
    and its fingerprint, and the middleware that lets a request run once.  SHA-256
    and the text of a fraction are arguments; a stored value read back is an
    [envelope], whose fields are [None] when missing or of another type.  What the
    route handler answers is an argument of a request. *)
From Stdlib Require Import Ascii ZArith QArith Lia Sorted.
From stdpp Require Import base gmap strings list sorting countable.
From S2P Require Import Prelude Redis.
Local Open Scope string_scope.
Local Open Scope list_scope.
Local Open Scope Z_scope.

(** ** Canonical bodies *)

(** The digits of [\u00XX]. *)
Definition hex_digit (n : nat) : ascii := ascii_of_nat (if (n <? 10)%nat then 48 + n else 87 + n).

Definition json_escape (c : ascii) : text :=
  let n := nat_of_ascii c in
  if (n =? 34)%nat then chars "\" ++ [c] else if (n =? 92)%nat then chars "\\"
  else if (n =? 8)%nat then chars "\b" else if (n =? 9)%nat then chars "\t" else if (n =? 10)%nat then chars "\n"
  else if (n =? 12)%nat then chars "\f" else if (n =? 13)%nat then chars "\r"
  else if (n <? 32)%nat then chars "\u00" ++ [hex_digit (n / 16); hex_digit (n mod 16)]
  else [c].

(** [JSON.stringify] of a string. *)
Definition json_string (s : string) : text := chars dquote ++ (chars s ≫= json_escape) ++ chars dquote.

Section canonical.
Context (fraction_text : Q → text).

(** [JSON.stringify(body)?.trim() ?? ''] of a value that is not an object; a bigint
    makes it throw. *)
Definition json_scalar (v : jsval) : option text :=
  match v with
  | JNull => Some (chars "null")
  | JBool b => Some (chars (if b then "true" else "false"))
  | JNum (NumInt z) => Some (int_text z)
  | JNum (NumFrac q) => Some (fraction_text q)
  | JNum _ => Some (chars "null")
  | JStr s => Some (json_string s)
  | JUndefined => Some []
  | JBigInt _ => None
  | JArr _ | JObj _ => None
  end.

Fixpoint commas (l : list text) : text :=
  match l with [] => [] | [x] => x | x :: l => x ++ chars "," ++ commas l end.

Definition member (kv : string * text) : text := chars dquote ++ chars kv.1 ++ chars dquote ++ chars ":" ++ kv.2.

(** [Object.keys(body).sort()]: by code units. *)
Definition key_le {A} (a b : string * A) : Prop := String.le a.1 b.1.
#[export] Instance key_le_dec {A} : RelDecision (@key_le A).
Proof. intros a b. unfold key_le. apply _. Defined.

Fixpoint canonicalizeBody (body : jsval) : option text :=
  match body with
  | JArr l =>
      parts ← (fix all (l : list jsval) : option (list text) :=
        match l with [] => Some [] | v :: l => t ← canonicalizeBody v; ts ← all l; Some (t :: ts) end) l;
      Some (chars "[" ++ commas parts ++ chars "]")
  | JObj o =>
      parts ← (fix all (o : list (string * jsval)) : option (list (string * text)) :=
        match o with [] => Some [] | (k, v) :: o => t ← canonicalizeBody v; ts ← all o; Some ((k, t) :: ts) end) o;
      Some (chars "{" ++ commas (member <$> merge_sort key_le parts) ++ chars "}")
  | v => json_scalar v
  end.

Context (sha256 : text → string).
Definition hashBody (body : jsval) : option string := sha256 <$> canonicalizeBody body.
End canonical.

(** ** Entries *)

Definition IDEMPOTENCY_KEY_PREFIX : string := "fluxora:idempotency:".
Definition ENVELOPE_VERSION : Z := 1.
Definition IN_PROGRESS : string := "IN_PROGRESS".

Record IdempotentEntry (B : Type) : Type := {
  version : Z; requestFingerprint : string; statusCode : Z; body : B;
}.
Arguments Build_IdempotentEntry {B}. Arguments version {B}. Arguments requestFingerprint {B}.
Arguments statusCode {B}. Arguments body {B}.

Record envelope (B : Type) : Type := {
  env_requestFingerprint : option string; env_statusCode : option Z; env_body : option B; env_version : option Z;
}.
Arguments Build_envelope {B}. Arguments env_requestFingerprint {B}. Arguments env_statusCode {B}.
Arguments env_body {B}. Arguments env_version {B}.

Definition envelope_of {B} (e : IdempotentEntry B) : envelope B := {|
  env_requestFingerprint := Some (requestFingerprint e); env_statusCode := Some (statusCode e);
  env_body := Some (body e); env_version := Some (version e) |}.

Inductive stored (B : Type) : Type := Absent | InProgress | Entry (e : IdempotentEntry B).
Arguments Absent {B}. Arguments InProgress {B}. Arguments Entry {B} e.

(** What a process of the Redis store keeps; [executed] and [healthy] are what its
    route handlers ran and what [onStateChange] last reported. *)
Record Process : Type := { expiryByKey : list (string * Z); healthy : bool; executed : list string }.
Definition with_expiry (m : list (string * Z)) (s : Process) : Process :=
  {| expiryByKey := m; healthy := healthy s; executed := executed s |}.
Definition onStateChange (b : bool) (s : Process) : Process :=
  {| expiryByKey := expiryByKey s; healthy := b; executed := executed s |}.

Definition redis_key (key tenantId : string) : string :=
  (IDEMPOTENCY_KEY_PREFIX +:+ tenantId +:+ ":" +:+ key)%string.

Definition pruneExpiredDeadlines (now : Z) (exceptKey : option string) (m : list (string * Z)) : list (string * Z) :=
  filter (λ p, ¬ (Some p.1 ≠ exceptKey ∧ p.2 <= now)) m.

Section store.
Context {B : Type} `{JsonCodec (envelope B)}.

Definition parseAndValidateEnvelope (raw : string) : option (IdempotentEntry B) :=
  obj ← of_json raw;
  fingerprint ← env_requestFingerprint obj;
  status ← env_statusCode obj;
  b ← env_body obj;
  v ← env_version obj;
  if v =? ENVELOPE_VERSION
  then Some {| version := v; requestFingerprint := fingerprint; statusCode := status; body := b |} else None.

(** ** The Redis store *)

Definition redis_start {A} (key tenantId : string) (ttlSeconds : Z) (k : bool → hprog Process A) : hprog Process A :=
  let fullKey := redis_key key tenantId in
  HMem (λ now s, (now + ttlSeconds * 1000, with_expiry (pruneExpiredDeadlines now None (expiryByKey s)) s)) (λ expiresAt,
    HRedis (RSetNx fullKey IN_PROGRESS (ttlSeconds * 1000)) (λ r,
      match r with
      | Ok acquired =>
          HMem (λ _ s, (tt, let s := onStateChange true s in
                            if acquired : bool then with_expiry (jm_set fullKey expiresAt (expiryByKey s)) s else s))
            (λ _, k acquired)
      | Err _ =>
          HMem (λ _ s, (tt, with_expiry (jm_set fullKey expiresAt (expiryByKey s)) (onStateChange false s))) (λ _, k true)
      end)).

Definition redis_get {A} (key tenantId : string) (k : stored B → hprog Process A) : hprog Process A :=
  HMem (λ now s, (tt, with_expiry (pruneExpiredDeadlines now None (expiryByKey s)) s)) (λ _,
    HRedis (RGet (redis_key key tenantId)) (λ r,
      match r with
      | Ok raw =>
          HMem (λ _ s, (tt, onStateChange true s)) (λ _,
            match raw with
            | None => k Absent
            | Some raw =>
                if bool_decide (raw = IN_PROGRESS) then k InProgress
                else match parseAndValidateEnvelope raw with Some e => k (Entry e) | None => k Absent end
            end)
      | Err _ => HMem (λ _ s, (tt, onStateChange false s)) (λ _, k Absent)
      end)).

(** [None] when the deadline has passed and nothing is written. *)
Definition set_deadline (fullKey : string) (ttlSeconds now : Z) (s : Process) : option Z * Process :=
  let m := pruneExpiredDeadlines now (Some fullKey) (expiryByKey s) in
  let deadline := default (now + ttlSeconds * 1000) (jm_get fullKey m) in
  if deadline <=? now then (None, with_expiry (jm_delete fullKey m) s) else (Some deadline, with_expiry m s).

Definition redis_set {A} (key tenantId : string) (entry : IdempotentEntry B) (ttlSeconds : Z) (k : hprog Process A) : hprog Process A :=
  let fullKey := redis_key key tenantId in
  let versioned := {| version := ENVELOPE_VERSION; requestFingerprint := requestFingerprint entry;
                      statusCode := statusCode entry; body := body entry |} in
  HMem (set_deadline fullKey ttlSeconds) (λ deadline,
    match deadline with
    | None => k
    | Some deadline =>
        HRedis (RSetPxat fullKey (to_json (envelope_of versioned)) deadline) (λ r,
          HMem (λ _ s, (tt, with_expiry (jm_delete fullKey (expiryByKey s)) (onStateChange (is_ok r) s))) (λ _, k))
    end).

(** ** The in-memory store *)

Notation memory := (list (string * (stored B * Z))).

Definition memory_key (key tenantId : string) : string := (tenantId +:+ ":" +:+ key)%string.

Definition memory_start (now : Z) (key tenantId : string) (ttlSeconds : Z) (m : memory) : bool * memory :=
  let fullKey := memory_key key tenantId in
  match jm_get fullKey m with
  | Some (_, expiresAt) =>
      if now <? expiresAt then (false, m) else (true, jm_set fullKey (InProgress, now + ttlSeconds * 1000) m)
  | None => (true, jm_set fullKey (InProgress, now + ttlSeconds * 1000) m)
  end.

Definition memory_get (now : Z) (key tenantId : string) (m : memory) : stored B :=
  match jm_get (memory_key key tenantId) m with
  | Some (e, expiresAt) => if expiresAt <=? now then Absent else e
  | None => Absent
  end.

Definition memory_set (now : Z) (key tenantId : string) (entry : IdempotentEntry B) (ttlSeconds : Z) (m : memory) : memory :=
  let fullKey := memory_key key tenantId in
  let expiresAt := match jm_get fullKey m with Some (InProgress, x) => x | _ => now + ttlSeconds * 1000 end in
  jm_set fullKey (Entry entry, expiresAt) m.

(** ** The middleware *)

(** A request, with the response its route handler gives: [None] when it throws or
    answers otherwise than with [res.json]. *)
Record request : Type := {
  method : string;
  idempotencyKey : option string;
  keyId : option string;
  user_address : option string;
  fingerprint : string;
  handler : option (Z * B);
}.

(** [next()] without idempotency, refusals, a replay, or the handler's own response. *)
Inductive response : Type :=
| PassedOn (r : option (Z * B))
| ConflictInProgress
| ConflictFingerprint (storedHash incomingHash : string)
| Replayed (status : Z) (b : B)
| Executed (r : option (Z * B)).

Definition nonempty (s : option string) : option string := match s with Some EmptyString => None | _ => s end.
Definition or_else (a b : option string) : option string := match a with Some _ => a | None => b end.

Definition request_tenant (q : request) : string :=
  default "anonymous" (or_else (nonempty (keyId q)) (nonempty (user_address q))).

(** Running the route handler. *)
Definition run_handler {A} (fullKey : string) (k : hprog Process A) : hprog Process A :=
  HMem (λ _ s, (tt, {| expiryByKey := expiryByKey s; healthy := healthy s; executed := executed s ++ [fullKey] |})) (λ _, k).

(** [next()] with [res.json] intercepted.  The write it starts is awaited by nobody:
    it is the end of the program. *)
Definition intercept (ttlSeconds : Z) (q : request) (key tenantId : string) : hprog Process response :=
  run_handler (redis_key key tenantId)
    match handler q with
    | Some (status, b) =>
        if (200 <=? status) && (status <? 300)
        then redis_set key tenantId {| version := ENVELOPE_VERSION; requestFingerprint := fingerprint q;
                                       statusCode := status; body := b |} ttlSeconds (HRet (Executed (Some (status, b))))
        else HRet (Executed (Some (status, b)))
    | None => HRet (Executed None)
    end.

Definition idempotencyMiddleware (ttlSeconds : Z) (q : request) : hprog Process response :=
  match nonempty (idempotencyKey q) with
  | Some key =>
      if bool_decide (method q = "POST") then
        let tenantId := request_tenant q in
        redis_get key tenantId (λ existing,
          match existing with
          | InProgress => HRet ConflictInProgress
          | Entry e =>
              if bool_decide (requestFingerprint e ≠ fingerprint q)
              then HRet (ConflictFingerprint (requestFingerprint e) (fingerprint q))
              else HRet (Replayed (statusCode e) (body e))
          | Absent =>
              redis_start key tenantId ttlSeconds (λ lockAcquired,
                if lockAcquired : bool then intercept ttlSeconds q key tenantId else HRet ConflictInProgress)
          end)
      else HRet (PassedOn (handler q))
  | None => HRet (PassedOn (handler q))
  end.

End store.
Arguments request B : clear implicits.
Arguments response B : clear implicits.

(** ** Lemmas: one execution per key *)
Lemma elem_of_jm_set {V} (j k : string) (v w : V) m : (j, v) ∈ jm_set k w m → (j, v) = (k, w) ∨ (j, v) ∈ m.
Proof.
  induction m as [|[k' v'] m IH]; simpl; [intros Hx%list_elem_of_singleton; by left|].
  case_decide; rewrite !elem_of_cons; [intros [?|?]; [left|]; naive_solver|]. intros [?|Hx]; [naive_solver|]. destruct (IH Hx); auto.
Qed.

Section once.
Context {R B : Type} `{RedisLaws R} `{JsonCodec (envelope B)} (K : string) (ttl lo hi : Z).
Context (Hlo : 0 <= lo) (Httl : 1 <= ttl) (Hhi : hi < lo + ttl * 1000).
Implicit Types (r : R) (s : Process).

Definition held (t : Z) r : Prop := ∀ t', t <= t' <= hi → is_Some (srv_view t' r K).
Definition free (t : Z) r : Prop := ∀ t', t <= t' → srv_view t' r K = None.
Definition deadlines_ok s : Prop := ∀ x, (K, x) ∈ expiryByKey s → x <= lo ∨ hi < x.
Definition runs_of s : nat := length (filter (λ k, k = K) (executed s)).

(** Whether a call may still acquire the key, holds it, or has run its handler. *)
Inductive stage : Type := Fresh | Owner | Spent.

Fixpoint tame {A} (g : stage) (p : hprog Process A) : Prop :=
  match p with
  | HRet _ => True
  | HRedis c k => ∀ t r, lo <= t <= hi →
      (held t r → held t (reply t NoFault c r).2 ∧ tame g (k (reply t NoFault c r).1)) ∧
      (g = Fresh → free t r → (free t (reply t NoFault c r).2 ∧ tame Fresh (k (reply t NoFault c r).1)) ∨
                              (held t (reply t NoFault c r).2 ∧ tame Owner (k (reply t NoFault c r).1)))
  | HMem f k => ∀ t s, lo <= t <= hi → deadlines_ok s → deadlines_ok (f t s).2 ∧
      ((runs_of (f t s).2 = runs_of s ∧ tame g (k (f t s).1)) ∨
       (g = Owner ∧ runs_of (f t s).2 = S (runs_of s) ∧ tame Spent (k (f t s).1)))
  end.

#[local] Arguments tame : simpl never.

Lemma held_later t t' r : t <= t' → held t r → held t' r.
Proof. intros Ht Hr u Hu. apply Hr. lia. Qed.
Lemma free_later t t' r : t <= t' → free t r → free t' r.
Proof. intros Ht Hr u Hu. apply Hr. lia. Qed.

(** A step that leaves the log alone. *)
Lemma tame_mem {A X} g (f : Z → Process → X * Process) (k : X → hprog Process A) :
  (∀ t s, lo <= t <= hi → deadlines_ok s → deadlines_ok (f t s).2 ∧ executed (f t s).2 = executed s ∧ tame g (k (f t s).1)) →
  tame g (HMem f k).
Proof.
  intros Hf t s Ht Hs. destruct (Hf t s Ht Hs) as (Hd1 & Hd2 & Hd3). split; [done|]. left. split; [|done]. unfold runs_of. by rewrite Hd2.
Qed.

Lemma tame_get {A} g key (k : result string (option string) → hprog Process A) :
  (∀ x, tame g (k x)) → tame g (HRedis (RGet key) k).
Proof.
  intros Hk t r Ht. unfold reply. simpl. rewrite law_get. simpl. split; [by auto|]. intros -> Hf. left. auto.
Qed.

Lemma prune_ok now e s : deadlines_ok s → deadlines_ok (with_expiry (pruneExpiredDeadlines now e (expiryByKey s)) s).
Proof. intros Hs x Hx. simpl in Hx. apply Hs. by apply list_elem_of_filter in Hx as [_ Hx]. Qed.

Lemma set_ok k x b s : (k = K → hi < x) → deadlines_ok s → deadlines_ok (with_expiry (jm_set k x (expiryByKey s)) (onStateChange b s)).
Proof.
  intros Hx Hs y Hy. simpl in Hy. apply elem_of_jm_set in Hy as [[= -> ->]|Hy]; [right; by apply Hx|by apply Hs].
Qed.

Lemma delete_ok k b s : deadlines_ok s → deadlines_ok (with_expiry (jm_delete k (expiryByKey s)) (onStateChange b s)).
Proof. intros Hs y Hy. simpl in Hy. apply elem_of_jm_delete in Hy as [Hy _]. by apply Hs. Qed.

Lemma tame_redis_get {A} key tenant (k : stored B → hprog Process A) : (∀ x, tame Fresh (k x)) → tame Fresh (redis_get key tenant k).
Proof.
  intros Hk. refine (tame_mem _ _ _ _). intros t s _ Hs. simpl. split; [by apply prune_ok|]. split; [done|].
  refine (tame_get _ _ _ _). intros x. destruct x as [[raw|]|e]; refine (tame_mem _ _ _ _); intros t' s' _ Hs'; simpl; (split; [done|]; split; [done|]).
  - case_bool_decide; [apply Hk|]. destruct (parseAndValidateEnvelope raw); apply Hk.
  - apply Hk.
  - apply Hk.
Qed.

Lemma view_setpxat k v x t r t' : t <= t' → k ≠ K → srv_view t' (srv_exec t (RSetPxat k v x) r).2 K = srv_view t' r K.
Proof. intros Ht Hk. by rewrite law_setpxat, decide_False by done. Qed.

Lemma tame_redis_set {A} g key tenant (e : IdempotentEntry B) (k : hprog Process A) :
  (redis_key key tenant = K → g ≠ Fresh) → tame g k → tame g (redis_set key tenant e ttl k).
Proof.
  intros HK Hk. unfold redis_set. set (fk := redis_key key tenant) in *. refine (tame_mem _ _ _ _). intros t s Ht Hs. unfold set_deadline.
  pose proof (prune_ok t (Some fk) s Hs) as Hp. simpl in Hp. set (m := pruneExpiredDeadlines t (Some fk) (expiryByKey s)) in *.
  destruct (Z.leb_spec (default (t + ttl * 1000) (jm_get fk m)) t) as [Hd|Hd]; simpl.
  { split; [|done]. intros x Hx. simpl in Hx. apply elem_of_jm_delete in Hx as [Hx _]. by apply Hp. }
  split; [done|]. split; [done|]. set (d := default (t + ttl * 1000) (jm_get fk m)) in *.
  assert (fk = K → hi < d) as HdK.
  { intros HfK. subst d. destruct (jm_get fk m) as [x|] eqn:Hx; simpl in *; [|lia].
    destruct (Hp x); [simpl; apply jm_get_elem_of; by rewrite <-HfK|lia|done]. }
  set (v := to_json _). intros t' r Ht'. unfold reply. simpl. cmp; [|lia].
  destruct (srv_exec t' (RSetPxat fk v d) r) as [u r'] eqn:Hx. simpl. replace r' with (srv_exec t' (RSetPxat fk v d) r).2 by by rewrite Hx.
  assert (tame g (HMem (λ _ s, ((), with_expiry (jm_delete fk (expiryByKey s)) (onStateChange true s))) (λ _, k))) as Htl.
  { refine (tame_mem _ _ _ _). intros t2 s2 _ Hs2. simpl. split; [by apply delete_ok|done]. }
  destruct (decide (fk = K)) as [HfK|HfK].
  - split; [|by intros Hg; apply HK in HfK]. intros Hr. split; [|done]. intros u' Hu. rewrite law_setpxat by lia.
    rewrite decide_True by done. specialize (HdK HfK). cmp; [by eexists|lia].
  - split; [intros Hr; split; [intros u' Hu|done]|intros -> Hr; left; split; [intros u' Hu|done]];
      (rewrite view_setpxat by (lia || done); by apply Hr).
Qed.

(** The first [SET ... NX] on a free key takes it; the others fail. *)
Lemma tame_redis_start {A} key tenant (k : bool → hprog Process A) :
  (redis_key key tenant ≠ K → ∀ b, tame Fresh (k b)) → (redis_key key tenant = K → tame Owner (k true) ∧ tame Fresh (k false)) →
  tame Fresh (redis_start key tenant ttl k).
Proof.
  intros Hother HK. unfold redis_start. set (fk := redis_key key tenant) in *. refine (tame_mem _ _ _ _). intros t s Ht Hs.
  split; [by apply prune_ok|]. split; [done|]. cbn [fst].
  assert (∀ g b, tame g (k b) → tame g (HMem (λ _ s, ((), let s := onStateChange true s in
    if b : bool then with_expiry (jm_set fk (t + ttl * 1000) (expiryByKey s)) s else s)) (λ _, k b))) as Hcont.
  { intros g b Hb. refine (tame_mem _ _ _ _). intros t' s' _ Hs'. destruct b; simpl; [|done].
    split; [|done]. apply set_ok; [lia|done]. }
  intros t' r Ht'. unfold reply. simpl. cmp; [|lia]. destruct (srv_exec t' _ r) as [acq r'] eqn:Hx. cbn [fst snd].
  assert (r' = (srv_exec t' (RSetNx fk IN_PROGRESS (ttl * 1000)) r).2) as Hr' by by rewrite Hx.
  destruct (decide (fk = K)) as [HfK|HfK].
  - destruct (HK HfK) as [Ho Hf]. split.
    + intros Hr. rewrite law_setnx_held in Hx by (rewrite HfK; apply Hr; lia). injection Hx as <- <-. split; [done|]. by apply (Hcont Fresh false).
    + intros _ Hr. right. assert (srv_view t' r fk = None) as Hv by (rewrite HfK; apply Hr; lia).
      pose proof (law_setnx_free t' fk IN_PROGRESS (ttl * 1000) r Hv) as Hacq. rewrite Hx in Hacq. simpl in Hacq. subst acq.
      split; [|by apply (Hcont Owner true)]. intros u Hu. rewrite Hr', law_setnx_view by (done || lia). rewrite decide_True by done. cmp; [by eexists|lia].
  - assert (∀ u, t' <= u → srv_view u r' K = srv_view u r K) as Hv.
    { intros u Hu. rewrite Hr'. by apply view_other_setnx. }
    split; [intros Hr; split; [intros u Hu; rewrite Hv by lia; by apply Hr|]|intros _ Hr; left; split; [intros u Hu; rewrite Hv by lia; by apply Hr|]];
      apply (Hcont Fresh acq); by apply Hother.
Qed.

Lemma tame_ret {A} g (a : A) : tame g (HRet a).
Proof. done. Qed.

Lemma tame_run_other {A} key g (k : hprog Process A) : key ≠ K → tame g k → tame g (run_handler key k).
Proof.
  intros Hk Ht t s _ Hs. simpl. split; [done|]. left. split; [|done]. unfold runs_of. simpl.
  by rewrite list.filter_app, filter_cons, decide_False, filter_nil, app_nil_r by done.
Qed.

Lemma tame_run {A} (k : hprog Process A) : tame Spent k → tame Owner (run_handler K k).
Proof.
  intros Ht t s _ Hs. simpl. split; [done|]. right. split; [done|]. split; [|done]. unfold runs_of. simpl.
  rewrite list.filter_app, filter_cons, decide_True, filter_nil by done. rewrite length_app. simpl. lia.
Qed.

Lemma middleware_tame q : tame Fresh (idempotencyMiddleware (B:=B) ttl q).
Proof.
  unfold idempotencyMiddleware. destruct (nonempty (idempotencyKey q)) as [key|]; [|done]. case_bool_decide; [|done].
  apply tame_redis_get. intros [| |e]; [|done|by case_bool_decide]. apply (tame_redis_start _ _ (λ b, _)).
  - intros Hk [|]; [|done]. apply tame_run_other; [done|]. destruct (handler q) as [[st b]|]; [|done].
    destruct (_ && _); [|done]. by apply tame_redis_set.
  - intros Hk. split; [|done]. unfold intercept. rewrite Hk. apply tame_run. destruct (handler q) as [[st b]|]; [|done].
    destruct (_ && _); [|done]. by apply tame_redis_set.
Qed.

Definition total_runs (ss : list Process) : nat := sum_list (runs_of <$> ss).

Lemma total_runs_insert ss j s s' : ss !! j = Some s → (total_runs (<[j:=s']> ss) + runs_of s = total_runs ss + runs_of s')%nat.
Proof.
  unfold total_runs. revert j. induction ss as [|x ss IH]; intros [|j] Hj; simplify_eq/=; [lia|]. specialize (IH j Hj). lia.
Qed.

(** The calls of a pool have stages with at most one owner, before whose run of
    the handler nothing else ran for the key. *)
Record once_inv {A} (n : nat) (t : Z) (ps : list (nat * hprog Process A)) (ss : list Process) r (f : nat → stage) : Prop := {
  oi_tame i j p : ps !! i = Some (j, p) → tame (f i) p;
  oi_deadlines j s : ss !! j = Some s → deadlines_ok s;
  oi_runs : (free t r ∧ total_runs ss = n ∧ ∀ i, f i = Fresh) ∨
            (held t r ∧ ((total_runs ss = n ∧ ∃ o, ∀ i, f i = Owner → i = o) ∨ (total_runs ss = S n ∧ ∀ i, f i ≠ Owner)));
}.

Definition restage (f : nat → stage) (i : nat) (g : stage) (j : nat) : stage := if decide (j = i) then g else f j.

Lemma claimed_step {A} n t t' ps ss r f (q : list (nat * hprog Process A) * list Process * R) :
  once_inv n t ps ss r f → t <= t' → lo <= t' <= hi → hpool_step t' NoFault (ps, ss, r) q →
  ∃ f', once_inv n t' q.1.1 q.1.2 q.2 f'.
Proof.
  intros [Htame Hdl Hruns] Htt Ht Hstep. inversion Hstep as [i j ? ? ? p s p' s' r' Hi Hj Hh]; subst. simpl.
  assert (∀ g, tame g p' → ∀ i1 j1 p1, <[i:=(j, p')]> ps !! i1 = Some (j1, p1) → tame (restage f i g i1) p1) as Hps.
  { intros g Hg i1 j1 p1 Hi1. unfold restage. apply list_lookup_insert_Some in Hi1 as [(-> & [= <- <-] & _)|[Hne Hi1]];
      [by rewrite decide_True|]. rewrite decide_False by done. by eapply Htame. }
  assert (∀ g, g = f i → ∀ i1, restage f i g i1 = f i1) as Hsame.
  { intros g -> i1. unfold restage. by case_decide; subst. }
  destruct p as [a|X c k|X h k]; cbn [hstep] in Hh; [done| |].
  - pose proof (Htame i j _ Hi t' r Ht) as [Hheld Hfree]. destruct (reply t' NoFault c r) as [x r1]; simpl in *. simplify_eq.
    assert (<[j:=s']> ss = ss) as -> by by apply list_insert_id.
    destruct Hruns as [(Hf & Hn & Hall)|(Hf & Hn)].
    + destruct (Hfree (Hall i) (free_later _ _ _ Htt Hf)) as [[Hr Hk]|[Hr Hk]].
      * exists (restage f i Fresh). split; [by apply Hps|done|left]. splits; [done|done|]. intros i1. by rewrite Hsame by by rewrite Hall.
      * exists (restage f i Owner). split; [by apply Hps|done|right]. split; [done|]. left. split; [done|]. exists i. intros i1.
        unfold restage. case_decide; [done|]. by rewrite Hall.
    + destruct (Hheld (held_later _ _ _ Htt Hf)) as [Hr Hk]. exists (restage f i (f i)). split; [by apply Hps|done|right]. split; [done|].
      destruct Hn as [[Hn [o Ho]]|[Hn Ho]]; [left; split; [done|exists o]|right; split; [done|]]; intros i1; rewrite Hsame by done; auto.
  - pose proof (Htame i j _ Hi t' s Ht (Hdl j s Hj)) as [Hd Hcase]. destruct (h t' s) as [x s1]; simpl in *. simplify_eq.
    pose proof (total_runs_insert ss j s s' Hj) as Htot.
    assert (∀ j1 s1, <[j:=s']> ss !! j1 = Some s1 → deadlines_ok s1) as Hdl'.
    { intros j1 s1 Hj1. apply list_lookup_insert_Some in Hj1 as [(-> & <- & _)|[_ Hj1]]; [done|by eapply Hdl]. }
    destruct Hcase as [[Hrs Hk]|(Ho & Hrs & Hk)].
    + assert (total_runs (<[j:=s']> ss) = total_runs ss) as Heq by lia. exists (restage f i (f i)). split; [by apply Hps|done|].
      destruct Hruns as [(Hf & Hn & Hall)|(Hf & Hn)]; [left; splits; [by eapply free_later|by rewrite Heq|intros i1; by rewrite Hsame]|].
      right. split; [by eapply held_later|]. rewrite Heq.
      destruct Hn as [[Hn [o Hon]]|[Hn Hon]]; [left; split; [done|exists o]|right; split; [done|]]; intros i1; rewrite Hsame by done; auto.
    + destruct Hruns as [(_ & _ & Hall)|(Hf & [[Hn [o Hon]]|[_ Hon]])]; [by rewrite Hall in Ho| |by destruct (Hon i)].
      exists (restage f i Spent). split; [by apply Hps|done|right]. split; [by eapply held_later|]. right. split; [lia|].
      intros i1. unfold restage. case_decide as Hii; [done|]. intros Hi1. apply Hii. by rewrite (Hon i1), (Hon i).
Qed.

Lemma claimed_steps {A} n t ps ss r f (q : list (nat * hprog Process A) * list Process * R) t0 h :
  lo <= t0 → h <= hi → hpool_steps (λ f, f = NoFault) t0 h (ps, ss, r) q → once_inv n t ps ss r f → t <= t0 →
  ∃ t' f', once_inv n t' q.1.1 q.1.2 q.2 f'.
Proof.
  intros Hl Hh Hs. remember (ps, ss, r) as q0 eqn:Hq. revert t ps ss r f Hq.
  induction Hs as [t0 hi' q|t0 hi' t1 fl q1 [[ps2 ss2] r2] q3 Ht -> Hst Hs IH]; intros t ps ss r f -> Hinv Htt; [by exists t, f|].
  destruct (claimed_step n t t1 _ _ _ _ _ Hinv ltac:(lia) ltac:(lia) Hst) as [f' Hf']. eapply IH; [lia|done|done|exact Hf'|lia].
Qed.

End once.

(** ** Lemmas: canonical bodies *)

#[local] Instance key_le_trans {A} : Transitive (@key_le A).
Proof. intros a b c. unfold key_le. apply transitivity. Qed.
#[local] Instance key_le_total {A} : Total (@key_le A).
Proof. intros a b. unfold key_le. apply total, _. Qed.

(** Sorting by distinct keys forgets the order of the members. *)
Lemma sort_members {A} (l l' : list (string * A)) : NoDup l.*1 → l ≡ₚ l' → merge_sort key_le l = merge_sort key_le l'.
Proof.
  intros Hnd Hp. eapply (StronglySorted_unique_strong key_le); try (apply StronglySorted_merge_sort; apply _).
  - intros [k a] [k' a'] Hx Hx'. rewrite merge_sort_Permutation in Hx, Hx'. rewrite <-Hp in Hx'. intros H1 H2.
    assert (k = k') as <- by by apply (anti_symm String.le). clear - Hnd Hx Hx'. 
    apply list_elem_of_lookup in Hx as [i Hi], Hx' as [j Hj].
    assert (i = j) as <-; [|congruence]. eapply NoDup_lookup; [exact Hnd| |]; rewrite list_lookup_fmap; [by rewrite Hi|by rewrite Hj].
  - by rewrite !merge_sort_Permutation.
Qed.

Section canonical_laws.
Context (fraction_text : Q → text).
Notation canonicalizeBody := (canonicalizeBody fraction_text).

Definition canonical_member (kv : string * jsval) : option (string * text) := pair kv.1 <$> canonicalizeBody kv.2.

Lemma canonical_array l : canonicalizeBody (JArr l) = (λ ts, chars "[" ++ commas ts ++ chars "]") <$> mapM canonicalizeBody l.
Proof.
  simpl. assert ((fix all (l : list jsval) : option (list text) :=
    match l with [] => Some [] | v :: l => t ← canonicalizeBody v; ts ← all l; Some (t :: ts) end) l = mapM canonicalizeBody l) as ->.
  { induction l as [|v l IH]; [done|]. simpl. destruct (canonicalizeBody v); [|done]. by rewrite IH. }
  by destruct (mapM _ _).
Qed.

Lemma canonical_object o : canonicalizeBody (JObj o) =
  (λ ts, chars "{" ++ commas (member <$> merge_sort key_le ts) ++ chars "}") <$> mapM canonical_member o.
Proof.
  simpl. assert ((fix all (o : list (string * jsval)) : option (list (string * text)) :=
    match o with [] => Some [] | (k, v) :: o => t ← canonicalizeBody v; ts ← all o; Some ((k, t) :: ts) end) o = mapM canonical_member o) as ->.
  { induction o as [|[k v] o IH]; [done|]. simpl. rewrite IH. change (canonical_member (k, v)) with (pair k <$> canonicalizeBody v). by destruct (canonicalizeBody v). }
  by destruct (mapM _ _).
Qed.

Lemma canonical_keys o ts : mapM canonical_member o = Some ts → ts.*1 = o.*1.
Proof.
  revert ts. induction o as [|[k v] o IH]; intros ts; simpl; [by intros [= <-]|]. change (canonical_member (k, v)) with (pair k <$> canonicalizeBody v).
  destruct (canonicalizeBody v); [|done]. simpl. destruct (mapM canonical_member o) as [ts'|]; [|done]. intros [= <-]. simpl. f_equal. by apply IH.
Qed.

End canonical_laws.

Lemma mapM_permuted {A B} (f : A → option B) (l l' : list A) : l ≡ₚ l' →
  match mapM f l, mapM f l' with Some k, Some k' => k ≡ₚ k' | None, None => True | _, _ => False end.
Proof.
  induction 1 as [|x l l' _ IH|x y l|l l' l'' _ IH1 _ IH2]; simpl; [done| | |].
  - destruct (f x); simpl; [|done]. destruct (mapM f l), (mapM f l'); try done. by constructor.
  - destruct (f x), (f y); simpl; try done; destruct (mapM f l); simpl; try done. by constructor.
  - destruct (mapM f l), (mapM f l'), (mapM f l''); try done. by etrans.
Qed.

(** Bodies that are the same JSON value: members may come in another order. *)
Inductive js_same : jsval → jsval → Prop :=
| same_refl v : js_same v v
| same_array l l' : Forall2 js_same l l' → js_same (JArr l) (JArr l')
| same_object o p o' : NoDup o.*1 → o ≡ₚ p → Forall2 (λ a b, a.1 = b.1 ∧ js_same a.2 b.2) p o' → js_same (JObj o) (JObj o').

(** The fingerprint does not depend on the order of the members of a body's
    objects, at any depth. *)
Theorem canonical_order_independent fraction_text sha256 v v' :
  js_same v v' → hashBody fraction_text sha256 v = hashBody fraction_text sha256 v'.
Proof.
  intros Hs. unfold hashBody. f_equal. revert v v' Hs. fix IH 3. intros v v' [v1|l l' Hl|o p o' Hnd Hp Hf]; [done| |].
  - rewrite !canonical_array. f_equal. induction Hl as [|x y l l' Hxy _ IHl]; [done|]. simpl. rewrite (IH _ _ Hxy). by rewrite IHl.
  - rewrite !canonical_object. assert (mapM (canonical_member fraction_text) p = mapM (canonical_member fraction_text) o') as Heq.
    { clear Hp. induction Hf as [|[k x] [k' y] l l' [Hk Hxy] _ IHl]; [done|]. simpl in Hk, Hxy. subst k'. simpl.
      change (canonical_member fraction_text (k, x)) with (pair k <$> canonicalizeBody fraction_text x).
      change (canonical_member fraction_text (k, y)) with (pair k <$> canonicalizeBody fraction_text y). rewrite (IH _ _ Hxy). by rewrite IHl. }
    rewrite <-Heq. pose proof (mapM_permuted (canonical_member fraction_text) o p Hp) as Hm.
    destruct (mapM (canonical_member fraction_text) o) as [ts|] eqn:Hts, (mapM (canonical_member fraction_text) p) as [ts'|]; try done.
    simpl. by rewrite (sort_members ts ts') by (by rewrite ?(canonical_keys _ _ _ Hts)).
Qed.

(** Keys are written without escaping, so different bodies can have one canonical form. *)
Lemma canonical_collision fraction_text :
  canonicalizeBody fraction_text (JObj [("a" +:+ dquote +:+ ":1," +:+ dquote +:+ "b", JNum (NumInt 2))]) =
  canonicalizeBody fraction_text (JObj [("a", JNum (NumInt 1)); ("b", JNum (NumInt 2))]).
Proof. vm_compute. reflexivity. Qed.

(** ** Lemmas: one call alone *)

Section alone.
Context {R B : Type} `{RedisLaws R} `{JsonCodec (envelope B)} (ttl : Z) (Httl : 1 <= ttl).
Context (Hprogress : of_json (A:=envelope B) IN_PROGRESS = None).
Implicit Types (r : R) (s : Process).

(** What [get] makes of the value under a key. *)
Definition classify (v : option string) : stored B :=
  match v with
  | None => Absent
  | Some raw => if bool_decide (raw = IN_PROGRESS) then InProgress
                else match parseAndValidateEnvelope raw with Some e => Entry e | None => Absent end
  end.

Definition envelope_text (e : IdempotentEntry B) : string := to_json (envelope_of e).

Lemma classify_entry fp st b :
  classify (Some (envelope_text {| version := ENVELOPE_VERSION; requestFingerprint := fp; statusCode := st; body := b |})) =
  Entry {| version := ENVELOPE_VERSION; requestFingerprint := fp; statusCode := st; body := b |}.
Proof.
  unfold classify, envelope_text. rewrite bool_decide_eq_false_2.
  - unfold parseAndValidateEnvelope. by rewrite of_to_json.
  - intros Heq. pose proof (of_to_json (envelope_of {| version := ENVELOPE_VERSION; requestFingerprint := fp; statusCode := st; body := b |})) as Hr.
    rewrite Heq in Hr. congruence.
Qed.

Lemma run_redis_get {A} t key tenant (k : stored B → hprog Process A) s r :
  ∃ s', hrun t NoFault (redis_get key tenant k) s r = hrun t NoFault (k (classify (srv_view t r (redis_key key tenant)))) s' r.
Proof.
  simpl. unfold reply. simpl. rewrite law_get. simpl. eexists. unfold classify. destruct (srv_view _ _ _) as [raw|]; [|done].
  case_bool_decide; [done|]. by destruct (parseAndValidateEnvelope raw).
Qed.

Lemma run_redis_start_held {A} t key tenant (k : bool → hprog Process A) s r :
  is_Some (srv_view t r (redis_key key tenant)) → ∃ s', hrun t NoFault (redis_start key tenant ttl k) s r = hrun t NoFault (k false) s' r.
Proof. intros Hv. simpl. unfold reply. simpl. cmp; [|lia]. rewrite law_setnx_held by done. simpl. by eexists. Qed.

Lemma run_redis_start {A} t key tenant (k : bool → hprog Process A) s r :
  let K := redis_key key tenant in
  srv_view t r K = None → ∃ s', jm_get K (expiryByKey s') = Some (t + ttl * 1000) ∧
    hrun t NoFault (redis_start key tenant ttl k) s r = hrun t NoFault (k true) s' (srv_exec t (RSetNx K IN_PROGRESS (ttl * 1000)) r).2.
Proof.
  intros K Hv. simpl. unfold reply. simpl. cmp; [|lia].
  pose proof (law_setnx_free t K IN_PROGRESS (ttl * 1000) r Hv) as Hf. fold K. destruct (srv_exec _ _ _) as [acq r']. simpl in *. subst acq.
  eexists. split; [|reflexivity]. simpl. apply jm_get_set_eq.
Qed.

Lemma prune_keeps now K m : jm_get K (pruneExpiredDeadlines now (Some K) m) = jm_get K m.
Proof.
  unfold pruneExpiredDeadlines. induction m as [|[k v] m IH]; [done|]. rewrite filter_cons. simpl.
  destruct (decide (K = k)) as [->|Hne]; case_decide as Hc; simpl; [by rewrite decide_True|destruct Hc; naive_solver|by rewrite decide_False|done].
Qed.

Lemma run_redis_set {A} t key tenant (e : IdempotentEntry B) (k : hprog Process A) s r d :
  let K := redis_key key tenant in
  0 <= t → jm_get K (expiryByKey s) = Some d → t < d → version e = ENVELOPE_VERSION → ∃ s',
    hrun t NoFault (redis_set key tenant e ttl k) s r = hrun t NoFault k s' (srv_exec t (RSetPxat K (envelope_text e) d) r).2.
Proof.
  intros K H0t Hd Hlt Hv. unfold redis_set. fold K. cbn [hrun]. unfold set_deadline. rewrite prune_keeps, Hd. simpl. cmp; [lia|]. cbn [hrun].
  unfold reply. simpl. cmp; [|lia]. destruct e as [v fp st b]. simpl in *. subst v. unfold envelope_text.
  destruct (srv_exec _ _ _) as [u r']. simpl. by eexists.
Qed.

(** What the handler of a request leaves in the store. *)
Definition remembered (q : request B) : stored B :=
  match handler q with
  | Some (st, b) => if (200 <=? st) && (st <? 300)
                    then Entry {| version := ENVELOPE_VERSION; requestFingerprint := fingerprint q; statusCode := st; body := b |}
                    else InProgress
  | None => InProgress
  end.

Ltac run_get := match goal with |- context [hrun ?t _ (redis_get ?key ?tenant ?k) ?s ?r] =>
  let s' := fresh "s" in destruct (run_redis_get t key tenant k s r) as [s' ->] end.
Ltac run_start := match goal with |- context [hrun ?t _ (redis_start ?key ?tenant _ ?k) ?s ?r] =>
  let s' := fresh "s" in let Hd := fresh "Hd" in destruct (run_redis_start t key tenant k s r) as (s' & Hd & ->); [done|] end.

Lemma first_request t q key s r :
  nonempty (idempotencyKey q) = Some key → method q = "POST" → 0 <= t →
  let K := redis_key key (request_tenant q) in
  srv_view t r K = None →
  ∃ s' r', hrun t NoFault (idempotencyMiddleware ttl q) s r = (Executed (handler q), s', r') ∧
    (∀ t', t <= t' → srv_view t' r K = None → if t' <? t + ttl * 1000 then classify (srv_view t' r' K) = remembered q else srv_view t' r' K = None) ∧
    (∀ t' j, t <= t' → j ≠ K → srv_view t' r' j = srv_view t' r j).
Proof.
  intros Hk Hm H0t K Hv. unfold idempotencyMiddleware. rewrite Hk, bool_decide_eq_true_2 by done. run_get. fold K. rewrite Hv. simpl classify. cbv iota.
  run_start. unfold intercept. cbn [hrun run_handler]. set (s2 := {| executed := _ |}). fold K in Hd |- *. set (r1 := (srv_exec _ _ r).2).
  assert (∀ t' j, t <= t' → srv_view t' r1 j = if decide (j = K) then (if t' <? t + ttl * 1000 then Some IN_PROGRESS else None) else srv_view t' r j) as Hr1.
  { intros. by apply law_setnx_view. }
  assert (∀ t', t <= t' → srv_view t' r K = None → if t' <? t + ttl * 1000 then classify (srv_view t' r1 K) = InProgress else srv_view t' r1 K = None) as Hlocked.
  { intros t' Ht' Hv'. rewrite Hr1, decide_True by done. by destruct (t' <? _). }
  assert (∀ t' j, t <= t' → j ≠ K → srv_view t' r1 j = srv_view t' r j) as Hother by (intros; by rewrite Hr1, decide_False).
  unfold remembered. destruct (handler q) as [[st b]|]; [|by exists s2, r1; eauto]. destruct (_ && _); [|by exists s2, r1; eauto].
  destruct (run_redis_set t key (request_tenant q) {| version := ENVELOPE_VERSION; requestFingerprint := fingerprint q; statusCode := st; body := b |}
    (HRet (Executed (Some (st, b)))) s2 r1 (t + ttl * 1000) H0t Hd ltac:(lia) eq_refl) as [s3 ->].
  fold K. eexists _, _. split; [reflexivity|]. split; intros t' *.
  - intros Ht' Hv'. rewrite law_setpxat, decide_True by done. destruct (t' <? _); [apply classify_entry|done].
  - intros Ht' Hj. rewrite law_setpxat, decide_False by done. by apply Hother.
Qed.

(** The answer to a request that finds its key free, locked or answered. *)
Lemma request_answer t q key s r :
  nonempty (idempotencyKey q) = Some key → method q = "POST" → 0 <= t →
  (hrun t NoFault (idempotencyMiddleware ttl q) s r).1.1 =
    match classify (srv_view t r (redis_key key (request_tenant q))) with
    | InProgress => ConflictInProgress
    | Entry e => if bool_decide (requestFingerprint e = fingerprint q) then Replayed (statusCode e) (body e)
                 else ConflictFingerprint (requestFingerprint e) (fingerprint q)
    | Absent => if srv_view t r (redis_key key (request_tenant q)) then ConflictInProgress else Executed (handler q)
    end.
Proof.
  intros Hk Hm H0t. destruct (srv_view t r (redis_key key (request_tenant q))) as [raw|] eqn:Hv; cycle 1.
  { simpl. destruct (first_request t q key s r Hk Hm H0t Hv) as (s' & r' & -> & _). done. }
  unfold idempotencyMiddleware. rewrite Hk, bool_decide_eq_true_2 by done. run_get. rewrite Hv. destruct (classify (Some raw)) as [| |e]; [|done|].
  - match goal with |- context [hrun t _ (redis_start ?k1 ?ten _ ?kk) ?s1 r] => destruct (run_redis_start_held t k1 ten kk s1 r) as [s2 ->] end; [|done].
    rewrite Hv. by eexists.
  - simpl. rewrite bool_decide_not. by case_bool_decide.
Qed.

End alone.

Section properties.
Context {R B : Type} `{RedisLaws R} `{JsonCodec (envelope B)}.
Context (ttl : Z) (Httl : 1 <= ttl).
Implicit Types (r : R) (s : Process).

Definition calls_of (calls : list (nat * request B)) : list (nat * hprog Process (response B)) :=
  (λ c, (c.1, idempotencyMiddleware ttl c.2)) <$> calls.


(** What a second request with the key gets, for every outcome of the first one:
    within the window it is answered from the store — the same status and body when
    the handler had answered with a 2xx and the bodies agree, a conflict when they
    differ, and a conflict for the rest of the window when the handler failed or
    answered otherwise — and after the window its handler runs again. *)
Theorem second_request_answer t1 t2 q1 q2 k1 k2 s1 s2 r :
  of_json (A:=envelope B) IN_PROGRESS = None →
  nonempty (idempotencyKey q1) = Some k1 → method q1 = "POST" → nonempty (idempotencyKey q2) = Some k2 → method q2 = "POST" →
  redis_key k2 (request_tenant q2) = redis_key k1 (request_tenant q1) →
  0 <= t1 <= t2 → (∀ t, t1 <= t → srv_view t r (redis_key k1 (request_tenant q1)) = None) →
  let '(a1, _, r1) := hrun t1 NoFault (idempotencyMiddleware ttl q1) s1 r in
  a1 = Executed (handler q1) ∧
  (hrun t2 NoFault (idempotencyMiddleware ttl q2) s2 r1).1.1 =
    if t2 <? t1 + ttl * 1000 then
      match handler q1 with
      | Some (st, b) =>
          if (200 <=? st) && (st <? 300)
          then if bool_decide (fingerprint q1 = fingerprint q2) then Replayed st b else ConflictFingerprint (fingerprint q1) (fingerprint q2)
          else ConflictInProgress
      | None => ConflictInProgress
      end
    else Executed (handler q2).
Proof.
  intros Hprog Hk1 Hm1 Hk2 Hm2 HK Ht Hfree.
  destruct (first_request ttl Httl Hprog t1 q1 k1 s1 r Hk1 Hm1 ltac:(lia) (Hfree t1 ltac:(lia))) as (s' & r' & -> & Hcl & _).
  split; [done|]. rewrite (request_answer ttl Httl Hprog t2 q2 k2 s2 r' Hk2 Hm2 ltac:(lia)), HK.
  specialize (Hcl t2 ltac:(lia) (Hfree t2 ltac:(lia))). destruct (t2 <? t1 + ttl * 1000); [|by rewrite Hcl].
  rewrite Hcl. unfold remembered. destruct (handler q1) as [[st b]|]; [|done]. by destruct (_ && _).
Qed.

(** A value a call of the pool may have stored under a key. *)
Definition stored_by (calls : list (nat * request B)) (K v : string) : Prop :=
  v = IN_PROGRESS ∨ ∃ c key st b, c ∈ calls ∧ nonempty (idempotencyKey c.2) = Some key ∧ redis_key key (request_tenant c.2) = K ∧
    handler c.2 = Some (st, b) ∧ 200 <= st < 300 ∧
    v = envelope_text {| version := ENVELOPE_VERSION; requestFingerprint := fingerprint c.2; statusCode := st; body := b |}.
Definition honest (calls : list (nat * request B)) (t : Z) r : Prop :=
  ∀ K v, srv_view t r K = Some v → stored_by calls K v.

Lemma honest_write calls t f {X} (c : rcmd X) r :
  (∀ v t', t <= t' → ∀ K, srv_view t' (srv_exec t c r).2 K = Some v → stored_by calls K v ∨ srv_view t' r K = Some v) →
  honest calls t r → honest calls t (reply t f c r).2.
Proof.
  intros Hw Hr. unfold reply. destruct (client_accepts c); [|done]. 
  assert (honest calls t (srv_exec t c r).2) as Hx. { intros K v Hv. destruct (Hw v t ltac:(lia) K Hv); [done|by apply Hr]. }
  destruct f; [|done|done]. by destruct (srv_exec t c r).
Qed.

(** What the answer to a request says of the pool. *)
Definition justified (calls : list (nat * request B)) (q : request B) (a : response B) : Prop :=
  match a with
  | Replayed st b => ∃ c key key', c ∈ calls ∧ nonempty (idempotencyKey c.2) = Some key ∧ nonempty (idempotencyKey q) = Some key' ∧
      redis_key key (request_tenant c.2) = redis_key key' (request_tenant q) ∧
      fingerprint c.2 = fingerprint q ∧ handler c.2 = Some (st, b) ∧ 200 <= st < 300
  | Executed x | PassedOn x => x = handler q
  | _ => True
  end.

Notation safe calls := (hsafe (honest calls) (λ (_ : Z) (_ : Process), True)).

Lemma safe_get calls (Q : response B → Prop) lo key tenant k :
  of_json (A:=envelope B) IN_PROGRESS = None →
  (∀ t x, lo <= t → (∀ e, x = Entry e → ∃ c key', c ∈ calls ∧ nonempty (idempotencyKey c.2) = Some key' ∧
     redis_key key' (request_tenant c.2) = redis_key key tenant ∧ fingerprint c.2 = requestFingerprint e ∧
     handler c.2 = Some (statusCode e, body e) ∧ 200 <= statusCode e < 300) → safe calls Q t (k x)) →
  safe calls Q lo (redis_get key tenant k).
Proof.
  intros Hprog Hk. cbn [redis_get hsafe]. intros t s Ht _. split; [done|]. cbn [fst]. intros t1 f r Ht1 Hr.
  split. { apply honest_write; [|done]. intros v t' _ K. rewrite law_get. by right. }
  assert (∀ t, lo <= t → safe calls Q t (k Absent)) as Habs by (intros t2 ?; by apply Hk).
  assert (∀ x, (reply t1 f (RGet (redis_key key tenant)) r).1 = Ok x → x = srv_view t1 r (redis_key key tenant)) as Hx.
  { unfold reply. simpl. rewrite law_get. destruct f; simpl; congruence. }
  destruct (reply _ _ _ _).1 as [[raw|]|e]; cbn [hsafe]; intros t2 s2 Ht2 _; (split; [done|]); [|apply Habs; lia|apply Habs; lia].
  specialize (Hx _ eq_refl). case_bool_decide as Hp; [apply Hk; [lia|done]|].
  destruct (parseAndValidateEnvelope raw) as [e|] eqn:He; [|apply Habs; lia]. apply Hk; [lia|]. intros e' [= <-].
  destruct (Hr _ _ (eq_sym Hx)) as [->|([j q] & key' & st & b & Hin & Hkey & HK & Hh & Hst & ->)]; [done|].
  pose proof (classify_entry Hprog (fingerprint q) st b) as Hcl. unfold classify in Hcl. rewrite bool_decide_eq_false_2 in Hcl by done.
  simpl in He. rewrite He in Hcl. injection Hcl as ->. exists (j, q), key'. simpl. splits; (done || lia).
Qed.

Lemma safe_start calls (Q : response B → Prop) lo key tenant k :
  (∀ t b, lo <= t → safe calls Q t (k b)) → safe calls Q lo (redis_start key tenant ttl k).
Proof.
  intros Hk. cbn [redis_start hsafe]. intros t s Ht _. split; [done|]. cbn [fst]. intros t1 f r Ht1 Hr. split.
  - apply honest_write; [|done]. intros v t' Ht' K. destruct (srv_view t1 r (redis_key key tenant)) eqn:Hv.
    + rewrite law_setnx_held by (by eexists). by right.
    + rewrite law_setnx_view by done. case_decide; [|by right]. cmp; [|done]. intros [= <-]. left. by left.
  - destruct (reply _ _ _ _).1 as [acq|e]; cbn [hsafe]; intros t2 s2 Ht2 _; (split; [done|]); apply Hk; lia.
Qed.

Lemma safe_set calls (Q : response B → Prop) lo c key st b k :
  c ∈ calls → nonempty (idempotencyKey c.2) = Some key → handler c.2 = Some (st, b) → 200 <= st < 300 → (∀ t, lo <= t → safe calls Q t k) →
  safe calls Q lo (redis_set key (request_tenant c.2)
    {| version := ENVELOPE_VERSION; requestFingerprint := fingerprint c.2; statusCode := st; body := b |} ttl k).
Proof.
  intros Hc Hkey Hh Hst Hk. unfold redis_set. cbn [hsafe]. intros t s Ht _. split; [done|]. unfold set_deadline.
  destruct (_ <=? t); cbn [fst]; [apply Hk; lia|]. cbn [hsafe]. intros t1 f r Ht1 Hr. split; [|intros t2 s2 Ht2 _; split; [done|apply Hk; lia]].
  apply honest_write; [|done]. intros v t' Ht' K. rewrite law_setpxat by done. case_decide as HK; [|by right]. cmp; [|done]. intros [= <-].
  left. right. exists c, key, st, b. splits; (done || lia).
Qed.

Lemma middleware_safe calls lo c : of_json (A:=envelope B) IN_PROGRESS = None → c ∈ calls →
  safe calls (justified calls c.2) lo (idempotencyMiddleware ttl c.2).
Proof.
  intros Hprog Hc. unfold idempotencyMiddleware. destruct (nonempty (idempotencyKey c.2)) as [key|] eqn:Hkey; [|done].
  case_bool_decide; [|done]. apply safe_get; [done|]. intros t [| |e] Ht Hx; [|done|].
  - apply safe_start. intros t1 [|] Ht1; [|done]. unfold intercept. cbn [run_handler hsafe]. intros t2 s2 Ht2 _. split; [done|].
    destruct (handler c.2) as [[st b]|] eqn:Hh; [|done]. destruct (Z.leb_spec 200 st), (Z.ltb_spec st 300); simpl; try done.
    by apply safe_set.
  - specialize (Hx e eq_refl) as (c' & key' & Hc' & Hkey' & HK & Hf & Hh & Hst). case_bool_decide as Hfp; [done|].
    simpl. exists c', key', key. splits; (done || congruence || lia).
Qed.

(** Whatever fails and whatever runs beside it, a replayed response is the 2xx
    response of a handler that ran for the same tenant and key with the same body,
    and any other answer the client gets from a handler is that of its own. *)
Theorem replay_faithful lo hi calls ss r ps' ss' r' i j a c :
  of_json (A:=envelope B) IN_PROGRESS = None → (∀ t K, lo <= t → srv_view t r K = None) →
  hpool_steps (λ _, True) lo hi (calls_of calls, ss, r) (ps', ss', r') →
  ps' !! i = Some (j, HRet a) → calls !! i = Some c → justified calls c.2 a.
Proof.
  intros Hprog Hfree Hs Hi Hc.
  destruct (hpool_safe (honest calls) (λ _ _, True) (λ _, True)
    (λ i a, ∀ c, calls !! i = Some c → justified calls c.2 a) lo hi (calls_of calls) ss r (ps', ss', r')) as (t & _ & Hsafe & _);
    [| | | | |done|].
  - intros t t' r1 Ht Hr K v Hv. destruct (law_view_mono t t' r1 K Ht) as [Hn|Hn]; rewrite Hn in Hv; [done|by apply Hr].
  - done.
  - intros i1 j1 p Hp. apply list_lookup_fmap_Some in Hp as (c1 & [= -> ->] & Hc1).
    eapply hsafe_weaken; [|apply middleware_safe; [done|by eapply list_elem_of_lookup_2]]. intros x Hx c2 Hc2. by simplify_eq.
  - done.
  - intros K v Hv. by rewrite Hfree in Hv.
  - by apply (Hsafe i j _ Hi).
Qed.

(** An outage: the handler runs, the store is reported unhealthy, Redis is untouched. *)
Lemma outage_fails_open t e q key s r :
  nonempty (idempotencyKey q) = Some key → method q = "POST" → 0 <= t →
  ∃ s', hrun t (Rejected e) (idempotencyMiddleware ttl q) s r = (Executed (handler q), s', r) ∧ healthy s' = false.
Proof.
  intros Hk Hm H0t. unfold idempotencyMiddleware. rewrite Hk, bool_decide_eq_true_2 by done.
  assert (∀ {X} (c : rcmd X), ∃ e', reply t (Rejected e) c r = (Err e', r)) as Hrej.
  { intros X c. unfold reply. destruct (client_accepts c); by eexists. }
  unfold redis_get, redis_start, intercept, run_handler. cbn [hrun].
  destruct (Hrej _ (RGet (redis_key key (request_tenant q)))) as [e1 ->]. cbn [hrun].
  destruct (Hrej _ (RSetNx (redis_key key (request_tenant q)) IN_PROGRESS (ttl * 1000))) as [e2 ->]. cbn [hrun].
  destruct (handler q) as [[st b]|]; [|by eexists]. destruct (_ && _); [|by eexists]. unfold redis_set. cbn [hrun]. unfold set_deadline.
  destruct (_ <=? t); [by eexists|]. cbn [hrun].
  match goal with |- context [reply t _ ?c r] => destruct (Hrej _ c) as [e3 ->] end. by eexists.
Qed.

(** An entry of another envelope version is not recomputed: the key stays taken. *)
Lemma other_version_conflicts t q key s r raw :
  of_json (A:=envelope B) IN_PROGRESS = None → nonempty (idempotencyKey q) = Some key → method q = "POST" → 0 <= t →
  srv_view t r (redis_key key (request_tenant q)) = Some raw → parseAndValidateEnvelope (B:=B) raw = None →
  (hrun t NoFault (idempotencyMiddleware ttl q) s r).1.1 = ConflictInProgress.
Proof.
  intros Hprog Hk Hm H0t Hv Hp. rewrite (request_answer ttl Httl Hprog t q key s r Hk Hm H0t), Hv. unfold classify.
  case_bool_decide; [done|]. by rewrite Hp.
Qed.

End properties.

(** ** Witnesses *)

#[local] Instance envelope_eq_dec : EqDecision (envelope string).
Proof. solve_decision. Defined.
#[local, program] Instance envelope_countable : Countable (envelope string) :=
  inj_countable' (λ e, (env_requestFingerprint e, env_statusCode e, env_body e, env_version e))
    (λ p, let '(a, b, c, d) := p in Build_envelope a b c d) _.
Next Obligation. by intros []. Qed.

(** The codec of a countable type, with an opening brace. *)
Definition unbrace (s : string) : option (envelope string) :=
  match s with String "{" s' => of_json (JsonCodec:=json_countable) s' | _ => None end.
#[local] Instance braced : JsonCodec (envelope string).
Proof.
  refine {| to_json e := ("{" +:+ to_json (JsonCodec:=json_countable) e)%string; of_json := unbrace |}; [|done].
  intros e. apply (of_to_json (JsonCodec:=json_countable)).
Defined.

Definition sample_request (fp : string) (h : option (Z * string)) : request string := {|
  method := "POST"; idempotencyKey := Some "order-7"; keyId := None; user_address := Some "GA"; fingerprint := fp; handler := h |}.
Definition sample_process : Process := {| expiryByKey := []; healthy := true; executed := [] |}.
Definition sample_key : string := redis_key "order-7" "GA".
Definition sample_calls : list (nat * request string) :=
  [(0%nat, sample_request "f" (Some (201, "one"))); (1%nat, sample_request "f" (Some (201, "two")))].


(** A failed request, then a retry within and after the window of ten seconds. *)
Lemma second_request_answer_witness :
  let q1 := sample_request "f" None in let q2 := sample_request "f" (Some (201, "two")) in
  let '(a1, _, r1) := hrun 0 NoFault (idempotencyMiddleware 10 q1) sample_process (∅ : gredis) in
  a1 = Executed None ∧ (hrun 9999 NoFault (idempotencyMiddleware 10 q2) sample_process r1).1.1 = ConflictInProgress.
Proof.
  apply (second_request_answer (R:=gredis) 10 ltac:(lia) 0 9999 (sample_request "f" None) (sample_request "f" (Some (201, "two")))
    "order-7" "order-7" sample_process sample_process ∅); (reflexivity || lia || idtac).
Defined.

(** The second call starts after the first one has stored its response. *)
Lemma replay_faithful_witness : justified sample_calls (sample_request "f" (Some (201, "two"))) (Replayed 201 "one").
Proof.
  eapply (replay_faithful (R:=gredis) 10 0 9 sample_calls [sample_process; sample_process] ∅ _ _ _ 1%nat 1%nat (Replayed 201 "one")
    (1%nat, sample_request "f" (Some (201, "two")))).
  - reflexivity.
  - reflexivity.
  - do 10 call_step 1 (@NoFault) 0%nat. do 3 call_step 2 (@NoFault) 1%nat. apply hsteps_nil.
  - reflexivity.
  - reflexivity.
Defined.

Lemma canonical_order_independent_witness :
  hashBody (λ _, []) unchars (JObj [("b", JNum (NumInt 1)); ("a", JArr [JNull])]) =
  hashBody (λ _, []) unchars (JObj [("a", JArr [JNull]); ("b", JNum (NumInt 1))]).
Proof.
  apply canonical_order_independent. eapply (same_object _ [("a", JArr [JNull]); ("b", JNum (NumInt 1))]).
  - apply list.NoDup_cons. split; [by intros ?%list_elem_of_singleton|apply NoDup_singleton].
  - apply Permutation_swap.
  - repeat constructor.
Defined.
