(* ===== verification/StreamRoutes.v ===== *)
(** * The streams API ([src/routes/streams/read.ts], [write.ts], [guards.ts])

    Listing, export and status changes over the repository of streams, with the
    opaque cursors of [src/utils/opaqueCursor.ts], the queries of
    [src/db/repositories/streamApiQueries.ts] and the response shapes of
    [src/serialization/stream.ts].  JSON and base64url are arguments with their
    round trips; which database errors mean an exhausted pool is one too. *)
From Stdlib Require Import Ascii ZArith QArith Lia Sorted.
From stdpp Require Import base gmap strings list sorting relations countable.
From S2P Require Import Prelude Effects StreamStatus StreamRepository Redis.
Local Open Scope string_scope.
Local Open Scope list_scope.
Local Open Scope Z_scope.

(** ** Errors *)

Inductive ApiError : Type :=
| ValidationError (message : string)
| Forbidden (message : string)
| NotFound (resource id : string)
| Conflict (message : string)
| ServiceUnavailable (message : string)
| Unhandled (e : RepoError).

Definition status_code (e : ApiError) : Z :=
  match e with
  | ValidationError _ => 400 | Forbidden _ => 403 | NotFound _ _ => 404 | Conflict _ => 409 | ServiceUnavailable _ => 503
  | Unhandled _ => 500
  end.

(** ** Cursors *)

Definition INVALID_CURSOR_MESSAGE : string := "cursor must be a valid opaque pagination token".
Definition CURSOR_LAST_ID_MAX_LENGTH : nat := 200.
Definition CURSOR_SCOPE_MAX_LENGTH : nat := 500.

Record OpaqueCursor : Type := { lastId : string; scope : option string }.

(** What [JSON.parse] finds of the fields: [v] when it is an integer, [lastId] when it
    is a string, [scope] when it is there, with its text when that is a string. *)
Record cursor_json : Type := { cj_v : option Z; cj_lastId : option string; cj_scope : option (option string) }.

(** [Buffer.from(s, 'utf8').toString('base64url')] and back. *)
Class Base64url := {
  base64url_encode : string → string;
  base64url_decode : string → string;
  base64url_round_trip s : base64url_decode (base64url_encode s) = s;
  base64url_nonblank s : str_empty s = false → str_empty (js_trim (base64url_encode s)) = false;
}.

Section cursors.
Context `{JsonCodec cursor_json} `{Base64url}.

Definition encodeCursor (last scope : string) : string :=
  base64url_encode (to_json {| cj_v := Some 1; cj_lastId := Some last; cj_scope := Some (Some scope) |}).

Definition decodeCursor (cursor : string) : result ApiError OpaqueCursor :=
  let invalid := Err (ValidationError INVALID_CURSOR_MESSAGE) in
  match of_json (base64url_decode cursor) with
  | None => invalid
  | Some parsed =>
      match cj_v parsed, cj_lastId parsed with
      | Some v, Some last =>
          if negb (v =? 1) || str_empty (js_trim last) then invalid
          else if (CURSOR_LAST_ID_MAX_LENGTH <? String.length last)%nat then invalid
          else match cj_scope parsed with
               | None => Ok {| lastId := last; scope := None |}
               | Some None => invalid
               | Some (Some s) => if (CURSOR_SCOPE_MAX_LENGTH <? String.length s)%nat then invalid
                                  else Ok {| lastId := last; scope := Some s |}
               end
      | _, _ => invalid
      end
  end.

Definition parseCursorParam (cursorParam : jsval) : result ApiError (option OpaqueCursor) :=
  match cursorParam with
  | JUndefined => Ok None
  | JStr s => if str_empty (js_trim s) then Err (ValidationError INVALID_CURSOR_MESSAGE)
              else match decodeCursor s with Ok c => Ok (Some c) | Err e => Err e end
  | _ => Err (ValidationError INVALID_CURSOR_MESSAGE)
  end.
End cursors.

(** ** Response shapes *)

Record Stream : Type := {
  st_id : string; st_sender : string; st_recipient : string; st_depositAmount : string; st_streamedAmount : string;
  st_remainingAmount : string; st_ratePerSecond : string; st_startTime : Z; st_endTime : Z; st_status : ApiStreamStatus;
}.

Definition toApiStream (r : StreamRecord) : Stream := {|
  st_id := id r; st_sender := sender_address r; st_recipient := recipient_address r; st_depositAmount := amount r;
  st_streamedAmount := streamed_amount r; st_remainingAmount := remaining_amount r; st_ratePerSecond := rate_per_second r;
  st_startTime := start_time r; st_endTime := end_time r; st_status := status r |}.

Definition CACHEABLE_STREAM_HEADERS : string := "public, max-age=300, stale-while-revalidate=60".
Definition NO_STORE_STREAM_HEADERS : string := "private, no-store".
Definition streamCacheControl (statuses : list ApiStreamStatus) : string :=
  if forallb (λ s, isTerminalStatus (Reported s)) statuses then CACHEABLE_STREAM_HEADERS else NO_STORE_STREAM_HEADERS.

Definition UNSCOPED_STREAM_CURSOR : string := "streams:v1".

Record StreamListPage : Type := {
  lp_streams : list Stream; lp_has_more : bool; lp_next_cursor : option string; lp_total : option Z; lp_cache_control : string;
}.

(** A line of the export: a stream, or the cursor after a page. *)
Inductive export_line : Type := StreamLine (s : Stream) | ResumptionLine (cursor : string).

(** ** Transitions ([guards.ts]) *)

Definition API_TRANSITIONS (from : ApiStreamStatus) : list ApiStreamStatus :=
  match from with
  | Api_active => [Api_paused; Api_completed; Api_cancelled]
  | Api_paused => [Api_active; Api_cancelled]
  | Api_completed => []
  | Api_cancelled => []
  end.

Definition transitionError (from to : ApiStreamStatus) : option string :=
  if bool_decide (to ∈ API_TRANSITIONS from) then None
  else if bool_decide (from = to) then Some ("Stream is already " +:+ api_literal from)
  else match from with
       | Api_completed => Some "Stream is already completed and cannot be transitioned"
       | Api_cancelled => Some "Stream is already cancelled and cannot be transitioned"
       | _ => Some ("Cannot transition stream from '" +:+ api_literal from +:+ "' to '" +:+ api_literal to +:+ "'")
       end.

(** ** Caller scope *)

Record user : Type := { role : string; address : option string }.

(** [enforceStreamScope]: the address later checks use, or a 500. *)
Definition enforceStreamScope (u : option user) : result Z (option string) :=
  match u with
  | None => Ok None
  | Some u =>
      if bool_decide (role u = "operator") then Ok None
      else match truthy (address u) with Some a => Ok (Some a) | None => Err 500 end
  end.

Definition assertCallerMayList (callerAddress sender recipient : option string) : result ApiError unit :=
  match truthy callerAddress with
  | None => Ok tt
  | Some c =>
      match truthy sender, truthy recipient with
      | None, None => Err (Forbidden "Scoped users must filter by sender or recipient matching their address")
      | s, r =>
          if match s with Some s => bool_decide (s ≠ c) | None => false end
          then Err (Forbidden "You are not authorized to query streams for this sender")
          else if match r with Some r => bool_decide (r ≠ c) | None => false end
          then Err (Forbidden "You are not authorized to query streams for this recipient")
          else Ok tt
      end
  end.

Section routes.
Context (hmac_sha256 : string → string → string) (pgcryptoKey pgcryptoKeyPrevious : option string).
Context (pool_exhausted : string → bool).
Context `{JsonCodec cursor_json} `{Base64url}.

Notation findWithCursor := (findWithCursor hmac_sha256 pgcryptoKey pgcryptoKeyPrevious).
Notation getById := (getById pgcryptoKey pgcryptoKeyPrevious).
Notation updateStream := (updateStream pgcryptoKey pgcryptoKeyPrevious).
Notation upsertStream := (upsertStream hmac_sha256 pgcryptoKey pgcryptoKeyPrevious).
Notation handler A := (eff statement (result ApiError A)).

(** [rethrowDbError]: what a failed query becomes. *)
Definition rethrowDbError (e : RepoError) : ApiError :=
  match e with
  | DbError m => if pool_exhausted m then ServiceUnavailable "Database is temporarily unavailable. Please retry shortly." else Unhandled e
  | _ => Unhandled e
  end.

Definition withDbErrors {A B} (operation : eff statement (result RepoError A)) (k : A → handler B) : handler B :=
  eff_then operation (λ r, match r with Ok a => k a | Err e => Done (Err (rethrowDbError e)) end).

Definition withStatusConflicts {A B} (operation : eff statement (result RepoError A)) (k : A → handler B) : handler B :=
  eff_then operation (λ r, match r with
    | Ok a => k a
    | Err (StatusConflictError i from) =>
        Done (Err (Conflict ("Status conflict: stream " +:+ i +:+ " status changed concurrently from '" +:+ api_literal from +:+
                             "'. Precondition no longer holds.")))
    | Err e => Done (Err (rethrowDbError e))
    end).

(** ** Queries ([streamApiQueries.ts]) *)

Definition EXPORT_PAGE_SIZE : Z := 100.
Definition API_CREATED_CONTRACT_ID : string := "api-created".

Record ApiStreamListFilters : Type := { q_status : option string; q_sender : option string; q_recipient : option string }.

Definition buildStreamFilter (filters : ApiStreamListFilters) : StreamFilter := {|
  f_status := q_status filters; f_sender_address := q_sender filters; f_recipient_address := q_recipient filters;
  f_contract_id := None; f_start_time_from := None; f_start_time_to := None; f_end_time_from := None; f_end_time_to := None |}.

Definition listStreams (filters : ApiStreamListFilters) (limit : Z) (afterId : option string) (includeTotal forcePrimary : bool) :=
  findWithCursor (buildStreamFilter filters) (NumInt limit) afterId includeTotal forcePrimary.

(** The filter of the call is an array, all of whose filter fields are undefined. *)
Definition fetchExportPage (afterId : option string) :=
  findWithCursor no_filter (NumInt EXPORT_PAGE_SIZE) afterId false false.

Record ApiCreateStreamInput : Type := {
  in_sender : string; in_recipient : string; in_depositAmount : string; in_ratePerSecond : string; in_startTime : Z; in_endTime : Z;
}.

(** [idHash] is the hash of the input, an argument. *)
Definition createStreamFromApi (idHash : string) (input : ApiCreateStreamInput) : eff statement (result RepoError UpsertResult) :=
  upsertStream {|
    ci_id := "stream-" +:+ idHash +:+ "-0"; ci_sender_address := in_sender input; ci_recipient_address := in_recipient input;
    ci_amount := in_depositAmount input; ci_streamed_amount := "0"; ci_remaining_amount := in_depositAmount input;
    ci_rate_per_second := in_ratePerSecond input; ci_start_time := in_startTime input; ci_end_time := in_endTime input;
    ci_contract_id := API_CREATED_CONTRACT_ID; ci_transaction_hash := idHash; ci_event_index := 0 |}.

(** ** Listing *)

Definition toStreamListPage (page : StreamPage) (cursorScope : string) (includeTotal : bool) : StreamListPage :=
  let streams : list Stream := toApiStream <$> page_streams page in
  let nextCursor := if page_hasMore page then option_map (λ s, encodeCursor (st_id s) cursorScope) (list.last streams) else None in
  {| lp_streams := streams; lp_has_more := page_hasMore page; lp_next_cursor := nextCursor;
     lp_total := if includeTotal then page_total page else None; lp_cache_control := streamCacheControl (map st_status streams) |}.

(** The validated query, [isStreamListingHealthy()], the fence pin and the caller.
    [cursorScope] is the JSON of the filters, the caller and the order. *)
Record list_request : Type := {
  lr_limit : Z; lr_cursor : jsval; lr_filters : ApiStreamListFilters; lr_include_total : bool;
  lr_healthy : bool; lr_forcePrimary : bool; lr_caller : option string;
}.

Context (streamCursorScope : ApiStreamListFilters → option string → string).

Definition listStreamsHandler (q : list_request) : handler StreamListPage :=
  match parseCursorParam (lr_cursor q) with
  | Err e => Done (Err e)
  | Ok cursor =>
      let cursorScope := streamCursorScope (lr_filters q) (lr_caller q) in
      if match cursor ≫= scope with Some s => bool_decide (s ≠ cursorScope) | None => false end
      then Done (Err (ValidationError "cursor does not match the requested tenant, filters, or sort order"))
      else if negb (lr_healthy q)
      then Done (Err (ServiceUnavailable "Stream list is temporarily unavailable. Retry when dependency health is restored."))
      else match assertCallerMayList (lr_caller q) (q_sender (lr_filters q)) (q_recipient (lr_filters q)) with
           | Err e => Done (Err e)
           | Ok _ =>
               withDbErrors (listStreams (lr_filters q) (lr_limit q) (lastId <$> cursor) (lr_include_total q) (lr_forcePrimary q))
                 (λ page, Done (Ok (toStreamListPage page cursorScope (lr_include_total q))))
           end
  end.

(** ** Export *)

Definition MAX_EXPORT_PAGES : nat := 1000.

Definition toExportNdjsonLines (records : list StreamRecord) : list export_line :=
  (StreamLine ∘ toApiStream <$> records) ++
  match list.last records with Some r => [ResumptionLine (encodeCursor (id r) UNSCOPED_STREAM_CURSOR)] | None => [] end.

(** Why the export stopped writing. *)
Inductive export_end : Type := LastPage | ClientClosed | PageCap | Failed (e : ApiError).
Record export_result : Type := { ex_lines : list export_line; ex_end : export_end }.

(** The loop with [pages] iterations left; [closed n] tells whether the client has
    gone before page [n], counted from the end. *)
Fixpoint export_loop (closed : nat → bool) (pages : nat) (afterId : option string) (written : list export_line)
    : eff statement export_result :=
  match pages with
  | O => Done {| ex_lines := written; ex_end := PageCap |}
  | S pages =>
      if closed pages then Done {| ex_lines := written; ex_end := ClientClosed |}
      else eff_then (fetchExportPage afterId) (λ page,
        match page with
        | Err e => Done {| ex_lines := written; ex_end := Failed (rethrowDbError e) |}
        | Ok page =>
            let written := written ++ toExportNdjsonLines (page_streams page) in
            let afterId := match list.last (page_streams page) with Some r => Some (id r) | None => afterId end in
            if page_hasMore page then export_loop closed pages afterId written
            else Done {| ex_lines := written; ex_end := LastPage |}
        end)
  end.

Definition exportStreamsHandler (resumeFrom : jsval) (callerAddress : option string) (closed : nat → bool) : eff statement export_result :=
  match resumeFrom with
  | JUndefined | JStr _ =>
      match (if js_truthy resumeFrom then parseCursorParam resumeFrom else Ok None) with
      | Err e => Done {| ex_lines := []; ex_end := Failed e |}
      | Ok cursor =>
          match truthy callerAddress with
          | Some _ => Done {| ex_lines := []; ex_end := Failed (Forbidden "Scoped users are not authorized to use the full export endpoint") |}
          | None => export_loop closed MAX_EXPORT_PAGES (lastId <$> cursor) []
          end
      end
  | _ => Done {| ex_lines := []; ex_end := Failed (ValidationError "resume_from must be a single valid opaque pagination token") |}
  end.

(** ** Reading one stream, and changing its status *)

Definition getStreamHandler (i : string) : handler Stream :=
  match truthy (Some i) with
  | None => Done (Err (NotFound "Stream" ""))
  | Some i =>
      withDbErrors (getById i false) (λ record,
        match record with Some r => Done (Ok (toApiStream r)) | None => Done (Err (NotFound "Stream" i)) end)
  end.

Definition status_update (s : ApiStreamStatus) : UpdateStreamInput :=
  {| ui_status := Some s; ui_streamed_amount := None; ui_remaining_amount := None; ui_end_time := None |}.

Definition assertApiTransition {B} (from to : ApiStreamStatus) (k : handler B) : handler B :=
  match transitionError from to with None => k | Some message => Done (Err (Conflict message)) end.

Definition cancelStreamHandler (i : string) (callerAddress : option string) : handler string :=
  match truthy (Some i) with
  | None => Done (Err (NotFound "Stream" ""))
  | Some i =>
      withDbErrors (getById i false) (λ record,
        match record with
        | None => Done (Err (NotFound "Stream" i))
        | Some r =>
            if match truthy callerAddress with Some a => bool_decide (sender_address r ≠ a) | None => false end
            then Done (Err (NotFound "Stream" i))
            else assertApiTransition (status r) Api_cancelled
                   (withStatusConflicts (updateStream i (status_update Api_cancelled)) (λ _, Done (Ok i)))
        end)
  end.

Definition updateStreamStatusHandler (i : string) (newStatus : jsval) : handler Stream :=
  match truthy (Some i) with
  | None => Done (Err (NotFound "Stream" ""))
  | Some i =>
      match isApiStreamStatus newStatus with
      | None => Done (Err (ValidationError "status must be one of: active, paused, completed, cancelled"))
      | Some requested =>
          withDbErrors (getById i false) (λ record,
            match record with
            | None => Done (Err (NotFound "Stream" i))
            | Some r =>
                assertApiTransition (status r) requested
                  (withStatusConflicts (updateStream i (status_update requested)) (λ updated, Done (Ok (toApiStream updated))))
            end)
      end
  end.

End routes.

(** ** Lemmas: transitions and cursors *)

(** The second transition table is the first one. *)
Lemma transition_tables_agree from to : transitionError from to = None ↔ api_step from to.
Proof. unfold transitionError, api_step, isValidApiTransition. by destruct from, to; vm_compute. Qed.

Lemma cursor_decodes `{JsonCodec cursor_json} `{Base64url} x s :
  str_empty (js_trim x) = false → (String.length x <= CURSOR_LAST_ID_MAX_LENGTH)%nat → (String.length s <= CURSOR_SCOPE_MAX_LENGTH)%nat →
  decodeCursor (encodeCursor x s) = Ok {| lastId := x; scope := Some s |}.
Proof.
  intros Hx Hl Hs. unfold decodeCursor, encodeCursor. rewrite base64url_round_trip, of_to_json. simpl. rewrite Hx. simpl.
  rewrite (proj2 (Nat.ltb_ge _ _) Hl). by rewrite (proj2 (Nat.ltb_ge _ _) Hs).
Qed.

Lemma js_truthy_nonblank s : str_empty (js_trim s) = false → js_truthy (JStr s) = true.
Proof. by destruct s. Qed.

Section export.
Context (enc : Z → string → string → string) (dec : string → string → option string) (pgcrypto : pgcrypto_laws enc dec).
Context (hmac : string → string → string) (hmac_nonempty : ∀ k a, truthy (Some (hmac k a)) ≠ None).
Context (collate : string → string → Prop) `{!RelDecision collate}.
Context (collate_total : ∀ a b, collate a b ∨ collate b a) (collate_trans : ∀ a b c, collate a b → collate b c → collate a c).
Context (collate_antisym : ∀ a b, collate a b → collate b a → a = b).
Context (key previousKey : option string) (keys : PgcryptoKeySet) (Hkeys : resolvePgcryptoKeys key previousKey = Ok keys).
Context (pool_exhausted : string → bool) `{JsonCodec cursor_json} `{Base64url}.
Notation step := (db_step enc dec collate).
Notation db_ok := (db_ok dec keys).
Notation db_evolves := (db_evolves dec keys).
Notation readable := (readable dec keys).
Notation db := (table * list table)%type.
Notation before := (λ a b : string, id_before collate a b).
Notation fetchExportPage := (fetchExportPage hmac key previousKey).
Notation export_loop := (export_loop hmac key previousKey pool_exhausted).

(** An id the first version and every later one hold. *)
Definition persistent (w : db) (i : string) : Prop := ∀ t, t ∈ w.1 :: w.2 → is_Some (t !! i).

Lemma persistent_later w w' i t : rtc db_evolves w w' → persistent w i → t ∈ w'.1 :: w'.2 → is_Some (t !! i).
Proof.
  intros Hw. revert t. induction Hw as [w|w1 w2 w3 Hst _ IH]; intros t Hp Ht; [by apply Hp|]. apply IH; [|done].
  destruct Hst as [->|(t' & -> & He)]; [done|]. intros t2 Ht2. simpl in Ht2. apply elem_of_cons in Ht2 as [->|Ht2]; [|by apply Hp].
  destruct (Hp w1.1 ltac:(by left)) as [r Hr]. destruct (kept_rows _ _ _ _ He i r Hr) as (r' & Hr' & _). by eexists.
Qed.

Definition after (start : option string) (i : string) : Prop :=
  match truthy start with Some a => ¬ collate i a | None => True end.

Definition line_id (l : export_line) : option string := match l with StreamLine s => Some (st_id s) | ResumptionLine _ => None end.
Definition line_ids (l : list export_line) : list string := omap line_id l.

#[local] Instance after_dec start i : Decision (after start i).
Proof. unfold after. destruct (truthy start); apply _. Defined.

(** Whether the written ids may be the first ones after [start] when the next page
    starts after [afterId]. *)
Record export_inv (w : db) (start afterId : option string) (ids : list string) : Prop := {
  ei_sorted : StronglySorted before ids;
  ei_after : Forall (after start) ids;
  ei_last : afterId = match list.last ids with Some x => Some x | None => start end;
  ei_nonempty : Forall (λ i, i ≠ "") ids;
  ei_complete i : persistent w i → after start i → ¬ after afterId i → i ∈ ids;
}.

Lemma line_ids_page l : line_ids (toExportNdjsonLines l) = id <$> l.
Proof.
  unfold line_ids, toExportNdjsonLines. rewrite omap_app. replace (omap line_id (match list.last l with Some r => _ | None => [] end)) with (@nil string)
    by by destruct (list.last l). rewrite app_nil_r. induction l as [|r l IH]; [done|]. simpl. by f_equal.
Qed.

Lemma sorted_all_before (l1 l2 : list string) x : StronglySorted before l1 → StronglySorted before l2 → list.last l1 = Some x →
  Forall (λ i, before x i) l2 → StronglySorted before (l1 ++ l2).
Proof.
  intros H1 H2 Hx Hl. induction H1 as [|a l1 H1 IH Ha]; [done|]. simpl. constructor.
  - destruct l1 as [|b l1]; [done|]. by apply IH.
  - apply list.Forall_app. split; [done|]. assert (a = x ∨ before a x) as Hax.
    { destruct l1 as [|b l1]; [left; by injection Hx|]. right. simpl in Hx. rewrite list.Forall_forall in Ha. apply Ha.
      apply list_elem_of_lookup. exists (pred (length (b :: l1))). by rewrite <-last_lookup. }
    eapply list.Forall_impl; [exact Hl|]. intros i Hi. destruct Hax as [->|[Hax Hne]]; [done|]. destruct Hi as [Hxi Hne']. split; [by eapply collate_trans|].
    intros ->. apply Hne. by apply collate_antisym.
Qed.

Lemma after_true a r : after_cursor collate a r = true ↔ after a (r_id r).
Proof. unfold after_cursor, after. destruct (truthy a); [|done]. by rewrite bool_decide_eq_true. Qed.

Lemma after_some x i : x ≠ "" → after (Some x) i ↔ before x i.
Proof.
  intros Hx. unfold after, truthy. destruct x; [done|]. unfold id_before. split.
  - intros Hn. destruct (collate_total i (String a x)); [done|]. split; [done|]. intros <-. by destruct (collate_total (String a x) (String a x)).
  - intros [Hc Hne] Hc'. apply Hne. by apply collate_antisym.
Qed.

Lemma fmap_sorted l : StronglySorted (λ r r', before (r_id r) (r_id r')) l → StronglySorted before (r_id <$> l).
Proof. induction 1 as [|r l _ IH Hr]; [constructor|]. simpl. constructor; [done|]. by apply list.Forall_fmap. Qed.

Lemma sorted_take {A} (R : A → A → Prop) n l : StronglySorted R l → StronglySorted R (take n l).
Proof.
  intros Hs. revert n. induction Hs as [|x l _ IH Hx]; intros [|n]; simpl; try constructor; [done|]. by apply list.Forall_take.
Qed.

Lemma sorted_split {A} (R : A → A → Prop) l1 l2 x y : StronglySorted R (l1 ++ l2) → x ∈ l1 → y ∈ l2 → R x y.
Proof.
  induction l1 as [|a l1 IH]; simpl; [by intros _ ?%not_elem_of_nil|]. intros Hs Hx Hy. inversion Hs as [|? ? Hs' Ha]; subst.
  rewrite list.Forall_forall in Ha. apply elem_of_cons in Hx as [->|Hx]; [apply Ha, elem_of_app; by right|by apply IH].
Qed.

Lemma no_filter_matches r : matches_common hmac keys no_filter r = true.
Proof. done. Qed.

(** A page continues the export. *)
Lemma page_continues w w1 t start afterId ids recs :
  export_inv w start afterId ids → rtc db_evolves w w1 → t ∈ w1.1 :: w1.2 → table_ok dec keys t →
  mapM readable (take 100 (selected hmac collate keys no_filter afterId t)) = Some recs →
  export_inv w start (match list.last recs with Some r => Some (id r) | None => afterId end) (ids ++ (id <$> recs)) ∧
  ((length (selected hmac collate keys no_filter afterId t) <= 100)%nat → ∀ i, persistent w i → after start i → i ∈ ids ++ (id <$> recs)).
Proof.
  intros [Hsort Hafter Hlast Hne Hcomp] Hw Ht Hok Hm. pose proof (readable_ids _ _ _ _ Hm) as Hids. rewrite Hids.
  set (sel := selected hmac collate keys no_filter afterId t) in *.
  assert (StronglySorted (λ r r', before (r_id r) (r_id r')) sel) as Hss by by eapply selected_sorted.
  assert (∀ r, r ∈ sel → after afterId (r_id r) ∧ r_id r ≠ "") as Hsel.
  { intros r Hr. apply selected_elem in Hr as ([i Hi] & _ & Ha). split; [by apply after_true|]. by destruct (Hok i r Hi) as [_ [_ ?]]. }
  assert (∀ i, persistent w i → after afterId i → ∃ r, r ∈ sel ∧ r_id r = i) as Hpers.
  { intros i Hp Ha. destruct (persistent_later w w1 i t Hw Hp Ht) as [r Hr]. destruct (Hok i r Hr) as [Hid _]. exists r.
    split; [|done]. apply selected_elem. split; [by exists i|]. split; [apply no_filter_matches|]. apply after_true. by rewrite Hid. }
  assert (Forall (λ i, i ≠ "") (r_id <$> take 100 sel)) as Hne2.
  { apply list.Forall_fmap, list.Forall_forall. intros r Hr. by apply Hsel, (subseteq_take 100). }
  assert (match list.last recs with Some r => Some (id r) | None => afterId end =
          match list.last (r_id <$> take 100 sel) with Some x => Some x | None => afterId end) as Hlast2.
  { rewrite <-Hids, fmap_last. by destruct (list.last recs). }
  rewrite Hlast2. split; [split|].
  - destruct (list.last ids) as [x|] eqn:Hx; cycle 1.
    { apply last_None in Hx as ->. by apply fmap_sorted, sorted_take. }
    eapply sorted_all_before; [done|by apply fmap_sorted, sorted_take|done|]. apply list.Forall_fmap, list.Forall_forall. intros r Hr.
    apply (subseteq_take 100), Hsel in Hr as [Hr _]. rewrite Hlast in Hr. apply after_some; [|done].
    rewrite list.Forall_forall in Hne. apply Hne. apply list_elem_of_lookup. exists (pred (length ids)). by rewrite <-last_lookup.
  - apply list.Forall_app. split; [done|]. apply list.Forall_fmap, list.Forall_forall. intros r Hr.
    apply (subseteq_take 100), Hsel in Hr as [Hr _]. simpl. destruct (list.last ids) as [x|] eqn:Hx; [|by subst].
    assert (x ∈ ids) as Hin by (apply list_elem_of_lookup; exists (pred (length ids)); by rewrite <-last_lookup).
    rewrite list.Forall_forall in Hafter, Hne. rewrite Hlast in Hr. apply after_some in Hr as [Hc _]; [|by apply Hne].
    specialize (Hafter x Hin). unfold after in *. destruct (truthy start); [|done]. intros Hc'. apply Hafter. by eapply collate_trans.
  - rewrite last_app. destruct (list.last (r_id <$> take 100 sel)); [done|]. exact Hlast.
  - by apply list.Forall_app.
  - intros i Hp Hs Ha. apply elem_of_app. destruct (decide (after afterId i)) as [Hi|Hi]; [right|left; by apply Hcomp].
    destruct (Hpers i Hp Hi) as (r & Hr & <-). apply list_elem_of_fmap. exists r. split; [done|].
    rewrite <-(take_drop 100 sel) in Hr, Hss. apply elem_of_app in Hr as [Hr|Hr]; [done|]. exfalso.
    destruct (list.last (r_id <$> take 100 sel)) as [x|] eqn:Hx; cycle 1.
    { apply last_None, fmap_nil_inv in Hx. assert (length (take 100 sel) = 0%nat) as Hl by by rewrite Hx.
      rewrite length_take in Hl. assert (length (drop 100 sel) = 0%nat) as Hl2 by (rewrite length_drop; lia).
      apply nil_length_inv in Hl2. rewrite Hl2 in Hr. by apply not_elem_of_nil in Hr. }
    rewrite fmap_last in Hx. destruct (list.last (take 100 sel)) as [L|] eqn:HL; [|done]. simplify_eq/=.
    assert (L ∈ take 100 sel) as HLin by (apply list_elem_of_lookup; exists (pred (length (take 100 sel))); by rewrite <-last_lookup).
    apply Ha, after_some; [|by apply (sorted_split _ _ _ L r Hss)]. by apply Hsel, (subseteq_take 100).
  - intros Hlen i Hp Hs. apply elem_of_app. destruct (decide (after afterId i)) as [Hi|Hi]; [right|left; by apply Hcomp].
    destruct (Hpers i Hp Hi) as (r & Hr & <-). apply list_elem_of_fmap. exists r. split; [done|]. by rewrite take_ge.
Qed.

Notation safe := (safe step db_evolves).

(** What an export that started after [start] has written. *)
Definition export_correct (w : db) (start : option string) (r : export_result) (w' : db) : Prop :=
  let ids := line_ids (ex_lines r) in
  StronglySorted before ids ∧ Forall (after start) ids ∧
  (∀ i, persistent w i → after start i → (ex_end r = LastPage ∨ ∃ x, list.last ids = Some x ∧ collate i x) → i ∈ ids) ∧
  (list.last (ex_lines r) = (λ x, ResumptionLine (encodeCursor x UNSCOPED_STREAM_CURSOR)) <$> list.last ids) ∧
  (∀ s, StreamLine s ∈ ex_lines r → ∃ t i row record, t ∈ w'.1 :: w'.2 ∧ t !! i = Some row ∧ readable row = Some record ∧ s = toApiStream record).

Definition lines_ok (w : db) (written : list export_line) : Prop :=
  (list.last written = (λ x, ResumptionLine (encodeCursor x UNSCOPED_STREAM_CURSOR)) <$> list.last (line_ids written)) ∧
  ∀ s, StreamLine s ∈ written → ∃ t i row record, t ∈ w.1 :: w.2 ∧ t !! i = Some row ∧ readable row = Some record ∧ s = toApiStream record.

Lemma lines_ok_later w w' l : rtc db_evolves w w' → lines_ok w l → lines_ok w' l.
Proof.
  intros Hw [Hl Hs]. split; [done|]. intros s Hin. destruct (Hs s Hin) as (t & i & row & rec & Ht & Hrest). exists t, i, row, rec.
  split; [by eapply versions_grow|done].
Qed.

Lemma lines_ok_app w w1 t written f a recs : lines_ok w written → rtc db_evolves w w1 → t ∈ w1.1 :: w1.2 →
  mapM readable (take 100 (selected hmac collate keys f a t)) = Some recs → lines_ok w1 (written ++ toExportNdjsonLines recs).
Proof.
  intros Hok Hw Ht Hm. destruct (lines_ok_later _ _ _ Hw Hok) as [Hl Hs]. split.
  - unfold line_ids. rewrite omap_app. fold (line_ids written) (line_ids (toExportNdjsonLines recs)). rewrite line_ids_page, !last_app.
    unfold toExportNdjsonLines. rewrite last_app, (fmap_last id recs). destruct (list.last recs) as [r|] eqn:Hr; simpl; [done|].
    apply last_None in Hr as ->. done.
  - intros s Hin. apply elem_of_app in Hin as [Hin|Hin]; [by apply Hs|]. unfold toExportNdjsonLines in Hin.
    apply elem_of_app in Hin as [Hin|Hin]; [|by destruct (list.last recs); apply list_elem_of_singleton in Hin || apply not_elem_of_nil in Hin].
    apply list_elem_of_fmap in Hin as (rec & [= ->] & Hrec). destruct (mapM_elem _ _ _ _ Hm Hrec) as (row & Hrow & Hrd).
    apply (subseteq_take 100), selected_elem in Hrow as [[i Hi] _]. by exists t, i, row, rec.
Qed.

Lemma export_done w w1 start afterId r : export_inv w start afterId (line_ids (ex_lines r)) → lines_ok w1 (ex_lines r) →
  (ex_end r = LastPage → ∀ i, persistent w i → after start i → i ∈ line_ids (ex_lines r)) →
  ∀ w2, rtc db_evolves w1 w2 → export_correct w start r w2.
Proof.
  intros [Hsort Hafter Hlast Hne Hcomp] Hok Hend w2 Hw2. destruct (lines_ok_later _ _ _ Hw2 Hok) as [Hl Hs].
  split; [done|]. split; [done|]. split; [|done]. intros i Hp Ha [He|(x & Hx & Hix)]; [by apply Hend|]. apply Hcomp; [done|done|].
  rewrite Hlast, Hx. intros Haf. assert (x ≠ "") as Hxne.
  { rewrite list.Forall_forall in Hne. apply Hne. apply list_elem_of_lookup. eexists. by rewrite <-last_lookup. }
  apply after_some in Haf as [Hxi Hd]; [|done]. apply Hd. by apply collate_antisym.
Qed.

Lemma export_safe w start closed pages : ∀ w1 afterId written, db_ok w1 → rtc db_evolves w w1 →
  export_inv w start afterId (line_ids written) → lines_ok w1 written →
  safe (export_correct w start) (export_loop closed pages afterId written) w1.
Proof.
  induction pages as [|pages IH]; intros w1 afterId written Hok Hw Hinv Hl; cbn [StreamRoutes.export_loop].
  { intros w2. by eapply export_done. }
  destruct (closed pages). { intros w2. by eapply export_done. }
  apply safe_then. eapply safe_page with (eff := 100); eauto.
  - intros e w2 Hw2 w3 Hw3. eapply export_done; [exact Hinv|eapply lines_ok_later; [exact Hw2|exact Hl]|done|done].
  - intros w2 t recs n w3 Hw2 Ht Htok Hm _ Hw3. simpl Z.to_nat in Hm. change (Pos.to_nat 100) with 100%nat in Hm.
    destruct (page_continues w w2 t start afterId (line_ids written) recs Hinv ltac:(by etrans) Ht Htok Hm) as [Hinv' Hlast].
    pose proof (lines_ok_app w1 w2 t written _ _ recs Hl Hw2 Ht Hm) as Hl'.
    assert (line_ids (written ++ toExportNdjsonLines recs) = line_ids written ++ (id <$> recs)) as Hids.
    { unfold line_ids at 1. rewrite omap_app. f_equal. apply line_ids_page. }
    rewrite <-Hids in Hinv'. cbn [page_streams page_hasMore]. destruct (100 <? Z.of_nat _) eqn:Hmore.
    + assert (rtc db_evolves w1 w3) as Hw13 by by etrans.
      refine (IH w3 _ _ _ _ Hinv' _); [eapply evolves_ok_rtc; [exact Hw13|exact Hok]|etrans; [exact Hw|exact Hw13]|eapply lines_ok_later; [exact Hw3|exact Hl']].
    + intros w4 Hw4. eapply (export_done w w3 start); [exact Hinv'|eapply lines_ok_later; [exact Hw3|exact Hl']| |exact Hw4].
      intros _. cbn [ex_lines]. rewrite Hids. apply Hlast. apply Z.ltb_ge in Hmore. lia.
Qed.

(** A call and operations of the repository beside it. *)
Definition alongside {A} (p : eff statement A) (ops : list operation) : list (eff statement (option A)) :=
  eff_then p (λ a, Done (Some a)) :: ((λ o, eff_then (perform hmac key previousKey o) (λ _, Done None)) <$> ops).

Lemma alongside_safe {A} (P : A → db → Prop) (p : eff statement A) ops w ps' w' a :
  Forall names_ids ops → db_ok w → safe P p w → eff_steps step (alongside p ops, w) (ps', w') →
  ps' !! 0%nat = Some (Done (Some a)) → ∃ w1, rtc db_evolves w1 w' ∧ P a w1.
Proof.
  intros Hn Hok Hp Hs Ha. rewrite list.Forall_forall in Hn.
  destruct (pool_safe step db_evolves (λ i x w', i = 0%nat → ∀ a, x = Some a → ∃ w1, rtc db_evolves w1 w' ∧ P a w1) (alongside p ops) w ps' w')
    as [_ Hsafe]; [|done|by apply (Hsafe 0%nat _ Ha w' (rtc_refl _ _) eq_refl)].
  intros [|i] q Hq; simpl in Hq.
  - injection Hq as <-. apply safe_then. eapply safe_weaken; [|exact Hp]. intros x w1 Hx w2 Hw2 _ y [= <-]. by exists w1.
  - apply list_lookup_fmap_Some in Hq as (o & -> & Ho). apply safe_then.
    eapply safe_weaken; [|eapply safe_perform; eauto; apply Hn; by eapply list_elem_of_lookup_2]. by intros x w1 _ w2.
Qed.


(** Every address column of a table is sealed for an address in use. *)
Definition all_sealed (addrs : list string) (t : table) : Prop :=
  ∀ i r c, t !! i = Some r → ∃ a, a ∈ addrs ∧ column_sealed enc hmac keys (stored_address c r) (stored_hash c r) a.

(** A caller whose token carries an address only lists streams it sends or
    receives, whatever filters and cursor it passes and whatever runs beside it. *)
Theorem scoped_listing streamCursorScope addrs caller q ops w ps' w' page :
  hmac_good hmac addrs → caller ∈ addrs → caller ≠ "" → String.prefix PGP_MESSAGE_PREFIX caller = false → lr_caller q = Some caller →
  Forall names_ids ops → db_ok w →
  eff_steps step (alongside (listStreamsHandler hmac key previousKey pool_exhausted streamCursorScope q) ops, w) (ps', w') →
  Forall (all_sealed addrs) (w'.1 :: w'.2) → ps' !! 0%nat = Some (Done (Some (Ok page))) →
  Forall (λ s, st_sender s = caller ∨ st_recipient s = caller) (lp_streams page).
Proof.
  intros Hh Hin Hne Hpre Hcaller Hn Hok Hs Hsealed Hp.
  pose (P := λ (x : result ApiError StreamListPage) (w' : db), ∀ page, x = Ok page → Forall (λ s, ∃ t i r record c, t ∈ w'.1 :: w'.2 ∧ t !! i = Some r ∧
    readable r = Some record ∧ s = toApiStream record ∧ address_is hmac keys (Some caller) c r = true) (lp_streams page)).
  assert (∃ w1, rtc db_evolves w1 w' ∧ P (Ok page) w1) as (w1 & Hw1 & HP); cycle 1.
  { eapply list.Forall_impl; [by apply HP|]. intros s (t & i & r & rec & c & Ht & Hr & Hrd & -> & Hm).
    rewrite list.Forall_forall in Hsealed. destruct (Hsealed t ltac:(by eapply versions_grow) i r c Hr) as (a & Ha & Hc).
    pose proof (sealed_reads _ _ pgcrypto hmac keys c r a rec Hc Hrd) as Hsa.
    assert (a = caller) as -> by by eapply (address_matches enc dec pgcrypto hmac keys c).
    destruct c; simpl in Hsa; [left|right]; by simpl. }
  eapply (alongside_safe P); [done|done| |done|done]. clear Hs Hp ps'. unfold listStreamsHandler.
  destruct (parseCursorParam _) as [cursor|e]; [|by intros w1 _]. case_match; [by intros w1 _|]. destruct (negb _); [by intros w1 _|].
  rewrite Hcaller. destruct (assertCallerMayList _ _ _) as [u|e] eqn:Hmay; [|by intros w1 _].
  assert (∃ c, match c with SenderColumn => truthy (q_sender (lr_filters q)) | RecipientColumn => truthy (q_recipient (lr_filters q)) end = Some caller) as [c Hc].
  { unfold assertCallerMayList in Hmay. assert (truthy (Some caller) = Some caller) as Htc by by destruct caller. rewrite Htc in Hmay.
    destruct (truthy (q_sender _)) as [a|]; [|destruct (truthy (q_recipient _)) as [b|]; [|done]].
    - case_bool_decide as Hd; [destruct (truthy (q_recipient (lr_filters q))); done|]. subst a. by exists SenderColumn.
    - case_bool_decide as Hd; [done|]. subst b. by exists RecipientColumn. }
  unfold withDbErrors. apply safe_then. destruct (newStreamQueryBuilder (NumInt (lr_limit q))) as [eff|e] eqn:Hl; cycle 1.
  { unfold listStreams, StreamRepository.findWithCursor. rewrite Hl. by intros w1 _ w2 _. }
  eapply safe_page; [eauto..|apply Hh| |].
  { by intros e w1 _ w2 _ page'. }
  intros w1 t recs n w2 Hw1 Ht Htok Hm _ Hw2 w3 Hw3 page' [= <-]. simpl. apply list.Forall_fmap, list.Forall_forall. intros s Hsin.
  destruct (mapM_elem _ _ _ _ Hm Hsin) as (r & Hr & Hrd). apply subseteq_take, selected_elem in Hr as ([i Hi] & Hmc & _).
  exists t, i, r, s, c. splits; [by eapply versions_grow; [|eapply versions_grow]|done|done|done|].
  unfold matches_common, buildStreamFilter in Hmc. rewrite !andb_true_iff in Hmc. destruct Hmc as [[[_ Hsnd] Hrcp] _].
  assert (∀ o, truthy o = Some caller → address_is hmac keys o c r = true → address_is hmac keys (Some caller) c r = true) as Hsame.
  { intros o Ho. unfold address_is. rewrite Ho. by destruct caller. }
  destruct c; by eapply Hsame.
Qed.

(** ** Lemmas and properties: ending a stream *)

(** The requests that change the status of one stream, with the status answered. *)
Inductive status_request : Type := Cancel (callerAddress : option string) | SetStatus (newStatus : jsval).
Definition target (q : status_request) : option ApiStreamStatus :=
  match q with Cancel _ => Some Api_cancelled | SetStatus v => isApiStreamStatus v end.
Definition status_program (i : string) (q : status_request) : eff statement (result ApiError ApiStreamStatus) :=
  match q with
  | Cancel caller => eff_then (cancelStreamHandler key previousKey pool_exhausted i caller)
      (λ x, Done (match x with Ok _ => Ok Api_cancelled | Err e => Err e end))
  | SetStatus v => eff_then (updateStreamStatusHandler key previousKey pool_exhausted i v)
      (λ x, Done (match x with Ok s => Ok (st_status s) | Err e => Err e end))
  end.

Definition answered {A} (x : result ApiError A) : Prop := ∃ a, x = Ok a.

Lemma contends_withDbErrors {A B} P (op : eff statement (result RepoError A)) (k : A → eff statement (result ApiError B)) :
  contends step P (λ _, False) false op → (∀ a, contends step P answered false (k a)) →
  contends step P answered false (withDbErrors pool_exhausted op k).
Proof.
  intros Hop Hk. eapply contends_then; [exact Hop|]. intros [a|e] b' _; [|right; by intros [? ?]].
  destruct b'; [by eapply contends_mono|done].
Qed.

Lemma contends_withStatusConflicts {A B} P (op : eff statement (result RepoError A)) (g : A → B) :
  contends step P succeeded false op → contends step P answered false (withStatusConflicts pool_exhausted op (λ a, Done (Ok (g a)))).
Proof.
  intros Hop. eapply contends_then; [exact Hop|]. intros [a|e] b' Hb'.
  - left. destruct Hb' as [?|Hn]; [done|]. exfalso. apply Hn. by exists a.
  - destruct e; right; by intros [? ?].
Qed.

Lemma contends_status_program i q s : target q = Some s → isTerminalStatus (Reported s) = true →
  contends step (terminal_row i) answered false (status_program i q).
Proof.
  intros Hs Hterm.
  assert (∀ (r : StreamRecord) B (g : StreamRecord → B), contends step (terminal_row i) answered false
    (assertApiTransition (status r) s (withStatusConflicts pool_exhausted (updateStream key previousKey i (status_update s)) (λ a, Done (Ok (g a)))))) as Hup.
  { intros r B g. unfold assertApiTransition. destruct (transitionError _ _); [right; by intros [? ?]|].
    apply contends_withStatusConflicts. by eapply contends_update. }
  assert (i = "" ∨ truthy (Some i) = Some i) as [->|Hi] by (destruct i; auto).
  { destruct q; right; by intros [? ?]. }
  destruct q as [caller|v]; simpl in Hs; unfold status_program.
  - simplify_eq. apply (contends_then _ _ answered); [|intros [a|e] b'; [intros [->|Hn]; [by left|exfalso; apply Hn; by eexists]|right; by intros [? ?]]].
    unfold cancelStreamHandler. rewrite Hi. apply contends_withDbErrors; [by eapply contends_getById|].
    intros [r|]; [|right; by intros [? ?]]. destruct (match truthy caller with Some a => _ | None => false end); [right; by intros [? ?]|apply Hup].
  - apply (contends_then _ _ answered); [|intros [a|e] b'; [intros [->|Hn]; [by left|exfalso; apply Hn; by eexists]|right; by intros [? ?]]].
    unfold updateStreamStatusHandler. rewrite Hi, Hs. apply contends_withDbErrors; [by eapply contends_getById|].
    intros [r|]; [|right; by intros [? ?]]. apply Hup.
Qed.

(** Of the requests that end a stream, by DELETE or PATCH, at most one is answered
    with success however they interleave. *)
Theorem one_request_ends_stream i calls w ps' w' :
  Forall (λ q, ∃ s, target q = Some s ∧ isTerminalStatus (Reported s) = true) calls →
  eff_steps step (status_program i <$> calls, w) (ps', w') →
  ∀ j k x y, ps' !! j = Some (Done x) → ps' !! k = Some (Done y) → answered x → answered y → j = k.
Proof.
  intros Hc Hs. rewrite list.Forall_forall in Hc. eapply (one_winner step (terminal_row i) answered); [|exact Hs].
  intros j p Hj. apply list_lookup_fmap_Some in Hj as (q & -> & Hq). apply list_elem_of_lookup_2, Hc in Hq as (s & Ht & Hterm).
  by eapply contends_status_program.
Qed.

End export.

(** ** Witnesses *)

#[local] Instance cursor_json_eq_dec : EqDecision cursor_json.
Proof. solve_decision. Defined.
#[local, program] Instance cursor_json_countable : Countable cursor_json :=
  inj_countable' (λ e, (cj_v e, cj_lastId e, cj_scope e)) (λ p, let '(a, b, c) := p in Build_cursor_json a b c) _.
Next Obligation. by intros []. Qed.

Lemma trim_start_snoc l c : js_space c = false → str_empty (trim_start (unchars (l ++ [c]))) = false.
Proof. intros Hc. induction l as [|a l IH]; simpl; [by rewrite Hc|]. by destruct (js_space a). Qed.

Lemma rev_nonempty s : str_empty s = false → str_empty (str_rev s) = false.
Proof. destruct s as [|c s]; [done|]. intros _. unfold str_rev. simpl. rewrite reverse_cons. by destruct (reverse _). Qed.

Definition unquote (s : string) : string := match s with String _ s' => s' | EmptyString => "" end.
#[local] Instance sample_base64url : Base64url.
Proof.
  refine {| base64url_encode s := String "x" s; base64url_decode := unquote |}; [done|]. intros s _. unfold js_trim.
  apply rev_nonempty. simpl. unfold str_rev. simpl. rewrite reverse_cons. by apply trim_start_snoc.
Defined.

Lemma sample_antisym a b : String.le a b → String.le b a → a = b.
Proof. apply (anti_symm String.le). Qed.

(** Two streams are exported in one page. *)
(** The export of both streams, page by page. *)
Lemma sample_export : ∃ ps' w' r, eff_steps sample_step (alongside sample_hmac (Some "new") (Some "old")
      (exportStreamsHandler sample_hmac (Some "new") (Some "old") (λ _, false) JUndefined None (λ _, false)) [], sample_db2) (ps', w') ∧
    ps' !! 0%nat = Some (Done (Some r)) ∧ ex_end r = LastPage ∧ line_ids (ex_lines r) = ["tx-0"; "tx-1"].
Proof.
  eexists _, _, _. split; [read_step 0%nat ltac:(left); apply rtc_refl|]. split; [vm_compute; reflexivity|]. split; vm_compute; reflexivity.
Qed.


Definition alice_lists : list_request := {|
  lr_limit := 20; lr_cursor := JUndefined; lr_filters := {| q_status := None; q_sender := Some "alice"; q_recipient := None |};
  lr_include_total := false; lr_healthy := true; lr_forcePrimary := false; lr_caller := Some "alice" |}.

Lemma sample_all_sealed t : t ∈ sample_db2.1 :: sample_db2.2 → all_sealed sample_enc sample_hmac sample_keys ["alice"; "bob"] t.
Proof.
  assert (∀ i x c, ∃ a, a ∈ ["alice"; "bob"] ∧ column_sealed sample_enc sample_hmac sample_keys (stored_address c (sample_row i x)) (stored_hash c (sample_row i x)) a) as Hrow.
  { intros i x [|]; [exists "alice"|exists "bob"]; (split; [set_solver|]); left; [exists 0, "new"|exists 1, "new"]; (split; [by left|done]). }
  intros Ht i r c Hr. unfold sample_db2, sample_db in Ht. simpl in Ht. apply elem_of_cons in Ht as [->|Ht%list_elem_of_singleton]; [|subst t].
  - apply lookup_insert_Some in Hr as [[_ <-]|[_ Hr]]; [apply Hrow|]. apply lookup_singleton_Some in Hr as [_ <-]. apply Hrow.
  - apply lookup_singleton_Some in Hr as [_ <-]. apply Hrow.
Qed.

Lemma scoped_listing_witness : ∃ page, st_id <$> lp_streams page = ["tx-0"; "tx-1"] ∧
  Forall (λ s, st_sender s = "alice" ∨ st_recipient s = "alice") (lp_streams page).
Proof.
  assert (∃ ps' w' page, eff_steps sample_step (alongside sample_hmac (Some "new") (Some "old")
      (listStreamsHandler sample_hmac (Some "new") (Some "old") (λ _, false) (λ _ _, "scope") alice_lists) [], sample_db2) (ps', w') ∧
    ps' !! 0%nat = Some (Done (Some (Ok page))) ∧ st_id <$> lp_streams page = ["tx-0"; "tx-1"] ∧ w' = sample_db2) as (ps' & w' & page & Hs & H0 & H1 & Hw).
  { eexists _, _, _. split; [read_step 0%nat ltac:(left); apply rtc_refl|]. split; [vm_compute; reflexivity|]. split; vm_compute; reflexivity. }
  exists page. split; [exact H1|].
  apply (scoped_listing sample_enc sample_dec sample_pgcrypto sample_hmac String.le (Some "new") (Some "old") sample_keys eq_refl (λ _, false)
    (λ _ _, "scope") ["alice"; "bob"] "alice" alice_lists [] sample_db2 ps' w' page (sample_hmac_good _) ltac:(by left) ltac:(done) eq_refl eq_refl
    ltac:(constructor) sample_db2_ok Hs); [|exact H0].
  subst w'. apply list.Forall_forall. intros t Ht. by apply sample_all_sealed.
Defined.

(** A cancellation is answered; a completion that read the stream before it is not. *)
Lemma one_request_ends_stream_witness :
  ∃ ps' w', eff_steps sample_step (status_program (Some "new") (Some "old") (λ _, false) "tx-0" <$> [Cancel None; SetStatus (JStr "completed")], sample_db) (ps', w') ∧
    ps' !! 0%nat = Some (Done (Ok Api_cancelled)) ∧ (∀ y, ps' !! 1%nat = Some (Done y) → ¬ answered y).
Proof.
  assert (∃ ps' w', eff_steps sample_step (status_program (Some "new") (Some "old") (λ _, false) "tx-0" <$> [Cancel None; SetStatus (JStr "completed")], sample_db) (ps', w') ∧
    ps' !! 0%nat = Some (Done (Ok Api_cancelled)) ∧ ps' !! 1%nat = Some (Done (Err (Unhandled (InvalidTransition Api_cancelled Api_completed))))) as (ps' & w' & Hs & H0 & H1).
  { eexists _, _. split; [read_step 0%nat ltac:(left); read_step 1%nat ltac:(left); read_step 0%nat ltac:(reflexivity); statement_step 0%nat 7;
      read_step 1%nat ltac:(reflexivity); apply rtc_refl|]. split; vm_compute; reflexivity. }
  exists ps', w'. split; [exact Hs|]. split; [exact H0|]. intros y Hy Hans.
  assert (0%nat = 1%nat) as Heq; [|discriminate Heq].
  apply (one_request_ends_stream sample_enc sample_dec sample_hmac String.le (Some "new") (Some "old") sample_keys eq_refl (λ _, false) "tx-0"
    [Cancel None; SetStatus (JStr "completed")] sample_db ps' w' ltac:(repeat constructor; by eexists) Hs 0%nat 1%nat _ _ H0 Hy); [by eexists|exact Hans].
Defined.
