(* ===== verification/RateLimitStore.v ===== *)
(** * Rate-limit stores ([src/redis/rateLimitStore.ts])

    The sliding-window counters behind the rate limiter: the in-memory store, the
    Redis sorted-set store and the hybrid of both.  Each operation of the in-memory
    store runs without yielding, and each operation of the Redis store is one
    [MULTI]/[EXEC] or one command, so a list of calls in the order of execution
    stands for every interleaving of concurrent calls.  The server's sorted sets are
    the class [SortedSets], whose laws give the effect of each command on one key;
    the random part of a member is an argument of a call. *)
From Stdlib Require Import Ascii ZArith Lia Sorted.
From stdpp Require Import base gmap strings list fin_maps sorting.
From S2P Require Import Prelude Effects.
Local Open Scope string_scope.
Local Open Scope list_scope.
Local Open Scope Z_scope.

(** ** Arguments *)

Definition MAX_RATE_LIMIT_KEY_LENGTH : Z := 1024.
Definition MIN_RATE_LIMIT_WINDOW_MS : Z := 1000.
Definition MAX_WINDOW_MS : Z := 24 * 60 * 60 * 1000.

Record RateLimitInputError : Type := { field : string; rule : string }.

(** What a store throws: its typed error, or any other [Error]. *)
Inductive store_error : Type := InputError (e : RateLimitInputError) | OtherError (message : string).

Definition assertKey (key : jsval) : result RateLimitInputError string :=
  match key with
  | JStr key =>
      if str_empty (js_trim key) then Err {| field := "key"; rule := "must be a non-empty string" |}
      else if Z.of_nat (length (chars key)) >? MAX_RATE_LIMIT_KEY_LENGTH then
        Err {| field := "key";
               rule := "must not exceed 1024 characters (got " +:+ int_string (Z.of_nat (length (chars key))) +:+ ")" |}
      else Ok key
  | _ => Err {| field := "key"; rule := "must be a non-empty string" |}
  end.

Definition assertWindowMs (windowMs : jsval) : result RateLimitInputError Z :=
  match windowMs with
  | JNum (NumInt w) =>
      if w <? MIN_RATE_LIMIT_WINDOW_MS then
        Err {| field := "windowMs"; rule := "must be at least 1000ms (got " +:+ int_string w +:+ ")" |}
      else if w >? MAX_WINDOW_MS then
        Err {| field := "windowMs"; rule := "must not exceed 86400000ms (got " +:+ int_string w +:+ ")" |}
      else Ok w
  | JNum (NumFrac _) => Err {| field := "windowMs"; rule := "must be an integer" |}
  | _ => Err {| field := "windowMs"; rule := "must be a finite number" |}
  end.

Definition assertOperationInputs (key windowMs : jsval) : result RateLimitInputError (string * Z) :=
  match assertKey key with
  | Err e => Err e
  | Ok key => match assertWindowMs windowMs with Err e => Err e | Ok w => Ok (key, w) end
  end.

(** [{ count, resetAt }] *)
Notation answer := (result store_error (Z * Z)).

(** ** The in-memory store *)

Record SlidingBucket : Type := { timestamps : list Z; windowMs : Z }.
Record InMemoryStore : Type := { buckets : list (string * SlidingBucket); operationsSinceSweep : Z }.
Definition SWEEP_INTERVAL : Z := 256.
Definition empty_store : InMemoryStore := {| buckets := []; operationsSinceSweep := 0 |}.
Definition with_buckets (b : list (string * SlidingBucket)) (s : InMemoryStore) : InMemoryStore :=
  {| buckets := b; operationsSinceSweep := operationsSinceSweep s |}.

Definition prune (bucket : SlidingBucket) (now : Z) : SlidingBucket :=
  let cutoff := now - windowMs bucket in
  {| timestamps := (span (λ t, t <=? cutoff) (timestamps bucket)).2; windowMs := windowMs bucket |}.

(** The loop prunes every bucket and deletes those left empty. *)
Definition sweep (now : Z) (m : list (string * SlidingBucket)) : list (string * SlidingBucket) :=
  filter (λ p, timestamps p.2 ≠ []) (prod_map id (λ b, prune b now) <$> m).

Definition maybeSweep (now : Z) (s : InMemoryStore) : InMemoryStore :=
  let ops := operationsSinceSweep s + 1 in
  if ops <? SWEEP_INTERVAL then {| buckets := buckets s; operationsSinceSweep := ops |}
  else {| buckets := sweep now (buckets s); operationsSinceSweep := 0 |}.

(** The bucket after [bucket.windowMs = w; this.prune(bucket, now)]. *)
Definition refresh (now w : Z) (b : SlidingBucket) : SlidingBucket :=
  prune {| timestamps := timestamps b; windowMs := w |} now.

(** What follows the validation and the sweep in [increment] ... *)
Definition record_at (now : Z) (key : string) (w : Z) (s : InMemoryStore) : answer * InMemoryStore :=
  let old := match jm_get key (buckets s) with Some b => timestamps (refresh now w b) | None => [] end in
  let ts := old ++ [now] in
  (Ok (Z.of_nat (length ts), default now (head ts) + w),
   with_buckets (jm_set key {| timestamps := ts; windowMs := w |} (buckets s)) s).

(** ... and in [getCount]. *)
Definition count_at (now : Z) (key : string) (w : Z) (s : InMemoryStore) : answer * InMemoryStore :=
  match jm_get key (buckets s) with
  | None => (Ok (0, now + w), s)
  | Some b =>
      let b := refresh now w b in
      match timestamps b with
      | [] => (Ok (0, now + w), with_buckets (jm_delete key (buckets s)) s)
      | first :: _ => (Ok (Z.of_nat (length (timestamps b)), first + w), with_buckets (jm_set key b (buckets s)) s)
      end
  end.

Definition increment (now : Z) (key windowMs : jsval) (s : InMemoryStore) : answer * InMemoryStore :=
  match assertOperationInputs key windowMs with
  | Err e => (Err (InputError e), s)
  | Ok (key, w) => record_at now key w (maybeSweep now s)
  end.

Definition getCount (now : Z) (key windowMs : jsval) (s : InMemoryStore) : answer * InMemoryStore :=
  match assertOperationInputs key windowMs with
  | Err e => (Err (InputError e), s)
  | Ok (key, w) => count_at now key w (maybeSweep now s)
  end.

Definition close (s : InMemoryStore) : InMemoryStore := empty_store.

(** A call of a store: [increment] or [getCount]. *)
Record call : Type := { at_ms : Z; is_increment : bool; key_arg : jsval; window_arg : jsval }.

Definition mem_call (c : call) : InMemoryStore → answer * InMemoryStore :=
  (if is_increment c then increment else getCount) (at_ms c) (key_arg c) (window_arg c).

Fixpoint mem_run (h : list call) (s : InMemoryStore) : list answer * InMemoryStore :=
  match h with
  | [] => ([], s)
  | c :: h => let '(a, s) := mem_call c s in let '(l, s) := mem_run h s in (a :: l, s)
  end.

(** ** The Redis store *)

Definition KEY_PREFIX : string := "fluxora:rl:".

Definition safe_char (c : ascii) : bool :=
  let n := nat_of_ascii c in
  ((48 <=? n)%nat && (n <=? 57)%nat) || ((65 <=? n)%nat && (n <=? 90)%nat) || ((97 <=? n)%nat && (n <=? 122)%nat)
  || bool_decide (c = "."%char) || bool_decide (c = "_"%char) || bool_decide (c = "-"%char).

Definition sanitiseIdentifier (id : string) : string :=
  let sanitised := (λ c, if safe_char c then c else "_"%char) <$> chars id in
  match take 256 sanitised with [] => "unknown" | l => unchars l end.

(** The commands of a [RedisPipeline] and [ZCOUNT]; the lower bound of
    [zremrangebyscore] is always ['-inf'], the upper bound of [zcount] ['+inf']. *)
Inductive zcmd : Type :=
| ZAddNx (score : Z) (member : string)
| ZRemRangeByScore (max : Z)
| ZCard
| PExpire (ms : Z)
| ZCount (min : Z).

(** A sorted set with the time its key expires, and what is left of it at [t]. *)
Definition zset : Type := gmap string Z * option Z.
Definition zlive (t : Z) (z : zset) : zset :=
  match z.2 with Some d => if t <? d then z else (∅, None) | None => z end.

(** Redis deletes the key of a sorted set that becomes empty. *)
Definition znormal (m : gmap string Z) (d : option Z) : zset := (m, if decide (m = ∅) then None else d).

(** The documented effect of a command at time [t] on the key it names. *)
Definition zeffect (t : Z) (c : zcmd) (z : zset) : Z * zset :=
  let '(m, d) := zlive t z in
  match c with
  | ZAddNx score member =>
      match m !! member with Some _ => (0, (m, d)) | None => (1, (<[member := score]> m, d)) end
  | ZRemRangeByScore max =>
      let m' := filter (λ p, max < p.2) m in (Z.of_nat (size m) - Z.of_nat (size m'), znormal m' d)
  | ZCard => (Z.of_nat (size m), (m, d))
  | PExpire ms => if decide (m = ∅) then (0, (m, d)) else (1, (m, Some (t + ms)))
  | ZCount min => (Z.of_nat (size (filter (λ p, min <= p.2) m)), (m, d))
  end.

Class SortedSets (R : Type) := {
  zexec : Z → string → zcmd → R → Z * R;
  zkey : R → string → zset;
}.

Class SortedSetLaws (R : Type) `{SortedSets R} := {
  law_zreply t k c r : (zexec t k c r).1 = (zeffect t c (zkey r k)).1;
  law_zkey t k c r j :
    zkey (zexec t k c r).2 j = if decide (j = k) then (zeffect t c (zkey r k)).2 else zkey r j;
}.

(** What can happen to [exec()]: it is answered; it is rejected before or after the
    server ran it; it answers [null]; command [i] fails while the others run. *)
Inductive exec_fault : Type :=
| NoFault | Rejected (e : string) | ReplyLost (e : string) | NullReply | CommandFails (i : nat) (e : string).

Notation exec_reply := (result string (option (list (result string Z)))).

Section sliding_window.
Context {R : Type} `{SortedSets R}.

(** The commands of a transaction in order, without a break. *)
Fixpoint multi (t : Z) (k : string) (cs : list zcmd) (r : R) : list Z * R :=
  match cs with
  | [] => ([], r)
  | c :: cs => let '(x, r) := zexec t k c r in let '(xs, r) := multi t k cs r in (x :: xs, r)
  end.

Definition exec (t : Z) (f : exec_fault) (k : string) (cs : list zcmd) (r : R) : exec_reply * R :=
  match f with
  | NoFault => let '(xs, r) := multi t k cs r in (Ok (Some (Ok <$> xs)), r)
  | Rejected e => (Err e, r)
  | ReplyLost e => (Err e, (multi t k cs r).2)
  | NullReply => (Ok None, r)
  | CommandFails i e =>
      if (i <? length cs)%nat then
        let '(before, r) := multi t k (take i cs) r in
        let '(after, r) := multi t k (drop (S i) cs) r in
        (Ok (Some ((Ok <$> before) ++ Err e :: (Ok <$> after))), r)
      else let '(xs, r) := multi t k cs r in (Ok (Some (Ok <$> xs)), r)
  end.

Definition buildKey (key : string) : string := KEY_PREFIX +:+ sanitiseIdentifier key.
Definition member_of (now : Z) (hex : string) : string := int_string now +:+ "-" +:+ hex.

Definition pipeline (now w : Z) (member : string) : list zcmd :=
  [ZAddNx now member; ZRemRangeByScore (now - w); ZCard; PExpire w].

(** The loop over the results, from index [i]. *)
Fixpoint first_error (i : nat) (results : list (result string Z)) : option string :=
  match results with
  | [] => None
  | Err e :: _ => Some ("Redis pipeline command at index " +:+ int_string (Z.of_nat i) +:+ " failed: " +:+ e)
  | Ok _ :: results => first_error (S i) results
  end.

Definition read_pipeline (reply : exec_reply) : result store_error Z :=
  match reply with
  | Err e => Err (OtherError e)
  | Ok None => Err (OtherError "Redis sliding-window pipeline failed to execute")
  | Ok (Some results) =>
      match first_error 0 results with
      | Some message => Err (OtherError message)
      | None => Ok (match results !! 2%nat with Some (Ok n) => n | _ => 0 end)
      end
  end.

Definition closed_error : store_error := OtherError "SlidingWindowStore is closed".

(** [now] is the process's clock, [t] the time at which the server runs the commands. *)
Definition redis_increment (now t : Z) (hex : string) (f : exec_fault) (closed : bool) (key windowMs : jsval)
    (r : R) : answer * R :=
  match assertOperationInputs key windowMs with
  | Err e => (Err (InputError e), r)
  | Ok (key, w) =>
      if closed then (Err closed_error, r) else
      let '(results, r) := exec t f (buildKey key) (pipeline now w (member_of now hex)) r in
      (match read_pipeline results with Ok count => Ok (count, now + w) | Err e => Err e end, r)
  end.

Definition redis_getCount (now t : Z) (failure : option string) (closed : bool) (key windowMs : jsval) (r : R)
    : answer * R :=
  match assertOperationInputs key windowMs with
  | Err e => (Err (InputError e), r)
  | Ok (key, w) =>
      if closed then (Err closed_error, r) else
      match failure with
      | Some e => (Err (OtherError e), r)
      | None => let '(count, r) := zexec t (buildKey key) (ZCount (now - w)) r in (Ok (count, now + w), r)
      end
  end.

(** A call with its delay to the server, the random part of its member and its fate. *)
Record redis_call : Type := {
  rc_call : call; rc_server : Z; rc_hex : string; rc_fault : exec_fault; rc_closed : bool;
}.

Definition redis_step (c : redis_call) (r : R) : answer * R :=
  let k := rc_call c in
  if is_increment k
  then redis_increment (at_ms k) (rc_server c) (rc_hex c) (rc_fault c) (rc_closed c) (key_arg k) (window_arg k) r
  else redis_getCount (at_ms k) (rc_server c)
         (match rc_fault c with Rejected e | ReplyLost e | CommandFails _ e => Some e | NoFault | NullReply => None end)
         (rc_closed c) (key_arg k) (window_arg k) r.

Fixpoint redis_run (h : list redis_call) (r : R) : list answer * R :=
  match h with
  | [] => ([], r)
  | c :: h => let '(a, r) := redis_step c r in let '(l, r) := redis_run h r in (a :: l, r)
  end.
End sliding_window.

(** The server with a map of sorted sets. *)
#[global] Instance zmap_server : SortedSets (gmap string zset) := {|
  zexec t k c r := let '(x, z) := zeffect t c (default (∅, None) (r !! k)) in (x, <[k := z]> r);
  zkey r k := default (∅, None) (r !! k);
|}.
#[global] Instance zmap_laws : SortedSetLaws (gmap string zset).
Proof.
  split; intros; unfold zexec, zkey; simpl; destruct (zeffect _ _ _) as [x z] eqn:Hz; [done|]. simpl.
  case_decide as Hj; [by subst; rewrite lookup_insert_eq|by rewrite lookup_insert_ne].
Qed.

(** ** The hybrid store *)

Record HybridStore (P F : Type) : Type := {
  primary : P; fallback : F; usingFallback : bool; reported : list (store_error * string);
}.
Arguments Build_HybridStore {P F}. Arguments primary {P F}. Arguments fallback {P F}.
Arguments usingFallback {P F}. Arguments reported {P F}.

Section hybrid.
Context {P F : Type}.

(** The two actions of a call: the awaited call of the primary, and the [catch] block,
    which runs without yielding until the fallback has answered. *)
Inductive hybrid_cmd : Type → Type :=
| OnPrimary (call : P → answer * P) : hybrid_cmd answer
| OnFallback (e : store_error) (op : string) (call : F → answer * F) : hybrid_cmd answer.

Definition hybrid_action {X} (c : hybrid_cmd X) (s : HybridStore P F) : X * HybridStore P F :=
  match c with
  | OnPrimary call =>
      let '(a, p) := call (primary s) in
      (a, {| primary := p; fallback := fallback s; usingFallback := usingFallback s; reported := reported s |})
  | OnFallback e op call =>
      let '(a, f) := call (fallback s) in
      (a, {| primary := primary s; fallback := f; usingFallback := true; reported := reported s ++ [(e, op)] |})
  end.
Definition hybrid_step X (c : hybrid_cmd X) (s : HybridStore P F) (x : X) (s' : HybridStore P F) : Prop :=
  hybrid_action c s = (x, s').

(** [increment] and [getCount] differ in the operation [op] they call. *)
Definition hybrid_call (op : string) (key windowMs : jsval) (on_primary : P → answer * P)
    (on_fallback : F → answer * F) : eff hybrid_cmd answer :=
  match assertOperationInputs key windowMs with
  | Err e => Done (Err (InputError e))
  | Ok _ =>
      a ← ask (OnPrimary on_primary);
      match a with Ok r => Done (Ok r) | Err e => ask (OnFallback e op on_fallback) end
  end.
End hybrid.


(** ** What a history requests *)

(** The times at which [increment] recorded a request for [key]. *)
Definition records (key : string) (c : call) : option Z :=
  match assertOperationInputs (key_arg c) (window_arg c) with
  | Ok (k, _) => if is_increment c && bool_decide (k = key) then Some (at_ms c) else None
  | Err _ => None
  end.
Definition requests (key : string) (h : list call) : list Z := omap (records key) h.

(** The recorded requests of the [w] milliseconds before [now]. *)
Definition in_window (w now : Z) (l : list Z) : list Z := filter (λ t, now - w < t) l.

(** Calls in the order of their times. *)
Definition ordered (h : list call) : Prop := StronglySorted Z.le (at_ms <$> h).
(** Each key is always used with one window length. *)
Definition uniform (win : string → Z) (h : list call) : Prop :=
  ∀ c k w, c ∈ h → assertOperationInputs (key_arg c) (window_arg c) = Ok (k, w) → w = win k.

Lemma assert_window key windowMs k w :
  assertOperationInputs key windowMs = Ok (k, w) → MIN_RATE_LIMIT_WINDOW_MS <= w <= MAX_WINDOW_MS.
Proof.
  unfold assertOperationInputs, assertWindowMs. destruct (assertKey key); [|done].
  destruct windowMs as [| | |[z| | |]| | | |]; try done. cmp; intros ?; simplify_eq; lia.
Qed.

(** On a sorted list dropping the expired prefix is filtering. *)
Lemma drop_expired cutoff l :
  StronglySorted Z.le l → (span (λ t, t <=? cutoff) l).2 = filter (λ t, cutoff < t) l.
Proof.
  induction 1 as [|t l Hs IH Hall]; [done|]. simpl. rewrite filter_cons.
  destruct (Z.leb_spec t cutoff); case_decide; try lia.
  - destruct (span _ l) as [a b]. done.
  - simpl. f_equal. rewrite <-IH. clear IH Hs. induction l as [|x l IHl]; [done|]. simpl.
    apply list.Forall_cons in Hall as [Hx Hall]. rewrite (proj2 (Z.leb_gt x cutoff)) by lia. done.
Qed.

Lemma filter_window c c' (l : list Z) : c <= c' → filter (λ t, c' < t) (filter (λ t, c < t) l) = filter (λ t, c' < t) l.
Proof. intros Hc. rewrite list_filter_filter. apply list_filter_iff. intros x. lia. Qed.

Lemma sorted_filter (P : Z → Prop) `{∀ x, Decision (P x)} l : StronglySorted Z.le l → StronglySorted Z.le (filter P l).
Proof.
  induction 1 as [|t l Hs IH Hall]; [constructor|]. rewrite filter_cons. case_decide; [|done].
  constructor; [done|]. apply list.Forall_forall. intros x [_ Hx]%list_elem_of_filter.
  rewrite list.Forall_forall in Hall. auto.
Qed.

Lemma requests_snoc key h c : requests key (h ++ [c]) = requests key h ++ option_list (records key c).
Proof. unfold requests. rewrite omap_app. simpl. by destruct (records key c). Qed.

Lemma elem_of_requests key h t : t ∈ requests key h → ∃ c, c ∈ h ∧ at_ms c = t.
Proof.
  unfold requests. intros (c & Hc & Hr)%list_elem_of_omap. exists c. split; [done|].
  unfold records in Hr. destruct (assertOperationInputs _ _) as [[k w]|]; [|done]. by case_match; simplify_eq.
Qed.

Lemma sorted_snoc (l : list Z) t : StronglySorted Z.le (l ++ [t]) ↔ StronglySorted Z.le l ∧ ∀ x, x ∈ l → x <= t.
Proof.
  split.
  - intros Hs. induction l as [|x l IH]; [split; [constructor|by intros x ?%not_elem_of_nil]|].
    apply StronglySorted_inv in Hs as [Hs1 Hall]. apply list.Forall_app in Hall as [Ha Ht]. destruct (IH Hs1) as [Hl Hle].
    split; [by constructor|]. intros y [->|Hy]%elem_of_cons; [|auto]. by inversion Ht.
  - intros [Hs Hle]. induction Hs as [|x l Hs IH Hall]; [repeat constructor|]. simpl. constructor.
    + apply IH. intros y Hy. apply Hle. by right.
    + apply list.Forall_app. split; [done|]. apply list.Forall_singleton, Hle. by left.
Qed.

Lemma ordered_snoc h c : ordered (h ++ [c]) ↔ ordered h ∧ ∀ d, d ∈ h → at_ms d <= at_ms c.
Proof.
  unfold ordered. rewrite fmap_app. simpl. rewrite sorted_snoc. split; intros [? Hle]; (split; [done|]).
  - intros d Hd. by apply Hle, list_elem_of_fmap_2.
  - intros t (d & -> & Hd)%list_elem_of_fmap. auto.
Qed.

Lemma requests_sorted key h : ordered h → StronglySorted Z.le (requests key h).
Proof.
  induction h as [|c h IH] using rev_ind; [constructor|]. intros [Ho Hle]%ordered_snoc. rewrite requests_snoc.
  unfold records. destruct (assertOperationInputs _ _) as [[k w]|]; [|by rewrite app_nil_r; auto].
  case_match; simpl; [|by rewrite app_nil_r; auto]. apply sorted_snoc. split; [auto|].
  intros t (d & Hd & <-)%elem_of_requests. auto.
Qed.

Lemma uniform_app win h c : uniform win (h ++ [c]) → uniform win h ∧ uniform win [c].
Proof. intros Hu. split; intros d k w Hd; apply Hu, elem_of_app; [by left|by right]. Qed.

(** ** The in-memory store keeps the requests of the window *)

Definition kept (k : string) (m : list (string * SlidingBucket)) : list Z :=
  match jm_get k m with Some b => timestamps b | None => [] end.

(** Each bucket holds the recorded requests after some time that has left the window. *)
Record holds (win : string → Z) (T : Z) (req : string → list Z) (m : list (string * SlidingBucket)) : Prop := {
  holds_wf : jm_wf m;
  holds_window k b : jm_get k m = Some b → windowMs b = win k;
  holds_kept k : ∃ c, c <= T - win k ∧ kept k m = filter (λ t, c < t) (req k);
}.

Lemma holds_later win T T' req m : T <= T' → holds win T req m → holds win T' req m.
Proof.
  intros HT [Hwf Hw Hk]. split; [done|done|]. intros k. destruct (Hk k) as (c & Hc & ?). exists c. split; [lia|done].
Qed.

Lemma jm_get_prune now k (m : list (string * SlidingBucket)) :
  jm_get k (prod_map id (λ b, prune b now) <$> m) = (λ b, prune b now) <$> jm_get k m.
Proof. induction m as [|[j b] m IH]; [done|]. simpl. by case_decide. Qed.

Section kept.
Context (win : string → Z) (req : string → list Z) (Hreq : ∀ k, StronglySorted Z.le (req k)).

Lemma kept_sorted T m k : holds win T req m → StronglySorted Z.le (kept k m).
Proof. intros [_ _ Hk]. destruct (Hk k) as (c & _ & ->). by apply sorted_filter. Qed.

Lemma refresh_kept T now m k b :
  holds win T req m → T <= now → jm_get k m = Some b →
  timestamps (refresh now (win k) b) = in_window (win k) now (req k).
Proof.
  intros Hm HT Hb. pose proof (kept_sorted T m k Hm) as Hs. destruct Hm as [_ _ Hk]. destruct (Hk k) as (c & Hc & Heq).
  unfold kept in *. rewrite Hb in Hs, Heq. unfold refresh, prune. simpl. rewrite drop_expired by done.
  rewrite Heq. apply filter_window. lia.
Qed.

Lemma missing_window T now m k :
  holds win T req m → T <= now → jm_get k m = None → in_window (win k) now (req k) = [].
Proof.
  intros [_ _ Hk] HT Hb. destruct (Hk k) as (c & Hc & Heq). unfold kept in Heq. rewrite Hb in Heq.
  unfold in_window. rewrite <-(filter_window c) by lia. by rewrite <-Heq.
Qed.

Lemma sweep_holds T now m : holds win T req m → T <= now → holds win now req (sweep now m).
Proof.
  intros Hm HT. pose proof Hm as [Hwf Hw Hk].
  assert (jm_wf (prod_map id (λ b, prune b now) <$> m)) as Hwf'.
  { unfold jm_wf. rewrite <-list_fmap_compose. by rewrite (list_fmap_ext _ fst m) by done. }
  assert (∀ k, jm_get k (sweep now m) = match jm_get k m with
      Some b => if decide (timestamps (prune b now) ≠ []) then Some (prune b now) else None | None => None end) as Hget.
  { intros k. unfold sweep. rewrite jm_get_filter by done. rewrite jm_get_prune. by destruct (jm_get k m). }
  split.
  - by apply jm_wf_filter.
  - intros k b. rewrite Hget. destruct (jm_get k m) as [b0|] eqn:Hb; [|done]. case_decide; [|done]. intros [= <-].
    simpl. eauto.
  - intros k. exists (now - win k). split; [lia|]. unfold kept. rewrite Hget. destruct (jm_get k m) as [b|] eqn:Hb.
    + pose proof (refresh_kept T now m k b Hm HT Hb) as Hr. pose proof (Hw k b Hb) as Hwk.
      destruct b as [ts w]. unfold refresh in Hr. simpl in *. unfold in_window in Hr. subst w.
      case_decide as Hd; simpl; rewrite <-Hr; [done|].
      clear Hget. by destruct (span _ ts).2; [|destruct Hd].
    + symmetry. by apply (missing_window T now m k).
Qed.

Lemma maybeSweep_holds T now s :
  holds win T req (buckets s) → T <= now → holds win now req (buckets (maybeSweep now s)).
Proof.
  intros Hm HT. unfold maybeSweep. case_match; simpl; [by eapply holds_later|by eapply sweep_holds].
Qed.
End kept.

(** The answer to a call when [req] are the requests recorded before it. *)
Definition expected (req : string → list Z) (c : call) : answer :=
  match assertOperationInputs (key_arg c) (window_arg c) with
  | Err e => Err (InputError e)
  | Ok (k, w) =>
      let l := in_window w (at_ms c) (req k) in
      if is_increment c then Ok (Z.of_nat (length l) + 1, default (at_ms c) (head l) + w)
      else Ok (Z.of_nat (length l), default (at_ms c) (head l) + w)
  end.

Definition recorded (req : string → list Z) (c : call) (k : string) : list Z := req k ++ option_list (records k c).

Lemma kept_set k j b m : kept j (jm_set k b m) = if decide (j = k) then timestamps b else kept j m.
Proof.
  unfold kept. case_decide; [subst; by rewrite jm_get_set_eq|by rewrite jm_get_set_ne by congruence].
Qed.

Lemma holds_set win T req req' m k b :
  holds win T req m → windowMs b = win k → (∃ c, c <= T - win k ∧ timestamps b = filter (λ t, c < t) (req' k)) →
  (∀ j, j ≠ k → req' j = req j) → holds win T req' (jm_set k b m).
Proof.
  intros [Hwf Hw Hk] Hb Hts Hreq. split; [by apply jm_wf_set| |].
  - intros j b'. destruct (decide (j = k)) as [->|Hne]; [rewrite jm_get_set_eq by done; by intros [= <-]|].
    rewrite jm_get_set_ne by congruence. apply Hw.
  - intros j. rewrite kept_set. case_decide as Hj; [by subst|]. rewrite Hreq by done. apply Hk.
Qed.

Lemma holds_ext win T req req' m : (∀ k, req k = req' k) → holds win T req m → holds win T req' m.
Proof.
  intros He [Hwf Hw Hk]. split; [done|done|]. intros k. destruct (Hk k) as (c & Hc & Heq). exists c. by rewrite <-He.
Qed.

#[local] Arguments refresh : simpl never.

(** The validated call. *)
Lemma mem_call_unfold c s :
  mem_call c s = match assertOperationInputs (key_arg c) (window_arg c) with
    | Err e => (Err (InputError e), s)
    | Ok (key, w) => (if is_increment c then record_at else count_at) (at_ms c) key w (maybeSweep (at_ms c) s)
    end.
Proof. unfold mem_call. by destruct (is_increment c). Qed.

Section mem_call.
Context (win : string → Z) (req : string → list Z) (Hreq : ∀ k, StronglySorted Z.le (req k)).

Lemma refresh_or_nothing T now m k :
  holds win T req m → T <= now →
  match jm_get k m with Some b => timestamps (refresh now (win k) b) | None => [] end = in_window (win k) now (req k).
Proof.
  intros Hm HT. destruct (jm_get k m) eqn:Hb; [by eapply refresh_kept|symmetry; by eapply missing_window].
Qed.

Lemma increment_exact T now k m :
  holds win T req m → T <= now → MIN_RATE_LIMIT_WINDOW_MS <= win k →
  holds win now (λ j, if decide (j = k) then req k ++ [now] else req j)
    (jm_set k {| timestamps := in_window (win k) now (req k) ++ [now]; windowMs := win k |} m).
Proof.
  intros Hm HT Hw. unfold MIN_RATE_LIMIT_WINDOW_MS in Hw. eapply holds_set; [by eapply holds_later|done| |].
  - exists (now - win k). split; [lia|]. rewrite decide_True by done. rewrite list.filter_app. unfold in_window.
    f_equal. by rewrite filter_cons_True by lia.
  - intros j Hj. by rewrite decide_False.
Qed.

Lemma get_count_exact T now k m b :
  holds win T req m → T <= now → jm_get k m = Some b →
  holds win now req (jm_set k (refresh now (win k) b) m) ∧
  (timestamps (refresh now (win k) b) = [] → holds win now req (jm_delete k m)).
Proof.
  intros Hm HT Hb. pose proof (refresh_kept win req Hreq T now m k b Hm HT Hb) as Hr. split.
  - eapply holds_set; [by eapply holds_later|done| |done]. exists (now - win k). split; [lia|done].
  - intros Hnil. pose proof (holds_later _ _ now _ _ HT Hm) as [Hwf Hw Hk]. split; [by apply jm_wf_delete| |].
    + intros j b'. destruct (decide (j = k)) as [->|Hne]; [by rewrite jm_get_delete_eq|].
      rewrite jm_get_delete_ne by congruence. apply Hw.
    + intros j. unfold kept. destruct (decide (j = k)) as [->|Hne].
      * rewrite jm_get_delete_eq. exists (now - win k). split; [lia|]. by rewrite <-Hnil, Hr.
      * rewrite jm_get_delete_ne by congruence. apply Hk.
Qed.

Lemma mem_call_exact T c s :
  holds win T req (buckets s) → T <= at_ms c → uniform win [c] →
  (mem_call c s).1 = expected req c ∧ holds win (at_ms c) (recorded req c) (buckets (mem_call c s).2).
Proof.
  intros Hm HT Hu. specialize (Hu c). rewrite mem_call_unfold. unfold expected, recorded, records.
  destruct (assertOperationInputs _ _) as [[k w]|e] eqn:Hc.
  2:{ split; [done|]. eapply holds_ext; [|by eapply holds_later]. intros j. simpl. by rewrite app_nil_r. }
  pose proof (assert_window _ _ _ _ Hc) as [Hw _]. pose proof (Hu k w (list_elem_of_here _ _) eq_refl) as ->. clear Hu.
  pose proof (maybeSweep_holds win req Hreq T (at_ms c) s Hm HT) as Hm'. set (s' := maybeSweep (at_ms c) s) in *.
  destruct (is_increment c); unfold record_at, count_at; cbv zeta; cbn [andb].
  - rewrite (refresh_or_nothing (at_ms c) (at_ms c)) by done. split.
    + rewrite length_app. simpl. rewrite Nat2Z.inj_add. by destruct (in_window _ _ _).
    + eapply holds_ext; [|by eapply increment_exact]. intros j. destruct (decide (j = k)) as [->|Hj].
      * by rewrite decide_True, bool_decide_true by done.
      * rewrite decide_False by done. rewrite bool_decide_false by congruence. simpl. by rewrite app_nil_r.
  - destruct (jm_get k (buckets s')) as [b|] eqn:Hb.
    + destruct (get_count_exact (at_ms c) (at_ms c) k (buckets s') b Hm' ltac:(done) Hb) as [Hset Hdel].
      pose proof (refresh_kept win req Hreq _ _ _ k b Hm' ltac:(done) Hb) as Hr. rewrite <-Hr.
      destruct (timestamps (refresh _ _ b)); (split; [done|]); (eapply holds_ext; [|by auto]); intros j; simpl; by rewrite app_nil_r.
    + rewrite (missing_window win req _ _ _ k Hm') by done. split; [done|].
      eapply holds_ext; [|done]. intros j. simpl. by rewrite app_nil_r.
Qed.
End mem_call.

Lemma mem_run_app h1 h2 s : mem_run (h1 ++ h2) s =
  ((mem_run h1 s).1 ++ (mem_run h2 (mem_run h1 s).2).1, (mem_run h2 (mem_run h1 s).2).2).
Proof.
  revert s. induction h1 as [|c h1 IH]; intros s; simpl; [by destruct (mem_run h2 s)|].
  destruct (mem_call c s) as [a s1]. rewrite IH. by destruct (mem_run h1 s1).
Qed.

Lemma mem_run_holds win h T :
  ordered h → uniform win h → (∀ c, c ∈ h → at_ms c <= T) →
  holds win T (λ k, requests k h) (buckets (mem_run h empty_store).2).
Proof.
  revert T. induction h as [|c h IH] using rev_ind; intros T Ho Hu HT.
  { split; [apply jm_wf_nil|done|]. intros k. exists (T - win k). split; [lia|done]. }
  apply ordered_snoc in Ho as [Ho Hle]. apply uniform_app in Hu as [Hu Hc].
  rewrite mem_run_app. simpl. destruct (mem_call c _) as [a s'] eqn:Hcall. simpl.
  destruct (mem_call_exact win (λ k, requests k h) (λ k, requests_sorted k h Ho) (at_ms c) c
    (mem_run h empty_store).2 (IH _ Ho Hu Hle) ltac:(lia) Hc) as [_ Hs].
  rewrite Hcall in Hs. eapply holds_later; [apply HT, elem_of_app; right; by left|].
  eapply holds_ext; [|done]. intros k. unfold recorded. by rewrite requests_snoc.
Qed.

(** After any history of calls in the order of their times, with one window length
    per key, the in-memory store answers every call exactly: an increment with the
    number of requests for the key in the window that ends now, this one included,
    and the time the oldest of them leaves it; a count with the same without this
    one; malformed arguments with the typed error. *)
Lemma memory_counts_exact win h c :
  ordered (h ++ [c]) → uniform win (h ++ [c]) →
  (mem_call c (mem_run h empty_store).2).1 = expected (λ k, requests k h) c.
Proof.
  intros [Ho Hle]%ordered_snoc [Hu Hc]%uniform_app.
  exact (proj1 (mem_call_exact win _ (λ k, requests_sorted k h Ho) (at_ms c) c _
    (mem_run_holds win h _ Ho Hu Hle) ltac:(lia) Hc)).
Qed.

(** ** How many requests are admitted *)

(** The increments among a run of calls, each with its count if it was answered;
    [rec] gives the time of the calls of interest. *)
Definition trace {C} (rec : C → option Z) (h : list C) (answers : list answer) : list (Z * option Z) :=
  omap (λ p, t ← rec p.1; Some (t, match p.2 with Ok (n, _) => Some n | Err _ => None end)) (zip h answers).

(** The caller lets a request pass when the count is at most the limit. *)
Definition passes (limit a b : Z) (p : Z * option Z) : bool :=
  (a <? p.1) && (p.1 <=? b) && match p.2 with Some n => n <=? limit | None => false end.
Definition admitted (limit a b : Z) (l : list (Z * option Z)) : list (Z * option Z) :=
  filter (λ p, passes limit a b p = true) l.

(** Every answer counts itself and the earlier answered requests less than [w] old. *)
Definition counts_back (w : Z) (l : list (Z * option Z)) : Prop :=
  ∀ l1 t n l2, l = l1 ++ (t, Some n) :: l2 →
    Z.of_nat (length (filter (λ p, is_Some p.2 ∧ t - w < p.1) l1)) < n.

Lemma filter_length_mono {A} (P Q : A → Prop) `{∀ x, Decision (P x), ∀ x, Decision (Q x)} l :
  (∀ x, x ∈ l → P x → Q x) → (length (filter P l) ≤ length (filter Q l))%nat.
Proof.
  induction l as [|x l IH]; intros HPQ; [done|]. rewrite !filter_cons.
  assert (length (filter P l) ≤ length (filter Q l))%nat by (apply IH; intros y Hy; apply HPQ; by right).
  repeat case_decide; simpl; try lia. exfalso. eauto using list_elem_of_here.
Qed.

(** Counts that look back a window bound what the window admits. *)
Lemma admissions_bounded w limit a l :
  0 <= limit → counts_back w l → Z.of_nat (length (admitted limit a (a + w) l)) <= limit.
Proof.
  intros HL. induction l as [|[t o] l IH] using rev_ind; intros Hc; [done|].
  assert (counts_back w l) as Hc'.
  { intros l1 t' n l2 ->. eapply Hc. by rewrite <-app_assoc. }
  unfold admitted. rewrite list.filter_app, length_app. destruct (passes limit a (a + w) (t, o)) eqn:Hp.
  2:{ rewrite filter_cons_False by (by rewrite Hp). rewrite Nat.add_0_r. by apply IH. }
  rewrite filter_cons_True by done. unfold passes in Hp. simpl in Hp. destruct o as [n|]; [|by rewrite andb_false_r in Hp].
  rewrite !andb_true_iff, Z.ltb_lt, !Z.leb_le in Hp. pose proof (Hc l t n [] eq_refl) as Hn. simpl.
  enough (length (filter (λ p, passes limit a (a + w) p = true) l) ≤
    length (filter (λ p, is_Some p.2 ∧ (t - w < p.1)%Z) l))%nat by lia.
  apply filter_length_mono. intros [t' [n'|]] _; unfold passes; simpl; [|by rewrite andb_false_r].
  rewrite !andb_true_iff, Z.ltb_lt, !Z.leb_le. intros. split; [done|lia].
Qed.

Lemma trace_snoc {C} (rec : C → option Z) h answers c a :
  length h = length answers →
  trace rec (h ++ [c]) (answers ++ [a]) =
    trace rec h answers ++
    option_list (t ← rec c; Some (t, match a with Ok (n, _) => Some n | Err _ => None end)).
Proof.
  intros Hl. unfold trace. rewrite zip_with_app by done. rewrite omap_app. simpl. by destruct (rec c).
Qed.

Lemma counts_back_snoc w l t o :
  counts_back w l →
  (∀ n, o = Some n → Z.of_nat (length (filter (λ p, is_Some p.2 ∧ t - w < p.1) l)) < n) →
  counts_back w (l ++ [(t, o)]).
Proof.
  intros Hl Ho l1 t' n l2. destruct l2 as [|p l2 _] using rev_ind.
  - intros [-> [= -> ->]]%app_inj_tail. by apply Ho.
  - rewrite app_comm_cons, app_assoc. intros [-> _]%app_inj_tail. by eapply Hl.
Qed.

Lemma mem_run_length h s : length (mem_run h s).1 = length h.
Proof.
  revert s. induction h as [|c h IH]; intros s; [done|]. simpl. destruct (mem_call c s) as [a s1].
  specialize (IH s1). destruct (mem_run h s1). simpl in *. congruence.
Qed.

Lemma trace_times key h answers : length h = length answers → (trace (records key) h answers).*1 = requests key h.
Proof.
  revert answers. induction h as [|c h IH]; intros [|a answers]; try done. simpl. intros [= Hl]. unfold trace, requests in *.
  simpl. destruct (records key c); simpl; [f_equal|]; auto.
Qed.

Lemma filter_fst_length {A B} (P : A → Prop) `{∀ x, Decision (P x)} (l : list (A * B)) :
  length (filter (λ p, P p.1) l) = length (filter P l.*1).
Proof. induction l as [|[x y] l IH]; [done|]. rewrite fmap_cons, !filter_cons. simpl. case_decide; simpl; lia. Qed.

Lemma filter_snd_length {A B} (P : B → Prop) `{∀ x, Decision (P x)} (l : list (A * B)) :
  length (filter (λ p, P p.2) l) = length (filter P l.*2).
Proof. induction l as [|[x y] l IH]; [done|]. rewrite fmap_cons, !filter_cons. simpl. case_decide; simpl; lia. Qed.

Lemma memory_counts_back win key h :
  ordered h → uniform win h → counts_back (win key) (trace (records key) h (mem_run h empty_store).1).
Proof.
  induction h as [|c h IH] using rev_ind; intros Ho Hu.
  { intros l1 t n l2 Heq. by destruct l1. }
  pose proof (proj1 (mem_call_exact win _ (λ k, requests_sorted k h (proj1 (proj1 (ordered_snoc h c) Ho))) (at_ms c) c _
    (mem_run_holds win h _ (proj1 (proj1 (ordered_snoc h c) Ho)) (proj1 (uniform_app win h c Hu))
      (proj2 (proj1 (ordered_snoc h c) Ho))) ltac:(lia) (proj2 (uniform_app win h c Hu)))) as Hans.
  apply ordered_snoc in Ho as [Ho Hle]. pose proof (uniform_app win h c Hu) as [Hu1 Hc]. rewrite mem_run_app. simpl.
  destruct (mem_call c _) as [a s']. simpl in *. rewrite trace_snoc by (by rewrite mem_run_length).
  destruct (records key c) as [t|] eqn:Hr; [|by rewrite app_nil_r; auto]. apply counts_back_snoc; [auto|].
  intros n Hn. subst a. unfold records in Hr. unfold expected in Hn. specialize (Hc c).
  destruct (assertOperationInputs _ _) as [[k w]|]; [|done]. rewrite (Hc k w) in Hn by (by left || done).
  destruct (is_increment c); [|done]. case_bool_decide; [|done]. simplify_eq/=.
  assert (length (filter (λ p : Z * option Z, is_Some p.2 ∧ (at_ms c - win key < p.1)%Z)
    (trace (records key) h (mem_run h empty_store).1)) ≤ length (in_window (win key) (at_ms c) (requests key h)))%nat; [|lia].
  rewrite <-(trace_times key h (mem_run h empty_store).1) by (by rewrite mem_run_length). unfold in_window.
  rewrite <-(filter_fst_length (λ x, (at_ms c - win key < x)%Z)). apply filter_length_mono. naive_solver.
Qed.

(** ** The Redis store under faults and delays *)

Section redis.
Context {R : Type} `{SortedSetLaws R}.

(** The increments that write to the Redis key [rk], with the member they send. *)
Definition sends (rk : string) (c : redis_call) : option (string * Z) :=
  match assertOperationInputs (key_arg (rc_call c)) (window_arg (rc_call c)) with
  | Ok (k, _) =>
      if is_increment (rc_call c) && negb (rc_closed c) && bool_decide (buildKey k = rk)
      then Some (member_of (at_ms (rc_call c)) (rc_hex c), at_ms (rc_call c)) else None
  | Err _ => None
  end.

(** Every call reaches the server within [delay] of reading its clock, and the server
    runs the calls in the order of the list. *)
Definition timely (delay : Z) (h : list redis_call) : Prop :=
  StronglySorted Z.le (rc_server <$> h) ∧
  ∀ c, c ∈ h → at_ms (rc_call c) <= rc_server c <= at_ms (rc_call c) + delay.
(** Each Redis key is always used with one window length. *)
Definition uniform_keys (win : string → Z) (h : list redis_call) : Prop :=
  ∀ c k w, c ∈ h → assertOperationInputs (key_arg (rc_call c)) (window_arg (rc_call c)) = Ok (k, w) → w = win (buildKey k).
Definition distinct_members (rk : string) (h : list redis_call) : Prop := NoDup (fst <$> omap (sends rk) h).

(** The requests [A] that are less than [w] old at [t] are in the set and its key lives on. *)
Definition remembers (t w : Z) (A : list (string * Z)) (z : zset) : Prop :=
  ∀ m τ, (m, τ) ∈ A → t - w < τ → z.1 !! m = Some τ ∧ (∀ d, z.2 = Some d → τ + w <= d).

Lemma remembers_later t t' w A z : t <= t' → remembers t w A z → remembers t' w A z.
Proof. intros Ht Hz m τ Hm Hτ. apply Hz; [done|lia]. Qed.

Lemma remembers_live t w A z : remembers t w A z → remembers t w A (zlive t z).
Proof.
  intros Hz m τ Hm Hτ. destruct (Hz m τ Hm Hτ) as [Hl Hd]. unfold zlive. destruct z.2 as [d|] eqn:E; [|by rewrite E].
  specialize (Hd d eq_refl). destruct (Z.ltb_spec t d); [|lia]. split; [done|]. intros d' ?. by simplify_eq.
Qed.

Lemma zlive_elem t z x τ : (zlive t z).1 !! x = Some τ → z.1 !! x = Some τ.
Proof. unfold zlive. destruct z.2 as [d|]; [destruct (t <? d)|]; simpl; [done|by rewrite lookup_empty|done]. Qed.
Lemma zlive_missing t z x : z.1 !! x = None → (zlive t z).1 !! x = None.
Proof. rewrite !eq_None_not_Some. intros Hz [τ Hτ%zlive_elem]. eauto. Qed.

Lemma zeffect_remembers t now w member A z c :
  now <= t → (∀ m τ, (m, τ) ∈ A → τ <= t) → c ∈ pipeline now w member →
  remembers t w A z → remembers t w A (zeffect t c z).2.
Proof.
  intros Hnow HA Hc Hz%remembers_live. unfold zeffect. destruct (zlive t z) as [m d]. unfold pipeline in Hc.
  intros x τ Hx Hτ. destruct (Hz x τ Hx Hτ) as [Hl Hd]. simpl in *.
  rewrite !elem_of_cons in Hc. destruct Hc as [->|[->|[->|[->|[]%not_elem_of_nil]]]]; simpl.
  - destruct (m !! member) eqn:Hm; simpl; [done|]. split; [|done]. rewrite lookup_insert_ne; [done|]. by intros ->; simplify_eq.
  - assert (filter (λ p, now - w < p.2) m !! x = Some τ) as Hf.
    { apply map_lookup_filter_Some. split; [done|]. simpl. lia. }
    split; [done|]. unfold znormal. simpl. rewrite decide_False; [done|]. intros He. by rewrite He, lookup_empty in Hf.
  - done.
  - rewrite decide_False by (intros ->; by rewrite lookup_empty in Hl). simpl. split; [done|]. intros d' [= <-].
    specialize (HA x τ Hx). lia.
Qed.

Lemma zeffect_members t now w member c z x τ :
  c ∈ pipeline now w member → (zeffect t c z).2.1 !! x = Some τ → z.1 !! x = Some τ ∨ (x, τ) = (member, now).
Proof.
  intros Hc. unfold zeffect. pose proof (zlive_elem t z x) as Hlive.
  destruct (zlive t z) as [m d]. unfold pipeline in Hc. simpl in *.
  rewrite !elem_of_cons in Hc. destruct Hc as [->|[->|[->|[->|[]%not_elem_of_nil]]]]; simpl; auto.
  - destruct (m !! member) eqn:Hm; simpl; [auto|]. intros [[-> ->]|[_ ?]]%lookup_insert_Some; auto.
  - intros [? _]%map_lookup_filter_Some. auto.
  - case_decide; simpl; auto.
Qed.

(** A predicate that every command of a list keeps is kept by any part of it. *)
Lemma multi_keeps (P : zset → Prop) t k cs r :
  (∀ c z, c ∈ cs → P z → P (zeffect t c z).2) → P (zkey r k) → P (zkey (multi t k cs r).2 k).
Proof.
  revert r. induction cs as [|c cs IH]; intros r HP Hr; [done|]. simpl. destruct (zexec t k c r) as [x r1] eqn:Hx.
  assert (P (zkey r1 k)) as H1.
  { replace r1 with (zexec t k c r).2 by by rewrite Hx. rewrite law_zkey, decide_True by done. apply HP; [by left|done]. }
  specialize (IH r1 ltac:(intros; apply HP; [by right|done]) H1). by destruct (multi t k cs r1).
Qed.

Lemma multi_other t k cs r j : j ≠ k → zkey (multi t k cs r).2 j = zkey r j.
Proof.
  intros Hj. revert r. induction cs as [|c cs IH]; intros r; [done|]. simpl. destruct (zexec t k c r) as [x r1] eqn:Hx.
  assert (zkey r1 j = zkey r j) as <-.
  { replace r1 with (zexec t k c r).2 by by rewrite Hx. by rewrite law_zkey, decide_False. }
  specialize (IH r1). by destruct (multi t k cs r1).
Qed.

Lemma exec_keeps (P : zset → Prop) t f k cs r :
  (∀ c z, c ∈ cs → P z → P (zeffect t c z).2) → P (zkey r k) → P (zkey (exec t f k cs r).2 k).
Proof.
  intros HP Hr. unfold exec. pose proof (multi_keeps P t k cs r HP Hr) as Hall.
  destruct f as [|e|e| |i e]; simpl; [by destruct (multi t k cs r)|done|done|done|].
  destruct (i <? length cs)%nat; [|by destruct (multi t k cs r)].
  pose proof (multi_keeps P t k (take i cs) r ltac:(intros c z Hc; by eapply HP, subseteq_take, Hc) Hr) as H1.
  destruct (multi t k (take i cs) r) as [b r1].
  pose proof (multi_keeps P t k (drop (S i) cs) r1 ltac:(intros c z Hc; by eapply HP, subseteq_drop, Hc) H1) as H2.
  by destruct (multi t k (drop (S i) cs) r1).
Qed.

Lemma exec_other t f k cs r j : j ≠ k → zkey (exec t f k cs r).2 j = zkey r j.
Proof.
  intros Hj. unfold exec. pose proof (multi_other t k cs r j Hj) as Hall.
  destruct f as [|e|e| |i e]; simpl; [by destruct (multi t k cs r)|done|done|done|].
  destruct (i <? length cs)%nat; [|by destruct (multi t k cs r)].
  pose proof (multi_other t k (take i cs) r j Hj) as H1. destruct (multi t k (take i cs) r) as [b r1].
  pose proof (multi_other t k (drop (S i) cs) r1 j Hj) as H2. destruct (multi t k (drop (S i) cs) r1). simpl in *. congruence.
Qed.

(** The transaction on the value of the key alone. *)
Fixpoint zmulti (t : Z) (cs : list zcmd) (z : zset) : list Z * zset :=
  match cs with
  | [] => ([], z)
  | c :: cs => ((zeffect t c z).1 :: (zmulti t cs (zeffect t c z).2).1, (zmulti t cs (zeffect t c z).2).2)
  end.

Lemma multi_zmulti t k cs r :
  (multi t k cs r).1 = (zmulti t cs (zkey r k)).1 ∧ zkey (multi t k cs r).2 k = (zmulti t cs (zkey r k)).2.
Proof.
  revert r. induction cs as [|c cs IH]; intros r; [done|]. simpl. destruct (zexec t k c r) as [x r1] eqn:Hx.
  destruct (IH r1) as [H1 H2]. assert (zkey r1 k = (zeffect t c (zkey r k)).2) as Hk.
  { replace r1 with (zexec t k c r).2 by by rewrite Hx. by rewrite law_zkey, decide_True. }
  rewrite Hk in H1, H2. destruct (multi t k cs r1) as [xs r2]. simpl in *.
  split; [|done]. rewrite <-law_zreply, Hx. simpl. congruence.
Qed.

Lemma zlive_alive t z m d : zlive t z = (m, d) → ∀ m', zlive t (m', d) = (m', d).
Proof.
  intros Hz m'. unfold zlive in *. destruct z.2 as [d'|] eqn:E; simpl.
  - destruct (t <? d') eqn:Ht; simplify_eq; simpl in *; simplify_eq; [by rewrite Ht|done].
  - rewrite Hz in E. simpl in E. by subst.
Qed.

Lemma zlive_znormal t z m d m' : zlive t z = (m, d) → zlive t (znormal m' d) = znormal m' d.
Proof. intros Hz. unfold znormal. case_decide; [done|]. by eapply zlive_alive. Qed.

Definition added (now : Z) (member : string) (m : gmap string Z) : gmap string Z :=
  match m !! member with Some _ => m | None => <[member := now]> m end.

(** The set a transaction leaves, the count it reports and the new deadline. *)
Lemma zmulti_pipeline t now w member z :
  let m := filter (λ p, now - w < p.2) (added now member (zlive t z).1) in
  (zmulti t (pipeline now w member) z).1 !! 2%nat = Some (Z.of_nat (size m)) ∧
  (zmulti t (pipeline now w member) z).2.1 = m ∧
  (m ≠ ∅ → (zmulti t (pipeline now w member) z).2.2 = Some (t + w)).
Proof.
  intros m. destruct (zlive t z) as [m0 d] eqn:Hz.
  assert ((zeffect t (ZAddNx now member) z).2 = (added now member m0, d)) as H1.
  { unfold zeffect, added. rewrite Hz. by destruct (m0 !! member). }
  assert ((zeffect t (ZRemRangeByScore (now - w)) (added now member m0, d)).2 = znormal m d) as H2.
  { unfold zeffect. by rewrite (zlive_alive t z m0 d Hz). }
  assert (zeffect t ZCard (znormal m d) = (Z.of_nat (size m), znormal m d)) as H3.
  { unfold zeffect. rewrite (zlive_znormal t z m0) by done. done. }
  cbn [pipeline zmulti fst snd]. rewrite H1, H2, H3. cbn [fst snd].
  split; [done|]. unfold zeffect. rewrite (zlive_znormal t z m0) by done. unfold znormal.
  by destruct (decide (m = ∅)).
Qed.

Lemma first_error_ok i xs : first_error i (Ok <$> xs) = None.
Proof. revert i. induction xs; simpl; auto. Qed.
Lemma first_error_err i xs e ys : is_Some (first_error i ((Ok <$> xs) ++ Err e :: ys)).
Proof. revert i. induction xs; simpl; eauto. Qed.

(** A pipeline that is answered ran in full. *)
Lemma exec_answered t f k cs r n :
  read_pipeline (exec t f k cs r).1 = Ok n →
  (exec t f k cs r).2 = (multi t k cs r).2 ∧ n = default 0 ((multi t k cs r).1 !! 2%nat).
Proof.
  unfold exec. assert (∀ xs : list Z, read_pipeline (Ok (Some (Ok <$> xs))) = Ok n → n = default 0 (xs !! 2%nat)) as Hok.
  { intros xs. unfold read_pipeline. rewrite first_error_ok, list_lookup_fmap. destruct (xs !! 2%nat); simpl; congruence. }
  destruct f as [|e|e| |i e]; simpl; try done.
  - destruct (multi t k cs r). simpl. auto.
  - destruct (i <? length cs)%nat; [|destruct (multi t k cs r); simpl; auto].
    destruct (multi t k (take i cs) r) as [b r1]. destruct (multi t k (drop (S i) cs) r1) as [a r2]. simpl.
    by destruct (first_error_err 0 b e (Ok <$> a)) as [? ->].
Qed.

Definition count_of (a : answer) : option Z := match a with Ok (n, _) => Some n | Err _ => None end.

(** What was sent to [rk], and the part of it that was answered. *)
Definition entries (rk : string) (h : list redis_call) (answers : list answer) : list (string * Z * option Z) :=
  omap (λ p, s ← sends rk p.1; Some (s, count_of p.2)) (zip h answers).
Definition answered (es : list (string * Z * option Z)) : list (string * Z) :=
  omap (λ e, match e.2 with Some _ => Some e.1 | None => None end) es.

Lemma trace_entries rk h answers :
  trace (λ c, snd <$> sends rk c) h answers = (λ e, (e.1.2, e.2)) <$> entries rk h answers.
Proof.
  revert answers. induction h as [|c h IH]; intros [|a answers]; try done. unfold trace, entries in *. simpl.
  destruct (sends rk c) as [[m t]|]; simpl; [f_equal|]; apply IH.
Qed.

Lemma entries_sent rk h answers : length h = length answers → (entries rk h answers).*1 = omap (sends rk) h.
Proof.
  revert answers. induction h as [|c h IH]; intros [|a answers]; try done. intros [= Hl]. unfold entries in *. simpl.
  destruct (sends rk c) as [s|]; simpl; [f_equal|]; auto.
Qed.

Lemma answered_count (P : Z → Prop) `{∀ x, Decision (P x)} es :
  length (filter (λ p : Z * option Z, is_Some p.2 ∧ P p.1) ((λ e, (e.1.2, e.2)) <$> es)) =
  length (filter (λ a, P a.2) (answered es)).
Proof.
  induction es as [|[[m t] [n|]] es IH]; [done| |]; rewrite fmap_cons, filter_cons; simpl.
  - rewrite filter_cons. simpl. rewrite (decide_ext _ (P t)) by (split; [by intros []|eauto]).
    destruct (decide (P t)); simpl; [by f_equal|done].
  - exact IH.
Qed.

Lemma answered_sublist es : sublist (answered es) es.*1.
Proof. induction es as [|[s [n|]] es IH]; simpl; by constructor. Qed.

Lemma answered_app es es' : answered (es ++ es') = answered es ++ answered es'.
Proof. apply omap_app. Qed.

Lemma sublist_map {A B} (f : A → B) l k : sublist l k → sublist (f <$> l) (f <$> k).
Proof. induction 1; simpl; by constructor. Qed.

Lemma size_at_least (m : gmap string Z) (l : list string) :
  NoDup l → (∀ x, x ∈ l → is_Some (m !! x)) → (length l ≤ size m)%nat.
Proof.
  intros Hl Hm. rewrite <-size_dom, <-(size_list_to_set (C := gset string) l) by done. apply subseteq_size.
  intros x Hx%elem_of_list_to_set. apply elem_of_dom. auto.
Qed.

(** The requests still in the window are counted, and this one with them. *)
Lemma pipeline_counts t now w member A z :
  now <= t → 0 < w → NoDup A.*1 → member ∉ A.*1 → z.1 !! member = None → remembers t w A z →
  (length (filter (λ a, (t - w < a.2)%Z) A) <
   size (filter (λ p, (now - w < p.2)%Z) (added now member (zlive t z).1)))%nat.
Proof.
  intros Hnow Hw Hnd Hm Hz Hr. set (act := filter _ A).
  pose proof (zlive_missing t z member Hz) as Hl.
  enough (length (member :: act.*1) ≤ size (filter (λ p, (now - w < p.2)%Z) (added now member (zlive t z).1)))%nat.
  { simpl in *. rewrite length_fmap in *. lia. }
  apply size_at_least.
  - apply list.NoDup_cons. split.
    + intros ([m τ] & -> & [_ Hin]%list_elem_of_filter)%list_elem_of_fmap. by apply Hm, (list_elem_of_fmap_2 fst A (m, τ)).
    + eapply sublist_NoDup; [exact Hnd|]. apply sublist_map, sublist_filter.
  - unfold added. rewrite Hl. intros x [->|Hx]%elem_of_cons.
    + exists now. apply map_lookup_filter_Some. rewrite lookup_insert_eq. simpl. split; [done|lia].
    + apply list_elem_of_fmap in Hx as ([m τ] & -> & [Hτ Hin]%list_elem_of_filter). simpl in *.
      destruct (remembers_live t w A z Hr m τ Hin Hτ) as [Hlk _]. exists τ. apply map_lookup_filter_Some. simpl.
      split; [|lia]. rewrite lookup_insert_ne; [done|]. intros ->. congruence.
Qed.

(** What the key [rk] holds after a history whose answered requests are [A]. *)
Definition redis_inv (rk : string) (w T : Z) (h : list redis_call) (A : list (string * Z)) (r : R) : Prop :=
  remembers T w A (zkey r rk) ∧
  (∀ x τ, (zkey r rk).1 !! x = Some τ → (x, τ) ∈ omap (sends rk) h) ∧
  (∀ m τ, (m, τ) ∈ A → τ <= T).

(** A call that sends nothing to [rk] leaves it as it is, or as it is at the time. *)
Lemma silent_call rk c r :
  sends rk c = None →
  zkey (redis_step c r).2 rk = zkey r rk ∨ zkey (redis_step c r).2 rk = zlive (rc_server c) (zkey r rk).
Proof.
  unfold sends, redis_step, redis_increment, redis_getCount. intros Hs.
  destruct (is_increment (rc_call c)); destruct (assertOperationInputs _ _) as [[k w]|]; simpl; auto;
    destruct (rc_closed c); auto.
  - left. simpl in Hs. case_bool_decide as Hk; [done|].
    pose proof (exec_other (rc_server c) (rc_fault c) (buildKey k)
      (pipeline (at_ms (rc_call c)) w (member_of (at_ms (rc_call c)) (rc_hex c))) r rk ltac:(congruence)) as He.
    by destruct (exec _ _ _ _ r).
  - assert (zkey (zexec (rc_server c) (buildKey k) (ZCount (at_ms (rc_call c) - w)) r).2 rk =
      if decide (rk = buildKey k) then zlive (rc_server c) (zkey r rk) else zkey r rk) as Hz.
    { rewrite law_zkey. destruct (decide (rk = buildKey k)) as [->|Hne]; [|done]. unfold zeffect.
      by destruct (zlive _ (zkey r _)). }
    destruct (zexec _ _ _ r) as [x r1]. simpl in Hz. destruct (rc_fault c); simpl; rewrite ?Hz; case_decide; auto.
Qed.

(** A call that sends its member. *)
Lemma sending_call rk c r m now :
  sends rk c = Some (m, now) → ∃ k w,
  assertOperationInputs (key_arg (rc_call c)) (window_arg (rc_call c)) = Ok (k, w) ∧ buildKey k = rk ∧
  now = at_ms (rc_call c) ∧
  (redis_step c r).2 = (exec (rc_server c) (rc_fault c) rk (pipeline now w m) r).2 ∧
  (redis_step c r).1 =
    match read_pipeline (exec (rc_server c) (rc_fault c) rk (pipeline now w m) r).1 with
    | Ok n => Ok (n, now + w) | Err e => Err e end.
Proof.
  unfold sends, redis_step, redis_increment. destruct (assertOperationInputs _ _) as [[k w]|]; [|done].
  destruct (is_increment (rc_call c)); [|done]. destruct (rc_closed c); [done|]. simpl. case_bool_decide as Hk; [|done].
  intros [= <- <-]. exists k, w. rewrite Hk. destruct (exec _ _ _ _ r). done.
Qed.

#[local] Arguments multi : simpl never.
#[local] Arguments zmulti : simpl never.

Lemma exec_inv rk t f now w m A r :
  now <= t → 0 < w → NoDup A.*1 → m ∉ A.*1 → (zkey r rk).1 !! m = None → (∀ x τ, (x, τ) ∈ A → τ <= t) →
  remembers t w A (zkey r rk) →
  let e := exec t f rk (pipeline now w m) r in
  remembers t w A (zkey e.2 rk) ∧
  (∀ x τ, (zkey e.2 rk).1 !! x = Some τ → (zkey r rk).1 !! x = Some τ ∨ (x, τ) = (m, now)) ∧
  (∀ n, read_pipeline e.1 = Ok n →
    Z.of_nat (length (filter (λ a, t - w < a.2) A)) < n ∧ remembers t w [(m, now)] (zkey e.2 rk)).
Proof.
  intros Hnow Hw Hnd HmA Hm Ht Hr e. splits.
  - apply exec_keeps; [|done]. intros c z Hc. by eapply zeffect_remembers.
  - intros x τ Hx. pose proof (exec_keeps (λ z, ∀ x τ, z.1 !! x = Some τ → (zkey r rk).1 !! x = Some τ ∨ (x, τ) = (m, now)) t f rk
      (pipeline now w m) r) as Hk. eapply Hk; [|eauto|exact Hx]. intros c z Hc Hz y v Hy.
    destruct (zeffect_members t now w m c z y v Hc Hy); eauto.
  - intros n Hn. subst e. destruct (exec_answered _ _ _ _ _ _ Hn) as [-> ->]. clear Hn.
    destruct (multi_zmulti t rk (pipeline now w m) r) as [H1 H2]. rewrite H1. clear H1.
    destruct (zmulti_pipeline t now w m (zkey r rk)) as (Hcount & Hset & Hdl). rewrite Hcount. simpl.
    pose proof (pipeline_counts t now w m A (zkey r rk) Hnow Hw Hnd HmA Hm Hr) as Hc. split; [lia|].
    intros x τ [= -> ->]%list_elem_of_singleton Hτ. rewrite H2, Hset. set (set := filter _ _) in *.
    assert (set !! m = Some now) as Hin.
    { subst set. apply map_lookup_filter_Some. simpl. split; [|lia]. unfold added. rewrite (zlive_missing t _ m Hm). apply lookup_insert_eq. }
    split; [done|]. rewrite Hdl by (intros He; by rewrite He, lookup_empty in Hin). intros d [= <-]. lia.
Qed.

Lemma redis_step_inv rk w T h A c r :
  0 < w → (∀ k w', assertOperationInputs (key_arg (rc_call c)) (window_arg (rc_call c)) = Ok (k, w') → buildKey k = rk → w' = w) →
  T <= rc_server c → at_ms (rc_call c) <= rc_server c → NoDup (fst <$> omap (sends rk) (h ++ [c])) →
  sublist A (omap (sends rk) h) → redis_inv rk w T h A r →
  redis_inv rk w (rc_server c) (h ++ [c]) (A ++ answered (entries rk [c] [(redis_step c r).1])) (redis_step c r).2 ∧
  (∀ n, is_Some (sends rk c) → count_of (redis_step c r).1 = Some n →
    Z.of_nat (length (filter (λ a, rc_server c - w < a.2) A)) < n).
Proof.
  intros Hw Hu HT Hnow Hnd HA (Hr & Hm & Ht). rewrite omap_app, fmap_app in Hnd. simpl in Hnd.
  eapply remembers_later in Hr; [|exact HT]. assert (∀ m τ, (m, τ) ∈ A → τ <= rc_server c) as Ht' by (intros; etrans; eauto).
  unfold entries, redis_inv. rewrite omap_app. simpl. destruct (sends rk c) as [[m now]|] eqn:Hs; simpl in *.
  - destruct (sending_call rk c r m now Hs) as (k & w' & Hok & Hk & -> & -> & ->). rewrite (Hu k w' Hok Hk). clear Hu w' Hok.
    apply list.NoDup_app in Hnd as (Hnd & Hdis & _).
    assert (m ∉ (omap (sends rk) h).*1) as Hfresh by (intros Hin; by apply (Hdis m Hin), list_elem_of_singleton).
    assert (sublist A.*1 (omap (sends rk) h).*1) as HA1 by by apply sublist_map.
    destruct (exec_inv rk (rc_server c) (rc_fault c) (at_ms (rc_call c)) w m A r) as (H1 & H2 & H3); [done|done| | | |done|done|].
    + by eapply sublist_NoDup.
    + intros Hin. by eapply Hfresh, elem_of_sublist.
    + apply eq_None_not_Some. intros [τ Hτ]. apply Hfresh. by apply (list_elem_of_fmap_2 fst _ (m, τ)), Hm.
    + destruct (exec _ _ _ _ r) as [reply r']. simpl in *. split.
      * splits; [| |].
        -- destruct (read_pipeline reply) as [n|]; simpl; [|by rewrite app_nil_r].
           intros x τ [Hx|Hx]%elem_of_app; [by apply H1|]. by apply (H3 n eq_refl).
        -- intros x τ [Hx| ->]%H2; apply elem_of_app; [left; by apply Hm|right; by left].
        -- intros x τ [Hx|Hx]%elem_of_app; [eauto|]. destruct (read_pipeline reply); simpl in Hx; [|by apply not_elem_of_nil in Hx].
           by apply list_elem_of_singleton in Hx as [= -> ->].
      * intros n _. destruct (read_pipeline reply) as [n'|]; simpl; [|done]. intros [= ->]. by apply H3.
  - rewrite !app_nil_r. split; [|by intros n [? ?]]. splits; [| |done].
    + destruct (silent_call rk c r Hs) as [-> | ->]; [done|by apply remembers_live].
    + intros x τ. destruct (silent_call rk c r Hs) as [-> | ->]; [apply Hm|].
      intros Hx%zlive_elem. by apply Hm.
Qed.

Lemma redis_run_snoc h c r :
  redis_run (h ++ [c]) r =
    ((redis_run h r).1 ++ [(redis_step c (redis_run h r).2).1], (redis_step c (redis_run h r).2).2).
Proof.
  revert r. induction h as [|d h IH]; intros r; simpl; [by destruct (redis_step c r)|].
  destruct (redis_step d r) as [a r1]. rewrite IH. by destruct (redis_run h r1).
Qed.

Lemma redis_run_length h r : length (redis_run h r).1 = length h.
Proof.
  revert r. induction h as [|c h IH]; intros r; [done|]. simpl. destruct (redis_step c r) as [a r1].
  specialize (IH r1). destruct (redis_run h r1). simpl in *. congruence.
Qed.

Lemma timely_snoc delay h c :
  timely delay (h ++ [c]) →
  timely delay h ∧ (∀ d, d ∈ h → rc_server d <= rc_server c) ∧
  at_ms (rc_call c) <= rc_server c <= at_ms (rc_call c) + delay.
Proof.
  intros [Hs Hd]. rewrite fmap_app in Hs. simpl in Hs. apply sorted_snoc in Hs as [Hs Hle]. split; [|split].
  - split; [done|]. intros d Hin. apply Hd, elem_of_app. by left.
  - intros d Hin. by apply Hle, list_elem_of_fmap_2.
  - apply Hd, elem_of_app. right. by left.
Qed.

Lemma entries_snoc rk h c r :
  entries rk (h ++ [c]) (redis_run (h ++ [c]) r).1 =
    entries rk h (redis_run h r).1 ++ entries rk [c] [(redis_step c (redis_run h r).2).1].
Proof.
  unfold entries. rewrite redis_run_snoc. simpl. rewrite zip_with_app by (by rewrite redis_run_length).
  by rewrite omap_app.
Qed.

Lemma counts_back_later w w' l : w' <= w → counts_back w l → counts_back w' l.
Proof.
  intros Hw Hc l1 t n l2 ->. specialize (Hc l1 t n l2 eq_refl).
  pose proof (filter_length_mono (λ p : Z * option Z, is_Some p.2 ∧ t - w' < p.1) (λ p, is_Some p.2 ∧ t - w < p.1) l1) as Hm.
  cut (length (filter (λ p : Z * option Z, is_Some p.2 ∧ (t - w' < p.1)%Z) l1) ≤
       length (filter (λ p : Z * option Z, is_Some p.2 ∧ (t - w < p.1)%Z) l1))%nat; [lia|].
  apply Hm. intros p _ [? ?]. split; [done|lia].
Qed.

Lemma redis_counts_back delay win rk h r :
  0 < win rk → timely delay h → uniform_keys win h → distinct_members rk h → zkey r rk = (∅, None) →
  counts_back (win rk - delay) (trace (λ c, snd <$> sends rk c) h (redis_run h r).1) ∧
  (∀ T, (∀ c, c ∈ h → rc_server c <= T) →
    redis_inv rk (win rk) T h (answered (entries rk h (redis_run h r).1)) (redis_run h r).2).
Proof.
  intros Hw Ht Hu Hnd Hr. induction h as [|c h IH] using rev_ind.
  { split; [intros l1 t n l2 Heq; by destruct l1|]. intros T _. split; [by intros m τ ?%not_elem_of_nil|]. split.
    - intros x τ. simpl. rewrite Hr. simpl. by rewrite lookup_empty.
    - by intros m τ ?%not_elem_of_nil. }
  apply timely_snoc in Ht as (Ht & Hle & Hc).
  assert (uniform_keys win h) as Hu1 by (intros d k w Hd; apply Hu, elem_of_app; by left).
  assert (distinct_members rk h) as Hnd1.
  { unfold distinct_members in *. rewrite omap_app, fmap_app in Hnd. by apply list.NoDup_app in Hnd as [? _]. }
  destruct (IH Ht Hu1 Hnd1) as [Hcb Hinv]. clear IH.
  assert (sublist (answered (entries rk h (redis_run h r).1)) (omap (sends rk) h)) as Hsub.
  { rewrite <-(entries_sent rk h (redis_run h r).1) by (by rewrite redis_run_length). apply answered_sublist. }
  destruct (redis_step_inv rk (win rk) (rc_server c) h (answered (entries rk h (redis_run h r).1)) c (redis_run h r).2 Hw)
    as [Hi Hn]; [|lia|lia|done|done|by apply Hinv|].
  { intros k w Hok <-. eapply Hu; [apply elem_of_app; right; by left|done]. }
  split.
  - rewrite trace_entries, entries_snoc, fmap_app, <-trace_entries. unfold entries. simpl.
    destruct (sends rk c) as [[m now]|] eqn:Hs; simpl; [|by rewrite app_nil_r].
    apply counts_back_snoc; [done|]. intros n Hcount. specialize (Hn n ltac:(done) Hcount).
    rewrite trace_entries, answered_count. assert (now = at_ms (rc_call c)) as ->.
    { by destruct (sending_call rk c r m now Hs) as (? & ? & _ & _ & ? & _). }
    cut (length (filter (λ a : string * Z, (at_ms (rc_call c) - (win rk - delay) < a.2)%Z) (answered (entries rk h (redis_run h r).1))) ≤
         length (filter (λ a : string * Z, (rc_server c - win rk < a.2)%Z) (answered (entries rk h (redis_run h r).1))))%nat; [lia|].
    apply filter_length_mono. intros a _. simpl. lia.
  - intros T HT. rewrite entries_snoc, answered_app, redis_run_snoc. simpl.
    assert (rc_server c <= T) by (apply HT, elem_of_app; right; by left).
    destruct Hi as (Hi1 & Hi2 & Hi3). split; [by eapply remembers_later|]. split; [done|]. intros m τ Hm. etrans; eauto.
Qed.

(** ** The Redis store when nothing fails *)

(** Every call reaches the server at once, none fails and the store is open. *)
Definition undisturbed (h : list redis_call) : Prop :=
  timely 0 h ∧ ∀ c, c ∈ h → rc_fault c = NoFault ∧ rc_closed c = false.

Lemma exec_no_fault t k cs r : read_pipeline (exec t NoFault k cs r).1 = Ok (default 0 ((multi t k cs r).1 !! 2%nat)).
Proof.
  unfold exec. destruct (multi t k cs r) as [xs r1]. unfold read_pipeline. simpl.
  rewrite first_error_ok, list_lookup_fmap. by destruct (xs !! 2%nat).
Qed.

Lemma all_answered rk h r :
  (∀ c, c ∈ h → rc_fault c = NoFault) → answered (entries rk h (redis_run h r).1) = omap (sends rk) h.
Proof.
  induction h as [|c h IH] using rev_ind; [done|]. intros Hf. rewrite entries_snoc, answered_app, omap_app.
  rewrite IH by (intros d Hd; apply Hf, elem_of_app; by left). f_equal. unfold entries. simpl.
  destruct (sends rk c) as [[m now]|] eqn:Hs; [|done]. simpl.
  destruct (sending_call rk c (redis_run h r).2 m now Hs) as (k & w & _ & _ & _ & _ & ->).
  rewrite (Hf c), exec_no_fault by (apply elem_of_app; right; by left). done.
Qed.

(** The set holds requests that were sent, none twice. *)
Lemma size_at_most (m : gmap string Z) l :
  (∀ x τ, m !! x = Some τ → (x, τ) ∈ l) → (size m ≤ length l)%nat.
Proof.
  intros Hm. rewrite <-length_map_to_list. apply submseteq_length, NoDup_submseteq; [apply NoDup_map_to_list|].
  intros [x τ] Hx%elem_of_map_to_list. auto.
Qed.

Lemma redis_count_exact win rk h c m now r :
  0 < win rk → undisturbed (h ++ [c]) → uniform_keys win (h ++ [c]) → distinct_members rk (h ++ [c]) →
  zkey r rk = (∅, None) → sends rk c = Some (m, now) →
  count_of (redis_step c (redis_run h r).2).1 =
    Some (Z.of_nat (length (in_window (win rk) now (snd <$> omap (sends rk) h))) + 1).
Proof.
  intros Hw [Ht Hall] Hu Hnd Hr Hs. pose proof (timely_snoc 0 h c Ht) as (Ht1 & Hle & Hc).
  assert (uniform_keys win h) as Hu1 by (intros d k w Hd; apply Hu, elem_of_app; by left).
  assert (distinct_members rk h) as Hnd1.
  { unfold distinct_members in *. rewrite omap_app, fmap_app in Hnd. by apply list.NoDup_app in Hnd as [? _]. }
  destruct (proj2 (redis_counts_back 0 win rk h r Hw Ht1 Hu1 Hnd1 Hr) _ Hle) as (H1 & H2 & H3).
  rewrite all_answered in H1, H3 by (intros d Hd; apply Hall, elem_of_app; by left).
  destruct (sending_call rk c (redis_run h r).2 m now Hs) as (k & w & Hok & Hk & Hnow & _ & ->).
  assert (w = win rk) as -> by (subst rk; eapply Hu; [apply elem_of_app; right; by left|done]).
  destruct (Hall c ltac:(apply elem_of_app; right; by left)) as [-> _]. rewrite exec_no_fault. simpl. f_equal.
  destruct (multi_zmulti (rc_server c) rk (pipeline now (win rk) m) (redis_run h r).2) as [-> _].
  destruct (zmulti_pipeline (rc_server c) now (win rk) m (zkey (redis_run h r).2 rk)) as (-> & _). simpl.
  assert (rc_server c = now) as -> by lia. unfold distinct_members in Hnd. rewrite omap_app, fmap_app in Hnd. simpl in Hnd.
  rewrite Hs in Hnd. simpl in Hnd. apply list.NoDup_app in Hnd as (Hnd & Hdis & _).
  assert (m ∉ (omap (sends rk) h).*1) as Hfresh by (intros Hin; by apply (Hdis m Hin), list_elem_of_singleton).
  assert ((zkey (redis_run h r).2 rk).1 !! m = None) as Hm.
  { apply eq_None_not_Some. intros [τ Hτ]. apply Hfresh. by apply (list_elem_of_fmap_2 fst _ (m, τ)), H2. }
  pose proof (pipeline_counts now now (win rk) m (omap (sends rk) h) (zkey (redis_run h r).2 rk)
    ltac:(lia) Hw Hnd Hfresh Hm ltac:(by assert (rc_server c = now) as <- by lia)) as Hlow.
  assert (size (filter (λ p, (now - win rk < p.2)%Z) (added now m (zlive now (zkey (redis_run h r).2 rk)).1)) ≤
    length ((m, now) :: filter (λ p : string * Z, (now - win rk < p.2)%Z) (omap (sends rk) h)))%nat as Hup.
  { apply size_at_most. intros x τ [Hx Hτ]%map_lookup_filter_Some. simpl in Hτ. unfold added in Hx.
    assert ((x, τ) = (m, now) ∨ (x, τ) ∈ omap (sends rk) h) as [-> |Hin]; [|by left|right].
    - rewrite (zlive_missing _ _ m Hm) in Hx.
      apply lookup_insert_Some in Hx as [[-> ->]|[_ Hx]]; [by left|right; eauto using zlive_elem].
    - by apply list_elem_of_filter. }
  unfold in_window. rewrite <-(filter_snd_length (λ x, (now - win rk < x)%Z)). simpl in Hup. lia.
Qed.
End redis.

(** ** The hybrid store *)

Section hybrid_calls.
Context {P : Type}.
Notation hybrid := (HybridStore P InMemoryStore).
Notation hstep := (@hybrid_step P InMemoryStore).

(** Once degraded the store reports it for ever; until then the fallback is untouched. *)
Definition degrades (s s' : hybrid) : Prop :=
  (usingFallback s = true → usingFallback s' = true) ∧
  (usingFallback s' = false → fallback s' = fallback s ∧ reported s' = reported s).

Lemma degrades_steps s s' : rtc degrades s s' → degrades s s'.
Proof.
  induction 1 as [s|s1 s2 s3 [H1 H2] _ [IH1 IH2]]; [done|]. split; [auto|]. intros Hf.
  destruct (IH2 Hf) as [-> ->]. apply H2. destruct (usingFallback s2); [|done]. by rewrite IH1 in Hf.
Qed.

Lemma mem_call_answers c s : is_ok (assertOperationInputs (key_arg c) (window_arg c)) = true → is_ok (mem_call c s).1 = true.
Proof.
  rewrite mem_call_unfold. destruct (assertOperationInputs _ _) as [[k w]|]; [|done]. intros _.
  destruct (is_increment c); [done|]. unfold count_at. destruct (jm_get _ _) as [b|]; [|done]. cbv zeta.
  by destruct (timestamps (refresh _ _ b)).
Qed.

Lemma hybrid_call_safe op c p s :
  is_ok (assertOperationInputs (key_arg c) (window_arg c)) = true →
  safe hstep degrades (λ a _, is_ok a = true) (hybrid_call op (key_arg c) (window_arg c) p (mem_call c)) s.
Proof.
  intros Hok. unfold hybrid_call. destruct (assertOperationInputs _ _) as [kw|] eqn:Ha; [|done].
  intros s1 a s2 _ Hs. unfold hybrid_step, hybrid_action in Hs. destruct (p (primary s1)) as [b p'].
  injection Hs as <- <-. split; [by split|]. destruct b as [r|e]; [by intros|].
  intros s3 b s4 _ Hs. unfold hybrid_step, hybrid_action in Hs.
  pose proof (mem_call_answers c (fallback s3)) as Hm. rewrite Ha in Hm. destruct (mem_call c (fallback s3)) as [a f].
  injection Hs as <- <-. split; [by split|]. intros s5 _. by apply Hm.
Qed.
End hybrid_calls.

(** ** The theorems *)

(** C10: The limit holds across a cluster: whatever any number of processes send to a
    Redis key, in whatever order it arrives and whichever transactions fail before,
    during or after their execution, if every call reaches the server within [delay]
    of reading its clock then in every span of one window less [delay] at most
    [limit] requests are answered with a count within the limit. *)
Theorem redis_limit_holds {R} `{SortedSetLaws R} delay limit win rk h r a :
  0 <= limit → 0 < win rk → timely delay h → uniform_keys win h → distinct_members rk h → zkey r rk = (∅, None) →
  Z.of_nat (length (admitted limit a (a + (win rk - delay))
    (trace (λ c, snd <$> sends rk c) h (redis_run h r).1))) <= limit.
Proof.
  intros HL Hw Ht Hu Hnd Hr. apply admissions_bounded; [done|]. by apply redis_counts_back.
Qed.

(** The same for the in-memory store, where calls take effect at once. *)
Lemma memory_limit_holds limit win key h a :
  0 <= limit → ordered h → uniform win h →
  Z.of_nat (length (admitted limit a (a + win key) (trace (records key) h (mem_run h empty_store).1))) <= limit.
Proof. intros HL Ho Hu. apply admissions_bounded; [done|]. by apply memory_counts_back. Qed.

(** The keys of a history keep distinct Redis keys. *)
Definition keys_apart (h : list redis_call) : Prop :=
  ∀ c c' k k' w w', c ∈ h → c' ∈ h →
    assertOperationInputs (key_arg (rc_call c)) (window_arg (rc_call c)) = Ok (k, w) →
    assertOperationInputs (key_arg (rc_call c')) (window_arg (rc_call c')) = Ok (k', w') →
    buildKey k = buildKey k' → k = k'.

Lemma same_requests k h :
  (∀ c k' w', c ∈ h → assertOperationInputs (key_arg (rc_call c)) (window_arg (rc_call c)) = Ok (k', w') →
    buildKey k' = buildKey k → k' = k) →
  (∀ c, c ∈ h → rc_closed c = false) → requests k (rc_call <$> h) = snd <$> omap (sends (buildKey k)) h.
Proof.
  intros Ha Ho. assert (∀ c, c ∈ h → records k (rc_call c) = snd <$> sends (buildKey k) c) as Hrec.
  { intros c Hc. unfold records, sends.
    destruct (assertOperationInputs (key_arg (rc_call c)) _) as [[k' w']|] eqn:Hk'; [|done].
    rewrite (Ho c Hc). cbn [negb]. rewrite andb_true_r.
    rewrite (bool_decide_ext (buildKey k' = buildKey k) (k' = k)); [|split; [exact (Ha c k' w' Hc Hk')|by intros ->]].
    by destruct (is_increment (rc_call c) && bool_decide (k' = k)). }
  clear Ha Ho. unfold requests. induction h as [|c h IH]; [done|]. simpl. rewrite (Hrec c) by by left.
  destruct (sends (buildKey k) c) as [[m t]|]; simpl; [f_equal|]; apply IH; intros d Hd; apply Hrec; by right.
Qed.

Lemma run_at {C A S} (step : C → S → A * S) (run : list C → S → list A * S) h1 c h2 s :
  (∀ s, run [] s = ([], s)) →
  (∀ c h s, run (c :: h) s = let '(a, s1) := step c s in let '(l, s2) := run h s1 in (a :: l, s2)) →
  (run (h1 ++ c :: h2) s).1 !! length h1 = Some (step c (run h1 s).2).1.
Proof.
  intros Hnil Hcons. revert s. induction h1 as [|d h1 IH]; intros s; simpl; rewrite !Hcons.
  - rewrite Hnil. simpl. destruct (step c s) as [a s1]. by destruct (run h2 s1).
  - destruct (step d s) as [a s1]. specialize (IH s1). destruct (run h1 s1). by destruct (run (h1 ++ c :: h2) s1).
Qed.

Lemma undisturbed_ordered h : undisturbed h → ordered (rc_call <$> h).
Proof.
  intros [[Hs Ht] _]. unfold ordered. rewrite <-list_fmap_compose. rewrite (list_fmap_ext _ rc_server h); [done|].
  intros i c Hc. specialize (Ht c (list_elem_of_lookup_2 _ _ _ Hc)). simpl. lia.
Qed.


(** The hybrid store answers every valid call in every interleaving and whatever the
    primary does, and once it has fallen back it says so for ever. *)
Theorem hybrid_always_answers {P} (calls : list (string * call * (P → answer * P))) s ps' s' :
  Forall (λ x, is_ok (assertOperationInputs (key_arg x.1.2) (window_arg x.1.2)) = true) calls →
  eff_steps hybrid_step ((λ x, hybrid_call x.1.1 (key_arg x.1.2) (window_arg x.1.2) x.2 (mem_call x.1.2)) <$> calls, s) (ps', s') →
  (∀ i a, ps' !! i = Some (Done a) → is_ok a = true) ∧ degrades s s'.
Proof.
  intros Hv Hs. set (ps := _ <$> calls) in Hs.
  assert (∀ i p, ps !! i = Some p → safe hybrid_step degrades (λ a _, is_ok a = true) p s) as Hp.
  { subst ps. intros i p Hi. apply list_lookup_fmap_Some in Hi as ([[op c] f] & -> & Hi).
    apply hybrid_call_safe. exact (Forall_lookup_1 _ _ _ _ Hv Hi). }
  destruct (pool_safe hybrid_step degrades (λ _ a _, is_ok a = true) ps s ps' s' Hp Hs) as [Hd Hp'].
  split; [|by apply degrades_steps]. intros i a Hi. exact (Hp' i _ Hi s' (rtc_refl _ _)).
Qed.

(** When the oldest request of a window leaves it alone, one leaves and one has come. *)
Lemma oldest_leaves w now now' l :
  default now (head (in_window w now l)) + w = now' → 0 < w → StronglySorted Z.lt (in_window w now (l ++ [now])) →
  length (in_window w now' (l ++ [now])) = length (in_window w now l).
Proof.
  intros <- Hw Hs. set (o := default now (head (in_window w now l))).
  assert (in_window w now (l ++ [now]) = in_window w now l ++ [now]) as Hl.
  { unfold in_window. rewrite list.filter_app. by rewrite filter_cons_True by lia. }
  assert (∃ rest, in_window w now l ++ [now] = o :: rest) as [rest Hrest].
  { subst o. destruct (in_window w now l); simpl; eauto. }
  rewrite Hl, Hrest in Hs. apply StronglySorted_inv in Hs as [_ Hgt].
  assert (now - w < o) as Ho.
  { assert (o ∈ in_window w now (l ++ [now])) as Hin by (rewrite Hl, Hrest; by left). by apply list_elem_of_filter in Hin as [? _]. }
  assert (in_window w (o + w) (l ++ [now]) = rest) as ->.
  { unfold in_window. rewrite <-(filter_window (now - w)) by lia. change (filter _ (l ++ [now])) with (in_window w now (l ++ [now])).
    rewrite Hl, Hrest, filter_cons_False by lia. clear -Hgt. induction rest as [|x rest IH]; [done|].
    apply list.Forall_cons in Hgt as [Hx Hgt]. rewrite filter_cons_True by lia. f_equal. auto. }
  apply (f_equal length) in Hrest. rewrite length_app in Hrest. simpl in Hrest. lia.
Qed.

(** What the answer of an increment promises: a caller over the limit that waits until
    [resetAt] and tries again is over the limit by as much as before, unless several
    requests were made in the oldest millisecond. *)
Lemma retry_at_reset win h k c c' n reset :
  ordered (h ++ [c; c']) → uniform win (h ++ [c; c']) → records k c = Some (at_ms c) → records k c' = Some reset →
  (mem_call c (mem_run h empty_store).2).1 = Ok (n, reset) →
  StronglySorted Z.lt (in_window (win k) (at_ms c) (requests k h ++ [at_ms c])) →
  count_of (mem_call c' (mem_run (h ++ [c]) empty_store).2).1 = Some n.
Proof.
  intros Ho Hu Hc Hc' Hans Hlt. rewrite (cons_middle c h [c']), app_assoc in Ho, Hu.
  pose proof (proj1 (ordered_snoc _ _) Ho) as [Ho1 _]. pose proof (proj1 (uniform_app _ _ _ Hu)) as Hu1.
  rewrite (memory_counts_exact win h c) in Hans by done. rewrite (memory_counts_exact win (h ++ [c]) c') by done.
  unfold expected in *. pose proof (Hu1 c) as Hw. pose proof (Hu c') as Hw'. pose proof Hc as Hrec. unfold records in Hc, Hc'.
  destruct (assertOperationInputs (key_arg c) _) as [[k1 w]|] eqn:Ha; [|done]. destruct (is_increment c); [|done].
  destruct (assertOperationInputs (key_arg c') _) as [[k2 w']|] eqn:Ha'; [|done]. destruct (is_increment c'); [|done].
  simpl in Hc, Hc'. case_bool_decide; [|done]. case_bool_decide; [|done]. simplify_eq.
  rewrite (Hw k w) in * by (done || (apply elem_of_app; right; by left)).
  rewrite (Hw' k w') by (done || (apply elem_of_app; right; by left)). pose proof Ha as Hwin. clear Hw Hw' Ha Ha'.
  rewrite requests_snoc, Hrec. simpl option_list. simpl. do 3 f_equal. apply oldest_leaves; [lia| |done].
  apply assert_window in Hwin. unfold MIN_RATE_LIMIT_WINDOW_MS in Hwin. lia.
Qed.

(** ** Where the code departs from its comments *)

(** Sanitising maps distinct keys to one Redis key. *)
Lemma sanitised_keys_collide :
  buildKey "v1:ip:10.0.0.1:a" = buildKey "v1:ip:10.0.0.1_a" ∧
  buildKey (unchars (replicate 256 "a"%char)) = buildKey (unchars (replicate 300 "a"%char)).
Proof. split; vm_compute; reflexivity. Qed.

(** A request exactly one window old is still counted by [getCount] of the Redis store,
    and by neither store's [increment]. *)
Definition request_at (now : Z) (inc : bool) : call :=
  {| at_ms := now; is_increment := inc; key_arg := JStr "k"; window_arg := JNum (NumInt 1000) |}.
Definition sent_at (now server : Z) (hex : string) (f : exec_fault) (inc : bool) : redis_call :=
  {| rc_call := request_at now inc; rc_server := server; rc_hex := hex; rc_fault := f; rc_closed := false |}.
Definition no_sets : gmap string zset := ∅.

Lemma counts_differ_at_the_boundary :
  count_of <$> (redis_run [sent_at 0 0 "a" NoFault true; sent_at 500 500 "b" NoFault true;
    sent_at 1000 1000 "" NoFault false; sent_at 1000 1000 "c" NoFault true] no_sets).1 = [Some 1; Some 2; Some 2; Some 2] ∧
  count_of <$> (mem_run [request_at 0 true; request_at 500 true; request_at 1000 false; request_at 1000 true] empty_store).1
    = [Some 1; Some 2; Some 1; Some 2].
Proof. split; vm_compute; reflexivity. Qed.

(** ** Witnesses *)

Definition sample_history : list redis_call :=
  [sent_at 5000 5003 "a1" NoFault true; sent_at 5001 5004 "b2" (ReplyLost "connection reset") true;
   sent_at 5002 5004 "c3" NoFault true; sent_at 5002 5006 "d4" (CommandFails 3 "OOM") true].
Definition quiet_history : list redis_call :=
  [sent_at 5000 5000 "a1" NoFault true; sent_at 5400 5400 "b2" NoFault true; sent_at 6100 6100 "c3" NoFault true].

Lemma sample_uniform h : (∀ c, c ∈ h → ∃ now server hex f inc, c = sent_at now server hex f inc) → uniform_keys (λ _, 1000) h.
Proof.
  intros Hh c k w Hc. destruct (Hh c Hc) as (now & server & hex & f & inc & ->). vm_compute. by intros [= _ <-].
Qed.

Lemma no_sets_empty rk : zkey no_sets rk = (∅, None).
Proof. done. Qed.

Lemma redis_limit_holds_witness :
  Z.of_nat (length (admitted 2 4500 (4500 + (1000 - 5))
    (trace (λ c, snd <$> sends (buildKey "k") c) sample_history (redis_run sample_history no_sets).1))) <= 2.
Proof.
  apply (redis_limit_holds 5 2 (λ _, 1000) (buildKey "k") sample_history no_sets 4500); [lia|lia| | | |].
  - split; [repeat constructor; simpl; lia|]. intros c Hc. repeat (apply elem_of_cons in Hc as [->|Hc]; [simpl; lia|]).
    by apply not_elem_of_nil in Hc.
  - apply sample_uniform. intros c Hc. repeat (apply elem_of_cons in Hc as [->|Hc]; [by do 5 eexists|]). by apply not_elem_of_nil in Hc.
  - unfold distinct_members. apply (bool_decide_unpack _). vm_compute. reflexivity.
  - apply no_sets_empty.
Defined.


Lemma hybrid_always_answers_witness :
  Forall (λ x : string * call * (gmap string zset → answer * gmap string zset),
    is_ok (assertOperationInputs (key_arg x.1.2) (window_arg x.1.2)) = true)
    [("increment", request_at 0 true, λ r, redis_increment 0 0 "a" (Rejected "connection lost") false (JStr "k") (JNum (NumInt 1000)) r)] ∧
  degrades {| primary := no_sets; fallback := empty_store; usingFallback := false; reported := [] |}
    {| primary := no_sets; fallback := (mem_call (request_at 0 true) empty_store).2; usingFallback := true;
       reported := [(OtherError "connection lost", "increment")] |}.
Proof.
  split; [by repeat constructor|].
  refine (proj2 (hybrid_always_answers
    [("increment", request_at 0 true, λ r, redis_increment 0 0 "a" (Rejected "connection lost") false (JStr "k") (JNum (NumInt 1000)) r)]
    _ [Done (Ok (1, 1000))] _ _ _)); [by repeat constructor|].
  eapply rtc_l; [eapply (eff_step_at hybrid_step 0); [reflexivity|reflexivity]|].
  eapply rtc_l; [eapply (eff_step_at hybrid_step 0); [reflexivity|reflexivity]|]. apply rtc_refl.
Defined.
