(* ===== verification/ClientIp.v ===== *)
(** * The client's address ([src/lib/ipExtraction.ts])

    Which address a request is attributed to, by the rate limiter, the lockout, the
    connection limiter and the audit log: the peer of the socket, or an entry of
    [X-Forwarded-For] that a trusted proxy has added.  The environment is a function
    from names to values, what [Number(s)] says of a string is an argument. *)
From Stdlib Require Import Ascii ZArith Lia.
From stdpp Require Import base gmap strings list.
From S2P Require Import Prelude SsrfGuard.
Local Open Scope string_scope.
Local Open Scope list_scope.
Local Open Scope Z_scope.

Notation env := (string → option string).

Inductive proxies_option : Type := ProxySet (l : list string) | ProxyArray (l : list string).
Record ClientIpOptions : Type := {
  o_trustedProxies : option proxies_option; o_trustedProxyCount : option Z; o_trustProxy : option bool;
}.

(** [app.get('trust proxy')]; [ExpUnset] where there is no app or no such setting. *)
Inductive express_setting : Type := ExpUnset | ExpBool (b : bool) | ExpNum (n : Z) | ExpStr (s : string) | ExpArr (l : list string).
Inductive header : Type := NoHeader | One (value : string) | Many (values : list string).
Record request : Type := {
  socket_address : option string; req_ip : option string; express : express_setting; forwarded_for : header;
}.

(** [a || b] for strings that may be missing. *)
Definition or_string (a : option string) (b : string) : string :=
  match a with Some s => if str_empty s then b else s | None => b end.

Definition normalizeIp (ip : string) : string :=
  let trimmed := js_trim ip in
  if starts_with (chars "::ffff:") (chars trimmed) then unchars (drop 7 (chars trimmed)) else trimmed.

(** [raw.split(',').map(trim)] without the empty parts. *)
Definition comma_parts (raw : string) : list string :=
  filter (λ s, str_empty s = false) ((λ w, js_trim (unchars w)) <$> split_char ","%char (chars raw)).

Definition parseTrustedProxies (raw : string) : list string :=
  if str_empty raw then [] else comma_parts raw ≫= λ trimmed, [trimmed; normalizeIp trimmed].

Definition isTrustedProxy (ip : string) (trustedProxies : list string) : bool :=
  if bool_decide (trustedProxies = []) then false
  else bool_decide (ip ∈ trustedProxies) || bool_decide (normalizeIp ip ∈ trustedProxies).

Definition commas (l : list string) : string := unchars (join ","%char (chars <$> l)).

Section extraction.
Context (is_numeric : string → bool) (e : env).

Definition express_truthy (x : express_setting) : bool :=
  match x with
  | ExpUnset => false | ExpBool b => b | ExpNum n => negb (n =? 0) | ExpStr s => negb (str_empty s) | ExpArr _ => true
  end.

Definition remote_address (req : request) : string := or_string (socket_address req) (or_string (req_ip req) "unknown").

(** The master toggle and Express's own setting. *)
Definition trust_proxy (req : request) (options : option ClientIpOptions) : bool :=
  let given := o ← options; o_trustProxy o in
  let trustProxy := default (bool_decide (e "RATE_LIMIT_TRUST_PROXY" ≠ Some "false")) given in
  match express req, given with ExpBool false, None => false | _, _ => trustProxy end.

Definition trusted_proxies (req : request) (options : option ClientIpOptions) : list string :=
  match (o ← options; o_trustedProxies o) with
  | Some (ProxySet l) => l
  | Some (ProxyArray l) => parseTrustedProxies (commas l)
  | None =>
      let envProxies := or_string (e "TRUSTED_PROXIES") (or_string (e "WS_TRUSTED_PROXIES")
        (or_string (e "RATE_LIMIT_TRUSTED_PROXIES") "")) in
      let trustedProxies := parseTrustedProxies envProxies in
      if bool_decide (trustedProxies = []) && express_truthy (express req) then
        match express req with
        | ExpArr l => parseTrustedProxies (commas l)
        | ExpStr s => if is_numeric s then trustedProxies else parseTrustedProxies s
        | _ => trustedProxies
        end
      else trustedProxies
  end.

(** [None] is [NaN], which only a numeric setting of Express can leave. *)
Definition trusted_count (req : request) (options : option ClientIpOptions) (trustedProxies : list string) : option Z :=
  let raw := match (o ← options; o_trustedProxyCount o) with
    | Some n => Some n
    | None => parse_int10 (chars (or_string (e "TRUSTED_PROXY_COUNT") (or_string (e "TRUST_PROXY_HOPS")
                (or_string (e "RATE_LIMIT_TRUSTED_PROXY_COUNT") "0"))))
    end in
  let count := match raw with Some n => if n <? 0 then 0 else n | None => 0 end in
  if (count =? 0) && express_truthy (express req) && bool_decide (trustedProxies = []) then
    match express req with
    | ExpNum n => Some n
    | ExpBool true => Some 1
    | ExpStr s => if is_numeric s then parse_int10 (chars s) else Some count
    | _ => Some count
    end
  else Some count.

(** From right to left, the first entry that is not a trusted proxy. *)
Definition first_untrusted (trustedProxies ips : list string) : option string :=
  head (filter (λ ip, isTrustedProxy ip trustedProxies = false) (reverse ips)).

Definition select_ip (remoteAddress : string) (count : option Z) (trustedProxies ips : list string) : string :=
  let positive := match count with Some n => 0 <? n | None => false end in
  match ips with
  | [] => remoteAddress
  | first :: _ =>
      if positive then
        if bool_decide (trustedProxies ≠ []) && negb (isTrustedProxy remoteAddress trustedProxies) then remoteAddress
        else
          let targetIndex := Z.of_nat (length ips) - default 0 count in
          if 0 <=? targetIndex then default first (ips !! Z.to_nat targetIndex) else first
      else if bool_decide (trustedProxies ≠ []) then
        if negb (isTrustedProxy remoteAddress trustedProxies) then remoteAddress
        else default first (first_untrusted trustedProxies ips)
      else remoteAddress
  end.

Definition getClientIp (req : request) (options : option ClientIpOptions) : string :=
  let remoteAddress := remote_address req in
  if bool_decide (remoteAddress = "unknown") then "unknown"
  else if negb (trust_proxy req options) then remoteAddress
  else
    let select (raw : string) :=
      let trustedProxies := trusted_proxies req options in
      let count := trusted_count req options trustedProxies in
      if match count with Some n => n <=? 0 | None => false end && bool_decide (trustedProxies = []) then remoteAddress
      else select_ip remoteAddress count trustedProxies (comma_parts raw) in
    match forwarded_for req with
    | NoHeader => remoteAddress
    | One value => if str_empty value then remoteAddress else select value
    | Many values => select (commas values)
    end.
End extraction.

(** ** Entries of the header *)
Lemma split_char_some sep l : split_char sep l ≠ [].
Proof. destruct l as [|c l]; [done|]. simpl. case_bool_decide; [done|]. by destruct (split_char sep l). Qed.

Lemma split_char_cat sep a b :
  split_char sep (a ++ sep :: b) = split_char sep a ++ split_char sep b.
Proof.
  induction a as [|c a IH]; simpl; [by rewrite bool_decide_true by done|].
  case_bool_decide; [by rewrite IH|]. rewrite IH. pose proof (split_char_some sep a). by destruct (split_char sep a) as [|w ws].
Qed.

(** What a proxy appends comes after what it received. *)
Lemma comma_parts_append a b : comma_parts (a +:+ "," +:+ b) = comma_parts a ++ comma_parts b.
Proof.
  unfold comma_parts. assert (chars (a +:+ "," +:+ b) = chars a ++ ","%char :: chars b) as ->.
  { induction a as [|c a IH]; [done|]. simpl. f_equal. exact IH. }
  by rewrite split_char_cat, fmap_app, list.filter_app.
Qed.

Lemma first_untrusted_last tp spoofed client hops :
  isTrustedProxy client tp = false → Forall (λ ip, isTrustedProxy ip tp = true) hops →
  first_untrusted tp (spoofed ++ client :: hops) = Some client.
Proof.
  intros Hc Hh. unfold first_untrusted. rewrite reverse_app, reverse_cons, !list.filter_app.
  assert (filter (λ ip, isTrustedProxy ip tp = false) (reverse hops) = []) as ->.
  { apply list.Forall_reverse in Hh. clear -Hh. induction Hh as [|ip l Hip Hl IH]; [done|].
    rewrite filter_cons_False; [done|]. congruence. }
  by rewrite filter_cons_True.
Qed.

Lemma select_by_count remote n tp spoofed client hops :
  tp = [] ∨ isTrustedProxy remote tp = true → n = Z.of_nat (S (length hops)) →
  select_ip remote (Some n) tp (spoofed ++ client :: hops) = client.
Proof.
  intros Ht ->. unfold select_ip. destruct (spoofed ++ client :: hops) as [|first rest] eqn:Hips.
  { by destruct spoofed. }
  rewrite <-Hips. rewrite (proj2 (Z.ltb_lt 0 (Z.of_nat (S (length hops))))) by lia.
  replace (bool_decide (tp ≠ []) && negb (isTrustedProxy remote tp)) with false.
  2:{ destruct Ht as [->| ->]; [done|]. by rewrite andb_false_r. }
  cbn [from_option id]. rewrite length_app. cbn [length].
  replace (Z.of_nat (length spoofed + S (length hops)) - Z.of_nat (S (length hops))) with (Z.of_nat (length spoofed)) by lia.
  rewrite (proj2 (Z.leb_le 0 (Z.of_nat (length spoofed)))) by lia. rewrite Nat2Z.id. by rewrite list_lookup_middle.
Qed.

Lemma select_by_list remote count tp spoofed client hops :
  match count with Some n => n <= 0 | None => True end → isTrustedProxy remote tp = true →
  isTrustedProxy client tp = false → Forall (λ ip, isTrustedProxy ip tp = true) hops →
  select_ip remote count tp (spoofed ++ client :: hops) = client.
Proof.
  intros Hn Hr Hc Hh. unfold select_ip. destruct (spoofed ++ client :: hops) as [|first rest] eqn:Hips.
  { by destruct spoofed. }
  rewrite <-Hips, first_untrusted_last by done. rewrite Hr.
  replace (match count with Some n => 0 <? n | None => false end) with false.
  2:{ destruct count as [n|]; [|done]. symmetry. by apply Z.ltb_ge. }
  rewrite bool_decide_true; [done|]. intros ->. done.
Qed.

(** The address a request is attributed to cannot be forged: whatever entries the
    client puts before its own, the address the outermost trusted proxy saw is
    returned, when the hops are counted or when the proxies are listed. *)
Theorem client_ip_not_forged is_numeric e req options value spoofed client hops :
  forwarded_for req = One value → comma_parts value = spoofed ++ client :: hops →
  remote_address req ≠ "unknown" → trust_proxy e req options = true →
  let tp := trusted_proxies is_numeric e req options in
  let count := trusted_count is_numeric e req options tp in
  (count = Some (Z.of_nat (S (length hops))) ∧ (tp = [] ∨ isTrustedProxy (remote_address req) tp = true)) ∨
  (match count with Some n => n <= 0 | None => True end ∧ isTrustedProxy (remote_address req) tp = true ∧
   isTrustedProxy client tp = false ∧ Forall (λ ip, isTrustedProxy ip tp = true) hops) →
  getClientIp is_numeric e req options = client.
Proof.
  intros Hf Hp Hr Ht tp count Hcase. unfold getClientIp. rewrite bool_decide_false, Ht, Hf by done. cbn [negb].
  assert (str_empty value = false) as ->.
  { destruct value; [|done]. by destruct spoofed. }
  fold tp. fold count. rewrite Hp. destruct Hcase as [[-> Htp]|(Hn & Htr & Hc & Hh)].
  - rewrite (proj2 (Z.leb_gt (Z.of_nat (S (length hops))) 0)) by lia. by apply select_by_count.
  - rewrite (bool_decide_false (tp = [])) by (intros He; rewrite He in Htr; done). rewrite andb_false_r. by apply select_by_list.
Qed.

(** Without configured proxies, or from a peer that is not one of them, the header is ignored. *)
Lemma unconfigured_ignores_header is_numeric e req options :
  let tp := trusted_proxies is_numeric e req options in
  let count := trusted_count is_numeric e req options tp in
  (match count with Some n => n <= 0 | None => False end ∧ tp = []) ∨ (tp ≠ [] ∧ isTrustedProxy (remote_address req) tp = false) →
  getClientIp is_numeric e req options = remote_address req.
Proof.
  intros tp count Hcase. unfold getClientIp. case_bool_decide as Hu; [done|]. destruct (trust_proxy e req options); [|done].
  cbn [negb]. fold tp. fold count.
  assert (∀ raw, (if match count with Some n => n <=? 0 | None => false end && bool_decide (tp = []) then remote_address req
    else select_ip (remote_address req) count tp (comma_parts raw)) = remote_address req) as Hsel.
  { intros raw. destruct Hcase as [[Hn ->]|[Hne Hr]].
    - destruct count as [n|]; [|done]. by rewrite (proj2 (Z.leb_le n 0)).
    - rewrite (bool_decide_false (tp = [])), andb_false_r by done. unfold select_ip. destruct (comma_parts raw); [done|].
      rewrite Hr, (bool_decide_true (tp ≠ [])) by done. by destruct (match count with Some n => 0 <? n | None => false end). }
  destruct (forwarded_for req) as [|value|values]; [done| |by rewrite Hsel]. by destruct (str_empty value).
Qed.

(** With fewer entries than hops the first one is taken, which the client wrote. *)
Lemma short_header_is_believed is_numeric :
  let e := λ n, if decide (n = "TRUSTED_PROXY_COUNT") then Some "2" else None in
  getClientIp is_numeric e
    {| socket_address := Some "203.0.113.9"; req_ip := None; express := ExpUnset; forwarded_for := One "10.0.0.1" |} None = "10.0.0.1".
Proof. vm_compute. reflexivity. Qed.

Lemma client_ip_not_forged_witness :
  let e := λ n, if decide (n = "TRUSTED_PROXIES") then Some "10.0.0.1, 10.0.0.2" else None in
  getClientIp (λ _, false) e
    {| socket_address := Some "::ffff:10.0.0.1"; req_ip := None; express := ExpUnset;
       forwarded_for := One "1.1.1.1, 127.0.0.1,198.51.100.7 , 10.0.0.2" |} None = "198.51.100.7".
Proof.
  intros e. apply (client_ip_not_forged (λ _, false) e _ None "1.1.1.1, 127.0.0.1,198.51.100.7 , 10.0.0.2"
    ["1.1.1.1"; "127.0.0.1"] "198.51.100.7" ["10.0.0.2"]); [reflexivity|vm_compute; reflexivity|discriminate|reflexivity|].
  right. split; [vm_compute; discriminate|]. split; [vm_compute; reflexivity|]. split; [vm_compute; reflexivity|].
  constructor; [vm_compute; reflexivity|constructor].
Defined.
