(* ===== verification/RateLimiter.v ===== *)
(** * The request rate limiter ([src/middleware/rateLimiter.ts], [src/config/rateLimits.ts])

    The configuration and its validation at startup, the budgets of the routes, the
    canonical keys, and the middleware as a program over the store, the clock and the
    override service.  SHA-256 and [isIP] are arguments; which store answers is the
    step relation a theorem chooses. *)
From Stdlib Require Import Ascii ZArith Lia.
From stdpp Require Import base gmap strings list relations.
From S2P Require Import Prelude Effects SsrfGuard RateLimitStore.
Local Open Scope string_scope.
Local Open Scope list_scope.
Local Open Scope Z_scope.

Notation env := (string → option string).

(** ** Configuration *)

Record RateLimitConfig : Type := { windowMs : Z; max : Z; enabled : bool }.
Record RouteRateLimitConfig : Type := { baseLimit : Z; writeLimit : Z; exempt : bool }.
Record RateLimits : Type := {
  ip : RateLimitConfig; apiKey : RateLimitConfig; admin : RateLimitConfig; trustProxy : bool;
  trustedProxyCount : Z; trustedProxies : list string; allowlistIps : list string;
}.
Record RuntimeRateLimitConfig : Type := { rt_ip : RateLimitConfig; rt_apiKey : RateLimitConfig; rt_admin : RateLimitConfig }.

Definition DEFAULT_IP_CONFIG : RateLimitConfig := {| windowMs := 60000; max := 100; enabled := true |}.
Definition DEFAULT_APIKEY_CONFIG : RateLimitConfig := {| windowMs := 60000; max := 500; enabled := true |}.
Definition DEFAULT_ADMIN_CONFIG : RateLimitConfig := {| windowMs := 60000; max := 2000; enabled := true |}.

Definition budget (path : string) (b w : Z) (e : bool) : string * RouteRateLimitConfig :=
  (path, {| baseLimit := b; writeLimit := w; exempt := e |}).
Definition ROUTE_BUDGETS : list (string * RouteRateLimitConfig) := [
  budget "/api/streams" 100 20 false;
  budget "/api/auth" 50 10 false;
  budget "/api/streams/:id" 30 5 false;
  budget "/api/privacy/consent" 10 10 false;
  budget "/api/privacy/erasure/:recipientAddress" 5 5 false;
  budget "/api/admin" 50 10 false;
  budget "/internal/indexer" 1000 100 false;
  budget "/metrics" 0 0 true;
  budget "/health" 0 0 true].

(** [parseInt(v ?? '', 10) || d]: [NaN] and zero give [d]. *)
Definition int_or (v : option string) (d : Z) : Z :=
  match parse_int10 (chars (default "" v)) with Some n => if n =? 0 then d else n | None => d end.

(** [a ?? b] *)
Definition coalesce {A} (a b : option A) : option A := match a with Some _ => a | None => b end.

Definition comma_set (raw : string) : list string :=
  filter (λ s, str_empty s = false) ((λ w, js_trim (unchars w)) <$> split_char ","%char (chars raw)).

Section config.
Context (e : env).

(** One tier: the runtime snapshot if there is one, else the environment. *)
Definition tier_config (runtime : option RateLimitConfig) (window_var max_var : string) (d : RateLimitConfig) : RateLimitConfig :=
  let enabled' := bool_decide (e "RATE_LIMIT_ENABLED" ≠ Some "false") in
  match runtime with
  | Some c => {| windowMs := windowMs c; max := max c; enabled := enabled c && enabled' |}
  | None => {| windowMs := int_or (e window_var) (windowMs d); max := int_or (e max_var) (max d); enabled := enabled' |}
  end.

Definition getRateLimitConfig (runtime : option RuntimeRateLimitConfig) : RateLimits := {|
  ip := tier_config (rt_ip <$> runtime) "RATE_LIMIT_IP_WINDOW_MS" "RATE_LIMIT_IP_MAX" DEFAULT_IP_CONFIG;
  apiKey := tier_config (rt_apiKey <$> runtime) "RATE_LIMIT_APIKEY_WINDOW_MS" "RATE_LIMIT_APIKEY_MAX" DEFAULT_APIKEY_CONFIG;
  admin := tier_config (rt_admin <$> runtime) "RATE_LIMIT_ADMIN_WINDOW_MS" "RATE_LIMIT_ADMIN_MAX" DEFAULT_ADMIN_CONFIG;
  trustProxy := bool_decide (e "RATE_LIMIT_TRUST_PROXY" ≠ Some "false");
  trustedProxyCount := int_or (coalesce (e "TRUSTED_PROXY_COUNT") (coalesce (e "TRUST_PROXY_HOPS") (e "RATE_LIMIT_TRUSTED_PROXY_COUNT"))) 0;
  trustedProxies := comma_set (default "" (coalesce (e "TRUSTED_PROXIES") (coalesce (e "WS_TRUSTED_PROXIES") (e "RATE_LIMIT_TRUSTED_PROXIES"))));
  allowlistIps := comma_set (default "" (e "RATE_LIMIT_ALLOWLIST_IPS")) |}.

Definition getOverrideCeiling (runtime : option RuntimeRateLimitConfig) : Z * Z :=
  (max (apiKey (getRateLimitConfig runtime)), MAX_WINDOW_MS).

(** A patch names the fields it changes. *)
Record tier_patch : Type := { p_windowMs : option Z; p_max : option Z; p_enabled : option bool }.
Definition spread (base : RateLimitConfig) (patch : option tier_patch) : RateLimitConfig :=
  match patch with
  | Some p => {| windowMs := default (windowMs base) (p_windowMs p); max := default (max base) (p_max p);
                 enabled := default (enabled base) (p_enabled p) |}
  | None => base
  end.
Definition setRuntimeRateLimitConfig (patch_ip patch_apiKey patch_admin : option tier_patch)
    (runtime : option RuntimeRateLimitConfig) : RuntimeRateLimitConfig :=
  let base := default {| rt_ip := DEFAULT_IP_CONFIG; rt_apiKey := DEFAULT_APIKEY_CONFIG; rt_admin := DEFAULT_ADMIN_CONFIG |} runtime in
  {| rt_ip := spread (rt_ip base) patch_ip; rt_apiKey := spread (rt_apiKey base) patch_apiKey;
     rt_admin := spread (rt_admin base) patch_admin |}.

Definition getWebhookRateLimitConfig : Z * Z * Z :=
  (int_or (e "WEBHOOK_RETRY_RPS") 10, 1000, int_or (e "WEBHOOK_RETRY_BURST") 0).

(** *** Validation at startup *)

Inductive config_issue : Type :=
| NotInteger (name raw : string) | BelowMin (name : string) (least : Z) (raw : string) | AboveMax (name : string) (most : Z) (raw : string).

Definition RATE_LIMIT_INTEGER_ENVS : list (string * (Z * option Z)) := [
  ("RATE_LIMIT_IP_WINDOW_MS", (1, Some MAX_WINDOW_MS)); ("RATE_LIMIT_IP_MAX", (1, None));
  ("RATE_LIMIT_APIKEY_WINDOW_MS", (1, Some MAX_WINDOW_MS)); ("RATE_LIMIT_APIKEY_MAX", (1, None));
  ("RATE_LIMIT_ADMIN_WINDOW_MS", (1, Some MAX_WINDOW_MS)); ("RATE_LIMIT_ADMIN_MAX", (1, None));
  ("WEBHOOK_RETRY_RPS", (1, None)); ("WEBHOOK_RETRY_BURST", (0, None))].

(** [/^-?\d+$/] *)
Definition integer_text (l : text) : bool :=
  let l := match l with c :: r => if bool_decide (c = "-"%char) then r else l | [] => [] end in
  forallb is_digit l && bool_decide (l ≠ []).

Definition check_integer (name : string) (range : Z * option Z) : list config_issue :=
  match e name with
  | None => []
  | Some raw =>
      if str_empty (js_trim raw) then []
      else if negb (integer_text (chars (js_trim raw))) then [NotInteger name raw]
      else
        let value := default 0 (parse_int10 (chars raw)) in
        if value <? range.1 then [BelowMin name range.1 raw]
        else match range.2 with
             | Some most => if value >? most then [AboveMax name most raw] else []
             | None => []
             end
  end.

Definition validateRateLimitsConfig : list config_issue :=
  RATE_LIMIT_INTEGER_ENVS ≫= λ r, check_integer r.1 r.2.
End config.

(** *** Route budgets *)

Definition parts_match (patternParts pathParts : list text) : bool :=
  (length patternParts =? length pathParts)%nat &&
  forallb (λ p, starts_with (chars ":") p.1 || bool_decide (p.1 = p.2)) (zip patternParts pathParts).

Definition getRouteRateLimitConfig (path : string) : option RouteRateLimitConfig :=
  match list_find (λ b, b.1 = path) ROUTE_BUDGETS with
  | Some (_, b) => Some b.2
  | None =>
      match list_find (λ b, ":"%char ∈ chars b.1 ∧
          parts_match (split_char "/"%char (chars b.1)) (split_char "/"%char (chars path)) = true) ROUTE_BUDGETS with
      | Some (_, b) => Some b.2
      | None => None
      end
  end.

(** ** Keys *)

Section keys.
Context (isIP : text → Z) (sha256Hex : string → string).

(** [/^::ffff:(\d{1,3}(?:\.\d{1,3}){3})$/] *)
Definition v4_mapped (lower : text) : option text :=
  if starts_with (chars "::ffff:") lower then
    let parts := split_char "."%char (drop 7 lower) in
    if (length parts =? 4)%nat && forallb (λ p, forallb is_digit p && (1 <=? length p)%nat && (length p <=? 3)%nat) parts
    then Some (drop 7 lower) else None
  else None.

Definition nonempty_parts (s : text) : list text := filter (λ p, p ≠ []) (split_char ":"%char s).

Definition canonicalIpv6 (address : text) : text :=
  let lower := to_lower address in
  match v4_mapped lower with
  | Some v4 => v4
  | None =>
      let '(head, tail) := match split_colons lower with h :: t :: _ => (h, t) | [h] => (h, []) | [] => ([], []) end in
      let headParts := nonempty_parts head in
      let tailParts := nonempty_parts tail in
      let missing := 8 - Z.of_nat (length headParts) - Z.of_nat (length tailParts) in
      let parts := headParts ++ replicate (Z.to_nat (Z.max missing 0)) ["0"%char] ++ tailParts in
      join ":"%char (pad_start 4 "0"%char <$> parts)
  end.

Definition normaliseIp (address : string) : string :=
  let trimmed := js_trim address in
  if str_empty trimmed then "unknown"
  else if isIP (chars trimmed) =? 4 then trimmed
  else if isIP (chars trimmed) =? 6 then unchars (canonicalIpv6 (chars trimmed))
  else trimmed.

Definition AGGREGATE_ROUTE : string := "global".
Definition MAX_ROUTE_SEGMENT_LENGTH : nat := 96.

Definition is_alnum (c : ascii) : bool :=
  let n := nat_of_ascii c in
  ((48 <=? n)%nat && (n <=? 57)%nat) || ((65 <=? n)%nat && (n <=? 90)%nat) || ((97 <=? n)%nat && (n <=? 122)%nat).

Definition encode_char (c : ascii) : text :=
  if is_alnum c then [c] else "_"%char :: pad_start 2 "0"%char (hex_text (Z.of_nat (nat_of_ascii c))).

Fixpoint drop_slashes (l : text) : text :=
  match l with c :: r => if bool_decide (c = "/"%char) then drop_slashes r else l | [] => [] end.
(** [path.replace(/^\/+|\/+$/g, '')] *)
Definition strip_slashes (path : text) : text := reverse (drop_slashes (reverse (drop_slashes path))).

Definition routeKeyFromPath (path : option string) : string :=
  match path with
  | None => AGGREGATE_ROUTE
  | Some p =>
      let cleaned := strip_slashes (chars p) in
      if bool_decide (cleaned = []) then AGGREGATE_ROUTE
      else
        let encoded := cleaned ≫= encode_char in
        if (length encoded <=? MAX_ROUTE_SEGMENT_LENGTH)%nat then unchars encoded
        else "h_" +:+ sha256Hex (unchars cleaned)
  end.

Inductive principal : Type := PIp | PApiKey | PAdmin.
Definition principal_name (p : principal) : string := match p with PIp => "ip" | PApiKey => "apikey" | PAdmin => "admin" end.

Definition buildStoreKey (principalType : principal) (identifier routeKey : string) : string :=
  let principalKey := match principalType with PIp => normaliseIp identifier | _ => sha256Hex identifier end in
  "v1:" +:+ principal_name principalType +:+ ":" +:+ principalKey +:+ ":" +:+ routeKey.

Inductive identifier_type : Type := IdIp | IdApiKey.
Definition principalTypeFor (t : identifier_type) (isAdmin : bool) : principal :=
  match t with IdIp => PIp | IdApiKey => if isAdmin then PAdmin else PApiKey end.

(** ** Limits *)

Definition resolveEffectiveLimit (base : RateLimitConfig) (route : option RouteRateLimitConfig) (method : string) : Z * bool :=
  match route with
  | None => (max base, false)
  | Some r =>
      if exempt r then (max base, true)
      else
        let effectiveLimit := if 0 <? baseLimit r then baseLimit r else max base in
        let isWriteMethod := bool_decide (method ∈ ["POST"; "PUT"; "PATCH"; "DELETE"]) in
        (if isWriteMethod && (0 <? writeLimit r) then writeLimit r else effectiveLimit, false)
  end.

Definition getRemainingRequests (count most : Z) : Z := Z.max 0 (most - count).
Definition ceil_seconds (ms : Z) : Z := (ms + 999) / 1000.
Definition secondsUntil (resetAt now : Z) : Z := Z.max 0 (ceil_seconds (resetAt - now)).

Definition maskApiKey (key : string) : string :=
  let l := chars key in
  let n := if (length l <=? 8)%nat then 2%nat else 4%nat in
  unchars (take n l) +:+ "..." +:+ unchars (drop (length l - n) l).

(** ** The middleware *)

Record http_request : Type := {
  path : string; method : string; x_api_key : option string; client_ip : string; keyId : option string;
}.
Definition extractClientIdentifier (req : http_request) : string * identifier_type :=
  match x_api_key req with
  | Some k => if str_empty k then (client_ip req, IdIp) else (k, IdApiKey)
  | None => (client_ip req, IdIp)
  end.

Record headers : Type := { h_store : string; h_limit : Z; h_remaining : Z; h_reset : Z }.
Record error_body : Type := {
  b_retryAfter : Z; b_limit : Z; b_window : string; b_identifier : string; b_route : option string; b_method : option string;
}.
Inductive outcome : Type :=
| Next (h : option headers)
| TooManyRequests (h : headers) (retryAfter : Z) (body : error_body).

(** What the middleware awaits or reads outside itself. *)
Inductive limiter_cmd : Type → Type :=
| GetOverride (keyId : string) : limiter_cmd (result string (option (Z * Z)))
| Increment (key : string) (windowMs limit : Z) : limiter_cmd answer
| GetCount (key : string) (windowMs : Z) : limiter_cmd answer
| UsingFallback : limiter_cmd bool
| Now : limiter_cmd Z.

Definition buildErrorBody (identifier : string) (t : identifier_type) (limit w retryAfter : Z) (route method : string) : error_body := {|
  b_retryAfter := retryAfter; b_limit := limit; b_window := if w =? 60000 then "minute" else "unknown";
  b_identifier := match t with IdIp => identifier | IdApiKey => maskApiKey identifier end;
  b_route := if str_empty route then None else Some route; b_method := if str_empty method then None else Some method |}.

Definition EXEMPT_PATHS : list string := ["/"; "/health"; "/api/rate-limits"].

Section middleware.
Context (adminKeys allowlist : list string).

Definition isAdmin (identifier : string) (t : identifier_type) : bool :=
  match t with IdIp => false | IdApiKey => bool_decide (identifier ∈ adminKeys) end.

Definition base_config (cfg : RateLimits) (identifier : string) (t : identifier_type) : RateLimitConfig :=
  if isAdmin identifier t then admin cfg else match t with IdApiKey => apiKey cfg | IdIp => ip cfg end.

(** The per-tenant override replaces maximum and window; a failed lookup keeps the tier. *)
Definition resolve_override (config : RateLimitConfig) (key : option string) (identifier : string) (t : identifier_type)
    : eff limiter_cmd RateLimitConfig :=
  match key, t with
  | Some k, IdApiKey =>
      if isAdmin identifier t || str_empty k then Done config
      else
        r ← ask (GetOverride k);
        Done (match r with
              | Ok (Some (maxRequests, w)) => {| windowMs := w; max := maxRequests; enabled := enabled config |}
              | Ok None | Err _ => config
              end)
  | _, _ => Done config
  end.

(** From the answer of the store to the response. *)
Definition respond (req : http_request) (identifier : string) (t : identifier_type) (config : RateLimitConfig)
    (effectiveLimit count resetAt : Z) (backend : string) : eff limiter_cmd outcome :=
  let reset := ceil_seconds resetAt in
  if count >? effectiveLimit then
    now ← ask Now;
    let retryAfter := secondsUntil resetAt now in
    Done (TooManyRequests {| h_store := backend; h_limit := effectiveLimit; h_remaining := 0; h_reset := reset |} retryAfter
            (buildErrorBody identifier t effectiveLimit (windowMs config) retryAfter (path req) (method req)))
  else Done (Next (Some {| h_store := backend; h_limit := effectiveLimit;
                           h_remaining := getRemainingRequests count effectiveLimit; h_reset := reset |})).

(** The middleware once the configuration of the caller is known. *)
Definition limit_request (req : http_request) (identifier : string) (t : identifier_type) (config : RateLimitConfig)
    : eff limiter_cmd outcome :=
  let '(effectiveLimit, isExempt) := resolveEffectiveLimit config (getRouteRateLimitConfig (path req)) (method req) in
  if isExempt : bool then Done (Next None)
  else
    let principalType := principalTypeFor t (isAdmin identifier t) in
    let storeKey := buildStoreKey principalType identifier (routeKeyFromPath (Some (path req))) in
    let aggregateKey := buildStoreKey principalType identifier AGGREGATE_ROUTE in
    r ← ask (Increment storeKey (windowMs config) effectiveLimit);
    match r with
    | Err _ => Done (Next None)
    | Ok (count, resetAt) =>
        degraded ← ask UsingFallback;
        _ ← ask (Increment aggregateKey (windowMs config) effectiveLimit);
        respond req identifier t config effectiveLimit count resetAt (if degraded : bool then "memory" else "redis")
    end.

Definition rateLimitHandlerAsync (cfg : RateLimits) (req : http_request) : eff limiter_cmd outcome :=
  if negb (enabled (ip cfg)) && negb (enabled (apiKey cfg)) then Done (Next None)
  else if bool_decide (path req ∈ EXEMPT_PATHS) then Done (Next None)
  else
    let '(identifier, t) := extractClientIdentifier req in
    if match t with IdIp => bool_decide (identifier ∈ allowlist) | IdApiKey => false end then Done (Next None)
    else
      let config := base_config cfg identifier t in
      if negb (enabled config) then Done (Next None)
      else config ← resolve_override config (keyId req) identifier t; limit_request req identifier t config.

Record RateLimitStatus : Type := {
  st_identifier : string; st_type : identifier_type; st_limit : Z; st_remaining : Z; st_resetsAt : Z; st_window : string;
  st_store : string; st_degraded : bool; st_route : option string; st_method : option string;
}.

Definition getStatus (cfg : RateLimits) (identifier : string) (t : identifier_type) (route method key : option string)
    : eff limiter_cmd RateLimitStatus :=
  config ← resolve_override (base_config cfg identifier t) key identifier t;
  let routeConfig := match route with Some p => if str_empty p then None else getRouteRateLimitConfig p | None => None end in
  let '(effectiveLimit, _) := resolveEffectiveLimit config routeConfig (default "GET" method) in
  let routeKey := match route with Some _ => routeKeyFromPath route | None => AGGREGATE_ROUTE end in
  let storeKey := buildStoreKey (principalTypeFor t (isAdmin identifier t)) identifier routeKey in
  now ← ask Now;
  r ← ask (GetCount storeKey (windowMs config));
  let status (count resetAt : Z) (store : string) (degraded : bool) : RateLimitStatus := {|
    st_identifier := match t with IdIp => identifier | IdApiKey => maskApiKey identifier end; st_type := t;
    st_limit := effectiveLimit; st_remaining := getRemainingRequests count effectiveLimit; st_resetsAt := resetAt;
    st_window := if windowMs config =? 60000 then "minute" else "unknown"; st_store := store; st_degraded := degraded;
    st_route := route; st_method := method |} in
  match r with
  | Err _ => Done (status 0 (now + windowMs config) "memory" true)
  | Ok (count, resetAt) =>
      degraded ← ask UsingFallback;
      Done (status count resetAt (if degraded : bool then "memory" else "redis") degraded)
  end.
End middleware.
End keys.

(** ** Addresses *)
Lemma js_trim_id s : forallb (λ c, negb (js_space c)) (chars s) = true → js_trim s = s.
Proof.
  assert (∀ l, forallb (λ c, negb (js_space c)) l = true → trim_start_text l = l) as Hid.
  { intros [|c l]; [done|]. simpl. intros [Hc _]%andb_true_iff. apply negb_true_iff in Hc. by rewrite Hc. }
  intros Hs. rewrite <-(unchars_chars (js_trim s)), <-(unchars_chars s). f_equal. unfold js_trim.
  rewrite chars_rev, chars_trim_start, chars_rev, chars_trim_start, unchars_chars.
  rewrite (Hid (chars s)) by done. rewrite Hid by by rewrite forallb_reverse. apply reverse_involutive.
Qed.

Lemma nonempty_parts_join ws : sections ws → nonempty_parts (join colon ws) = ws.
Proof.
  intros Hs. unfold nonempty_parts. destruct ws as [|g ws]; [done|].
  rewrite split_char_join; [|done|].
  - assert (Forall (λ p, p ≠ []) (g :: ws)) as Hne.
    { eapply list.Forall_impl; [exact Hs|]. by intros x (? & _)%valid_section_spec. }
    clear Hs. induction Hne as [|x l Hx Hl IH]; [done|]. by rewrite filter_cons_True, IH.
  - eapply list.Forall_impl; [exact Hs|]. intros x Hx. by apply section_no_char.
Qed.

Lemma v4_mapped_no_dot l : "."%char ∉ l → v4_mapped l = None.
Proof.
  intros Hd. unfold v4_mapped. case_match; [|done]. rewrite split_char_word; [done|].
  intros Hin. by apply Hd, (subseteq_drop 7 l).
Qed.

(** The canonical form spells the eight sections in full. *)
Lemma canonical_spelled ws l : spelled ws l → sections ws → length ws = 8%nat →
  canonicalIpv6 l = join colon (pad_start 4 "0"%char ∘ to_lower <$> ws).
Proof.
  intros Hsp Hs Hl. destruct (lower_sections ws Hs) as [Hs' _]. apply spelled_lower in Hsp.
  unfold canonicalIpv6. rewrite v4_mapped_no_dot by (by eapply spelled_no_char).
  rewrite list_fmap_compose. remember (to_lower <$> ws) as ws' eqn:Hws.
  assert (length ws' = 8%nat) as Hl' by (subst; by rewrite length_fmap). clear ws Hs Hl Hws. rename Hs' into Hs.
  destruct Hsp as [ws'|left_ n right_].
  - pose proof (split_colons_join ws' [] [] [] Hs eq_refl ltac:(auto)) as Hc.
    rewrite !app_nil_r in Hc. rewrite Hc, nonempty_parts_join by done. rewrite Hl'. simpl. by rewrite app_nil_r.
  - apply Forall_app in Hs as Hs1. destruct Hs1 as [Hsl [_ Hsr]%Forall_app].
    pose proof (split_colons_join right_ [] [] [] Hsr eq_refl ltac:(auto)) as Hr. rewrite !app_nil_r in Hr.
    assert (split_colons (colon :: colon :: join colon right_) = [] :: [join colon right_]) as Hr2.
    { change (split_colons (colon :: colon :: join colon right_)) with ([] :: split_colons (join colon right_)). by rewrite Hr. }
    rewrite (split_colons_join left_ _ _ _ Hsl Hr2) by (split; [done|by left]). rewrite app_nil_r.
    rewrite !nonempty_parts_join by done. rewrite !length_app, length_replicate in Hl'.
    replace (Z.to_nat (Z.max (8 - Z.of_nat (length left_) - Z.of_nat (length right_)) 0)) with n by lia. done.
Qed.

(** Four lower-case digits are determined by their value. *)
Definition lower_hex_digit (c : ascii) : bool := is_hex_digit c && bool_decide (lower_char c = c).

Lemma hex_digit_val_inj c d :
  lower_hex_digit c = true → lower_hex_digit d = true → hex_digit_val c = hex_digit_val d → c = d.
Proof.
  assert (∀ c, lower_hex_digit c = true → hex_digit (hex_digit_val c) = c) as Hinv.
  { clear. intros c Hc. destruct c as [[] [] [] [] [] [] [] []]; try discriminate; vm_compute; reflexivity. }
  intros Hc Hd Heq. by rewrite <-(Hinv c Hc), <-(Hinv d Hd), Heq.
Qed.

Lemma hex_digit_val_range c : is_hex_digit c = true → 0 <= hex_digit_val c < 16.
Proof. intros Hc. destruct c as [[] [] [] [] [] [] [] []]; try discriminate; vm_compute; split; congruence. Qed.

Lemma hex_val_inj g g' :
  length g = length g' → forallb lower_hex_digit g = true → forallb lower_hex_digit g' = true →
  hex_val g = hex_val g' → g = g'.
Proof.
  revert g'. induction g as [|c g IH]; intros [|d g']; try done. intros [= Hl]. cbn [forallb].
  intros [Hc Hg]%andb_true_iff [Hd Hg']%andb_true_iff. rewrite !hex_val_cons, Hl.
  assert (∀ g, forallb lower_hex_digit g = true → forallb is_hex_digit g = true) as Hweak.
  { clear. intros g. induction g as [|x g IH]; [done|]. cbn [forallb]. unfold lower_hex_digit at 1. rewrite !andb_true_iff. naive_solver. }
  pose proof (hex_val_bound g (Hweak g Hg)). pose proof (hex_val_bound g' (Hweak g' Hg')). rewrite Hl in *.
  intros Heq. assert (hex_digit_val c = hex_digit_val d ∧ hex_val g = hex_val g') as [Hv Hr].
  { pose proof (Z.pow_pos_nonneg 16 (Z.of_nat (length g'))). apply (Z.div_mod_unique (16 ^ Z.of_nat (length g'))); lia. }
  f_equal; [by apply hex_digit_val_inj|by apply IH].
Qed.

Lemma hex_val_pad n g : hex_val (replicate n "0"%char ++ g) = hex_val g.
Proof. induction n as [|n IH]; [done|]. cbn [replicate app]. rewrite hex_val_cons, IH. done. Qed.

Lemma padded_section g : valid_section g = true →
  let p := pad_start 4 "0"%char (to_lower g) in
  length p = 4%nat ∧ forallb lower_hex_digit p = true ∧ hex_val p = hex_val g ∧ colon ∉ p.
Proof.
  intros Hg p. destruct (lower_section g Hg) as [Hlg Hv]. apply valid_section_spec in Hlg as (_ & Hlen & Hhex).
  assert (forallb lower_hex_digit p = true) as Hp.
  { unfold p, pad_start. rewrite forallb_app. apply andb_true_iff. split.
    - generalize (4 - length (to_lower g))%nat. intros n. by induction n.
    - clear -Hhex. unfold to_lower in *. induction g as [|c g IH]; [done|]. cbn [fmap list_fmap forallb] in *.
      apply andb_true_iff in Hhex as [Hc Hg]. rewrite IH by done. rewrite andb_true_r. unfold lower_hex_digit.
      rewrite Hc. apply bool_decide_eq_true. by destruct c as [[] [] [] [] [] [] [] []]. }
  splits; [|done| |].
  - unfold p, pad_start. rewrite length_app, length_replicate. lia.
  - unfold p, pad_start. by rewrite hex_val_pad.
  - apply (not_in_class lower_hex_digit); [done|reflexivity].
Qed.

Lemma sections_val_inj vs us :
  length vs = length us → Forall (λ v, 0 <= v < 65536) vs → Forall (λ v, 0 <= v < 65536) us →
  sections_val vs = sections_val us → vs = us.
Proof.
  unfold sections_val. revert us. induction vs as [|v vs IH] using rev_ind; intros us Hl Hv Hu.
  { by destruct us. }
  destruct us as [|u us _] using rev_ind; [rewrite length_app in Hl; simpl in Hl; lia|].
  rewrite !length_app in Hl. simpl in Hl. rewrite !fold_left_app. simpl.
  apply list.Forall_app in Hv as [Hv Hv1]. apply list.Forall_app in Hu as [Hu Hu1].
  inversion Hv1; subst. inversion Hu1; subst. intros Heq.
  assert (fold_left (λ a v, a * 65536 + v) vs 0 = fold_left (λ a v, a * 65536 + v) us 0 ∧ v = u) as [He ->] by lia.
  f_equal. apply IH; [lia|done|done|done].
Qed.

Lemma spelled_chars ws l : spelled ws l → sections ws → forallb (λ c, negb (js_space c)) l = true.
Proof.
  intros Hsp Hs. apply forallb_forall. intros c Hc%list_elem_of_In. apply negb_true_iff, not_true_iff_false. intros Hsc.
  assert (is_hex_digit c = false ∧ c ≠ colon) as [Hh Hcol].
  { destruct c as [[] [] [] [] [] [] [] []]; try discriminate; vm_compute; split; congruence. }
  by apply (spelled_no_char ws l c).
Qed.

Lemma normalise_spelled isIP ws l :
  spelled ws l → sections ws → length ws = 8%nat → isIP l = 6 →
  normaliseIp isIP (unchars l) = unchars (join colon (pad_start 4 "0"%char ∘ to_lower <$> ws)).
Proof.
  intros Hsp Hs Hl H6. unfold normaliseIp.
  rewrite js_trim_id by (rewrite chars_unchars; by eapply spelled_chars). rewrite chars_unchars, H6. simpl.
  rewrite str_empty_chars, chars_unchars, bool_decide_false; [by erewrite canonical_spelled|].
  intros ->. inversion Hsp as [ws0 Hw Hj|left_ n right_ Hw Hj]; [apply join_nil in Hj; [by subst|by subst]|]. by destruct (join colon left_).
Qed.

(** The quota of a client does not depend on how its IPv6 address is written, and
    two addresses never share one: two spellings, full or compressed, in either case,
    have the same normal form exactly when they denote the same number. *)
Theorem ipv6_keys_by_value isIP ws l ws' l' :
  spelled ws l → sections ws → length ws = 8%nat → isIP l = 6 →
  spelled ws' l' → sections ws' → length ws' = 8%nat → isIP l' = 6 →
  normaliseIp isIP (unchars l) = normaliseIp isIP (unchars l') ↔ ipv6ToBigInt l = ipv6ToBigInt l'.
Proof.
  intros Hsp Hs Hl H6 Hsp' Hs' Hl' H6'.
  rewrite (normalise_spelled isIP ws l), (normalise_spelled isIP ws' l') by done.
  rewrite (proj1 (ipv6_spelled ws l Hsp Hs Hl)), (proj1 (ipv6_spelled ws' l' Hsp' Hs' Hl')).
  assert (∀ ws, sections ws → Forall (λ v, 0 <= v < 65536) (hex_val <$> ws)) as Hb.
  { intros vs Hvs. apply Forall_fmap. eapply list.Forall_impl; [exact Hvs|]. intros g Hg. by apply section_bound. }
  split.
  - intros Heq%(f_equal chars). rewrite !chars_unchars in Heq. do 2 f_equal.
    apply (f_equal (split_char colon)) in Heq. rewrite !split_char_join in Heq; cycle 1.
    { by destruct ws'. } { apply Forall_fmap. eapply list.Forall_impl; [exact Hs'|]. intros g Hg. by apply padded_section. }
    { by destruct ws. } { apply Forall_fmap. eapply list.Forall_impl; [exact Hs|]. intros g Hg. by apply padded_section. }
    apply (f_equal (fmap hex_val)) in Heq. rewrite <-!list_fmap_compose in Heq.
    clear -Hs Hs' Heq. revert ws' Hs' Heq. induction Hs as [|g ws Hg Hs IH]; intros [|g' ws'] Hs' Heq; try done.
    inversion Hs'; subst. rewrite !fmap_cons in *. injection Heq as Hv Heq. f_equal; [|by apply IH].
    destruct (padded_section g Hg) as (_ & _ & Hg1 & _). destruct (padded_section g' ltac:(done)) as (_ & _ & Hg2 & _).
    simpl in *. congruence.
  - intros [= Heq]. apply sections_val_inj in Heq; [|rewrite !length_fmap; congruence|by apply Hb|by apply Hb].
    do 2 f_equal. clear -Hs Hs' Heq. revert ws' Hs' Heq.
    induction Hs as [|g ws Hg Hs IH]; intros [|g' ws'] Hs' Heq; try done. inversion Hs'; subst.
    rewrite !fmap_cons in *. injection Heq as Hv Heq. f_equal; [|by apply IH]. simpl.
    destruct (padded_section g Hg) as (Q1 & Q2 & Q3 & _). destruct (padded_section g' ltac:(done)) as (R1 & R2 & R3 & _).
    apply hex_val_inj; congruence.
Qed.

(** The same address with a dotted tail gets another key unless it is written [::ffff:a.b.c.d]. *)
Lemma dotted_tail_splits_quota isIP :
  isIP (chars "::ffff:1.2.3.4") = 6 → isIP (chars "0:0:0:0:0:ffff:1.2.3.4") = 6 → isIP (chars "::ffff:102:304") = 6 →
  let n := normaliseIp isIP in
  (n "::ffff:1.2.3.4", n "0:0:0:0:0:ffff:1.2.3.4", n "::ffff:102:304") =
  ("1.2.3.4", "0000:0000:0000:0000:0000:ffff:1.2.3.4:0000", "0000:0000:0000:0000:0000:ffff:0102:0304").
Proof.
  intros H1 H2 H3. unfold normaliseIp.
  change (js_trim "::ffff:1.2.3.4") with "::ffff:1.2.3.4". change (js_trim "0:0:0:0:0:ffff:1.2.3.4") with "0:0:0:0:0:ffff:1.2.3.4".
  change (js_trim "::ffff:102:304") with "::ffff:102:304". rewrite H1, H2, H3. vm_compute. reflexivity.
Qed.

(** ** Routes *)
Lemma encode_char_spec c :
  (is_alnum c = true ∧ encode_char c = [c]) ∨
  (is_alnum c = false ∧ ∃ x y, encode_char c = ["_"%char; x; y] ∧ ascii_of_nat (Z.to_nat (hex_val [x; y])) = c).
Proof.
  destruct (is_alnum c) eqn:Hc; [left|right]; (split; [done|]); unfold encode_char; rewrite Hc; [done|].
  destruct c as [[] [] [] [] [] [] [] []]; try discriminate; do 2 eexists; (split; [vm_compute; reflexivity|vm_compute; reflexivity]).
Qed.

Lemma encode_inj l l' : l ≫= encode_char = l' ≫= encode_char → l = l'.
Proof.
  revert l'. induction l as [|c l IH]; intros [|d l'] Heq; [done| | |].
  - rewrite bind_cons in Heq. destruct (encode_char_spec d) as [[_ Hd]|(_ & x & y & Hd & _)]; by rewrite Hd in Heq.
  - rewrite bind_cons in Heq. destruct (encode_char_spec c) as [[_ Hd]|(_ & x & y & Hd & _)]; by rewrite Hd in Heq.
  - rewrite !bind_cons in Heq.
    destruct (encode_char_spec c) as [[Hac Hc]|(Hac & x & y & Hc & Hcv)];
    destruct (encode_char_spec d) as [[Had Hd]|(Had & x' & y' & Hd & Hdv)]; rewrite Hc, Hd in Heq; simplify_eq/=;
      try (by vm_compute in Hac); try (by vm_compute in Had); f_equal; auto.
Qed.

(** The key of a route determines the route: two paths that are encoded in full have
    the same key exactly when they differ in leading and trailing slashes only. *)
Theorem route_keys_injective sha256Hex p q :
  let short p := strip_slashes (chars p) ≠ [] ∧ (length (strip_slashes (chars p) ≫= encode_char) ≤ MAX_ROUTE_SEGMENT_LENGTH)%nat in
  short p → short q →
  routeKeyFromPath sha256Hex (Some p) = routeKeyFromPath sha256Hex (Some q) ↔ strip_slashes (chars p) = strip_slashes (chars q).
Proof.
  intros short [Hp Hlp] [Hq Hlq]. unfold routeKeyFromPath.
  rewrite !bool_decide_false by done. rewrite (proj2 (Nat.leb_le _ _) Hlp), (proj2 (Nat.leb_le _ _) Hlq).
  split; [|by intros ->]. intros Heq%(f_equal chars). rewrite !chars_unchars in Heq. by apply encode_inj.
Qed.

Lemma encode_alnum l : forallb is_alnum l = true → l ≫= encode_char = l.
Proof.
  induction l as [|c l IH]; [done|]. simpl forallb. intros [Hc Hl]%andb_true_iff. rewrite bind_cons, IH by done.
  unfold encode_char. by rewrite Hc.
Qed.

Lemma drop_slashes_id l : head l ≠ Some "/"%char → drop_slashes l = l.
Proof. destruct l as [|c l]; [done|]. simpl. intros Hc. rewrite bool_decide_false; [done|]. congruence. Qed.

(** A hashed key is the encoding of a short path when its digest happens to start with
    an escaped character, and the path [/global] counts on the aggregate counter. *)
Lemma route_keys_collide sha256Hex long rest :
  (MAX_ROUTE_SEGMENT_LENGTH < length (strip_slashes (chars long) ≫= encode_char))%nat →
  sha256Hex (unchars (strip_slashes (chars long))) = ("2f" +:+ unchars rest)%string → forallb is_alnum rest = true →
  (length rest = 62)%nat →
  routeKeyFromPath sha256Hex (Some ("h/" +:+ unchars rest)%string) = routeKeyFromPath sha256Hex (Some long).
Proof.
  intros Hlong Hsha Hr Hlen. unfold routeKeyFromPath.
  assert (strip_slashes (chars ("h/" +:+ unchars rest)%string) = "h"%char :: "/"%char :: rest) as ->.
  { change (chars ("h/" +:+ unchars rest)%string) with ("h"%char :: "/"%char :: chars (unchars rest)). rewrite chars_unchars.
    unfold strip_slashes. rewrite (drop_slashes_id ("h"%char :: _)) by done. rewrite drop_slashes_id; [apply reverse_involutive|].
    destruct rest as [|x rest _] using rev_ind; [done|]. rewrite forallb_app in Hr. apply andb_true_iff in Hr as [_ Hx].
    change ("h"%char :: "/"%char :: rest ++ [x]) with (("h"%char :: "/"%char :: rest) ++ [x]). rewrite reverse_app. simpl.
    intros [= ->]. by vm_compute in Hx. }
  rewrite bool_decide_false by done. rewrite !bind_cons, encode_alnum by done.
  rewrite (proj2 (Nat.leb_le _ _)) by (unfold MAX_ROUTE_SEGMENT_LENGTH; simpl; lia).
  rewrite bool_decide_false by (intros He; rewrite He in Hlong; simpl in Hlong; lia).
  rewrite (proj2 (Nat.leb_gt _ _)) by done. rewrite Hsha. reflexivity.
Qed.
Lemma global_path_collides sha256Hex : routeKeyFromPath sha256Hex (Some "/global") = AGGREGATE_ROUTE.
Proof. reflexivity. Qed.

(** ** The middleware over the in-memory store

    The world is the history of the store's calls, from which its state follows; the
    clock never goes back, and an override lookup can give anything. *)

Definition store_call (now : Z) (inc : bool) (key : string) (w : Z) : call :=
  {| at_ms := now; is_increment := inc; key_arg := JStr key; window_arg := JNum (NumInt w) |}.
Definition store_after (h : list call) : InMemoryStore := (mem_run h empty_store).2.
Definition later (h : list call) (now : Z) : Prop := ∀ d, d ∈ h → at_ms d <= now.

Definition limiter_step X (c : limiter_cmd X) : list call → X → list call → Prop :=
  match c in limiter_cmd X return list call → X → list call → Prop with
  | GetOverride _ => λ h _ h', h' = h
  | Increment key w _ => λ h x h', ∃ now, later h now ∧
      x = (mem_call (store_call now true key w) (store_after h)).1 ∧ h' = h ++ [store_call now true key w]
  | GetCount key w => λ h x h', ∃ now, later h now ∧
      x = (mem_call (store_call now false key w) (store_after h)).1 ∧ h' = h ++ [store_call now false key w]
  | UsingFallback => λ h x h', x = false ∧ h' = h
  | Now => λ h x h', later h x ∧ h' = h
  end.

Section handler.
Context (isIP : text → Z) (sha256Hex : string → string) (adminKeys allowlist : list string).
Notation handler := (rateLimitHandlerAsync isIP sha256Hex adminKeys allowlist).

(** The tier of a request that is checked at all. *)
Definition tier (cfg : RateLimits) (req : http_request) : option RateLimitConfig :=
  let '(identifier, t) := extractClientIdentifier req in
  let config := base_config adminKeys cfg identifier t in
  if (negb (enabled (ip cfg)) && negb (enabled (apiKey cfg))) || bool_decide (path req ∈ EXEMPT_PATHS)
    || match t with IdIp => bool_decide (identifier ∈ allowlist) | IdApiKey => false end || negb (enabled config)
  then None else Some config.

(** The tier, or the tier with an override of the authenticated key. *)
Definition configs (base config : RateLimitConfig) (req : http_request) : Prop :=
  config = base ∨
  (∃ k m w, keyId req = Some k ∧ (extractClientIdentifier req).2 = IdApiKey ∧
    isAdmin adminKeys (extractClientIdentifier req).1 IdApiKey = false ∧
    config = {| windowMs := w; max := m; enabled := enabled base |}).

Definition request_key (req : http_request) : string :=
  let client := extractClientIdentifier req in
  buildStoreKey isIP sha256Hex (principalTypeFor client.2 (isAdmin adminKeys client.1 client.2)) client.1
    (routeKeyFromPath sha256Hex (Some (path req))).

Definition refused (o : outcome) : bool := match o with TooManyRequests _ _ _ => true | Next _ => false end.

(** The verdict on a request with the history [h] at its end. *)
Definition verdict (cfg : RateLimits) (req : http_request) (o : outcome) (h : list call) : Prop :=
  match tier cfg req with
  | None => o = Next None
  | Some base => ∃ config, configs base config req ∧
      let '(limit, isExempt) := resolveEffectiveLimit config (getRouteRateLimitConfig (path req)) (method req) in
      if isExempt : bool then o = Next None
      else match assertOperationInputs (JStr (request_key req)) (JNum (NumInt (windowMs config))) with
        | Err _ => o = Next None
        | Ok _ => ∃ h1 now h2, h = h1 ++ store_call now true (request_key req) (windowMs config) :: h2 ∧
            ∀ win, ordered h → uniform win h →
              (refused o = true ↔
               limit <= Z.of_nat (length (in_window (windowMs config) now (requests (request_key req) h1))))
        end
  end.

(** A step appends a call at the end of the history, in the order of times. *)
Definition extends (h h' : list call) : Prop := (∃ l, h' = h ++ l) ∧ (ordered h → ordered h').

Lemma extends_steps h h' : rtc extends h h' → extends h h'.
Proof.
  induction 1 as [h|h1 h2 h3 [[l ->] Ho] _ [[l' ->] Ho']]; [split; [exists []; by rewrite app_nil_r|done]|].
  split; [exists (l ++ l'); by rewrite app_assoc|auto].
Qed.

Lemma extends_snoc h c : later h (at_ms c) → extends h (h ++ [c]).
Proof. intros Hl. split; [by exists [c]|]. intros Ho. by apply ordered_snoc. Qed.

Lemma extends_refl h : extends h h.
Proof. split; [exists []; by rewrite app_nil_r|done]. Qed.

Lemma verdict_later h h' cfg req o : extends h h' → verdict cfg req o h → verdict cfg req o h'.
Proof.
  intros [[l ->] _]. unfold verdict. destruct (tier cfg req) as [base|]; [|done]. intros (config & Hc & Hv).
  exists config. split; [done|]. destruct (resolveEffectiveLimit _ _ _) as [limit [|]]; [done|].
  destruct (assertOperationInputs _ _); [|done]. destruct Hv as (h1 & now & h2 & -> & Hv).
  exists h1, now, (h2 ++ l). split; [by rewrite <-app_assoc|]. intros win Ho Hu. apply (Hv win).
  - unfold ordered in *. rewrite fmap_app in Ho. by apply sorting.StronglySorted_app_1_l in Ho.
  - intros c k w Hin. by apply Hu, elem_of_app; left.
Qed.

(** Once the store has answered, the response is determined. *)
Lemma respond_safe (Q : outcome → list call → Prop) req identifier t config limit count resetAt backend h :
  (∀ o h', refused o = (count >? limit) → extends h h' → Q o h') →
  safe limiter_step extends Q (respond req identifier t config limit count resetAt backend) h.
Proof.
  intros HQ. unfold respond. destruct (count >? limit) eqn:Hgt; cbn.
  - intros h1 now h2 Hr [_ ->]. split; [apply extends_refl|]. intros h3 Hr'. apply HQ; [done|]. apply extends_steps. by etrans.
  - intros h1 Hr. apply HQ; [done|]. by apply extends_steps.
Qed.

Lemma resolve_override_safe (Q : RateLimitConfig → list call → Prop) base req identifier t h :
  extractClientIdentifier req = (identifier, t) →
  (∀ config h', configs base config req → extends h h' → Q config h') →
  safe limiter_step extends Q (resolve_override adminKeys base (keyId req) identifier t) h.
Proof.
  intros Hid HQ. unfold resolve_override.
  assert (safe limiter_step extends Q (Done base) h) as Hbase.
  { intros h' Hr. apply HQ; [by left|by apply extends_steps]. }
  destruct (keyId req) as [k|] eqn:Hk; [|done]. destruct t; [done|].
  destruct (isAdmin adminKeys identifier IdApiKey || str_empty k) eqn:Ha; [done|].
  apply orb_false_iff in Ha as [Ha _]. intros h1 r h2 Hr ->. split; [apply extends_refl|]. intros h3 Hr'.
  apply HQ; [|apply extends_steps; by etrans]. destruct r as [[[m w]|]|]; [|by left|by left].
  right. exists k, m, w. by rewrite Hid.
Qed.

(** What the store answers determines the verdict. *)
Lemma store_verdict cfg req base config limit h1 now h2 count resetAt o :
  tier cfg req = Some base → configs base config req →
  resolveEffectiveLimit config (getRouteRateLimitConfig (path req)) (method req) = (limit, false) →
  Ok (count, resetAt) = (mem_call (store_call now true (request_key req) (windowMs config)) (store_after h1)).1 →
  later h1 now → refused o = (count >? limit) →
  verdict cfg req o (h1 ++ store_call now true (request_key req) (windowMs config) :: h2).
Proof.
  intros Ht Hc Hl Hans Hlater Ho. unfold verdict. rewrite Ht. exists config. split; [done|]. rewrite Hl.
  set (c := store_call now true (request_key req) (windowMs config)) in *.
  destruct (assertOperationInputs _ _) as [[k w]|e] eqn:Ha.
  2:{ rewrite mem_call_unfold in Hans. simpl in Hans. by rewrite Ha in Hans. }
  exists h1, now, h2. split; [done|]. intros win Hord Hu. rewrite (cons_middle c h1 h2), app_assoc in Hord, Hu.
  assert (ordered (h1 ++ [c])) as Ho1.
  { unfold ordered in *. rewrite fmap_app in Hord. by apply sorting.StronglySorted_app_1_l in Hord. }
  assert (uniform win (h1 ++ [c])) as Hu1 by (intros d j v Hd; apply Hu, elem_of_app; by left).
  unfold store_after in Hans. rewrite (memory_counts_exact win h1 c) in Hans by done. unfold expected in Hans. simpl in Hans.
  rewrite Ha in Hans. injection Hans as -> _. rewrite Ho.
  assert (k = request_key req ∧ w = windowMs config) as [-> ->].
  { unfold assertOperationInputs, assertKey, assertWindowMs in Ha. repeat (case_match; try done). by simplify_eq. }
  rewrite Z.gtb_ltb, Z.ltb_lt. lia.
Qed.

Lemma limit_request_safe cfg req base config h :
  tier cfg req = Some base → configs base config req →
  safe limiter_step extends (verdict cfg req)
    (limit_request isIP sha256Hex adminKeys req (extractClientIdentifier req).1 (extractClientIdentifier req).2 config) h.
Proof.
  intros Ht Hc. unfold limit_request. fold (request_key req).
  destruct (resolveEffectiveLimit _ _ _) as [limit isExempt] eqn:Hl. destruct isExempt.
  { intros h' _. unfold verdict. rewrite Ht. exists config. split; [done|]. by rewrite Hl. }
  intros h1 r h2 _ (now & Hlater & Hr & ->). split; [by apply extends_snoc|]. destruct r as [[count resetAt]|e]; simpl.
  2:{ intros h' _. unfold verdict. rewrite Ht. exists config. split; [done|]. rewrite Hl.
      pose proof (mem_call_answers (store_call now true (request_key req) (windowMs config)) (store_after h1)) as Hm.
      rewrite <-Hr in Hm. simpl in Hm. destruct (assertOperationInputs _ _); [|done]. by specialize (Hm eq_refl). }
  intros h3 b h4 Hr3 [-> ->]. split; [apply extends_refl|].
  intros h5 x h6 Hr5 (now' & Hlater' & Hx & ->). split; [by apply extends_snoc|].
  apply respond_safe. intros o h' Ho He. set (c := store_call now true (request_key req) (windowMs config)) in *.
  assert (extends (h1 ++ [c]) h') as [[l ->] _].
  { apply extends_steps. do 2 (etrans; [eassumption|]). eapply rtc_l; [|by apply rtc_once, He]. by apply extends_snoc. }
  rewrite <-app_assoc. by eapply store_verdict.
Qed.

Lemma handler_safe cfg req h : safe limiter_step extends (verdict cfg req) (handler cfg req) h.
Proof.
  assert (tier cfg req = None → safe limiter_step extends (verdict cfg req) (Done (Next None)) h) as Hnone.
  { intros Ht h' _. unfold verdict. by rewrite Ht. }
  unfold rateLimitHandlerAsync. destruct (extractClientIdentifier req) as [identifier t] eqn:Hid.
  set (base := base_config adminKeys cfg identifier t).
  assert (tier cfg req = if (negb (enabled (ip cfg)) && negb (enabled (apiKey cfg))) || bool_decide (path req ∈ EXEMPT_PATHS)
    || match t with IdIp => bool_decide (identifier ∈ allowlist) | IdApiKey => false end || negb (enabled base)
    then None else Some base) as Ht by (unfold tier; by rewrite Hid).
  destruct (negb (enabled (ip cfg)) && negb (enabled (apiKey cfg))); [by apply Hnone|].
  destruct (bool_decide (path req ∈ EXEMPT_PATHS)); [by apply Hnone|].
  destruct (match t with IdIp => bool_decide (identifier ∈ allowlist) | IdApiKey => false end); [by apply Hnone|].
  destruct (negb (enabled base)) eqn:He; [by apply Hnone|]. simpl in Ht.
  apply safe_then. apply resolve_override_safe; [done|]. intros config h' Hc _.
  pose proof (limit_request_safe cfg req base config h' Ht Hc) as Hs. by rewrite Hid in Hs.
Qed.

(** In every interleaving of any requests over the in-memory store, a request whose
    tier and route are limited is refused exactly when the store had recorded at least
    the effective limit of requests with its key in the window before its own, and
    every other request passes without touching the store. *)
Theorem rate_limiter_exact reqs h ps' h' :
  ordered h → eff_steps limiter_step ((λ r, handler r.1 r.2) <$> reqs, h) (ps', h') →
  ordered h' ∧ ∀ i r o, reqs !! i = Some r → ps' !! i = Some (Done o) → verdict r.1 r.2 o h'.
Proof.
  intros Ho Hs. set (ps := _ <$> reqs) in Hs.
  set (Q := λ i o h, ∀ r, reqs !! i = Some r → verdict r.1 r.2 o h).
  assert (∀ i p, ps !! i = Some p → safe limiter_step extends (Q i) p h) as Hp.
  { subst ps. intros i p (r & -> & Hi)%list_lookup_fmap_Some. eapply safe_weaken; [|apply handler_safe].
    intros o h1 Hv r' Hi'. by simplify_eq. }
  destruct (pool_safe limiter_step extends Q ps h ps' h' Hp Hs) as [Hr Hp'].
  split; [by apply (proj2 (extends_steps _ _ Hr))|]. intros i r o Hi Hd.
  exact (Hp' i _ Hd h' (rtc_refl _ _) r Hi).
Qed.
End handler.

(** ** Where the code departs from its comments *)

(** A window below one second passes the validation at startup, and then the store rejects
    every call, so no request of the tier is limited. *)
Lemma short_window_disables_the_tier :
  let e := λ n, if decide (n = "RATE_LIMIT_IP_WINDOW_MS") then Some "500" else None in
  validateRateLimitsConfig e = [] ∧ windowMs (ip (getRateLimitConfig e None)) = 500 ∧
  ∀ key, is_ok (assertOperationInputs (JStr key) (JNum (NumInt 500))) = false.
Proof.
  split; [vm_compute; reflexivity|]. split; [vm_compute; reflexivity|]. intros key. unfold assertOperationInputs.
  by destruct (assertKey (JStr key)).
Qed.

(** On a route with a budget neither the tier nor a tenant's override matters. *)
Lemma budget_hides_override base base' r m :
  exempt r = false → 0 < baseLimit r → resolveEffectiveLimit base (Some r) m = resolveEffectiveLimit base' (Some r) m.
Proof. intros He Hb. unfold resolveEffectiveLimit. by rewrite He, (proj2 (Z.ltb_lt 0 (baseLimit r))). Qed.

(** The budget of a pattern is counted per concrete path. *)
Lemma pattern_budget_is_per_path sha256Hex :
  getRouteRateLimitConfig "/api/streams/1" = getRouteRateLimitConfig "/api/streams/:id" ∧
  getRouteRateLimitConfig "/api/streams/2" = getRouteRateLimitConfig "/api/streams/:id" ∧
  routeKeyFromPath sha256Hex (Some "/api/streams/1") ≠ routeKeyFromPath sha256Hex (Some "/api/streams/2").
Proof. split; [vm_compute; reflexivity|]. split; [vm_compute; reflexivity|]. vm_compute. congruence. Qed.

(** ** Witnesses *)

Definition sample_request : http_request :=
  {| path := "/api/streams"; method := "POST"; x_api_key := None; client_ip := "198.51.100.7"; keyId := None |}.
Definition sample_limits : RateLimits := getRateLimitConfig (λ _, None) None.
Definition sample_calls : list call :=
  [store_call 1000 true "v1:ip:198.51.100.7:api_2fstreams" 60000; store_call 1001 true "v1:ip:198.51.100.7:global" 60000].

Lemma rate_limiter_exact_witness :
  ordered sample_calls ∧
  verdict (λ _, 4) id [] [] sample_limits sample_request
    (Next (Some {| h_store := "redis"; h_limit := 20; h_remaining := 19; h_reset := 61 |})) sample_calls.
Proof.
  destruct (rate_limiter_exact (λ _, 4) id [] [] [(sample_limits, sample_request)] []
    [Done (Next (Some {| h_store := "redis"; h_limit := 20; h_remaining := 19; h_reset := 61 |}))] sample_calls) as [Ho Hv].
  - constructor.
  - eapply rtc_l.
    { eapply (eff_step_at limiter_step 0); [reflexivity|]. exists 1000. split; [by intros d ?%not_elem_of_nil|]. by split. }
    eapply rtc_l; [eapply (eff_step_at limiter_step 0); [reflexivity|by split]|].
    eapply rtc_l.
    { eapply (eff_step_at limiter_step 0); [reflexivity|]. exists 1001. split; [|by split].
      intros d Hd. apply list_elem_of_singleton in Hd as ->. vm_compute. discriminate. }
    apply rtc_refl.
  - split; [done|]. exact (Hv 0%nat _ _ eq_refl eq_refl).
Defined.

Lemma ipv6_keys_by_value_witness :
  normaliseIp (λ _, 6) "2001:DB8::1" = normaliseIp (λ _, 6) "2001:0db8:0:0:0:0:0:1" ↔
  ipv6ToBigInt (chars "2001:DB8::1") = ipv6ToBigInt (chars "2001:0db8:0:0:0:0:0:1").
Proof.
  apply (ipv6_keys_by_value (λ _, 6)
    ([chars "2001"; chars "DB8"] ++ replicate 5 ["0"%char] ++ [chars "1"]) (chars "2001:DB8::1")
    [chars "2001"; chars "0db8"; chars "0"; chars "0"; chars "0"; chars "0"; chars "0"; chars "1"] (chars "2001:0db8:0:0:0:0:0:1"));
    [exact (spelled_short [chars "2001"; chars "DB8"] 5 [chars "1"])|repeat constructor|reflexivity|reflexivity
    |exact (spelled_full [chars "2001"; chars "0db8"; chars "0"; chars "0"; chars "0"; chars "0"; chars "0"; chars "1"])
    |repeat constructor|reflexivity|reflexivity].
Defined.

Lemma route_keys_injective_witness :
  routeKeyFromPath id (Some "/api/foo/bar") = routeKeyFromPath id (Some "/api/foo_bar/") ↔
  strip_slashes (chars "/api/foo/bar") = strip_slashes (chars "/api/foo_bar/").
Proof.
  apply (route_keys_injective id "/api/foo/bar" "/api/foo_bar/");
    (split; [vm_compute; discriminate|apply Nat.leb_le; vm_compute; reflexivity]).
Defined.
