(* ===== verification/StreamEvents.v ===== *)
(** * The stream event service ([src/services/streamEventService.ts])

    A chain event passes the dedup cache, changes the streams table through
    [StreamRepository] and is announced to the hub.  A handler is a program over
    three services: statements of the database, the cache's [add], and the
    synchronous block that records the audit entry and starts the broadcast.
    Calls interleave at every command; the statements may fail as in
    [StreamRepository].  The cache is a relation: the events' rows are created once
    whatever it answers, and the fan-out is proved against the laws [DedupLaws],
    which the in-memory and the Redis cache of [Dedup] satisfy within their window.
    Logs, spans and the redaction of audit entries are left out. *)
From Stdlib Require Import ZArith Lia.
From stdpp Require Import base gmap strings list relations.
From S2P Require Import Prelude Effects Redis Dedup StreamStatus SubscriptionRouter StreamRepository.
Local Open Scope string_scope.
Local Open Scope list_scope.
Local Open Scope Z_scope.

(** ** Events and results *)

Record StreamCreatedEvent : Type := {
  sc_contractId : string; sc_transactionHash : string; sc_eventIndex : Z;
  sc_sender : string; sc_recipient : string; sc_amount : string; sc_ratePerSecond : string;
  sc_startTime : Z; sc_endTime : Z;
}.

Record StreamUpdatedEvent : Type := {
  su_contractId : string; su_transactionHash : string; su_eventIndex : Z; su_streamId : string;
  su_streamedAmount : option string; su_remainingAmount : option string;
  su_status : option ApiStreamStatus; su_endTime : option Z;
}.

Record StreamCancelledEvent : Type := {
  sx_contractId : string; sx_transactionHash : string; sx_eventIndex : Z; sx_streamId : string;
}.

(** [UnknownEvent] is a value that escapes the type of the union. *)
Inductive StreamEvent : Type :=
| StreamCreated (event : StreamCreatedEvent)
| StreamUpdated (event : StreamUpdatedEvent)
| StreamCancelled (event : StreamCancelledEvent)
| UnknownEvent (shown : string).

(** Where a message of an error comes from. *)
Inductive EventError : Type :=
| DedupRejected (e : string)
| RepoFailed (e : RepoError)
| StreamMissing (id : string)
| UnknownEventType (shown : string).

Inductive event_action : Type := ActCreated | ActUpdated | ActIgnored.

(** [er_error] is [None] exactly when [success] is true. *)
Record EventIngestionResult : Type := {
  er_eventId : string; er_streamId : string; er_action : event_action; er_error : option EventError;
}.
Definition er_success (r : EventIngestionResult) : bool := match er_error r with None => true | Some _ => false end.

Definition deriveStreamEventId (transactionHash : string) (eventIndex : Z) : string :=
  transactionHash ++ "-" ++ int_string eventIndex.
Definition deriveStreamId (transactionHash : string) (eventIndex : Z) : string :=
  transactionHash ++ "-" ++ int_string eventIndex.

(** ** Services *)

(** [recordAuditEvent("STREAM_BROADCAST", "stream", streamId, correlationId, meta)]. *)
Record AuditRecord : Type := {
  au_resourceId : string; au_correlationId : option string; au_meta : list (string * string);
}.

Inductive service : Type → Type :=
| Db (X : Type) (c : statement X) : service X
| DedupAdd (streamId eventId : string) : service (result string bool)
| Announce (entry : AuditRecord) (event : StreamUpdateEvent) : service unit.

Notation handler A := (eff service (result EventError A)).

(** The answer [true] is a duplicate. *)
Definition isDuplicateEvent (streamId eventId : string) : handler bool :=
  Do (DedupAdd streamId eventId) (λ r, Done (match r with Ok added => Ok (negb added) | Err e => Err (DedupRejected e) end)).

(** Awaiting a call of the repository. *)
Definition repository {A} (p : eff statement (result RepoError A)) : handler A :=
  eff_then (embed Db p) (λ r, Done (match r with Ok a => Ok a | Err e => Err (RepoFailed e) end)).

(** [try { body } catch (err) { return failed(err) }]. *)
Definition catching {A} (failed : EventError → A) (body : handler A) : handler A :=
  eff_then body (λ r, Done (Ok (match r with Ok a => a | Err e => failed e end))).

(** [if (hub) { recordAuditEvent(...); hub.broadcast(...) }], then [return r]. *)
Definition announcing {A} (entry : AuditRecord) (event : StreamUpdateEvent) (r : A) : handler A :=
  Do (Announce entry event) (λ _, Done (Ok r)).

(** ** Handlers *)

Section handlers.
Context (hmac_sha256 : string → string → string) (pgcryptoKey pgcryptoKeyPrevious : option string).
Context (correlationId : option string).

Definition WEBHOOK_SCHEMA_VERSION : Z := 1.

Definition answer (eventId streamId : string) (a : event_action) (error : option EventError) : EventIngestionResult :=
  {| er_eventId := eventId; er_streamId := streamId; er_action := a; er_error := error |}.

(** The fields every payload ends with. *)
Definition payload_tail (event : string) : list (string * jsval) :=
  [("event", JStr event); ("schema_version", JNum (NumInt WEBHOOK_SCHEMA_VERSION))].

Definition update_event (streamId eventId recipient : string) (payload : list (string * jsval)) : StreamUpdateEvent :=
  {| ev_streamId := streamId; ev_eventId := eventId; ev_payload := JObj payload; ev_correlationId := None;
     ev_ledger := None; ev_recipientAddress := Some recipient |}.

(** [input] of [processStreamCreated]. *)
Definition create_input (event : StreamCreatedEvent) : CreateStreamInput := {|
  ci_id := deriveStreamId (sc_transactionHash event) (sc_eventIndex event);
  ci_sender_address := sc_sender event; ci_recipient_address := sc_recipient event;
  ci_amount := sc_amount event; ci_streamed_amount := "0"; ci_remaining_amount := sc_amount event;
  ci_rate_per_second := sc_ratePerSecond event; ci_start_time := sc_startTime event; ci_end_time := sc_endTime event;
  ci_contract_id := sc_contractId event; ci_transaction_hash := sc_transactionHash event;
  ci_event_index := sc_eventIndex event |}.

Definition created_payload (input : CreateStreamInput) : list (string * jsval) :=
  [("id", JStr (ci_id input)); ("sender_address", JStr (ci_sender_address input));
   ("recipient_address", JStr (ci_recipient_address input)); ("amount", JStr (ci_amount input));
   ("streamed_amount", JStr (ci_streamed_amount input)); ("remaining_amount", JStr (ci_remaining_amount input));
   ("rate_per_second", JStr (ci_rate_per_second input)); ("start_time", JNum (NumInt (ci_start_time input)));
   ("end_time", JNum (NumInt (ci_end_time input))); ("contract_id", JStr (ci_contract_id input));
   ("transaction_hash", JStr (ci_transaction_hash input)); ("event_index", JNum (NumInt (ci_event_index input)))]
  ++ payload_tail "stream.created".

Definition created_audit (event : StreamCreatedEvent) (streamId eventId : string) : AuditRecord :=
  {| au_resourceId := streamId; au_correlationId := correlationId;
     au_meta := [("event", "stream.created"); ("eventId", eventId); ("contractId", sc_contractId event)] |}.

Definition processStreamCreated (event : StreamCreatedEvent) : handler EventIngestionResult :=
  let eventId := deriveStreamEventId (sc_transactionHash event) (sc_eventIndex event) in
  let streamId := deriveStreamId (sc_transactionHash event) (sc_eventIndex event) in
  catching (λ e, answer eventId "" ActCreated (Some e))
    (try_bind (isDuplicateEvent streamId eventId) (λ duplicate,
       if duplicate then Done (Ok (answer eventId streamId ActIgnored None)) else
       let input := create_input event in
       try_bind (repository (upsertStream hmac_sha256 pgcryptoKey pgcryptoKeyPrevious input)) (λ result,
         if created result then
           announcing (created_audit event streamId eventId)
             (update_event streamId eventId (ci_recipient_address input) (created_payload input))
             (answer eventId streamId ActCreated None)
         else Done (Ok (answer eventId streamId ActIgnored None))))).

(** [update] of [processStreamUpdated]: fields that are present and truthy. *)
Definition update_input (event : StreamUpdatedEvent) : UpdateStreamInput := {|
  ui_status := su_status event;
  ui_streamed_amount := truthy (su_streamedAmount event);
  ui_remaining_amount := truthy (su_remainingAmount event);
  ui_end_time := match su_endTime event with Some 0 => None | o => o end |}.

Definition opt_field {A} (name : string) (f : A → jsval) (o : option A) : list (string * jsval) :=
  match o with Some a => [(name, f a)] | None => [] end.

(** The entries of [update]. *)
Definition update_fields (update : UpdateStreamInput) : list (string * jsval) :=
  opt_field "status" (λ s, JStr (api_literal s)) (ui_status update)
  ++ opt_field "streamed_amount" JStr (ui_streamed_amount update)
  ++ opt_field "remaining_amount" JStr (ui_remaining_amount update)
  ++ opt_field "end_time" (λ z, JNum (NumInt z)) (ui_end_time update).

Definition broadcast_audit (event streamId eventId : string) : AuditRecord :=
  {| au_resourceId := streamId; au_correlationId := correlationId; au_meta := [("event", event); ("eventId", eventId)] |}.

Definition processStreamUpdated (event : StreamUpdatedEvent) : handler EventIngestionResult :=
  let eventId := deriveStreamEventId (su_transactionHash event) (su_eventIndex event) in
  let streamId := su_streamId event in
  try_bind (isDuplicateEvent streamId eventId) (λ duplicate,
    if duplicate then Done (Ok (answer eventId streamId ActIgnored None)) else
    catching (λ e, answer eventId streamId ActUpdated (Some e))
      (try_bind (repository (getById pgcryptoKey pgcryptoKeyPrevious streamId false)) (λ existing,
         match existing with
         | None => Done (Ok (answer eventId streamId ActUpdated (Some (StreamMissing streamId))))
         | Some _ =>
             let update := update_input event in
             match update_fields update with
             | [] => Done (Ok (answer eventId streamId ActIgnored None))
             | _ :: _ =>
                 try_bind (repository (updateStream pgcryptoKey pgcryptoKeyPrevious streamId update)) (λ updatedStream,
                   announcing (broadcast_audit "stream.updated" streamId eventId)
                     (update_event streamId eventId (recipient_address updatedStream)
                        (update_fields update ++ payload_tail "stream.updated"))
                     (answer eventId streamId ActUpdated None))
             end
         end))).

Definition cancel_input : UpdateStreamInput :=
  {| ui_status := Some Api_cancelled; ui_streamed_amount := None; ui_remaining_amount := None; ui_end_time := None |}.

Definition processStreamCancelled (event : StreamCancelledEvent) : handler EventIngestionResult :=
  let eventId := deriveStreamEventId (sx_transactionHash event) (sx_eventIndex event) in
  let streamId := sx_streamId event in
  try_bind (isDuplicateEvent streamId eventId) (λ duplicate,
    if duplicate then Done (Ok (answer eventId streamId ActIgnored None)) else
    catching (λ e, answer eventId streamId ActUpdated (Some e))
      (try_bind (repository (getById pgcryptoKey pgcryptoKeyPrevious streamId false)) (λ _,
         try_bind (repository (updateStream pgcryptoKey pgcryptoKeyPrevious streamId cancel_input)) (λ updatedStream,
           announcing (broadcast_audit "stream.cancelled" streamId eventId)
             (update_event streamId eventId (recipient_address updatedStream)
                (update_fields cancel_input ++ payload_tail "stream.cancelled"))
             (answer eventId streamId ActUpdated None))))).

Definition processEvent (event : StreamEvent) : handler EventIngestionResult :=
  match event with
  | StreamCreated e => processStreamCreated e
  | StreamUpdated e => processStreamUpdated e
  | StreamCancelled e => processStreamCancelled e
  | UnknownEvent shown => Done (Ok (answer "" "" ActCreated (Some (UnknownEventType shown))))
  end.

(** The loop of [processBatch]; an exception ends it. *)
Fixpoint processBatch_from (results : list EventIngestionResult) (events : list StreamEvent)
    : handler (list EventIngestionResult) :=
  match events with
  | [] => Done (Ok results)
  | event :: events => try_bind (processEvent event) (λ r, processBatch_from (results ++ [r]) events)
  end.

Definition processBatch (events : list StreamEvent) : handler (list EventIngestionResult) := processBatch_from [] events.

End handlers.

(** The pair a handler gives the dedup cache. *)
Definition event_key (event : StreamEvent) : option (string * string) :=
  match event with
  | StreamCreated e =>
      Some (deriveStreamId (sc_transactionHash e) (sc_eventIndex e), deriveStreamEventId (sc_transactionHash e) (sc_eventIndex e))
  | StreamUpdated e => Some (su_streamId e, deriveStreamEventId (su_transactionHash e) (su_eventIndex e))
  | StreamCancelled e => Some (sx_streamId e, deriveStreamEventId (sx_transactionHash e) (sx_eventIndex e))
  | UnknownEvent _ => None
  end.

(** ** The services *)

(** The database, the dedup cache, and of the process: whether its hub exists, the
    audit log and the broadcasts started. *)
Record world (S : Type) : Type := {
  w_db : table * list table; w_dedup : S; w_hub : bool;
  w_audit : list AuditRecord; w_broadcasts : list StreamUpdateEvent;
}.
Arguments w_db {S} _.
Arguments w_dedup {S} _.
Arguments w_hub {S} _.
Arguments w_audit {S} _.
Arguments w_broadcasts {S} _.

Definition with_db {S} (d : table * list table) (w : world S) : world S :=
  {| w_db := d; w_dedup := w_dedup w; w_hub := w_hub w; w_audit := w_audit w; w_broadcasts := w_broadcasts w |}.
Definition with_dedup {S} (c : S) (w : world S) : world S :=
  {| w_db := w_db w; w_dedup := c; w_hub := w_hub w; w_audit := w_audit w; w_broadcasts := w_broadcasts w |}.
Definition announce {S} (entry : AuditRecord) (event : StreamUpdateEvent) (w : world S) : world S :=
  if w_hub w then
    {| w_db := w_db w; w_dedup := w_dedup w; w_hub := true;
       w_audit := w_audit w ++ [entry]; w_broadcasts := w_broadcasts w ++ [event] |}
  else w.

Section steps.
Context (enc : Z → string → string → string) (dec : string → string → option string).
Context (collate : string → string → Prop) `{!RelDecision collate}.
Context {S : Type} (dedup_add : string → string → S → result string bool → S → Prop).

Definition service_step X (c : service X) : world S → X → world S → Prop :=
  match c in service X return world S → X → world S → Prop with
  | Db X q => λ w x w', ∃ d, db_step enc dec collate X q (w_db w) x d ∧ w' = with_db d w
  | DedupAdd s e => λ w x w', ∃ c, dedup_add s e (w_dedup w) x c ∧ w' = with_dedup c w
  | Announce entry event => λ w _ w', w' = announce entry event w
  end.
End steps.

(** ** A process that runs alone *)

Section alone.
Context (enc : Z → string → string → string) (dec : string → string → option string).
Context (collate : string → string → Prop) `{!RelDecision collate}.
Context (windowSeconds now seed : Z).

(** A command at time [now]: nothing fails, no replica lags, the cache is the
    in-memory one the service starts with. *)
Definition serve {X} (c : service X) (w : world cache) : X * world cache :=
  match c in service X return X * world cache with
  | Db _ c =>
      match c in statement Y return Y * world cache with
      | Stm q =>
          let '(x, t) := exec enc dec collate now seed q (w_db w).1 in
          (x, if writes q then with_db (commit t (w_db w)) w else w)
      end
  | DedupAdd s e => let '(b, c) := mem_add windowSeconds now s e (w_dedup w) in (Ok b, with_dedup c w)
  | Announce entry event => (tt, announce entry event w)
  end.

Fixpoint alone {A} (p : eff service A) (w : world cache) : A * world cache :=
  match p with Done a => (a, w) | Do c k => let '(x, w') := serve c w in alone (k x) w' end.

(** *** What a batch means

    The effect of an event on the table, the cache, the log and the broadcasts. *)
Context (hmac_sha256 : string → string → string) (keys : PgcryptoKeySet) (correlationId : option string).
Notation readable := (readable dec keys).

Record view : Type := {
  v_table : table; v_cache : cache; v_hub : bool; v_audit : list AuditRecord; v_broadcasts : list StreamUpdateEvent;
}.
Definition view_of (w : world cache) : view :=
  {| v_table := (w_db w).1; v_cache := w_dedup w; v_hub := w_hub w; v_audit := w_audit w; v_broadcasts := w_broadcasts w |}.

Definition with_table (t : table) (v : view) : view :=
  {| v_table := t; v_cache := v_cache v; v_hub := v_hub v; v_audit := v_audit v; v_broadcasts := v_broadcasts v |}.
Definition with_cache (c : cache) (v : view) : view :=
  {| v_table := v_table v; v_cache := c; v_hub := v_hub v; v_audit := v_audit v; v_broadcasts := v_broadcasts v |}.

(** A changed row and its announcement. *)
Definition publish (i : string) (r : row) (entry : AuditRecord) (event : StreamUpdateEvent) (v : view) : view :=
  {| v_table := <[i := r]> (v_table v); v_cache := v_cache v; v_hub := v_hub v;
     v_audit := if v_hub v then v_audit v ++ [entry] else v_audit v;
     v_broadcasts := if v_hub v then v_broadcasts v ++ [event] else v_broadcasts v |}.

(** The recipient of a row in clear. *)
Definition row_recipient (r : row) : string := default "" (recipient_address <$> readable r).

(** A change of an existing row, if the transition table permits it. *)
Definition change (i eventId event : string) (update : UpdateStreamInput) (r : row) (v : view) : EventIngestionResult * view :=
  if match ui_status update with Some s => negb (isValidStatusTransition (r_status r) s) | None => false end
  then (answer eventId i ActUpdated (Some (RepoFailed (InvalidTransition (r_status r) (default Api_active (ui_status update))))), v)
  else
    (answer eventId i ActUpdated None,
     publish i (updated now update r) (broadcast_audit correlationId event i eventId)
       (update_event i eventId (row_recipient r) (update_fields update ++ payload_tail event)) v).

Definition apply_new (event : StreamEvent) (i eventId : string) (v : view) : EventIngestionResult * view :=
  match event with
  | StreamCreated e =>
      let input := create_input e in
      if has_event (sc_transactionHash e, sc_eventIndex e) (v_table v) then (answer eventId i ActIgnored None, v)
      else if v_table v !! i
      then (answer eventId "" ActCreated (Some (RepoFailed (DbError "duplicate key value violates unique constraint"))), v)
      else (answer eventId i ActCreated None,
            publish i (inserted enc hmac_sha256 keys now seed input) (created_audit correlationId e i eventId)
              (update_event i eventId (sc_recipient e) (created_payload input)) v)
  | StreamUpdated e =>
      match v_table v !! i, update_fields (update_input e) with
      | None, _ => (answer eventId i ActUpdated (Some (StreamMissing i)), v)
      | Some _, [] => (answer eventId i ActIgnored None, v)
      | Some r, _ :: _ => change i eventId "stream.updated" (update_input e) r v
      end
  | StreamCancelled _ =>
      match v_table v !! i with
      | None => (answer eventId i ActUpdated (Some (RepoFailed (StreamNotFound i))), v)
      | Some r => change i eventId "stream.cancelled" cancel_input r v
      end
  | UnknownEvent shown => (answer "" "" ActCreated (Some (UnknownEventType shown)), v)
  end.

Definition apply_event (event : StreamEvent) (v : view) : EventIngestionResult * view :=
  match event_key event with
  | None => apply_new event "" "" v
  | Some (i, eventId) =>
      let '(added, c) := mem_add windowSeconds now i eventId (v_cache v) in
      if added then apply_new event i eventId (with_cache c v) else (answer eventId i ActIgnored None, with_cache c v)
  end.

Fixpoint apply_events (events : list StreamEvent) (v : view) : list EventIngestionResult * view :=
  match events with
  | [] => ([], v)
  | e :: events => let '(r, v) := apply_event e v in let '(rs, v) := apply_events events v in (r :: rs, v)
  end.

(** *** Lemmas *)

Context (pgcrypto : pgcrypto_laws enc dec).
Context (pgcryptoKey pgcryptoKeyPrevious : option string).
Context (Hkeys : resolvePgcryptoKeys pgcryptoKey pgcryptoKeyPrevious = Ok keys).
Notation exec := (exec enc dec collate).
Notation table_ok := (table_ok dec keys).
Notation getById := (getById pgcryptoKey pgcryptoKeyPrevious).
Notation getByEvent := (getByEvent pgcryptoKey pgcryptoKeyPrevious).
Notation upsertStream := (upsertStream hmac_sha256 pgcryptoKey pgcryptoKeyPrevious).
Notation updateStream := (updateStream pgcryptoKey pgcryptoKeyPrevious).
Notation processEvent := (processEvent hmac_sha256 pgcryptoKey pgcryptoKeyPrevious correlationId).

Lemma alone_then {A B} (p : eff service A) (f : A → eff service B) w :
  alone (eff_then p f) w = let '(a, w1) := alone p w in alone (f a) w1.
Proof. revert w. induction p as [a|X c k IH]; intros w; simpl; [done|]. destruct (serve c w) as [x w1]. apply IH. Qed.

Lemma alone_try {A B} (p : handler A) (f : A → handler B) w x w1 : alone p w = (x, w1) →
  alone (try_bind p f) w = match x with Ok a => alone (f a) w1 | Err e => (Err e, w1) end.
Proof. intros Hp. unfold try_bind. rewrite alone_then, Hp. by destruct x. Qed.

Lemma alone_catching {A} (failed : EventError → A) (body : handler A) w x w1 : alone body w = (x, w1) →
  alone (catching failed body) w = (Ok (match x with Ok a => a | Err e => failed e end), w1).
Proof. intros Hp. unfold catching. by rewrite alone_then, Hp. Qed.

(** Any read by one condition succeeds on a table whose rows are readable. *)
Lemma by_condition_total fp ps n p c t f : table_ok t → (∀ r, holds collate ps r c = Some (f r)) →
  (∀ r, project_at dec ps (n, p) r = readable r) →
  ∃ l, exec now seed (Select fp (by_condition (n, p) c) ps) t = (Ok l, t) ∧
    mapM readable (filter (λ r, f r = true) (rows t)) = Some l.
Proof.
  intros Hok Hc Hp. simpl. unfold exec_select. simpl.
  rewrite (where_rows_filter collate ps [c] (rows t) f) by (intros r; simpl; rewrite Hc; simpl; by rewrite andb_true_r).
  simpl. unfold limited. simpl.
  assert (∃ l, mapM readable (filter (λ r, f r = true) (rows t)) = Some l) as [l Hl].
  { apply mapM_is_Some_2. apply list.Forall_forall. intros r Hr. apply list_elem_of_filter in Hr as [_ Hr].
    apply list_elem_of_fmap in Hr as ([i r'] & -> & Hi). apply elem_of_map_to_list in Hi. by destruct (Hok i r' Hi) as [_ [? _]]. }
  exists l. split; [|done]. by rewrite (mapM_ext _ readable _ Hp), Hl.
Qed.

Lemma getById_total fp i t : table_ok t → ∃ l, exec now seed (getById_query keys i fp) t = (Ok l, t) ∧ head l = t !! i ≫= readable.
Proof.
  intros Hok. assert (∃ l, exec now seed (getById_query keys i fp) t = (Ok l, t)) as [l Hl].
  { unfold getById_query, push_previous.
    destruct (truthy (previous keys)) as [p|] eqn:Hp;
      [destruct (by_condition_total fp [PText i; PText (current keys); PText p] 2 (Some 3%nat) (IdIs 1) t (λ r, bool_decide (r_id r = i)) Hok) as (l & Hl & _)
      |destruct (by_condition_total fp [PText i; PText (current keys)] 2 None (IdIs 1) t (λ r, bool_decide (r_id r = i)) Hok) as (l & Hl & _)];
      try done; try (by exists l); intros r; unfold StreamRepository.readable; by rewrite Hp. }
  exists l. split; [done|].
  pose proof (getById_reads enc dec collate keys now seed i fp t l Hok) as Hr. rewrite Hl in Hr. specialize (Hr eq_refl).
  destruct (head l) as [s|]; [|by rewrite Hr]. destruct Hr as (r & -> & Hr). simpl. by rewrite Hr.
Qed.

Lemma getByEvent_total h x t : table_ok t → has_event (h, x) t = true →
  ∃ l s, exec now seed (getByEvent_query keys h x) t = (Ok l, t) ∧ head l = Some s.
Proof.
  intros Hok (i & r & Hr & He)%has_event_true. unfold getByEvent_query, push_previous.
  set (f := λ r, bool_decide (r_event r = (h, x))).
  assert (∀ l, mapM readable (filter (λ r, f r = true) (rows t)) = Some l → ∃ s, head l = Some s) as Hs.
  { intros l Hm. destruct (head l) as [s|] eqn:Hl; [by exists s|]. pose proof (mapM_nil _ _ _ Hm Hl) as Hnil.
    assert (r ∈ filter (λ r, f r = true) (rows t)) as Hin.
    { apply list_elem_of_filter. split; [by apply bool_decide_eq_true|]. apply list_elem_of_fmap. exists (i, r).
      split; [done|]. by apply elem_of_map_to_list. }
    rewrite Hnil in Hin. by apply elem_of_nil in Hin. }
  destruct (truthy (previous keys)) as [p|] eqn:Hp;
    [destruct (by_condition_total false [PText h; PInt x; PText (current keys); PText p] 3 (Some 4%nat) (EventIs 1 2) t f Hok) as (l & Hl & Hm)
    |destruct (by_condition_total false [PText h; PInt x; PText (current keys)] 3 None (EventIs 1 2) t f Hok) as (l & Hl & Hm)];
    try done; try (intros r'; unfold StreamRepository.readable; by rewrite Hp);
    destruct (Hs l Hm) as [s Hhd]; by exists l, s.
Qed.

(** A statement issued alone. *)
Lemma alone_query {A B} (q : sql A) (k : A → eff statement (result RepoError B)) w :
  alone (repository (query q k)) w =
    let '(x, t) := exec now seed q (w_db w).1 in
    let w1 := if writes q then with_db (commit t (w_db w)) w else w in
    match x with Ok a => alone (repository (k a)) w1 | Err e => (Err (RepoFailed (DbError e)), w1) end.
Proof. unfold repository, query. simpl. destruct (StreamRepository.exec _ _ _ _ _ _ _) as [[a|e] t]; done. Qed.

Lemma repository_try {A B} (p : eff statement (result RepoError A)) (f : A → eff statement (result RepoError B)) w :
  alone (repository (try_bind p f)) w = alone (try_bind (repository p) (λ a, repository (f a))) w.
Proof.
  unfold repository, try_bind. revert w. induction p as [[a|e]|X c k IH]; intros w; simpl; [done|done|].
  match goal with |- (let (_, _) := ?y in _) = _ => destruct y as [x w1] end. apply IH.
Qed.

Lemma alone_getById i fp w : table_ok (w_db w).1 →
  alone (repository (getById i fp)) w = (Ok ((w_db w).1 !! i ≫= readable), w).
Proof.
  intros Hok. destruct (getById_total fp i (w_db w).1 Hok) as (l & Hl & <-).
  rewrite (getById_eq _ _ _ Hkeys), alone_query, Hl, getById_read_query. done.
Qed.


Lemma alone_upsert input w : table_ok (w_db w).1 →
  ∃ x w', alone (repository (upsertStream input)) w = (x, w') ∧
    let t := (w_db w).1 in
    if has_event (ci_transaction_hash input, ci_event_index input) t
    then view_of w' = view_of w ∧ ∃ s, x = Ok {| created := false; stream := s |}
    else if t !! ci_id input
    then view_of w' = view_of w ∧ x = Err (RepoFailed (DbError "duplicate key value violates unique constraint"))
    else view_of w' = with_table (<[ci_id input := inserted enc hmac_sha256 keys now seed input]> t) (view_of w) ∧
      ∃ s, x = Ok {| created := true; stream := s |}.
Proof.
  intros Hok. unfold StreamRepository.upsertStream. rewrite Hkeys. simpl orThrow.
  pose proof (exec_insert_statement enc dec hmac_sha256 collate keys now seed input (w_db w).1) as Hx. cbv zeta in Hx.
  rewrite alone_query, Hx, insert_writes. cbv zeta. simpl r_event. simpl r_id.
  destruct (has_event _ _) eqn:Hh; simpl.
  - set (w1 := with_db _ w). rewrite repository_try. erewrite alone_try by by apply alone_getById.
    destruct (((w_db w1).1 !! ci_id input) ≫= readable) as [s|].
    + eexists _, _. split; [reflexivity|]. split; [done|by eexists].
    + rewrite repository_try. destruct (getByEvent_total (ci_transaction_hash input) (ci_event_index input) (w_db w1).1 Hok Hh) as (l & s & Hl & Hs).
      erewrite alone_try; [|rewrite (getByEvent_eq _ _ _ Hkeys), alone_query, Hl, (proj1 (getByEvent_read_query _ _ _)); reflexivity].
      simpl. rewrite Hs.
      eexists _, _. split; [reflexivity|]. split; [done|by eexists].
  - destruct ((w_db w).1 !! ci_id input) eqn:Hi; simpl; [eexists _, _; split; [reflexivity|done]|].
    destruct (inserted_readable enc dec pgcrypto hmac_sha256 keys now seed input) as [s ->]. simpl.
    eexists _, _. split; [reflexivity|]. split; [done|by eexists].
Qed.

Lemma alone_update i input w : table_ok (w_db w).1 →
  ∃ x w', alone (repository (updateStream i input)) w = (x, w') ∧
    match (w_db w).1 !! i with
    | None => w' = w ∧ x = Err (RepoFailed (StreamNotFound i))
    | Some r =>
        if match ui_status input with Some s => negb (isValidStatusTransition (r_status r) s) | None => false end
        then w' = w ∧ x = Err (RepoFailed (InvalidTransition (r_status r) (default Api_active (ui_status input))))
        else view_of w' = with_table (<[i := updated now input r]> (w_db w).1) (view_of w) ∧
          ∃ s, x = Ok s ∧ recipient_address s = row_recipient r
    end.
Proof.
  intros Hok. unfold StreamRepository.updateStream. rewrite repository_try. erewrite alone_try by by apply alone_getById.
  destruct ((w_db w).1 !! i) as [r|] eqn:Hi; simpl; [|by eexists _, _].
  destruct (Hok i r Hi) as [Hid [[c Hc] _]]. rewrite Hc. simpl.
  destruct (readable_status dec keys r c Hc) as [-> _].
  destruct (match ui_status input with Some s => _ | None => _ end) eqn:Hv; [by eexists _, _|]. rewrite Hkeys. simpl orThrow.
  pose proof (exec_update_statement enc dec collate keys now seed i input (r_status r) (w_db w).1) as Hx.
  rewrite Hi, bool_decide_true in Hx by done.
  assert (∃ s, readable (updated now input r) = Some s ∧ recipient_address s = row_recipient r) as (s & Hs & Hrec).
  { unfold row_recipient. rewrite Hc. revert Hc. unfold StreamRepository.readable, project. simpl.
    destruct (decrypt_stream_address _ (r_sender r) _ _), (decrypt_stream_address _ (r_recipient r) _ _); simpl; try done.
    intros [= <-]. by eexists. }
  rewrite Hs in Hx. rewrite alone_query, Hx, update_writes. simpl.
  eexists _, _. split; [reflexivity|]. split; [done|by exists s].
Qed.


Lemma alone_duplicate s e w : alone (isDuplicateEvent s e) w =
  let '(added, c) := mem_add windowSeconds now s e (w_dedup w) in (Ok (negb added), with_dedup c w).
Proof. unfold isDuplicateEvent. simpl. by destruct (mem_add _ _ _ _ _). Qed.

Lemma view_announce entry event (w : world cache) t v : view_of w = with_table t v →
  view_of (announce entry event w) =
    {| v_table := t; v_cache := v_cache v; v_hub := v_hub v;
       v_audit := if v_hub v then v_audit v ++ [entry] else v_audit v;
       v_broadcasts := if v_hub v then v_broadcasts v ++ [event] else v_broadcasts v |}.
Proof.
  destruct v as [t0 c h a b]. unfold announce, view_of, with_table. simpl. intros [= <- <- <- <- <-]. destruct (w_hub w) eqn:E; simpl; by rewrite ?E.
Qed.

Lemma updated_ok input r : row_ok dec keys r → row_ok dec keys (updated now input r).
Proof. intros [Hr Hi]. split; [|done]. by eapply (project_stored dec _ _ r). Qed.

Lemma insert_ok t i r : table_ok t → r_id r = i → row_ok dec keys r → table_ok (<[i := r]> t).
Proof. intros Ht Hi Hr j r' Hj. apply lookup_insert_Some in Hj as [[<- <-]|[_ Hj]]; [done|by apply Ht]. Qed.

Lemma derived_id h x : deriveStreamId h x ≠ "".
Proof. unfold deriveStreamId. by destruct h. Qed.

(** A change that [updateStream] makes, and its announcement. *)
Lemma alone_change i eventId event update w : table_ok (w_db w).1 →
  ∃ x w', alone (try_bind (repository (updateStream i update)) (λ s,
      announcing (broadcast_audit correlationId event i eventId)
        (update_event i eventId (recipient_address s) (update_fields update ++ payload_tail event))
        (answer eventId i ActUpdated None))) w = (x, w') ∧
    match (w_db w).1 !! i with
    | None => w' = w ∧ x = Err (RepoFailed (StreamNotFound i))
    | Some r => change i eventId event update r (view_of w) =
        (match x with Ok a => a | Err e => answer eventId i ActUpdated (Some e) end, view_of w')
    end.
Proof.
  intros Hok. destruct (alone_update i update w Hok) as (x & w1 & Hx & Hspec). rewrite (alone_try _ _ _ _ _ Hx).
  destruct ((w_db w).1 !! i) as [r|]; [|destruct Hspec as [-> ->]; by eexists _, _]. unfold change.
  destruct (match ui_status update with Some s => _ | None => _ end); [destruct Hspec as [-> ->]; by eexists _, _|].
  destruct Hspec as (Hv & s & -> & Hrec). eexists _, _. split; [reflexivity|]. rewrite Hrec.
  by rewrite (view_announce _ _ _ _ _ Hv).
Qed.


Lemma alone_created e w : table_ok (w_db w).1 →
  ∃ r w', alone (processEvent (StreamCreated e)) w = (Ok r, w') ∧ apply_event (StreamCreated e) (view_of w) = (r, view_of w').
Proof.
  intros Hok. unfold apply_event. cbn [event_key StreamEvents.processEvent v_cache view_of]. unfold processStreamCreated. cbv zeta.
  set (i := deriveStreamId _ _). set (eventId := deriveStreamEventId _ _).
  pose proof (alone_duplicate i eventId w) as Hd. destruct (mem_add _ _ i eventId (w_dedup w)) as [added c].
  destruct added; simpl negb in Hd.
  2: { erewrite alone_catching by by rewrite (alone_try _ _ _ _ _ Hd). eexists _, _. by split; [reflexivity|]. }
  destruct (alone_upsert (create_input e) (with_dedup c w) Hok) as (x & w1 & Hx & Hspec).
  cbv zeta in Hspec. simpl ci_transaction_hash in Hspec. simpl ci_event_index in Hspec. simpl ci_id in Hspec. fold i in Hspec.
  cbn [w_db with_dedup] in Hspec. unfold apply_new. cbv zeta. cbn [v_table with_cache view_of].
  destruct (has_event _ _); [|destruct ((w_db w).1 !! i)]; destruct Hspec as [Hv Hs].
  - destruct Hs as [s ->]. eexists _, _. split; [apply alone_catching; rewrite (alone_try _ _ _ _ _ Hd), (alone_try _ _ _ _ _ Hx); reflexivity|].
    by rewrite Hv.
  - subst x. eexists _, _. split; [apply alone_catching; rewrite (alone_try _ _ _ _ _ Hd), (alone_try _ _ _ _ _ Hx); reflexivity|].
    by rewrite Hv.
  - destruct Hs as [s ->]. eexists _, _. split; [apply alone_catching; rewrite (alone_try _ _ _ _ _ Hd), (alone_try _ _ _ _ _ Hx); reflexivity|].
    by rewrite (view_announce _ _ _ _ _ Hv).
Qed.

Lemma alone_updated e w : table_ok (w_db w).1 →
  ∃ r w', alone (processEvent (StreamUpdated e)) w = (Ok r, w') ∧ apply_event (StreamUpdated e) (view_of w) = (r, view_of w').
Proof.
  intros Hok. unfold apply_event. cbn [event_key StreamEvents.processEvent v_cache view_of]. unfold processStreamUpdated. cbv zeta.
  set (eventId := deriveStreamEventId _ _).
  pose proof (alone_duplicate (su_streamId e) eventId w) as Hd. destruct (mem_add _ _ (su_streamId e) eventId (w_dedup w)) as [added c].
  rewrite (alone_try _ _ _ _ _ Hd). destruct added; simpl negb; [|by eexists _, _].
  pose proof (alone_getById (su_streamId e) false (with_dedup c w) Hok) as Hg. cbn [w_db with_dedup] in Hg.
  unfold apply_new. cbn [v_table with_cache view_of].
  destruct (alone_change (su_streamId e) eventId "stream.updated" (update_input e) (with_dedup c w) Hok) as (x & w1 & Hx & Hspec).
  cbn [w_db with_dedup] in Hspec. destruct ((w_db w).1 !! su_streamId e) as [r|] eqn:Hr; simpl in Hg.
  - destruct (Hok _ r Hr) as [_ [[cur Hc] _]]. rewrite Hc in Hg. destruct (update_fields (update_input e)) as [|f fs] eqn:Hf.
    + eexists _, _. split; [apply alone_catching; rewrite (alone_try _ _ _ _ _ Hg); reflexivity|done].
    + eexists _, _. split; [apply alone_catching; rewrite (alone_try _ _ _ _ _ Hg); exact Hx|]. exact Hspec.
  - eexists _, _. split; [apply alone_catching; rewrite (alone_try _ _ _ _ _ Hg); reflexivity|done].
Qed.

Lemma alone_cancelled e w : table_ok (w_db w).1 →
  ∃ r w', alone (processEvent (StreamCancelled e)) w = (Ok r, w') ∧ apply_event (StreamCancelled e) (view_of w) = (r, view_of w').
Proof.
  intros Hok. unfold apply_event. cbn [event_key StreamEvents.processEvent v_cache view_of]. unfold processStreamCancelled. cbv zeta.
  set (eventId := deriveStreamEventId _ _).
  pose proof (alone_duplicate (sx_streamId e) eventId w) as Hd. destruct (mem_add _ _ (sx_streamId e) eventId (w_dedup w)) as [added c].
  rewrite (alone_try _ _ _ _ _ Hd). destruct added; simpl negb; [|by eexists _, _].
  pose proof (alone_getById (sx_streamId e) false (with_dedup c w) Hok) as Hg. cbn [w_db with_dedup] in Hg.
  unfold apply_new. cbn [v_table with_cache view_of].
  destruct (alone_change (sx_streamId e) eventId "stream.cancelled" cancel_input (with_dedup c w) Hok) as (x & w1 & Hx & Hspec).
  cbn [w_db with_dedup] in Hspec.
  eexists _, _. split; [apply alone_catching; rewrite (alone_try _ _ _ _ _ Hg); exact Hx|].
  destruct ((w_db w).1 !! sx_streamId e) as [r|]; [exact Hspec|]. by destruct Hspec as [-> ->].
Qed.

Lemma alone_event event w : table_ok (w_db w).1 →
  ∃ r w', alone (processEvent event) w = (Ok r, w') ∧ apply_event event (view_of w) = (r, view_of w').
Proof. destruct event; [apply alone_created|apply alone_updated|apply alone_cancelled|by eexists _, _]. Qed.

Lemma change_ok i eventId event update r v : v_table v !! i = Some r → table_ok (v_table v) →
  table_ok (v_table (change i eventId event update r v).2).
Proof.
  intros Hr Hok. unfold change. destruct (match ui_status update with Some s => _ | None => _ end); [done|].
  destruct (Hok i r Hr) as [Hi Hrow]. apply insert_ok; [done|done|by apply updated_ok].
Qed.

(** The table stays readable. *)
Lemma apply_event_ok event v : table_ok (v_table v) → table_ok (v_table (apply_event event v).2).
Proof.
  intros Hok. unfold apply_event. destruct (event_key event) as [[i eventId]|] eqn:Hk; [|by destruct event].
  destruct (mem_add _ _ _ _ _) as [[] c]; [|done]. destruct event as [e|e|e|shown]; simpl in *; simplify_eq.
  - destruct (has_event _ _); [done|]. destruct (v_table v !! _); [done|]. simpl. apply insert_ok; [done|done|].
    split; [by apply inserted_readable|by apply derived_id].
  - destruct (v_table v !! su_streamId e) as [r|] eqn:Hr; [|done]. destruct (update_fields _); [done|].
    by apply change_ok.
  - destruct (v_table v !! sx_streamId e) as [r|] eqn:Hr; [|done]. by apply change_ok.
Qed.

Lemma alone_batch results events w : table_ok (w_db w).1 →
  ∃ rs w', alone (processBatch_from hmac_sha256 pgcryptoKey pgcryptoKeyPrevious correlationId results events) w = (Ok (results ++ rs), w') ∧
    apply_events events (view_of w) = (rs, view_of w').
Proof.
  revert results w. induction events as [|event events IH]; intros results w Hok; simpl.
  { eexists [], w. by rewrite app_nil_r. }
  destruct (alone_event event w Hok) as (r & w1 & Hr & Hs). rewrite (alone_try _ _ _ _ _ Hr), Hs.
  pose proof (apply_event_ok event (view_of w) Hok) as Hok1. rewrite Hs in Hok1.
  destruct (IH (results ++ [r]) w1 Hok1) as (rs & w2 & -> & ->). exists (r :: rs), w2. by rewrite <-app_assoc.
Qed.

End alone.

(** ** Concurrent calls *)

(** What a dedup cache promises while its window lasts: [seen] never ends, and an
    admission is the first. *)
Class DedupLaws {S : Type} (dedup_add : string → string → S → result string bool → S → Prop)
    (seen : string → string → S → Prop) : Prop := {
  dedup_keeps s e c x c' s' e' : dedup_add s e c x c' → seen s' e' c → seen s' e' c';
  dedup_admits s e c c' : dedup_add s e c (Ok true) c' → ¬ seen s e c ∧ seen s e c';
}.

(** The in-memory cache of [Dedup], between [lo] and [hi] and below its cap. *)
Definition memory_add (windowSeconds lo hi : Z) (s e : string) (c : cache) (x : result string bool) (c' : cache) : Prop :=
  ∃ now b, lo <= now <= hi ∧ cache_wf c ∧ Z.of_nat (length c) < DEDUP_CACHE_MAX ∧
    mem_add windowSeconds now s e c = (b, c') ∧ x = Ok b.
Definition memory_seen (hi : Z) (s e : string) (c : cache) : Prop := ∃ x, jm_get (mem_key s e) c = Some x ∧ hi < x.

Lemma evict_small c : Z.of_nat (length c) < DEDUP_CACHE_MAX → evict c = c.
Proof. intros Hc. unfold evict. destruct (Z.leb_spec DEDUP_CACHE_MAX (Z.of_nat (length c))); [lia|done]. Qed.

Lemma memory_laws windowSeconds lo hi : hi < lo + windowSeconds * 1000 →
  DedupLaws (memory_add windowSeconds lo hi) (memory_seen hi).
Proof.
  intros Hw. split.
  - intros s e c x c' s' e' (now & b & Hnow & Hwf & Hlen & Ha & _) (y & Hy & Hhi).
    pose proof (mem_add_spec windowSeconds now s e c Hwf) as Hspec. rewrite Ha in Hspec. destruct Hspec as [_ Hspec].
    destruct b; [|destruct Hspec as [-> _]; by exists y].
    pose proof (length_delete_le (mem_key s e) c) as Hdl.
    rewrite evict_small in Hspec by lia. rewrite <-(jm_set_fresh _ _ _ (jm_get_delete_eq _ _)) in Hspec. subst c'.
    destruct (decide (mem_key s e = mem_key s' e')) as [Hk|Hk].
    + rewrite Hk. eexists. split; [apply jm_get_set_eq|lia].
    + exists y. split; [|done]. by rewrite jm_get_set_ne, jm_get_delete_ne by done.
  - intros s e c c' (now & b & Hnow & Hwf & Hlen & Ha & [= <-]).
    pose proof (mem_add_spec windowSeconds now s e c Hwf) as Hspec. rewrite Ha in Hspec. destruct Hspec as [_ Hspec].
    pose proof (length_delete_le (mem_key s e) c) as Hdl.
    rewrite evict_small in Hspec by lia. rewrite <-(jm_set_fresh _ _ _ (jm_get_delete_eq _ _)) in Hspec. split.
    + intros (y & Hy & Hhi). unfold mem_add, isLive in Ha. rewrite Hy in Ha. destruct (Z.ltb_spec now y); [done|lia].
    + rewrite Hspec. eexists. split; [apply jm_get_set_eq|lia].
Qed.

(** The Redis cache of [Dedup] on a server [R], with any faults. *)
Section redis_cache.
Context {R : Type} `{RedisLaws R}.
Definition redis_dedup_add (ttlSeconds lo hi : Z) (s e : string) (r : R) (x : result string bool) (r' : R) : Prop :=
  ∃ t f, lo <= t <= hi ∧ hrun (S:=unit) t f (redis_calls (redis_add ttlSeconds s e) HRet) tt r = (x, tt, r').
Definition redis_seen (hi : Z) (s e : string) (r : R) : Prop := is_Some (srv_view hi r (buildKey s e)).

Lemma redis_laws ttlSeconds lo hi : hi < lo + ttlSeconds * 1000 →
  DedupLaws (redis_dedup_add ttlSeconds lo hi) (redis_seen hi).
Proof.
  intros Hw. split.
  - intros s e r x r' s' e' (t & f & Ht & Hr) Hs. simpl in Hr. unfold reply in Hr.
    destruct (client_accepts _); [|by simplify_eq]. destruct f; [|by simplify_eq|];
      [destruct (srv_exec t _ r) as [y r1] eqn:Hx|]; simplify_eq.
    + replace r' with (srv_exec t (RSetNx (buildKey s e) "1" (ttlSeconds * 1000)) r).2 by by rewrite Hx.
      apply setnx_keeps; [lia|done].
    + apply setnx_keeps; [lia|done].
  - intros s e r r' (t & f & Ht & Hr). simpl in Hr. unfold reply in Hr. destruct (client_accepts _); [|done].
    destruct f; [|by simplify_eq..]. destruct (srv_exec t _ r) as [y r1] eqn:Hx. simplify_eq.
    destruct (srv_view t r (buildKey s e)) as [v|] eqn:Hv.
    { pose proof (law_setnx_held t (buildKey s e) "1" (ttlSeconds * 1000) r (mk_is_Some _ _ Hv)). congruence. }
    split.
    + intros [v Hhi]. destruct (law_view_mono t hi r (buildKey s e)) as [E|E]; [lia|congruence|congruence].
    + pose proof (law_setnx_view t (buildKey s e) "1" (ttlSeconds * 1000) r hi (buildKey s e) Hv ltac:(lia)) as Hview.
      rewrite Hx, decide_True in Hview by done. simpl in Hview. unfold redis_seen. rewrite Hview.
      destruct (Z.ltb_spec hi (t + ttlSeconds * 1000)); [by eexists|lia].
Qed.
End redis_cache.

(** *** Lemmas: who may announce *)

Definition same_key (s e : string) (event : StreamUpdateEvent) : Prop := ev_streamId event = s ∧ ev_eventId event = e.
#[export] Instance same_key_dec s e event : Decision (same_key s e event) := _.

(** How often the pair was broadcast. *)
Definition broadcasts {S} (s e : string) (w : world S) : nat := length (filter (same_key s e) (w_broadcasts w)).

Lemma broadcasts_announce {S} s e entry event (w : world S) :
  (broadcasts s e (announce entry event w) ≤ Datatypes.S (broadcasts s e w))%nat ∧
  (¬ same_key s e event → broadcasts s e (announce entry event w) = broadcasts s e w).
Proof.
  unfold broadcasts, announce. destruct (w_hub w); simpl; [|by split; [lia|]]. rewrite list.filter_app, length_app, filter_cons, filter_nil.
  destruct (decide (same_key s e event)); simpl; split; try lia; done.
Qed.

Lemma announce_dedup {S} entry event (w : world S) : w_dedup (announce entry event w) = w_dedup w.
Proof. unfold announce. by destruct (w_hub w). Qed.
Lemma announce_db {S} entry event (w : world S) : w_db (announce entry event w) = w_db w.
Proof. unfold announce. by destruct (w_hub w). Qed.

Section pool.
Context (enc : Z → string → string → string) (dec : string → string → option string) (pgcrypto : pgcrypto_laws enc dec).
Context (hmac : string → string → string) (collate : string → string → Prop) `{!RelDecision collate}.
Context (key previousKey : option string) (keys : PgcryptoKeySet) (Hkeys : resolvePgcryptoKeys key previousKey = Ok keys).
Context (correlationId : option string).
Context {S : Type} (dedup_add : string → string → S → result string bool → S → Prop).
Notation step := (service_step enc dec collate dedup_add).
Notation processEvent := (processEvent hmac key previousKey correlationId).
Notation world := (world S).

(** What a call does whose event the cache does not admit. *)
Definition refused (s e : string) (r : result EventError EventIngestionResult) : Prop :=
  r = Ok (answer e s ActIgnored None) ∨
  ∃ msg, r = Err (DedupRejected msg) ∨ ∃ a, r = Ok a ∧ er_error a = Some (DedupRejected msg).

(** The first command of a handler is the cache's. *)
Lemma processEvent_first event s e : event_key event = Some (s, e) →
  ∃ k, processEvent event = Do (DedupAdd s e) k ∧ ∀ x, x ≠ Ok true → ∃ r, k x = Done r ∧ refused s e r.
Proof.
  destruct event as [ev|ev|ev|shown]; cbn [event_key]; intros Hk; [| | |done]; injection Hk as <- <-;
    (eexists; split; [reflexivity|]); intros [[|]|msg] Hx; try done; eexists; (split; [reflexivity|]);
    [by left|right; eexists; right; by eexists|by left|right; eexists; by left|by left|right; eexists; by left].
Qed.

Section fan_out.
Context (seen : string → string → S → Prop) `{!DedupLaws dedup_add seen} (s e : string).
Notation spends := (spends step (λ w, seen s e (w_dedup w)) (broadcasts s e)).

Lemma spends_repository {A B} h (p : eff statement (result RepoError A)) (f : A → handler B) :
  (∀ a, spends h (f a)) → spends h (try_bind (repository p) f).
Proof.
  intros Hf. unfold repository, try_bind. induction p as [[a|err]|X c k IH]; simpl; [apply Hf|done|].
  intros w x w' (d & _ & ->). split; [done|]. destruct h; [left|split; [done|left]]; by auto.
Qed.

Lemma spends_catching {A} h failed (body : handler A) : spends h body → spends h (catching failed body).
Proof. apply spends_returns. Qed.

Lemma spends_announcing {A} h entry event (r : A) : (h = true ∨ ¬ same_key s e event) → spends h (announcing entry event r).
Proof.
  intros Hh w x w' Hst. cbn [service_step] in Hst. subst w'. destruct (broadcasts_announce s e entry event w) as [Hle Hne].
  split; [by rewrite announce_dedup|]. destruct h; [by right|]. destruct Hh as [?|Hh]; [done|]. split; [by apply Hne|by left].
Qed.

(** The cache's answer decides who may announce. *)
Lemma spends_dedup {A} s' e' (f : bool → handler A) : (∀ h, spends h (f true)) →
  (∀ h, (h = true ∨ ¬ (s' = s ∧ e' = e)) → spends h (f false)) → spends false (try_bind (isDuplicateEvent s' e') f).
Proof.
  intros Hdup Hnew w x w' (c & Hc & ->). simpl. split; [by apply (dedup_keeps _ _ _ _ _ _ _ Hc)|]. split; [done|].
  destruct x as [[|]|err]; simpl; [|left; apply Hdup|by left].
  destruct (decide (s' = s ∧ e' = e)) as [[-> ->]|Hne]; [right|left; by apply Hnew; right].
  destruct (dedup_admits _ _ _ _ Hc). splits; [done|done|]. by apply Hnew; left.
Qed.

Lemma spends_done {A} h (r : result EventError A) : spends h (Done r).
Proof. done. Qed.

Lemma spends_processEvent event : spends false (processEvent event).
Proof.
  destruct event as [ev|ev|ev|shown]; cbn [StreamEvents.processEvent]; [| | |apply spends_done].
  - apply spends_catching, spends_dedup; [intros h; apply spends_done|]. intros h Hh. apply spends_repository.
    intros [[] r]; cbn [created]; [by apply spends_announcing|apply spends_done].
  - apply spends_dedup; [intros h; apply spends_done|]. intros h Hh. apply spends_catching, spends_repository.
    intros [r|]; [|apply spends_done]. cbv zeta.
    destruct (update_fields (update_input ev)); [apply spends_done|]. apply spends_repository. intros r'. by apply spends_announcing.
  - apply spends_dedup; [intros h; apply spends_done|]. intros h Hh. apply spends_catching, spends_repository. intros _.
    apply spends_repository. intros r'. by apply spends_announcing.
Qed.

(** *** Lemmas: what a call leaves in the cache *)

Definition seen_grows (w w' : world) : Prop := ∀ s' e', seen s' e' (w_dedup w) → seen s' e' (w_dedup w').

Lemma step_seen X (c : service X) w x w' : step X c w x w' → seen_grows w w'.
Proof.
  intros Hst s' e'. destruct c as [X c|s1 e1|entry event]; cbn [service_step] in Hst.
  - destruct Hst as (d & _ & ->). done.
  - destruct Hst as (c & Hc & ->). apply (dedup_keeps _ _ _ _ _ _ _ Hc).
  - subst w'. by rewrite announce_dedup.
Qed.

Lemma seen_rtc w w' : rtc seen_grows w w' → seen_grows w w'.
Proof. intros Hw. induction Hw as [|w1 w2 w3 Hst _ IH]; [by intros ? ?|]. intros s' e' Hs. by apply IH, Hst. Qed.

(** A call that fails after the cache admitted its event leaves the event seen. *)
Definition leaves_seen (r : result EventError EventIngestionResult) (w : world) : Prop :=
  ∀ a err, r = Ok a → er_error a = Some err → (∀ msg, err ≠ DedupRejected msg) → seen s e (w_dedup w).

Lemma safe_leaves_seen event w : event_key event = Some (s, e) → safe step seen_grows leaves_seen (processEvent event) w.
Proof.
  intros Hk. destruct (processEvent_first event s e Hk) as (k & -> & Hx). intros w1 x w2 _ Hst. split; [by eapply step_seen|].
  assert (x = Ok true ∨ x ≠ Ok true) as [->|Hne] by (destruct x as [[|]|msg]; [by left|by right|by right]).
  - destruct Hst as (c & Hc & ->). apply safe_guaranteed; [apply step_seen|]. intros a w' Hw _ err _ _ _.
    apply seen_rtc in Hw. apply Hw. by destruct (dedup_admits _ _ _ _ Hc).
  - destruct (Hx x Hne) as (r & -> & Hr). intros w' _ a err -> He Hno. exfalso.
    destruct Hr as [[= ->]|(msg & [?|(a' & [= <-] & Ha)])]; [done|done|]. rewrite He in Ha. injection Ha as ->. by destruct (Hno msg).
Qed.

(** An event that was seen is not processed. *)
Lemma seen_not_processed event w r w' : event_key event = Some (s, e) → seen s e (w_dedup w) →
  runs step (processEvent event) w r w' → refused s e r ∧ w_db w' = w_db w ∧ w_broadcasts w' = w_broadcasts w ∧ w_audit w' = w_audit w.
Proof.
  intros Hk Hs. destruct (processEvent_first event s e Hk) as (k & -> & Hx). intros (x & w1 & (c & Hc & ->) & Hr).
  destruct (Hx x) as (r' & Hk' & Hr').
  { intros ->. by destruct (dedup_admits _ _ _ _ Hc). }
  rewrite Hk' in Hr. destruct Hr as [<- <-]. done.
Qed.
End fan_out.

(** *** Lemmas: what is announced *)

Notation readable := (readable dec keys).
Notation db_ok := (db_ok dec keys).
Notation db_evolves := (db_evolves dec keys).
Notation db := (table * list table)%type.

(** A stream has a row with that recipient, and a terminal status that was claimed. *)
Definition shows (i recipient : string) (claimed : option ApiStreamStatus) (d : db) : Prop :=
  ∃ r s, d.1 !! i = Some r ∧ readable r = Some s ∧ recipient_address s = recipient ∧
    ∀ x, claimed = Some x → isTerminalStatus (Reported x) = true → r_status r = x.

Lemma immutable_recipient r r' s : immutable r r' → readable r = Some s →
  ∃ s', readable r' = Some s' ∧ recipient_address s' = recipient_address s.
Proof.
  intros (_ & Hs & Hr & _). unfold StreamRepository.readable, project. rewrite Hs, Hr.
  destruct (decrypt_stream_address _ (r_sender r) _ _); simpl; [|done].
  destruct (decrypt_stream_address _ (r_recipient r) _ _); simpl; [|done]. intros [= <-]. by eexists.
Qed.

Lemma shows_stable i a claimed d d' : rtc db_evolves d d' → shows i a claimed d → shows i a claimed d'.
Proof.
  intros Hd (r & s & Hr & Hs & <- & Hc). destruct (evolves_status dec hmac keys d d' i r Hd Hr) as (r' & Hr' & Him & _).
  destruct (immutable_recipient r r' s Him Hs) as (s' & Hs' & E). exists r', s'. splits; [done|done|done|].
  intros x Hx Ht. specialize (Hc x Hx Ht). destruct (terminal_stays dec hmac keys d d' i r Hd Hr) as (r'' & Hr'' & Hst); [by rewrite Hc|].
  simplify_eq. by rewrite Hst.
Qed.

Lemma inserted_recipient now seed input s : readable (inserted enc hmac keys now seed input) = Some s →
  recipient_address s = ci_recipient_address input.
Proof.
  unfold StreamRepository.readable, project, decrypt_stream_address. simpl.
  rewrite !(armored _ _ pgcrypto), !(decrypt_encrypt _ _ pgcrypto), !decide_True by done. simpl. by intros [= <-].
Qed.

Lemma safe_upsert_shows input d : ci_id input ≠ "" → db_ok d →
  safe (db_step enc dec collate) db_evolves
    (λ x d', ∀ s, x = Ok {| created := true; stream := s |} → shows (ci_id input) (ci_recipient_address input) None d')
    (upsertStream hmac key previousKey input) d.
Proof.
  intros Hid Hok. unfold upsertStream. rewrite Hkeys. simpl orThrow. eapply safe_query.
  intros w1 x w2 Hw Hst. pose proof (insert_evolves _ _ pgcrypto _ _ _ input w1 x w2 Hid Hst) as Hev. split; [done|].
  assert (db_ok w2) as Hok2 by (eapply evolves_ok; [done|]; by eapply evolves_ok_rtc).
  apply write_step in Hst; [|apply insert_writes]. destruct Hst as [[-> [e' ->]]|(now & seed & -> & Hx)]; [done|].
  destruct x as [l|e']; [|done].
  destruct (insert_effect enc dec pgcrypto hmac collate keys now seed input w1.1) as [[Ht Hr]|(_ & _ & Ht & s & Hs & Hr)].
  - assert (l = []) as -> by (destruct Hr as [[_ Hr]|[? Hr]]; rewrite Hr in Hx; destruct Hx as [Hx|[? Hx]]; by simplify_eq). simpl head. cbv iota.
    eapply safe_try, safe_getById; [done|done|done|]. intros w3 t [y|] w4 _ _ _ _; [by intros w5 _ s [= ]|].
    eapply safe_try, safe_getByEvent; [done|done|]. by intros w5 t' [y|] w6 _ _ _ _ w7 _ s.
  - rewrite Hr in Hx. destruct Hx as [Hx|[? Hx]]; simplify_eq/=. intros w3 Hw3 s' [= <-]. eapply shows_stable; [exact Hw3|].
    rewrite Ht. eexists _, s. split; [apply lookup_insert_eq|]. splits; [done|by eapply inserted_recipient|done].
Qed.

Lemma safe_update_shows i input d : db_ok d →
  safe (db_step enc dec collate) db_evolves (λ x d', ∀ s, x = Ok s → shows i (recipient_address s) (ui_status input) d')
    (updateStream key previousKey i input) d.
Proof.
  intros Hok. eapply safe_try, safe_getById; [done|done|done|]. intros w1 t [cur|] w2 Hw Ht Hx Hw2; [|done].
  match goal with |- context [if ?b then _ else _] => destruct b eqn:Hv; [done|] end. apply permitted_of in Hv.
  rewrite Hkeys. simpl orThrow. eapply safe_query. intros w3 y w4 Hw3 Hst. split; [by eapply update_evolves|].
  apply write_step in Hst; [|apply update_writes]. destruct Hst as [[-> [e' ->]]|(now & seed & -> & Hy)]; [done|].
  destruct (update_effect enc dec collate keys now seed i input (status cur) w3.1) as [[_ Hr]|(r & s & Hi & _ & Hs & Hr)].
  - assert (y = Ok [] ∨ ∃ e', y = Err e') as [->|[e' ->]] by naive_solver; [simpl head; cbv iota|done].
    eapply safe_read; [done|done|]. intros w5 t' now' seed' b _ _ _. by destruct b.
  - rewrite Hr in Hy |- *. destruct Hy as [->|[e' ->]]; [|done]. intros w5 Hw5 s' [= <-]. eapply shows_stable; [exact Hw5|].
    eexists _, s. split; [apply lookup_insert_eq|]. splits; [done|done|]. intros x Hx' _. simpl. by rewrite Hx'.
Qed.

(** The status a payload claims. *)
Definition claimed_status (event : StreamUpdateEvent) : option ApiStreamStatus :=
  match ev_payload event with JObj o => isApiStreamStatus (js_get o "status") | _ => None end.

(** What an event says is what the table shows. *)
Definition truthful (event : StreamUpdateEvent) (d : db) : Prop :=
  ∃ recipient, ev_recipientAddress event = Some recipient ∧ shows (ev_streamId event) recipient (claimed_status event) d.

Definition world_evolves (w w' : world) : Prop :=
  db_evolves (w_db w) (w_db w') ∧
  ∀ b, b ∈ w_broadcasts w' → b ∈ w_broadcasts w ∨ truthful b (w_db w').
Notation safe := (safe step world_evolves).

Lemma world_rtc w w' : rtc world_evolves w w' →
  rtc db_evolves (w_db w) (w_db w') ∧ ∀ b, b ∈ w_broadcasts w' → b ∈ w_broadcasts w ∨ truthful b (w_db w').
Proof.
  intros Hw. induction Hw as [|w1 w2 w3 [Hd Hb] _ [IHd IHb]]; [by split; [|left]|]. split; [by eapply rtc_l|].
  intros b Hin. destruct (IHb b Hin) as [Hin2|]; [|by right]. destruct (Hb b Hin2) as [|(a & Ha & Ht)]; [by left|right].
  exists a. split; [done|]. by eapply shows_stable.
Qed.

Lemma world_same_db w w' : w_db w' = w_db w → w_broadcasts w' = w_broadcasts w → world_evolves w w'.
Proof. intros Hd Hb. split; [by left|]. rewrite Hb. by left. Qed.

Lemma safe_try_handler {A B} (Q : result EventError B → world → Prop) (p : handler A) (f : A → handler B) w :
  safe (λ x w1, match x with Ok a => safe Q (f a) w1 | Err e => ∀ w2, rtc world_evolves w1 w2 → Q (Err e) w2 end) p w →
  safe Q (try_bind p f) w.
Proof. intros Hp. apply safe_then. revert Hp. apply safe_weaken. by intros [a|e] w1. Qed.

(** A call of the repository, whose guarantee concerns the database only. *)
Lemma safe_repository {A B} (Qd : result RepoError A → db → Prop) (p : eff statement (result RepoError A)) (f : A → handler B) w :
  Effects.safe (db_step enc dec collate) db_evolves Qd p (w_db w) →
  (∀ a w', rtc world_evolves w w' → Qd (Ok a) (w_db w') → safe (λ _ _, True) (f a) w') →
  safe (λ _ _, True) (try_bind (repository p) f) w.
Proof.
  intros Hp Hf. unfold repository, try_bind. revert w Hp Hf.
  induction p as [[a|err]|X c k IH]; intros w Hp Hf; simpl in *; [by apply Hf; [|apply Hp]|done|].
  intros w1 x w2 Hw (d & Hd & ->). destruct (world_rtc _ _ Hw) as [Hdb _].
  destruct (Hp (w_db w1) x d Hdb Hd) as [Hg Hk]. assert (world_evolves w1 (with_db d w1)) as Hev by (split; [done|by left]).
  split; [done|]. apply IH; [done|]. intros a w' Hw'. apply Hf. etrans; [exact Hw|]. by eapply rtc_l.
Qed.

Lemma safe_duplicate s e (f : bool → handler EventIngestionResult) w : 
  (∀ b w', rtc world_evolves w w' → safe (λ _ _, True) (f b) w') → safe (λ _ _, True) (try_bind (isDuplicateEvent s e) f) w.
Proof.
  intros Hf w1 x w2 Hw (c & _ & ->). assert (world_evolves w1 (with_dedup c w1)) as Hev by by apply world_same_db.
  split; [done|]. destruct x as [b|msg]; simpl; [|done]. apply Hf. by eapply rtc_r.
Qed.

Lemma safe_announcing {A} entry event (r : A) w : truthful event (w_db w) → safe (λ _ _, True) (announcing entry event r) w.
Proof.
  intros (a & Ha & Ht) w1 x w2 Hw Hst. cbn [service_step] in Hst. subst w2. destruct (world_rtc _ _ Hw) as [Hd _].
  split; [|done]. split; [left; apply announce_db|]. rewrite announce_db. unfold announce.
  destruct (w_hub w1); simpl; [|by left]. intros b [Hb|Hb]%elem_of_app; [by left|right].
  apply list_elem_of_singleton in Hb as ->. exists a. split; [done|]. by eapply shows_stable.
Qed.

Lemma safe_catching failed (body : handler EventIngestionResult) w : safe (λ _ _, True) body w → safe (λ _ _, True) (catching failed body) w.
Proof. intros Hb. unfold catching. apply safe_then. revert Hb. by apply safe_weaken. Qed.

(** The payload of a change claims the status it sets. *)
Lemma claimed_change i eventId a update tail : claimed_status (update_event i eventId a (update_fields update ++ payload_tail tail)) = ui_status update.
Proof. destruct update as [[[]|] [x|] [y|] [z|]]; reflexivity. Qed.

Lemma safe_processEvent event w : db_ok (w_db w) → safe (λ _ _, True) (processEvent event) w.
Proof.
  intros Hok. assert (∀ w', rtc world_evolves w w' → db_ok (w_db w')) as Hok'.
  { intros w' Hw. destruct (world_rtc _ _ Hw) as [Hd _]. by eapply evolves_ok_rtc. }
  destruct event as [ev|ev|ev|shown]; cbn [StreamEvents.processEvent]; [apply safe_catching| | |done];
    apply safe_duplicate; intros [] w1 Hw1; try done.
  - eapply safe_repository; [apply safe_upsert_shows; [apply derived_id|by apply Hok']|]. intros [[] s] w2 Hw2 Hs; cbn [created]; [|done].
    apply safe_announcing. eexists. split; [reflexivity|]. by apply (Hs s).
  - apply safe_catching. eapply safe_repository; [eapply (safe_getById _ _ _ _ _ _ Hkeys (λ _ _, True)); [by apply Hok'|done|done]|].
    intros [r|] w2 Hw2 _; [|done]. cbv zeta. destruct (update_fields (update_input ev)) eqn:Hf; [done|]. rewrite <-Hf.
    eapply safe_repository; [apply safe_update_shows; apply Hok'; by etrans|]. intros s w3 _ Hs.
    apply safe_announcing. eexists. split; [reflexivity|]. rewrite claimed_change. by apply Hs.
  - apply safe_catching. eapply safe_repository; [eapply (safe_getById _ _ _ _ _ _ Hkeys (λ _ _, True)); [by apply Hok'|done|done]|].
    intros r w2 Hw2 _. eapply safe_repository; [apply safe_update_shows; apply Hok'; by etrans|]. intros s w3 _ Hs.
    apply safe_announcing. eexists. split; [reflexivity|]. rewrite claimed_change. by apply Hs.
Qed.

(** *** Properties *)

Section cached.
Context (seen : string → string → S → Prop) `{!DedupLaws dedup_add seen}.


(** An event whose processing failed is lost: once a call for it has failed
    after the cache admitted it, every later call for it leaves the table, the audit
    log and the broadcasts alone, and reports the event as ignored with success
    unless the cache itself is rejected. *)
Theorem failed_event_is_dropped events later i event s e (w w1 w2 w3 : world) ps1 ps2 a err r :
  event_key event = Some (s, e) → events !! i = Some event →
  eff_steps step (processEvent <$> events, w) (ps1, w1) → ps1 !! i = Some (Done (Ok a)) →
  er_error a = Some err → (∀ msg, err ≠ DedupRejected msg) →
  eff_steps step (processEvent <$> later, w1) (ps2, w2) → runs step (processEvent event) w2 r w3 →
  w_db w3 = w_db w2 ∧ w_broadcasts w3 = w_broadcasts w2 ∧ w_audit w3 = w_audit w2 ∧
  (r = Ok (answer e s ActIgnored None) ∨ ∃ msg, r = Err (DedupRejected msg) ∨ ∃ b, r = Ok b ∧ er_error b = Some (DedupRejected msg)).
Proof.
  intros Hk Hi Hs1 Ha He Hno Hs2 Hr.
  destruct (pool_safe step (seen_grows seen) (λ j r w, j = i → leaves_seen seen s e r w) (processEvent <$> events) w ps1 w1) as [_ Hsafe]; [|done|].
  { intros j p Hj. apply list_lookup_fmap_Some in Hj as (ev & -> & Hj). destruct (decide (j = i)) as [->|Hne].
    - simplify_eq. eapply safe_weaken; [|by apply safe_leaves_seen]. auto.
    - apply safe_guaranteed; [apply step_seen; apply _|done]. }
  assert (seen s e (w_dedup w1)) as Hseen by exact (Hsafe i _ Ha w1 (rtc_refl _ _) eq_refl a err eq_refl He Hno).
  destruct (pool_safe step (seen_grows seen) (λ _ _ _, True) (processEvent <$> later) w1 ps2 w2) as [Hg _]; [|done|].
  { intros j p Hj. apply list_lookup_fmap_Some in Hj as (ev & -> & Hj). apply safe_guaranteed; [apply step_seen; apply _|done]. }
  destruct (seen_not_processed seen s e event w2 r w3 Hk) as (Href & Hd & Hb & Hau); [by apply (seen_rtc seen _ _ Hg)|done|done].
Qed.
End cached.

(** What is broadcast is true: whatever events are processed at the same time,
    whatever the dedup cache answers, whichever statements fail and however far the
    replicas lag, the stream of every new broadcast has a row, with the recipient
    the broadcast is addressed to and with the terminal status its payload claims. *)
Theorem announced_is_true events (w w' : world) ps' b :
  db_ok (w_db w) → eff_steps step (processEvent <$> events, w) (ps', w') → b ∈ w_broadcasts w' →
  b ∈ w_broadcasts w ∨
  ∃ r s, (w_db w').1 !! ev_streamId b = Some r ∧ readable r = Some s ∧ ev_recipientAddress b = Some (recipient_address s) ∧
    ∀ x, claimed_status b = Some x → isTerminalStatus (Reported x) = true → r_status r = x.
Proof.
  intros Hok Hs Hb. destruct (pool_safe step world_evolves (λ _ _ _, True) (processEvent <$> events) w ps' w') as [Hw _]; [|done|].
  { intros j p Hj. apply list_lookup_fmap_Some in Hj as (ev & -> & _). by apply safe_processEvent. }
  destruct (world_rtc _ _ Hw) as [_ Hnew]. destruct (Hnew b Hb) as [|(a & Ha & r & s & Hr & Hs' & <- & Hc)]; [by left|right].
  by exists r, s.
Qed.
End pool.

(** A batch does what it says: processed alone, with the in-memory cache and
    without failures, it never throws, answers every event in order, and its results
    and effects on the table, the cache, the audit log and the broadcasts are those of
    [apply_events]. *)
Theorem batch_is_spec enc dec (pgcrypto : pgcrypto_laws enc dec) hmac (collate : string → string → Prop) `{!RelDecision collate}
    key previousKey keys (Hkeys : resolvePgcryptoKeys key previousKey = Ok keys) correlationId windowSeconds now seed events w :
  table_ok dec keys (w_db w).1 →
  ∃ w', alone enc dec collate windowSeconds now seed (processBatch hmac key previousKey correlationId events) w =
      (Ok (apply_events enc dec windowSeconds now seed hmac keys correlationId events (view_of w)).1, w') ∧
    view_of w' = (apply_events enc dec windowSeconds now seed hmac keys correlationId events (view_of w)).2 ∧
    length (apply_events enc dec windowSeconds now seed hmac keys correlationId events (view_of w)).1 = length events.
Proof.
  intros Hok. destruct (alone_batch enc dec collate windowSeconds now seed hmac keys correlationId pgcrypto key previousKey Hkeys [] events w Hok)
    as (rs & w' & Hw' & Hs). exists w'. rewrite Hs. splits; [done|done|]. revert rs w' Hs Hw'. clear. intros rs w' Hs _. simpl.
  revert rs Hs. generalize (view_of w) (view_of w'). induction events as [|event events IH]; intros v v' rs; simpl; [by intros [= <- _]|].
  destruct (apply_event _ _ _ _ _ _ _ _ event v) as [r v1]. destruct (apply_events _ _ _ _ _ _ _ _ events v1) as [rs' v2] eqn:He.
  intros [= <- <-]. simpl. f_equal. by eapply IH.
Qed.

(** ** Witnesses *)

Definition sample_created (h : string) (index : Z) : StreamCreatedEvent := {|
  sc_contractId := "C"; sc_transactionHash := h; sc_eventIndex := index; sc_sender := "alice"; sc_recipient := "bob";
  sc_amount := "10"; sc_ratePerSecond := "1"; sc_startTime := 5; sc_endTime := 0 |}.
Definition sample_updated : StreamUpdatedEvent := {|
  su_contractId := "C"; su_transactionHash := "tu"; su_eventIndex := 3; su_streamId := "tx-1";
  su_streamedAmount := Some "4"; su_remainingAmount := Some "6"; su_status := None; su_endTime := Some 0 |}.
Definition sample_cancelled (i : string) : StreamCancelledEvent := {|
  sx_contractId := "C"; sx_transactionHash := "tc"; sx_eventIndex := 2; sx_streamId := i |}.

Definition sample_world : world cache :=
  {| w_db := sample_db; w_dedup := []; w_hub := true; w_audit := []; w_broadcasts := [] |}.

Notation sample_add := (memory_add 86400 0 1000).
Notation sample_service := (service_step sample_enc sample_dec String.le sample_add).
Notation sample_process := (processEvent sample_hmac (Some "new") (Some "old") None).

Lemma sample_laws : DedupLaws sample_add (memory_seen 1000).
Proof. apply memory_laws. lia. Qed.

(** An update that arrives before its stream's creation, the creation, the update again. *)
Lemma batch_is_spec_witness :
  ∃ w', alone sample_enc sample_dec String.le 86400 7 0 (processBatch sample_hmac (Some "new") (Some "old") None
      [StreamUpdated sample_updated; StreamCreated (sample_created "tx" 1); StreamUpdated sample_updated]) sample_world =
    (Ok [answer "tu-3" "tx-1" ActUpdated (Some (StreamMissing "tx-1")); answer "tx-1" "tx-1" ActCreated None;
         answer "tu-3" "tx-1" ActIgnored None], w') ∧
    r_streamed <$> v_table (view_of w') !! "tx-1" = Some "0".
Proof.
  destruct (batch_is_spec sample_enc sample_dec sample_pgcrypto sample_hmac String.le (Some "new") (Some "old") sample_keys eq_refl None 86400 7 0
    [StreamUpdated sample_updated; StreamCreated (sample_created "tx" 1); StreamUpdated sample_updated] sample_world
    ltac:(apply sample_db_ok; by left)) as (w' & Hw & Hv & _).
  exists w'. rewrite Hw, Hv. split; [f_equal; vm_compute; reflexivity|vm_compute; reflexivity].
Defined.

(** The next command of the call at [i]. *)
Ltac service_at i := eapply rtc_l; [eapply (eff_step_at _ i); [reflexivity|]|].
Ltac cache_add now := eexists now, _; splits; [lia|lia
  |split; [apply (bool_decide_unpack (NoDup _)); vm_compute; exact I|vm_compute; discriminate]
  |vm_compute; reflexivity|vm_compute; reflexivity|reflexivity].
Ltac add_step i now := service_at i; [eexists; split; [cache_add now|reflexivity]|].
Ltac db_write i now := service_at i; [eexists; split; [apply (step_write _ _ _ _ _ now 0); reflexivity|reflexivity]|].
Ltac db_read i how := service_at i; [eexists; split; [eapply (step_read _ _ _ _ _ _ 0 0); [reflexivity|how]|reflexivity]|].
Ltac announce_step i := eapply rtc_l; [eapply (eff_step_at _ i _ _ _ _ _ tt); reflexivity|].


(** The cancellation of a stream whose creation has not been processed yet. *)
Lemma failed_event_is_dropped_witness :
  let cancel := StreamCancelled (sample_cancelled "tx-1") in
  ∃ ps1 w1 ps2 w2 w3 r,
    eff_steps sample_service (sample_process <$> [cancel], sample_world) (ps1, w1) ∧
    ps1 !! 0%nat = Some (Done (Ok (answer "tc-2" "tx-1" ActUpdated (Some (RepoFailed (StreamNotFound "tx-1")))))) ∧
    eff_steps sample_service (sample_process <$> [StreamCreated (sample_created "tx" 1)], w1) (ps2, w2) ∧
    runs sample_service (sample_process cancel) w2 r w3 ∧
    r_status <$> (w_db w3).1 !! "tx-1" = Some Api_active ∧ w_db w3 = w_db w2.
Proof.
  intros cancel.
  assert (∃ ps1 w1 ps2 w2 w3 r,
    eff_steps sample_service (sample_process <$> [cancel], sample_world) (ps1, w1) ∧
    ps1 !! 0%nat = Some (Done (Ok (answer "tc-2" "tx-1" ActUpdated (Some (RepoFailed (StreamNotFound "tx-1")))))) ∧
    eff_steps sample_service (sample_process <$> [StreamCreated (sample_created "tx" 1)], w1) (ps2, w2) ∧
    runs sample_service (sample_process cancel) w2 r w3 ∧
    r_status <$> (w_db w3).1 !! "tx-1" = Some Api_active) as (ps1 & w1 & ps2 & w2 & w3 & r & Hs1 & Ha & Hs2 & Hr & Hrow).
  { eexists _, _, _, _, _, _.
    split; [add_step 0%nat 5; db_read 0%nat ltac:(left); db_read 0%nat ltac:(reflexivity); apply rtc_refl|].
    split; [vm_compute; reflexivity|].
    split; [add_step 0%nat 6; db_write 0%nat 7; announce_step 0%nat; apply rtc_refl|].
    split; [eexists (Ok false), _; split; [eexists; split; [cache_add 8|reflexivity]|split; reflexivity]|].
    vm_compute. reflexivity. }
  exists ps1, w1, ps2, w2, w3, r. split; [exact Hs1|]. split; [exact Ha|]. split; [exact Hs2|]. split; [exact Hr|]. split; [exact Hrow|].
  exact (proj1 (failed_event_is_dropped sample_enc sample_dec sample_hmac String.le (Some "new") (Some "old") None sample_add (memory_seen 1000)
    (DedupLaws0:=sample_laws) [cancel] [StreamCreated (sample_created "tx" 1)] 0 cancel "tx-1" "tc-2" sample_world w1 w2 w3 ps1 ps2 _ _ r
    eq_refl eq_refl Hs1 Ha eq_refl ltac:(discriminate) Hs2 Hr)).
Defined.

(** A cancellation is broadcast to the recipient after the row is cancelled. *)
Lemma announced_is_true_witness :
  ∃ ps' w' b, eff_steps sample_service (sample_process <$> [StreamCancelled (sample_cancelled "tx-0")], sample_world) (ps', w') ∧
    w_broadcasts w' = [b] ∧ claimed_status b = Some Api_cancelled ∧ ev_recipientAddress b = Some "bob" ∧
    (b ∈ [] ∨ ∃ r s, (w_db w').1 !! ev_streamId b = Some r ∧ readable sample_dec sample_keys r = Some s ∧
      ev_recipientAddress b = Some (recipient_address s) ∧
      ∀ x, claimed_status b = Some x → isTerminalStatus (Reported x) = true → r_status r = x).
Proof.
  assert (∃ ps' w' b, eff_steps sample_service (sample_process <$> [StreamCancelled (sample_cancelled "tx-0")], sample_world) (ps', w') ∧
    w_broadcasts w' = [b] ∧ claimed_status b = Some Api_cancelled ∧ ev_recipientAddress b = Some "bob") as (ps' & w' & b & Hs & Hb & Hc & Hr).
  { eexists _, _, _. split; [add_step 0%nat 5; db_read 0%nat ltac:(left); db_read 0%nat ltac:(reflexivity); db_write 0%nat 7;
      announce_step 0%nat; apply rtc_refl|]. split; [vm_compute; reflexivity|]. split; vm_compute; reflexivity. }
  exists ps', w', b. split; [exact Hs|]. split; [exact Hb|]. split; [exact Hc|]. split; [exact Hr|].
  apply (announced_is_true sample_enc sample_dec sample_pgcrypto sample_hmac String.le (Some "new") (Some "old") sample_keys eq_refl None
    sample_add [StreamCancelled (sample_cancelled "tx-0")] sample_world w' ps' b sample_db_ok Hs).
  rewrite Hb. by left.
Defined.
