(* ===== verification/IndexerReplay.v ===== *)
(** * Replay of historical events ([src/indexer/service.ts], [replayBatchRunner.ts],
      [replayCursorRepository.ts], [replayRuntimeState.ts], [replayValidation.ts])

    A replay copies the rows of [historical_events] that match a request into
    [contract_events], one transaction per batch, and keeps its offset in a cursor
    row so that a later run resumes.  A call is a program over the commands it awaits:
    connections, statements, transactions, the leader lease and the synchronous
    blocks on the state of its process.  What a transaction wrote takes effect at its
    COMMIT; row locks make that the order of the statements too.  Any command of the
    database may be rejected, or executed with its reply lost; a call may stop
    anywhere (a crash); calls of several processes interleave.  The source table does
    not change.  The lease is answered by the environment, since [LeaderElection]
    shows that two processes may hold it.  Metrics, logs and the integrity check
    after a replay are left out. *)
From Stdlib Require Import ZArith Lia Sorted QArith.
From stdpp Require Import base gmap strings list sorting relations.
From S2P Require Import Prelude Effects RowMapping.
Local Open Scope string_scope.
Local Open Scope list_scope.
Local Open Scope Z_scope.

(** ** Data *)

Record ReplayRequest : Type := {
  rq_contract_id : string; rq_ledger : Z; rq_from_block : option Z; rq_to_block : option Z;
}.

(** A row of [historical_events]. *)
Record historical_row : Type := {
  h_event_id : string; h_contract_id : string; h_ledger : Z; h_event_type : string;
  h_event_data : jsval; h_block_height : Z; h_transaction_hash : string;
}.

Record ContractEvent : Type := {
  ce_event_id : string; ce_contract_id : string; ce_ledger : Z; ce_event_type : string;
  ce_event_data : list (string * jsval); ce_block_height : Z; ce_transaction_hash : string;
}.

Record ReplayCursor : Type := {
  cu_id : string; cu_contract_id : string; cu_ledger : Z; cu_from_block : option Z; cu_to_block : option Z;
  cu_total_rows : Z; cu_last_committed_offset : Z; cu_started_at : Z; cu_completed_at : option Z;
}.

Inductive replay_status : Type := InProgress | Completed.
#[export] Instance replay_status_eq_dec : EqDecision replay_status.
Proof. solve_decision. Defined.

(** A row of [indexer_replay_progress]. *)
Record checkpoint : Type := {
  ck_cursor : string; ck_total : Z; ck_status : replay_status; ck_started_at : Z; ck_updated_at : Z;
}.

(** [startReplay] sets the fields from [startedAt] on together. *)
Record ReplayProgress : Type := {
  isReplaying : bool; rowsReplayed : Z; rowsRemaining : Z; totalRows : Z; estimatedCompletion : option Q;
  startedAt : option Z; p_contractId : option string; p_ledger : option Z; replayCursorId : option string;
  currentOffset : option Z; p_status : option replay_status;
}.

Inductive ReplayError : Type :=
| InvalidRequest (message : string)
| AlreadyInProgress
| IndexerNotLeader
| ReplayBudgetExceeded (budgetMs elapsedMs : Z)
| ReplayForcedStop (timeoutMs : Z)
| DbFailed (e : string)
| BadRow (e : RowMappingError)
| OutOfFuel.

(** ** Validation *)

Definition negative (z : option Z) : bool := match z with Some z => z <? 0 | None => false end.

(** The types of the fields are the schema's. *)
Definition validateReplayRequest (request : ReplayRequest) (maxRangeBlocks : Z) : result ReplayError unit :=
  if str_empty (rq_contract_id request) then Err (InvalidRequest "Invalid contract_id")
  else if rq_ledger request <? 0 then Err (InvalidRequest "Invalid ledger")
  else if negative (rq_from_block request) then Err (InvalidRequest "Invalid from_block")
  else if negative (rq_to_block request) then Err (InvalidRequest "Invalid to_block")
  else match rq_from_block request, rq_to_block request with
       | Some from, Some to =>
           if to <? from then Err (InvalidRequest "from_block must be less than or equal to to_block")
           else if (0 <? maxRangeBlocks) && (maxRangeBlocks <? to - from)
           then Err (InvalidRequest ("Block range " +:+ int_string (to - from) +:+ " exceeds the maximum allowed range of "
                  +:+ int_string maxRangeBlocks +:+ ". Reduce the range or increase INDEXER_MAX_REPLAY_RANGE_BLOCKS."))
           else Ok tt
       | _, _ => Ok tt
       end.

(** ** The state of a process *)

Definition initial_progress : ReplayProgress := {|
  isReplaying := false; rowsReplayed := 0; rowsRemaining := 0; totalRows := 0; estimatedCompletion := None;
  startedAt := None; p_contractId := None; p_ledger := None; replayCursorId := None; currentOffset := None; p_status := None |}.

Definition startReplay (now total : Z) (contractId : string) (ledger : Z) (cursorId : string) (resumeFromOffset : Z)
    : ReplayProgress := {|
  isReplaying := true; rowsReplayed := resumeFromOffset; rowsRemaining := Z.max 0 (total - resumeFromOffset);
  totalRows := total; estimatedCompletion := None; startedAt := Some now; p_contractId := Some contractId;
  p_ledger := Some ledger; replayCursorId := Some cursorId; currentOffset := Some resumeFromOffset; p_status := None |}.

(** The remaining time is the remaining rows over the rate of the replayed ones. *)
Definition updateProgress (now newOffset : Z) (s : ReplayProgress) : ReplayProgress :=
  let prevOffset := default 0 (currentOffset s) in
  let monotonicOffset := Z.max prevOffset newOffset in
  let actualAdded := Z.max 0 (monotonicOffset - prevOffset) in
  let replayed := rowsReplayed s + actualAdded in
  let remaining := Z.max 0 (totalRows s - replayed) in
  {| isReplaying := isReplaying s; rowsReplayed := replayed; rowsRemaining := remaining; totalRows := totalRows s;
     estimatedCompletion :=
       match startedAt s with
       | Some t => if 0 <? replayed
                   then Some (inject_Z now + inject_Z (remaining * (now - t)) / inject_Z replayed)%Q
                   else estimatedCompletion s
       | None => estimatedCompletion s
       end;
     startedAt := startedAt s; p_contractId := p_contractId s; p_ledger := p_ledger s; replayCursorId := replayCursorId s;
     currentOffset := Some monotonicOffset; p_status := p_status s |}.

Definition endReplay (s : ReplayProgress) : ReplayProgress :=
  {| isReplaying := false; rowsReplayed := rowsReplayed s; rowsRemaining := rowsRemaining s; totalRows := totalRows s;
     estimatedCompletion := None; startedAt := startedAt s; p_contractId := p_contractId s; p_ledger := p_ledger s;
     replayCursorId := replayCursorId s; currentOffset := currentOffset s; p_status := p_status s |}.

(** [_stopRequestedAt] is a time exactly while [_stopRequested]. *)
Record process : Type := { stopRequestedAt : option Z; replayLock : bool; replayState : ReplayProgress }.

Definition isReplayStopRequested (p : process) : bool := bool_decide (is_Some (stopRequestedAt p)).
Definition requestStopReplay (now : Z) (p : process) : process :=
  if isReplayStopRequested p then p
  else {| stopRequestedAt := Some now; replayLock := replayLock p; replayState := replayState p |}.
Definition resetStopReplay (p : process) : process :=
  {| stopRequestedAt := None; replayLock := replayLock p; replayState := replayState p |}.
Definition set_lock (b : bool) (p : process) : process :=
  {| stopRequestedAt := stopRequestedAt p; replayLock := b; replayState := replayState p |}.
Definition set_progress (f : ReplayProgress → ReplayProgress) (p : process) : process :=
  {| stopRequestedAt := stopRequestedAt p; replayLock := replayLock p; replayState := f (replayState p) |}.

(** ** The database *)

Record database : Type := {
  contract_events : gmap string ContractEvent;
  replay_cursors : list ReplayCursor;
  replay_progress : list checkpoint;
}.

(** [INSERT ... ON CONFLICT (event_id) DO NOTHING]. *)
Definition insert_event (m : gmap string ContractEvent) (e : ContractEvent) : gmap string ContractEvent :=
  if m !! ce_event_id e then m else <[ce_event_id e := e]> m.
Definition insert_events (es : list ContractEvent) (m : gmap string ContractEvent) : gmap string ContractEvent :=
  foldl insert_event m es.

Definition advance (id : string) (newOffset : Z) (c : ReplayCursor) : ReplayCursor :=
  if bool_decide (cu_id c = id) then
    {| cu_id := cu_id c; cu_contract_id := cu_contract_id c; cu_ledger := cu_ledger c; cu_from_block := cu_from_block c;
       cu_to_block := cu_to_block c; cu_total_rows := cu_total_rows c;
       cu_last_committed_offset := Z.max (cu_last_committed_offset c) newOffset;
       cu_started_at := cu_started_at c; cu_completed_at := cu_completed_at c |}
  else c.

Definition complete (id : string) (now : Z) (c : ReplayCursor) : ReplayCursor :=
  if bool_decide (cu_id c = id) then
    {| cu_id := cu_id c; cu_contract_id := cu_contract_id c; cu_ledger := cu_ledger c; cu_from_block := cu_from_block c;
       cu_to_block := cu_to_block c; cu_total_rows := cu_total_rows c; cu_last_committed_offset := cu_last_committed_offset c;
       cu_started_at := cu_started_at c; cu_completed_at := Some now |}
  else c.

Definition touch_checkpoint (id : string) (status : option replay_status) (now : Z) (c : checkpoint) : checkpoint :=
  if bool_decide (ck_cursor c = id) then
    {| ck_cursor := ck_cursor c; ck_total := ck_total c; ck_status := default (ck_status c) status;
       ck_started_at := ck_started_at c; ck_updated_at := now |}
  else c.

(** What a transaction writes. *)
Inductive write : Type :=
| InsertEvents (es : list ContractEvent)
| AdvanceOffset (id : string) (newOffset : Z)
| TouchUpdatedAt (id : string)
| CursorCompleted (id : string)
| ProgressCompleted (id : string).

Definition apply_write (now : Z) (d : database) (w : write) : database :=
  match w with
  | InsertEvents es => {| contract_events := insert_events es (contract_events d); replay_cursors := replay_cursors d;
                          replay_progress := replay_progress d |}
  | AdvanceOffset id n => {| contract_events := contract_events d; replay_cursors := advance id n <$> replay_cursors d;
                             replay_progress := replay_progress d |}
  | TouchUpdatedAt id => {| contract_events := contract_events d; replay_cursors := replay_cursors d;
                            replay_progress := touch_checkpoint id None now <$> replay_progress d |}
  | CursorCompleted id => {| contract_events := contract_events d; replay_cursors := complete id now <$> replay_cursors d;
                             replay_progress := replay_progress d |}
  | ProgressCompleted id => {| contract_events := contract_events d; replay_cursors := replay_cursors d;
                               replay_progress := touch_checkpoint id (Some Completed) now <$> replay_progress d |}
  end.

Definition apply_writes (now : Z) (ws : list write) (d : database) : database := foldl (apply_write now) d ws.

(** Rows by the time they were started, the latest first; equal times in any order. *)
Definition findActive (contractId : string) (ledger : Z) (d : database) : list ReplayCursor :=
  filter (λ c, cu_contract_id c = contractId ∧ cu_ledger c = ledger ∧ cu_completed_at c = None) (replay_cursors d).

Definition new_cursor (id : string) (request : ReplayRequest) (total now : Z) : ReplayCursor := {|
  cu_id := id; cu_contract_id := rq_contract_id request; cu_ledger := rq_ledger request;
  cu_from_block := rq_from_block request; cu_to_block := rq_to_block request; cu_total_rows := total;
  cu_last_committed_offset := 0; cu_started_at := now; cu_completed_at := None |}.

Definition add_cursor (c : ReplayCursor) (d : database) : database :=
  {| contract_events := contract_events d; replay_cursors := replay_cursors d ++ [c]; replay_progress := replay_progress d |}.

Definition new_checkpoint (id : string) (total now : Z) : checkpoint :=
  {| ck_cursor := id; ck_total := total; ck_status := InProgress; ck_started_at := now; ck_updated_at := now |}.
Definition has_checkpoint (id : string) (d : database) : bool :=
  existsb (λ c, bool_decide (ck_cursor c = id)) (replay_progress d).

(** [upsertResuming] and [insertIfAbsent]. *)
Definition upsertResuming (id : string) (total now : Z) (d : database) : database :=
  {| contract_events := contract_events d; replay_cursors := replay_cursors d;
     replay_progress := if has_checkpoint id d then touch_checkpoint id (Some InProgress) now <$> replay_progress d
                        else replay_progress d ++ [new_checkpoint id total now] |}.
Definition insertIfAbsent (id : string) (total now : Z) (d : database) : database :=
  {| contract_events := contract_events d; replay_cursors := replay_cursors d;
     replay_progress := if has_checkpoint id d then replay_progress d else replay_progress d ++ [new_checkpoint id total now] |}.

(** The join of both tables on the cursor's id. *)
Definition joined (d : database) : list (checkpoint * ReplayCursor) :=
  k ← replay_progress d; (λ c, (k, c)) <$> filter (λ c, cu_id c = ck_cursor k) (replay_cursors d).

Definition request_of (c : ReplayCursor) : ReplayRequest := {|
  rq_contract_id := cu_contract_id c; rq_ledger := cu_ledger c; rq_from_block := cu_from_block c; rq_to_block := cu_to_block c |}.

(** [findLatestProgress] of a joined row. *)
Definition progress_of (k : checkpoint) (c : ReplayCursor) : ReplayProgress := {|
  isReplaying := match ck_status k with InProgress => true | Completed => false end; rowsReplayed := cu_last_committed_offset c;
  rowsRemaining := Z.max 0 (ck_total k - cu_last_committed_offset c); totalRows := ck_total k; estimatedCompletion := None;
  startedAt := Some (ck_started_at k); p_contractId := Some (cu_contract_id c); p_ledger := Some (cu_ledger c);
  replayCursorId := Some (cu_id c); currentOffset := Some (cu_last_committed_offset c); p_status := Some (ck_status k) |}.

(** ** Commands *)

(** A wait bounded by [withStopGuard] may also be given up. *)
Inductive wait_error : Type := Rejected (e : string) | ForcedStop.

(** [Sync] is a synchronous block on the state of process [p], at the time it runs. *)
Inductive command : Type → Type :=
| Connect : command (result string unit)
| Begin : command (result string unit)
| Rollback : command (result string unit)
| Statement (w : write) : command (result string unit)
| Commit (guarded : bool) (p : nat) (ws : list write) : command (result wait_error unit)
| Fetch (p : nat) (request : ReplayRequest) (offset limit : Z) : command (result wait_error (list historical_row))
| CountEvents (request : ReplayRequest) : command (result string Z)
| FindActive (contractId : string) (ledger : Z) : command (result string (option ReplayCursor))
| CreateCursor (request : ReplayRequest) (total : Z) : command (result string ReplayCursor)
| UpsertResuming (id : string) (total : Z) : command (result string unit)
| InsertIfAbsent (id : string) (total : Z) : command (result string unit)
| FindMostRecentInProgress : command (result string (option ReplayRequest))
| FindLatestProgress : command (result string (option ReplayProgress))
| TryAcquire (p : nat) : command bool
| IsLeader (p : nat) : command bool
| ReleaseLease (p : nat) : command unit
| Sync (X : Type) (p : nat) (f : Z → process → X * process) : command X.

Notation call A := (eff command (result ReplayError A)).

(** Awaiting a statement: a rejection is thrown. *)
Definition await {A B} (c : command (result string A)) (k : A → call B) : call B :=
  Do c (λ r, match r with Ok a => k a | Err e => Done (Err (DbFailed e)) end).

(** ** The calls of one process *)

Section service.
Context (proc : nat) (batchSize maxRangeBlocks replayBudgetMs replayStopForcedTimeoutMs : Z).

Definition sync {X B} (f : Z → process → X * process) (k : X → call B) : call B := Do (Sync X proc f) k.

Definition guarded {A B} (c : command (result wait_error A)) (k : A → call B) : call B :=
  Do c (λ r, match r with
             | Ok a => k a
             | Err (Rejected e) => Done (Err (DbFailed e))
             | Err ForcedStop => Done (Err (ReplayForcedStop replayStopForcedTimeoutMs))
             end).

(** What node-postgres makes of a row: a [bigint] is a string. *)
Definition pg_row (h : historical_row) : list (string * pgval) :=
  [("event_id", PgVal (JStr (h_event_id h))); ("contract_id", PgVal (JStr (h_contract_id h)));
   ("ledger", PgVal (JNum (NumInt (h_ledger h)))); ("event_type", PgVal (JStr (h_event_type h)));
   ("event_data", PgVal (h_event_data h)); ("block_height", PgVal (JStr (int_string (h_block_height h))));
   ("transaction_hash", PgVal (JStr (h_transaction_hash h)))].

(** The columns [fetchEventBatch] selects. *)
Definition rowToContractEvent (row : list (string * pgval)) : result RowMappingError ContractEvent :=
  let table := "historical_events" in
  event_id ← requireString table row "event_id";
  contract_id ← requireString table row "contract_id";
  ledger ← requireInt table row "ledger" {| ib_min := Some 0; ib_max := Some INT32_MAX |};
  event_type ← requireString table row "event_type";
  event_data ← requireJsonObject table row "event_data";
  block_height ← requireInt table row "block_height" {| ib_min := Some 0; ib_max := Some BIGINT_SAFE_MAX |};
  transaction_hash ← requireString table row "transaction_hash";
  Ok {| ce_event_id := event_id; ce_contract_id := contract_id; ce_ledger := ledger; ce_event_type := event_type;
        ce_event_data := event_data; ce_block_height := block_height; ce_transaction_hash := transaction_hash |}.

(** [result.rows.map(rowToContractEvent)]. *)
Definition map_rows (rows : list historical_row) : result RowMappingError (list ContractEvent) :=
  result_map_list (λ h, rowToContractEvent (pg_row h)) rows.

Definition stop_requested {B} (k : bool → call B) : call B := sync (λ _ p, (isReplayStopRequested p, p)) k.

(** The outcome of a batch: [rowsFetched] and [aborted]. *)
Definition roll_back (r : Z * bool) : call (Z * bool) := await Rollback (λ _, Done (Ok r)).

(** The [try] block of [processBatch]. *)
Definition batch_body (cursorId : string) (request : ReplayRequest) (offset : Z) : call (Z * bool) :=
  await Begin (λ _,
  stop_requested (λ stop, if stop then roll_back (0, true) else
  guarded (Fetch proc request offset batchSize) (λ rows,
  match map_rows rows with
  | Err e => Done (Err (BadRow e))
  | Ok [] => roll_back (0, false)
  | Ok events =>
      stop_requested (λ stop, if stop then roll_back (0, true) else
      let newOffset := offset + Z.of_nat (length events) in
      let insert := InsertEvents events in
      let move := AdvanceOffset cursorId newOffset in
      let touch := TouchUpdatedAt cursorId in
      await (Statement insert) (λ _,
      await (Statement move) (λ _,
      await (Statement touch) (λ _,
      stop_requested (λ stop, if stop then roll_back (0, true) else
      guarded (Commit true proc [insert; move; touch]) (λ _,
      Done (Ok (Z.of_nat (length events), false))))))))
  end))).

(** [catch (error) { ROLLBACK, ignoring its errors; throw error }]. *)
Definition or_roll_back {A} (body : call A) : call A :=
  eff_then body (λ r, match r with Ok a => Done (Ok a) | Err e => Do Rollback (λ _, Done (Err e)) end).

Definition processBatch (cursorId : string) (request : ReplayRequest) (offset : Z) : call (Z * bool) :=
  await Connect (λ _, or_roll_back (batch_body cursorId request offset)).

Definition completeCursor (cursorId : string) : call unit :=
  await Connect (λ _, or_roll_back (
    await Begin (λ _,
    await (Statement (CursorCompleted cursorId)) (λ _,
    await (Statement (ProgressCompleted cursorId)) (λ _,
    guarded (Commit false proc [CursorCompleted cursorId; ProgressCompleted cursorId]) (λ _, Done (Ok tt))))))).

Definition resolveOrCreateCursor (request : ReplayRequest) : call (ReplayCursor * Z) :=
  await Connect (λ _,
  await (FindActive (rq_contract_id request) (rq_ledger request)) (λ existing,
  match existing with
  | Some c => await (UpsertResuming (cu_id c) (cu_total_rows c)) (λ _, Done (Ok (c, cu_total_rows c)))
  | None =>
      await (CountEvents request) (λ total,
      await (CreateCursor request total) (λ c,
      await (InsertIfAbsent (cu_id c) total) (λ _, Done (Ok (c, total)))))
  end)).

(** How the loop of batches ends: [stoppedByRequest], or not. *)
Inductive loop_end : Type := Stopped | Ended.

(** A batch commits at least one row, so [totalRows] rounds are enough. *)
Fixpoint replay_loop (fuel : nat) (cursorId : string) (request : ReplayRequest) (total start offset : Z) : call loop_end :=
  if negb (offset <? total) then Done (Ok Ended) else
  match fuel with
  | O => Done (Err OutOfFuel)
  | S fuel =>
      stop_requested (λ stop, if stop then Done (Ok Stopped) else
      Do (IsLeader proc) (λ leader, if negb leader then Done (Ok Ended) else
      sync (λ now p, (now, p)) (λ now,
      if (0 <? replayBudgetMs) && (replayBudgetMs <=? now - start)
      then Done (Err (ReplayBudgetExceeded replayBudgetMs (now - start)))
      else try_bind (processBatch cursorId request offset) (λ batchResult,
        if batchResult.2 then Done (Ok Stopped)
        else if batchResult.1 =? 0 then Done (Ok Ended)
        else
          let newOffset := offset + batchResult.1 in
          sync (λ now p, (tt, set_progress (updateProgress now newOffset) p)) (λ _,
          replay_loop fuel cursorId request total start newOffset)))))
  end.

Definition end_replay {B} (k : call B) : call B := sync (λ _ p, (tt, set_progress endReplay p)) (λ _, k).

(** The [try] block of [replayEvents]. *)
Definition replay_body (request : ReplayRequest) (start : Z) : call unit :=
  try_bind (resolveOrCreateCursor request) (λ '(cursor, total),
    if total =? 0 then try_bind (completeCursor (cu_id cursor)) (λ _, end_replay (Done (Ok tt)))
    else
      sync (λ now p, (tt, set_progress (λ _, startReplay now total (rq_contract_id request) (rq_ledger request)
                                             (cu_id cursor) (cu_last_committed_offset cursor)) p)) (λ _,
      try_bind (replay_loop (Z.to_nat total) (cu_id cursor) request total start (cu_last_committed_offset cursor)) (λ e,
        match e with
        | Ended => try_bind (completeCursor (cu_id cursor)) (λ _, end_replay (Done (Ok tt)))
        | Stopped => end_replay (Done (Ok tt))
        end))).

(** What the synchronous beginning of [replayEvents] decides. *)
Inductive entry : Type := Cancelled | Refused (e : ReplayError) | Entered.

Definition enter (request : ReplayRequest) (_ : Z) (p : process) : entry * process :=
  if isReplayStopRequested p then (Cancelled, resetStopReplay p)
  else match validateReplayRequest request maxRangeBlocks with
       | Err e => (Refused e, p)
       | Ok _ => if replayLock p then (Refused AlreadyInProgress, p) else (Entered, set_lock true p)
       end.

Definition unlock {B} (k : call B) : call B := sync (λ _ p, (tt, set_lock false p)) (λ _, k).

(** The [finally] block. *)
Definition leave (r : result ReplayError unit) : call unit :=
  unlock (Do (ReleaseLease proc) (λ _,
    sync (λ _ p, (tt, if isReplayStopRequested p then resetStopReplay p else p)) (λ _, Done r))).

Definition replayEvents (request : ReplayRequest) : call unit :=
  sync (enter request) (λ e,
    match e with
    | Cancelled => Done (Ok tt)
    | Refused err => Done (Err err)
    | Entered =>
        Do (TryAcquire proc) (λ leader,
          if negb leader then unlock (Done (Err IndexerNotLeader))
          else sync (λ now p, (now, p)) (λ start,
            eff_then (replay_body request start) (λ r,
              match r with Ok _ => leave r | Err _ => end_replay (leave r) end)))
    end).

(** The request to replay, which the caller does not await. *)
Definition resumeIncompleteReplay : call (option ReplayRequest) :=
  Do (TryAcquire proc) (λ leader,
    if negb leader then Done (Ok None)
    else await Connect (λ _, Do FindMostRecentInProgress (λ r,
           match r with Ok found => Done (Ok found) | Err _ => Done (Ok None) end))).

Definition getReplayProgressExtended : call ReplayProgress :=
  sync (λ _ p, (replayState p, p)) (λ inMemory,
    if isReplaying inMemory then Done (Ok inMemory)
    else await Connect (λ _, Do FindLatestProgress (λ r,
           match r with Ok (Some latest) => Done (Ok latest) | _ => Done (Ok inMemory) end))).

(** At startup; the caller does not wait for the replay it finds. *)
Definition startup : call unit :=
  try_bind resumeIncompleteReplay (λ found, match found with Some request => replayEvents request | None => Done (Ok tt) end).

Definition stop : call unit := sync (λ now p, (tt, requestStopReplay now p)) (λ _, Done (Ok tt)).

End service.

(** What a process is asked to do, with the configuration of all of them. *)
Inductive operation : Type := Replay (request : ReplayRequest) | Startup | Progress | StopReplay.

Definition serve (batchSize maxRangeBlocks replayBudgetMs replayStopForcedTimeoutMs : Z) (o : nat * operation) : call unit :=
  match o.2 with
  | Replay request => replayEvents o.1 batchSize maxRangeBlocks replayBudgetMs replayStopForcedTimeoutMs request
  | Startup => startup o.1 batchSize maxRangeBlocks replayBudgetMs replayStopForcedTimeoutMs
  | Progress => try_bind (getReplayProgressExtended o.1) (λ _, Done (Ok tt))
  | StopReplay => stop o.1
  end.

(** ** The environment *)

Record world : Type := { w_db : database; w_proc : nat → process }.
Definition with_db (d : database) (w : world) : world := {| w_db := d; w_proc := w_proc w |}.
Definition with_proc (i : nat) (p : process) (w : world) : world :=
  {| w_db := w_db w; w_proc := λ j, if decide (j = i) then p else w_proc w j |}.

Section environment.
Context (collate : string → string → Prop) `{!RelDecision collate} (source : list historical_row) (batchSize : Z).

Definition matches (request : ReplayRequest) (h : historical_row) : bool :=
  bool_decide (h_contract_id h = rq_contract_id request) && (h_ledger h =? rq_ledger request)
  && match rq_from_block request with Some b => b <=? h_block_height h | None => true end
  && match rq_to_block request with Some b => h_block_height h <=? b | None => true end.

(** [ORDER BY block_height ASC, event_id ASC]. *)
Definition replay_order (a b : historical_row) : Prop :=
  h_block_height a < h_block_height b ∨ (h_block_height a = h_block_height b ∧ collate (h_event_id a) (h_event_id b)).
#[export] Instance replay_order_dec : RelDecision replay_order.
Proof. intros a b. unfold replay_order. apply _. Defined.

Definition selected (request : ReplayRequest) : list historical_row :=
  merge_sort replay_order (filter (λ h, matches request h = true) source).

(** [LIMIT limit OFFSET offset]. *)
Definition page (request : ReplayRequest) (offset limit : Z) : list historical_row :=
  take (Z.to_nat limit) (drop (Z.to_nat offset) (selected request)).

(** The answers the lease may give, and whether the database may fail. *)
Context (acquires leads : nat → bool → Prop) (faulty : Prop).

Definition replied {A E} (fail : E → Prop) (a : A) (r : result E A) : Prop := r = Ok a ∨ ∃ e, r = Err e ∧ fail e.

(** A statement that only reads, and one that commits by itself. *)
Definition reads {A E} (fail : E → Prop) (P : A → Prop) (w : world) (r : result E A) (w' : world) : Prop :=
  w' = w ∧ ((∃ a, P a ∧ r = Ok a) ∨ ∃ e, r = Err e ∧ fail e).
Definition writes {A E} (fail : E → Prop) (P : A → database → Prop) (w : world) (r : result E A) (w' : world) : Prop :=
  (w' = w ∧ ∃ e, r = Err e ∧ fail e) ∨ ∃ a d, P a d ∧ w' = with_db d w ∧ replied fail a r.

Definition rejected (_ : string) : Prop := faulty.
(** A guarded wait is only given up after a stop was requested. *)
Definition given_up (guarded : bool) (p : process) (e : wait_error) : Prop :=
  match e with Rejected _ => faulty | ForcedStop => guarded = true ∧ isReplayStopRequested p = true end.

(** The row [ORDER BY time DESC LIMIT 1] returns. *)
Definition newest {A} (time : A → Z) (l : list A) (r : option A) : Prop :=
  match r with Some a => a ∈ l ∧ ∀ b, b ∈ l → time b <= time a | None => l = [] end.

Definition command_step X (c : command X) (w : world) : X → world → Prop :=
  match c in command X return X → world → Prop with
  | Connect | Begin | Rollback | Statement _ => λ r w', reads rejected (λ _, True) w r w'
  | Commit guarded p ws => λ r w',
      writes (given_up guarded (w_proc w p)) (λ _ d, ∃ now, d = apply_writes now ws (w_db w)) w r w'
  | Fetch p request offset limit => λ r w',
      reads (given_up true (w_proc w p)) (λ rows, rows = page request offset limit) w r w'
  | CountEvents request => λ r w', reads rejected (λ n, n = Z.of_nat (length (selected request))) w r w'
  | FindActive contractId ledger => λ r w', reads rejected (newest cu_started_at (findActive contractId ledger (w_db w))) w r w'
  | CreateCursor request total => λ r w',
      writes rejected (λ c d, ∃ id now, id ∉ cu_id <$> replay_cursors (w_db w) ∧ c = new_cursor id request total now ∧
                                      d = add_cursor c (w_db w)) w r w'
  | UpsertResuming id total => λ r w', writes rejected (λ _ d, ∃ now, d = upsertResuming id total now (w_db w)) w r w'
  | InsertIfAbsent id total => λ r w', writes rejected (λ _ d, ∃ now, d = insertIfAbsent id total now (w_db w)) w r w'
  | FindMostRecentInProgress => λ r w',
      reads rejected (λ o, ∃ o', newest (λ x, ck_started_at x.1) (filter (λ x, ck_status x.1 = InProgress) (joined (w_db w))) o' ∧
                                 o = (λ x, request_of x.2) <$> o') w r w'
  | FindLatestProgress => λ r w',
      reads rejected (λ o, ∃ o', newest (λ x, ck_updated_at x.1) (joined (w_db w)) o' ∧ o = (λ x, progress_of x.1 x.2) <$> o') w r w'
  | TryAcquire p => λ b w', w' = w ∧ acquires p b
  | IsLeader p => λ b w', w' = w ∧ leads p b
  | ReleaseLease _ => λ _ w', w' = w
  | Sync _ p f => λ x w', ∃ now, x = (f now (w_proc w p)).1 ∧ w' = with_proc p (f now (w_proc w p)).2 w
  end.

(** ** Invariants *)

Notation step := command_step.

(** The events of these rows are stored. *)
Definition stored (l : list historical_row) (d : database) : Prop := ∀ h, h ∈ l → is_Some (contract_events d !! h_event_id h).

(** One range of blocks for every contract and ledger. *)
Context (range : string → Z → option Z * option Z).
Definition in_range (request : ReplayRequest) : Prop :=
  (rq_from_block request, rq_to_block request) = range (rq_contract_id request) (rq_ledger request).

(** The lease is never reported lost, and batches are not empty. *)
Definition kept : Prop := (∀ p, ¬ leads p false) ∧ 0 < batchSize.

(** The rows a cursor has passed are stored, and all of them once it is completed,
    if [kept]. *)
Record cursor_sound (d : database) (c : ReplayCursor) : Prop := {
  cs_offset : 0 <= cu_last_committed_offset c;
  cs_range : in_range (request_of c);
  cs_total : cu_total_rows c = Z.of_nat (length (selected (request_of c)));
  cs_stored : stored (take (Z.to_nat (cu_last_committed_offset c)) (selected (request_of c))) d;
  cs_completed : kept → is_Some (cu_completed_at c) → stored (selected (request_of c)) d;
}.
Record sound (d : database) : Prop := {
  so_ids : NoDup (cu_id <$> replay_cursors d);
  so_cursors : ∀ c, c ∈ replay_cursors d → cursor_sound d c;
}.

(** A cursor keeps what identifies it, and moves forward. *)
Definition cursor_moves (c c' : ReplayCursor) : Prop :=
  cu_id c' = cu_id c ∧ request_of c' = request_of c ∧ cu_total_rows c' = cu_total_rows c ∧
  cu_last_committed_offset c <= cu_last_committed_offset c' ∧ (is_Some (cu_completed_at c) → is_Some (cu_completed_at c')).

Record moves (d d' : database) : Prop := {
  mv_events : contract_events d ⊆ contract_events d';
  mv_cursors : ∀ c, c ∈ replay_cursors d → ∃ c', c' ∈ replay_cursors d' ∧ cursor_moves c c';
}.

Definition evolves (w w' : world) : Prop := sound (w_db w) → sound (w_db w') ∧ moves (w_db w) (w_db w').

Lemma cursor_moves_refl c : cursor_moves c c.
Proof. by unfold cursor_moves. Qed.
Lemma moves_refl d : moves d d.
Proof. split; [done|]. intros c Hc. exists c. auto using cursor_moves_refl. Qed.
Lemma moves_trans d d' d'' : moves d d' → moves d' d'' → moves d d''.
Proof.
  intros [H1 C1] [H2 C2]. split; [by etrans|]. intros c Hc. destruct (C1 c Hc) as (c' & Hc' & Hm). destruct (C2 c' Hc') as (c'' & Hc'' & Hm').
  exists c''. split; [done|]. destruct Hm as (E1 & E2 & E3 & L & P), Hm' as (F1 & F2 & F3 & L' & P'). unfold cursor_moves.
  rewrite F1, F2, F3. splits; [done|done|done|lia|auto].
Qed.
Lemma evolves_rtc w w' : rtc evolves w w' → evolves w w'.
Proof.
  intros Hw. induction Hw as [w|w1 w2 w3 Hst _ IH]; intros Hs; [auto using moves_refl|].
  destruct (Hst Hs) as [Hs2 Hm]. destruct (IH Hs2). split; [done|by eapply moves_trans].
Qed.

Lemma stored_mono l d d' : contract_events d ⊆ contract_events d' → stored l d → stored l d'.
Proof. intros Hd Hs h Hh. destruct (Hs h Hh) as [e He]. exists e. by eapply lookup_weaken. Qed.

Lemma same_sound d d' : contract_events d' = contract_events d → replay_cursors d' = replay_cursors d → sound d → sound d' ∧ moves d d'.
Proof.
  intros He Hc [Hi Hs]. split; split; rewrite ?Hc, ?He; [done| |done|intros c H; exists c; auto using cursor_moves_refl].
  intros c Hin. destruct (Hs c Hin) as [? ? ? Hst Hco]. split; [done|done|done| |]; unfold stored; rewrite He; [done|]. intros. by apply Hco.
Qed.

(** The cursor [id] of [request] exists and the rows before [o] are stored. *)
Definition known (id : string) (request : ReplayRequest) (o : Z) (w : world) : Prop :=
  0 <= o ∧ stored (take (Z.to_nat o) (selected request)) (w_db w) ∧ sound (w_db w) ∧
  ∃ c, c ∈ replay_cursors (w_db w) ∧ cu_id c = id ∧ request_of c = request.

Lemma known_later id request o w w' : rtc evolves w w' → known id request o w → known id request o w'.
Proof.
  intros Hw%evolves_rtc (Ho & Hs & Hd & c & Hc & Hid & Hrq). destruct (Hw Hd) as [Hd' [He Hm]]. destruct (Hm c Hc) as (c' & Hc' & Hid' & Hrq' & _).
  split; [done|]. split; [by eapply stored_mono|]. split; [done|]. exists c'. splits; [done|congruence|congruence].
Qed.

Lemma sound_later w w' : rtc evolves w w' → sound (w_db w) → sound (w_db w').
Proof. intros Hw%evolves_rtc Hs. by apply Hw. Qed.

(** *** Lemmas: what the writes do *)
Lemma insert_event_mono m e : m ⊆ insert_event m e.
Proof. unfold insert_event. destruct (m !! ce_event_id e) eqn:He; [done|by apply insert_subseteq]. Qed.

Lemma insert_event_is_Some m e : is_Some (insert_event m e !! ce_event_id e).
Proof. unfold insert_event. destruct (m !! ce_event_id e) eqn:He; [by rewrite He; eexists|by rewrite lookup_insert_eq; eexists]. Qed.

Lemma insert_events_spec es m : m ⊆ insert_events es m ∧ ∀ e, e ∈ es → is_Some (insert_events es m !! ce_event_id e).
Proof.
  unfold insert_events. revert m. induction es as [|e es IH]; intros m; simpl; [split; [done|by intros ? ?%elem_of_nil]|].
  destruct (IH (insert_event m e)) as [Hm He]. split; [etrans; [apply insert_event_mono|done]|].
  intros e' [->|Hin]%elem_of_cons; [|by apply He]. destruct (insert_event_is_Some m e) as [x Hx]. exists x. by eapply lookup_weaken.
Qed.

Lemma row_event_id h e : rowToContractEvent (pg_row h) = Ok e → ce_event_id e = h_event_id h.
Proof.
  unfold rowToContractEvent. intros Hr. repeat match type of Hr with (?x ≫= _) = _ => destruct x eqn:?; simpl in Hr; [|done] end.
  injection Hr as <-. simpl. revert select (requireString _ _ "event_id" = _). unfold requireString, required. simpl. case_match; [done|by intros [= <-]].
Qed.

Lemma map_rows_ids rows es : map_rows rows = Ok es → ce_event_id <$> es = h_event_id <$> rows.
Proof.
  unfold map_rows. revert es. induction rows as [|h rows IH]; intros es; simpl; [by intros [= <-]|].
  destruct (rowToContractEvent (pg_row h)) as [e|] eqn:He; [|done]. destruct (result_map_list _ rows) as [es'|]; [|done].
  intros [= <-]. simpl. f_equal; [by apply row_event_id|by apply IH].
Qed.

Lemma take_length_take {A} k (l : list A) : take (length (take k l)) l = take k l.
Proof. rewrite length_take. destruct (Nat.min_spec k (length l)) as [[_ ->]|[? ->]]; [done|]. by rewrite !take_ge by lia. Qed.

Lemma page_empty request o : 0 < batchSize → page request o batchSize = [] → take (Z.to_nat o) (selected request) = selected request.
Proof.
  intros Hb Hp. apply take_ge. apply (f_equal length) in Hp. unfold page in Hp. rewrite length_take, length_drop in Hp. simpl in Hp. lia.
Qed.

(** *** What a write does to the invariant *)
Lemma advance_moves id n c : cursor_moves c (advance id n c).
Proof. unfold advance, cursor_moves. case_bool_decide; simpl; splits; try done; lia. Qed.
Lemma complete_moves id now c : cursor_moves c (complete id now c).
Proof. unfold complete, cursor_moves. case_bool_decide; simpl; splits; try done; eauto. Qed.

(** An update of the cursor [id] keeps [sound] when it does so for that cursor. *)
Lemma update_sound f d d' : contract_events d ⊆ contract_events d' → replay_cursors d' = f <$> replay_cursors d →
  (∀ c, cursor_moves c (f c)) → (∀ c, c ∈ replay_cursors d → cursor_sound d c → cursor_sound d' (f c)) → sound d → sound d' ∧ moves d d'.
Proof.
  intros He Hc Hm Hf [Hi Hs]. split; split; rewrite ?Hc; [| |done|].
  - rewrite <- list_fmap_compose. replace (cu_id ∘ f <$> replay_cursors d) with (cu_id <$> replay_cursors d); [done|].
    apply list_fmap_ext. intros i c _. symmetry. apply Hm.
  - intros c (c0 & -> & Hin)%list_elem_of_fmap. auto.
  - intros c Hin. exists (f c). split; [by apply list_elem_of_fmap_2|done].
Qed.

Lemma sound_later_cursor d d' c : contract_events d ⊆ contract_events d' → cursor_sound d c → cursor_sound d' c.
Proof. intros He [H1 H2 H3 H4 H5]. split; eauto using stored_mono. Qed.

Lemma batch_sound id request o rows es now d d' :
  0 <= o → stored (take (Z.to_nat o) (selected request)) d → (∀ c, c ∈ replay_cursors d → cu_id c = id → request_of c = request) →
  rows = page request o batchSize → map_rows rows = Ok es →
  d' = apply_writes now [InsertEvents es; AdvanceOffset id (o + Z.of_nat (length es)); TouchUpdatedAt id] d → sound d →
  (sound d' ∧ moves d d') ∧ stored (take (Z.to_nat (o + Z.of_nat (length es))) (selected request)) d'.
Proof.
  intros Ho Hst Hid Hrows Hes Hd' Hd. apply map_rows_ids in Hes. destruct (insert_events_spec es (contract_events d)) as [Hsub Hin].
  assert (contract_events d' = insert_events es (contract_events d)) as Hce by by subst d'.
  assert (length es = length rows) as Hlen by by rewrite <- (length_fmap ce_event_id es), Hes, length_fmap.
  assert (stored (take (Z.to_nat (o + Z.of_nat (length es))) (selected request)) d') as Hnew.
  { rewrite Hlen, Hrows. unfold page. set (l := selected request). set (n := Z.to_nat batchSize).
    replace (Z.to_nat (o + Z.of_nat (length (take n (drop (Z.to_nat o) l)))))
      with (Z.to_nat o + length (take n (drop (Z.to_nat o) l)))%nat by lia.
    rewrite <- take_take_drop, take_length_take. intros h [Hh|Hh]%elem_of_app; [by eapply stored_mono; [|exact Hst|]; rewrite ?Hce|].
    change (h ∈ page request o batchSize) in Hh. rewrite <- Hrows in Hh. apply (list_elem_of_fmap_2 h_event_id) in Hh.
    rewrite <- Hes in Hh. apply list_elem_of_fmap in Hh as (e & He & Hine).
    rewrite He, Hce. by apply Hin. }
  split; [|done].
  apply (update_sound (advance id (o + Z.of_nat (length es)))); [by rewrite Hce|by subst d'|apply advance_moves| |done].
  intros c Hc Hcs. pose proof (sound_later_cursor d d' c ltac:(by rewrite Hce) Hcs) as Hcs'. unfold advance. case_bool_decide as Hi; [|done].
  destruct Hcs' as [H1 H2 H3 H4 H5]. split; simpl; [lia|done|done| |done]. change (request_of _) with (request_of c).
  destruct (Z.max_spec (cu_last_committed_offset c) (o + Z.of_nat (length es))) as [[_ ->]|[_ ->]]; [|done].
  by rewrite (Hid c Hc Hi).
Qed.

Lemma complete_sound id request now d d' :
  (∀ c, c ∈ replay_cursors d → cu_id c = id → request_of c = request) → (kept → stored (selected request) d) →
  d' = apply_writes now [CursorCompleted id; ProgressCompleted id] d → sound d → sound d' ∧ moves d d'.
Proof.
  intros Hid Hall -> Hd. apply (update_sound (complete id now)); [done|done|apply complete_moves| |done].
  intros c Hc Hcs. unfold complete. case_bool_decide as Hi; [|by apply (sound_later_cursor d)].
  destruct Hcs as [H1 H2 H3 H4 H5]. split; simpl; [done|done|done|done|]. change (request_of _) with (request_of c). rewrite (Hid c Hc Hi). auto.
Qed.

Lemma add_sound id request now d : in_range request → id ∉ cu_id <$> replay_cursors d →
  let c := new_cursor id request (Z.of_nat (length (selected request))) now in
  sound d → sound (add_cursor c d) ∧ moves d (add_cursor c d).
Proof.
  intros Hr Hid c [Hi Hs]. assert (request_of c = request) as Hrq by by destruct request. split; split; simpl.
  - rewrite fmap_app. simpl. apply NoDup_app. splits; [done| |apply NoDup_singleton]. by intros x Hx Hx'%list_elem_of_singleton; subst x.
  - intros c' [Hc|Hc%list_elem_of_singleton]%elem_of_app; [by apply (sound_later_cursor d), Hs|subst c'].
    split; rewrite ?Hrq; simpl; [done|done|done|by intros h Hh%not_elem_of_nil|by intros _ []].
  - done.
  - intros c' Hc. exists c'. split; [apply elem_of_app; by left|apply cursor_moves_refl].
Qed.

(** A cursor's request is determined by its contract and ledger. *)
Lemma same_range c request : in_range (request_of c) → in_range request → cu_contract_id c = rq_contract_id request →
  cu_ledger c = rq_ledger request → request_of c = request.
Proof.
  intros Hc Hr Hi Hl. unfold in_range in *. simpl in Hc. rewrite Hi, Hl, <- Hr in Hc. injection Hc as Hf Ht.
  unfold request_of. rewrite Hi, Hl, Hf, Ht. by destruct request.
Qed.

Lemma unique_cursor id request d c : sound d → c ∈ replay_cursors d → cu_id c = id → request_of c = request →
  ∀ c', c' ∈ replay_cursors d → cu_id c' = id → request_of c' = request.
Proof.
  intros [Hi _] Hc Hid Hrq c' Hc' Hid'. apply list_elem_of_lookup in Hc as [i Hl], Hc' as [j Hl'].
  assert (i = j) as ->; [|congruence].
  apply (NoDup_lookup _ i j id Hi); rewrite list_lookup_fmap, ?Hl, ?Hl'; simpl; congruence.
Qed.

Lemma newest_elem {A} (time : A → Z) l a : newest time l (Some a) → a ∈ l.
Proof. by intros [? _]. Qed.

(** *** Safety of one call *)

Notation safe := (safe step evolves).

(** What a call promises when it returns. *)
Definition on_ok {A} (P : A → world → Prop) (r : result ReplayError A) (w : world) : Prop :=
  match r with Ok a => P a w | Err _ => True end.

Lemma evolves_refl w : evolves w w.
Proof. intros Hs. split; [done|apply moves_refl]. Qed.
Lemma evolves_with_proc i p w : evolves w (with_proc i p w).
Proof. intros Hs. split; [done|apply (moves_refl (w_db w))]. Qed.

Lemma safe_await_reads {A B} (Q : B → world → Prop) (P : world → A → Prop) (c : command (result string A)) (k : A → call B) w :
  (∀ w1 r w2, step _ c w1 r w2 → reads rejected (P w1) w1 r w2) →
  (∀ a w1, rtc evolves w w1 → P w1 a → safe (on_ok Q) (k a) w1) → safe (on_ok Q) (await c k) w.
Proof.
  intros Hc Hk w1 r w2 Hw Hst. destruct (Hc _ _ _ Hst) as [-> [(a & Ha & ->)|(e & -> & _)]]; (split; [apply evolves_refl|]); [by apply Hk|done].
Qed.

Lemma safe_await_writes {A B} (Q : B → world → Prop) (P : world → A → database → Prop) (c : command (result string A)) (k : A → call B) w :
  (∀ w1 r w2, step _ c w1 r w2 → writes rejected (P w1) w1 r w2) →
  (∀ a d w1, rtc evolves w w1 → P w1 a d → evolves w1 (with_db d w1) ∧ (rtc evolves w (with_db d w1) → safe (on_ok Q) (k a) (with_db d w1))) →
  safe (on_ok Q) (await c k) w.
Proof.
  intros Hc Hk w1 r w2 Hw Hst. destruct (Hc _ _ _ Hst) as [(-> & e & -> & _)|(a & d & Hp & -> & Hr)]; [split; [apply evolves_refl|done]|].
  destruct (Hk a d w1 Hw Hp) as [He Hs]. split; [done|]. destruct Hr as [->|(e & -> & _)]; [|done]. apply Hs. by eapply rtc_r.
Qed.

Lemma safe_after {A B} (Q : B → world → Prop) (P : A → world → Prop) (p : call A) (f : A → call B) w :
  safe (on_ok P) p w → (∀ a w1, P a w1 → safe (on_ok Q) (f a) w1) → safe (on_ok Q) (try_bind p f) w.
Proof. intros Hp Hf. apply safe_then. revert Hp. apply safe_weaken. intros [a|e] w1; simpl; [auto|done]. Qed.

Lemma safe_sync {A X} proc (Q : result ReplayError A → world → Prop) (f : Z → process → X * process) (k : X → call A) w :
  (∀ now w1, rtc evolves w w1 → safe Q (k (f now (w_proc w1 proc)).1) (with_proc proc (f now (w_proc w1 proc)).2 w1)) →
  safe Q (sync proc f k) w.
Proof. intros Hk w1 x w2 Hw (now & -> & ->). split; [apply evolves_with_proc|by apply Hk]. Qed.

Lemma safe_with_proc {A} (Q : result ReplayError A → world → Prop) (p : call A) i q w : safe Q p w → safe Q p (with_proc i q w).
Proof. apply safe_later, rtc_once, evolves_with_proc. Qed.

Lemma safe_roll_back P r w : (∀ w', rtc evolves w w' → P r w') → safe (on_ok P) (roll_back r) w.
Proof.
  intros HP. apply safe_await_reads with (P := λ _ _, True); [by intros ? ? ?|]. intros _ w1 Hw _ w2 Hw2. apply HP. by etrans.
Qed.

Lemma safe_or_roll_back {A} (P : A → world → Prop) (p : call A) w :
  (∀ a w1 w2, rtc evolves w1 w2 → P a w1 → P a w2) → safe (on_ok P) p w → safe (on_ok P) (or_roll_back p) w.
Proof.
  intros HP Hp. apply safe_then. revert Hp. apply safe_weaken. intros [a|e] w1 Ha; simpl.
  - intros w2 Hw. by eapply HP.
  - intros w2 x w3 Hw [-> _]. split; [apply evolves_refl|done].
Qed.

Ltac chain := solve [repeat first [eassumption | etrans; [eassumption|]]].

Section calls.
Context (proc : nat) (maxRangeBlocks replayBudgetMs replayStopForcedTimeoutMs : Z).

(** What a batch tells: the rows before its end are stored; no row means that none
    is left. *)
Definition batch_tells (id : string) (request : ReplayRequest) (o : Z) (r : Z * bool) (w : world) : Prop :=
  known id request (o + r.1) w ∧ (0 < batchSize → r = (0, false) → stored (selected request) (w_db w)).

Lemma tells_later id request o r w w' : rtc evolves w w' → batch_tells id request o r w → batch_tells id request o r w'.
Proof.
  intros Hw [Hk Hs]. split; [by eapply known_later|]. intros Hb Hr. pose proof (evolves_rtc _ _ Hw) as He.
  destruct Hk as (_ & _ & Hd & _). destruct (He Hd) as [_ [Hm _]]. eapply stored_mono; [exact Hm|auto].
Qed.

Lemma known_moves id request o w o' w' : evolves w w' → known id request o w → 0 <= o' →
  stored (take (Z.to_nat o') (selected request)) (w_db w') → known id request o' w'.
Proof. intros Hw Hk Ho Hs. destruct (known_later id request o w w' (rtc_once _ _ Hw) Hk) as (_ & _ & H). by split. Qed.

Lemma safe_batch id request o w : known id request o w →
  safe (on_ok (batch_tells id request o)) (processBatch proc batchSize replayStopForcedTimeoutMs id request o) w.
Proof.
  intros Hk. unfold processBatch. apply safe_await_reads with (P := λ _ _, True); [done|]. intros _ w1 Hw1 _.
  apply safe_or_roll_back; [intros ? ? ?; apply tells_later|]. apply (known_later _ _ _ _ _ Hw1) in Hk. clear Hw1 w. rename w1 into w.
  assert (∀ w', rtc evolves w w' → batch_tells id request o (0, true) w') as Habort.
  { intros w' Hw. split; [|done]. simpl. rewrite Z.add_0_r. by eapply known_later. }
  unfold batch_body. apply safe_await_reads with (P := λ _ _, True); [done|]. intros _ w1 Hw1 _. apply safe_sync. intros _ w2 Hw2. apply safe_with_proc. simpl.
  destruct (isReplayStopRequested _); [apply safe_roll_back; intros w3 Hw3; apply Habort; chain|].
  intros w3 r w4 Hw3 Hst. destruct Hst as [-> [(rows & Hrows & ->)|(e & -> & _)]]; (split; [apply evolves_refl|]); [|by destruct e].
  assert (rtc evolves w w3) as Hw by chain. clear Hw1 Hw2 Hw3 w1 w2.
  destruct (map_rows rows) as [events|] eqn:Hevents; [|done]. destruct events as [|e0 events0] eqn:Hne.
  { apply safe_roll_back. intros w4 Hw4. eapply tells_later; [exact Hw4|]. split; [simpl; rewrite Z.add_0_r; by eapply known_later|].
    intros Hb _. apply map_rows_ids in Hevents. destruct rows as [|h rows]; [|done]. symmetry in Hrows. 
    destruct (known_later _ _ _ _ _ Hw Hk) as (_ & Hst & _). by rewrite (page_empty _ _ Hb Hrows) in Hst. }
  assert (length events ≠ 0)%nat as Hsome by by rewrite Hne. rewrite <- Hne in *. clear e0 events0 Hne. apply safe_sync. intros _ w4 Hw4. apply safe_with_proc. simpl.
  destruct (isReplayStopRequested _); [apply safe_roll_back; intros w5 Hw5; apply Habort; chain|].
  do 3 (apply safe_await_reads with (P := λ _ _, True); [done|]; intros _ ? ? _).
  apply safe_sync. intros _ w5 Hw5. apply safe_with_proc. simpl.
  destruct (isReplayStopRequested _); [apply safe_roll_back; intros w6 Hw6; apply Habort; chain|].
  intros w6 r w7 Hw6 Hst. assert (rtc evolves w w6) as Hw' by chain.
  destruct Hst as [(-> & e & -> & _)|(u & d & [now Hd] & -> & Hr)]; [split; [apply evolves_refl|by destruct e]|].
  pose proof (known_later _ _ _ _ _ Hw' Hk) as Hk'. destruct Hk' as (Ho & Hst & Hd' & c & Hc & Hid & Hrq).
  destruct (batch_sound id request o rows events now (w_db w6) d Ho Hst (unique_cursor _ _ _ _ Hd' Hc Hid Hrq) Hrows Hevents Hd Hd') as [He Hst'].
  assert (evolves w6 (with_db d w6)) as Hew by by intros _. split; [done|]. destruct Hr as [->|(e & -> & _)]; [|by destruct e].
  intros w7 Hw7. eapply tells_later; [exact Hw7|]. split; [|intros _ [= ?]; lia]. simpl.
  eapply known_moves; [exact Hew|by eapply known_later|lia|done].
Qed.

Lemma safe_complete id request o w : known id request o w → (kept → stored (selected request) (w_db w)) →
  safe (on_ok (λ _ _, True)) (completeCursor proc replayStopForcedTimeoutMs id) w.
Proof.
  intros Hk Hall. unfold completeCursor. apply safe_await_reads with (P := λ _ _, True); [done|]. intros _ w1 Hw1 _. apply safe_or_roll_back; [done|].
  do 3 (apply safe_await_reads with (P := λ _ _, True); [done|]; intros _ ? ? _).
  intros w4 r w5 Hw4 Hst. assert (rtc evolves w w4) as Hw by chain. pose proof (known_later _ _ _ _ _ Hw Hk) as (Ho & Hs & Hd & c & Hc & Hid & Hrq).
  destruct Hst as [(-> & e & -> & _)|(u & d & [now Hnow] & -> & Hr)]; [split; [apply evolves_refl|by destruct e]|].
  assert (sound d ∧ moves (w_db w4) d) as He.
  { eapply complete_sound; [by eapply unique_cursor| |exact Hnow|done]. intros Hkept. eapply stored_mono; [|by apply Hall].
    destruct Hk as (_ & _ & Hd0 & _). destruct (evolves_rtc _ _ Hw Hd0) as [_ [Hm _]]. exact Hm. }
  split; [by intros _|]. destruct Hr as [->|(e & -> & _)]; [done|by destruct e].
Qed.

Lemma safe_resolve request w : in_range request → sound (w_db w) →
  safe (on_ok (λ '(c, total) w', known (cu_id c) request (cu_last_committed_offset c) w' ∧ total = Z.of_nat (length (selected request))))
    (resolveOrCreateCursor request) w.
Proof.
  intros Hr Hd. unfold resolveOrCreateCursor. apply safe_await_reads with (P := λ _ _, True); [done|]. intros _ w1 Hw1 _.
  eapply safe_await_reads; [intros ? ? ? H; exact H|]. intros existing w2 Hw2 Hn. assert (sound (w_db w2)) as Hd2 by (eapply sound_later; [|exact Hd]; chain).
  destruct existing as [c|]; simpl in Hn.
  - destruct Hn as [Hc _]. unfold findActive in Hc. apply list_elem_of_filter in Hc as [(Hi & Hl & _) Hc].
    destruct (so_cursors _ Hd2 _ Hc) as [Ho Hcr Htot Hst _]. pose proof (same_range c request Hcr Hr Hi Hl) as Hrq.
    eapply safe_await_writes; [intros ? ? ? H; exact H|]. intros u d w3 Hw3 [now ->]. split; [by intros Hs; apply same_sound|].
    intros Hw4 w5 Hw5. split; [|by rewrite Htot, Hrq]. simpl. eapply known_later; [etrans; [exact Hw4|exact Hw5]|].
    split; [done|]. split; [by rewrite <- Hrq|]. split; [done|]. by exists c.
  - eapply safe_await_reads; [intros ? ? ? H; exact H|]. intros total w3 Hw3 ->.
    eapply safe_await_writes; [intros ? ? ? H; exact H|]. intros c d w4 Hw4 (id & now & Hid & -> & ->).
    pose proof (add_sound id request now (w_db w4) Hr Hid) as Hadd. split; [by intros Hs; apply Hadd|]. intros Hw5.
    eapply safe_await_writes; [intros ? ? ? H; exact H|]. intros u d w6 Hw6 [now' ->]. split; [by intros Hs; apply same_sound|].
    intros Hw7 w8 Hw8. split; [|done]. eapply known_later; [etrans; [exact Hw7|exact Hw8]|]. simpl. split; [done|].
    split; [by intros h Hh%not_elem_of_nil|]. split; [simpl; apply Hadd; eapply sound_later; [|exact Hd]; chain|].
    eexists. split; [simpl; apply elem_of_app; right; by apply list_elem_of_singleton|]. split; [done|by destruct request].
Qed.

(** What the end of the loop tells. *)
Definition end_tells (id : string) (request : ReplayRequest) (e : loop_end) (w : world) : Prop :=
  known id request 0 w ∧ (e = Ended → kept → stored (selected request) (w_db w)).

Lemma known_zero id request o w : known id request o w → known id request 0 w.
Proof. intros (_ & _ & H). split; [done|]. split; [by intros h Hh%not_elem_of_nil|done]. Qed.

Lemma end_later id request e w w' : rtc evolves w w' → end_tells id request e w → end_tells id request e w'.
Proof.
  intros Hw [Hk Hs]. split; [by eapply known_later|]. intros He Hkept. destruct Hk as (_ & _ & Hd & _).
  destruct (evolves_rtc _ _ Hw Hd) as [_ [Hm _]]. eapply stored_mono; [exact Hm|auto].
Qed.

Lemma safe_loop id request start fuel : ∀ o w, known id request o w →
  safe (on_ok (end_tells id request))
    (replay_loop proc batchSize replayBudgetMs replayStopForcedTimeoutMs fuel id request (Z.of_nat (length (selected request))) start o) w.
Proof.
  set (total := Z.of_nat (length (selected request))).
  assert (∀ o w, known id request o w → total <= o → safe (on_ok (end_tells id request)) (Done (Ok Ended)) w) as Hdone.
  { intros o w Hk Hle w' Hw. eapply end_later; [exact Hw|]. split; [by eapply known_zero|]. intros _ _. destruct Hk as (_ & Hst & _).
    rewrite take_ge in Hst by lia. done. }
  induction fuel as [|fuel IH]; intros o w Hk; cbn [replay_loop]; destruct (Z.ltb_spec o total); cbn [negb]; [by intros w' _|by eapply Hdone| |by eapply Hdone].
  apply safe_sync. intros _ w1 Hw1. apply safe_with_proc. simpl. apply (known_later _ _ _ _ _ Hw1) in Hk. clear Hw1 w.
  destruct (isReplayStopRequested _).
  { intros w2 Hw2. eapply end_later; [exact Hw2|]. split; [by eapply known_zero|done]. }
  intros w2 leader w3 Hw2 [-> Hlead]. split; [apply evolves_refl|]. apply (known_later _ _ _ _ _ Hw2) in Hk. clear Hw2 w1.
  destruct leader; cbn [negb]; cycle 1.
  { intros w3 Hw3. eapply end_later; [exact Hw3|]. split; [by eapply known_zero|]. intros _ [Hno _]. by destruct (Hno proc). }
  apply safe_sync. intros now w3 Hw3. apply safe_with_proc. simpl. apply (known_later _ _ _ _ _ Hw3) in Hk. clear Hw3.
  destruct (_ && _); [done|]. eapply safe_after; [by apply safe_batch|]. intros [n aborted] w4 [Hk' Hempty]. simpl in *.
  destruct aborted. { intros w5 Hw5. eapply end_later; [exact Hw5|]. split; [by eapply known_zero|done]. }
  destruct (Z.eqb_spec n 0) as [->|Hn].
  { intros w5 Hw5. eapply end_later; [exact Hw5|]. split; [by eapply known_zero|]. intros _ [_ Hb]. auto. }
  apply safe_sync. intros now5 w5 Hw5. apply safe_with_proc. simpl. apply IH. by eapply known_later.
Qed.

Lemma safe_leave r w : safe (on_ok (λ _ _, True)) (leave proc r) w.
Proof.
  unfold leave, unlock. apply safe_sync. intros _ w1 _. apply safe_with_proc. intros w2 u w3 _ ->. split; [apply evolves_refl|].
  apply safe_sync. intros _ w4 _. apply safe_with_proc. by destruct r.
Qed.

Lemma safe_end_replay (k : call unit) w : (∀ w', rtc evolves w w' → safe (on_ok (λ _ _, True)) k w') →
  safe (on_ok (λ _ _, True)) (end_replay proc k) w.
Proof. intros Hk. unfold end_replay. apply safe_sync. intros _ w1 Hw1. apply safe_with_proc. by apply Hk. Qed.

Lemma safe_body request start w : in_range request → sound (w_db w) →
  safe (on_ok (λ _ _, True)) (replay_body proc batchSize replayBudgetMs replayStopForcedTimeoutMs request start) w.
Proof.
  intros Hr Hd. unfold replay_body. eapply safe_after; [by apply safe_resolve|]. intros [c total] w1 [Hk ->].
  set (total := Z.of_nat (length (selected request))).
  destruct (Z.eqb_spec total 0) as [Hz|Hz].
  { eapply safe_after; [|intros _ w2 _; by apply safe_end_replay]. eapply safe_complete; [exact Hk|]. intros _ h Hh.
    destruct (selected request) eqn:Hsel; [by apply not_elem_of_nil in Hh|unfold total in Hz; simpl in Hz; lia]. }
  apply safe_sync. intros now w2 Hw2. apply safe_with_proc. eapply safe_after; [apply safe_loop; by eapply known_later|].
  intros e w3 [Hk3 Hend]. destruct e; [by apply safe_end_replay|].
  eapply safe_after; [|intros _ w4 _; by apply safe_end_replay]. eapply safe_complete; [exact Hk3|auto].
Qed.

Lemma safe_replay request w : in_range request → sound (w_db w) →
  safe (on_ok (λ _ _, True)) (replayEvents proc batchSize maxRangeBlocks replayBudgetMs replayStopForcedTimeoutMs request) w.
Proof.
  intros Hr Hd. unfold replayEvents. apply safe_sync. intros now w1 Hw1. apply safe_with_proc. destruct (enter _ _ _ _) as [e p]. cbn [fst snd].
  apply (sound_later _ _ Hw1) in Hd. destruct e; [done|done|]. intros w2 leader w3 Hw2 [-> _]. split; [apply evolves_refl|]. apply (sound_later _ _ Hw2) in Hd.
  destruct leader; cbn [negb].
  - apply safe_sync. intros start w3 Hw3. apply safe_with_proc. cbn [fst snd]. apply safe_then. eapply safe_weaken; [|apply safe_body; [done|by eapply sound_later]].
    intros [u|err] w4 _; [apply safe_leave|]. apply safe_end_replay. intros. apply safe_leave.
  - unfold unlock. apply safe_sync. intros ? w3 ?. by apply safe_with_proc.
Qed.

Lemma safe_startup w : sound (w_db w) →
  safe (on_ok (λ _ _, True)) (startup proc batchSize maxRangeBlocks replayBudgetMs replayStopForcedTimeoutMs) w.
Proof.
  intros Hd. unfold startup. eapply (safe_after _ (λ found w', sound (w_db w') ∧ ∀ request, found = Some request → in_range request)).
  - unfold resumeIncompleteReplay. intros w1 leader w2 Hw1 [-> _]. split; [apply evolves_refl|].
    destruct leader; cbn [negb]; [|intros w3 Hw3; split; [eapply sound_later; [|exact Hd]; chain|done]].
    apply safe_await_reads with (P := λ _ _, True); [done|]. intros _ w3 Hw3 _ w4 r w5 Hw4 [-> Hr]. split; [apply evolves_refl|].
    assert (sound (w_db w4)) as Hd4 by (eapply sound_later; [|exact Hd]; chain).
    destruct Hr as [(found & (o & Ho & Hfound) & ->)|(e & -> & _)]; intros w5 Hw5; (split; [by eapply sound_later|]); [|done].
    intros request Hq. rewrite Hfound in Hq. destruct o as [[k c]|]; [|done]. injection Hq as <-. apply newest_elem, list_elem_of_filter in Ho as [_ Ho].
    unfold joined in Ho. apply list_elem_of_bind in Ho as (k' & Ho & _). apply list_elem_of_fmap in Ho as (c' & [= -> ->] & [_ Hc']%list_elem_of_filter).
    by apply (so_cursors _ Hd4).
  - intros [request|] w1 [Hd1 Hr]; [by apply safe_replay; [apply Hr|]|done].
Qed.

End calls.



(** *** One replay alone *)
Lemma newest_exists {A} (time : A → Z) l : ∃ o, newest time l o.
Proof.
  induction l as [|a l [[b|] Hb]]; [by exists None| |].
  - destruct Hb as [Hin Hmax]. destruct (Z.le_gt_cases (time a) (time b)) as [Hle|Hgt].
    + exists (Some b). split; [by apply list_elem_of_further|]. intros c [->|Hc]%elem_of_cons; auto.
    + exists (Some a). split; [apply list_elem_of_here|]. intros c [->|Hc]%elem_of_cons; [lia|]. specialize (Hmax c Hc). lia.
  - simpl in Hb. subst l. exists (Some a). split; [apply list_elem_of_here|]. intros c [->|Hc%not_elem_of_nil]%elem_of_cons; [lia|done].
Qed.

Lemma proc_with_proc i p w : w_proc (with_proc i p w) i = p.
Proof. simpl. by rewrite decide_True. Qed.

Section alone.
Context (proc : nat) (maxRangeBlocks replayBudgetMs replayStopForcedTimeoutMs : Z) (leader : bool).
Context (Hfaults : ¬ faulty) (Hacquires : ∀ b, acquires proc b ↔ b = true) (Hleads : ∀ b, leads proc b ↔ b = leader).
Context (Hreadable : ∀ h, h ∈ source → ∃ e, rowToContractEvent (pg_row h) = Ok e) (Hbatch : 0 < batchSize) (Hbudget : replayBudgetMs <= 0).

Notation certain := (certain step).
Definition running (w : world) : Prop := isReplayStopRequested (w_proc w proc) = false.

Lemma certain_reads {A B} (Q : result ReplayError B → world → Prop) (P : A → Prop) (c : command (result string A)) (k : A → call B) w :
  step _ c w = reads rejected P w → (∃ a, P a) → (∀ a, P a → certain Q (k a) w) → certain Q (await c k) w.
Proof.
  intros Hc [a Ha] Hk. split; [exists (Ok a), w; rewrite Hc; split; [done|left; by exists a]|].
  intros r w2 Hst. rewrite Hc in Hst; destruct Hst as [-> [(b & Hb & ->)|(e & _ & Hf)]]; [by apply Hk|by destruct Hfaults].
Qed.

Lemma certain_writes {A B} (Q : result ReplayError B → world → Prop) (P : A → database → Prop) (c : command (result string A)) (k : A → call B) w :
  step _ c w = writes rejected P w → (∃ a d, P a d) → (∀ a d, P a d → certain Q (k a) (with_db d w)) →
  certain Q (await c k) w.
Proof.
  intros Hc (a & d & Ha) Hk. split; [exists (Ok a), (with_db d w); rewrite Hc; right; exists a, d; by repeat split; try left|].
  intros r w2 Hst. rewrite Hc in Hst; destruct Hst as [(_ & e & _ & Hf)|(b & d' & Hb & -> & [->|(e & _ & Hf)])];
    [by destruct Hfaults|by apply Hk|by destruct Hfaults].
Qed.

Lemma certain_sync {A X} (Q : result ReplayError A → world → Prop) (f : Z → process → X * process) (k : X → call A) w :
  (∀ now, certain Q (k (f now (w_proc w proc)).1) (with_proc proc (f now (w_proc w proc)).2 w)) → certain Q (sync proc f k) w.
Proof. intros Hk. split; [eexists _, _; by exists 0|]. intros x w2 (now & -> & ->). apply Hk. Qed.

Lemma running_stop {A} (Q : result ReplayError A → world → Prop) (k : bool → call A) w : running w →
  (∀ w', running w' → w_db w' = w_db w → certain Q (k false) w') → certain Q (stop_requested proc k) w.
Proof.
  intros Hr Hk. unfold stop_requested. apply certain_sync. intros _. cbn [fst snd]. rewrite Hr. apply Hk; [|done].
  unfold running. rewrite proc_with_proc. exact Hr.
Qed.

Lemma not_given_up guarded w e : running w → ¬ given_up guarded (w_proc w proc) e.
Proof. intros Hr. destruct e; simpl; [done|]. rewrite Hr. by intros [_ ?]. Qed.

Lemma selected_source request h : h ∈ selected request → h ∈ source.
Proof. unfold selected. rewrite merge_sort_Permutation. by intros [_ ?]%list_elem_of_filter. Qed.

Lemma readable_rows rows : (∀ h, h ∈ rows → h ∈ source) → ∃ es, map_rows rows = Ok es.
Proof.
  induction rows as [|h rows IH]; intros Hin; [by exists []|]. destruct (Hreadable h (Hin h (list_elem_of_here _ _))) as [e He].
  destruct IH as [es Hes]; [intros h' Hh'; apply Hin; by apply list_elem_of_further|]. exists (e :: es). unfold map_rows in *. simpl. by rewrite He, Hes.
Qed.

Lemma certain_batch id request o w : running w → 0 <= o < Z.of_nat (length (selected request)) →
  certain (λ r w', ∃ n, r = Ok (n, false) ∧ 0 < n ∧ running w') (processBatch proc batchSize replayStopForcedTimeoutMs id request o) w.
Proof.
  intros Hr Ho. unfold processBatch. apply certain_reads with (P := λ _, True); [done|by exists tt|]. intros _ _. apply certain_then.
  apply certain_weaken with (Q := λ r w', ∃ n, r = Ok (n, false) ∧ 0 < n ∧ running w'); [by intros ? w' (n & -> & ? & ?); exists n|].
  unfold batch_body. apply certain_reads with (P := λ _, True); [done|by exists tt|]. intros _ _. apply running_stop; [done|]. intros w1 Hr1 _.
  destruct (readable_rows (page request o batchSize)) as [es Hes].
  { intros h Hh. apply (selected_source request). unfold page in Hh. apply subseteq_take, subseteq_drop in Hh. done. }
  pose proof (map_rows_ids _ _ Hes) as Hids.
  assert (length es ≠ 0)%nat as Hne.
  { rewrite <- (length_fmap ce_event_id es), Hids, length_fmap. unfold page. rewrite length_take, length_drop. lia. }
  split; [exists (Ok (page request o batchSize)), w1; split; [done|left; by eexists]|].
  intros r w2 [-> [(rows & -> & ->)|(e & _ & Hf)]]; [|by destruct (not_given_up true w1 e)]. cbn beta iota. rewrite Hes.
  destruct es as [|e0 es0] eqn:Hcons; [done|]. rewrite <- Hcons in *. apply running_stop; [done|]. intros w3 Hr3 _.
  do 3 (apply certain_reads with (P := λ _, True); [done|by exists tt|]; intros _ _). apply running_stop; [done|]. intros w4 Hr4 _.
  split; [exists (Ok tt); eexists; right; eexists tt, _; split; [exists 0; reflexivity|]; split; [reflexivity|by left]|].
  intros r w5 [(_ & e & _ & Hf)|(u & d & [now ->] & -> & [->|(e & _ & Hf)])]; [by destruct (not_given_up true w4 e)| |by destruct (not_given_up true w4 e)].
  exists (Z.of_nat (length es)). split; [done|]. split; [lia|exact Hr4].
Qed.

Lemma certain_complete id w : running w →
  certain (λ r w', ∃ now, r = Ok tt ∧ running w' ∧ w_db w' = apply_writes now [CursorCompleted id; ProgressCompleted id] (w_db w))
    (completeCursor proc replayStopForcedTimeoutMs id) w.
Proof.
  intros Hr. unfold completeCursor. apply certain_reads with (P := λ _, True); [done|by exists tt|]. intros _ _. apply certain_then.
  do 3 (apply certain_reads with (P := λ _, True); [done|by exists tt|]; intros _ _).
  split; [exists (Ok tt); eexists; right; eexists tt, _; split; [exists 0; reflexivity|]; split; [reflexivity|by left]|].
  intros r w5 [(_ & e & _ & Hf)|(u & d & [now ->] & -> & [->|(e & _ & Hf)])]; [by destruct (not_given_up false w e)| |by destruct (not_given_up false w e)].
  by exists now.
Qed.

Lemma certain_resolve request w : running w →
  certain (λ r w', ∃ x, r = Ok x ∧ running w' ∧ contract_events (w_db w') = contract_events (w_db w)) (resolveOrCreateCursor request) w.
Proof.
  intros Hr. unfold resolveOrCreateCursor. apply certain_reads with (P := λ _, True); [done|by exists tt|]. intros _ _.
  eapply certain_reads; [reflexivity|apply newest_exists|]. intros [c|] _.
  - eapply certain_writes; [reflexivity|by exists tt; eexists; exists 0|]. intros u d [now ->]. by eexists.
  - eapply certain_reads; [reflexivity|by eexists|]. intros total _. eapply certain_writes; [reflexivity| |].
    + eexists _, _. exists (fresh (cu_id <$> replay_cursors (w_db w))), 0. by split; [apply infinite_is_fresh|].
    + intros c d (id & now & _ & -> & ->). eapply certain_writes; [reflexivity|by exists tt; eexists; exists 0|]. intros u d [now' ->]. by eexists.
Qed.

Definition events_same (w w' : world) : Prop := leader = false → contract_events (w_db w') = contract_events (w_db w).

Lemma certain_loop id request start fuel : ∀ o w, known id request o w → running w →
  (Z.of_nat (length (selected request)) - o <= Z.of_nat fuel) →
  certain (λ r w', r = Ok Ended ∧ running w' ∧ events_same w w')
    (replay_loop proc batchSize replayBudgetMs replayStopForcedTimeoutMs fuel id request (Z.of_nat (length (selected request))) start o) w.
Proof.
  set (total := Z.of_nat (length (selected request))).
  induction fuel as [|fuel IH]; intros o w Hk Hr Hfuel; cbn [replay_loop]; destruct (Z.ltb_spec o total); cbn [negb]; [lia|by split| |by split].
  apply running_stop; [done|]. intros w1 Hr1 Hw1. assert (known id request o w1) as Hk1 by by unfold known in *; rewrite Hw1.
  split; [exists leader, w1; split; [done|by apply Hleads]|]. intros b w2 [-> ->%Hleads].
  destruct leader eqn:Hlead; cbn [negb]; [|split; [done|]; split; [done|]; intros _; by rewrite Hw1].
  apply certain_sync. intros now. cbn [fst snd]. set (w2 := with_proc proc (w_proc w1 proc) w1).
  assert (running w2) as Hr2 by by unfold running, w2; rewrite proc_with_proc. assert (known id request o w2) as Hk2 by exact Hk1.
  replace (0 <? replayBudgetMs) with false by (symmetry; by apply Z.ltb_ge). cbn [andb].
  apply certain_then. eapply certain_weaken; [|apply (certain_safe step evolves); [by apply safe_batch|apply certain_batch; [done|destruct Hk; lia]]].
  intros r w3 [Ht (n & -> & Hn & Hr3)]. destruct Ht as [Hk3 _]. cbn [fst snd] in *. replace (n =? 0) with false by (symmetry; apply Z.eqb_neq; lia).
  apply certain_sync. intros now3. cbn [fst snd]. eapply certain_weaken; [|apply IH; [exact Hk3|unfold running; by rewrite proc_with_proc|lia]].
  intros r w' (-> & Hr' & _). split; [done|]. split; [done|]. intros Hl. congruence.
Qed.

Definition completed (request : ReplayRequest) (w : world) : Prop :=
  ∃ c, c ∈ replay_cursors (w_db w) ∧ request_of c = request ∧ is_Some (cu_completed_at c).

Definition body_end (request : ReplayRequest) (w : world) (r : result ReplayError unit) (w' : world) : Prop :=
  r = Ok tt ∧ running w' ∧ isReplaying (replayState (w_proc w' proc)) = false ∧ completed request w' ∧ events_same w w'.

Lemma certain_finish id request o w0 w : known id request o w → running w → events_same w0 w →
  certain (body_end request w0) (try_bind (completeCursor proc replayStopForcedTimeoutMs id) (λ _, end_replay proc (Done (Ok tt)))) w.
Proof.
  intros (_ & _ & _ & c & Hc & Hid & Hrq) Hr Hs. apply certain_then. eapply certain_weaken; [|by apply certain_complete].
  intros r w1 (now & -> & Hr1 & Hw1). unfold end_replay. apply certain_sync. intros now1. cbn [fst snd]. set (p := w_proc w1 proc). cbn [Effects.certain]. unfold body_end, running. rewrite proc_with_proc.
  split; [done|]. split; [exact Hr1|]. split; [done|]. split.
  - exists (complete id now c). unfold with_proc. cbn [w_db]. rewrite Hw1. split; [simpl; by apply list_elem_of_fmap_2|].
    unfold complete. rewrite bool_decide_true by done. split; [done|by eexists].
  - intros Hl. unfold with_proc. cbn [w_db]. rewrite Hw1. simpl. by apply Hs.
Qed.

Lemma certain_body request start w : in_range request → sound (w_db w) → running w →
  certain (body_end request w) (replay_body proc batchSize replayBudgetMs replayStopForcedTimeoutMs request start) w.
Proof.
  intros Hrange Hd Hr. unfold replay_body. apply certain_then.
  eapply certain_weaken; [|apply (certain_safe step evolves); [by apply safe_resolve|by apply certain_resolve]].
  intros r w1 [Hs ([c total] & -> & Hr1 & He1)]. destruct Hs as [Hk Ht]. subst total. set (total := Z.of_nat (length (selected request))).
  assert (events_same w w1) as Hs1 by by intros _. destruct (Z.eqb_spec total 0) as [Hz|Hz]; [by eapply certain_finish|].
  apply certain_sync. intros now. cbn [fst snd]. set (w2 := with_proc _ _ _). assert (running w2) as Hr2 by by unfold running, w2; rewrite proc_with_proc.
  apply certain_then. eapply certain_weaken; [|apply (certain_safe step evolves); [by apply safe_loop|apply certain_loop; [exact Hk|done|]]].
  - intros r w3 [Ht (-> & Hr3 & Hs3)]. destruct Ht as [Hk3 _]. eapply certain_finish; [exact Hk3|done|]. intros Hl. rewrite (Hs3 Hl). by apply Hs1.
  - fold total. destruct Hk. lia.
Qed.

(** The state of a process between two replays. *)
Definition idle (p : process) : Prop := isReplayStopRequested p = false ∧ replayLock p = false ∧ isReplaying (replayState p) = false.

Lemma certain_replay request w : in_range request → sound (w_db w) → idle (w_proc w proc) →
  validateReplayRequest request maxRangeBlocks = Ok tt →
  certain (λ r w', r = Ok tt ∧ completed request w' ∧ idle (w_proc w' proc) ∧ events_same w w')
    (replayEvents proc batchSize maxRangeBlocks replayBudgetMs replayStopForcedTimeoutMs request) w.
Proof.
  intros Hrange Hd (Hr & Hlock & _) Hvalid. unfold replayEvents. apply certain_sync. intros now.
  assert (enter maxRangeBlocks request now (w_proc w proc) = (Entered, set_lock true (w_proc w proc))) as -> by by unfold enter; rewrite Hr, Hvalid, Hlock.
  cbn [fst snd]. set (w1 := with_proc _ _ _). split; [exists true, w1; split; [done|by apply Hacquires]|]. intros b w2 [-> ->%Hacquires]. cbn [negb].
  apply certain_sync. intros start. cbn [fst snd]. set (w2 := with_proc _ _ _).
  assert (running w2) as Hr2 by (unfold running, w2, w1; rewrite !proc_with_proc; exact Hr).
  apply certain_then. eapply certain_weaken; [|by apply certain_body]. intros r w3 (-> & Hr3 & Hp3 & Hc3 & Hs3).
  unfold leave, unlock. apply certain_sync. intros now3. cbn [fst snd]. split; [eexists tt, _; reflexivity|]. intros u w4 ->.
  apply certain_sync. intros now4. rewrite proc_with_proc. unfold running in Hr3.
  replace (isReplayStopRequested (set_lock false (w_proc w3 proc))) with false by (symmetry; exact Hr3). cbn [fst snd Effects.certain].
  split; [done|]. split; [exact Hc3|]. rewrite proc_with_proc. by repeat split.
Qed.

(** A cursor whose rows are all passed is resumed for any range of blocks. *)
Lemma certain_passed request c w : running w → findActive (rq_contract_id request) (rq_ledger request) (w_db w) = [c] →
  cu_total_rows c <= cu_last_committed_offset c → ∀ start,
  certain (λ r w', r = Ok tt ∧ contract_events (w_db w') = contract_events (w_db w))
    (replay_body proc batchSize replayBudgetMs replayStopForcedTimeoutMs request start) w.
Proof.
  intros Hr Hc Hle start. unfold replay_body. apply certain_then. unfold resolveOrCreateCursor.
  apply certain_reads with (P := λ _, True); [done|by exists tt|]. intros _ _. eapply certain_reads; [reflexivity|apply newest_exists|].
  rewrite Hc. intros [c'|] Hn; [|done]. destruct Hn as [->%list_elem_of_singleton _].
  eapply certain_writes; [reflexivity|by exists tt; eexists; exists 0|]. intros _ d [now ->]. set (w1 := with_db _ _). assert (running w1) as Hr1 by exact Hr.
  assert (∀ w2, running w2 → contract_events (w_db w2) = contract_events (w_db w) →
    certain (λ r w', r = Ok tt ∧ contract_events (w_db w') = contract_events (w_db w))
      (try_bind (completeCursor proc replayStopForcedTimeoutMs (cu_id c)) (λ _, end_replay proc (Done (Ok tt)))) w2) as Hend.
  { intros w2 Hr2 He2. apply certain_then. eapply certain_weaken; [|by apply certain_complete]. intros r w3 (now' & -> & _ & Hw3).
    unfold end_replay. apply certain_sync. intros now3. split; [done|]. unfold with_proc. cbn [w_db]. by rewrite Hw3. }
  cbn [Effects.certain]. destruct (cu_total_rows c =? 0); [by apply Hend|]. apply certain_sync. intros now2. cbn [fst snd].
  apply certain_then. eapply certain_weaken with (Q := λ r w2, r = Ok Ended ∧ running w2 ∧ contract_events (w_db w2) = contract_events (w_db w)).
  - intros r w2 (-> & Hr2 & He2). by apply Hend.
  - assert ((cu_last_committed_offset c <? cu_total_rows c) = false) as Hf by by apply Z.ltb_ge.
    destruct (Z.to_nat (cu_total_rows c)); cbn [replay_loop]; rewrite Hf; cbn [negb Effects.certain]; (split; [done|]); unfold running; rewrite proc_with_proc; split; [exact Hr1|done|exact Hr1|done].
Qed.

End alone.

(** The circumstances of a replay without failures and with time enough, whose
    process always leads or never does. *)
Record calm (proc : nat) (replayBudgetMs : Z) (leader : bool) : Prop := {
  calm_faults : ¬ faulty;
  calm_acquires : ∀ b, acquires proc b ↔ b = true;
  calm_leads : ∀ p b, leads p b ↔ b = leader;
  calm_rows : ∀ h, h ∈ source → ∃ e, rowToContractEvent (pg_row h) = Ok e;
  calm_batch : 0 < batchSize;
  calm_budget : replayBudgetMs <= 0;
}.


(** when the lease is lost the loop ends as if all rows were done: the replay
    returns without an error, has stored nothing, and its cursor is marked completed,
    so no later run resumes it. *)
Theorem lost_lease_completes_cursor proc maxRangeBlocks replayBudgetMs replayStopForcedTimeoutMs request w :
  calm proc replayBudgetMs false → in_range request → sound (w_db w) → idle (w_proc w proc) →
  validateReplayRequest request maxRangeBlocks = Ok tt →
  certain step (λ r w', r = Ok tt ∧ completed request w' ∧ contract_events (w_db w') = contract_events (w_db w))
    (replayEvents proc batchSize maxRangeBlocks replayBudgetMs replayStopForcedTimeoutMs request) w.
Proof.
  intros [Hf Ha Hl Hrows Hb Hbudget] Hr Hd Hi Hv. eapply certain_weaken; [|by apply (certain_replay proc _ _ _ false)].
  intros r w' (-> & Hc & _ & He). split; [done|]. split; [done|]. by apply He.
Qed.

End environment.

(** ** Witnesses *)

Definition sample_historical (id : string) (block : Z) : historical_row := {|
  h_event_id := id; h_contract_id := "C"; h_ledger := 7; h_event_type := "stream_created"; h_event_data := JObj [];
  h_block_height := block; h_transaction_hash := "tx" |}.
Definition sample_source : list historical_row := [sample_historical "b" 12; sample_historical "a" 11; sample_historical "c" 13].
Definition sample_request : ReplayRequest := {| rq_contract_id := "C"; rq_ledger := 7; rq_from_block := Some 11; rq_to_block := None |}.
Definition sample_range (_ : string) (_ : Z) : option Z * option Z := (Some 11, None).
Definition any_order (_ _ : string) : Prop := True.
#[export] Instance any_order_dec : RelDecision any_order.
Proof. intros a b. left. exact I. Defined.
Definition empty_world : world := {|
  w_db := {| contract_events := ∅; replay_cursors := []; replay_progress := [] |};
  w_proc := λ _, {| stopRequestedAt := None; replayLock := false; replayState := initial_progress |} |}.

Lemma empty_sound leads : sound any_order sample_source 2 leads sample_range (w_db empty_world).
Proof. split; [apply NoDup_nil_2|by intros c Hc%not_elem_of_nil]. Defined.

Lemma sample_readable h : h ∈ sample_source → ∃ e, rowToContractEvent (pg_row h) = Ok e.
Proof. intros [->|[->|[->|Hc%not_elem_of_nil]%elem_of_cons]%elem_of_cons]%elem_of_cons; [..|done]; by eexists. Defined.

Lemma sample_calm leader : calm sample_source 2 (λ _ b, b = true) (λ _ b, b = leader) False 1 0 leader.
Proof. split; [by intros []|done|done|apply sample_readable|lia|lia]. Defined.


Lemma lost_lease_completes_cursor_witness :
  certain (command_step any_order sample_source (λ _ b, b = true) (λ _ b, b = false) False)
    (λ r w', r = Ok tt ∧ completed sample_request w' ∧ contract_events (w_db w') = ∅)
    (replayEvents 1 2 0 0 1000 sample_request) empty_world.
Proof.
  apply (lost_lease_completes_cursor any_order sample_source 2 (λ _ b, b = true) (λ _ b, b = false) False sample_range);
    [apply sample_calm|reflexivity|apply empty_sound|by repeat split|reflexivity].
Defined.

Definition sample_ops : list (nat * operation) := [(1%nat, Replay sample_request); (2%nat, Startup); (1%nat, StopReplay)].

