(* ===== verification/WebhookDelivery.v ===== *)
(** * Webhook delivery ([src/webhooks/delivery.ts], [delivery-support.ts],
      [payloadSchemas.ts], [attemptWebhookDeliveryWithRateLimit] of [retry.ts])

    One delivery is an object that its process mutates and keeps in its delivery
    store.  The calls are programs over the commands they await: the HTTP request,
    the circuit breaker, the rate limiter, the clock and the store of the process,
    so that concurrent calls interleave.  Breaker and limiter are used through their
    interfaces only.  [JSON.parse], [JSON.stringify], [Date.parse], [new URL] and
    HMAC are parameters.  Log lines, metrics and correlation headers are left out;
    so are the error texts of the payload schemas, which only reach the log. *)
From Stdlib Require Import Ascii ZArith QArith Qround Lia.
From stdpp Require Import base gmap strings list relations.
From S2P Require Import Prelude Effects Redis CircuitBreaker Retry DeliveryGate EventStore Outbox.
Local Open Scope string_scope.
Local Open Scope list_scope.
Local Open Scope Z_scope.

(** ** Published payloads *)

Definition WEBHOOK_EVENT_TYPES : list string := ["stream.created"; "stream.updated"; "stream.cancelled"].

(** The zod types the schemas use; [z.number()] takes finite numbers, [int()] safe
    integers. *)
Inductive field_type : Type := FEvent | FInt | FNumber | FString | FNonEmpty | FCancelled.
Record field : Type := { fd_name : string; fd_type : field_type; fd_optional : bool }.
Definition fld (n : string) (t : field_type) : field := {| fd_name := n; fd_type := t; fd_optional := false |}.
Definition opt_fld (n : string) (t : field_type) : field := {| fd_name := n; fd_type := t; fd_optional := true |}.

Definition envelopeFields : list field := [fld "event" FEvent; fld "schema_version" FInt].
Definition streamCreatedPayloadSchema : list field := envelopeFields ++
  [fld "id" FNonEmpty; fld "sender_address" FNonEmpty; fld "recipient_address" FNonEmpty; fld "amount" FString;
   fld "streamed_amount" FString; fld "remaining_amount" FString; fld "rate_per_second" FString; fld "start_time" FNumber;
   fld "end_time" FNumber; fld "contract_id" FNonEmpty; fld "transaction_hash" FNonEmpty; fld "event_index" FInt].
Definition streamUpdatedPayloadSchema : list field := envelopeFields ++
  [opt_fld "status" FString; opt_fld "streamed_amount" FString; opt_fld "remaining_amount" FString; opt_fld "end_time" FNumber].
Definition streamCancelledPayloadSchema : list field := envelopeFields ++ [fld "status" FCancelled].

Definition payload_schema (eventType : string) : option (list field) :=
  if bool_decide (eventType = "stream.created") then Some streamCreatedPayloadSchema
  else if bool_decide (eventType = "stream.updated") then Some streamUpdatedPayloadSchema
  else if bool_decide (eventType = "stream.cancelled") then Some streamCancelledPayloadSchema
  else None.

Definition field_ok (t : field_type) (v : jsval) : bool :=
  match t, v with
  | FEvent, JStr s => bool_decide (s ∈ WEBHOOK_EVENT_TYPES)
  | FInt, JNum (NumInt z) => Z.abs z <=? 9007199254740991
  | FNumber, JNum (NumInt _) | FNumber, JNum (NumFrac _) => true
  | FString, JStr _ => true
  | FNonEmpty, JStr s => negb (str_empty s)
  | FCancelled, JStr s => bool_decide (s = "cancelled")
  | _, _ => false
  end.

(** A strict object: every field has its type and no other key is there. *)
Definition strict_object (fs : list field) (o : list (string * jsval)) : bool :=
  forallb (λ f, match js_get o (fd_name f) with JUndefined => fd_optional f | v => field_ok (fd_type f) v end) fs
  && forallb (λ kv, bool_decide (kv.1 ∈ fd_name <$> fs)) o.

Inductive PayloadError : Type := UnknownEventType | SchemaMismatch | PayloadTooLarge | InvalidJson | BinaryGarbage.

Definition validatePublishedPayload (eventType : string) (o : list (string * jsval)) : result PayloadError unit :=
  match payload_schema eventType with
  | None => Err UnknownEventType
  | Some fs => if strict_object fs o then Ok tt else Err SchemaMismatch
  end.

(** ** Endpoints *)

(** The parts of a parsed [URL] the checks read. *)
Record endpoint : Type := { ep_protocol : string; ep_hostname : string; ep_username : string; ep_password : string }.

Definition isLoopbackHostname (hostname : string) : bool := bool_decide (hostname ∈ ["localhost"; "127.0.0.1"; "::1"]).

Definition is_http (u : endpoint) : bool := bool_decide (ep_protocol u = "https:") || bool_decide (ep_protocol u = "http:").
Definition has_credentials (u : endpoint) : bool := negb (str_empty (ep_username u)) || negb (str_empty (ep_password u)).

Inductive DLQReasonCode : Type := Poison | Exhausted | TimeoutReason | CircuitBreakerReason | RateLimited | Other.
#[global] Instance reason_eq_dec : EqDecision DLQReasonCode.
Proof. solve_decision. Defined.
Definition reason_string (r : DLQReasonCode) : string :=
  match r with
  | Poison => "poison" | Exhausted => "exhausted" | TimeoutReason => "timeout"
  | CircuitBreakerReason => "circuit_breaker" | RateLimited => "rate_limited" | Other => "other"
  end.

(** Whether [s] contains [t]. *)
Fixpoint str_includes (s t : string) : bool :=
  String.prefix t s || match s with EmptyString => false | String _ s => str_includes s t end.

Section support.
Context (json_parse : string → option jsval) (Date_parse : string → option Z) (parseURL : string → option endpoint)
        (production : bool).

(** [header.trim()] is parsed up to its first character that is no digit. *)
Definition parseRetryAfter (header : option string) (now : Z) : option Z :=
  match header with
  | None => None
  | Some h =>
      if str_empty h then None
      else match parse_int10 (chars (js_trim h)) with
           | Some seconds => Some (Z.max 0 (seconds * 1000))
           | None => match Date_parse h with Some t => Some (Z.max 0 (t - now)) | None => None end
           end
  end.

Definition assertSafeWebhookEndpoint (endpointUrl : string) : result string unit :=
  match parseURL endpointUrl with
  | None => Err "Invalid URL"
  | Some u =>
      if has_credentials u then Err "Webhook endpoint must not include credentials"
      else if negb (is_http u) then Err "Webhook endpoint must use http or https"
      else if production && negb (bool_decide (ep_protocol u = "https:")) && negb (isLoopbackHostname (ep_hostname u))
      then Err "Webhook endpoint must use https in production"
      else Ok tt
  end.

Definition validateWebhookUrl (endpointUrl : string) : result string unit :=
  match parseURL endpointUrl with
  | None => Err ("Webhook endpoint URL is unparseable: " +:+ endpointUrl)
  | Some u =>
      if negb (is_http u) then Err ("Webhook endpoint must use http or https, got: " +:+ ep_protocol u)
      else if has_credentials u then Err "Webhook endpoint must not include credentials in URL"
      else Ok tt
  end.

Definition normalizePayload (payload : jsval) : jsval :=
  match payload with JStr s => default payload (json_parse s) | _ => payload end.

Definition extractAttemptNumber (payload : jsval) : Z :=
  match payload with
  | JObj o =>
      match js_get o "_webhookRetry" with
      | JObj r =>
          match js_get r "attemptNumber" with
          | JNum (NumInt n) => if 0 <? n then n else 1
          | JNum (NumFrac q) => if Qle_bool q 0 then 1 else Qfloor q
          | _ => 1
          end
      | _ => 1
      end
  | _ => 1
  end.

(** Printable ASCII and the common white space. *)
Definition printable (c : ascii) : bool :=
  let code := Z.of_N (N_of_ascii c) in
  ((32 <=? code) && (code <=? 126)) || (code =? 9) || (code =? 10) || (code =? 13).

Definition starts_like_json (l : text) : bool :=
  match l with c :: _ => bool_decide (c = "{"%char) || bool_decide (c = "["%char) | [] => false end.

Definition validateWebhookPayload (payload : jsval) : result PayloadError unit :=
  match payload with
  | JObj o =>
      match js_get o "event" with JStr eventType => validatePublishedPayload eventType o | _ => Ok tt end
  | JStr s =>
      if 10 * 1024 * 1024 <? Z.of_nat (String.length s) then Err PayloadTooLarge
      else match json_parse s with
           | Some _ => Ok tt
           | None =>
               if starts_like_json (chars (js_trim s)) then Err InvalidJson
               else if (1000 <? Z.of_nat (String.length s)) && negb (forallb printable (take 100 (chars s)))
               then Err BinaryGarbage
               else Ok tt
           end
  | _ => Ok tt
  end.

Definition classifyPoisonFailure (payload : jsval) (endpointUrl : string) (statusCode : option Z)
    (policy : EnhancedRetryPolicy) (error : option string) : option DLQReasonCode :=
  if match error with Some e => negb (str_empty e) && str_includes e "Webhook delivery timeout" | None => false end
  then Some TimeoutReason
  else match validateWebhookPayload payload with
  | Err _ => Some Poison
  | Ok _ =>
      match validateWebhookUrl endpointUrl with
      | Err _ => Some Poison
      | Ok _ =>
          match statusCode with
          | Some c => if negb (isRetryableStatusCode (Some c) policy) && (400 <=? c) && (c <? 500) then Some Poison else None
          | None => None
          end
      end
  end.
End support.

(** ** Commands *)

(** What is sent to a consumer. *)
Record post : Type := {
  po_url : string; po_payload : string; po_deliveryId : string; po_eventType : string; po_timestamp : string; po_signature : string;
}.

(** What comes back: a response with the sizes of the chunks of its body, or the
    message of the error [fetch] throws (refused, reset, aborted by the timeout). *)
Record response : Type := { rs_status : Z; rs_contentType : option string; rs_retryAfter : option string; rs_chunks : list Z }.
Inductive reply : Type := Responded (r : response) | Failed (message : string).

(** [OnStore] is a synchronous block on the store of a process; it receives an id no
    dead letter has and the time. *)
Inductive service_command : Type → Type :=
| Now : service_command Z
| Random : service_command Q
| Uuid : service_command string
| Post (r : post) : service_command reply
| CheckBreaker (key : string) (policy : CircuitBreakerPolicy) (now : Z) : service_command WebhookCircuitBreakerCheckResult
| RecordSuccess (key : string) (policy : CircuitBreakerPolicy) (now : Z) : service_command WebhookCircuitBreakerRecord
| RecordFailure (key : string) (policy : CircuitBreakerPolicy) (now : Z) : service_command WebhookCircuitBreakerRecord
| GetState (key : string) : service_command (option WebhookCircuitBreakerRecord)
| CheckLimit (d : RateLimitDimensions) (c : RateLimitConfig) : service_command RateLimitResult
| OnStore (X : Type) (proc : nat) (f : string → Z → DeliveryStore → X * DeliveryStore) : service_command X.

Notation service A := (eff service_command A).

Definition now_ms : service Z := ask Now.
Definition update_store (proc : nat) (f : DeliveryStore → DeliveryStore) : service unit := ask (OnStore unit proc (λ _ _ s, (tt, f s))).

(** ** The delivery object *)

Definition set_status (st : WebhookDeliveryStatus) (d : WebhookDelivery) : WebhookDelivery := {|
  wd_id := wd_id d; wd_deliveryId := wd_deliveryId d; wd_eventId := wd_eventId d; wd_eventType := wd_eventType d;
  wd_endpointUrl := wd_endpointUrl d; wd_status := st; wd_attempts := wd_attempts d; wd_createdAt := wd_createdAt d;
  wd_updatedAt := wd_updatedAt d; wd_payload := wd_payload d |}.
Definition set_attempt_list (l : list WebhookDeliveryAttempt) (d : WebhookDelivery) : WebhookDelivery := {|
  wd_id := wd_id d; wd_deliveryId := wd_deliveryId d; wd_eventId := wd_eventId d; wd_eventType := wd_eventType d;
  wd_endpointUrl := wd_endpointUrl d; wd_status := wd_status d; wd_attempts := l; wd_createdAt := wd_createdAt d;
  wd_updatedAt := wd_updatedAt d; wd_payload := wd_payload d |}.
Definition push_attempt (a : WebhookDeliveryAttempt) (d : WebhookDelivery) : WebhookDelivery := set_attempt_list (wd_attempts d ++ [a]) d.

Definition new_attempt (n now : Z) : WebhookDeliveryAttempt := {|
  at_attemptNumber := n; at_timestamp := now; at_statusCode := None; at_error := None; at_nextRetryAt := None |}.
Definition with_code (c : Z) (a : WebhookDeliveryAttempt) : WebhookDeliveryAttempt := {|
  at_attemptNumber := at_attemptNumber a; at_timestamp := at_timestamp a; at_statusCode := Some c; at_error := at_error a;
  at_nextRetryAt := at_nextRetryAt a |}.
Definition with_error (e : string) (a : WebhookDeliveryAttempt) : WebhookDeliveryAttempt := {|
  at_attemptNumber := at_attemptNumber a; at_timestamp := at_timestamp a; at_statusCode := at_statusCode a; at_error := Some e;
  at_nextRetryAt := at_nextRetryAt a |}.
Definition with_retry (t : Z) (a : WebhookDeliveryAttempt) : WebhookDeliveryAttempt := {|
  at_attemptNumber := at_attemptNumber a; at_timestamp := at_timestamp a; at_statusCode := at_statusCode a; at_error := at_error a;
  at_nextRetryAt := Some t |}.

(** The last attempt of a delivery is the object the service holds: a change of one
    changes both. *)
Definition change_last (f : WebhookDeliveryAttempt → WebhookDeliveryAttempt) (d : WebhookDelivery) : WebhookDelivery :=
  set_attempt_list (match list.last (wd_attempts d) with Some a => removelast (wd_attempts d) ++ [f a] | None => [] end) d.

(** A change of the object after it was stored is seen in the store, whose map holds
    the same object. *)
Definition mutate (d : WebhookDelivery) (s : DeliveryStore) : DeliveryStore :=
  match get (wd_id d) s with
  | Some _ => with_deliveries (jm_set (wd_id d) d (deliveries s)) (deliveryIdIndex s) (metrics s) s
  | None => s
  end.

(** ** The delivery service *)

Section delivery_service.
Context (Date_parse : string → option Z) (sign : string → string → string → string) (proc : nat)
        (policy : EnhancedRetryPolicy) (webhookMaxResponseBytes : Z).

(** The body is read until it ends or its size passes the bound. *)
Fixpoint body_fits (bytesRead : Z) (chunks : list Z) : bool :=
  match chunks with
  | [] => true
  | n :: chunks => if webhookMaxResponseBytes <? bytesRead + n then false else body_fits (bytesRead + n) chunks
  end.

(** What [sendWebhook] makes of the reply. *)
Definition received (r : reply) : result string response :=
  match r with
  | Failed message => Err message
  | Responded r =>
      if match rs_contentType r with Some c => str_empty c | None => true end
      then Err "Missing Content-Type header in webhook response"
      else if negb (body_fits 0 (rs_chunks r)) then Err "Webhook response exceeds maximum allowed size"
      else Ok r
  end.

Definition sendWebhook (p : post) : service (result string response) := r ← ask (Post p); Done (received r).

Definition response_ok (r : response) : bool := (200 <=? rs_status r) && (rs_status r <=? 299).

Definition next_retry (attemptNumber : Z) : service Z :=
  now ← now_ms; rnd ← ask Random; Done (calculateNextRetryTime attemptNumber policy now None rnd).

(** When a failed response is retried: 429 follows its Retry-After. *)
Definition response_retry (r : response) (attemptNumber : Z) : service Z :=
  if rs_status r =? 429 then
    now ← now_ms;
    match parseRetryAfter Date_parse (rs_retryAfter r) now with
    | Some ms => later ← now_ms; Done (later + ms)
    | None => next_retry attemptNumber
    end
  else next_retry attemptNumber.

Definition post_of (d : WebhookDelivery) (secret ts : string) : post := {|
  po_url := wd_endpointUrl d; po_payload := wd_payload d; po_deliveryId := wd_deliveryId d; po_eventType := wd_eventType d;
  po_timestamp := ts; po_signature := sign secret ts (wd_payload d) |}.

Definition unix_seconds (now : Z) : string := int_string (now / 1000).
Definition timestamp_or_now (timestamp : option string) : service string :=
  match timestamp with Some ts => if str_empty ts then now ← now_ms; Done (unix_seconds now) else Done ts
                     | None => now ← now_ms; Done (unix_seconds now) end.

Definition no_failures : Z := 0.

(** The delivery as it is left, and its attempt. *)
Definition runDeliveryAttempt (d : WebhookDelivery) (secret : string) (timestamp : option string)
    : service (WebhookDelivery * WebhookDeliveryAttempt) :=
  ts ← timestamp_or_now timestamp;
  let attemptNumber := Z.of_nat (length (wd_attempts d)) + 1 in
  now ← now_ms;
  let attempt := new_attempt attemptNumber now in
  r ← sendWebhook (post_of d secret ts);
  match r with
  | Ok response =>
      let attempt := with_code (rs_status response) attempt in
      if response_ok response then
        let d := push_attempt attempt (set_status DDelivered d) in
        _ ← update_store proc (store d); Done (d, attempt)
      else
        attempt ← (if shouldRetry attempt attemptNumber policy no_failures
                   then t ← response_retry response attemptNumber; Done (with_retry t attempt) else Done attempt);
        let d := set_status DPending (push_attempt attempt d) in
        _ ← update_store proc (store d); Done (d, attempt)
  | Err message =>
      attempt ← (if shouldRetry attempt attemptNumber policy no_failures
                 then t ← next_retry attemptNumber; Done (with_retry t (with_error message attempt)) else Done (with_error message attempt));
      let d := set_status DPending (push_attempt attempt d) in
      _ ← update_store proc (store d); Done (d, attempt)
  end.

Definition recordBreakerOutcome (endpointUrl : string) (attempt : WebhookDeliveryAttempt) : service Z :=
  if delivered attempt then
    now ← now_ms; record ← ask (RecordSuccess endpointUrl (breaker_policy policy) now); Done (consecutiveFailures record)
  else if negb (countsTowardCircuitBreaker attempt policy) then
    state ← ask (GetState endpointUrl); Done (match state with Some r => consecutiveFailures r | None => 0 end)
  else
    now ← now_ms; record ← ask (RecordFailure endpointUrl (breaker_policy policy) now); Done (consecutiveFailures record).

Definition already_queued (deliveryId : string) (s : DeliveryStore) : bool :=
  existsb (λ item, bool_decide (dl_deliveryId item = deliveryId)) (getDeadLetterQueueItems None 0 s).

Definition enqueuePermanentFailureToDlq (d : WebhookDelivery) (failureReason : string) (reasonCode : DLQReasonCode) : service unit :=
  ask (OnStore unit proc (λ id now s, (tt, if already_queued (wd_deliveryId d) s then s
    else (addToDeadLetterQueue id d failureReason (reason_string reasonCode) now s).2))).

Definition plural (n : Z) : string := if n =? 1 then "" else "s".
Definition failure_reason (attempt : WebhookDeliveryAttempt) (attemptNumber : Z) : string :=
  (if no_error attempt then "HTTP " +:+ match at_statusCode attempt with Some c => int_string c | None => "undefined" end
   else default "" (at_error attempt)) +:+ " after " +:+ int_string attemptNumber +:+ " attempt" +:+ plural attemptNumber.

Definition attemptDelivery (d : WebhookDelivery) (secret : string) (timestamp : option string) : service WebhookDelivery :=
  ts ← timestamp_or_now timestamp;
  let attemptNumber := Z.of_nat (length (wd_attempts d)) + 1 in
  '(d, attempt) ← runDeliveryAttempt d secret (Some ts);
  failures ← recordBreakerOutcome (wd_endpointUrl d) attempt;
  if bool_decide (wd_status d = DDelivered) then Done d
  else if shouldRetry attempt attemptNumber policy failures then
    t ← next_retry attemptNumber;
    let d := set_status DPending (change_last (with_retry t) d) in
    _ ← update_store proc (store d); Done d
  else
    let d := set_status DPermanentFailure d in
    _ ← update_store proc (store d);
    _ ← enqueuePermanentFailureToDlq d (failure_reason attempt attemptNumber) Other; Done d.

(** [checkWebhookDeliveryGate]; the limiter is consulted when it has a configuration. *)
Definition delivery_gate (consumerKey : string) (rateLimitConfig : option RateLimitConfig)
    (rateLimitDimensions : option RateLimitDimensions) (now : Z) : service WebhookDeliveryGateResult :=
  breaker ← ask (CheckBreaker consumerKey (breaker_policy policy) now);
  let deliver := {| canDeliver := true; gr_retryAt := None; gr_rateLimited := None; gr_circuitBreakerOpen := None;
                    gr_consecutiveFailures := ck_consecutiveFailures breaker |} in
  if negb (allowed breaker) then
    Done {| canDeliver := false; gr_retryAt := Some (resolveCircuitBreakerDeferral breaker policy now); gr_rateLimited := None;
            gr_circuitBreakerOpen := Some (bool_decide (ck_state breaker = Open) || bool_decide (ck_state breaker = HalfOpen));
            gr_consecutiveFailures := ck_consecutiveFailures breaker |}
  else match rateLimitConfig with
  | None => Done deliver
  | Some config =>
      let dimensions := default {| rd_tenant := "default"; rd_endpoint := consumerKey; rd_outcome := "first_attempt"; rd_weight := 1 |}
                          rateLimitDimensions in
      limit ← ask (CheckLimit dimensions {| rc_limit := rc_limit config; rc_windowMs := rc_windowMs config; rc_burst := rc_burst config;
                                            rc_weight := Some (rd_weight dimensions) |});
      Done (if negb (canAttempt limit)
            then {| canDeliver := false; gr_retryAt := Some (now + default (rc_windowMs config) (retryAfterMs limit));
                    gr_rateLimited := Some true; gr_circuitBreakerOpen := None; gr_consecutiveFailures := ck_consecutiveFailures breaker |}
            else deliver)
  end.

(** [if (gate.retryAt)]: a date is an object, so it is there whatever its time. *)
Definition queueDelivery (json_stringify : jsval → string) (eventId eventType : string) (event : jsval) (endpointUrl secret : string)
    : service WebhookDelivery :=
  uuid ← ask Uuid; now ← now_ms; id ← ask Uuid;
  let d := {| wd_id := "delivery_" +:+ id; wd_deliveryId := "deliv_" +:+ uuid; wd_eventId := eventId; wd_eventType := eventType;
              wd_endpointUrl := endpointUrl; wd_status := DPending; wd_attempts := []; wd_createdAt := now; wd_updatedAt := now;
              wd_payload := json_stringify event |} in
  _ ← update_store proc (store d);
  later ← now_ms;
  gate ← delivery_gate endpointUrl None None later;
  if negb (canDeliver gate) then
    match gr_retryAt gate with
    | None => Done d
    | Some t =>
        at_ ← now_ms;
        let d := push_attempt (with_retry t (new_attempt 1 at_)) d in
        _ ← update_store proc (store d); Done d
    end
  else attemptDelivery d secret (Some (unix_seconds now)).

Fixpoint retry_each (secret : string) (ds : list WebhookDelivery) : service unit :=
  match ds with
  | [] => Done tt
  | d :: ds =>
      now ← now_ms;
      gate ← delivery_gate (wd_endpointUrl d) None None now;
      _ ← (if negb (canDeliver gate) then
             match gr_retryAt gate with
             | None => Done tt
             | Some t => if bool_decide (wd_attempts d = []) then Done tt
                         else update_store proc (store (change_last (with_retry t) d))
             end
           else later ← now_ms; _ ← attemptDelivery d secret (Some (unix_seconds later)); Done tt);
      retry_each secret ds
  end.

Definition processPendingRetries (secret : string) : service unit :=
  now ← now_ms;
  pending ← ask (OnStore _ proc (λ _ _ s, (getPendingRetries now s, s)));
  retry_each secret pending.

(** The gate around an attempt of the outbox; the attempt is a call of the service. *)
Definition gated_attempt (input : WebhookOutboxRetryInput) (A : Type) (attempt_of : A → WebhookDeliveryAttempt) (deliver : service A)
    (rateLimitConfig : option RateLimitConfig) : service (WebhookOutboxRetryPlan * option A) :=
  let now := in_now input in
  let n := in_attemptNumber input in
  let consumerKey := consumer_key input in
  gate ← delivery_gate consumerKey rateLimitConfig (Some (dimensions_of input)) now;
  if negb (canDeliver gate)
  then Done (plan true (n + 1) (gr_retryAt gate) (in_payload input) (gr_rateLimited gate), None)
  else
    a ← deliver;
    let attempt := attempt_of a in
    failures ← (if delivered attempt then
                  clock ← now_ms; record ← ask (RecordSuccess consumerKey (breaker_policy policy) clock); Done (consecutiveFailures record)
                else if countsTowardCircuitBreaker attempt policy then
                  record ← ask (RecordFailure consumerKey (breaker_policy policy) now); Done (consecutiveFailures record)
                else Done (gr_consecutiveFailures gate));
    if negb (shouldRetry attempt n policy failures)
    then Done (plan false (n + 1) None (in_payload input) None, Some a)
    else
      rnd ← ask Random;
      Done (plan true (n + 1) (Some (calculateNextRetryTime n policy now None rnd)) (augmentPayloadWithRetry (in_payload input) (n + 1)) None, Some a).

End delivery_service.

(** ** The environment *)

Section world.
Context {S L : Type} `{BreakerStore S} `{RateLimiter L}.

(** The breaker and the limiter are shared; every process has its store; [w_sent] is
    what the consumers received, with what they answered. *)
Record service_world : Type := { w_gate : S * L; w_store : nat → DeliveryStore; w_sent : list (post * reply) }.

Definition with_gate (g : S * L) (w : service_world) : service_world := {| w_gate := g; w_store := w_store w; w_sent := w_sent w |}.
Definition with_store (p : nat) (s : DeliveryStore) (w : service_world) : service_world :=
  {| w_gate := w_gate w; w_store := λ q, if decide (q = p) then s else w_store w q; w_sent := w_sent w |}.

Definition service_step X (c : service_command X) (w : service_world) : X → service_world → Prop :=
  match c in service_command X return X → service_world → Prop with
  | Now | Random | Uuid => λ _ w', w' = w
  | Post p => λ r w', w' = {| w_gate := w_gate w; w_store := w_store w; w_sent := w_sent w ++ [(p, r)] |}
  | CheckBreaker key pol now => λ x w', let '(b, s) := checkAndClaimAttempt key pol now (w_gate w).1 in
      x = b ∧ w' = with_gate (s, (w_gate w).2) w
  | RecordSuccess key pol now => λ x w', let '(r, s) := recordSuccess key pol now (w_gate w).1 in
      x = r ∧ w' = with_gate (s, (w_gate w).2) w
  | RecordFailure key pol now => λ x w', let '(r, s) := recordFailure key pol now (w_gate w).1 in
      x = r ∧ w' = with_gate (s, (w_gate w).2) w
  | GetState key => λ x w', x = getState key (w_gate w).1 ∧ w' = w
  | CheckLimit d c => λ x w', let '(r, l) := checkLimit d c (w_gate w).2 in x = r ∧ w' = with_gate ((w_gate w).1, l) w
  | OnStore _ p f => λ x w', ∃ id now, jm_get id (deadLetterQueue (w_store w p)) = None ∧
      x = (f id now (w_store w p)).1 ∧ w' = with_store p (f id now (w_store w p)).2 w
  end.

(** ** Lemmas *)

Notation step := service_step.

(** What every step of the service guarantees: what was sent stays on the record, a
    dead letter stays queued. *)
Record serves (w w' : service_world) : Prop := {
  sv_sent : ∃ l, w_sent w' = w_sent w ++ l;
  sv_dlq : ∀ p, (deadLetterQueue (w_store w p)).*2 ⊆ (deadLetterQueue (w_store w' p)).*2;
}.

Lemma serves_refl w : serves w w.
Proof. split; [exists []; by rewrite app_nil_r|done]. Qed.
Lemma serves_rtc w w' : rtc serves w w' → serves w w'.
Proof.
  induction 1 as [w|w1 w2 w3 [[l Hl] Hd] _ [[l' Hl'] Hd']]; [apply serves_refl|]. split; [|intros p; etrans; [apply Hd|apply Hd']].
  exists (l ++ l'). by rewrite Hl', Hl, app_assoc.
Qed.
Lemma serves_sent w w' x : rtc serves w w' → x ∈ w_sent w → x ∈ w_sent w'.
Proof. intros [[l ->] _]%serves_rtc Hx. apply elem_of_app. by left. Qed.

(** The blocks on a store that the service runs. *)
Definition keeps_letters {X} (f : string → Z → DeliveryStore → X * DeliveryStore) : Prop :=
  ∀ id now s, jm_get id (deadLetterQueue s) = None → (deadLetterQueue s).*2 ⊆ (deadLetterQueue (f id now s).2).*2.

Lemma serves_store X p f w x w' : keeps_letters f → step X (OnStore X p f) w x w' → serves w w'.
Proof.
  intros Hf (id & now & Hid & -> & ->). split; simpl; [exists []; by rewrite app_nil_r|]. intros q. case_decide; [subst q; by apply Hf|done].
Qed.

Definition dead_lettered (deliveryId : string) (w : service_world) : Prop :=
  ∃ p item, item ∈ (deadLetterQueue (w_store w p)).*2 ∧ dl_deliveryId item = deliveryId.

Lemma dead_lettered_later id w w' : rtc serves w w' → dead_lettered id w → dead_lettered id w'.
Proof. intros [_ Hd]%serves_rtc (p & item & Hk & Hi). exists p, item. split; [by apply Hd|done]. Qed.

Notation safe := (safe step serves).

Lemma safe_pure {A X} (Q : A → service_world → Prop) (c : service_command X) (k : X → service A) w :
  (∀ w1 x w2, step X c w1 x w2 → serves w1 w2) → (∀ x w1, rtc serves w w1 → safe Q (k x) w1) → safe Q (Do c k) w.
Proof.
  intros Hc Hk w1 x w2 Hw Hst. pose proof (Hc _ _ _ Hst) as Hs. split; [done|]. apply Hk. by eapply rtc_r.
Qed.

(** Commands that change neither a store nor the record. *)
Definition harmless {X} (c : service_command X) : bool := match c with Post _ | OnStore _ _ _ => false | _ => true end.

Lemma serves_harmless X (c : service_command X) w x w' : harmless c = true → step X c w x w' → serves w w'.
Proof.
  assert (∀ g, serves w (with_gate g w)) as Hg by (intros g; split; [exists []; simpl; by rewrite app_nil_r|done]).
  destruct c; simpl; try done; intros _.
  1-3: intros ->; apply serves_refl.
  - destruct (checkAndClaimAttempt _ _ _ _). by intros [_ ->].
  - destruct (recordSuccess _ _ _ _). by intros [_ ->].
  - destruct (recordFailure _ _ _ _). by intros [_ ->].
  - intros [_ ->]. apply serves_refl.
  - destruct (checkLimit _ _ _). by intros [_ ->].
Qed.

Lemma safe_harmless {A X} (Q : A → service_world → Prop) (c : service_command X) (k : X → service A) w :
  harmless c = true → (∀ x w1, rtc serves w w1 → safe Q (k x) w1) → safe Q (Do c k) w.
Proof. intros Hc. apply safe_pure. intros w1 x w2. by apply serves_harmless. Qed.

Lemma safe_update {A} (Q : A → service_world → Prop) p f (k : unit → service A) w :
  (∀ s, deadLetterQueue (f s) = deadLetterQueue s) → (∀ w1, rtc serves w w1 → safe Q (k tt) w1) → safe Q (Do (OnStore unit p (λ _ _ s, (tt, f s))) k) w.
Proof.
  intros Hf Hk. apply safe_pure; [|by intros []]. intros w1 x w2. apply serves_store. intros id now s _. simpl. by rewrite Hf.
Qed.

Section calls.
Context (Date_parse : string → option Z) (sign : string → string → string → string) (proc : nat)
        (policy : EnhancedRetryPolicy) (webhookMaxResponseBytes : Z).
Notation received := (received webhookMaxResponseBytes).

Definition accepted (r : reply) : bool := match received r with Ok resp => response_ok resp | Err _ => false end.

(** The attempt records what came back. *)
Definition answers (r : reply) (a : WebhookDeliveryAttempt) : Prop :=
  match received r with
  | Ok resp => at_statusCode a = Some (rs_status resp) ∧ at_error a = None
  | Err m => at_statusCode a = None ∧ at_error a = Some m
  end.

Lemma answers_delivered r a : answers r a → delivered a = accepted r.
Proof.
  unfold answers, delivered, accepted, no_error, response_ok. destruct (received r) as [resp|m]; intros [Hc He]; rewrite Hc, ?He; [|done].
  rewrite andb_true_r. f_equal. destruct (Z.ltb_spec (rs_status resp) 300), (Z.leb_spec (rs_status resp) 299); lia.
Qed.

(** The consumer of a delivery was reached, with this attempt as the outcome. *)
Definition posted (deliveryId : string) (a : WebhookDeliveryAttempt) (w : service_world) : Prop :=
  ∃ p r, (p, r) ∈ w_sent w ∧ po_deliveryId p = deliveryId ∧ answers r a.

Lemma posted_later id a w w' : rtc serves w w' → posted id a w → posted id a w'.
Proof. intros Hw (p & r & Hp & H'). exists p, r. split; [by eapply serves_sent|done]. Qed.

Lemma answers_retry r a t : answers r a → answers r (with_retry t a).
Proof. unfold answers. by destruct (received r). Qed.

Definition attempted (d : WebhookDelivery) (x : WebhookDelivery * WebhookDeliveryAttempt) (w : service_world) : Prop :=
  posted (wd_deliveryId d) x.2 w ∧ wd_deliveryId x.1 = wd_deliveryId d ∧ wd_endpointUrl x.1 = wd_endpointUrl d ∧
  wd_attempts x.1 = wd_attempts d ++ [x.2] ∧ wd_status x.1 = if delivered x.2 then DDelivered else DPending.

Lemma safe_next_retry {A} (Q : A → service_world → Prop) n (k : Z → service A) w :
  (∀ t w1, rtc serves w w1 → safe Q (k t) w1) → safe Q (eff_then (next_retry policy n) k) w.
Proof. intros Hk. apply safe_harmless; [done|]. intros now w1 Hw1. apply safe_harmless; [done|]. intros rnd w2 Hw2. apply Hk. by etrans. Qed.

Lemma safe_timestamp {A} (Q : A → service_world → Prop) ts (k : string → service A) w :
  (∀ t w1, rtc serves w w1 → safe Q (k t) w1) → safe Q (eff_then (timestamp_or_now ts) k) w.
Proof.
  intros Hk. unfold timestamp_or_now. destruct ts as [t|]; [destruct (str_empty t)|]; [|by apply Hk|]; (apply safe_harmless; [done|]; intros now w1 Hw1; by apply Hk).
Qed.

Lemma safe_response_retry {A} (Q : A → service_world → Prop) r n (k : Z → service A) w :
  (∀ t w1, rtc serves w w1 → safe Q (k t) w1) → safe Q (eff_then (response_retry Date_parse policy r n) k) w.
Proof.
  intros Hk. unfold response_retry. destruct (rs_status r =? 429); [|by apply safe_next_retry]. apply safe_harmless; [done|]. intros now w1 Hw1.
  destruct (parseRetryAfter _ _ _) as [ms|].
  - apply safe_harmless; [done|]. intros later w2 Hw2. apply Hk. by etrans.
  - apply safe_next_retry. intros t w2 Hw2. apply Hk. by etrans.
Qed.

Lemma safe_run d secret ts w :
  safe (attempted d) (runDeliveryAttempt Date_parse sign proc policy webhookMaxResponseBytes d secret ts) w.
Proof.
  unfold runDeliveryAttempt. apply safe_timestamp. intros t w1 Hw1. apply safe_harmless; [done|]. intros now w2 Hw2.
  set (n := Z.of_nat (length (wd_attempts d)) + 1). set (a0 := new_attempt n now).
  intros w3 r w4 Hw3 ->. split; [split; [by exists [(post_of sign d secret t, r)]|done]|]. set (w4 := {| w_gate := _ |}).
  assert ((post_of sign d secret t, r) ∈ w_sent w4) as Hsent by (apply elem_of_app; right; by apply list_elem_of_singleton).
  assert (∀ d' a w', rtc serves w4 w' → answers r a → wd_deliveryId d' = wd_deliveryId d → wd_endpointUrl d' = wd_endpointUrl d →
    wd_attempts d' = wd_attempts d ++ [a] → wd_status d' = (if accepted r then DDelivered else DPending) →
    safe (attempted d) (update_store proc (store d') ≫= λ _, Done (d', a)) w') as Hend.
  { intros d' a w' Hw' Ha Hi Hu Hl Hst. apply safe_update; [done|]. intros w5 Hw5 w6 Hw6. split.
    - exists (post_of sign d secret t), r. simpl. split; [|done]. eapply serves_sent; [|exact Hsent]. etrans; [exact Hw'|]. by etrans.
    - simpl. by rewrite (answers_delivered _ _ Ha). }
  unfold accepted, answers in Hend. cbn [eff_bind mbind eff_then ask]. destruct (received r) as [resp|m]; [destruct (response_ok resp)|].
  - by apply Hend; [apply rtc_refl|..].
  - apply safe_then. destruct (shouldRetry _ _ _ _).
    + apply safe_response_retry. intros t' w5 Hw5 w6 Hw6. apply Hend; [by etrans|done..].
    + intros w5 Hw5. by apply Hend.
  - apply safe_then. destruct (shouldRetry _ _ _ _).
    + apply safe_next_retry. intros t' w5 Hw5 w6 Hw6. apply Hend; [by etrans|done..].
    + intros w5 Hw5. by apply Hend.
Qed.

Lemma safe_breaker {A} (Q : A → service_world → Prop) url a (k : Z → service A) w :
  (∀ n w1, rtc serves w w1 → safe Q (k n) w1) → safe Q (eff_then (recordBreakerOutcome policy url a) k) w.
Proof.
  intros Hk. unfold recordBreakerOutcome. destruct (delivered a); [|destruct (negb _)].
  - apply safe_harmless; [done|]. intros now w1 Hw1. apply safe_harmless; [done|]. intros rec w2 Hw2. apply Hk. by etrans.
  - apply safe_harmless; [done|]. intros now w1 Hw1. by apply Hk.
  - apply safe_harmless; [done|]. intros now w1 Hw1. apply safe_harmless; [done|]. intros rec w2 Hw2. apply Hk. by etrans.
Qed.

(** A dead letter of the delivery is queued afterwards. *)
Lemma enqueue_letters d reason code : keeps_letters (λ id now s, (tt, if already_queued (wd_deliveryId d) s then s
    else (addToDeadLetterQueue id d reason (reason_string code) now s).2)).
Proof.
  intros id now s Hid. simpl. destruct (already_queued _ _); [done|]. simpl. rewrite jm_set_fresh by done. rewrite fmap_app. set_solver.
Qed.

Lemma safe_enqueue {A} (Q : A → service_world → Prop) d reason code (k : unit → service A) w :
  (∀ w1, rtc serves w w1 → dead_lettered (wd_deliveryId d) w1 → safe Q (k tt) w1) →
  safe Q (eff_then (enqueuePermanentFailureToDlq proc d reason code) k) w.
Proof.
  intros Hk w1 x w2 Hw Hst. pose proof (serves_store _ _ _ _ _ _ (enqueue_letters d reason code) Hst) as Hs. split; [done|].
  destruct x. apply Hk; [by eapply rtc_r|]. destruct Hst as (id & now & Hid & _ & ->). exists proc. simpl. rewrite decide_True by done.
  destruct (already_queued (wd_deliveryId d) (w_store w1 proc)) eqn:Hq.
  - unfold already_queued in Hq. apply existsb_exists in Hq as (item & Hin & Heq%bool_decide_eq_true). apply list_elem_of_In in Hin.
    unfold getDeadLetterQueueItems in Hin. rewrite drop_0 in Hin. by exists item.
  - simpl. rewrite jm_set_fresh by done. rewrite fmap_app. simpl. eexists. split; [apply elem_of_app; right; by apply list_elem_of_singleton|done].
Qed.

(** Where a delivery stands: the consumer accepted it, it has a time for its next
    attempt, or it is dead-lettered. *)
Definition accounted (d : WebhookDelivery) (w : service_world) : Prop :=
  match wd_status d with
  | DDelivered => ∃ a, posted (wd_deliveryId d) a w ∧ delivered a = true
  | DPending => ∃ a t, list.last (wd_attempts d) = Some a ∧ at_nextRetryAt a = Some t
  | DPermanentFailure => dead_lettered (wd_deliveryId d) w
  | DFailed => False
  end.

Lemma accounted_later d w w' : rtc serves w w' → accounted d w → accounted d w'.
Proof.
  intros Hw. unfold accounted. destruct (wd_status d); [done| |done|by apply dead_lettered_later].
  intros (a & Ha & Hd). exists a. split; [by eapply posted_later|done].
Qed.

Lemma safe_attempt d secret ts w :
  safe accounted (attemptDelivery Date_parse sign proc policy webhookMaxResponseBytes d secret ts) w.
Proof.
  unfold attemptDelivery. apply safe_timestamp. intros t w1 Hw1. apply safe_then. eapply safe_weaken; [|apply safe_run].
  intros [d' a] w2 (Hp & Hi & Hu & Hl & Hst). simpl in Hp, Hi, Hu, Hl, Hst. apply safe_breaker. intros failures w3 Hw3.
  case_bool_decide as Hdel.
  { intros w4 Hw4. unfold accounted. rewrite Hdel, Hi. exists a. split; [eapply posted_later; [|exact Hp]; by etrans|].
    rewrite Hst in Hdel. by destruct (delivered a). }
  destruct (shouldRetry _ _ _ _).
  - apply safe_next_retry. intros t' w4 Hw4. apply safe_update; [done|]. intros w5 Hw5 w6 Hw6. unfold accounted. simpl.
    rewrite Hl. rewrite last_snoc, last_snoc. by eexists _, _.
  - apply safe_update; [done|]. intros w4 Hw4. apply safe_enqueue. intros w5 Hw5 Hdl w6 Hw6. unfold accounted. simpl in *. by eapply dead_lettered_later.
Qed.

Lemma safe_gate {A} (Q : A → service_world → Prop) key config dims now (k : WebhookDeliveryGateResult → service A) w :
  (∀ g w1, rtc serves w w1 → canDeliver g = true ∨ is_Some (gr_retryAt g) → safe Q (k g) w1) →
  safe Q (eff_then (delivery_gate policy key config dims now) k) w.
Proof.
  intros Hk. unfold delivery_gate. apply safe_harmless; [done|]. intros b w1 Hw1. destruct (negb (allowed b)); [by apply Hk; [|right; eexists]|].
  destruct config as [c|]; [|by apply Hk; [|left]]. apply safe_harmless; [done|]. intros l w2 Hw2. cbn [eff_then].
  apply Hk; [by etrans|]. destruct (canAttempt l); [by left|right; by eexists].
Qed.

Lemma safe_queue stringify eventId eventType event url secret w :
  safe accounted (queueDelivery Date_parse sign proc policy webhookMaxResponseBytes stringify eventId eventType event url secret) w.
Proof.
  unfold queueDelivery. do 3 (apply safe_harmless; [done|]; intros ? ? ?). apply safe_update; [done|]. intros ? ?. apply safe_harmless; [done|]. intros ? ? ?.
  apply safe_gate. intros g w5 Hw5 Hg. destruct (negb (canDeliver g)) eqn:Hc; [|apply safe_attempt].
  destruct (gr_retryAt g) as [t|]; [|destruct Hg as [Hg|[? Hg]]; [by rewrite Hg in Hc|done]].
  apply safe_harmless; [done|]. intros now w6 Hw6. apply safe_update; [done|]. intros w7 Hw7 w8 Hw8. unfold accounted. simpl. by eexists _, _.
Qed.

(** What the gate around an attempt tells of its plan. *)
Definition planned (input : WebhookOutboxRetryInput) {A} (attempt_of : A → WebhookDeliveryAttempt) (Q : A → service_world → Prop)
    (x : WebhookOutboxRetryPlan * option A) (w : service_world) : Prop :=
  let n := in_attemptNumber input in
  match x.2 with
  | None => pl_shouldRetry x.1 = true ∧ is_Some (pl_retryAt x.1)
  | Some a => Q a w ∧
      if pl_shouldRetry x.1 then is_Some (pl_retryAt x.1) ∧ pl_payload x.1 = augmentPayloadWithRetry (in_payload input) (n + 1)
      else ∃ failures, shouldRetry (attempt_of a) n policy failures = false
  end.

Lemma safe_gated input {A} (attempt_of : A → WebhookDeliveryAttempt) (Q : A → service_world → Prop) deliver config w :
  (∀ a w1 w2, rtc serves w1 w2 → Q a w1 → Q a w2) → (∀ w1, safe Q deliver w1) →
  safe (planned input attempt_of Q) (gated_attempt policy input A attempt_of deliver config) w.
Proof.
  intros HQ Hd. unfold gated_attempt. apply safe_gate. intros g w1 Hw1 Hg. destruct (negb (canDeliver g)) eqn:Hc.
  { intros w2 Hw2. split; [done|]. destruct Hg as [Hg|Hg]; [by rewrite Hg in Hc|done]. }
  apply safe_then. eapply safe_weaken; [|apply Hd]. intros a w2 Ha. cbv zeta. apply safe_then.
  assert (∀ f w', rtc serves w2 w' → safe (planned input attempt_of Q)
    (if negb (shouldRetry (attempt_of a) (in_attemptNumber input) policy f)
     then Done (plan false (in_attemptNumber input + 1) None (in_payload input) None, Some a)
     else rnd ← ask Random; Done (plan true (in_attemptNumber input + 1)
        (Some (calculateNextRetryTime (in_attemptNumber input) policy (in_now input) None rnd))
        (augmentPayloadWithRetry (in_payload input) (in_attemptNumber input + 1)) None, Some a)) w') as Hend.
  { intros f w' Hw'. destruct (negb (shouldRetry _ _ _ _)) eqn:Hf.
    - intros w3 Hw3. split; [eapply HQ; [|exact Ha]; by etrans|]. exists f. by apply negb_true_iff.
    - apply safe_harmless; [done|]. intros rnd w3 Hw3 w4 Hw4. split; [eapply HQ; [|exact Ha]; etrans; [exact Hw'|by etrans]|]. by split; [eexists|]. }
  destruct (delivered _); [|destruct (countsTowardCircuitBreaker _ _)].
  - apply safe_harmless; [done|]. intros clock w3 Hw3. apply safe_harmless; [done|]. intros rec w4 Hw4 w5 Hw5. apply Hend. etrans; [exact Hw3|by etrans].
  - apply safe_harmless; [done|]. intros rec w4 Hw4 w5 Hw5. apply Hend. by etrans.
  - intros w5 Hw5. by apply Hend.
Qed.

Lemma safe_retry_each secret ds : ∀ w, safe (λ _ _, True) (retry_each Date_parse sign proc policy webhookMaxResponseBytes secret ds) w.
Proof.
  induction ds as [|d ds IH]; intros w; [done|]. apply safe_harmless; [done|]. intros now w1 Hw1. apply safe_gate. intros g w2 Hw2 _.
  apply safe_then. destruct (negb (canDeliver g)).
  - destruct (gr_retryAt g); [case_bool_decide|]; [intros w3 _; apply IH|apply safe_update; [done|]; intros w3 _ w4 _; apply IH|intros w3 _; apply IH].
  - apply safe_harmless; [done|]. intros later w3 Hw3. apply safe_then. eapply safe_weaken; [|apply safe_attempt]. intros d' w4 _ w5 _. apply IH.
Qed.

(** The gate around a call that leaves breaker and limiter alone. *)
Lemma runs_gate key config dims now w g w' :
  runs step (delivery_gate policy key config dims now) w g w' →
  w_store w' = w_store w ∧ w_sent w' = w_sent w ∧ (g, w_gate w') = checkWebhookDeliveryGate key policy config dims now (w_gate w).
Proof.
  unfold delivery_gate, checkWebhookDeliveryGate. unfold mbind, eff_bind. cbn [eff_then ask runs]. intros (b & w1 & Hst & Hr). simpl in Hst.
  destruct (checkAndClaimAttempt _ _ _ _) as [b0 s0]. destruct Hst as [-> ->]. destruct (negb (allowed b0)); [by destruct Hr as [<- <-]|].
  destruct config as [c|]; [|by destruct Hr as [<- <-]]. destruct Hr as (l & w2 & Hst & Hr). simpl in Hst.
  destruct (checkLimit _ _ _) as [l0 s1]. destruct Hst as [-> ->]. destruct Hr as [<- <-]. by destruct (negb (canAttempt l0)).
Qed.

End calls.

Section operations.
Context (Date_parse : string → option Z) (sign : string → string → string → string) (json_stringify : jsval → string)
        (policy : EnhancedRetryPolicy) (webhookMaxResponseBytes : Z).

(** What a process is asked to do. *)
Inductive service_op : Type :=
| Queue (eventId eventType : string) (event : jsval) (endpointUrl secret : string)
| Retries (secret : string).

Definition serve_delivery (o : nat * service_op) : service (option WebhookDelivery) :=
  match o.2 with
  | Queue eventId eventType event url secret =>
      d ← queueDelivery Date_parse sign o.1 policy webhookMaxResponseBytes json_stringify eventId eventType event url secret; Done (Some d)
  | Retries secret => _ ← processPendingRetries Date_parse sign o.1 policy webhookMaxResponseBytes secret; Done None
  end.


(** alone, the delivery gate of the outbox run as the calls it awaits does what
    the gate as a function does, for the attempt that was made and a time and random
    number that were read, whatever call makes the attempt. *)
Theorem gated_attempt_refines input A (attempt_of : A → WebhookDeliveryAttempt) (deliver : service A) config w pl oa w' :
  policy = default DEFAULT_RETRY_POLICY (in_policy input) →
  (∀ w a w', runs step deliver w a w' → w_gate w' = w_gate w) →
  runs step (gated_attempt policy input A attempt_of deliver config) w (pl, oa) w' →
  ∃ attempt clock rnd, ((pl, attempt_of <$> oa), w_gate w') = attemptWebhookDeliveryWithRateLimit input attempt config clock rnd (w_gate w).
Proof.
  intros Hpol Hd. unfold gated_attempt. unfold mbind, eff_bind. rewrite runs_then. intros (g & w1 & (Hs1 & Hs2 & Hg)%runs_gate & Hr).
  unfold attemptWebhookDeliveryWithRateLimit. rewrite <- Hpol.
  destruct (negb (canDeliver g)) eqn:Hc.
  { destruct Hr as [[= <- <-] <-]. exists (new_attempt 0 0), 0, 0%Q. rewrite <- Hg. by rewrite Hc. }
  rewrite runs_then in Hr. destruct Hr as (a & w2 & Ha & Hr). pose proof (Hd _ _ _ Ha) as Hg2. rewrite runs_then in Hr.
  destruct Hr as (failures & w3 & Hf & Hr). exists (attempt_of a).
  assert (∃ clock, (failures, w_gate w3) = (let '(f, st) :=
    if delivered (attempt_of a) then let '(record, st) := recordSuccess (consumer_key input) (breaker_policy policy) clock (w_gate w1).1 in (consecutiveFailures record, st)
    else if countsTowardCircuitBreaker (attempt_of a) policy then
      let '(record, st) := recordFailure (consumer_key input) (breaker_policy policy) (in_now input) (w_gate w1).1 in (consecutiveFailures record, st)
    else (gr_consecutiveFailures g, (w_gate w1).1) in (f, (st, (w_gate w1).2)))) as [clock Hrec].
  { rewrite <- Hg2. destruct (delivered _); [|destruct (countsTowardCircuitBreaker _ _)].
    - destruct Hf as (clock & w4 & -> & rec & w5 & Hst & [<- <-]). exists clock. simpl in Hst. destruct (recordSuccess _ _ _ _). by destruct Hst as [-> ->].
    - destruct Hf as (rec & w5 & Hst & [<- <-]). exists 0. simpl in Hst. destruct (recordFailure _ _ _ _). by destruct Hst as [-> ->].
    - destruct Hf as [<- <-]. exists 0. by destruct (w_gate w2). }
  exists clock. rewrite <- Hg, Hc. cbn [fst snd].
  match type of Hrec with _ = (let '(f, st) := ?out in _) => destruct out as [f st] end. injection Hrec as -> Hgate.
  destruct (negb (shouldRetry _ _ _ _)).
  - destruct Hr as [[= <- <-] <-]. exists 0%Q. by rewrite Hgate.
  - destruct Hr as (rnd & w4 & -> & [[= <- <-] <-]). exists rnd. by rewrite Hgate.
Qed.

End operations.

End world.


(** ** Witnesses *)

#[local] Instance budget : RateLimiter nat := {|
  checkLimit _ _ n := match n with
    | O => ({| canAttempt := false; retryAfterMs := Some 250 |}, 0%nat)
    | Datatypes.S n => ({| canAttempt := true; retryAfterMs := None |}, n) end |}.

Definition empty_store : DeliveryStore := {|
  heap := ∅; outbox := []; queues := []; deliveries := []; deliveryIdIndex := []; deadLetterQueue := []; metrics := no_metrics |}.
Definition idle : @service_world Memory nat := {| w_gate := (mem_empty, 3%nat); w_store := λ _, empty_store; w_sent := [] |}.
Definition ok_response : response := {| rs_status := 200; rs_contentType := Some "text/plain"; rs_retryAfter := None; rs_chunks := [2] |}.
Definition no_date (_ : string) : option Z := None.
Definition weak_sign (secret ts payload : string) : string := secret.

Definition sample_queue : service (option WebhookDelivery) :=
  serve_delivery no_date weak_sign (λ _, "{}") DEFAULT_RETRY_POLICY 10 (0%nat, Queue "e" "stream.created" (JObj []) "https://a" "s").

Lemma sample_queue_runs : ∃ d w', runs (@service_step Memory nat (memory_store id) budget) sample_queue idle (Some d) w' ∧ wd_status d = DDelivered.
Proof.
  unfold sample_queue, serve_delivery. eexists _, _. split.
  - exists "u". eexists. split; [reflexivity|]. exists 5. eexists. split; [reflexivity|]. exists "v". eexists. split; [reflexivity|].
    exists tt. eexists. split; [exists "x", 5; repeat split|]. exists 5. eexists. split; [reflexivity|].
    eexists. eexists. split; [split; reflexivity|]. exists 6. eexists. split; [reflexivity|]. exists (Responded ok_response). eexists. split; [reflexivity|].
    exists tt. eexists. split; [exists "x", 7; repeat split|]. exists 7. eexists. split; [reflexivity|].
    eexists. eexists. split; [split; reflexivity|]. split; reflexivity.
  - reflexivity.
Qed.


Definition sample_post : post := {|
  po_url := "https://a"; po_payload := "{}"; po_deliveryId := "d"; po_eventType := "stream.created"; po_timestamp := "5"; po_signature := "s" |}.
Definition busy (now : Z) : WebhookOutboxRetryInput := {|
  in_consumerUrl := Some "https://a"; in_streamId := "s"; in_payload := JObj []; in_attemptNumber := 1; in_policy := None; in_now := now |}.
Definition answered_503 : service WebhookDeliveryAttempt := _ ← ask (Post sample_post); Done (with_code 503 (new_attempt 1 5)).

Lemma gated_attempt_refines_witness : ∃ pl oa w' attempt clock rnd,
  pl_shouldRetry pl = true ∧ ((pl, oa), w_gate w') =
    @attemptWebhookDeliveryWithRateLimit Memory nat (memory_store id) budget (busy 5) attempt None clock rnd (w_gate idle).
Proof.
  assert (∃ pl oa w', pl_shouldRetry pl = true ∧
    runs (@service_step Memory nat (memory_store id) budget) (gated_attempt DEFAULT_RETRY_POLICY (busy 5) _ id answered_503 None) idle (pl, oa) w')
    as (pl & oa & w' & Hpl & Hr).
  { eexists _, _, _. split; [|eexists; eexists; split; [split; reflexivity|]; exists (Failed "e"); eexists; split; [reflexivity|];
      eexists; eexists; split; [split; reflexivity|]; exists 0%Q; eexists; split; [reflexivity|]; split; reflexivity]. reflexivity. }
  exists pl, (id <$> oa), w'.
  destruct (@gated_attempt_refines Memory nat (memory_store id) budget DEFAULT_RETRY_POLICY (busy 5) WebhookDeliveryAttempt id answered_503 None idle pl oa w' eq_refl) as (a & c & r & E); [|exact Hr|].
  - intros w a w1 (x & w2 & -> & [_ <-]). reflexivity.
  - exists a, c, r. split; [exact Hpl|exact E].
Defined.
