(* ===== verification/OutboxDispatcher.v ===== *)
(** * The outbox dispatcher ([src/webhooks/outbox-dispatcher.ts], [outbox-row.ts])

    Each poll locks a batch of due rows of [webhook_outbox] in one transaction
    (FOR UPDATE SKIP LOCKED), delivers them one by one with the delivery service and
    writes what becomes of them, so that a commit settles the whole batch.  Any
    statement may be rejected, a commit may be executed with its reply lost, a
    connection may be lost at any time (its transaction is rolled back and its locks
    released), a call may stop anywhere, and the polls of several processes
    interleave.  The clock is any set of times.  A poll that finds another one of
    its process in flight waits for it; the timer that starts polls is left out. *)
From Stdlib Require Import Ascii ZArith QArith Qround Lia.
From stdpp Require Import base gmap strings list sorting relations.
From S2P Require Import Prelude Effects Redis CircuitBreaker Retry DeliveryGate EventStore Outbox WebhookDelivery.
Local Open Scope string_scope.
Local Open Scope list_scope.
Local Open Scope Z_scope.

(** ** Rows *)

Record OutboxRow : Type := {
  ob_id : Z; ob_stream_id : string; ob_event_type : string; ob_payload : jsval; ob_created_at : Z; ob_processed : bool;
}.

Definition mark (id : Z) (r : OutboxRow) : OutboxRow :=
  if ob_id r =? id then
    {| ob_id := ob_id r; ob_stream_id := ob_stream_id r; ob_event_type := ob_event_type r; ob_payload := ob_payload r;
       ob_created_at := ob_created_at r; ob_processed := true |}
  else r.

(** What a transaction writes; an inserted row has its id from the sequence. *)
Inductive row_write : Type := MarkProcessed (id : Z) | InsertRow (r : OutboxRow).

Definition apply_row_write (t : list OutboxRow) (w : row_write) : list OutboxRow :=
  match w with MarkProcessed id => mark id <$> t | InsertRow r => t ++ [r] end.
Definition apply_row_writes (ws : list row_write) (t : list OutboxRow) : list OutboxRow := foldl apply_row_write t ws.

(** ORDER BY created_at, id. *)
Definition dispatch_order (a b : OutboxRow) : Prop :=
  ob_created_at a < ob_created_at b ∨ (ob_created_at a = ob_created_at b ∧ ob_id a <= ob_id b).
#[export] Instance dispatch_order_dec : RelDecision dispatch_order.
Proof. intros a b. unfold dispatch_order. apply _. Defined.

(** ** The dispatcher *)

Record dispatcher : Type := { stopped : bool; inFlight : bool; consecutiveBatchFailures : Z; currentBatchBackoffMs : Z }.

Definition set_in_flight (b : bool) (d : dispatcher) : dispatcher := {|
  stopped := stopped d; inFlight := b; consecutiveBatchFailures := consecutiveBatchFailures d; currentBatchBackoffMs := currentBatchBackoffMs d |}.

Definition resetBatchBackoff (d : dispatcher) : dispatcher := {|
  stopped := stopped d; inFlight := inFlight d; consecutiveBatchFailures := 0; currentBatchBackoffMs := 0 |}.

(** The delay doubles with every failure up to the bound, with a quarter of jitter;
    [rnd] is [Math.random()]. *)
Definition batch_backoff (pollIntervalMs maxBatchBackoffMs failures : Z) (rnd : Q) : Z :=
  let capped := Z.min (pollIntervalMs * 2 ^ (failures - 1)) maxBatchBackoffMs in
  Z.max 0 (Math_round (inject_Z capped + inject_Z capped * (rnd * (1 # 2) - (1 # 4)))%Q).

Definition recordBatchFailure (pollIntervalMs maxBatchBackoffMs : Z) (rnd : Q) (d : dispatcher) : dispatcher :=
  let failures := consecutiveBatchFailures d + 1 in
  {| stopped := stopped d; inFlight := inFlight d; consecutiveBatchFailures := failures;
     currentBatchBackoffMs := batch_backoff pollIntervalMs maxBatchBackoffMs failures rnd |}.

Definition set_stopped (d : dispatcher) : dispatcher := {|
  stopped := true; inFlight := inFlight d; consecutiveBatchFailures := consecutiveBatchFailures d; currentBatchBackoffMs := currentBatchBackoffMs d |}.

(** ** Commands *)

(** A connection is named by the call that holds it.  [Dispatcher] is a synchronous
    block on the dispatcher of a process; it receives a random number. *)
Inductive outbox_command : Type → Type :=
| Service (X : Type) (c : service_command X) : outbox_command X
| Connect : outbox_command (result string unit)
| Begin (call : nat) : outbox_command (result string unit)
| SelectDue (call : nat) (limit : Z) : outbox_command (result string (list OutboxRow))
| MarkRow (call : nat) (id : Z) : outbox_command (result string unit)
| Insert (call : nat) (stream_id event_type : string) (payload : jsval) (created_at : Z) : outbox_command (result string unit)
| Commit (call : nat) : outbox_command (result string unit)
| Rollback (call : nat) : outbox_command (result string unit)
| LoseConnection (call : nat) : outbox_command unit
| Sleep (ms : Z) : outbox_command unit
| Dispatcher (X : Type) (proc : nat) (f : Q → dispatcher → X * dispatcher) : outbox_command X.

Inductive DispatchError : Type := EndpointRejected (message : string) | StatementFailed (message : string).

Notation call A := (eff outbox_command (result DispatchError A)).

(** Awaiting a statement: a rejection is thrown. *)
Definition query {A B} (c : outbox_command (result string A)) (k : A → call B) : call B :=
  Do c (λ r, match r with Ok a => k a | Err e => Done (Err (StatementFailed e)) end).

(** Awaiting a call of the delivery service. *)
Definition serviced {A B} (p : eff service_command A) (k : A → call B) : call B := eff_then (embed Service p) k.

Definition on_dispatcher {X B} (proc : nat) (f : Q → dispatcher → X * dispatcher) (k : X → call B) : call B := Do (Dispatcher X proc f) k.

(** ** One row *)

Section dispatching.
Context (json_parse : string → option jsval) (json_stringify : jsval → string) (Date_parse : string → option Z)
        (parseURL : string → option endpoint) (production : bool) (sign : string → string → string → string)
        (policy : EnhancedRetryPolicy) (rateLimitConfig : RateLimitConfig) (webhookMaxResponseBytes : Z)
        (endpointUrl secret : option string) (batchSize pollIntervalMs maxBatchBackoffMs : Z).

(** [if (!x)] for an optional string. *)
Definition given (x : option string) : option string := match x with Some s => if str_empty s then None else Some s | None => None end.

(** [None] without a configured endpoint; the assertion throws. *)
Definition resolveEndpoint (row : OutboxRow) : result string (option (string * string)) :=
  match given endpointUrl, given secret with
  | Some url, Some sec =>
      let field k dflt := match normalizePayload json_parse (ob_payload row) with
                          | JObj o => match js_get o k with JStr s => s | _ => dflt end
                          | _ => dflt
                          end in
      let url := field "endpointUrl" url in
      match assertSafeWebhookEndpoint parseURL production url with
      | Err e => Err e
      | Ok _ => Ok (Some (url, field "secret" sec))
      end
  | _, _ => Ok None
  end.

Definition delivery_id (row : OutboxRow) : string := "outbox_" +:+ int_string (ob_id row).

Definition row_delivery (row : OutboxRow) (url : string) (status : WebhookDeliveryStatus) (attempts : list WebhookDeliveryAttempt)
    (now : Z) : WebhookDelivery := {|
  wd_id := delivery_id row; wd_deliveryId := delivery_id row; wd_eventId := ob_stream_id row; wd_eventType := ob_event_type row;
  wd_endpointUrl := url; wd_status := status; wd_attempts := attempts; wd_createdAt := ob_created_at row; wd_updatedAt := now;
  wd_payload := json_stringify (normalizePayload json_parse (ob_payload row)) |}.

(** The attempts before this one, which nobody recorded. *)
Definition earlier_attempts (attemptNumber now : Z) : list WebhookDeliveryAttempt :=
  (λ i : nat, new_attempt (Z.of_nat i + 1) now) <$> seq 0 (Z.to_nat (attemptNumber - 1)).

(** Invalid before any attempt; the URL is looked at on the first one only. *)
Definition poisoned (payload : jsval) (url : string) (attemptNumber : Z) : bool :=
  negb (is_ok (validateWebhookPayload json_parse payload))
  || ((attemptNumber =? 1) && negb (is_ok (validateWebhookUrl parseURL url))).

Definition attempt_input (row : OutboxRow) (url : string) (payload : jsval) (attemptNumber now : Z) : WebhookOutboxRetryInput := {|
  in_consumerUrl := Some url; in_streamId := ob_stream_id row; in_payload := payload; in_attemptNumber := attemptNumber;
  in_policy := Some policy; in_now := now |}.

Definition poison_text (attempt : WebhookDeliveryAttempt) : string :=
  if no_error attempt then "Poison detected: non-retryable status " +:+ match at_statusCode attempt with Some c => int_string c | None => "undefined" end
  else "Poison detected: " +:+ default "" (at_error attempt).

(** What [deliverOutboxRow] does once the attempt was made or deferred. *)
Definition settle (i proc : nat) (row : OutboxRow) (url : string) (payload : jsval)
    (x : WebhookOutboxRetryPlan * option (WebhookDelivery * WebhookDeliveryAttempt)) : call unit :=
  let result := x.1 in
  query (MarkRow i (ob_id row)) (λ _,
  match x.2 with
  | None =>
      match pl_shouldRetry result, pl_retryAt result with
      | true, Some t => query (Insert i (ob_stream_id row) (ob_event_type row) payload t) (λ _, Done (Ok tt))
      | _, _ => Done (Ok tt)
      end
  | Some (d, attempt) =>
      match classifyPoisonFailure json_parse parseURL payload url (at_statusCode attempt) policy (at_error attempt) with
      | Some Poison | Some TimeoutReason =>
          let d := push_attempt attempt (set_status DPermanentFailure d) in
          serviced (update_store proc (mutate d)) (λ _,
          serviced (enqueuePermanentFailureToDlq proc d (poison_text attempt) Poison) (λ _, Done (Ok tt)))
      | _ =>
          match pl_shouldRetry result, pl_retryAt result with
          | true, Some t =>
              serviced (update_store proc (mutate (set_status DPending (change_last (with_retry t) d)))) (λ _,
              query (Insert i (ob_stream_id row) (ob_event_type row) (pl_payload result) t) (λ _, Done (Ok tt)))
          | true, None => Done (Ok tt)
          | false, _ =>
              serviced (update_store proc (mutate (set_status (if delivered attempt then DDelivered else DPermanentFailure) d))) (λ _,
              Done (Ok tt))
          end
      end
  end).

Definition deliverOutboxRow (i proc : nat) (row : OutboxRow) : call unit :=
  match resolveEndpoint row with
  | Err e => Done (Err (EndpointRejected e))
  | Ok None => Done (Ok tt)
  | Ok (Some (url, sec)) =>
      let payload := normalizePayload json_parse (ob_payload row) in
      let attemptNumber := extractAttemptNumber payload in
      serviced now_ms (λ now,
      if poisoned payload url attemptNumber then
        serviced (enqueuePermanentFailureToDlq proc (row_delivery row url DPermanentFailure [] now)
                    "Webhook payload or endpoint is structurally invalid and non-retryable" Poison) (λ _,
        query (MarkRow i (ob_id row)) (λ _, Done (Ok tt)))
      else
        serviced (gated_attempt policy (attempt_input row url payload attemptNumber now) _ snd
                    (runDeliveryAttempt Date_parse sign proc policy webhookMaxResponseBytes
                       (row_delivery row url DPending (earlier_attempts attemptNumber now) now) sec None)
                    (Some rateLimitConfig)) (settle i proc row url payload))
  end.

(** ** One batch *)

Fixpoint deliver_rows (i proc : nat) (rows : list OutboxRow) : call unit :=
  match rows with
  | [] => Done (Ok tt)
  | row :: rows => try_bind (deliverOutboxRow i proc row) (λ _, deliver_rows i proc rows)
  end.

(** The [try] block of [processBatch]. *)
Definition batch_body (i proc : nat) : call unit :=
  query (Begin i) (λ _,
  query (SelectDue i batchSize) (λ rows,
  try_bind (deliver_rows i proc rows) (λ _,
  query (Commit i) (λ _, on_dispatcher proc (λ _ d, (tt, resetBatchBackoff d)) (λ _, Done (Ok tt)))))).

(** [catch]: a failed batch is rolled back, which may fail too, and counted. *)
Definition processBatch (i proc : nat) : call unit :=
  match given endpointUrl, given secret with
  | Some _, Some _ =>
      on_dispatcher proc (λ _ d, (d, d)) (λ d,
      let run := query Connect (λ _, eff_then (batch_body i proc) (λ r,
        match r with
        | Ok _ => Done (Ok tt)
        | Err _ => Do (Rollback i) (λ _, on_dispatcher proc (λ rnd d, (tt, recordBatchFailure pollIntervalMs maxBatchBackoffMs rnd d)) (λ _, Done (Ok tt)))
        end)) in
      if 0 <? currentBatchBackoffMs d then
        Do (Sleep (currentBatchBackoffMs d)) (λ _, on_dispatcher proc (λ _ d, (stopped d, d)) (λ b, if b then Done (Ok tt) else run))
      else run)
  | _, _ => Done (Ok tt)
  end.

(** A poll in flight is shared: a second one only waits for it. *)
Definition pollOnce (i proc : nat) : call unit :=
  on_dispatcher proc (λ _ d, (inFlight d, set_in_flight true d)) (λ b,
  if b then Done (Ok tt)
  else eff_then (processBatch i proc) (λ r, on_dispatcher proc (λ _ d, (tt, set_in_flight false d)) (λ _, Done r))).

(** What happens: a poll of a process, its stop, the loss of a connection. *)
Inductive dispatch_op : Type := Poll (proc : nat) | StopDispatcher (proc : nat) | Disconnect (i : nat).

Definition dispatch (i : nat) (o : dispatch_op) : call unit :=
  match o with
  | Poll proc => pollOnce i proc
  | StopDispatcher proc => on_dispatcher proc (λ _ d, (tt, set_stopped d)) (λ _, Done (Ok tt))
  | Disconnect j => Do (LoseConnection j) (λ _, Done (Ok tt))
  end.

End dispatching.

(** ** The environment *)

Section environment.
Context {S L : Type} `{BreakerStore S} `{RateLimiter L} (times : Z → Prop) (faulty : Prop).

Record world : Type := {
  w_service : @service_world S L; w_rows : list OutboxRow; w_seq : Z; w_tx : nat → option (list row_write);
  w_locks : gmap Z nat; w_dispatcher : nat → dispatcher;
}.

Definition with_service (s : service_world) (w : world) : world :=
  {| w_service := s; w_rows := w_rows w; w_seq := w_seq w; w_tx := w_tx w; w_locks := w_locks w; w_dispatcher := w_dispatcher w |}.
Definition with_tx (i : nat) (t : option (list row_write)) (w : world) : world :=
  {| w_service := w_service w; w_rows := w_rows w; w_seq := w_seq w; w_tx := λ j, if decide (j = i) then t else w_tx w j;
     w_locks := w_locks w; w_dispatcher := w_dispatcher w |}.
Definition with_locks (l : gmap Z nat) (w : world) : world :=
  {| w_service := w_service w; w_rows := w_rows w; w_seq := w_seq w; w_tx := w_tx w; w_locks := l; w_dispatcher := w_dispatcher w |}.
Definition with_rows (t : list OutboxRow) (w : world) : world :=
  {| w_service := w_service w; w_rows := t; w_seq := w_seq w; w_tx := w_tx w; w_locks := w_locks w; w_dispatcher := w_dispatcher w |}.
Definition with_dispatcher (p : nat) (d : dispatcher) (w : world) : world :=
  {| w_service := w_service w; w_rows := w_rows w; w_seq := w_seq w; w_tx := w_tx w; w_locks := w_locks w;
     w_dispatcher := λ q, if decide (q = p) then d else w_dispatcher w q |}.
Definition next_id (w : world) : world :=
  {| w_service := w_service w; w_rows := w_rows w; w_seq := w_seq w + 1; w_tx := w_tx w; w_locks := w_locks w; w_dispatcher := w_dispatcher w |}.

(** The end of a transaction. *)
Definition release (i : nat) (w : world) : world := with_tx i None (with_locks (filter (λ kv, kv.2 ≠ i) (w_locks w)) w).

(** Due and locked by nobody. *)
Definition due (now limit : Z) (w : world) : list OutboxRow :=
  take (Z.to_nat limit) (merge_sort dispatch_order
    (filter (λ r, ob_processed r = false ∧ ob_created_at r <= now ∧ w_locks w !! ob_id r = None) (w_rows w))).
Definition lock_rows (i : nat) (rows : list OutboxRow) (w : world) : world :=
  with_locks (foldr (λ r l, <[ob_id r := i]> l) (w_locks w) rows) w.

(** A statement of an open transaction is executed, or rejected; the reply of an
    executed one may be lost.  Without a transaction it is rejected. *)
Definition executed {A} (a : A) (new w : world) (r : result string A) (w' : world) : Prop :=
  (faulty ∧ w' = w ∧ ∃ e, r = Err e) ∨ (w' = new ∧ (r = Ok a ∨ (faulty ∧ ∃ e, r = Err e))).
Definition in_tx {A} (i : nat) (w : world) (run : list row_write → result string A → world → Prop) (r : result string A) (w' : world) : Prop :=
  match w_tx w i with Some ws => run ws r w' | None => w' = w ∧ ∃ e, r = Err e end.

Definition command_step X (c : outbox_command X) (w : world) : X → world → Prop :=
  match c in outbox_command X return X → world → Prop with
  | Service _ c => λ x w', ∃ s, service_step _ c (w_service w) x s ∧ w' = with_service s w
  | Connect => λ r w', w' = w ∧ (r = Ok tt ∨ (faulty ∧ ∃ e, r = Err e))
  | Begin i => λ r w', executed tt (with_tx i (Some []) w) w r w'
  | SelectDue i limit => λ r w', in_tx i w (λ _ r w', ∃ now, times now ∧ executed (due now limit w) (lock_rows i (due now limit w) w) w r w') r w'
  | MarkRow i id => λ r w', in_tx i w (λ ws, executed tt (with_tx i (Some (ws ++ [MarkProcessed id])) w) w) r w'
  | Insert i s e p t => λ r w', in_tx i w (λ ws, executed tt (with_tx i (Some (ws ++
      [InsertRow {| ob_id := w_seq w; ob_stream_id := s; ob_event_type := e; ob_payload := p; ob_created_at := t; ob_processed := false |}]))
      (next_id w)) w) r w'
  | Commit i => λ r w', in_tx i w (λ ws, executed tt (with_rows (apply_row_writes ws (w_rows w)) (release i w)) w) r w'
  | Rollback i => λ r w', executed tt (release i w) w r w'
  | LoseConnection i => λ _ w', w' = release i w
  | Sleep _ => λ _ w', w' = w
  | Dispatcher _ p f => λ x w', ∃ rnd, x = (f rnd (w_dispatcher w p)).1 ∧ w' = with_dispatcher p (f rnd (w_dispatcher w p)).2 w
  end.

(** ** What becomes of a row *)

Section outcomes.
Context (json_parse : string → option jsval) (json_stringify : jsval → string) (Date_parse : string → option Z)
        (parseURL : string → option endpoint) (production : bool) (sign : string → string → string → string)
        (policy : EnhancedRetryPolicy) (rateLimitConfig : RateLimitConfig) (webhookMaxResponseBytes : Z)
        (endpointUrl secret : option string) (batchSize pollIntervalMs maxBatchBackoffMs : Z).

Notation step := command_step.

(** The same row, processed or not. *)
Definition same_row (a b : OutboxRow) : Prop :=
  ob_id a = ob_id b ∧ ob_stream_id a = ob_stream_id b ∧ ob_event_type a = ob_event_type b ∧ ob_payload a = ob_payload b ∧
  ob_created_at a = ob_created_at b ∧ (ob_processed a = true → ob_processed b = true).

(** The row that carries the event of [a] on. *)
Definition successor (a b : OutboxRow) : Prop :=
  ob_id a < ob_id b ∧ ob_stream_id b = ob_stream_id a ∧ ob_event_type b = ob_event_type a ∧
  let payload := normalizePayload json_parse (ob_payload a) in
  ob_payload b = payload ∨ ∃ n, ob_payload b = augmentPayloadWithRetry payload n.

Definition posted_row (a : WebhookDeliveryAttempt) (r : OutboxRow) (w : @service_world S L) : Prop :=
  posted webhookMaxResponseBytes (delivery_id r) a w.

(** Why a row may be marked processed: its consumer accepted it, it is dead-lettered,
    it lives on in a row of [t], or its last attempt was its last by the policy. *)
Definition outcome (w : @service_world S L) (r : OutboxRow) (t : list OutboxRow) : Prop :=
  (∃ a, posted_row a r w ∧ delivered a = true) ∨
  dead_lettered (delivery_id r) w ∨
  (∃ r', r' ∈ t ∧ successor r r') ∨
  (∃ a failures, posted_row a r w ∧ delivered a = false ∧
     shouldRetry a (extractAttemptNumber (normalizePayload json_parse (ob_payload r))) policy failures = false).

Definition inserts (ws : list row_write) : list OutboxRow := omap (λ x, match x with InsertRow r => Some r | MarkProcessed _ => None end) ws.
Definition pending (w : world) (i : nat) : list Z := match w_tx w i with Some ws => ob_id <$> inserts ws | None => [] end.

Record sound (w : world) : Prop := {
  so_ids : NoDup (ob_id <$> w_rows w);
  so_seq : ∀ id, id ∈ ob_id <$> w_rows w → id < w_seq w;
  so_pending : ∀ i, NoDup (pending w i);
  so_fresh : ∀ i id, id ∈ pending w i → id < w_seq w ∧ id ∉ ob_id <$> w_rows w;
  so_disjoint : ∀ i j id, i ≠ j → id ∈ pending w i → id ∉ pending w j;
  so_new : ∀ i ws r, w_tx w i = Some ws → r ∈ inserts ws → ob_processed r = false;
  so_settled : ∀ r, r ∈ w_rows w → ob_processed r = true → outcome (w_service w) r (w_rows w);
}.

(** The row of these contents is in the table. *)
Definition listed (r : OutboxRow) (w : world) : Prop := ∃ r', r' ∈ w_rows w ∧ same_row r r'.

(** What the steps of call [i] guarantee to the others. *)
Record respects (i : nat) (w w' : world) : Prop := {
  re_service : serves (w_service w) (w_service w');
  re_tx : ∀ j, j ≠ i → w_tx w' j = w_tx w j ∨ w_tx w' j = None;
  re_rows : ∀ r, r ∈ w_rows w → listed r w';
  re_sound : sound w → sound w';
}.

(** Every row the transaction of [i] marks, except [skip], has its outcome. *)
Definition justified (i : nat) (skip : option Z) (w : world) : Prop :=
  ∀ ws id, w_tx w i = Some ws → MarkProcessed id ∈ ws → Some id ≠ skip →
    ∃ r, r ∈ w_rows w ∧ ob_id r = id ∧ outcome (w_service w) r (inserts ws).

(** *** Rows *)
Lemma same_row_refl r : same_row r r.
Proof. by repeat split. Qed.
Lemma same_row_trans a b c : same_row a b → same_row b c → same_row a c.
Proof. intros (?&?&?&?&?&?) (?&?&?&?&?&?). unfold same_row. repeat split; try congruence. auto. Qed.
Lemma mark_same id r : same_row r (mark id r).
Proof. unfold mark. destruct (ob_id r =? id); by repeat split. Qed.
Lemma listed_refl r w : r ∈ w_rows w → listed r w.
Proof. intros Hr. exists r. split; [done|apply same_row_refl]. Qed.

Lemma successor_same a b b' : successor a b → same_row b b' → successor a b'.
Proof. intros (H1 & H2 & H3 & H4) (E1 & E2 & E3 & E4 & _). unfold successor. by rewrite <- E1, <- E2, <- E3, <- E4. Qed.
Lemma successor_of_same a a' b : successor a b → same_row a a' → successor a' b.
Proof. intros (H1 & H2 & H3 & H4) (E1 & E2 & E3 & E4 & _). unfold successor. by rewrite <- E1, <- E2, <- E3, <- E4. Qed.

(** Outcomes last: the record of what was sent and the dead letters grow, and rows
    are never removed. *)
Lemma outcome_later (w w' : @service_world S L) r r' t t' : rtc serves w w' → same_row r r' →
  (∀ x, x ∈ t → ∃ x', x' ∈ t' ∧ same_row x x') → outcome w r t → outcome w' r' t'.
Proof.
  intros Hw Hr Ht. unfold outcome, posted_row, delivery_id. pose proof Hr as (<- & _ & _ & <- & _). intros [(a & Ha & Hd)|[Hd|[(x & Hx & Hs)|(a & f & Ha & Hd)]]].
  - left. exists a. split; [by eapply posted_later|done].
  - right; left. by eapply dead_lettered_later.
  - right; right; left. destruct (Ht x Hx) as (x' & Hx' & Hsame). exists x'. split; [done|]. eapply successor_of_same; [by eapply successor_same|done].
  - right; right; right. exists a, f. split; [by eapply posted_later|done].
Qed.

Lemma apply_writes_rows ws t r : r ∈ t → ∃ r', r' ∈ apply_row_writes ws t ∧ same_row r r'.
Proof.
  unfold apply_row_writes. revert t r. induction ws as [|w ws IH]; intros t r Hr; simpl; [by exists r; split; [|apply same_row_refl]|].
  assert (∃ r1, r1 ∈ apply_row_write t w ∧ same_row r r1) as (r1 & Hr1 & Hs).
  { destruct w as [id|x]; simpl; [exists (mark id r); split; [by apply list_elem_of_fmap_2|apply mark_same]|].
    exists r. split; [apply elem_of_app; by left|apply same_row_refl]. }
  destruct (IH _ r1 Hr1) as (r2 & Hr2 & Hs2). exists r2. split; [done|by eapply same_row_trans].
Qed.

(** Where a row of the new table comes from, and what processed it. *)
Lemma apply_writes_inv ws t r : r ∈ apply_row_writes ws t →
  ∃ r0, (r0 ∈ t ∨ r0 ∈ inserts ws) ∧ same_row r0 r ∧ (ob_processed r = true → ob_processed r0 = true ∨ MarkProcessed (ob_id r) ∈ ws).
Proof.
  unfold apply_row_writes. revert t. induction ws as [|w ws IH]; intros t; simpl; [intros Hr; exists r; split; [by left|split; [apply same_row_refl|by left]]|].
  intros (r0 & Hr0 & Hs & Hp)%IH. destruct w as [id|x]; simpl in *.
  - destruct Hr0 as [(r1 & -> & Hr1)%list_elem_of_fmap|Hr0].
    + exists r1. split; [by left|]. split; [eapply same_row_trans; [apply mark_same|done]|]. intros Hpr. destruct (Hp Hpr) as [Hm|Hm]; [|right; by apply list_elem_of_further].
      unfold mark in Hm, Hs. destruct (Z.eqb_spec (ob_id r1) id) as [<-|_]; [|by left]. right. destruct Hs as (<- & _). simpl. apply list_elem_of_here.
    + exists r0. split; [by right|]. split; [done|]. intros Hpr. destruct (Hp Hpr); [by left|right; by apply list_elem_of_further].
  - destruct Hr0 as [[Hr0|Hr0%list_elem_of_singleton]%elem_of_app|Hr0]; exists r0.
    + split; [by left|]. split; [done|]. intros Hpr. destruct (Hp Hpr); [by left|right; by apply list_elem_of_further].
    + subst r0. split; [right; apply list_elem_of_here|]. split; [done|]. intros Hpr. destruct (Hp Hpr); [by left|right; by apply list_elem_of_further].
    + split; [right; by apply list_elem_of_further|]. split; [done|]. intros Hpr. destruct (Hp Hpr); [by left|right; by apply list_elem_of_further].
Qed.

Lemma apply_writes_ids ws t : ob_id <$> apply_row_writes ws t = (ob_id <$> t) ++ (ob_id <$> inserts ws).
Proof.
  unfold apply_row_writes. revert t. induction ws as [|w ws IH]; intros t; simpl; [by rewrite app_nil_r|]. rewrite IH. destruct w as [id|x]; simpl.
  - f_equal. rewrite <- list_fmap_compose. apply list_fmap_ext. intros j r _. simpl. unfold mark. by destruct (ob_id r =? id).
  - by rewrite fmap_app, <- app_assoc.
Qed.

Lemma inserts_elem ws r : r ∈ inserts ws → InsertRow r ∈ ws.
Proof. unfold inserts. intros (x & Hx & Hr)%list_elem_of_omap. destruct x; [done|]. by injection Hr as ->. Qed.

Lemma apply_writes_inserts ws t r : r ∈ inserts ws → ∃ r', r' ∈ apply_row_writes ws t ∧ same_row r r'.
Proof.
  unfold apply_row_writes. revert t. induction ws as [|w ws IH]; intros t; simpl; [by intros []%not_elem_of_nil|]. destruct w as [id|x]; simpl; [apply IH|].
  intros [->|Hr]%elem_of_cons; [|by apply IH]. apply (apply_writes_rows ws). apply elem_of_app. right. by apply list_elem_of_singleton.
Qed.

Lemma inserts_app a b : inserts (a ++ b) = inserts a ++ inserts b.
Proof. apply omap_app. Qed.

Lemma same_id a b t : NoDup (ob_id <$> t) → a ∈ t → b ∈ t → ob_id a = ob_id b → a = b.
Proof.
  intros Hnd Ha Hb Hid. apply list_elem_of_lookup in Ha as [i Hi], Hb as [j Hj]. enough (i = j) by congruence.
  eapply (NoDup_lookup _ _ _ (ob_id a) Hnd); rewrite list_lookup_fmap; [by rewrite Hi|by rewrite Hj, Hid].
Qed.

(** *** Soundness of a step *)
Lemma outcome_table w r t t' : (∀ x, x ∈ t → ∃ x', x' ∈ t' ∧ same_row x x') → outcome w r t → outcome w r t'.
Proof. intros Ht. apply outcome_later; [apply rtc_refl|apply same_row_refl|done]. Qed.

(** Neither the table nor the inserted rows change. *)
Lemma sound_same w w' : serves (w_service w) (w_service w') → w_rows w' = w_rows w → w_seq w' = w_seq w →
  (∀ i, pending w' i = pending w i ∨ w_tx w' i = None ∨ w_tx w' i = Some []) →
  (∀ i ws r, w_tx w' i = Some ws → r ∈ inserts ws → ∃ ws', w_tx w i = Some ws' ∧ r ∈ inserts ws') → sound w → sound w'.
Proof.
  intros Hs Hr Hq Hp Hn [H1 H2 H3 H4 H5 H6 H7]. assert (∀ i id, id ∈ pending w' i → id ∈ pending w i) as Hin.
  { intros i id. destruct (Hp i) as [->|Hi]; [done|]. unfold pending. destruct Hi as [->| ->]; by intros []%not_elem_of_nil. }
  split; rewrite ?Hr, ?Hq; [done|done| | | | |].
  - intros i. destruct (Hp i) as [->|Hi]; [done|]. unfold pending. destruct Hi as [->| ->]; apply NoDup_nil_2.
  - intros i id Hid. by apply (H4 i), Hin.
  - intros i j id Hij Hi Hj. exact (H5 i j id Hij (Hin _ _ Hi) (Hin _ _ Hj)).
  - intros i ws r Hi Hr'. destruct (Hn i ws r Hi Hr') as (ws' & Hw & Hr''). by eapply H6.
  - intros r Hr' Hpr. eapply outcome_later; [by apply rtc_once|apply same_row_refl|intros x Hx; exists x; split; [done|apply same_row_refl]|by apply H7].
Qed.

Lemma respects_same i w w' : serves (w_service w) (w_service w') → w_rows w' = w_rows w → w_seq w' = w_seq w →
  (∀ j, w_tx w' j = w_tx w j ∨ w_tx w' j = None ∨ (j = i ∧ (w_tx w' j = Some [] ∨ ∃ ws id, w_tx w j = Some ws ∧ w_tx w' j = Some (ws ++ [MarkProcessed id])))) →
  respects i w w'.
Proof.
  intros Hs Hr Hq Ht. split; [done| | |apply sound_same; [done..| |]].
  - intros j Hj. destruct (Ht j) as [H'|[H'|[-> _]]]; [by left|by right|done].
  - intros r Hr'. exists r. rewrite Hr. split; [done|apply same_row_refl].
  - intros j. destruct (Ht j) as [H'|[H'|[-> [H'|(ws & id & H1 & H2)]]]]; [left; unfold pending; by rewrite H'|by right; left|by right; right|].
    left. unfold pending. rewrite H1, H2, inserts_app. simpl. by rewrite app_nil_r.
  - intros j ws r Hj Hin. destruct (Ht j) as [H'|[H'|[-> [H'|(ws' & id & H1 & H2)]]]]; [exists ws; by rewrite <- H'| | |].
    + by rewrite H' in Hj.
    + rewrite H' in Hj. injection Hj as <-. by apply not_elem_of_nil in Hin.
    + exists ws'. split; [done|]. rewrite H2 in Hj. injection Hj as <-. rewrite inserts_app in Hin. simpl in Hin. by rewrite app_nil_r in Hin.
Qed.

Lemma respects_insert i ws r w : w_tx w i = Some ws → ob_id r = w_seq w → ob_processed r = false →
  respects i w (with_tx i (Some (ws ++ [InsertRow r])) (next_id w)).
Proof.
  intros Hi Hid Hpr. set (w' := with_tx _ _ _). assert (pending w' i = pending w i ++ [w_seq w]) as Hpi.
  { unfold pending, w'. simpl. rewrite decide_True, Hi by done. rewrite inserts_app, fmap_app. simpl. by rewrite Hid. }
  assert (∀ j, j ≠ i → w_tx w' j = w_tx w j) as Htx by (intros j Hj; simpl; by rewrite decide_False).
  assert (∀ j, j ≠ i → pending w' j = pending w j) as Hpj by (intros j Hj; unfold pending; by rewrite Htx).
  split; [apply serves_refl|intros j Hj; left; by apply Htx|intros x Hx; exists x; split; [done|apply same_row_refl]|].
  intros [H1 H2 H3 H4 H5 H6 H7]. assert (∀ j, w_seq w ∉ pending w j) as Hfresh by (intros j [? _]%H4; lia).
  assert (w_seq w ∉ ob_id <$> w_rows w) as Hrow by (intros Hin%H2; lia).
  split; [done|intros id Hin%H2; simpl; lia| | | | |].
  - intros j. destruct (decide (j = i)) as [->|Hj]; [|by rewrite Hpj]. rewrite Hpi. apply list.NoDup_app. split; [done|]. split; [|apply NoDup_singleton].
    intros id Hid1 ->%list_elem_of_singleton. by apply (Hfresh i).
  - intros j id. simpl. destruct (decide (j = i)) as [->|Hj].
    + rewrite Hpi. intros [Hin|Hin]%elem_of_app; [apply H4 in Hin as [? ?]; split; [lia|done]|apply list_elem_of_singleton in Hin; subst id; split; [lia|done]].
    + rewrite Hpj by done. intros [? ?]%H4. split; [lia|done].
  - assert (∀ j id, j ≠ i → id ∈ pending w i ++ [w_seq w] → id ∉ pending w j) as Hd.
    { intros j id Hj [Hin|Hin]%elem_of_app; [by apply (H5 i)|apply list_elem_of_singleton in Hin; subst id; apply Hfresh]. }
    intros j k id Hjk. destruct (decide (j = i)) as [->|Hj], (decide (k = i)) as [->|Hk]; [done| | |rewrite !Hpj by done; by apply H5].
    + rewrite Hpi, Hpj by done. apply Hd. done.
    + rewrite Hpi, Hpj by done. intros Ha Hb. exact (Hd j id Hj Hb Ha).
  - intros j ws' x. destruct (decide (j = i)) as [->|Hj]; [|rewrite Htx by done; apply H6]. simpl. rewrite decide_True by done. intros [= <-].
    rewrite inserts_app. intros [Hin|Hin]%elem_of_app; [by eapply H6|]. apply list_elem_of_singleton in Hin. by subst.
  - intros x Hx Hp. by apply H7.
Qed.

Lemma respects_commit i ws w : w_tx w i = Some ws → justified i None w → respects i w (with_rows (apply_row_writes ws (w_rows w)) (release i w)).
Proof.
  intros Hi Hj. set (w' := with_rows _ _). assert (∀ j, j ≠ i → w_tx w' j = w_tx w j) as Htx by (intros j Hne; simpl; by rewrite decide_False).
  assert (w_tx w' i = None) as Hnone by (simpl; by rewrite decide_True).
  assert (ob_id <$> w_rows w' = (ob_id <$> w_rows w) ++ pending w i) as Hids by (unfold pending; rewrite Hi; apply apply_writes_ids).
  assert (∀ j, pending w' j = if decide (j = i) then [] else pending w j) as Hpend.
  { intros j. unfold pending. case_decide as Hd; [subst j; by rewrite Hnone|by rewrite Htx]. }
  split; [apply serves_refl|intros j Hne; left; by apply Htx|intros x Hx; by apply apply_writes_rows|].
  intros [H1 H2 H3 H4 H5 H6 H7]. split.
  - rewrite Hids. apply list.NoDup_app. split; [done|]. split; [|apply H3]. intros id Hin Hp. by apply H4 in Hp as [_ Hp].
  - intros id. rewrite Hids. intros [Hin|Hin]%elem_of_app; [by apply H2|by apply (H4 i)].
  - intros j. rewrite Hpend. case_decide; [apply NoDup_nil_2|apply H3].
  - intros j id. rewrite Hpend, Hids. case_decide as Hne; [by intros []%not_elem_of_nil|]. intros Hin. destruct (H4 _ _ Hin) as [Hlt Hni].
    split; [done|]. intros [Hin'|Hin']%elem_of_app; [done|]. by apply (H5 j i id Hne).
  - intros j k id Hne. rewrite !Hpend. case_decide; [by intros []%not_elem_of_nil|]. case_decide; [by intros _ []%not_elem_of_nil|by apply H5].
  - intros j ws' x. destruct (decide (j = i)) as [->|Hne]; [by rewrite Hnone|]. rewrite Htx by done. apply H6.
  - intros r Hr Hpr. apply apply_writes_inv in Hr as (r0 & Hr0 & Hsame & Hp). destruct (Hp Hpr) as [Hp0|Hm]; clear Hp.
    + destruct Hr0 as [Hr0|Hr0]; [|by rewrite (H6 i ws r0 Hi Hr0) in Hp0].
      eapply outcome_later; [apply rtc_refl|exact Hsame| |by apply (H7 r0)]. intros x Hx. by apply apply_writes_rows.
    + destruct (Hj ws _ Hi Hm) as (r1 & Hr1 & Hid & Hout); [done|]. assert (r1 = r0) as ->.
      { destruct Hsame as (Hid0 & _). destruct Hr0 as [Hr0|Hr0]; [apply (same_id _ _ _ H1 Hr1 Hr0); congruence|]. exfalso.
        assert (ob_id r0 ∈ pending w i) as Hin by (unfold pending; rewrite Hi; by apply list_elem_of_fmap_2).
        apply H4 in Hin as [_ Hin]. apply Hin. rewrite Hid0, <- Hid. by apply list_elem_of_fmap_2. }
      eapply outcome_later; [apply rtc_refl|exact Hsame| |exact Hout]. intros x Hx. by apply apply_writes_inserts.
Qed.

(** *** The state a call owns *)

(** What a call knows that has seen the store and the consumers in [s], and the rows
    [rows]. *)
Record holds (i : nat) (skip : option Z) (rows : list OutboxRow) (s : @service_world S L) (w : world) : Prop := {
  ho_sound : sound w;
  ho_justified : justified i skip w;
  ho_listed : ∀ r, r ∈ rows → listed r w;
  ho_service : rtc serves s (w_service w);
}.

Lemma listed_later i r w w' : respects i w w' → listed r w → listed r w'.
Proof. intros [_ _ Hr _] (x & Hx & Hs). destruct (Hr x Hx) as (y & Hy & Hs'). exists y. split; [done|by eapply same_row_trans]. Qed.

Lemma justified_later i j skip w w' : j ≠ i → respects j w w' → justified i skip w → justified i skip w'.
Proof.
  intros Hji Hresp Hj ws id Hi Hm Hs. pose proof Hresp as [Hsv Ht _ _]. destruct (Ht i) as [E|E]; [done| |by rewrite E in Hi].
  rewrite E in Hi. destruct (Hj ws id Hi Hm Hs) as (r & Hr & Hid & Ho). destruct (listed_later _ _ _ _ Hresp (listed_refl _ _ Hr)) as (r' & Hr' & Hsame).
  exists r'. split; [done|]. split; [by destruct Hsame as (<- & _)|]. eapply outcome_later; [by apply rtc_once|exact Hsame| |exact Ho].
  intros x Hx. exists x. split; [done|apply same_row_refl].
Qed.

Lemma holds_stable i skip rows s w w' : rtc (others respects i) w w' → holds i skip rows s w → holds i skip rows s w'.
Proof.
  induction 1 as [|w1 w2 w3 (j & Hji & Hresp) _ IH]; [done|]. intros [H1 H2 H3 H4]. apply IH. split.
  - by apply (re_sound _ _ _ Hresp).
  - by eapply justified_later.
  - intros r Hr. eapply listed_later; [done|by apply H3].
  - eapply rtc_r; [done|apply (re_service _ _ _ Hresp)].
Qed.

Lemma sound_stable i w w' : rtc (others respects i) w w' → sound w → sound w'.
Proof. induction 1 as [|w1 w2 w3 (j & _ & Hresp) _ IH]; [done|]. intros Hs. by apply IH, (re_sound _ _ _ Hresp). Qed.

(** *** Steps of a call *)

Notation own i Q p w := (owned step respects i Q p w).

(** A call that may fail ends in [R] when it does not. *)
Definition ends {A} (R : A → world → Prop) (r : result DispatchError A) (w : world) : Prop := match r with Ok a => R a w | Err _ => True end.
Lemma own_error {A} i (R : A → world → Prop) e w : own i (ends R) (Done (Err e)) w.
Proof. by intros w' _. Qed.

Lemma own_inv {A X} i (Q : A → world → Prop) (c : outbox_command X) k (I : world → Prop) w :
  (∀ w w', rtc (others respects i) w w' → I w → I w') → I w →
  (∀ w1 x w2, I w1 → step X c w1 x w2 → respects i w1 w2 ∧ own i Q (k x) w2) → own i Q (Do c k) w.
Proof. intros HI Hw Hst w1 x w2 Hr Hs. apply Hst; [by eapply HI|done]. Qed.

Lemma own_holds {A X} i (Q : A → world → Prop) (c : outbox_command X) k skip rows s w : holds i skip rows s w →
  (∀ w1 x w2, holds i skip rows s w1 → step X c w1 x w2 → respects i w1 w2 ∧ own i Q (k x) w2) → own i Q (Do c k) w.
Proof. apply own_inv. intros w1 w2. apply holds_stable. Qed.

(** A statement: executed or rejected. *)
Lemma executed_ok {A} (a : A) new w r w' : executed a new w r w' → (w' = w ∧ ∃ e, r = Err e) ∨ (w' = new ∧ (r = Ok a ∨ ∃ e, r = Err e)).
Proof. intros [(_ & -> & e & ->)|(-> & [->|(_ & e & ->)])]; [left|right|right]; eauto. Qed.

Lemma respects_refl i w : respects i w w.
Proof. split; [apply serves_refl|by left|intros r Hr; exists r; split; [done|apply same_row_refl]|done]. Qed.

Lemma own_query {A B} i (R : B → world → Prop) (c : outbox_command (result string A)) k skip rows s w : holds i skip rows s w →
  (∀ w1 r w2, holds i skip rows s w1 → step _ c w1 r w2 → respects i w1 w2 ∧ ∀ a, r = Ok a → own i (ends R) (k a) w2) →
  own i (ends R) (query c k) w.
Proof.
  intros Hh Hst. apply (own_holds _ _ _ _ _ _ _ _ Hh). intros w1 r w2 Hw1 Hs. destruct (Hst _ _ _ Hw1 Hs) as [Hr Hk]. split; [done|].
  destruct r as [a|e]; [by apply Hk|apply own_error].
Qed.

Lemma own_service {A B} i (Q : result DispatchError B → world → Prop) (Qs : A → @service_world S L → Prop) skip rows (p : eff service_command A) k s w :
  Effects.safe service_step serves Qs p s → holds i skip rows s w →
  (∀ a s' w', rtc serves s s' → Qs a s' → holds i skip rows s' w' → own i Q (k a) w') → own i Q (serviced p k) w.
Proof.
  unfold serviced. revert s w. induction p as [a|X c p IH]; intros s w Hs Hh Hk.
  - apply (Hk a s); [apply rtc_refl|apply Hs, rtc_refl|done].
  - apply (own_holds _ _ _ _ _ _ _ _ Hh). intros w1 x w2 [H1 H2 H3 H4] (s' & Hst & ->). destruct (Hs _ _ _ H4 Hst) as [Hsv Hs'].
    assert (respects i w1 (with_service s' w1)) as Hr by (apply respects_same; [done..|by left]). split; [done|].
    apply (IH x s'); [done| |intros a s2 w' Hss; apply Hk; etrans; [exact H4|by eapply rtc_l]].
    split; [by apply (re_sound _ _ _ Hr)| |intros r Hr'; by apply H3|apply rtc_refl].
    intros ws id Hi Hm Hsk. destruct (H2 ws id Hi Hm Hsk) as (r & Hr' & Hid & Ho). exists r. split; [done|]. split; [done|].
    eapply outcome_later; [by apply rtc_once|apply same_row_refl| |exact Ho]. intros y Hy. exists y. split; [done|apply same_row_refl].
Qed.

Lemma own_mark {B} i (R : B → world → Prop) id k rows s w : holds i None rows s w →
  (∀ w', holds i (Some id) rows s w' → own i (ends R) (k tt) w') → own i (ends R) (query (MarkRow i id) k) w.
Proof.
  intros Hh Hk. apply (own_query _ _ _ _ _ _ _ _ Hh). intros w1 r w2 [H1 H2 H3 H4]. simpl. unfold in_tx. destruct (w_tx w1 i) as [ws|] eqn:Hi.
  2:{ intros [-> [e ->]]. split; [apply respects_refl|done]. }
  intros [[-> [e ->]]|[-> Hr]]%executed_ok; [split; [apply respects_refl|done]|].
  assert (respects i w1 (with_tx i (Some (ws ++ [MarkProcessed id])) w1)) as Hresp.
  { apply respects_same; [apply serves_refl|done|done|]. intros j. simpl. case_decide as Hj; [subst j|by left]. right; right. split; [done|]. right. by exists ws, id. }
  split; [done|]. intros [] _. apply Hk. split; [by apply (re_sound _ _ _ Hresp)| |intros x Hx; by apply H3|done].
  intros ws' id' Hi' Hm Hne. simpl in Hi'. rewrite decide_True in Hi' by done. injection Hi' as <-. rewrite inserts_app. simpl. rewrite app_nil_r.
  apply elem_of_app in Hm as [Hm|Hm]; [by apply (H2 ws id' Hi Hm)|]. apply list_elem_of_singleton in Hm. injection Hm as ->. done.
Qed.

(** A marked row has its outcome. *)
Lemma holds_close i row rows s w : holds i (Some (ob_id row)) rows s w → row ∈ rows → (∀ t, outcome s row t) → holds i None rows s w.
Proof.
  intros [H1 H2 H3 H4] Hrow Ho. split; [done| |done|done]. intros ws id Hi Hm _. destruct (decide (id = ob_id row)) as [->|Hne]; [|by apply H2; [..|congruence]].
  destruct (H3 _ Hrow) as (r & Hr & Hsame). exists r. split; [done|]. split; [by destruct Hsame as (<- & _)|].
  eapply outcome_later; [exact H4|exact Hsame| |apply (Ho (inserts ws))]. intros x Hx. exists x. split; [done|apply same_row_refl].
Qed.

Lemma own_insert {B} i (R : B → world → Prop) row payload t k rows s w : holds i (Some (ob_id row)) rows s w → row ∈ rows →
  (payload = normalizePayload json_parse (ob_payload row) ∨ ∃ n, payload = augmentPayloadWithRetry (normalizePayload json_parse (ob_payload row)) n) →
  (∀ w', holds i None rows s w' → own i (ends R) (k tt) w') →
  own i (ends R) (query (Insert i (ob_stream_id row) (ob_event_type row) payload t) k) w.
Proof.
  intros Hh Hrow Hpay Hk. apply (own_query _ _ _ _ _ _ _ _ Hh). intros w1 r w2 [H1 H2 H3 H4]. simpl. unfold in_tx. destruct (w_tx w1 i) as [ws|] eqn:Hi.
  2:{ intros [-> [e ->]]. split; [apply respects_refl|done]. }
  intros [[-> [e ->]]|[-> Hr]]%executed_ok; [split; [apply respects_refl|done]|]. set (new := {| ob_id := w_seq w1 |}).
  pose proof (respects_insert i ws new w1 Hi eq_refl eq_refl) as Hresp. split; [exact Hresp|]. intros [] _. apply Hk.
  split; [by apply (re_sound _ _ _ Hresp)| |intros x Hx; by apply H3|done].
  assert (∀ x, x ∈ inserts ws → ∃ x', x' ∈ inserts (ws ++ [InsertRow new]) ∧ same_row x x') as Hmono.
  { intros x Hx. exists x. rewrite inserts_app. split; [apply elem_of_app; by left|apply same_row_refl]. }
  intros ws' id Hi' Hm _. simpl in Hi'. rewrite decide_True in Hi' by done. injection Hi' as <-.
  apply elem_of_app in Hm as [Hm|Hm]; [|by apply list_elem_of_singleton in Hm]. destruct (decide (id = ob_id row)) as [->|Hne].
  - destruct (H3 _ Hrow) as (r0 & Hr0 & Hsame). exists r0. split; [done|]. split; [by destruct Hsame as (<- & _)|]. right; right; left.
    exists new. split; [rewrite inserts_app; apply elem_of_app; right; by apply list_elem_of_singleton|]. eapply successor_of_same; [|exact Hsame].
    split; [|by repeat split]. destruct Hsame as (-> & _). apply (so_seq _ H1). by apply list_elem_of_fmap_2.
  - destruct (H2 ws id Hi Hm) as (r0 & Hr0 & Hid & Ho); [congruence|]. exists r0. split; [done|]. split; [done|]. by eapply outcome_table.
Qed.

(** *** The calls *)

Definition ready (i : nat) (rows : list OutboxRow) (w : world) : Prop := ∃ s, holds i None rows s w.
Lemma own_ready i rows s w : holds i None rows s w → own i (ends (λ _, ready i rows)) (Done (Ok tt)) w.
Proof. intros Hh w' Hw. exists s. by eapply holds_stable. Qed.

Notation settle_row := (settle json_parse parseURL policy).
Notation deliver_row := (deliverOutboxRow json_parse json_stringify Date_parse parseURL production sign policy rateLimitConfig webhookMaxResponseBytes endpointUrl secret).

Lemma safe_update_store {A} (Q : A → @service_world S L → Prop) proc f (a : A) s : (∀ st, deadLetterQueue (f st) = deadLetterQueue st) →
  (∀ s', rtc serves s s' → Q a s') → Effects.safe service_step serves Q (eff_then (update_store proc f) (λ _, Done a)) s.
Proof. intros Hf HQ. apply safe_update; [done|]. intros s1 H1 s2 H2. apply HQ. by etrans. Qed.

Lemma own_update {B} i (R : B → world → Prop) proc f k skip rows s w : (∀ st, deadLetterQueue (f st) = deadLetterQueue st) → holds i skip rows s w →
  (∀ w', holds i skip rows s w' → own i (ends R) (k tt) w') → own i (ends R) (serviced (update_store proc f) k) w.
Proof.
  intros Hf Hh Hk. eapply (own_service _ _ (λ _ _, True)); [|exact Hh|].
  - apply safe_update; [done|]. by intros s1 _ s2 _.
  - intros [] s' w' Hs _ [H1 H2 H3 H4]. apply Hk. split; [done..|]. by etrans.
Qed.

Lemma safe_dead_lettered proc d reason code s :
  Effects.safe service_step serves (λ (_ : unit) s', dead_lettered (wd_deliveryId d) s') (enqueuePermanentFailureToDlq proc d reason code) s.
Proof.
  pose proof (safe_enqueue Date_parse sign proc (λ (_ : unit) s', dead_lettered (wd_deliveryId d) s') d reason code Done s) as He.
  unfold enqueuePermanentFailureToDlq, ask in *. simpl in He. simpl. apply He. intros s1 _ Hd s2 Hs. by eapply dead_lettered_later.
Qed.

Lemma own_enqueue {B} i (R : B → world → Prop) proc d reason code k skip rows s w : holds i skip rows s w →
  (∀ s' w', holds i skip rows s' w' → dead_lettered (wd_deliveryId d) s' → own i (ends R) (k tt) w') →
  own i (ends R) (serviced (enqueuePermanentFailureToDlq proc d reason code) k) w.
Proof.
  intros Hh Hk. eapply (own_service _ _ (λ _ s', dead_lettered (wd_deliveryId d) s')); [|exact Hh|].
  - apply safe_dead_lettered.
  - intros [] s' w' _ Hd Hh'. by apply (Hk s' w').
Qed.

Lemma mutate_letters d st : deadLetterQueue (mutate d st) = deadLetterQueue st.
Proof. unfold mutate. by destruct (get _ _). Qed.

(** A row that was attempted or deferred is settled. *)
Lemma own_settle i proc row url now x rows s w : row ∈ rows → holds i None rows s w →
  planned policy (attempt_input policy row url (normalizePayload json_parse (ob_payload row)) (extractAttemptNumber (normalizePayload json_parse (ob_payload row))) now)
    snd (λ x s, posted_row x.2 row s ∧ wd_deliveryId x.1 = delivery_id row) x s →
  own i (ends (λ _, ready i rows)) (settle_row i proc row url (normalizePayload json_parse (ob_payload row)) x) w.
Proof.
  intros Hrow Hh Hp. unfold settle. apply (own_mark _ _ _ _ _ _ _ Hh). intros w1 Hh1. destruct x as [pl [[d att]|]]; unfold planned in Hp; simpl in Hp |- *.
  2:{ destruct Hp as [-> [t ->]]. apply (own_insert _ _ _ _ _ _ _ _ _ Hh1 Hrow); [by left|]. intros w2 Hh2. by eapply own_ready. }
  destruct Hp as [[Hpost Hid] Hp].
  assert (own i (ends (λ _, ready i rows)) (serviced (update_store proc (mutate (push_attempt att (set_status DPermanentFailure d)))) (λ _,
    serviced (enqueuePermanentFailureToDlq proc (push_attempt att (set_status DPermanentFailure d)) (poison_text att) Poison) (λ _, Done (Ok tt)))) w1) as Hpoison.
  { apply (own_update _ _ _ _ _ _ _ _ _ (mutate_letters _) Hh1). intros w2 Hh2. apply (own_enqueue _ _ _ _ _ _ _ _ _ _ _ Hh2). intros s3 w3 Hh3 Hd.
    eapply own_ready, (holds_close _ _ _ _ _ Hh3 Hrow). intros t. right; left. simpl in Hd. by rewrite Hid in Hd. }
  assert (own i (ends (λ _, ready i rows)) match pl_shouldRetry pl, pl_retryAt pl with
    | true, Some t => serviced (update_store proc (mutate (set_status DPending (change_last (with_retry t) d)))) (λ _,
        query (Insert i (ob_stream_id row) (ob_event_type row) (pl_payload pl) t) (λ _, Done (Ok tt)))
    | true, None => Done (Ok tt)
    | false, _ => serviced (update_store proc (mutate (set_status (if delivered att then DDelivered else DPermanentFailure) d))) (λ _, Done (Ok tt))
    end w1) as Hrest.
  { destruct (pl_shouldRetry pl).
    - destruct Hp as [[t ->] ->]. apply (own_update _ _ _ _ _ _ _ _ _ (mutate_letters _) Hh1). intros w2 Hh2.
      apply (own_insert _ _ _ _ _ _ _ _ _ Hh2 Hrow); [right; by eexists|]. intros w3 Hh3. by eapply own_ready.
    - destruct Hp as [failures Hf]. apply (own_update _ _ _ _ _ _ _ _ _ (mutate_letters _) Hh1). intros w2 Hh2.
      eapply own_ready, (holds_close _ _ _ _ _ Hh2 Hrow). intros t. destruct (delivered att) eqn:Hd; [left; by exists att|].
      right; right; right. by exists att, failures. }
  by destruct (classifyPoisonFailure _ _ _ _ _ _ _) as [[]|].
Qed.

Lemma own_row i proc row rows s w : row ∈ rows → holds i None rows s w → own i (ends (λ _, ready i rows)) (deliver_row i proc row) w.
Proof.
  intros Hrow Hh. unfold deliverOutboxRow. destruct (resolveEndpoint _ _ _ _ _ _) as [[[url sec]|]|e]; [|by eapply own_ready|apply own_error].
  eapply (own_service _ _ (λ _ _, True)); [|exact Hh|]; [by apply safe_harmless; [|intros now s1 _ s2 _]|]. intros now s1 w1 _ _ Hh1.
  destruct (poisoned _ _ _ _ _).
  - apply (own_enqueue _ _ _ _ _ _ _ _ _ _ _ Hh1). intros s2 w2 Hh2 Hd. apply (own_mark _ _ _ _ _ _ _ Hh2). intros w3 Hh3.
    eapply own_ready, (holds_close _ _ _ _ _ Hh3 Hrow). intros t. by right; left.
  - eapply own_service; [|exact Hh1|].
    + apply safe_gated with (Q := λ x s, posted_row x.2 row s ∧ wd_deliveryId x.1 = delivery_id row).
      * intros [d a] s2 s3 Hs [Hp Hid]. split; [by eapply posted_later|done].
      * intros s2. eapply safe_weaken; [|apply safe_run]. intros [d a] s3 (Hp & Hid & _). by split.
    + intros x s2 w2 _ Hp Hh2. by eapply own_settle.
Qed.

Lemma own_rows i proc rows0 rows : rows0 ⊆ rows → ∀ w, ready i rows w →
  own i (ends (λ _, ready i rows)) (deliver_rows json_parse json_stringify Date_parse parseURL production sign policy rateLimitConfig webhookMaxResponseBytes endpointUrl secret i proc rows0) w.
Proof.
  induction rows0 as [|row rows0 IH]; intros Hin w [s Hh]; [by eapply own_ready|]. simpl. unfold try_bind. apply owned_then.
  eapply owned_weaken; [|eapply own_row; [|exact Hh]; apply Hin, list_elem_of_here]. intros [[]|e] w1 Hr; [|apply own_error].
  apply IH; [|exact Hr]. intros x Hx. by apply Hin, list_elem_of_further.
Qed.

(** Commands outside a transaction, or that end one. *)
Lemma own_free {A X} i (Q : A → world → Prop) (c : outbox_command X) k w :
  (∀ w1 x w2, step X c w1 x w2 → serves (w_service w1) (w_service w2) ∧ w_rows w2 = w_rows w1 ∧ w_seq w2 = w_seq w1 ∧
    ∀ j, w_tx w2 j = w_tx w1 j ∨ w_tx w2 j = None) →
  sound w → (∀ x w2, sound w2 → own i Q (k x) w2) → own i Q (Do c k) w.
Proof.
  intros Hc Hw Hk. apply (own_inv _ _ _ _ sound); [intros w1 w2; apply sound_stable|done|]. intros w1 x w2 Hw1 Hst.
  destruct (Hc _ _ _ Hst) as (H1 & H2 & H3 & H4). assert (respects i w1 w2) as Hr.
  { apply respects_same; [done..|]. intros j. destruct (H4 j); [by left|by right; left]. }
  split; [done|]. by apply Hk, (re_sound _ _ _ Hr).
Qed.

Lemma own_dispatcher {A X} i (Q : _ → world → Prop) proc f (k : X → call A) w :
  sound w → (∀ x w2, sound w2 → own i Q (k x) w2) → own i Q (on_dispatcher proc f k) w.
Proof. apply own_free. intros w1 x w2 (rnd & _ & ->). split; [apply serves_refl|]. split; [done|]. split; [done|by left]. Qed.

Lemma release_free i w : serves (w_service w) (w_service (release i w)) ∧ w_rows (release i w) = w_rows w ∧ w_seq (release i w) = w_seq w ∧
  ∀ j, w_tx (release i w) j = w_tx w j ∨ w_tx (release i w) j = None.
Proof. split; [apply serves_refl|]. split; [done|]. split; [done|]. intros j. simpl. case_decide; [by right|by left]. Qed.

Lemma own_done {A} i (a : A) w : own i (λ _ _, True) (Done a) w.
Proof. by intros w' _. Qed.

Lemma due_rows now limit w r : r ∈ due now limit w → r ∈ w_rows w.
Proof.
  unfold due. intros Hr. apply (subseteq_take _ _) in Hr. rewrite merge_sort_Permutation in Hr. by apply list_elem_of_filter in Hr as [_ Hr].
Qed.

Notation body := (batch_body json_parse json_stringify Date_parse parseURL production sign policy rateLimitConfig webhookMaxResponseBytes endpointUrl secret batchSize).

Lemma own_body i proc w : sound w → own i (ends (λ _ _, True)) (body i proc) w.
Proof.
  intros Hw. apply (own_inv _ _ _ _ sound); [intros w1 w2; apply sound_stable|done|]. clear w Hw. intros w r w1 Hw Hst. simpl in Hst.
  apply executed_ok in Hst as [[-> [e ->]]|[-> Hr]]; [split; [apply respects_refl|apply own_error]|].
  assert (respects i w (with_tx i (Some []) w)) as Hresp.
  { apply respects_same; [apply serves_refl|done|done|]. intros j. simpl. case_decide as Hj; [subst j|by left]. right; right. split; [done|by left]. }
  split; [exact Hresp|]. destruct r as [[]|e]; [|apply own_error]. set (w1 := with_tx i (Some []) w).
  assert (holds i None [] (w_service w) w1) as Hh.
  { split; [by apply (re_sound _ _ _ Hresp)| |by intros x []%not_elem_of_nil|done]. intros ws id Hi Hm. simpl in Hi. rewrite decide_True in Hi by done.
    injection Hi as <-. by apply not_elem_of_nil in Hm. }
  apply (own_query _ _ _ _ _ _ _ _ Hh). clear Hh Hresp. clearbody w1. generalize (w_service w). clear w Hw w1 Hr. intros s. intros w r w1 [H1 H2 _ H4]. simpl. unfold in_tx. destruct (w_tx w i) as [ws|] eqn:Hi.
  2:{ intros [-> [e ->]]. split; [apply respects_refl|done]. }
  intros (now & _ & Hx). apply executed_ok in Hx as [[-> [e ->]]|[-> Hr]]; [split; [apply respects_refl|done]|].
  assert (respects i w (lock_rows i (due now batchSize w) w)) as Hresp by (apply respects_same; [apply serves_refl|done|done|by left]).
  split; [exact Hresp|].
  intros rows Hrows. destruct Hr as [->|[e ->]]; [|done]. injection Hrows as <-. set (rows := due now batchSize w).
  apply owned_then. eapply owned_weaken; [|apply (own_rows i proc rows rows); [done|]].
  2:{ eexists. split; [by apply (re_sound _ _ _ Hresp)|exact H2| |apply rtc_refl]. intros x Hx. apply listed_refl. simpl. by eapply due_rows. }
  clearbody rows. intros [[]|e] w0 Hh; [destruct Hh as [s0 Hh]|apply own_error]. apply (own_query _ _ _ _ _ _ _ _ Hh). clear w ws Hi now Hresp H1 H2 H4 w0 Hh. intros w r w1 [H1 H2 _ _] Hst. simpl in Hst. revert Hst. unfold in_tx.
  destruct (w_tx w i) as [ws|] eqn:Hi; [|intros [-> [e ->]]; split; [apply respects_refl|done]].
  intros [[-> [e ->]]|[-> Hr]]%executed_ok; [split; [apply respects_refl|done]|].
  pose proof (respects_commit i ws w Hi H2) as Hresp. split; [exact Hresp|]. intros [] _. apply own_dispatcher; [by apply (re_sound _ _ _ Hresp)|].
  intros x w2 _. by intros w' _.
Qed.

Notation serve_dispatch := (dispatch json_parse json_stringify Date_parse parseURL production sign policy rateLimitConfig webhookMaxResponseBytes endpointUrl secret batchSize pollIntervalMs maxBatchBackoffMs).

Lemma owned_sound {A} i (Q : A → world → Prop) p w : sound w → own i Q p w → own i (λ a w', Q a w' ∧ sound w') p w.
Proof.
  revert w. induction p as [a|X c k IH]; intros w Hw; simpl; intros Hs.
  - intros w' Hw'. split; [by apply Hs|by eapply sound_stable].
  - intros w1 x w2 Hw1 Hst. destruct (Hs w1 x w2 Hw1 Hst) as [Hr Hk]. split; [done|]. apply IH; [|done]. apply (re_sound _ _ _ Hr). by eapply sound_stable.
Qed.

Lemma own_batch i proc w : sound w → own i (λ _ _, True) (processBatch json_parse json_stringify Date_parse parseURL production sign policy rateLimitConfig webhookMaxResponseBytes endpointUrl secret batchSize pollIntervalMs maxBatchBackoffMs i proc) w.
Proof.
  intros Hw. unfold processBatch. destruct (given endpointUrl); [|apply own_done]. destruct (given secret); [|apply own_done].
  apply own_dispatcher; [done|]. intros d w1 Hw1. cbv zeta. set (run := query Connect _).
  assert (∀ w, sound w → own i (λ _ _, True) run w) as Hrun.
  { clear. intros w Hw. apply own_free; [|done|].
    { intros w1 x w2 [-> _]. split; [apply serves_refl|]. split; [done|]. split; [done|by left]. }
    intros [[]|e] w1 Hw1; [|apply own_done]. apply owned_then. eapply owned_weaken; [|apply owned_sound; [done|by apply own_body]].
    intros [[]|e] w2 [_ Hw2]; [apply own_done|]. apply own_free; [|done|].
    - intros w3 x w4 [[-> _]|[-> _]]%executed_ok; [split; [apply serves_refl|]; split; [done|]; split; [done|by left]|apply release_free].
    - intros x w3 Hw3. apply own_dispatcher; [done|]. intros _ w4 _. apply own_done. }
  destruct (0 <? _); [|by apply Hrun]. apply own_free; [|done|].
  { intros w2 x w3 Hst. simpl in Hst. subst w3. split; [apply serves_refl|]. split; [done|]. split; [done|by left]. }
  intros _ w2 Hw2. apply own_dispatcher; [done|]. intros [|] w3 Hw3; [apply own_done|by apply Hrun].
Qed.

Lemma own_dispatch i o w : sound w → own i (λ _ _, True) (serve_dispatch i o) w.
Proof.
  intros Hw. destruct o as [proc|proc|j]; unfold dispatch, pollOnce.
  - apply own_dispatcher; [done|]. intros [|] w1 Hw1; [apply own_done|]. apply owned_then. eapply owned_weaken; [|apply owned_sound; [done|by apply own_batch]].
    intros r w2 [_ Hw2]. apply own_dispatcher; [done|]. intros _ w3 _. apply own_done.
  - apply own_dispatcher; [done|]. intros _ w1 _. apply own_done.
  - apply own_free; [|done|intros x w2 _; apply own_done]. intros w1 x w2 Hst. simpl in Hst. subst w2. apply release_free.
Qed.

(** C2: whatever polls of any processes run at once, with statements rejected or
    their replies lost, connections lost and calls stopped anywhere, no row leaves the
    table, and a row is only marked processed with an outcome: its consumer accepted
    it, it is in the dead-letter queue, a later row carries the same event on, or the
    retry policy refused another attempt after one that failed. *)
Theorem outbox_loses_nothing (ops : list dispatch_op) w ps w' :
  sound w → eff_steps step (imap serve_dispatch ops, w) (ps, w') →
  sound w' ∧ (∀ r, r ∈ w_rows w → listed r w') ∧
  ∀ r, r ∈ w_rows w' → ob_processed r = true → outcome (w_service w') r (w_rows w').
Proof.
  intros Hw Hs. destruct (pool_owned step respects (λ _ _ _, True) (imap serve_dispatch ops) w ps w') as [Hr _]; [|done|].
  - intros i p Hp. rewrite list_lookup_imap in Hp. apply fmap_Some in Hp as (o & _ & ->). by apply own_dispatch.
  - assert (sound w' ∧ ∀ r, listed r w → listed r w') as [Hw' Hl].
    { clear Hs. induction Hr as [w|w1 w2 w3 (j & Hresp) _ IH]; [by split|]. destruct IH as [H1 H2]; [by apply (re_sound _ _ _ Hresp)|].
      split; [done|]. intros r Hr'. apply H2. by eapply listed_later. }
    split; [done|]. split; [intros r Hr'; by apply Hl, listed_refl|apply (so_settled _ Hw')].
Qed.

(** *** A poll alone, without faults *)

Section calm.
Context (calm : ¬ faulty) (now : Z) (Hnow : times now).

Lemma service_answers X (c : service_command X) s : ∃ x s', service_step _ c s x s'.
Proof.
  destruct c as [| | |r|key pol t|key pol t|key pol t|key|d c|X p f]; simpl.
  1: exists 0; by eexists.
  1: exists 0%Q; by eexists.
  1: by eexists "", _.
  - by eexists (Failed ""), _.
  - destruct (checkAndClaimAttempt _ _ _ _). by eexists _, _.
  - destruct (recordSuccess _ _ _ _). by eexists _, _.
  - destruct (recordFailure _ _ _ _). by eexists _, _.
  - by eexists _, _.
  - destruct (checkLimit _ _ _). by eexists _, _.
  - eexists _, _, (fresh (deadLetterQueue (w_store s p)).*1), 0. split; [|done]. apply jm_get_None. apply infinite_is_fresh.
Qed.

Lemma certain_serviced {A B} (R : result DispatchError B → world → Prop) (p : eff service_command A) k w :
  (∀ a s, runs service_step p (w_service w) a s → certain step R (k a) (with_service s w)) → certain step R (serviced p k) w.
Proof.
  unfold serviced. revert w. induction p as [a|X c p IH]; intros w Hk.
  - replace w with (with_service (w_service w) w) by (by destruct w). by apply Hk.
  - split.
    + destruct (service_answers X c (w_service w)) as (x & s & Hst). by exists x, (with_service s w), s.
    + intros x w' (s & Hst & ->). apply IH. intros a s' Hr. apply (Hk a s'). by exists x, s.
Qed.

Lemma certain_dispatcher {X B} (R : result DispatchError B → world → Prop) p (f : Q → dispatcher → X * dispatcher) k w :
  (∀ rnd, certain step R (k (f rnd (w_dispatcher w p)).1) (with_dispatcher p (f rnd (w_dispatcher w p)).2 w)) → certain step R (on_dispatcher p f k) w.
Proof. intros Hk. split; [by eexists _, _, 0%Q|]. intros x w' (rnd & -> & ->). apply Hk. Qed.

Lemma certain_executed {A B} (R : result DispatchError B → world → Prop) (c : outbox_command (result string A)) k a new w :
  (∀ r w', step _ c w r w' ↔ executed a new w r w') → certain step R (k a) new → certain step R (query c k) w.
Proof.
  intros Hc Hk. split; [exists (Ok a), new; apply Hc; right; by split; [|left]|].
  intros r w' [[Hf _]|(-> & [->|[Hf _]])]%Hc; [done|exact Hk|done].
Qed.

(** The transaction of call [i] is open since [w0] and marks [ids]. *)
Definition opened (i : nat) (w0 : world) (ids : list Z) (w : world) : Prop :=
  w_rows w = w_rows w0 ∧ w_dispatcher w = w_dispatcher w0 ∧ w_locks w = w_locks w0 ∧
  ∃ ws, w_tx w i = Some ws ∧ ∀ id, id ∈ ids → MarkProcessed id ∈ ws.

Lemma certain_mark {B} (R : result DispatchError B → world → Prop) i id k w0 ids w : opened i w0 ids w →
  (∀ w', opened i w0 (id :: ids) w' → certain step R (k tt) w') → certain step R (query (MarkRow i id) k) w.
Proof.
  intros (H1 & H2 & H3 & ws & Hi & Hids) Hk. eapply certain_executed; [intros r w'; simpl; unfold in_tx; by rewrite Hi|]. apply Hk.
  split; [done|]. split; [done|]. split; [done|]. eexists. split; [simpl; by rewrite decide_True|].
  intros x [->|Hx]%elem_of_cons; apply elem_of_app; [right; by apply list_elem_of_singleton|left; by apply Hids].
Qed.

Lemma certain_insert {B} (R : result DispatchError B → world → Prop) i a b c d k w0 ids w : opened i w0 ids w →
  (∀ w', opened i w0 ids w' → certain step R (k tt) w') → certain step R (query (Insert i a b c d) k) w.
Proof.
  intros (H1 & H2 & H3 & ws & Hi & Hids) Hk. eapply certain_executed; [intros r w'; simpl; unfold in_tx; by rewrite Hi|]. apply Hk.
  split; [done|]. split; [done|]. split; [done|]. eexists. split; [simpl; by rewrite decide_True|].
  intros x Hx. apply elem_of_app. left. by apply Hids.
Qed.

Notation resolve := (resolveEndpoint json_parse parseURL production endpointUrl secret).

Lemma certain_settle i proc row url payload x w0 ids w : opened i w0 ids w →
  certain step (λ r w', r = Ok tt ∧ opened i w0 (ob_id row :: ids) w') (settle_row i proc row url payload x) w.
Proof.
  intros Ho. unfold settle. apply (certain_mark _ _ _ _ _ _ _ Ho). intros w1 Ho1.
  assert (∀ w2, opened i w0 (ob_id row :: ids) w2 → certain step (λ r w', r = Ok tt ∧ opened i w0 (ob_id row :: ids) w') (Done (Ok tt) : call unit) w2) as Hdone by done.
  assert (∀ s, opened i w0 (ob_id row :: ids) (with_service s w1)) as Hs by (intros s; exact Ho1).
  destruct x as [pl [[d att]|]]; simpl.
  - assert (certain step (λ r w', r = Ok tt ∧ opened i w0 (ob_id row :: ids) w') (match pl_shouldRetry pl, pl_retryAt pl with
      | true, Some t => serviced (update_store proc (mutate (set_status DPending (change_last (with_retry t) d)))) (λ _,
          query (Insert i (ob_stream_id row) (ob_event_type row) (pl_payload pl) t) (λ _, Done (Ok tt)))
      | true, None => Done (Ok tt)
      | false, _ => serviced (update_store proc (mutate (set_status (if delivered att then DDelivered else DPermanentFailure) d))) (λ _, Done (Ok tt))
      end : call unit) w1) as Hrest.
    { destruct (pl_shouldRetry pl); [destruct (pl_retryAt pl)|]; [|by apply Hdone|].
      - apply certain_serviced. intros [] s _. apply (certain_insert _ _ _ _ _ _ _ _ _ _ (Hs s)). intros w2 Ho2. by apply Hdone.
      - apply certain_serviced. intros [] s _. by apply Hdone. }
    assert (∀ d', certain step (λ r w', r = Ok tt ∧ opened i w0 (ob_id row :: ids) w') (serviced (update_store proc (mutate d'))
      (λ _, serviced (enqueuePermanentFailureToDlq proc d' (poison_text att) Poison) (λ _, Done (Ok tt))) : call unit) w1) as Hpoison.
    { intros d'. apply certain_serviced. intros [] s _. apply certain_serviced. intros [] s' _. by apply Hdone. }
    destruct (classifyPoisonFailure _ _ _ _ _ _ _) as [[]|]; first [exact Hrest|apply Hpoison].
  - destruct (pl_shouldRetry pl); [destruct (pl_retryAt pl)|]; [|by apply Hdone|by apply Hdone].
    apply (certain_insert _ _ _ _ _ _ _ _ _ _ Ho1). intros w2 Ho2. by apply Hdone.
Qed.

Lemma certain_row i proc row w0 ids w : opened i w0 ids w →
  certain step (λ r w', match resolve row with
    | Ok (Some _) => r = Ok tt ∧ opened i w0 (ob_id row :: ids) w'
    | Ok None => r = Ok tt ∧ opened i w0 ids w'
    | Err e => r = Err (EndpointRejected e) ∧ opened i w0 ids w'
    end) (deliver_row i proc row) w.
Proof.
  intros Ho. unfold deliverOutboxRow. destruct (resolve row) as [[[url sec]|]|e]; [|by split..]. apply certain_serviced. intros t s _.
  destruct (poisoned _ _ _ _ _).
  - apply certain_serviced. intros [] s' _. apply (certain_mark _ _ _ _ w0 ids); [exact Ho|]. intros w1 Ho1. by split.
  - apply certain_serviced. intros x s' _. apply certain_settle. exact Ho.
Qed.

Notation rows_call := (deliver_rows json_parse json_stringify Date_parse parseURL production sign policy rateLimitConfig webhookMaxResponseBytes endpointUrl secret).
Definition deliverable (row : OutboxRow) : Prop := ∃ x, resolve row = Ok (Some x).
Definition rejected (row : OutboxRow) : Prop := ∃ e, resolve row = Err e.

Lemma certain_rows i proc w0 rows : ∀ ids w, (∀ row, row ∈ rows → deliverable row) → opened i w0 ids w →
  certain step (λ r w', r = Ok tt ∧ opened i w0 (reverse (ob_id <$> rows) ++ ids) w') (rows_call i proc rows) w.
Proof.
  induction rows as [|row rows IH]; intros ids w Hall Ho; [by split|]. simpl. unfold try_bind. apply certain_then.
  eapply certain_weaken; [|apply (certain_row i proc row w0 ids w Ho)]. destruct (Hall row) as [[url sec] ->]; [apply list_elem_of_here|].
  intros r w1 [-> Ho1]. rewrite reverse_cons, <- (assoc_L (++)). apply IH; [|exact Ho1]. intros x Hx. by apply Hall, list_elem_of_further.
Qed.

Lemma opened_none i w0 ids w : opened i w0 ids w → opened i w0 [] w.
Proof. intros (H1 & H2 & H3 & ws & Hi & _). split; [done|]. split; [done|]. split; [done|]. exists ws. split; [done|]. by intros id []%not_elem_of_nil. Qed.

Lemma certain_rejected i proc w0 rows : ∀ w, (∃ row, row ∈ rows ∧ rejected row) → opened i w0 [] w →
  certain step (λ r w', (∃ e, r = Err e) ∧ opened i w0 [] w') (rows_call i proc rows) w.
Proof.
  induction rows as [|row rows IH]; intros w (bad & Hbad & e & He) Ho; [by apply not_elem_of_nil in Hbad|]. simpl. unfold try_bind. apply certain_then.
  eapply certain_weaken; [|apply (certain_row i proc row w0 [] w Ho)]. destruct (resolve row) as [[x|]|e'] eqn:Hr; intros r w1 [-> Ho1].
  - apply IH; [|by eapply opened_none]. apply elem_of_cons in Hbad as [->|Hbad]; [congruence|]. by exists bad; split; [|exists e].
  - apply IH; [|done]. apply elem_of_cons in Hbad as [->|Hbad]; [congruence|]. by exists bad; split; [|exists e].
  - split; [by eexists|done].
Qed.

(** A marked row of the table is processed after the commit. *)
Lemma apply_writes_marked ws t r : r ∈ t → MarkProcessed (ob_id r) ∈ ws →
  ∃ r', r' ∈ apply_row_writes ws t ∧ same_row r r' ∧ ob_processed r' = true.
Proof.
  unfold apply_row_writes. revert t r. induction ws as [|w ws IH]; intros t r Hr Hm; simpl; [by apply not_elem_of_nil in Hm|].
  apply elem_of_cons in Hm as [<-|Hm].
  - destruct (apply_writes_rows ws (apply_row_write t (MarkProcessed (ob_id r))) (mark (ob_id r) r)) as (r' & Hr' & Hs).
    { simpl. by apply list_elem_of_fmap_2. }
    exists r'. split; [done|]. split; [eapply same_row_trans; [apply mark_same|done]|]. apply Hs. unfold mark. by rewrite Z.eqb_refl.
  - destruct (apply_writes_rows [w] t r Hr) as (r1 & Hr1 & Hs1). destruct (IH _ r1 Hr1) as (r2 & Hr2 & Hs2 & Hp); [by destruct Hs1 as (<- & _)|].
    exists r2. split; [done|]. split; [by eapply same_row_trans|done].
Qed.

Lemma js_get_jm (o : list (string * jsval)) k : js_get o k = default JUndefined (jm_get k o).
Proof. induction o as [|[k' v] o IH]; simpl; [done|]. repeat case_decide; done. Qed.

(** The published schemas are strict, so they refuse what a retry adds to the payload. *)
Lemma retried_payload_refused o e n : js_get o "event" = JStr e →
  is_ok (validateWebhookPayload json_parse (augmentPayloadWithRetry (JObj o) n)) = false.
Proof.
  intros He. unfold augmentPayloadWithRetry, validateWebhookPayload. rewrite js_get_jm, jm_get_set_ne, <- js_get_jm, He by done. unfold validatePublishedPayload.
  destruct (payload_schema e) as [fs|] eqn:Hfs; [|done].
  replace (strict_object _ _) with false; [done|]. symmetry. unfold strict_object. apply andb_false_intro2.
  apply not_true_iff_false. intros Hall. rewrite forallb_forall in Hall.
  pose proof (jm_get_elem_of "_webhookRetry" _ _ (jm_get_set_eq _ (JObj [("attemptNumber", JNum (NumInt n))]) o)) as Hin%list_elem_of_In.
  apply Hall, bool_decide_eq_true in Hin. revert Hfs Hin. unfold payload_schema. repeat case_bool_decide; intros [= <-]; vm_compute; set_solver.
Qed.

(** C33: the second attempt of a published event is never made: its row, whose payload
    is the event with the retry counter the first attempt added, is dead-lettered as
    poison, and nothing is sent. *)
Theorem retried_event_is_poison i proc row o e n x w0 ids w :
  ob_payload row = augmentPayloadWithRetry (JObj o) n → js_get o "event" = JStr e → resolve row = Ok (Some x) → opened i w0 ids w →
  certain step (λ r w', r = Ok tt ∧ w_sent (w_service w') = w_sent (w_service w) ∧ dead_lettered (delivery_id row) (w_service w')) (deliver_row i proc row) w.
Proof.
  intros Hp He Hr Ho. unfold deliverOutboxRow. rewrite Hr. destruct x as [url sec]. apply certain_serviced. intros t s (t' & s1 & -> & [<- <-]). rewrite Hp.
  assert (normalizePayload json_parse (augmentPayloadWithRetry (JObj o) n) = augmentPayloadWithRetry (JObj o) n) as -> by done.
  unfold poisoned. rewrite (retried_payload_refused _ _ _ He). simpl (negb false || _). cbv iota.
  apply certain_serviced. intros [] s2 Hs2. set (d := row_delivery _ _ _ _ _ _ _) in Hs2.
  pose proof (safe_runs _ _ _ _ _ _ _ (safe_dead_lettered proc d _ _ _) Hs2) as Hdl.
  destruct Ho as (_ & _ & _ & ws & Hi & _). eapply certain_executed.
  { intros r w'. cbn [command_step]. unfold in_tx. cbn [with_service w_tx]. rewrite Hi. reflexivity. }
  split; [done|]. split; [|exact Hdl]. destruct Hs2 as ([] & s3 & (id & now' & _ & _ & ->) & [_ <-]). done.
Qed.

(** What the poll is about to lock. *)
Definition batch (t : Z) (w : world) : list OutboxRow := due t batchSize w.

Lemma certain_begin i proc R w : 
  (∀ t, times t → certain step (λ r w', certain step R (match r with
     | Ok _ => query (Commit i) (λ _, on_dispatcher proc (λ _ d, (tt, resetBatchBackoff d)) (λ _, Done (Ok tt)))
     | Err e => Done (Err e) end : call unit) w') (rows_call i proc (batch t w)) (lock_rows i (batch t w) (with_tx i (Some []) w))) →
  certain step R (body i proc) w.
Proof.
  intros Hk. unfold batch_body. eapply certain_executed; [by intros r w'|]. split.
  - eexists _, _. simpl. unfold in_tx. simpl. rewrite decide_True by done. exists now. split; [done|]. right. by split; [|left].
  - intros r w'. simpl. unfold in_tx. simpl. rewrite decide_True by done. intros (t & Ht & [[Hf _]|(-> & [->|[Hf _]])]); [done| |done].
    apply certain_then. by apply Hk.
Qed.

Lemma opened_start i rows w : opened i (lock_rows i rows w) [] (lock_rows i rows (with_tx i (Some []) w)).
Proof. split; [done|]. split; [done|]. split; [done|]. exists []. split; [simpl; by rewrite decide_True|]. by intros id []%not_elem_of_nil. Qed.

Definition settled (w w' : world) : Prop :=
  ∃ t, times t ∧ ∀ row, row ∈ batch t w → ∃ r', r' ∈ w_rows w' ∧ same_row row r' ∧ ob_processed r' = true.

Lemma certain_try i proc w : (∀ t row, times t → row ∈ batch t w → deliverable row) →
  certain step (λ r w', r = Ok tt ∧ settled w w' ∧ w_dispatcher w' proc = resetBatchBackoff (w_dispatcher w proc)) (body i proc) w.
Proof.
  intros Hall. apply certain_begin. intros t Ht. eapply certain_weaken; [|eapply certain_rows, opened_start; intros row; by apply Hall].
  intros r w1 (-> & H1 & H2 & _ & ws & Hi & Hids). eapply certain_executed; [intros r w'; simpl; unfold in_tx; by rewrite Hi|].
  apply certain_dispatcher. intros rnd. split; [done|]. split; [|simpl; rewrite decide_True by done; by rewrite H2].
  exists t. split; [done|]. intros row Hrow. simpl. apply apply_writes_marked; [rewrite H1; exact (due_rows _ _ _ _ Hrow)|].
  apply Hids, elem_of_app. left. apply elem_of_reverse. by apply list_elem_of_fmap_2.
Qed.

Lemma locks_released i rows (l : gmap Z nat) : filter (λ kv, kv.2 ≠ i) l = ∅ → filter (λ kv, kv.2 ≠ i) (foldr (λ r l, <[ob_id r := i]> l) l rows) = ∅.
Proof.
  intros Hl. induction rows as [|row rows IH]; simpl; [done|]. rewrite map_filter_insert_False by (simpl; auto). 
  apply map_empty. intros k. apply eq_None_ne_Some. intros j [Hk Hj]%map_lookup_filter_Some.
  apply lookup_delete_Some in Hk as [_ Hk]. assert (filter (λ kv, kv.2 ≠ i) (foldr (λ r l, <[ob_id r := i]> l) l rows) !! k = Some j) as Hc by by apply map_lookup_filter_Some.
  by rewrite IH in Hc.
Qed.

Lemma certain_try_rejected i proc w : w_locks w = ∅ → (∀ t, times t → ∃ row, row ∈ batch t w ∧ rejected row) →
  certain step (λ r w', (∃ e, r = Err e) ∧ w_rows w' = w_rows w ∧ w_dispatcher w' = w_dispatcher w ∧ filter (λ kv, kv.2 ≠ i) (w_locks w') = ∅) (body i proc) w.
Proof.
  intros Hl Hbad. apply certain_begin. intros t Ht. eapply certain_weaken; [|eapply certain_rejected, opened_start; by apply Hbad].
  intros r w1 ([e ->] & H1 & H2 & H3 & _). split; [by eexists|]. split; [done|]. split; [done|]. rewrite H3. simpl. apply locks_released. by rewrite Hl.
Qed.

(** The table, the locks and the dispatcher of [proc] are the same. *)
Definition alike (proc : nat) (w w' : world) : Prop := w_rows w' = w_rows w ∧ w_locks w' = w_locks w ∧ w_dispatcher w' proc = w_dispatcher w proc.

Notation process := (processBatch json_parse json_stringify Date_parse parseURL production sign policy rateLimitConfig webhookMaxResponseBytes endpointUrl secret batchSize pollIntervalMs maxBatchBackoffMs).
Notation poll := (pollOnce json_parse json_stringify Date_parse parseURL production sign policy rateLimitConfig webhookMaxResponseBytes endpointUrl secret batchSize pollIntervalMs maxBatchBackoffMs).

Context (configured : is_Some (given endpointUrl) ∧ is_Some (given secret)).

(** What is left of a batch after its [try] block. *)
Definition after_body (i proc : nat) (r : result DispatchError unit) : call unit :=
  match r with
  | Ok _ => Done (Ok tt)
  | Err _ => Do (Rollback i) (λ _, on_dispatcher proc (λ rnd d, (tt, recordBatchFailure pollIntervalMs maxBatchBackoffMs rnd d)) (λ _, Done (Ok tt)))
  end.

Lemma certain_process i proc R w : stopped (w_dispatcher w proc) = false →
  (∀ w1, alike proc w w1 → certain step (λ r w', certain step R (after_body i proc r) w') (body i proc) w1) → certain step R (process i proc) w.
Proof.
  intros Hst Hk. unfold processBatch. destruct configured as [[url ->] [sec ->]]. apply certain_dispatcher. intros rnd. cbv zeta.
  set (run := query Connect _). cbn [fst snd]. set (w1 := with_dispatcher proc _ w). assert (alike proc w w1) as Hw1 by (repeat split; simpl; by rewrite decide_True).
  assert (∀ w2, alike proc w w2 → certain step R run w2) as Hrun.
  { intros w2 Hw2. split; [exists (Ok tt), w2; split; [done|by left]|]. intros r w3 [-> [->|[Hf _]]]; [|done]. apply certain_then. by apply Hk. }
  destruct (0 <? _); [|by apply Hrun]. split; [by exists tt, w1|]. intros x w2 Hw2. simpl in Hw2. subst w2. apply certain_dispatcher. intros rnd'. cbn [fst snd].
  rewrite (proj2 (proj2 Hw1)), Hst. apply Hrun. destruct Hw1 as (H1 & H2 & H3). split; [done|]. split; [done|]. cbn [with_dispatcher w_dispatcher]. by rewrite !decide_True by done.
Qed.

Definition waiting (proc : nat) (w : world) : Prop := inFlight (w_dispatcher w proc) = false ∧ stopped (w_dispatcher w proc) = false.

Lemma certain_poll i proc R w : waiting proc w →
  (∀ w1, w_rows w1 = w_rows w → w_locks w1 = w_locks w → w_dispatcher w1 proc = set_in_flight true (w_dispatcher w proc) →
     certain step (λ r w', certain step (λ _ w'', R r w'') (on_dispatcher proc (λ _ d, (tt, set_in_flight false d)) (λ _, Done (Ok tt)) : call unit) w') (process i proc) w1) →
  certain step R (poll i proc) w.
Proof.
  intros [Hf Hst] Hk. unfold pollOnce. apply certain_dispatcher. intros rnd. cbn [fst snd]. rewrite Hf. apply certain_then.
  eapply certain_weaken; [|apply Hk; [done|done|simpl; by rewrite decide_True]]. intros r w1 [H1 H2]. split; [done|]. intros x w2 Hst2. exact (H2 x w2 Hst2).
Qed.

Lemma certain_poll_settles i proc w : waiting proc w → (∀ t row, times t → row ∈ batch t w → deliverable row) →
  certain step (λ r w', r = Ok tt ∧ settled w w' ∧ w_dispatcher w' proc = resetBatchBackoff (w_dispatcher w proc)) (poll i proc) w.
Proof.
  intros Hw Hall. apply (certain_poll _ _ _ _ Hw). intros w1 Hr Hl Hd. apply certain_process; [rewrite Hd; apply Hw|]. intros w2 (Hr2 & Hl2 & Hd2).
  assert (∀ t, batch t w2 = batch t w) as Hb by (intros t; unfold batch, due; by rewrite Hr2, Hl2, Hr, Hl).
  eapply certain_weaken; [|apply certain_try; intros t row Ht; rewrite Hb; by apply Hall]. intros r w3 (-> & (t & Ht & Hset) & Hd3).
  split; [by eexists _, _, 0%Q|]. intros x w4 (rnd & -> & ->). split; [done|]. split.
  - exists t. split; [done|]. intros row Hrow. apply Hset. by rewrite Hb.
  - simpl. rewrite decide_True, Hd3, Hd2, Hd by done. destruct Hw as [Hf _]. unfold resetBatchBackoff, set_in_flight. simpl. by rewrite Hf.
Qed.

(** without faults, when the endpoint of every due row of the batch is acceptable,
    a poll ends, every row it locked is processed, and the back-off is reset. *)
Theorem poll_settles_batch i proc w : waiting proc w → (∀ t row, times t → row ∈ batch t w → deliverable row) →
  certain step (λ r w', r = Ok tt ∧ settled w w' ∧ w_dispatcher w' proc = resetBatchBackoff (w_dispatcher w proc)) (poll i proc) w.
Proof. apply certain_poll_settles. Qed.

Fixpoint polls (i proc n : nat) : call unit :=
  match n with O => Done (Ok tt) | Datatypes.S n => eff_then (poll i proc) (λ _, polls i proc n) end.

Lemma certain_poll_rejected i proc w : waiting proc w → w_locks w = ∅ → (∀ t, times t → ∃ row, row ∈ batch t w ∧ rejected row) →
  certain step (λ r w', r = Ok tt ∧ w_rows w' = w_rows w ∧ w_locks w' = ∅ ∧ waiting proc w' ∧
    consecutiveBatchFailures (w_dispatcher w' proc) = consecutiveBatchFailures (w_dispatcher w proc) + 1) (poll i proc) w.
Proof.
  intros Hw Hl0 Hbad. apply (certain_poll _ _ _ _ Hw). intros w1 Hr Hl Hd. apply certain_process; [rewrite Hd; apply Hw|]. intros w2 (Hr2 & Hl2 & Hd2).
  assert (∀ t, batch t w2 = batch t w) as Hb by (intros t; unfold batch, due; by rewrite Hr2, Hl2, Hr, Hl).
  eapply certain_weaken; [|apply certain_try_rejected; [congruence|intros t Ht; rewrite Hb; by apply Hbad]].
  intros r w3 ([e ->] & Hr3 & Hd3 & Hl3). split; [exists (Ok tt), (release i w3); right; by split; [|left]|].
  intros r w4 [[Hf _]|[-> _]]; [done|]. apply certain_dispatcher. intros rnd. split; [by eexists _, _, 0%Q|]. intros x w5 (rnd' & -> & ->).
  split; [done|]. simpl. rewrite !decide_True by done. split; [congruence|]. split; [done|]. split; [|by rewrite Hd3, Hd2, Hd].
  unfold waiting. simpl. rewrite !decide_True by done. simpl. rewrite Hd3, Hd2, Hd. split; [done|apply Hw].
Qed.

(** C34: a due row whose endpoint the dispatcher refuses to call makes every poll fail,
    without faults of the database and however often it polls: the whole batch is
    rolled back, whatever its other rows sent, and the table stays as it is. *)
Theorem rejected_endpoint_blocks_queue i proc n w : waiting proc w → w_locks w = ∅ →
  (∀ t, times t → ∃ row, row ∈ batch t w ∧ rejected row) →
  certain step (λ r w', r = Ok tt ∧ w_rows w' = w_rows w ∧
    consecutiveBatchFailures (w_dispatcher w' proc) = consecutiveBatchFailures (w_dispatcher w proc) + Z.of_nat n) (polls i proc n) w.
Proof.
  revert w. induction n as [|n IH]; intros w Hw Hl Hbad; [split; [done|]; split; [done|]; simpl; lia|]. cbn [polls]. apply certain_then.
  eapply certain_weaken; [|by apply certain_poll_rejected]. intros r w1 (_ & Hr1 & Hl1 & Hw1 & Hf1).
  eapply certain_weaken; [|apply IH; [done|done|]].
  - intros r2 w2 (-> & Hr2 & Hf2). split; [done|]. split; [congruence|]. rewrite Hf2, Hf1. lia.
  - intros t Ht. unfold batch, due. rewrite Hr1, Hl1, <- Hl. by apply Hbad.
Qed.

End calm.

End outcomes.

End environment.

(** ** Witnesses *)

#[local] Instance no_limit : RateLimiter unit := {| checkLimit _ _ u := ({| canAttempt := true; retryAfterMs := None |}, u) |}.

Definition sample_row : OutboxRow := {|
  ob_id := 1; ob_stream_id := "s"; ob_event_type := "stream.created"; ob_payload := JObj []; ob_created_at := 0; ob_processed := false |}.
Definition sample_store : DeliveryStore := {|
  heap := ∅; outbox := []; queues := []; deliveries := []; deliveryIdIndex := []; deadLetterQueue := []; metrics := no_metrics |}.
Definition sample_world : @world Memory unit := {|
  w_service := {| w_gate := (mem_empty, tt); w_store := λ _, sample_store; w_sent := [] |}; w_rows := [sample_row]; w_seq := 2;
  w_tx := λ _, None; w_locks := ∅;
  w_dispatcher := λ _, {| stopped := false; inFlight := false; consecutiveBatchFailures := 3; currentBatchBackoffMs := 40 |} |}.
Definition sample_url (s : string) : option endpoint :=
  if str_empty s then None else Some {| ep_protocol := "https:"; ep_hostname := "a"; ep_username := ""; ep_password := "" |}.
Definition no_parse (_ : string) : option jsval := None.
Definition no_url (_ : string) : option endpoint := None.
Definition sample_config : RateLimitConfig := {| rc_limit := 1; rc_windowMs := 1000; rc_burst := 1; rc_weight := None |}.

Lemma sample_sound : sound no_parse DEFAULT_RETRY_POLICY 10 sample_world.
Proof.
  split; simpl.
  - apply NoDup_singleton.
  - intros id Hid. apply list_elem_of_singleton in Hid. subst id. reflexivity.
  - intros i. apply NoDup_nil_2.
  - by intros i id []%not_elem_of_nil.
  - by intros i j id _ []%not_elem_of_nil.
  - done.
  - intros r Hr. apply list_elem_of_singleton in Hr. by subst r.
Qed.

Lemma sample_batch t : t = 5 → batch 10 t sample_world = [sample_row].
Proof. by intros ->. Qed.

Lemma poll_settles_batch_witness :
  certain (@command_step Memory unit (memory_store id) no_limit (λ t, t = 5) False)
    (λ r w', r = Ok tt ∧ settled (λ t, t = 5) 10 sample_world w' ∧ consecutiveBatchFailures (w_dispatcher w' 1) = 0)
    (pollOnce no_parse (λ _, "{}") no_date sample_url true weak_sign DEFAULT_RETRY_POLICY sample_config 10 (Some "https://a") (Some "k") 10 1000 60000 0 1)
    sample_world.
Proof.
  eapply certain_weaken; [|apply (@poll_settles_batch Memory unit (memory_store id) no_limit (λ t, t = 5) False no_parse (λ _, "{}") no_date sample_url true weak_sign
    DEFAULT_RETRY_POLICY sample_config 10 (Some "https://a") (Some "k") 10 1000 60000) with (now := 5)].
  - intros r w' (Hr & Hs & Hd). split; [exact Hr|]. split; [exact Hs|]. by rewrite Hd.
  - intros [].
  - reflexivity.
  - split; by eexists.
  - by split.
  - intros t row Ht. rewrite (sample_batch t Ht). intros Hr. apply list_elem_of_singleton in Hr. subst row. by eexists.
Defined.

Lemma rejected_endpoint_blocks_queue_witness :
  certain (@command_step Memory unit (memory_store id) no_limit (λ t, t = 5) False)
    (λ r w', r = Ok tt ∧ w_rows w' = [sample_row] ∧ consecutiveBatchFailures (w_dispatcher w' 1) = 7)
    (polls no_parse (λ _, "{}") no_date no_url true weak_sign DEFAULT_RETRY_POLICY sample_config 10 (Some "https://a") (Some "k") 10 1000 60000 0 1 4)
    sample_world.
Proof.
  eapply certain_weaken; [|apply (@rejected_endpoint_blocks_queue Memory unit (memory_store id) no_limit (λ t, t = 5) False no_parse (λ _, "{}") no_date no_url true weak_sign
    DEFAULT_RETRY_POLICY sample_config 10 (Some "https://a") (Some "k") 10 1000 60000) with (now := 5)].
  - intros r w' (Hr & Hrows & Hf). split; [exact Hr|]. split; [exact Hrows|]. by rewrite Hf.
  - intros [].
  - reflexivity.
  - split; by eexists.
  - by split.
  - reflexivity.
  - intros t Ht. exists sample_row. rewrite (sample_batch t Ht). split; [apply list_elem_of_here|by eexists].
Defined.

Lemma outbox_loses_nothing_witness : ∃ ps w',
  eff_steps (@command_step Memory unit (memory_store id) no_limit (λ t, t = 5) False)
    (imap (dispatch no_parse (λ _, "{}") no_date sample_url true weak_sign DEFAULT_RETRY_POLICY sample_config 10 (Some "https://a") (Some "k") 10 1000 60000) [Poll 1], sample_world) (ps, w') ∧
  (∃ r, r ∈ w_rows w' ∧ same_row sample_row r ∧ ob_processed r = true) ∧
  ∀ r, r ∈ w_rows w' → ob_processed r = true → outcome no_parse DEFAULT_RETRY_POLICY 10 (w_service w') r (w_rows w').
Proof.
  destruct (certain_runs (@command_step Memory unit (memory_store id) no_limit (λ t, t = 5) False)
    (λ r w', r = Ok tt ∧ settled (λ t, t = 5) 10 sample_world w' ∧ w_dispatcher w' 1 = resetBatchBackoff (w_dispatcher sample_world 1))
    (pollOnce no_parse (λ _, "{}") no_date sample_url true weak_sign DEFAULT_RETRY_POLICY sample_config 10 (Some "https://a") (Some "k") 10 1000 60000 0 1)
    sample_world) as [(r & w' & Hr) Hp].
  { apply (certain_poll_settles (λ t, t = 5) False) with (now := 5); [by intros []|done|split; by eexists|by split|].
    intros t row Ht. rewrite (sample_batch t Ht). intros Hr. apply list_elem_of_singleton in Hr. subst row. by eexists. }
  destruct (Hp _ _ Hr) as (_ & (t & -> & Hset) & _). exists [Done r], w'. pose proof (runs_steps _ _ _ _ _ Hr) as Hs. split; [exact Hs|].
  split; [apply (Hset sample_row), list_elem_of_here|].
  exact (proj2 (proj2 (@outbox_loses_nothing Memory unit (memory_store id) no_limit (λ t, t = 5) False no_parse (λ _, "{}") no_date sample_url true weak_sign
    DEFAULT_RETRY_POLICY sample_config 10 (Some "https://a") (Some "k") 10 1000 60000 [Poll 1] sample_world [Done r] w' sample_sound Hs))).
Defined.


(** A stream update whose first attempt failed. *)
Definition retried_row : OutboxRow := {|
  ob_id := 1; ob_stream_id := "s"; ob_event_type := "stream.updated";
  ob_payload := augmentPayloadWithRetry (JObj [("event", JStr "stream.updated"); ("schema_version", JNum (NumInt 1))]) 2; ob_created_at := 0; ob_processed := false |}.

Lemma retried_event_is_poison_witness :
  is_ok (validateWebhookPayload no_parse (JObj [("event", JStr "stream.updated"); ("schema_version", JNum (NumInt 1))])) = true ∧
  certain (@command_step Memory unit (memory_store id) no_limit (λ t, t = 5) False)
    (λ r w', r = Ok tt ∧ w_sent (w_service w') = w_sent (w_service (with_tx 0 (Some []) sample_world)) ∧ dead_lettered (delivery_id retried_row) (w_service w'))
    (deliverOutboxRow no_parse (λ _, "{}") no_date sample_url true weak_sign DEFAULT_RETRY_POLICY sample_config 10 (Some "https://a") (Some "k") 0 1 retried_row)
    (with_tx 0 (Some []) sample_world).
Proof.
  split; [reflexivity|].
  apply (@retried_event_is_poison Memory unit (memory_store id) no_limit (λ t, t = 5) False no_parse (λ _, "{}") no_date sample_url true weak_sign
    DEFAULT_RETRY_POLICY sample_config 10 (Some "https://a") (Some "k")) with (o := [("event", JStr "stream.updated"); ("schema_version", JNum (NumInt 1))])
    (e := "stream.updated") (n := 2) (now := 5) (x := ("https://a", "k")) (w0 := sample_world) (ids := []).
  - intros [].
  - reflexivity.
  - reflexivity.
  - reflexivity.
  - reflexivity.
  - split; [reflexivity|]. split; [reflexivity|]. split; [reflexivity|]. exists []. split; [reflexivity|]. by intros id []%not_elem_of_nil.
Defined.
