(* ===== verification/WebhookReceive.v ===== *)
(** * Receiving webhooks ([src/webhooks/signature.ts], [preflight.ts],
      [POST /receive] of [src/routes/webhooks.ts],
      [src/db/repositories/webhookSecretRepository.ts])

    A delivery is checked for shape, for its signature under the current or the
    previous secret, and for its id against the cache of [Dedup].  Bodies are lists of
    bytes, header values strings of code units below 256.  HMAC, [JSON.parse] and
    [Number(s)] are parameters.  The texts of the messages are left out: the code of an
    answer determines them. *)
From Stdlib Require Import Ascii ZArith QArith Qround Lia.
From stdpp Require Import base gmap strings list.
From S2P Require Import Prelude Redis Dedup SsrfGuard EventStore Retry Outbox WebhookDelivery.
Local Open Scope string_scope.
Local Open Scope list_scope.
Local Open Scope Z_scope.

(** ** UTF-8 *)

(** Bytes, each a code below 256. *)
Notation bytes := (list ascii).
Definition byte_code (c : ascii) : Z := Z.of_N (N_of_ascii c).
Definition code_byte (z : Z) : ascii := ascii_of_N (Z.to_N z).

(** [Buffer.from(s, 'utf8')] *)
Definition utf8_char (c : ascii) : bytes :=
  let n := byte_code c in if n <? 128 then [c] else [code_byte (192 + n / 64); code_byte (128 + n mod 64)].
Definition utf8 (s : string) : bytes := mjoin (utf8_char <$> chars s).

Inductive RawBody : Type := BodyText (s : string) | BodyBytes (b : bytes).
Definition toBuffer (rawBody : RawBody) : bytes := match rawBody with BodyText s => utf8 s | BodyBytes b => b end.

Definition REPLACEMENT : Z := 65533.

(** A sequence that has begun: the bytes it still needs, its code so far and the
    range of its next byte. *)
Record utf8_state : Type := { u_needed : nat; u_code : Z; u_lower : Z; u_upper : Z }.
Definition u_start : utf8_state := {| u_needed := 0; u_code := 0; u_lower := 128; u_upper := 191 |}.
Definition u_lead (needed : nat) (code lower upper : Z) : list Z * utf8_state :=
  ([], {| u_needed := needed; u_code := code; u_lower := lower; u_upper := upper |}).

Definition utf8_first (b : Z) : list Z * utf8_state :=
  if b <=? 127 then ([b], u_start)
  else if (194 <=? b) && (b <=? 223) then u_lead 1 (b - 192) 128 191
  else if (224 <=? b) && (b <=? 239) then u_lead 2 (b - 224) (if b =? 224 then 160 else 128) (if b =? 237 then 159 else 191)
  else if (240 <=? b) && (b <=? 244) then u_lead 3 (b - 240) (if b =? 240 then 144 else 128) (if b =? 244 then 143 else 191)
  else ([REPLACEMENT], u_start).

Definition utf8_next (b : Z) (u : utf8_state) : list Z * utf8_state :=
  match u_needed u with
  | O => utf8_first b
  | S n =>
      if (u_lower u <=? b) && (b <=? u_upper u) then
        let code := u_code u * 64 + (b - 128) in
        match n with O => ([code], u_start) | _ => u_lead n code 128 191 end
      else let '(out, u) := utf8_first b in (REPLACEMENT :: out, u)
  end.

(** [buffer.toString('utf8')]: the code points, with U+FFFD for what is no UTF-8. *)
Fixpoint utf8_decode_from (u : utf8_state) (l : list Z) : list Z :=
  match l with
  | [] => match u_needed u with O => [] | _ => [REPLACEMENT] end
  | b :: l => let '(out, u) := utf8_next b u in out ++ utf8_decode_from u l
  end.
Definition utf8_decode (b : bytes) : list Z := utf8_decode_from u_start (byte_code <$> b).

(** ** Preflight *)

Definition MAX_JSON_DEPTH : Z := 32.
Definition DEFAULT_MAX_WEBHOOK_BODY_BYTES : Z := 256 * 1024.

Inductive WebhookVerificationCode : Type :=
| ok | missing_secret | missing_delivery_id | missing_timestamp | missing_signature | payload_too_large | invalid_timestamp
| timestamp_outside_tolerance | signature_mismatch | duplicate_delivery | previous_secret_expired.
#[global] Instance verification_code_eq_dec : EqDecision WebhookVerificationCode.
Proof. solve_decision. Defined.

Inductive preflight_code : Type := UnsupportedMediaType | PayloadTooLarge | InvalidEncoding | PayloadTooDeep | InvalidJson.
Definition preflight_status (c : preflight_code) : Z :=
  match c with UnsupportedMediaType => 415 | PayloadTooLarge => 413 | InvalidEncoding | PayloadTooDeep | InvalidJson => 400 end.

(** [buffer.includes(Buffer.from('\uFFFD'))] *)
Fixpoint has_replacement_bytes (l : list Z) : bool :=
  match l with
  | [] => false
  | b :: r => bool_decide (take 3 l = [239; 191; 189]) || has_replacement_bytes r
  end.

Record depth_state : Type := { dp_depth : Z; dp_inString : bool; dp_escape : bool }.

Definition depth_next (c : Z) (s : depth_state) : depth_state :=
  let set d i e := {| dp_depth := d; dp_inString := i; dp_escape := e |} in
  if dp_inString s then
    if dp_escape s then set (dp_depth s) true false
    else if c =? 92 then set (dp_depth s) true true
    else if c =? 34 then set (dp_depth s) false (dp_escape s)
    else s
  else if c =? 34 then set (dp_depth s) true (dp_escape s)
  else if (c =? 123) || (c =? 91) then set (dp_depth s + 1) false (dp_escape s)
  else if (c =? 125) || (c =? 93) then set (dp_depth s - 1) false (dp_escape s)
  else s.

(** Whether the bound is passed on the way. *)
Fixpoint too_deep (s : depth_state) (str : list Z) : bool :=
  match str with
  | [] => false
  | c :: str => let s' := depth_next c s in
                ((dp_depth s <? dp_depth s') && (MAX_JSON_DEPTH <? dp_depth s')) || too_deep s' str
  end.

(** White space of [trim()]. *)
Definition white_space (c : Z) : bool :=
  ((9 <=? c) && (c <=? 13)) || bool_decide (c ∈ [32; 160; 5760; 8232; 8233; 8239; 8287; 12288; 65279]) || ((8192 <=? c) && (c <=? 8202)).

Section receiving.
Context (json_parse : list Z → option jsval) (Number : string → jsnum) (hmac : string → bytes → string).

Definition checkWebhookPreflight (body : bytes) (contentType : option string) (maxBodyBytes : Z) : result preflight_code jsval :=
  if match contentType with
     | Some c => negb (str_empty c) && negb (str_includes (unchars (to_lower (chars c))) "application/json")
     | None => false
     end then Err UnsupportedMediaType
  else if maxBodyBytes <? Z.of_nat (length body) then Err PayloadTooLarge
  else
    let str := utf8_decode body in
    if bool_decide (REPLACEMENT ∈ str) && negb (has_replacement_bytes (byte_code <$> body)) then Err InvalidEncoding
    else if too_deep {| dp_depth := 0; dp_inString := false; dp_escape := false |} str then Err PayloadTooDeep
    else if forallb white_space str then Ok JNull
    else match json_parse str with Some v => Ok v | None => Err InvalidJson end.

(** ** Signatures *)

Definition DEFAULT_WEBHOOK_TOLERANCE_SECONDS : Z := 300.
Definition DEFAULT_WEBHOOK_SECRET_GRACE_WINDOW_SECONDS : Z := 86400.
Definition SIG_COMPARE_KEY : string := "fluxora-webhook-sig".

(** Both sides are hashed, and the digests compared. *)
Definition constantTimeCompare (a b : string) : bool :=
  bool_decide (hmac SIG_COMPARE_KEY (utf8 a) = hmac SIG_COMPARE_KEY (utf8 b)).

Definition buildWebhookSigningPayload (timestamp : string) (rawBody : RawBody) : bytes :=
  utf8 (timestamp +:+ ".") ++ toBuffer rawBody.

Definition computeWebhookSignature (secret timestamp : string) (rawBody : RawBody) : string :=
  hmac secret (buildWebhookSigningPayload timestamp rawBody).

Inductive moment : Type := Seconds (q : Q) | DateMs (ms : Z).
Definition toUnixSeconds (value : moment) : Z := match value with Seconds q => Qfloor q | DateMs ms => ms / 1000 end.

Record VerifyWebhookSignatureInput : Type := {
  vi_secret : option string; vi_secretPrevious : option string; vi_previousSecretRotatedAt : option Z; vi_graceWindowSeconds : option Z;
  vi_deliveryId : option string; vi_timestamp : option string; vi_signature : option string; vi_rawBody : RawBody;
  vi_toleranceSeconds : option Z; vi_now : option moment; vi_maxBodyBytes : option Z; vi_isDuplicateDelivery : option (string → bool);
}.

Record WebhookVerificationResult : Type := { vr_ok : bool; vr_status : Z; vr_code : WebhookVerificationCode; vr_usedPreviousSecret : bool }.
Definition rejected_with (status : Z) (code : WebhookVerificationCode) : WebhookVerificationResult :=
  {| vr_ok := false; vr_status := status; vr_code := code; vr_usedPreviousSecret := false |}.

(** A header or secret that is there and not empty. *)
Definition present (x : option string) : option string := match x with Some s => if str_empty s then None else Some s | None => None end.

(** [Number.isInteger(n) && n > 0] *)
Definition positive_integer (n : jsnum) : option Z := match n with NumInt z => if 0 <? z then Some z else None | _ => None end.

Definition previous_expired (v : VerifyWebhookSignatureInput) (now : Z) : bool :=
  match vi_secretPrevious v, vi_previousSecretRotatedAt v with
  | Some _, Some rotatedAt => default DEFAULT_WEBHOOK_SECRET_GRACE_WINDOW_SECONDS (vi_graceWindowSeconds v) <? now - rotatedAt
  | _, _ => false
  end.

(** The secrets to try, each with whether it is the previous one. *)
Definition secrets_to_try (v : VerifyWebhookSignatureInput) (secret : string) (now : Z) : list (string * bool) :=
  (secret, false) :: match present (vi_secretPrevious v) with
                     | Some p => if previous_expired v now then [] else [(p, true)]
                     | None => []
                     end.

Fixpoint matching (signature timestamp : string) (body : bytes) (secrets : list (string * bool)) : option bool :=
  match secrets with
  | [] => None
  | (value, isPrevious) :: secrets =>
      if constantTimeCompare signature (computeWebhookSignature value timestamp (BodyBytes body)) then Some isPrevious
      else matching signature timestamp body secrets
  end.

(** [clock] is [Date.now()]. *)
Definition verifyWebhookSignature (v : VerifyWebhookSignatureInput) (clock : Z) : WebhookVerificationResult :=
  let now := toUnixSeconds (default (Seconds (inject_Z (clock / 1000))) (vi_now v)) in
  let body := toBuffer (vi_rawBody v) in
  match present (vi_secret v) with
  | None => rejected_with 401 missing_secret
  | Some secret =>
  match present (vi_deliveryId v) with
  | None => rejected_with 401 missing_delivery_id
  | Some deliveryId =>
  match present (vi_timestamp v) with
  | None => rejected_with 401 missing_timestamp
  | Some timestamp =>
  match present (vi_signature v) with
  | None => rejected_with 401 missing_signature
  | Some signature =>
  if default DEFAULT_MAX_WEBHOOK_BODY_BYTES (vi_maxBodyBytes v) <? Z.of_nat (length body) then rejected_with 413 payload_too_large
  else match positive_integer (Number timestamp) with
  | None => rejected_with 400 invalid_timestamp
  | Some timestampNumber =>
  if default DEFAULT_WEBHOOK_TOLERANCE_SECONDS (vi_toleranceSeconds v) <? Z.abs (now - timestampNumber)
  then rejected_with 401 timestamp_outside_tolerance
  else
    let actualSignature := unchars (to_lower (chars (js_trim signature))) in
    match matching actualSignature timestamp body (secrets_to_try v secret now) with
    | None => if previous_expired v now then rejected_with 401 previous_secret_expired else rejected_with 401 signature_mismatch
    | Some usedPreviousSecret =>
        if match vi_isDuplicateDelivery v with Some f => f deliveryId | None => false end then rejected_with 409 duplicate_delivery
        else {| vr_ok := true; vr_status := 200; vr_code := ok; vr_usedPreviousSecret := usedPreviousSecret |}
    end
  end end end end end.

(** ** The table of secrets *)

Record WebhookSecretState : Type := {
  currentSecret : string; previousSecret : option string; previousSecretRotatedAt : option Z; previousSecretExpiresAt : option Z;
}.
Definition DEFAULT_WEBHOOK_SECRET_ID : string := "default".
Notation secrets := (gmap string WebhookSecretState).

Definition getSecretState (id : string) (t : secrets) : option WebhookSecretState := t !! id.

(** An id that is there already is rejected by the primary key. *)
Definition setSecret (id secret : string) (t : secrets) : result unit WebhookSecretState * secrets :=
  match t !! id with
  | Some _ => (Err tt, t)
  | None =>
      let row := {| currentSecret := secret; previousSecret := None; previousSecretRotatedAt := None; previousSecretExpiresAt := None |} in
      (Ok row, <[id := row]> t)
  end.

Definition rotateSecret (id newSecret : string) (graceWindowSeconds rotatedAt : option Z) (clock : Z) (t : secrets)
    : result unit WebhookSecretState * secrets :=
  let grace := default DEFAULT_WEBHOOK_SECRET_GRACE_WINDOW_SECONDS graceWindowSeconds in
  let rotatedAt := default (clock / 1000) rotatedAt in
  match t !! id with
  | None => (Err tt, t)
  | Some row =>
      let row := {| currentSecret := newSecret; previousSecret := Some (currentSecret row); previousSecretRotatedAt := Some rotatedAt;
                    previousSecretExpiresAt := Some (rotatedAt + grace) |} in
      (Ok row, <[id := row]> t)
  end.

Definition clearExpiredPreviousSecret (id : string) (now : Z) (t : secrets) : bool * secrets :=
  match t !! id with
  | Some row =>
      match previousSecret row, previousSecretExpiresAt row with
      | Some _, Some expiresAt =>
          if expiresAt <=? now then
            (true, <[id := {| currentSecret := currentSecret row; previousSecret := None; previousSecretRotatedAt := None; previousSecretExpiresAt := None |}]> t)
          else (false, t)
      | _, _ => (false, t)
      end
  | None => (false, t)
  end.

Definition deleteSecretState (id : string) (t : secrets) : bool * secrets :=
  match t !! id with Some _ => (true, delete id t) | None => (false, t) end.

(** ** POST /receive *)

Record delivery_request : Type := {
  dr_body : bytes; dr_contentType : option string; dr_deliveryId : option string; dr_timestamp : option string;
  dr_signature : option string; dr_event : option string;
}.

(** The row of the secrets; [None] when there is none or the lookup failed. *)
Record environment : Type := { FLUXORA_WEBHOOK_SECRET : option string; FLUXORA_WEBHOOK_SECRET_PREVIOUS : option string }.

Definition verify_input (state : option WebhookSecretState) (env : environment) (r : delivery_request) : VerifyWebhookSignatureInput :=
  let '(secret, prev, rotatedAt, grace) :=
    match state with
    | Some s =>
        match present (previousSecret s) with
        | Some p =>
            match previousSecretRotatedAt s, previousSecretExpiresAt s with
            | Some t, Some x => (Some (currentSecret s), Some p, Some t, Some (x - t))
            | _, _ => (Some (currentSecret s), Some p, None, None)
            end
        | None => (Some (currentSecret s), None, None, None)
        end
    | None => (FLUXORA_WEBHOOK_SECRET env, FLUXORA_WEBHOOK_SECRET_PREVIOUS env, None, None)
    end in
  {| vi_secret := secret; vi_secretPrevious := prev; vi_previousSecretRotatedAt := rotatedAt; vi_graceWindowSeconds := grace;
     vi_deliveryId := dr_deliveryId r; vi_timestamp := dr_timestamp r; vi_signature := dr_signature r; vi_rawBody := BodyBytes (dr_body r);
     vi_toleranceSeconds := None; vi_now := None; vi_maxBodyBytes := None; vi_isDuplicateDelivery := None |}.

Inductive receive_answer : Type :=
| Preflight (c : preflight_code)
| Refused (status : Z) (c : WebhookVerificationCode)
| DuplicateDelivery
| Received (deliveryId : string) (eventType : option string) (event : jsval).

Definition answer_status (a : receive_answer) : Z :=
  match a with Preflight c => preflight_status c | Refused status _ => status | DuplicateDelivery => 409 | Received _ _ _ => 200 end.

(** With the in-memory cache; [clock] is [Date.now()]. *)
Definition receive (windowSeconds : Z) (state : option WebhookSecretState) (env : environment) (clock : Z) (r : delivery_request)
    (seen : cache) : receive_answer * cache :=
  match checkWebhookPreflight (dr_body r) (dr_contentType r) DEFAULT_MAX_WEBHOOK_BODY_BYTES with
  | Err c => (Preflight c, seen)
  | Ok parsed =>
      let verification := verifyWebhookSignature (verify_input state env r) clock in
      if negb (vr_ok verification) then (Refused (vr_status verification) (vr_code verification), seen)
      else
        let deliveryId := default "" (dr_deliveryId r) in
        let '(isNew, seen) := mem_add windowSeconds clock "webhook" deliveryId seen in
        if negb isNew then (DuplicateDelivery, seen) else (Received deliveryId (dr_event r) parsed, seen)
  end.

(** ** Specification *)

(** A signature of the message under the secret. *)
Definition signed_under (secret : string) (r : delivery_request) : Prop :=
  ∃ timestamp signature, present (dr_timestamp r) = Some timestamp ∧ present (dr_signature r) = Some signature ∧
    constantTimeCompare (unchars (to_lower (chars (js_trim signature)))) (computeWebhookSignature secret timestamp (BodyBytes (dr_body r))) = true.

(** A timestamp near [now], in seconds. *)
Definition timely (now : Z) (r : delivery_request) : Prop :=
  ∃ timestamp t, present (dr_timestamp r) = Some timestamp ∧ positive_integer (Number timestamp) = Some t ∧
    Z.abs (now - t) <= DEFAULT_WEBHOOK_TOLERANCE_SECONDS.

(** The secrets that are good at [now]. *)
Definition good_secret (state : option WebhookSecretState) (env : environment) (now : Z) (secret : string) : Prop :=
  str_empty secret = false ∧
  match state with
  | Some s => secret = currentSecret s ∨ (str_empty (currentSecret s) = false ∧ previousSecret s = Some secret ∧
      match previousSecretRotatedAt s, previousSecretExpiresAt s with Some _, Some x => now <= x | _, _ => True end)
  | None => FLUXORA_WEBHOOK_SECRET env = Some secret ∨
      ((∃ c, FLUXORA_WEBHOOK_SECRET env = Some c ∧ str_empty c = false) ∧ FLUXORA_WEBHOOK_SECRET_PREVIOUS env = Some secret)
  end.

Definition accepted_request (state : option WebhookSecretState) (env : environment) (clock : Z) (r : delivery_request) : Prop :=
  is_ok (checkWebhookPreflight (dr_body r) (dr_contentType r) DEFAULT_MAX_WEBHOOK_BODY_BYTES) = true ∧
  is_Some (present (dr_deliveryId r)) ∧ timely (clock / 1000) r ∧ ∃ secret, good_secret state env (clock / 1000) secret ∧ signed_under secret r.

(** ** Lemmas *)
Lemma present_Some x s : present x = Some s ↔ x = Some s ∧ str_empty s = false.
Proof.
  unfold present. destruct x as [t|]; [|by split; [|intros [? _]]]. destruct (str_empty t) eqn:Ht.
  - split; [done|]. intros [[= ->] Hs]. by rewrite Ht in Hs.
  - split; [by intros [= ->]|by intros [[= ->] _]].
Qed.

Lemma matching_Some sg ts b l : is_Some (matching sg ts b l) ↔
  ∃ value p, (value, p) ∈ l ∧ constantTimeCompare sg (computeWebhookSignature value ts (BodyBytes b)) = true.
Proof.
  induction l as [|[v p] l IH]; simpl.
  - split; [by intros [? ?]|]. by intros (? & ? & []%not_elem_of_nil & _).
  - destruct (constantTimeCompare sg _) eqn:Hc; [split; [intros _; exists v, p; split; [apply list_elem_of_here|done]|by eexists]|].
    rewrite IH. split; intros (v' & p' & Hin & Hv); exists v', p'; (split; [|done]); [by apply list_elem_of_further|].
    apply elem_of_cons in Hin as [[= -> ->]|Hin]; [by rewrite Hc in Hv|done].
Qed.

Lemma preflight_size b ct v : checkWebhookPreflight b ct DEFAULT_MAX_WEBHOOK_BODY_BYTES = Ok v → Z.of_nat (length b) <= DEFAULT_MAX_WEBHOOK_BODY_BYTES.
Proof.
  unfold checkWebhookPreflight. match goal with |- (if ?c then _ else _) = _ → _ => destruct c; [done|] end.
  by destruct (Z.ltb_spec DEFAULT_MAX_WEBHOOK_BODY_BYTES (Z.of_nat (length b))).
Qed.

Lemma verify_now state env r clock : toUnixSeconds (default (Seconds (inject_Z (clock / 1000))) (vi_now (verify_input state env r))) = clock / 1000.
Proof.
  unfold verify_input. destruct state as [s|]; [destruct (present _); [destruct (previousSecretRotatedAt s), (previousSecretExpiresAt s)|]|]; apply Qfloor_Z.
Qed.

Lemma elem_secrets v s now x p : (x, p) ∈ secrets_to_try v s now ↔
  (x = s ∧ p = false) ∨ (present (vi_secretPrevious v) = Some x ∧ previous_expired v now = false ∧ p = true).
Proof.
  unfold secrets_to_try. rewrite elem_of_cons. destruct (present (vi_secretPrevious v)) as [q|]; [destruct (previous_expired v now)|];
    rewrite ?list_elem_of_singleton; set_solver.
Qed.

Lemma good_secrets state env now r x :
  good_secret state env now x ↔ ∃ s p, present (vi_secret (verify_input state env r)) = Some s ∧ (x, p) ∈ secrets_to_try (verify_input state env r) s now.
Proof.
  setoid_rewrite elem_secrets. setoid_rewrite present_Some. unfold good_secret, verify_input, previous_expired. destruct state as [s|].
  - destruct (present (previousSecret s)) as [q|] eqn:Hp.
    + pose proof Hp as [Hq Hqe]%present_Some.
      destruct (previousSecretRotatedAt s) as [t|], (previousSecretExpiresAt s) as [e|]; simpl; try destruct (Z.ltb_spec (e - t) (now - t)); try rewrite !Hq; split; naive_solver lia.
    + simpl. split; [|naive_solver]. intros (He & [->|(_ & Hs & _)]); [naive_solver|]. rewrite Hs in Hp. simpl in Hp. by rewrite He in Hp.
  - simpl. destruct (FLUXORA_WEBHOOK_SECRET_PREVIOUS env) as [q|], (FLUXORA_WEBHOOK_SECRET env) as [c|]; split; naive_solver.
Qed.

(** The verification of a received request, in full. *)
Lemma verify_received state env r clock : Z.of_nat (length (dr_body r)) <= DEFAULT_MAX_WEBHOOK_BODY_BYTES →
  vr_ok (verifyWebhookSignature (verify_input state env r) clock) = true ↔
  is_Some (present (dr_deliveryId r)) ∧ timely (clock / 1000) r ∧ ∃ secret, good_secret state env (clock / 1000) secret ∧ signed_under secret r.
Proof.
  intros Hsize. unfold verifyWebhookSignature. rewrite verify_now. setoid_rewrite (good_secrets state env (clock / 1000) r).
  set (v := verify_input state env r).
  assert (vi_deliveryId v = dr_deliveryId r ∧ vi_timestamp v = dr_timestamp r ∧ vi_signature v = dr_signature r ∧ toBuffer (vi_rawBody v) = dr_body r ∧
    vi_maxBodyBytes v = None ∧ vi_toleranceSeconds v = None ∧ vi_isDuplicateDelivery v = None) as (-> & -> & -> & -> & -> & -> & ->).
  { unfold v, verify_input. destruct state as [s|]; [destruct (present _); [destruct (previousSecretRotatedAt s), (previousSecretExpiresAt s)|]|]; done. }
  unfold timely, signed_under. destruct (present (vi_secret v)) as [s|]; [|naive_solver].
  destruct (present (dr_deliveryId r)) as [did|]; [|split; [done|by intros [[? ?] _]]].
  destruct (present (dr_timestamp r)) as [ts|]; [|naive_solver]. destruct (present (dr_signature r)) as [sg|]; [|naive_solver].
  cbn [from_option]. unfold id. destruct (Z.ltb_spec DEFAULT_MAX_WEBHOOK_BODY_BYTES (Z.of_nat (length (dr_body r)))); [lia|].
  destruct (positive_integer (Number ts)) as [t|] eqn:Ht; [|naive_solver].
  destruct (Z.ltb_spec DEFAULT_WEBHOOK_TOLERANCE_SECONDS (Z.abs (clock / 1000 - t))); [naive_solver lia|].
  pose proof (matching_Some (unchars (to_lower (chars (js_trim sg)))) ts (dr_body r) (secrets_to_try v s (clock / 1000))) as Hm.
  destruct (matching _ _ _ _) as [p|].
  - simpl. split; [intros _|done]. destruct (proj1 Hm) as (x & p' & Hin & Hc); [by eexists|]. split; [by eexists|]. split; [naive_solver|].
    exists x. split; [naive_solver|]. by exists ts, sg.
  - destruct (previous_expired v _); (split; [done|]); intros (_ & _ & x & (s' & p & [= <-] & Hin) & ts' & sg' & [= <-] & [= <-] & Hc);
      (destruct (proj2 Hm) as [? ?]; [by exists x, p|done]).
Qed.

Notation key r := (mem_key "webhook" (default "" (dr_deliveryId r))).

Lemma receive_cases w state env clock r c :
  (¬ accepted_request state env clock r ∧ (receive w state env clock r c).2 = c ∧ answer_status (receive w state env clock r c).1 ≠ 200) ∨
  (accepted_request state env clock r ∧ ∃ v,
    receive w state env clock r c = let '(b, c') := mem_add w clock "webhook" (default "" (dr_deliveryId r)) c in
      (if b then Received (default "" (dr_deliveryId r)) (dr_event r) v else DuplicateDelivery, c')).
Proof.
  unfold receive, accepted_request. destruct (checkWebhookPreflight _ _ _) as [v|e] eqn:Hp.
  2:{ left. split; [by intros [? _]|]. split; [done|]. by destruct e. }
  pose proof (verify_received state env r clock (preflight_size _ _ _ Hp)) as Hv. simpl.
  destruct (vr_ok (verifyWebhookSignature (verify_input state env r) clock)) eqn:Hok; simpl.
  - right. split; [split; [done|by apply Hv]|]. exists v. by destruct (mem_add _ _ _ _ _) as [[] c'].
  - left. split; [intros [_ Ha]; by apply Hv in Ha|]. split; [done|]. revert Hok. unfold verifyWebhookSignature.
    repeat case_match; simpl; done.
Qed.

Lemma refused_no_duplicate w state env clock r c : ¬ accepted_request state env clock r → (receive w state env clock r c).1 ≠ DuplicateDelivery.
Proof.
  intros Hn. destruct (receive_cases w state env clock r c) as [_|(Ha & _)]; [|done]. revert Hn. unfold receive, accepted_request.
  destruct (checkWebhookPreflight _ _ _) as [v|e] eqn:Hp; [|done]. intros Hn.
  destruct (vr_ok (verifyWebhookSignature (verify_input state env r) clock)) eqn:Hok; [|done].
  destruct Hn. split; [done|]. by apply (verify_received state env r clock (preflight_size _ _ _ Hp)).
Qed.

Lemma receive_200 w state env clock r c : answer_status (receive w state env clock r c).1 = 200 →
  accepted_request state env clock r ∧ (isLive clock (key r) c).1 = false.
Proof.
  destruct (receive_cases w state env clock r c) as [(Hn & _ & Hs)|(Ha & v & ->)]; [done|].
  unfold mem_add. by destruct (isLive _ _ c) as [[] c'].
Qed.


Lemma accepted_answer w state env clock r c : accepted_request state env clock r → answer_status (receive w state env clock r c).1 ∈ [200; 409].
Proof. destruct (receive_cases w state env clock r c) as [(Hn & _)|(_ & v & ->)]; [done|]. intros _. destruct (mem_add _ _ _ _ _) as [[] c']; set_solver. Qed.

Lemma refused_answer w state env clock r c : ¬ accepted_request state env clock r →
  answer_status (receive w state env clock r c).1 ≠ 200 ∧ (receive w state env clock r c).2 = c.
Proof. by destruct (receive_cases w state env clock r c) as [(_ & ? & ?)|(? & _)]. Qed.

(** *** Replays *)

(** Requests in the order they are handled, each with the clock and the secrets then. *)
Fixpoint receives (w : Z) (env : environment) (rs : list (Z * option WebhookSecretState * delivery_request)) (seen : cache)
    : list receive_answer * cache :=
  match rs with
  | [] => ([], seen)
  | (clock, state, r) :: rs =>
      let '(a, seen) := receive w state env clock r seen in
      let '(l, seen) := receives w env rs seen in (a :: l, seen)
  end.

Definition accepted_count (l : list receive_answer) : Z := Z.of_nat (length (filter (λ a, answer_status a = 200) l)).

Lemma guarded_receive w state env clock r k x n c : cache_wf c → clock < x → guarded k x n c →
  let '(a, c') := receive w state env clock r c in
  cache_wf c' ∧ (n + accepted_count [a] < DEDUP_CACHE_MAX → guarded k x (n + accepted_count [a]) c').
Proof.
  intros Hwf Hx Hg. destruct (receive_cases w state env clock r c) as [(_ & Hc & Hs)|(_ & v & ->)].
  - destruct (receive _ _ _ _ _ _) as [a c']. simpl in *. subst c'. split; [done|]. unfold accepted_count. rewrite filter_cons_False by done.
    simpl. by rewrite Z.add_0_r.
  - pose proof (mem_add_spec w clock "webhook" (default "" (dr_deliveryId r)) c Hwf) as Hspec.
    pose proof (guarded_add w clock "webhook" (default "" (dr_deliveryId r)) k x n c Hwf Hx Hg) as Hadd.
    destruct (mem_add w clock "webhook" (default "" (dr_deliveryId r)) c) as [[] c']; simpl in *.
    + split; [apply Hspec|]. unfold accepted_count. simpl. intros Hlt. apply Hadd. lia.
    + split; [apply Hspec|]. unfold accepted_count. simpl. rewrite Z.add_0_r. done.
Qed.

Lemma guarded_receives w env rs k x : ∀ n c, cache_wf c → Forall (λ q, q.1.1 < x) rs → guarded k x n c →
  let '(l, c') := receives w env rs c in
  n + accepted_count l < DEDUP_CACHE_MAX → cache_wf c' ∧ guarded k x (n + accepted_count l) c'.
Proof.
  induction rs as [|[[clock state] r] rs IH]; intros n c Hwf Hall Hg; simpl.
  { intros _. unfold accepted_count. simpl. by rewrite Z.add_0_r. }
  apply Forall_cons_iff in Hall as [Hx Hall]. simpl in Hx. pose proof (guarded_receive w state env clock r k x n c Hwf Hx Hg) as Hr.
  destruct (receive w state env clock r c) as [a c1]. destruct Hr as [Hwf1 Hg1].
  assert (∀ l, accepted_count (a :: l) = accepted_count [a] + accepted_count l) as Hcons.
  { intros l. unfold accepted_count. rewrite !filter_cons. case_decide; simpl; lia. }
  assert (∀ l, 0 <= accepted_count l) as Hpos by (intros l; unfold accepted_count; lia).
  specialize (IH (n + accepted_count [a]) c1 Hwf1 Hall). destruct (receives w env rs c1) as [l c2]. rewrite Hcons. intros Hlt.
  rewrite Z.add_assoc. pose proof (Hpos l). apply IH; [apply Hg1; lia|lia].
Qed.


Definition with_id (deliveryId : string) (r : delivery_request) : delivery_request := {|
  dr_body := dr_body r; dr_contentType := dr_contentType r; dr_deliveryId := Some deliveryId; dr_timestamp := dr_timestamp r;
  dr_signature := dr_signature r; dr_event := dr_event r |}.

(** the id is not part of what is signed: whoever has seen an accepted message can
    have it accepted again, at once, under any id the cache does not know. *)
Theorem replay_under_new_id w state env clock r c deliveryId :
  accepted_request state env clock r → str_empty deliveryId = false → (isLive clock (mem_key "webhook" deliveryId) c).1 = false →
  ∃ v, (receive w state env clock (with_id deliveryId r) c).1 = Received deliveryId (dr_event r) v.
Proof.
  intros (Hp & _ & Ht & Hs) He Hl. assert (accepted_request state env clock (with_id deliveryId r)) as Ha.
  { split; [exact Hp|]. split; [|by split]. exists deliveryId. by apply present_Some. }
  destruct (receive_cases w state env clock (with_id deliveryId r) c) as [[Hn _]|(_ & v & ->)]; [done|]. exists v. simpl.
  unfold mem_add. by destruct (isLive clock (mem_key "webhook" deliveryId) c) as [[] c'].
Qed.

(** *** Deliveries of the service *)

Section delivered.
(** Digests are lower-case hexadecimal, and [Number] reads the numerals it prints. *)
Context (digest_ok : ∀ k m, str_empty (hmac k m) = false ∧ unchars (to_lower (chars (js_trim (hmac k m)))) = hmac k m)
        (Number_int : ∀ z, Number (int_string z) = NumInt z).

(** The request a consumer receives for a post of the delivery service. *)
Definition request_of (p : post) : delivery_request := {|
  dr_body := utf8 (po_payload p); dr_contentType := Some "application/json"; dr_deliveryId := Some (po_deliveryId p);
  dr_timestamp := Some (po_timestamp p); dr_signature := Some (po_signature p); dr_event := Some (po_eventType p) |}.

Definition service_sign (secret ts payload : string) : string := computeWebhookSignature secret ts (BodyText payload).

Lemma signed_post d secret now : 0 < now / 1000 → signed_under secret (request_of (post_of service_sign d secret (unix_seconds now))).
Proof.
  intros Hnow. set (sg := service_sign secret (unix_seconds now) (wd_payload d)). destruct (digest_ok secret (buildWebhookSigningPayload (unix_seconds now) (BodyText (wd_payload d)))) as [He Hl].
  exists (unix_seconds now), sg. split; [|split; [by apply present_Some|]].
  - apply present_Some. split; [done|]. unfold unix_seconds, int_string. rewrite str_empty_chars, chars_unchars. apply bool_decide_eq_false.
    apply int_text_digits. lia.
  - unfold constantTimeCompare. apply bool_decide_eq_true. unfold sg, service_sign, computeWebhookSignature. by rewrite Hl.
Qed.


End delivered.

(** *** Rotation *)

(** Runs of the cleanup job. *)
Definition cleanups (id : string) (times : list Z) (t : secrets) : secrets := foldl (λ t now, (clearExpiredPreviousSecret id now t).2) t times.

Lemma cleanups_rotated id row new rot grace times t :
  t !! id = Some {| currentSecret := new; previousSecret := Some row; previousSecretRotatedAt := Some rot; previousSecretExpiresAt := Some (rot + grace) |} →
  cleanups id times t !! id =
    Some (if forallb (λ now, now <? rot + grace) times
          then {| currentSecret := new; previousSecret := Some row; previousSecretRotatedAt := Some rot; previousSecretExpiresAt := Some (rot + grace) |}
          else {| currentSecret := new; previousSecret := None; previousSecretRotatedAt := None; previousSecretExpiresAt := None |}).
Proof.
  revert t. unfold cleanups. induction times as [|now times IH]; intros t Ht; simpl; [done|].
  unfold clearExpiredPreviousSecret at 2. rewrite Ht. simpl. destruct (Z.leb_spec (rot + grace) now), (Z.ltb_spec now (rot + grace)); try lia; simpl.
  - clear IH Ht. generalize (lookup_insert_eq t id {| currentSecret := new; previousSecret := None; previousSecretRotatedAt := None; previousSecretExpiresAt := None |}).
    generalize (<[id:={| currentSecret := new; previousSecret := None; previousSecretRotatedAt := None; previousSecretExpiresAt := None |}]> t). clear.
    induction times as [|now times IH]; intros t Ht; simpl; [done|]. apply IH. unfold clearExpiredPreviousSecret. by rewrite Ht.
  - by apply IH.
Qed.


End receiving.

(** ** Witnesses *)

(** A digest with two values, by key, and the texts told apart by the comparison. *)
Definition two_digests (k : string) (m : bytes) : string :=
  if bool_decide (k = SIG_COMPARE_KEY) then (if bool_decide (m = utf8 "aa") then "aa" else "bb")
  else if bool_decide (k = "old") then "aa" else "bb".
Definition read_number (s : string) : jsnum :=
  match chars s with
  | "-"%char :: l => NumInt (- digits_val l)
  | l => NumInt (digits_val l)
  end.
Definition any_json (_ : list Z) : option jsval := Some (JObj []).

Lemma two_digests_ok k m : str_empty (two_digests k m) = false ∧ unchars (to_lower (chars (js_trim (two_digests k m)))) = two_digests k m.
Proof. unfold two_digests. repeat case_bool_decide; done. Qed.

Lemma read_number_int z : read_number (int_string z) = NumInt z.
Proof.
  unfold read_number, int_string. rewrite chars_unchars. unfold int_text. destruct (Z.ltb_spec z 0).
  - destruct (nat_text_spec (- z)) as (_ & _ & ->); [lia|]. f_equal. lia.
  - destruct (nat_text_spec z) as (Hne & Hd & Hv); [lia|]. destruct (nat_text z) as [|c l]; [done|]. simpl in Hd. apply andb_true_iff in Hd as [Hc _].
    destruct c as [[] [] [] [] [] [] [] []]; first [by rewrite Hv|by vm_compute in Hc].
Qed.

Definition no_env : environment := {| FLUXORA_WEBHOOK_SECRET := None; FLUXORA_WEBHOOK_SECRET_PREVIOUS := None |}.
Definition old_secret : WebhookSecretState :=
  {| currentSecret := "old"; previousSecret := None; previousSecretRotatedAt := None; previousSecretExpiresAt := None |}.
Definition sample_request : delivery_request := {|
  dr_body := chars "{}"; dr_contentType := Some "application/json"; dr_deliveryId := Some "d1"; dr_timestamp := Some "1000";
  dr_signature := Some "AA"; dr_event := Some "stream.created" |}.

Lemma sample_timely now : Z.abs (now - 1000) <= 300 → timely read_number now sample_request.
Proof. intros Hn. exists "1000", 1000. split; [reflexivity|]. split; [reflexivity|exact Hn]. Qed.
Lemma sample_signed : signed_under two_digests "old" sample_request.
Proof. exists "1000", "AA". split; [reflexivity|]. split; reflexivity. Qed.
Lemma sample_accepted : accepted_request any_json read_number two_digests (Some old_secret) no_env 1000000 sample_request.
Proof.
  split; [reflexivity|]. split; [by exists "d1"|]. split; [by apply sample_timely|]. exists "old". split; [|apply sample_signed]. split; [reflexivity|by left].
Qed.


Lemma replay_under_new_id_witness :
  ∃ v, (receive any_json read_number two_digests 86400 (Some old_secret) no_env 1000000 (with_id "d2" sample_request)
    (receive any_json read_number two_digests 86400 (Some old_secret) no_env 1000000 sample_request []).2).1 = Received "d2" (Some "stream.created") v.
Proof.
  apply (replay_under_new_id any_json read_number two_digests 86400 (Some old_secret) no_env 1000000 sample_request); [apply sample_accepted|reflexivity|reflexivity].
Defined.

Definition sample_delivery : WebhookDelivery := {|
  wd_id := "i"; wd_deliveryId := "d1"; wd_eventId := "e"; wd_eventType := "stream.created"; wd_endpointUrl := "https://a"; wd_status := DPending;
  wd_attempts := []; wd_createdAt := 0; wd_updatedAt := 0; wd_payload := "{}" |}.


