(* ===== verification/TokenBucket.v ===== *)
(** * The local limiter of webhook deliveries ([src/webhooks/rate-limiter.ts])

    [TokenBucketRateLimiter], with [validateRateLimitConfig] of
    [src/redis/webhookRateLimit.ts].  Tokens are rationals: the rounding of doubles is
    left out.  The digest of an endpoint is a parameter; the cleanup timer is an
    operation of its own, and [dispose], which clears the map, another. *)
From Stdlib Require Import ZArith QArith Qround Qminmax Lqa Lia.
From stdpp Require Import base gmap strings list.
From S2P Require Import Prelude DeliveryGate.
Local Open Scope string_scope.
Local Open Scope list_scope.
Local Open Scope Z_scope.

Definition RATE_LIMIT_MAX_WINDOW_MS : Z := 60 * 60 * 1000.
Definition RATE_LIMIT_MAX_LIMIT : Z := 100000.
Definition RATE_LIMIT_MIN_WINDOW_MS : Z := 100.

(** The field that is refused. *)
Definition validateRateLimitConfig (config : RateLimitConfig) : result string unit :=
  if rc_limit config <=? 0 then Err "limit"
  else if RATE_LIMIT_MAX_LIMIT <? rc_limit config then Err "limit"
  else if rc_windowMs config <? RATE_LIMIT_MIN_WINDOW_MS then Err "windowMs"
  else if RATE_LIMIT_MAX_WINDOW_MS <? rc_windowMs config then Err "windowMs"
  else if rc_burst config <? 0 then Err "burst"
  else Ok tt.

Definition MIN_STALE_AGE_MS : Z := 30000.

Record TokenBucket : Type := { tokens : Q; lastRefillMs : Z }.
Notation bucket_map := (gmap string TokenBucket).

Definition capacity (config : RateLimitConfig) : Q := inject_Z (if 0 <? rc_burst config then rc_burst config else rc_limit config).
Definition refillRate (config : RateLimitConfig) : Q := (inject_Z (rc_limit config) / inject_Z (rc_windowMs config))%Q.

Definition refill (config : RateLimitConfig) (now : Z) (bucket : TokenBucket) : TokenBucket :=
  let elapsed := now - lastRefillMs bucket in
  if 0 <? elapsed
  then {| tokens := Qmin (capacity config) (tokens bucket + inject_Z elapsed * refillRate config); lastRefillMs := now |}
  else bucket.

Section limiter.
Context (hashDimensions : string → string).

Definition checkLimit (dimensions : RateLimitDimensions) (config : RateLimitConfig) (now : Z) (buckets : bucket_map)
    : result string RateLimitResult * bucket_map :=
  match validateRateLimitConfig config with
  | Err e => (Err e, buckets)
  | Ok _ =>
      let key := hashDimensions (rd_endpoint dimensions) in
      let weight := inject_Z (default 1 (rc_weight config)) in
      let bucket := default {| tokens := capacity config; lastRefillMs := now |} (buckets !! key) in
      let bucket := refill config now bucket in
      if Qle_bool weight (tokens bucket)
      then (Ok {| canAttempt := true; retryAfterMs := None |},
            <[key := {| tokens := tokens bucket - weight; lastRefillMs := lastRefillMs bucket |}]> buckets)
      else
        let tokensNeeded := (weight - tokens bucket)%Q in
        (Ok {| canAttempt := false; retryAfterMs := Some (Qceiling (tokensNeeded / refillRate config)) |}, <[key := bucket]> buckets)
  end.

Definition getBucketLevel (dimensions : RateLimitDimensions) (config : option RateLimitConfig) (now : Z) (buckets : bucket_map)
    : Q * bucket_map :=
  let key := hashDimensions (rd_endpoint dimensions) in
  match buckets !! key with
  | None => (0%Q, buckets)
  | Some bucket =>
      let bucket := match config with Some config => refill config now bucket | None => bucket end in
      (tokens bucket, <[key := bucket]> buckets)
  end.

Definition cleanupStaleBuckets (now : Z) (buckets : bucket_map) : bucket_map :=
  filter (λ e, now - lastRefillMs e.2 <= MIN_STALE_AGE_MS) buckets.

Definition dispose (_ : bucket_map) : bucket_map := ∅.

(** ** Histories *)

Inductive limiter_op : Type :=
| CheckLimit (dimensions : RateLimitDimensions) (weight : Z)
| GetBucketLevel (dimensions : RateLimitDimensions)
| Cleanup.

Definition with_weight (weight : Z) (config : RateLimitConfig) : RateLimitConfig :=
  {| rc_limit := rc_limit config; rc_windowMs := rc_windowMs config; rc_burst := rc_burst config; rc_weight := Some weight |}.

(** What an operation admits on the key. *)
Definition op_step (config : RateLimitConfig) (key : string) (o : limiter_op) (now : Z) (buckets : bucket_map) : Z * bucket_map :=
  match o with
  | CheckLimit d weight =>
      let '(r, buckets) := checkLimit d (with_weight weight config) now buckets in
      (match r with
       | Ok r => if canAttempt r && bool_decide (hashDimensions (rd_endpoint d) = key) then weight else 0
       | Err _ => 0
       end, buckets)
  | GetBucketLevel d => (0, (getBucketLevel d (Some config) now buckets).2)
  | Cleanup => (0, cleanupStaleBuckets now buckets)
  end.

(** The weight admitted on the key, under one configuration. *)
Fixpoint admitted (config : RateLimitConfig) (key : string) (ops : list (Z * limiter_op)) (buckets : bucket_map) : Z * bucket_map :=
  match ops with
  | [] => (0, buckets)
  | (now, o) :: ops =>
      let '(a, buckets) := op_step config key o now buckets in
      let '(b, buckets) := admitted config key ops buckets in (a + b, buckets)
  end.

(** ** The budget *)
Lemma inject_pos z : 0 < z → (0 < inject_Z z)%Q.
Proof. intros Hz. change 0%Q with (inject_Z 0). by rewrite <- Zlt_Qlt. Qed.

Lemma inject_nonneg z : 0 <= z → (0 <= inject_Z z)%Q.
Proof. intros Hz. change 0%Q with (inject_Z 0). by rewrite <- Zle_Qle. Qed.

(** A level after some time. *)
Definition level (config : RateLimitConfig) (now : Z) (b : TokenBucket) : Q :=
  Qmin (capacity config) (tokens b + inject_Z (Z.max 0 (now - lastRefillMs b)) * refillRate config).

(** What the key can spend at a time. *)
Definition available (config : RateLimitConfig) (key : string) (now : Z) (buckets : bucket_map) : Q :=
  match buckets !! key with Some b => level config now b | None => capacity config end.

(** Levels are neither negative nor above the capacity. *)
Definition levels (config : RateLimitConfig) (buckets : bucket_map) : Prop :=
  map_Forall (λ _ b, 0 <= tokens b ∧ tokens b <= capacity config)%Q buckets.

Section budget.
Context (config : RateLimitConfig) (Hvalid : is_ok (validateRateLimitConfig config) = true).

Lemma valid_config : 0 < rc_limit config ∧ 0 < rc_windowMs config ∧ 0 <= rc_burst config.
Proof using Hvalid.
  revert Hvalid. unfold validateRateLimitConfig, RATE_LIMIT_MIN_WINDOW_MS. repeat case_match; simpl; try done; lia.
Qed.

Lemma rate_pos : (0 < refillRate config)%Q.
Proof using Hvalid.
  destruct valid_config as (Hl & Hw & _). unfold refillRate. apply Qlt_shift_div_l; [by apply inject_pos|].
  rewrite Qmult_0_l. by apply inject_pos.
Qed.

Lemma capacity_pos : (0 < capacity config)%Q.
Proof using Hvalid. destruct valid_config as (Hl & Hw & Hb). apply inject_pos. case_match; lia. Qed.

Lemma refill_level now b : (tokens b <= capacity config)%Q → (tokens (refill config now b) == level config now b)%Q.
Proof using Type.
  intros Hb. unfold refill, level. destruct (Z.ltb_spec 0 (now - lastRefillMs b)); simpl.
  - by rewrite Z.max_r by lia.
  - rewrite Z.max_l by lia. change (inject_Z 0) with 0%Q. rewrite Q.min_r; lra.
Qed.

Lemma refill_now now b : lastRefillMs (refill config now b) = Z.max now (lastRefillMs b).
Proof using Type. unfold refill. destruct (Z.ltb_spec 0 (now - lastRefillMs b)); simpl; lia. Qed.

Lemma level_bounds now b : (0 <= tokens b)%Q → (0 <= level config now b ∧ level config now b <= capacity config)%Q.
Proof using Hvalid.
  intros Hb. pose proof rate_pos. pose proof capacity_pos. split; [|apply Q.le_min_l]. apply Q.min_glb; [lra|].
  assert (0 <= inject_Z (Z.max 0 (now - lastRefillMs b)) * refillRate config)%Q; [|lra].
  apply Qmult_le_0_compat; [apply inject_nonneg; lia|lra].
Qed.

Lemma level_later now now' b : now <= now' →
  (level config now' b <= level config now b + inject_Z (now' - now) * refillRate config)%Q.
Proof using Hvalid.
  intros Hle. pose proof rate_pos as Hr. unfold level. set (r := refillRate config) in *.
  assert (inject_Z (Z.max 0 (now' - lastRefillMs b)) * r <= inject_Z (Z.max 0 (now - lastRefillMs b)) * r + inject_Z (now' - now) * r)%Q as H1.
  { rewrite <- Qmult_plus_distr_l, <- inject_Z_plus. apply Qmult_le_compat_r; [|lra]. rewrite <- Zle_Qle. lia. }
  assert (0 <= inject_Z (now' - now) * r)%Q as H2 by (apply Qmult_le_0_compat; [apply inject_nonneg; lia|lra]).
  destruct (Q.min_spec (capacity config) (tokens b + inject_Z (Z.max 0 (now - lastRefillMs b)) * r)) as [[_ ->]|[_ ->]].
  - eapply Qle_trans; [apply Q.le_min_l|lra].
  - eapply Qle_trans; [apply Q.le_min_r|lra].
Qed.

Lemma available_later key now now' m : now <= now' →
  (available config key now' m <= available config key now m + inject_Z (now' - now) * refillRate config)%Q.
Proof using Hvalid.
  intros Hle. unfold available. case_match; [by apply level_later|]. pose proof rate_pos.
  assert (0 <= inject_Z (now' - now) * refillRate config)%Q; [|lra]. apply Qmult_le_0_compat; [apply inject_nonneg; lia|lra].
Qed.

Lemma available_cap key now m : (available config key now m <= capacity config)%Q.
Proof using Type. unfold available. case_match; [apply Q.le_min_l|lra]. Qed.

Lemma level_stored now b : now <= lastRefillMs b → (tokens b <= capacity config)%Q → (level config now b == tokens b)%Q.
Proof using Type. intros Hn Hb. unfold level. rewrite Z.max_l by lia. change (inject_Z 0) with 0%Q. rewrite Q.min_r; lra. Qed.

(** The bucket a check finds, refilled. *)
Notation found key now m := (refill config now (default {| tokens := capacity config; lastRefillMs := now |} (m !! key))).

Lemma found_spec key now m : levels config m →
  let b := found key now m in
  (0 <= tokens b)%Q ∧ (tokens b <= capacity config)%Q ∧ now <= lastRefillMs b ∧ (tokens b == available config key now m)%Q.
Proof using Hvalid.
  intros Hm. cbv zeta. set (b0 := default _ (m !! key)). pose proof capacity_pos as Hc.
  assert (0 <= tokens b0 ∧ tokens b0 <= capacity config)%Q as [H0 H1].
  { unfold b0. destruct (m !! key) as [b|] eqn:Hl; simpl; [by apply (Hm _ _ Hl)|lra]. }
  pose proof (refill_level now b0 H1) as Hr. pose proof (level_bounds now b0 H0). rewrite refill_now.
  splits; [lra|lra|lia|]. rewrite Hr. unfold available, b0. destruct (m !! key); simpl; [reflexivity|].
  rewrite level_stored; simpl; [reflexivity|lia|lra].
Qed.

Lemma check_spec key d w now m : 0 <= w → levels config m →
  let '(a, m') := op_step config key (CheckLimit d w) now m in
  levels config m' ∧ (inject_Z a + available config key now m' == available config key now m)%Q.
Proof using Hvalid.
  intros Hw Hm. simpl. unfold checkLimit. destruct (validateRateLimitConfig (with_weight w config)) as [u|e]; [|split; [done|change (inject_Z 0) with 0%Q; lra]].
  set (k := hashDimensions (rd_endpoint d)). pose proof (found_spec k now m Hm) as Hf. cbv zeta in Hf.
  change (capacity (with_weight w config)) with (capacity config). change (refill (with_weight w config)) with (refill config).
  simpl default. set (b := found k now m) in *. destruct Hf as (H0 & Hc & Hn & Ha). pose proof (inject_nonneg w Hw) as Hq.
  assert (∀ b', now <= lastRefillMs b' → (0 <= tokens b' ∧ tokens b' <= capacity config)%Q →
    levels config (<[k := b']> m) ∧ (k = key → available config key now (<[k := b']> m) == tokens b')%Q ∧
    (k ≠ key → available config key now (<[k := b']> m) = available config key now m)) as Hi.
  { intros b' Hb' Hb. split; [by apply map_Forall_insert_2|]. unfold available. split.
    - intros <-. rewrite lookup_insert_eq. apply level_stored; [done|apply Hb].
    - intros Hk. by rewrite lookup_insert_ne. }
  destruct (Qle_bool (inject_Z w) (tokens b)) eqn:Hle; simpl.
  - apply Qle_bool_iff in Hle. destruct (Hi {| tokens := tokens b - inject_Z w; lastRefillMs := lastRefillMs b |}) as (Hl & Hi1 & Hi2);
      [done|simpl; lra|]. split; [done|]. case_bool_decide as Hk; [rewrite Hi1 by done; subst key; simpl; lra|].
    rewrite Hi2 by done. change (inject_Z 0) with 0%Q. lra.
  - destruct (Hi b) as (Hl & Hi1 & Hi2); [done|done|]. split; [done|]. change (inject_Z 0) with 0%Q.
    destruct (decide (k = key)) as [Hk|Hk]; [rewrite Hi1 by done; subst key; lra|rewrite Hi2 by done; lra].
Qed.

Lemma level_spec d key now m : levels config m →
  let m' := (getBucketLevel d (Some config) now m).2 in
  levels config m' ∧ (available config key now m' == available config key now m)%Q.
Proof using Hvalid.
  intros Hm. unfold getBucketLevel. set (k := hashDimensions (rd_endpoint d)). pose proof (found_spec k now m Hm) as Hf.
  destruct (m !! k) as [b|] eqn:Hl; simpl in *; [|split; [done|reflexivity]]. destruct Hf as (H0 & Hc & Hn & Ha).
  split; [by apply map_Forall_insert_2|]. destruct (decide (k = key)) as [<-|Hk].
  - unfold available at 1. rewrite lookup_insert_eq. rewrite level_stored by done. done.
  - unfold available. by rewrite lookup_insert_ne.
Qed.

(** A bucket old enough to be removed would be full, when the rate fills it by then. *)
Lemma cleanup_spec key now m : (capacity config <= inject_Z MIN_STALE_AGE_MS * refillRate config)%Q → levels config m →
  levels config (cleanupStaleBuckets now m) ∧ (available config key now (cleanupStaleBuckets now m) <= available config key now m)%Q.
Proof using Hvalid.
  intros Hfast Hm. split.
  { intros i b [Hb _]%map_lookup_filter_Some. by eapply Hm. }
  unfold available, cleanupStaleBuckets. destruct (m !! key) as [b|] eqn:Hl.
  - destruct (decide (now - lastRefillMs b <= MIN_STALE_AGE_MS)) as [Ha|Ha].
    + rewrite (map_lookup_filter_Some_2 _ m key b) by done. lra.
    + replace (filter _ m !! key) with (@None TokenBucket).
      2:{ symmetry. apply map_lookup_filter_None. right. intros b' Hb'. rewrite Hl in Hb'. by injection Hb' as <-. }
      destruct (Hm _ _ Hl) as [H0 _]. pose proof rate_pos. unfold level. apply Q.min_glb; [lra|].
      assert (inject_Z MIN_STALE_AGE_MS * refillRate config <= inject_Z (Z.max 0 (now - lastRefillMs b)) * refillRate config)%Q; [|lra].
      apply Qmult_le_compat_r; [|lra]. rewrite <- Zle_Qle. lia.
  - rewrite (proj2 (map_lookup_filter_None _ m key)) by by left. lra.
Qed.

(** ** Operations in the order of the clock *)

Fixpoint within (lo hi : Z) (ops : list (Z * limiter_op)) : Prop :=
  match ops with
  | [] => lo <= hi
  | (now, o) :: ops => lo <= now ∧ match o with CheckLimit _ w => 0 <= w | _ => True end ∧ within now hi ops
  end.

Lemma op_spec key o now m : (capacity config <= inject_Z MIN_STALE_AGE_MS * refillRate config)%Q →
  match o with CheckLimit _ w => 0 <= w | _ => True end → levels config m →
  let '(a, m') := op_step config key o now m in
  levels config m' ∧ (inject_Z a + available config key now m' <= available config key now m)%Q.
Proof using Hvalid.
  intros Hfast Hw Hm. destruct o as [d w|d|].
  - pose proof (check_spec key d w now m Hw Hm) as Hc. destruct (op_step _ _ _ _ _). destruct Hc. split; [done|lra].
  - simpl. pose proof (level_spec d key now m Hm) as [? ?]. change (inject_Z 0) with 0%Q. split; [done|lra].
  - simpl. pose proof (cleanup_spec key now m Hfast Hm) as [? ?]. change (inject_Z 0) with 0%Q. split; [done|lra].
Qed.

Lemma admitted_available key ops : (capacity config <= inject_Z MIN_STALE_AGE_MS * refillRate config)%Q →
  ∀ lo hi m, within lo hi ops → levels config m →
  (inject_Z (admitted config key ops m).1 <= available config key lo m + inject_Z (hi - lo) * refillRate config)%Q.
Proof using Hvalid.
  intros Hfast. pose proof rate_pos as Hr. induction ops as [|[now o] ops IH]; intros lo hi m Hin Hm; simpl in *.
  - assert (0 <= inject_Z (hi - lo) * refillRate config)%Q by (apply Qmult_le_0_compat; [apply inject_nonneg; lia|lra]).
    assert (0 <= available config key lo m)%Q; [|change (inject_Z 0) with 0%Q; lra]. unfold available. pose proof capacity_pos.
    destruct (m !! key) as [b|] eqn:Hl; [|lra]. destruct (Hm _ _ Hl). by apply level_bounds.
  - destruct Hin as (Hlo & Hw & Hin). pose proof (op_spec key o now m Hfast Hw Hm) as Ho. destruct (op_step config key o now m) as [a m1].
    destruct Ho as [Hm1 Ha]. specialize (IH now hi m1 Hin Hm1). destruct (admitted config key ops m1) as [b m2]. simpl in *.
    rewrite inject_Z_plus. pose proof (available_later key lo now m Hlo).
    assert (inject_Z (hi - lo) == inject_Z (now - lo) + inject_Z (hi - now))%Q as ->; [|lra].
    rewrite <- inject_Z_plus. f_equiv. lia.
Qed.

(** The whole numbers of the capacity. *)
Definition burst_size : Z := if 0 <? rc_burst config then rc_burst config else rc_limit config.

Lemma scaled_rate z : (inject_Z z * refillRate config == inject_Z (z * rc_limit config) / inject_Z (rc_windowMs config))%Q.
Proof using Hvalid.
  destruct valid_config as (_ & Hw & _). unfold refillRate. rewrite inject_Z_mult. field.
  intros Hz. pose proof (inject_pos _ Hw). lra.
Qed.

Lemma below_rate x z : (inject_Z x <= inject_Z z * refillRate config)%Q ↔ x * rc_windowMs config <= z * rc_limit config.
Proof using Hvalid.
  destruct valid_config as (_ & Hw & _). rewrite scaled_rate, (Zle_Qle (x * _)), inject_Z_mult. pose proof (inject_pos _ Hw) as Hp. split.
  - intros Hx. apply (Qmult_le_compat_r _ _ (inject_Z (rc_windowMs config))) in Hx; [|lra].
    eapply Qle_trans; [exact Hx|]. apply Qle_lteq. right. field. lra.
  - intros Hx. by apply Qle_shift_div_l.
Qed.

(** A deficit is made up exactly after the time it takes at the rate, rounded up. *)
Lemma enough_wait b w now later : (0 < refillRate config)%Q → lastRefillMs b = now → now <= later → (tokens b < w)%Q →
  (w <= tokens b + inject_Z (Z.max 0 (later - lastRefillMs b)) * refillRate config)%Q ↔ now + Qceiling ((w - tokens b) / refillRate config) <= later.
Proof using Type.
  intros Hr -> Hle Hlt. rewrite Z.max_r by lia. set (r := refillRate config) in *. set (x := ((w - tokens b) / r)%Q).
  assert (x * r == w - tokens b)%Q as Hx by (unfold x; field; lra). split; intros Hy.
  - assert (x <= inject_Z (later - now))%Q as Hq; [|].
    { unfold x. apply Qle_shift_div_r; [done|]. lra. }
    enough (Qceiling x <= later - now) by lia. rewrite <- (Qceiling_Z (later - now)). by apply Qceiling_resp_le.
  - assert (x <= inject_Z (later - now))%Q as Hq.
    { eapply Qle_trans; [apply Qle_ceiling|]. rewrite <- Zle_Qle. lia. }
    apply (Qmult_le_compat_r _ _ r) in Hq; [|lra]. lra.
Qed.

End budget.

(** C36: what the limiter admits on an endpoint in a period is at most its burst plus
    what the rate allows in that time, over any checks of it and of others, readings
    and cleanups, when a bucket refills within the age at which it is removed. *)
Theorem admitted_within_budget config key ops buckets lo hi :
  is_ok (validateRateLimitConfig config) = true → levels config buckets →
  burst_size config * rc_windowMs config <= MIN_STALE_AGE_MS * rc_limit config → within lo hi ops →
  (admitted config key ops buckets).1 * rc_windowMs config <= burst_size config * rc_windowMs config + (hi - lo) * rc_limit config.
Proof.
  intros Hv Hm Hfast Hin. apply (below_rate config Hv) in Hfast.
  pose proof (admitted_available config Hv key ops Hfast lo hi buckets Hin Hm) as Ha.
  pose proof (available_cap config key lo buckets) as Hc.
  assert (inject_Z ((admitted config key ops buckets).1 - burst_size config) <= inject_Z (hi - lo) * refillRate config)%Q as Hb.
  { unfold Z.sub at 1. rewrite inject_Z_plus, inject_Z_opp. change (inject_Z (burst_size config)) with (capacity config). lra. }
  apply (below_rate config Hv) in Hb. lia.
Qed.


(** Checks of weight 1 at one time. *)
Definition checks (dimensions : RateLimitDimensions) (now : Z) (n : nat) : list (Z * limiter_op) := replicate n (now, CheckLimit dimensions 1).

Lemma checks_admitted dimensions config now n : is_ok (validateRateLimitConfig config) = true → ∀ buckets,
  let key := hashDimensions (rd_endpoint dimensions) in
  let b := refill config now (default {| tokens := capacity config; lastRefillMs := now |} (buckets !! key)) in
  (inject_Z (Z.of_nat n) <= tokens b)%Q → (∀ b, buckets !! key = Some b → lastRefillMs b <= now) →
  let '(a, m) := admitted config key (checks dimensions now n) buckets in
  a = Z.of_nat n ∧ ∀ b, m !! key = Some b → lastRefillMs b <= now.
Proof.
  intros Hv. cbv zeta. set (key := hashDimensions (rd_endpoint dimensions)). induction n as [|n IH]; intros buckets Hn Hlast; [done|].
  assert (lastRefillMs (refill config now (default {| tokens := capacity config; lastRefillMs := now |} (buckets !! key))) = now) as Hl.
  { rewrite refill_now. destruct (buckets !! key) eqn:Hk; simpl; [specialize (Hlast _ eq_refl)|]; lia. }
  simpl. unfold checkLimit. replace (validateRateLimitConfig (with_weight 1 config)) with (validateRateLimitConfig config) by done.
  destruct (validateRateLimitConfig config) as [u|e]; [|done]. simpl. fold key.
  change (capacity (with_weight 1 config)) with (capacity config). change (refill (with_weight 1 config)) with (refill config).
  set (b := refill config now _) in *. pose proof (inject_nonneg (Z.of_nat n) ltac:(lia)) as Hpos.
  assert (inject_Z (Z.of_nat (S n)) == inject_Z (Z.of_nat n) + 1)%Q as Hs.
  { rewrite Nat2Z.inj_succ. unfold Z.succ. by rewrite inject_Z_plus. }
  change (inject_Z 1) with 1%Q. replace (Qle_bool 1 (tokens b)) with true; [|symmetry; apply Qle_bool_iff; lra]. simpl. rewrite bool_decide_true by done. simpl.
  set (m1 := <[key := _]> buckets). fold (checks dimensions now n). destruct (admitted config key (checks dimensions now n) m1) as [a m] eqn:Ha.
  specialize (IH m1). rewrite Ha in IH. unfold m1 in IH. rewrite lookup_insert_eq in IH. simpl in IH. unfold refill in IH. simpl in IH.
  rewrite Hl, Z.sub_diag in IH. simpl in IH. destruct IH as [-> Hm]; [lra|intros ? [= <-]; simpl; lia|]. split; [lia|done].
Qed.

Lemma admitted_app config key ops ops' m :
  admitted config key (ops ++ ops') m =
    let '(a, m) := admitted config key ops m in let '(b, m) := admitted config key ops' m in (a + b, m).
Proof.
  revert m. induction ops as [|[now o] ops IH]; intros m; simpl; [by destruct (admitted _ _ _ _)|].
  destruct (op_step config key o now m) as [a m1]. rewrite IH. destruct (admitted config key ops m1) as [b m2].
  destruct (admitted config key ops' m2). f_equal. lia.
Qed.

(** a bucket that needs longer to refill than the age at which it is removed is
    removed before and comes back full: the limit of a window is admitted twice within
    [MIN_STALE_AGE_MS + 1]. *)
Theorem cleanup_refills dimensions config now :
  is_ok (validateRateLimitConfig config) = true → rc_burst config = 0 → MIN_STALE_AGE_MS + 1 < rc_windowMs config →
  let again := now + MIN_STALE_AGE_MS + 1 in
  let once now := checks dimensions now (Z.to_nat (rc_limit config)) in
  (admitted config (hashDimensions (rd_endpoint dimensions)) (once now ++ (again, Cleanup) :: once again) ∅).1 = 2 * rc_limit config.
Proof.
  intros Hv Hb Hw. cbv zeta. set (key := hashDimensions (rd_endpoint dimensions)). destruct (valid_config config Hv) as (Hl & _).
  assert (∀ t m, m !! key = None → let '(a, m') := admitted config key (checks dimensions t (Z.to_nat (rc_limit config))) m in
    a = rc_limit config ∧ ∀ b, m' !! key = Some b → lastRefillMs b <= t) as Hfull.
  { intros t m Hm. pose proof (checks_admitted dimensions config t (Z.to_nat (rc_limit config)) Hv m) as Hc. cbv zeta in Hc. fold key in Hc.
    rewrite Hm in Hc. destruct (admitted _ _ _ _) as [a m']. rewrite Z2Nat.id in Hc by lia. apply Hc; [|done].
    unfold refill. simpl. rewrite Z.sub_diag. simpl. unfold capacity. rewrite Hb. simpl. apply Qle_refl. }
  rewrite admitted_app. pose proof (Hfull now ∅ (lookup_empty _)) as H1. destruct (admitted config key _ ∅) as [a m]. destruct H1 as [-> Hm].
  cbn [admitted op_step]. pose proof (Hfull (now + MIN_STALE_AGE_MS + 1) (cleanupStaleBuckets (now + MIN_STALE_AGE_MS + 1) m)) as H2.
  destruct (admitted config key _ (cleanupStaleBuckets _ m)) as [a' m']. destruct H2 as [-> _]; [|simpl; lia].
  apply map_lookup_filter_None. right. intros b Hlb. simpl. specialize (Hm b Hlb). lia.
Qed.

End limiter.

(** ** Witnesses *)

Definition sample_limits : RateLimitConfig := {| rc_limit := 2; rc_windowMs := 60000; rc_burst := 0; rc_weight := None |}.
Definition default_limits : RateLimitConfig := {| rc_limit := 10; rc_windowMs := 1000; rc_burst := 0; rc_weight := None |}.
Definition sample_dimensions : RateLimitDimensions := {| rd_tenant := "t"; rd_endpoint := "https://a"; rd_outcome := "retry"; rd_weight := 1 |}.

Lemma admitted_within_budget_witness :
  (admitted id default_limits "https://a" (checks sample_dimensions 0 11 ++ [(50, Cleanup)] ++ checks sample_dimensions 100 3) ∅).1 * 1000 <= 10 * 1000 + 100 * 10.
Proof.
  apply (admitted_within_budget id default_limits "https://a" (checks sample_dimensions 0 11 ++ [(50, Cleanup)] ++ checks sample_dimensions 100 3) ∅ 0 100);
    [reflexivity|apply map_Forall_empty|discriminate|repeat split; discriminate].
Defined.

Definition emptied : bucket_map := {[ "https://a" := {| tokens := 1 # 2; lastRefillMs := 0 |} ]}.


Lemma cleanup_refills_witness :
  (admitted id sample_limits "https://a" (checks sample_dimensions 0 2 ++ (30001, Cleanup) :: checks sample_dimensions 30001 2) ∅).1 = 4.
Proof. apply (cleanup_refills id sample_dimensions sample_limits 0); reflexivity. Defined.
