(* ===== verification/AdminLock.v ===== *)
(** * The lock of the admin state ([src/state/adminStateLock.ts])

    [RedisDistributedLock]: a lease in Redis, and a lock file for when Redis fails.  A
    call is a tree of commands over a world with the Redis server, the lock files of a
    host and the memory of its processes; time passes between commands.  The file
    operations of a process are synchronous, but other processes run between them.
    One clock serves all: [Date.now] and the server.  Logging is left out. *)
From Stdlib Require Import Ascii ZArith Lia.
From stdpp Require Import base gmap strings list relations.
From S2P Require Import Prelude Redis Effects.
Local Open Scope string_scope.
Local Open Scope list_scope.
Local Open Scope Z_scope.

Definition LOCK_KEY_PREFIX : string := "admin-state:lock:".
Definition LOCK_POLL_MS : Z := 50.
Definition DEFAULT_ACQUIRE_TIMEOUT_MS : Z := 5000.
Definition DEFAULT_LEASE_MS : Z := 5000.
Definition REINDEX_LOCK_NAMESPACE : string := "reindex".

(** [`${process.pid}:${Date.now()}:${lockSequence++}`] *)
Definition lockValue (pid now seq : Z) : string := int_string pid +:+ ":" +:+ int_string now +:+ ":" +:+ int_string seq.

Definition newline : string := String (ascii_of_nat 10) "".

(** ** Commands *)

Inductive created : Type := Created (id : nat) | AlreadyThere | NotCreated.
Inductive stat : Type := FileAt (mtimeMs : Z) | NoFile | StatFailed.
Inductive contents : Type := Text (s : string) | NoText | ReadFailed.

Section commands.
Context {M D : Type}.

(** [Mem p f] is a synchronous block of the process [p], [Persist] the replacement of
    the persisted state: a temporary file that is renamed. *)
Inductive acmd : Type → Type :=
| Now : acmd Z
| Sleep (ms : Z) : acmd unit
| NextSeq (p : nat) : acmd Z
| SetNx (key value : string) (px : Z) : acmd (result unit bool)
| DelIfValue (key value : string) : acmd (result unit unit)
| DelKey (key : string) : acmd (result unit unit)
| CreateFile (ns : string) : acmd created
| WriteFile (ns : string) (id : nat) (text : string) : acmd (result unit unit)
| StatFile (ns : string) : acmd stat
| ReadFile (ns : string) : acmd contents
| RemoveFile (ns : string) : acmd (result unit unit)
| Persist (d : D) : acmd (result unit unit)
| Mem (X : Type) (p : nat) (f : Z → M → X * M) : acmd X.

(** ** The lock *)

(** [NoOpRedis] is [NoOpRedisClient]: [setNx] answers true, nothing is stored, and
    there is no [delIfValue]. *)
Inductive client : Type := SharedRedis | NoOpRedis.
Record lock : Type := { lk_client : client; lk_namespace : string; lk_timeoutMs : Z; lk_leaseMs : Z }.

Inductive AdminStateLockError : Type := InvalidLease | NotAcquired | FileNotAcquired | LockFileFailed | OutOfFuel.

(** The constructor. *)
Definition newLock (redis : client) (lockNamespace : string) (timeoutMs leaseMs : option Z) : result AdminStateLockError lock :=
  let lease := default DEFAULT_LEASE_MS leaseMs in
  if lease <=? 0 then Err InvalidLease
  else Ok {| lk_client := redis; lk_namespace := lockNamespace; lk_timeoutMs := default DEFAULT_ACQUIRE_TIMEOUT_MS timeoutMs; lk_leaseMs := lease |}.

Definition lockKey (l : lock) : string := LOCK_KEY_PREFIX +:+ lk_namespace l.

(** What an acquired lock releases. *)
Inductive held : Type :=
| RedisHeld (redis : client) (key value : string)
| FileHeld (ns value : string).

Notation call A := (eff acmd (result AdminStateLockError A)).

(** Whether the lock file is gone: stale and removed, or vanished. *)
Definition stealStaleFileLock (l : lock) : eff acmd bool :=
  s ← ask (StatFile (lk_namespace l));
  match s with
  | NoFile => Done true
  | StatFailed => Done false
  | FileAt mtimeMs =>
      now ← ask Now;
      if now - mtimeMs <? lk_leaseMs l then Done false else
      again ← ask (StatFile (lk_namespace l));
      match again with
      | NoFile => Done true
      | StatFailed => Done false
      | FileAt mtimeMs' =>
          if negb (mtimeMs' =? mtimeMs) then Done false else
          now ← ask Now;
          if now - mtimeMs' <? lk_leaseMs l then Done false else
          r ← ask (RemoveFile (lk_namespace l)); Done (is_ok r)
      end
  end.

Fixpoint fileLoop (fuel : nat) (l : lock) (value : string) (deadline : Z) : call held :=
  match fuel with
  | O => Done (Err OutOfFuel)
  | S fuel =>
      c ← ask (CreateFile (lk_namespace l));
      match c with
      | NotCreated => Done (Err LockFileFailed)
      | Created id =>
          w ← ask (WriteFile (lk_namespace l) id value);
          Done (match w with Ok _ => Ok (FileHeld (lk_namespace l) value) | Err _ => Err LockFileFailed end)
      | AlreadyThere =>
          stolen ← stealStaleFileLock l;
          if stolen : bool then fileLoop fuel l value deadline else
          now ← ask Now;
          if deadline <=? now then Done (Err FileNotAcquired) else
          _ ← ask (Sleep LOCK_POLL_MS); fileLoop fuel l value deadline
      end
  end.

Definition acquireFileLock (fuel : nat) (l : lock) (value : string) : call held :=
  now ← ask Now; fileLoop fuel l value (now + lk_timeoutMs l).

(** [Math.ceil(timeoutMs / LOCK_POLL_MS)] *)
Definition maxRetries (l : lock) : nat := Z.to_nat (- (- lk_timeoutMs l / LOCK_POLL_MS)).

Fixpoint redisLoop (attempts : nat) (fuel : nat) (l : lock) (value : string) : call held :=
  match attempts with
  | O => Done (Err NotAcquired)
  | S attempts =>
      r ← match lk_client l with
          | SharedRedis => ask (SetNx (lockKey l) value (lk_leaseMs l))
          | NoOpRedis => Done (Ok true)
          end;
      match r with
      | Err _ => acquireFileLock fuel l value
      | Ok true => Done (Ok (RedisHeld (lk_client l) (lockKey l) value))
      | Ok false => _ ← ask (Sleep LOCK_POLL_MS); redisLoop attempts fuel l value
      end
  end.

Section process.
Context (pid : nat → Z).

Definition acquire (fuel : nat) (p : nat) (l : lock) : call held :=
  now ← ask Now;
  seq ← ask (NextSeq p);
  redisLoop (maxRetries l) fuel l (lockValue (pid p) now seq).

Definition releaseFileLock (ns value : string) : eff acmd unit :=
  c ← ask (ReadFile ns);
  match c with
  | NoText | ReadFailed => Done tt
  | Text current =>
      if bool_decide (js_trim current ≠ value) then Done tt
      else _ ← ask (RemoveFile ns); Done tt
  end.

(** Errors are only logged. *)
Definition release (h : held) : eff acmd unit :=
  match h with
  | RedisHeld SharedRedis key value => _ ← ask (DelIfValue key value); Done tt
  | RedisHeld NoOpRedis _ _ => Done tt
  | FileHeld ns value => releaseFileLock ns value
  end.

(** [release()] of the lock itself: whoever holds it. *)
Definition releaseDirectly (l : lock) : eff acmd unit :=
  match lk_client l with SharedRedis => _ ← ask (DelKey (lockKey l)); Done tt | NoOpRedis => Done tt end.
End process.

(** ** The world *)

Record file : Type := { fl_id : nat; fl_text : string; fl_mtimeMs : Z }.

(** [lw_grants] is history: when the server granted a value. *)
Record world (R : Type) : Type := {
  lw_now : Z;
  lw_redis : R;
  lw_grants : gmap string Z;
  lw_files : gmap string file;
  lw_ids : nat;
  lw_disk : option D;
  lw_seq : nat → Z;
  lw_mem : nat → M;
}.
Arguments lw_now {R} _.
Arguments lw_redis {R} _.
Arguments lw_grants {R} _.
Arguments lw_files {R} _.
Arguments lw_ids {R} _.
Arguments lw_disk {R} _.
Arguments lw_seq {R} _.
Arguments lw_mem {R} _.

Section steps.
Context {R : Type} `{RedisServer R} (redis_faulty fs_faulty : Prop).
Notation W := (world R).

Definition at_time (t : Z) (w : W) : W :=
  {| lw_now := t; lw_redis := lw_redis w; lw_grants := lw_grants w; lw_files := lw_files w; lw_ids := lw_ids w; lw_disk := lw_disk w;
     lw_seq := lw_seq w; lw_mem := lw_mem w |}.
Definition with_redis (r : R) (g : gmap string Z) (w : W) : W :=
  {| lw_now := lw_now w; lw_redis := r; lw_grants := g; lw_files := lw_files w; lw_ids := lw_ids w; lw_disk := lw_disk w;
     lw_seq := lw_seq w; lw_mem := lw_mem w |}.
Definition with_files (fs : gmap string file) (n : nat) (w : W) : W :=
  {| lw_now := lw_now w; lw_redis := lw_redis w; lw_grants := lw_grants w; lw_files := fs; lw_ids := n; lw_disk := lw_disk w;
     lw_seq := lw_seq w; lw_mem := lw_mem w |}.
Definition with_disk (d : option D) (w : W) : W :=
  {| lw_now := lw_now w; lw_redis := lw_redis w; lw_grants := lw_grants w; lw_files := lw_files w; lw_ids := lw_ids w; lw_disk := d;
     lw_seq := lw_seq w; lw_mem := lw_mem w |}.
Definition with_seq (p : nat) (n : Z) (w : W) : W :=
  {| lw_now := lw_now w; lw_redis := lw_redis w; lw_grants := lw_grants w; lw_files := lw_files w; lw_ids := lw_ids w; lw_disk := lw_disk w;
     lw_seq := λ q, if decide (q = p) then n else lw_seq w q; lw_mem := lw_mem w |}.
Definition with_mem (p : nat) (m : M) (w : W) : W :=
  {| lw_now := lw_now w; lw_redis := lw_redis w; lw_grants := lw_grants w; lw_files := lw_files w; lw_ids := lw_ids w; lw_disk := lw_disk w;
     lw_seq := lw_seq w; lw_mem := λ q, if decide (q = p) then m else lw_mem w q |}.

(** A command of the server: executed and answered, or rejected before or after. *)
Definition on_redis {A} (a : A) (w new : W) (x : result unit A) (w' : W) : Prop :=
  (x = Ok a ∧ w' = new) ∨ (redis_faulty ∧ x = Err tt ∧ (w' = w ∨ w' = new)).

Definition set_nx (key value : string) (px : Z) (w : W) : bool * W :=
  let '(granted, r) := srv_exec (lw_now w) (RSetNx key value px) (lw_redis w) in
  (granted, with_redis r (if granted : bool then <[value := lw_now w]> (lw_grants w) else lw_grants w) w).

(** The script of [delIfValue]. *)
Definition del_if_value (key value : string) (w : W) : W :=
  let '(current, r) := srv_exec (lw_now w) (RGet key) (lw_redis w) in
  if bool_decide (current = Some value) then with_redis (srv_exec (lw_now w) (RDel key) r).2 (lw_grants w) w else with_redis r (lw_grants w) w.

Definition del_key (key : string) (w : W) : W :=
  with_redis (srv_exec (lw_now w) (RDel key) (lw_redis w)).2 (lw_grants w) w.

(** [open] with [O_CREAT | O_EXCL]. *)
Definition create_file (ns : string) (w : W) : created * W :=
  match lw_files w !! ns with
  | Some _ => (AlreadyThere, w)
  | None => (Created (lw_ids w),
             with_files (<[ns := {| fl_id := lw_ids w; fl_text := ""; fl_mtimeMs := lw_now w |}]> (lw_files w)) (S (lw_ids w)) w)
  end.

(** Through a descriptor: a file that was removed meanwhile is lost. *)
Definition write_file (ns : string) (id : nat) (text : string) (w : W) : W :=
  match lw_files w !! ns with
  | Some f => if decide (fl_id f = id)
              then with_files (<[ns := {| fl_id := id; fl_text := text +:+ newline; fl_mtimeMs := lw_now w |}]> (lw_files w)) (lw_ids w) w
              else w
  | None => w
  end.

Definition stat_file (ns : string) (w : W) : stat :=
  match lw_files w !! ns with Some f => FileAt (fl_mtimeMs f) | None => NoFile end.
Definition read_file (ns : string) (w : W) : contents :=
  match lw_files w !! ns with Some f => Text (fl_text f) | None => NoText end.
Definition remove_file (ns : string) (w : W) : W := with_files (delete ns (lw_files w)) (lw_ids w) w.

Definition on_disk (w new : W) (x : result unit unit) (w' : W) : Prop :=
  (x = Ok tt ∧ w' = new) ∨ (fs_faulty ∧ x = Err tt ∧ w' = w).

(** The command at the time [lw_now w]. *)
Definition command_at X (c : acmd X) (w : W) : X → W → Prop :=
  match c in acmd X return X → W → Prop with
  | Now => λ x w', x = lw_now w ∧ w' = w
  | Sleep _ => λ _ w', w' = w
  | NextSeq p => λ x w', x = lw_seq w p ∧ w' = with_seq p (lw_seq w p + 1) w
  | SetNx key value px => λ x w', on_redis (set_nx key value px w).1 w (set_nx key value px w).2 x w'
  | DelIfValue key value => λ x w', on_redis tt w (del_if_value key value w) x w'
  | DelKey key => λ x w', on_redis tt w (del_key key w) x w'
  | CreateFile ns => λ x w', (x, w') = create_file ns w ∨ (fs_faulty ∧ x = NotCreated ∧ w' = w)
  | WriteFile ns id text => λ x w', on_disk w (write_file ns id text w) x w'
  | StatFile ns => λ x w', w' = w ∧ (x = stat_file ns w ∨ (fs_faulty ∧ x = StatFailed))
  | ReadFile ns => λ x w', w' = w ∧ (x = read_file ns w ∨ (fs_faulty ∧ x = ReadFailed))
  | RemoveFile ns => λ x w', on_disk w (remove_file ns w) x w'
  | Persist d => λ x w', on_disk w (with_disk (Some d) w) x w'
  | Mem _ p f => λ x w', x = (f (lw_now w) (lw_mem w p)).1 ∧ w' = with_mem p (f (lw_now w) (lw_mem w p)).2 w
  end.

(** Time passes first; a sleep takes its time. *)
Definition admin_step X (c : acmd X) (w : W) (x : X) (w' : W) : Prop :=
  ∃ t, lw_now w + match c with Sleep ms => Z.max 0 ms | _ => 0 end <= t ∧ command_at X c (at_time t w) x w'.

(** ** Lemmas *)
Lemma step_enabled X (c : acmd X) w : ∃ x w', admin_step X c w x w'.
Proof using Type.
  enough (∃ x w', command_at X c (at_time (lw_now w + match c with Sleep ms => Z.max 0 ms | _ => 0 end) w) x w') as (x & w' & Hc).
  { exists x, w'. eexists. split; [|exact Hc]. done. }
  destruct c as [|ms|p|key value px|key value|key|ns|ns id tx|ns|ns|ns|d|X p f]; simpl.
  - by eexists _, _.
  - by exists tt; eexists.
  - by eexists _, _.
  - eexists _, _. by left.
  - eexists _, _. by left.
  - eexists _, _. by left.
  - destruct (create_file ns _) as [x w'] eqn:Hc. exists x, w'. by left.
  - eexists _, _. by left.
  - eexists _, _. split; [done|by left].
  - eexists _, _. split; [done|by left].
  - eexists _, _. by left.
  - eexists _, _. by left.
  - by eexists _, _.
Qed.

(** What no command of a lock changes. *)
Definition same_state (w w' : W) : Prop := lw_mem w' = lw_mem w ∧ lw_disk w' = lw_disk w.

Definition lock_command {X} (c : acmd X) : Prop := match c with Persist _ | Mem _ _ _ => False | _ => True end.

Lemma same_state_trans w1 w2 w3 : same_state w1 w2 → same_state w2 w3 → same_state w1 w3.
Proof using Type. unfold same_state. intros [-> ->] [-> ->]. done. Qed.

Lemma step_same X (c : acmd X) w x w' : lock_command c → admin_step X c w x w' → same_state w w'.
Proof using Type.
  intros Hl (t & _ & Hc). destruct c as [|ms|p|key value px|key value|key|ns|ns id tx|ns|ns|ns|d|X p f]; simpl in *; try done.
  - by destruct Hc as [_ ->].
  - by subst.
  - by destruct Hc as [_ ->].
  - unfold on_redis, set_nx in Hc. destruct (srv_exec _ _ _). by destruct Hc as [[_ ->]|(_ & _ & [->| ->])].
  - unfold on_redis, del_if_value in Hc. destruct (srv_exec _ _ _). case_bool_decide; by destruct Hc as [[_ ->]|(_ & _ & [->| ->])].
  - unfold on_redis, del_key in Hc. by destruct Hc as [[_ ->]|(_ & _ & [->| ->])].
  - destruct Hc as [Hc|(_ & _ & ->)]; [|done]. unfold create_file in Hc. case_match; by injection Hc as _ ->.
  - unfold on_disk, write_file in Hc. repeat case_match; by destruct Hc as [[_ ->]|(_ & _ & ->)].
  - by destruct Hc as [-> _].
  - by destruct Hc as [-> _].
  - unfold on_disk in Hc. by destruct Hc as [[_ ->]|(_ & _ & ->)].
Qed.

Lemma step_later X (c : acmd X) w x w' : admin_step X c w x w' → lw_now w + match c with Sleep ms => Z.max 0 ms | _ => 0 end <= lw_now w'.
Proof using Type.
  intros (t & Ht & Hc). enough (lw_now w' = t) by lia. clear Ht.
  destruct c as [|ms|p|key value px|key value|key|ns|ns id tx|ns|ns|ns|d|X p f]; simpl in *.
  - by destruct Hc as [_ ->].
  - by subst.
  - by destruct Hc as [_ ->].
  - unfold on_redis, set_nx in Hc. destruct (srv_exec _ _ _). by destruct Hc as [[_ ->]|(_ & _ & [->| ->])].
  - unfold on_redis, del_if_value in Hc. destruct (srv_exec _ _ _). case_bool_decide; by destruct Hc as [[_ ->]|(_ & _ & [->| ->])].
  - unfold on_redis, del_key in Hc. by destruct Hc as [[_ ->]|(_ & _ & [->| ->])].
  - destruct Hc as [Hc|(_ & _ & ->)]; [|done]. unfold create_file in Hc. case_match; by injection Hc as _ ->.
  - unfold on_disk, write_file in Hc. repeat case_match; by destruct Hc as [[_ ->]|(_ & _ & ->)].
  - by destruct Hc as [-> _].
  - by destruct Hc as [-> _].
  - unfold on_disk in Hc. by destruct Hc as [[_ ->]|(_ & _ & ->)].
  - unfold on_disk in Hc. by destruct Hc as [[_ ->]|(_ & _ & ->)].
  - by destruct Hc as [_ ->].
Qed.

(** ** A call alone *)

Notation alone Q p w := (certain admin_step Q p w).

Lemma alone_do {A X} (Q : A → W → Prop) (c : acmd X) k w : (∀ x w', admin_step X c w x w' → alone Q (k x) w') → alone Q (Do c k) w.
Proof using Type. intros Hk. split; [apply step_enabled|done]. Qed.

(** A command of the lock, and what is left of the call. *)
Lemma alone_lock {A X} (Q : A → W → Prop) (c : acmd X) k w w0 : lock_command c → same_state w0 w →
  (∀ x w', same_state w0 w' → lw_now w + match c with Sleep ms => Z.max 0 ms | _ => 0 end <= lw_now w' → admin_step X c w x w' → alone Q (k x) w') →
  alone Q (Do c k) w.
Proof using Type.
  intros Hl Hs Hk. apply alone_do. intros x w' Hst. apply Hk; [|by eapply step_later|done]. eapply same_state_trans; [done|by eapply step_same].
Qed.

Lemma stat_gone ns w w' : w' = w ∧ (NoFile = stat_file ns w ∨ (fs_faulty ∧ NoFile = StatFailed)) → lw_files w' !! ns = None.
Proof using Type. intros [-> [Hs|[_ ?]]]; [|done]. unfold stat_file in Hs. by destruct (lw_files w !! ns). Qed.

(** The loop over the lock file ends: every round but the last sleeps, or finds the
    file gone. *)
Lemma fileLoop_ends l value deadline w0 : ∀ fuel w, same_state w0 w →
  ((lw_files w !! lk_namespace l = None ∧ (1 ≤ fuel)%nat) ∨ ((2 ≤ fuel)%nat ∧ deadline - lw_now w + 100 < 50 * Z.of_nat fuel)) →
  alone (λ r w', same_state w0 w' ∧ r ≠ Err OutOfFuel) (fileLoop fuel l value deadline) w.
Proof using Type.
  induction fuel as [|fuel IH]; intros w Hs Hf; [lia|]. cbn [fileLoop].
  apply (alone_lock _ (CreateFile _) _ w w0); [done|done|]. intros x w1 Hs1 Ht1 Hst. cbn in Ht1. destruct x as [id| |].
  - apply (alone_lock _ (WriteFile _ _ _) _ w1 w0); [done|done|]. intros [] w2 Hs2 _ _; done.
  - assert ((2 ≤ S fuel)%nat ∧ deadline - lw_now w1 + 100 < 50 * Z.of_nat (S fuel)) as [Hf2 Hd].
    { destruct Hf as [[Hn _]|Hf]; [|split; [|lia]; apply Hf]. exfalso. destruct Hst as (t & _ & [Hst|(_ & ? & _)]); [|done].
      unfold create_file in Hst. simpl in Hst. by rewrite Hn in Hst. }
    assert (∀ w, same_state w0 w → lw_files w !! lk_namespace l = None → alone (λ r w', same_state w0 w' ∧ r ≠ Err OutOfFuel) (fileLoop fuel l value deadline) w) as Hgone.
    { intros w' Hs' Hn. apply IH; [done|]. left. split; [done|lia]. }
    assert (∀ w, same_state w0 w → lw_now w1 <= lw_now w →
      alone (λ r w', same_state w0 w' ∧ r ≠ Err OutOfFuel)
        (now ← ask Now; if deadline <=? now then Done (Err FileNotAcquired) else _ ← ask (Sleep LOCK_POLL_MS); fileLoop fuel l value deadline) w) as Hpoll.
    { intros w2 Hs2 Ht2. apply (alone_lock _ Now _ w2 w0); [done|done|]. intros now w3 Hs3 Ht3 (t & Ht & -> & ->). cbn.
      destruct (Z.leb_spec deadline t); [done|]. apply (alone_lock _ (Sleep LOCK_POLL_MS) _ (at_time t w2) w0); [done|done|].
      intros _ w4 Hs4 Ht4 _. unfold LOCK_POLL_MS in Ht4. simpl in *. apply IH; [done|right; lia]. }
    clear IH Hst Hf. unfold stealStaleFileLock.
    apply (alone_lock _ (StatFile _) _ w1 w0); [done|done|]. intros x w2 Hs2 Ht2 (t & Ht & Hx). cbn in *.
    destruct x as [m| |]; [destruct Hx as [-> _]|by apply Hgone, (stat_gone _ _ _ Hx)|destruct Hx as [-> _]; by apply Hpoll; [|lia]].
    apply (alone_lock _ Now _ (at_time t w1) w0); [done|done|]. intros now w3 Hs3 Ht3 (t' & Ht' & -> & ->). cbn in *.
    destruct (Z.ltb_spec (t' - m) (lk_leaseMs l)); [by apply Hpoll; simpl; [|lia]|].
    apply (alone_lock _ (StatFile _) _ (at_time t' w1) w0); [done|done|]. intros x' w4 Hs4 Ht4 (t4 & Ht4' & Hx'). cbn in *.
    destruct x' as [m'| |]; [destruct Hx' as [-> _]|by apply Hgone, (stat_gone _ _ _ Hx')|destruct Hx' as [-> _]; by apply Hpoll; simpl; [|lia]].
    destruct (negb _); [by apply Hpoll; simpl; [|lia]|].
    apply (alone_lock _ Now _ (at_time t4 w1) w0); [done|done|]. intros now' w5 Hs5 Ht5 (t5 & Ht5' & -> & ->). cbn in *.
    destruct (Z.ltb_spec (t5 - m') (lk_leaseMs l)); [by apply Hpoll; simpl; [|lia]|].
    apply (alone_lock _ (RemoveFile _) _ (at_time t5 w1) w0); [done|done|]. intros r w6 Hs6 Ht6 (t6 & Ht6' & [[-> ->]|(_ & -> & ->)]); cbn in *.
    + apply Hgone; [done|]. simpl. apply lookup_delete_eq.
    + apply Hpoll; [done|]. simpl. lia.
  - done.
Qed.

(** Rounds enough for the time of an acquisition. *)
Definition enough_rounds (l : lock) (fuel : nat) : Prop := (2 ≤ fuel)%nat ∧ lk_timeoutMs l + 100 < 50 * Z.of_nat fuel.

Lemma redisLoop_ends l value fuel w0 : enough_rounds l fuel → ∀ n w, same_state w0 w →
  alone (λ r w', same_state w0 w' ∧ r ≠ Err OutOfFuel) (redisLoop n fuel l value) w.
Proof using Type.
  intros [Hf2 Hf]. induction n as [|n IH]; intros w Hs; [done|]. cbn [redisLoop].
  assert (∀ (r : result unit bool) w, same_state w0 w → alone (λ r w', same_state w0 w' ∧ r ≠ Err OutOfFuel)
    (match r with
     | Err _ => acquireFileLock fuel l value
     | Ok true => Done (Ok (RedisHeld (lk_client l) (lockKey l) value))
     | Ok false => _ ← ask (Sleep LOCK_POLL_MS); redisLoop n fuel l value
     end) w) as Hr.
  { intros [[]|u] w1 Hs1; [done| |].
    - apply (alone_lock _ (Sleep _) _ w1 w0); [done|done|]. intros _ w2 Hs2 _ _. by apply IH.
    - apply (alone_lock _ Now _ w1 w0); [done|done|]. intros now w2 Hs2 _ (t & Ht & -> & ->). apply fileLoop_ends; [done|]. right. simpl. lia. }
  destruct (lk_client l); [|exact (Hr (Ok true) w Hs)]. apply (alone_lock _ (SetNx _ _ _) _ w w0); [done|done|]. intros x w1 Hs1 _ _. by apply Hr.
Qed.

Lemma acquire_ends pid p l fuel w : enough_rounds l fuel →
  alone (λ r w', same_state w w' ∧ r ≠ Err OutOfFuel) (acquire pid fuel p l) w.
Proof using Type.
  intros Hf. apply (alone_lock _ Now _ w w); [done|done|]. intros now w1 Hs1 _ _.
  apply (alone_lock _ (NextSeq p) _ w1 w); [done|done|]. intros seq w2 Hs2 _ _. by apply redisLoop_ends.
Qed.

Lemma release_ends h w : alone (λ _ w', same_state w w') (release h) w.
Proof using Type.
  destruct h as [[] key value|ns value]; cbn [release]; unfold releaseFileLock.
  - apply (alone_lock _ (DelIfValue _ _) _ w w); [done|done|]. by intros.
  - done.
  - apply (alone_lock _ (ReadFile _) _ w w); [done|done|]. intros x w1 Hs1 _ _. destruct x as [s| |]; [|done|done]. simpl.
    case_bool_decide; [done|]. apply (alone_lock _ (RemoveFile _) _ w1 w); [done|done|]. by intros.
Qed.

End steps.

(** ** Leases among other calls *)

Section leases.
Context {R : Type} `{RedisLaws R} (redis_faulty fs_faulty : Prop).
Notation W := (world R).
Notation step := (admin_step redis_faulty fs_faulty).

(** The key holds the value until the lease that was granted for it ends. *)
Definition leased (key value : string) (leaseMs : Z) (w : W) : Prop :=
  ∃ t, lw_grants w !! value = Some t ∧ ∀ t', lw_now w <= t' → t' < t + leaseMs → srv_view t' (lw_redis w) key = Some value.

(** What a call with the lock values [mine] leaves to the others. *)
Definition respects (mine : string → Prop) (w w' : W) : Prop :=
  lw_now w <= lw_now w' ∧
  ∀ v, ¬ mine v → lw_grants w' !! v = lw_grants w !! v ∧
    ∀ key t, lw_now w' <= t → srv_view t (lw_redis w) key = Some v → srv_view t (lw_redis w') key = Some v.

Definition keeps_to (mine : string → Prop) {X} (c : acmd X) : Prop :=
  match c with SetNx _ v _ | DelIfValue _ v => mine v | DelKey _ => False | _ => True end.

Lemma respects_leased mine key v lease w w' : respects mine w w' → ¬ mine v → leased key v lease w → leased key v lease w'.
Proof using Type.
  intros [Hle Hr] Hv (t & Hg & Ht). destruct (Hr v Hv) as [Hg' Hk]. exists t. rewrite Hg'. split; [done|].
  intros t' Hn Hl. apply Hk; [done|]. apply Ht; lia.
Qed.

Lemma respects_unchanged mine w w' : lw_now w <= lw_now w' → lw_redis w' = lw_redis w → lw_grants w' = lw_grants w → respects mine w w'.
Proof using Type. intros Hn Hr Hg. split; [done|]. intros v _. by rewrite Hr, Hg. Qed.

Lemma set_nx_respects mine key value px (w : W) : mine value → respects mine w (set_nx key value px w).2.
Proof using Type*.
  intros Hm. split; [unfold set_nx; by destruct (srv_exec _ _ _)|]. intros v Hv. unfold set_nx.
  destruct (srv_view (lw_now w) (lw_redis w) key) as [u|] eqn:Hk.
  - rewrite law_setnx_held by done. simpl. done.
  - pose proof (law_setnx_free (lw_now w) key value px (lw_redis w) Hk) as Hx.
    destruct (srv_exec (lw_now w) (RSetNx key value px) (lw_redis w)) as [b r] eqn:He. simpl in *. subst b. split.
    { apply lookup_insert_ne. by intros ->. }
    intros j t Ht Hj. pose proof (law_setnx_view (lw_now w) key value px (lw_redis w) t j Hk Ht) as Hview. rewrite He in Hview. simpl in Hview.
    rewrite Hview. case_decide as Hd; [|done]. subst j.
    destruct (law_view_mono (lw_now w) t (lw_redis w) key Ht) as [Hn|Hn]; congruence.
Qed.

Lemma del_if_value_respects mine key value (w : W) : mine value → respects mine w (del_if_value key value w).
Proof using Type*.
  intros Hm. unfold del_if_value. rewrite law_get. case_bool_decide as Hc; [|by apply respects_unchanged].
  split; [done|]. intros v Hv. split; [done|]. simpl. intros j t Ht Hj. rewrite law_del by done. case_decide as Hd; [|done]. subst j.
  destruct (law_view_mono (lw_now w) t (lw_redis w) key Ht) as [Hn|Hn]; congruence.
Qed.

Lemma at_time_leased key v lease t (w : W) : lw_now w <= t → leased key v lease w → leased key v lease (at_time t w).
Proof using Type. intros Ht (t0 & Hg & Hl). exists t0. split; [done|]. simpl. intros. apply Hl; [lia|done]. Qed.

Lemma step_respects mine X (c : acmd X) (w : W) x w' : keeps_to mine c → step X c w x w' → respects mine w w'.
Proof using Type*.
  intros Hk (t & Ht & Hc). assert (respects mine (at_time t w) w') as Hr.
  2:{ destruct Hr as [Hn Hr]. split; [|done]. simpl in Hn. assert (lw_now w <= t); [|lia]. destruct c; lia. }
  clear Ht. destruct c as [|ms|p|key value px|key value|key|ns|ns id tx|ns|ns|ns|d|X p f]; simpl in Hk, Hc; try (by destruct Hk).
  - destruct Hc as [_ ->]. by apply respects_unchanged.
  - subst. by apply respects_unchanged.
  - destruct Hc as [_ ->]. by apply respects_unchanged.
  - destruct Hc as [[_ ->]|(_ & _ & [->| ->])]; [by apply set_nx_respects|by apply respects_unchanged|by apply set_nx_respects].
  - destruct Hc as [[_ ->]|(_ & _ & [->| ->])]; [by apply del_if_value_respects|by apply respects_unchanged|by apply del_if_value_respects].
  - destruct Hc as [Hc|(_ & _ & ->)]; [|by apply respects_unchanged]. unfold create_file in Hc. case_match; injection Hc as _ ->; by apply respects_unchanged.
  - destruct Hc as [[_ ->]|(_ & _ & ->)]; [unfold write_file; repeat case_match|]; by apply respects_unchanged.
  - destruct Hc as [-> _]. by apply respects_unchanged.
  - destruct Hc as [-> _]. by apply respects_unchanged.
  - destruct Hc as [[_ ->]|(_ & _ & ->)]; by apply respects_unchanged.
  - destruct Hc as [[_ ->]|(_ & _ & ->)]; by apply respects_unchanged.
  - destruct Hc as [_ ->]. by apply respects_unchanged.
Qed.

(** A granted lock is leased. *)
Lemma set_nx_leased key value lease (w : W) w' : step _ (SetNx key value lease) w (Ok true) w' → leased key value lease w'.
Proof using Type*.
  intros (t & Ht & [[Hx ->]|(_ & ? & _)]); [|done]. injection Hx as Hx. unfold leased, set_nx in *. simpl in *.
  destruct (srv_view t (lw_redis w) key) as [u|] eqn:Hk; [by rewrite law_setnx_held in Hx|].
  destruct (srv_exec t (RSetNx key value lease) (lw_redis w)) as [b r] eqn:He. simpl in *. subst b. exists t. split; [apply lookup_insert_eq|].
  intros t' Hn Hl. pose proof (law_setnx_view t key value lease (lw_redis w) t' key Hk Hn) as Hview. rewrite He in Hview. simpl in Hview.
  rewrite Hview. rewrite decide_True by done. destruct (Z.ltb_spec t' (t + lease)); [done|lia].
Qed.

End leases.
End commands.

Arguments lw_now {M D R} _.
Arguments lw_redis {M D R} _.
Arguments lw_grants {M D R} _.
Arguments lw_files {M D R} _.
Arguments lw_ids {M D R} _.
Arguments lw_disk {M D R} _.
Arguments lw_seq {M D R} _.
Arguments lw_mem {M D R} _.
Arguments world M D R : clear implicits.

Lemma chars_concat a b : chars (a +:+ b) = chars a ++ chars b.
Proof. induction a as [|c a IH]; [done|]. change (c :: chars (a +:+ b) = c :: (chars a ++ chars b)). by rewrite IH. Qed.

(** A lock value tells its process. *)
Lemma lockValue_pid p t s p' t' s' : 0 <= p → 0 <= p' → lockValue p t s = lockValue p' t' s' → p = p'.
Proof.
  intros Hp Hp' He. apply (f_equal chars) in He. unfold lockValue, int_string in He. rewrite !chars_concat, !chars_unchars in He. simpl in He.
  destruct (int_text_digits p Hp) as (_ & Hd & Hv), (int_text_digits p' Hp') as (_ & Hd' & Hv').
  assert (∀ l r, forallb is_digit l = true → span is_digit (l ++ ":"%char :: r) = (l, ":"%char :: r)) as Hspan.
  { intros l r Hl. apply span_all; [done|]. by vm_compute. }
  apply (f_equal (span is_digit)) in He. rewrite !Hspan in He by done. injection He as He _. congruence.
Qed.
