(* ===== verification/AdminState.v ===== *)
(** * The admin state ([src/state/adminState.ts], [POST /reindex] of [src/routes/admin.ts])

    The pause flags, kept in the memory of a process and in a file, and the reindex
    job, under the locks of [AdminLock].  The file holds JSON: [None] is text that does
    not parse, and [JSON.parse(JSON.stringify(v))] is [v] for what is written.  Extra
    fields of a file are not kept, logging and metrics are left out. *)
From Stdlib Require Import Ascii ZArith Lia.
From stdpp Require Import base gmap strings list relations.
From S2P Require Import Prelude Redis Effects AdminLock.
Local Open Scope string_scope.
Local Open Scope list_scope.
Local Open Scope Z_scope.

Record PauseFlags : Type := { streamCreation : bool; ingestion : bool }.
#[global] Instance pause_flags_eq_dec : EqDecision PauseFlags.
Proof. solve_decision. Defined.

Inductive ReindexStatus : Type := Idle | Running | Completed | Failed.
#[global] Instance reindex_status_eq_dec : EqDecision ReindexStatus.
Proof. solve_decision. Defined.

Record ReindexState : Type := {
  rx_status : ReindexStatus; rx_startedAt : option Z; rx_completedAt : option Z; rx_error : option string; rx_processedItems : Z }.

(** The module's variables; [jobLock] is the lock the running job will release, which
    the code keeps in a closure. *)
Record AdminState : Type := {
  pauseFlags : PauseFlags; reindex : ReindexState; pauseFlagsLock : option lock; reindexLock : option lock; jobLock : option held }.

Definition no_flags : PauseFlags := {| streamCreation := false; ingestion := false |}.
Definition idle : ReindexState :=
  {| rx_status := Idle; rx_startedAt := None; rx_completedAt := None; rx_error := None; rx_processedItems := 0 |}.

Definition with_flags (f : PauseFlags) (m : AdminState) : AdminState :=
  {| pauseFlags := f; reindex := reindex m; pauseFlagsLock := pauseFlagsLock m; reindexLock := reindexLock m; jobLock := jobLock m |}.
Definition with_reindex (r : ReindexState) (h : option held) (m : AdminState) : AdminState :=
  {| pauseFlags := pauseFlags m; reindex := r; pauseFlagsLock := pauseFlagsLock m; reindexLock := reindexLock m; jobLock := h |}.
Definition with_admin_locks (p r : option lock) (m : AdminState) : AdminState :=
  {| pauseFlags := pauseFlags m; reindex := reindex m; pauseFlagsLock := p; reindexLock := r; jobLock := jobLock m |}.

(** ** The file *)

Definition isPauseFlags (value : jsval) : option PauseFlags :=
  match value with
  | JObj o => match js_get o "streamCreation", js_get o "ingestion" with
              | JBool s, JBool i => Some {| streamCreation := s; ingestion := i |}
              | _, _ => None
              end
  | _ => None
  end.

Notation disk := (option jsval).

(** [file] is [None] when it is missing or cannot be read. *)
Definition readPersistedPauseFlags (file : option disk) : option PauseFlags :=
  match file with
  | Some (Some parsed) =>
      match isPauseFlags parsed with
      | Some f => Some f
      | None => match parsed with
                | JObj o => match js_get o "version" with JNum (NumInt 1) => isPauseFlags (js_get o "pauseFlags") | _ => None end
                | _ => None
                end
      end
  | _ => None
  end.

Definition persisted (f : PauseFlags) : disk :=
  Some (JObj [("version", JNum (NumInt 1));
              ("pauseFlags", JObj [("streamCreation", JBool (streamCreation f)); ("ingestion", JBool (ingestion f))])]).

(** The memory of a process after the module has loaded. *)
Definition hydratePauseFlagsFromPersistence (file : option disk) : AdminState :=
  {| pauseFlags := default no_flags (readPersistedPauseFlags file); reindex := idle; pauseFlagsLock := None; reindexLock := None; jobLock := None |}.

Definition getPauseFlags (m : AdminState) : PauseFlags := pauseFlags m.
Definition isStreamCreationPaused (m : AdminState) : bool := streamCreation (pauseFlags m).
Definition getReindexState (m : AdminState) : ReindexState := reindex m.
Definition getReindexLock (m : AdminState) : option lock := reindexLock m.

Definition shared_lock (ns : string) : option lock :=
  match newLock SharedRedis ns None None with Ok l => Some l | Err _ => None end.
Definition initializeAdminStateLock (m : AdminState) : AdminState :=
  with_admin_locks (shared_lock "pauseFlags") (shared_lock REINDEX_LOCK_NAMESPACE) m.

(** ** Pause flags *)

Notation command := (@acmd AdminState disk).
Notation call A := (eff command A).

(** A synchronous block of the process. *)
Definition block {X} (p : nat) (f : Z → AdminState → X * AdminState) : call X := ask (Mem X p f).

Inductive AdminStatePersistenceError : Type := LockFailed (e : AdminStateLockError) | WriteFailed.

Section calls.
Context (pid : nat → Z) (fuel : nat).

Definition pause_lock (m : AdminState) : lock :=
  match pauseFlagsLock m with
  | Some l => l
  | None => {| lk_client := NoOpRedis; lk_namespace := "pauseFlags"; lk_timeoutMs := DEFAULT_ACQUIRE_TIMEOUT_MS; lk_leaseMs := DEFAULT_LEASE_MS |}
  end.

Definition acquirePauseFlagsLock (p : nat) : call (result AdminStateLockError held) :=
  l ← block p (λ _ m, (pause_lock m, with_admin_locks (Some (pause_lock m)) (reindexLock m) m));
  acquire pid fuel p l.

Definition writePersistedPauseFlags (p : nat) (flags : PauseFlags) : call (result AdminStatePersistenceError unit) :=
  h ← acquirePauseFlagsLock p;
  match h with
  | Err e => Done (Err (LockFailed e))
  | Ok h =>
      w ← ask (Persist (persisted flags));
      _ ← release h;
      Done (match w with Ok _ => Ok tt | Err _ => Err WriteFailed end)
  end.

Definition merge (creation ingest : option bool) (f : PauseFlags) : PauseFlags :=
  {| streamCreation := default (streamCreation f) creation; ingestion := default (ingestion f) ingest |}.

Definition setPauseFlags (p : nat) (creation ingest : option bool) : call (result AdminStatePersistenceError PauseFlags) :=
  cur ← block p (λ _ m, (pauseFlags m, m));
  let next := merge creation ingest cur in
  if bool_decide (next = cur) then Done (Ok cur)
  else
    r ← writePersistedPauseFlags p next;
    match r with
    | Err e => Done (Err e)
    | Ok _ => f ← block p (λ _ m, (next, with_flags next m)); Done (Ok f)
    end.

(** ** Reindexing *)

Definition started (now : Z) : ReindexState :=
  {| rx_status := Running; rx_startedAt := Some now; rx_completedAt := None; rx_error := None; rx_processedItems := 0 |}.
Definition processed (i : Z) (r : ReindexState) : ReindexState :=
  {| rx_status := rx_status r; rx_startedAt := rx_startedAt r; rx_completedAt := rx_completedAt r; rx_error := rx_error r; rx_processedItems := i |}.
Definition completed (now : Z) (r : ReindexState) : ReindexState :=
  {| rx_status := Completed; rx_startedAt := rx_startedAt r; rx_completedAt := Some now; rx_error := rx_error r; rx_processedItems := rx_processedItems r |}.

(** Nothing in it throws. *)
Fixpoint job_steps (p : nat) (l : list Z) : call unit :=
  match l with
  | [] => Done tt
  | i :: l =>
      _ ← ask (Sleep 50);
      _ ← block p (λ _ m, (tt, with_reindex (processed i (reindex m)) (jobLock m) m));
      job_steps p l
  end.
Definition runReindexJob (p : nat) : call unit :=
  _ ← job_steps p [1; 2; 3; 4; 5];
  block p (λ now m, (tt, with_reindex (completed now (reindex m)) (jobLock m) m)).

Definition running (m : AdminState) : bool := bool_decide (rx_status (reindex m) = Running).

(** The check after the lock was acquired, and the new state. *)
Definition start_unless_running (h : held) (now : Z) (m : AdminState) : option ReindexState * AdminState :=
  if running m then (None, m) else (Some (started now), with_reindex (started now) (Some h) m).

(** With the job, which goes on after the answer. *)
Definition triggerReindex (p : nat) : call ReindexState :=
  s ← block p (λ _ m, ((if running m then None else Some (reindexLock m), reindex m), m));
  match s with
  | (None, st) => Done st
  | (Some (Some l), _) =>
      h ← acquire pid fuel p l;
      match h with
      | Err _ => block p (λ _ m, (reindex m, m))
      | Ok h =>
          go ← block p (start_unless_running h);
          match go with
          | None => _ ← release h; block p (λ _ m, (reindex m, m))
          | Some st => _ ← runReindexJob p; _ ← release h; Done st
          end
      end
  | (Some None, _) =>
      st ← block p (λ now m, (started now, with_reindex (started now) None m));
      _ ← runReindexJob p; Done st
  end.

(** A stream has no index of its own. *)
Definition triggerStreamReindex (p : nat) (streamId : string) : call ReindexState := triggerReindex p.

(** [POST /reindex]: 409 with the current state, or 202 'Reindex started.' *)
Inductive reindex_answer : Type := ReindexConflict (current : ReindexState) | ReindexAccepted (state : ReindexState).
Definition post_reindex (p : nat) : call reindex_answer :=
  current ← block p (λ _ m, (reindex m, m));
  if bool_decide (rx_status current = Running) then Done (ReindexConflict current)
  else st ← triggerReindex p; Done (ReindexAccepted st).

(** Requests one after another. *)
Fixpoint post_reindexes (p : nat) (n : nat) : call (list reindex_answer) :=
  match n with
  | O => Done []
  | S n => a ← post_reindex p; l ← post_reindexes p n; Done (a :: l)
  end.
End calls.

Section proofs.
Context {R : Type} `{RedisServer R} (redis_faulty fs_faulty : Prop) (pid : nat → Z) (fuel : nat).
Notation W := (world AdminState disk R).
Notation step := (admin_step redis_faulty fs_faulty).
Notation alone Q p w := (certain step Q p w).

Lemma persisted_read f : readPersistedPauseFlags (Some (persisted f)) = Some f.
Proof using Type. by destruct f as [[] []]. Qed.

Lemma merge_idle creation ingest f : merge creation ingest f = f ∨ merge creation ingest f ≠ f.
Proof using Type. destruct (decide (merge creation ingest f = f)); auto. Qed.

(** A synchronous block among nothing else. *)
Lemma alone_block {X A} p (f : Z → AdminState → X * AdminState) (k : X → call A) Q (w : W) :
  (∀ t, lw_now w <= t → alone Q (k (f t (lw_mem w p)).1) (with_mem p (f t (lw_mem w p)).2 (at_time t w))) →
  alone Q (block p f ≫= k) w.
Proof using Type.
  intros Hk. apply alone_do. intros x w' (t & Ht & -> & ->). apply Hk. lia.
Qed.

Lemma alone_seq {A B} (q : call A) (f : A → call B) Q (w : W) : alone (λ a w', alone Q (f a) w') q w → alone Q (q ≫= f) w.
Proof using Type. apply certain_then. Qed.

(** What a call of [setPauseFlags] does, whatever fails. *)
Definition set_outcome (p : nat) (next : PauseFlags) (w : W) (r : result AdminStatePersistenceError PauseFlags) (w' : W) : Prop :=
  (∀ q, q ≠ p → lw_mem w' q = lw_mem w q) ∧ reindex (lw_mem w' p) = reindex (lw_mem w p) ∧
  match r with
  | Ok flags => flags = next ∧ pauseFlags (lw_mem w' p) = next ∧
      if decide (next = pauseFlags (lw_mem w p)) then lw_disk w' = lw_disk w else readPersistedPauseFlags (lw_disk w') = Some next
  | Err e => pauseFlags (lw_mem w' p) = pauseFlags (lw_mem w p) ∧ e ≠ LockFailed OutOfFuel ∧
      (lw_disk w' = lw_disk w)
  end.

Lemma setPauseFlags_outcome p creation ingest (w : W) :
  enough_rounds (pause_lock (lw_mem w p)) fuel →
  alone (set_outcome p (merge creation ingest (pauseFlags (lw_mem w p))) w) (setPauseFlags pid fuel p creation ingest) w.
Proof using Type.
  intros Hf. apply alone_block. intros t Ht. set (m := lw_mem w p) in *. cbn [fst snd]. cbv zeta.
  set (next := merge creation ingest (pauseFlags m)). case_bool_decide as Hn.
  { simpl. split; [intros q Hq; simpl; by rewrite decide_False|]. split; [simpl; by rewrite decide_True|].
    rewrite decide_True by done. simpl. by rewrite decide_True. }
  set (w1 := with_mem p m (at_time t w)).
  assert (lw_mem w1 p = m) as Hm1 by (simpl; by rewrite decide_True).
  apply alone_seq. unfold writePersistedPauseFlags. apply alone_seq. unfold acquirePauseFlagsLock. apply alone_block.
  intros t2 Ht2. rewrite Hm1. set (w2 := with_mem p _ (at_time t2 w1)). cbn [fst].
  eapply certain_weaken; [|by apply acquire_ends]. cbv beta.
  assert (∀ q, q ≠ p → lw_mem w2 q = lw_mem w q) as Hq2 by (intros q Hq; simpl; by rewrite !decide_False).
  assert (lw_mem w2 p = with_admin_locks (Some (pause_lock m)) (reindexLock m) m) as Hm2 by (simpl; by rewrite decide_True).
  intros [h|e] w3 [[Hm3 Hd3] He].
  - apply alone_do. intros x w4 (t4 & Ht4 & Hx). apply alone_seq. eapply certain_weaken; [|apply release_ends]. cbv beta.
    intros _ w5 [Hm5 Hd5]. destruct Hx as [[-> ->]|(_ & -> & ->)].
    + apply alone_block. intros t6 Ht6. simpl in Hm5, Hd5. split; [intros q Hq|]; [|split; [|split; [done|split]]]; simpl.
      * rewrite decide_False by done. rewrite Hm5, Hm3. by apply Hq2.
      * rewrite decide_True by done. rewrite Hm5, Hm3, Hm2. done.
      * by rewrite decide_True.
      * rewrite decide_False by done. rewrite Hd5. apply persisted_read.
    + simpl in Hm5, Hd5. split; [intros q Hq|]; [|split; [|split; [|split; [done|]]]].
      * rewrite Hm5, Hm3. by apply Hq2.
      * by rewrite Hm5, Hm3, Hm2.
      * by rewrite Hm5, Hm3, Hm2.
      * by rewrite Hd5, Hd3.
  - simpl. split; [intros q Hq|]; [|split; [|split; [|split]]].
    * rewrite Hm3. by apply Hq2.
    * by rewrite Hm3, Hm2.
    * by rewrite Hm3, Hm2.
    * intros [= ->]. done.
    * by rewrite Hd3.
Qed.
(** C14: a change of the pause flags always ends, and is all or nothing: on success
    memory and file hold the merged flags, on an error neither has changed; with any
    failures of Redis and of the file system, and for waits that the rounds cover. *)
Theorem pause_flags_all_or_nothing p creation ingest (w : W) :
  enough_rounds (pause_lock (lw_mem w p)) fuel →
  (∃ r w', runs step (setPauseFlags pid fuel p creation ingest) w r w') ∧
  ∀ r w', runs step (setPauseFlags pid fuel p creation ingest) w r w' →
    set_outcome p (merge creation ingest (pauseFlags (lw_mem w p))) w r w'.
Proof using Type. intros Hf. by apply certain_runs, setPauseFlags_outcome. Qed.

(** a process merges into the flags of its own memory, which it read when it
    started: it overwrites what another has persisted since, and after a restart the
    flag the other has set is gone. *)
Theorem stale_memory_overwrites p q (w w1 w2 : W) a b :
  p ≠ q → pauseFlags (lw_mem w p) = no_flags → pauseFlags (lw_mem w q) = no_flags →
  enough_rounds (pause_lock (lw_mem w p)) fuel → enough_rounds (pause_lock (lw_mem w q)) fuel →
  runs step (setPauseFlags pid fuel p (Some true) None) w (Ok a) w1 →
  runs step (setPauseFlags pid fuel q None (Some true)) w1 (Ok b) w2 →
  streamCreation (pauseFlags (lw_mem w2 p)) = true ∧
  streamCreation (pauseFlags (hydratePauseFlagsFromPersistence (lw_disk w2))) = false.
Proof using Type.
  intros Hne Hp Hq Hfp Hfq H1 H2.
  apply (certain_runs step _ _ _ (setPauseFlags_outcome p _ _ w Hfp)) in H1 as (Ho & _ & -> & Hw1 & _).
  rewrite <- (Ho q) in Hfq, Hq by done.
  apply (certain_runs step _ _ _ (setPauseFlags_outcome q _ _ w1 Hfq)) in H2 as (Ho2 & _ & -> & _ & Hd).
  rewrite Hq in Hd. simpl in Hd. split; [by rewrite Ho2, Hw1, Hp|].
  unfold hydratePauseFlagsFromPersistence. by rewrite Hd.
Qed.

End proofs.

(** ** Reindex jobs *)

Section jobs.
Context {R : Type} `{RedisLaws R} (redis_faulty fs_faulty : Prop) (pid : nat → Z) (fuel : nat) (l : lock).
Notation W := (world AdminState disk R).
Notation step := (admin_step redis_faulty fs_faulty).
Notation key := (lockKey l).
Notation lease := (lk_leaseMs l).

Definition mine (i : nat) (v : string) : Prop := ∃ t s, v = lockValue (pid i) t s.
Notation leases v w := (leased (M:=AdminState) (D:=disk) (R:=R) key v lease w).
Notation token v := (RedisHeld SharedRedis key v).

(** A running job was started under a lease of its process. *)
Definition job_ok (i : nat) (w : W) : Prop :=
  reindexLock (lw_mem w i) = Some l ∧
  (running (lw_mem w i) = true → ∃ v, jobLock (lw_mem w i) = Some (token v) ∧ mine i v ∧ leases v w).

Definition quiet (i : nat) (w : W) : Prop := reindexLock (lw_mem w i) = Some l ∧ running (lw_mem w i) = false.

(** What the calls of a process do to the others, and keep true. *)
Definition by_process (i : nat) (w w' : W) : Prop :=
  respects (mine i) w w' ∧ (∀ j, j ≠ i → lw_mem w' j = lw_mem w j) ∧ job_ok i w'.

Section exclusive.
Context (Hshared : lk_client l = SharedRedis) (Hup : ¬ redis_faulty)
        (Hpid : ∀ i, 0 <= pid i) (Hinj : ∀ i j, pid i = pid j → i = j).

Lemma mine_inj i j v : mine i v → mine j v → i = j.
Proof using Hpid Hinj. intros (t & s & ->) (t' & s' & He). apply Hinj. by eapply lockValue_pid. Qed.

Lemma others_stable i w w' : rtc (others by_process i) w w' →
  lw_mem w' i = lw_mem w i ∧ ∀ v, mine i v → leases v w → leases v w'.
Proof using Hpid Hinj.
  induction 1 as [|w1 w2 w3 (j & Hj & Hr & Hm & _) _ [IH1 IH2]]; [done|]. rewrite IH1, Hm by done. split; [done|].
  intros v Hv Hl. apply IH2; [done|]. eapply respects_leased; [done| |done]. intros Hv'. by destruct Hj; eapply mine_inj.
Qed.

Lemma quiet_ok i w : quiet i w → job_ok i w.
Proof using Type. intros [Hl Hr]. split; [done|congruence]. Qed.

Lemma quiet_stable i w w' : rtc (others by_process i) w w' → quiet i w → quiet i w'.
Proof using Hpid Hinj. intros Hw. unfold quiet. by destruct (others_stable i w w' Hw) as [-> _]. Qed.

(** Commands of the lock while no job runs. *)
Lemma owned_lock {A X} i (Q : A → W → Prop) (c : command X) k w :
  lock_command c → keeps_to (mine i) c → quiet i w →
  (∀ w1 x w2, quiet i w2 → step X c w1 x w2 → owned step by_process i Q (k x) w2) → owned step by_process i Q (Do c k) w.
Proof using Type*.
  intros Hc Hk Hq Hn w1 x w2 Hw Hst. apply (quiet_stable _ _ _ Hw) in Hq.
  pose proof (step_same redis_faulty fs_faulty _ c _ _ _ Hc Hst) as [Hm _].
  assert (quiet i w2) as Hq2 by (unfold quiet; by rewrite Hm). split; [|by eapply Hn]. split; [by eapply step_respects|].
  split; [|by apply quiet_ok]. intros j _. by rewrite Hm.
Qed.

(** Synchronous blocks. *)
Lemma owned_block {A X} i (Q : A → W → Prop) (f : Z → AdminState → X * AdminState) (k : X → call A) w :
  (∀ w1 t, rtc (others by_process i) w w1 → lw_now w1 <= t →
    let w2 := with_mem i (f t (lw_mem w1 i)).2 (at_time t w1) in
    job_ok i w2 ∧ owned step by_process i Q (k (f t (lw_mem w1 i)).1) w2) →
  owned step by_process i Q (block i f ≫= k) w.
Proof using Type*.
  intros Hk w1 x w2 Hw (t & Ht & -> & ->). destruct (Hk w1 t Hw ltac:(lia)) as [Hok Ho]. split; [|exact Ho].
  split; [|split; [|exact Hok]].
  - apply respects_unchanged; [simpl; lia|done|done].
  - intros j Hj. simpl. by rewrite decide_False.
Qed.

Lemma owned_bind {A B} i (Q : B → W → Prop) (q : call A) (f : A → call B) w :
  owned step by_process i (λ a w', owned step by_process i Q (f a) w') q w → owned step by_process i Q (q ≫= f) w.
Proof using Type. apply owned_then. Qed.

Lemma owned_loop i v n : mine i v → ∀ w, quiet i w →
  owned step by_process i (λ r w', quiet i w' ∧ ∀ h, r = Ok h → h = token v ∧ leases v w') (redisLoop n fuel l v) w.
Proof using Type*.
  intros Hv. induction n as [|n IH]; intros w Hq; cbn [redisLoop].
  { intros w' Hw. split; [by eapply quiet_stable|done]. }
  rewrite Hshared. apply owned_lock; [done|done|done|]. intros w1 [[]|u] w2 Hq2 Hst; cbn.
  - intros w3 Hw. split; [by eapply quiet_stable|]. intros h [= <-]. split; [done|].
    apply (others_stable i w2 w3 Hw); [done|]. by eapply set_nx_leased.
  - apply (owned_lock i _ (Sleep _)); [done|done|done|]. intros w3 _ w4 Hq4 _. by apply IH.
  - destruct Hst as (t & _ & [[? _]|(? & _)]); done.
Qed.

Lemma owned_acquire i w : quiet i w →
  owned step by_process i (λ r w', quiet i w' ∧ ∀ h, r = Ok h → ∃ v, h = token v ∧ mine i v ∧ leases v w') (acquire pid fuel i l) w.
Proof using Type*.
  intros Hq. apply owned_lock; [done|done|done|]. intros w1 now w2 Hq2 _. apply owned_lock; [done|done|done|]. intros w3 seq w4 Hq4 _.
  assert (mine i (lockValue (pid i) now seq)) as Hv by by eexists _, _.
  eapply owned_weaken; [|by apply owned_loop]. intros r w' [Hq' Hr]. split; [done|]. intros h ->. destruct (Hr h eq_refl) as [-> Hl]. by eexists.
Qed.

Lemma owned_release i v w : mine i v → quiet i w → owned step by_process i (λ _ w', quiet i w') (release (token v)) w.
Proof using Type*.
  intros Hv Hq. apply owned_lock; [done|done|done|]. intros w1 x w2 Hq2 _ w3 Hw. by eapply quiet_stable.
Qed.

(** A job in progress. *)
Definition in_job (i : nat) (v : string) (w : W) : Prop :=
  reindexLock (lw_mem w i) = Some l ∧ running (lw_mem w i) = true ∧ jobLock (lw_mem w i) = Some (token v) ∧ mine i v ∧ leases v w.

Lemma in_job_stable i v w w' : rtc (others by_process i) w w' → in_job i v w → in_job i v w'.
Proof using Hpid Hinj.
  intros Hw (Hl & Hr & Hj & Hv & Hle). destruct (others_stable i w w' Hw) as [Hm Hst]. unfold in_job. rewrite Hm. auto 10.
Qed.

Lemma leased_moved v w t i m : lw_now w <= t → leases v w → leases v (with_mem i m (at_time t w)).
Proof using Type. intros Ht Hl. apply (at_time_leased key v lease t w Ht) in Hl. exact Hl. Qed.

Lemma owned_steps i v steps : ∀ w, in_job i v w → owned step by_process i (λ _ w', in_job i v w') (job_steps i steps) w.
Proof using Type*.
  induction steps as [|x steps IH]; intros w Hj; cbn [job_steps]; [intros w' Hw; by eapply in_job_stable|].
  intros w1 u w2 Hw (t & Ht & ->). pose proof (in_job_stable _ _ _ _ Hw Hj) as (Hl & Hr & Hjl & Hv & Hle).
  assert (in_job i v (at_time t w1)) as Hj1. { unfold in_job. splits; [done..|]. apply at_time_leased; [|done]. lia. }
  split.
  { split; [apply respects_unchanged; [simpl; lia|done|done]|]. split; [done|]. split; [done|]. intros _. exists v. split; [done|]. split; [done|apply Hj1]. }
  apply owned_block. intros w3 t3 Hw3 Ht3. cbv zeta. cbn [fst snd].
  assert (in_job i v (with_mem i (with_reindex (processed x (reindex (lw_mem w3 i))) (jobLock (lw_mem w3 i)) (lw_mem w3 i)) (at_time t3 w3))) as Hj3.
  { pose proof (in_job_stable _ _ _ _ Hw3 Hj1) as (Hl3 & Hr3 & Hjl3 & Hv3 & Hle3). unfold in_job. simpl. rewrite decide_True by done. simpl.
    splits; [done..|]. by apply leased_moved. }
  split; [|by apply IH]. destruct Hj3 as (Hl3 & Hr3 & Hjl3 & Hv3 & Hle3). split; [done|]. intros _. by exists v.
Qed.

Lemma owned_job i v w : in_job i v w → owned step by_process i (λ _ w', quiet i w') (runReindexJob i) w.
Proof using Type*.
  intros Hj. apply owned_bind. eapply owned_weaken; [|by apply (owned_steps i v)]. cbv beta. intros _ w1 Hj1 w2 x w3 Hw (t & Ht & -> & ->).
  pose proof (in_job_stable _ _ _ _ Hw Hj1) as (Hl & Hr & Hjl & Hv & Hle).
  assert (quiet i (with_mem i (with_reindex (completed t (reindex (lw_mem w2 i))) (jobLock (lw_mem w2 i)) (lw_mem w2 i)) (at_time t w2))) as Hq.
  { unfold quiet. simpl. by rewrite decide_True. }
  split; [|intros w4 Hw4; by eapply quiet_stable]. split; [apply respects_unchanged; [simpl; lia|done|done]|]. split; [|by apply quiet_ok].
  intros j Hj'. simpl. by rewrite decide_False.
Qed.

(** A block that leaves the process as it was. *)
Lemma owned_read {A X} i (Q : A → W → Prop) (f : AdminState → X) (k : X → call A) w : quiet i w →
  (∀ w', quiet i w' → owned step by_process i Q (k (f (lw_mem w' i))) w') → owned step by_process i Q (block i (λ _ m, (f m, m)) ≫= k) w.
Proof using Type*.
  intros Hq Hk. apply owned_block. intros w1 t Hw Ht. cbv zeta. cbn [fst snd].
  assert (quiet i (with_mem i (lw_mem w1 i) (at_time t w1))) as Hq1.
  { apply (quiet_stable _ _ _ Hw) in Hq. unfold quiet. simpl. by rewrite decide_True. }
  split; [by apply quiet_ok|]. specialize (Hk _ Hq1). simpl in Hk. by rewrite decide_True in Hk.
Qed.

Lemma owned_read_last {A} i (f : AdminState → A) w : quiet i w →
  owned step by_process i (λ _ w', quiet i w') (block i (λ _ m, (f m, m))) w.
Proof using Type*.
  intros Hq w1 x w2 Hw (t & Ht & -> & ->). apply (quiet_stable _ _ _ Hw) in Hq.
  assert (quiet i (with_mem i (lw_mem w1 i) (at_time t w1))) as Hq1 by by unfold quiet; simpl; rewrite decide_True.
  split; [|intros w3 Hw3; by eapply quiet_stable]. split; [apply respects_unchanged; [simpl; lia|done|done]|]. split; [|by apply quiet_ok].
  intros j Hj. simpl. by rewrite decide_False.
Qed.

Lemma owned_trigger i w : quiet i w → owned step by_process i (λ _ w', quiet i w') (triggerReindex pid fuel i) w.
Proof using Type*.
  intros Hq. unfold triggerReindex.
  apply (owned_read i _ (λ m, (if running m then None else Some (reindexLock m), reindex m))); [done|]. intros w1 Hq1.
  pose proof Hq1 as [-> ->]. apply owned_bind. eapply owned_weaken; [|by apply owned_acquire]. intros [h|e] w2 [Hq2 Hh]; [|by apply owned_read_last].
  destruct (Hh h eq_refl) as (v & -> & Hv & Hl). apply owned_block. intros w3 t Hw3 Ht. cbv zeta. unfold start_unless_running.
  pose proof (quiet_stable _ _ _ Hw3 Hq2) as [Hlock Hrun]. rewrite Hrun. cbn [fst snd].
  assert (in_job i v (with_mem i (with_reindex (started t) (Some (token v)) (lw_mem w3 i)) (at_time t w3))) as Hj.
  { unfold in_job. simpl. rewrite decide_True by done. splits; [done..|]. apply leased_moved; [done|]. by apply (others_stable i w2 w3 Hw3). }
  split. { destruct Hj as (H1 & H2 & H3 & H4 & H5). split; [done|]. intros _. by exists v. }
  apply owned_bind. eapply owned_weaken; [|by apply (owned_job i v)]. cbv beta. intros _ w4 Hq4.
  apply owned_bind. eapply owned_weaken; [|by apply owned_release]. cbv beta. intros _ w5 Hq5 w6 Hw6. by eapply quiet_stable.
Qed.

Lemma owned_posts i n : ∀ w, quiet i w → owned step by_process i (λ _ w', quiet i w') (post_reindexes pid fuel i n) w.
Proof using Type*.
  induction n as [|n IH]; intros w Hq; cbn [post_reindexes]; [intros w' Hw; by eapply quiet_stable|].
  apply owned_bind. apply owned_weaken with (λ _ w', quiet i w').
  { intros a w1 Hq1. apply owned_bind. eapply owned_weaken; [|by apply IH]. cbv beta. intros l' w2 Hq2 w3 Hw3. by eapply quiet_stable. }
  unfold post_reindex. apply (owned_read i _ reindex); [done|]. intros w1 Hq1. case_bool_decide; [intros w2 Hw2; by eapply quiet_stable|].
  apply owned_bind. eapply owned_weaken; [|by apply owned_trigger]. cbv beta. intros st w2 Hq2 w3 Hw3. by eapply quiet_stable.
Qed.

Lemma anyone_ok w w' : rtc (anyone by_process) w w' → (∀ i, job_ok i w) → ∀ i, job_ok i w'.
Proof using Hpid Hinj.
  induction 1 as [|w1 w2 w3 (j & Hr & Hm & Hj) _ IH]; [done|]. intros Hok. apply IH. intros i. destruct (decide (i = j)) as [->|Hi]; [done|].
  destruct (Hok i) as [Hl Hrun]. unfold job_ok. rewrite Hm by done. split; [done|]. intros Hx. destruct (Hrun Hx) as (v & Hv & Hmi & Hle).
  exists v. split; [done|]. split; [done|]. eapply respects_leased; [done| |done]. intros Hv'. destruct Hi. by eapply mine_inj.
Qed.

End exclusive.

(** The lease a running job was started under has ended. *)
Definition lease_over (i : nat) (w : W) : Prop :=
  ∃ v t, jobLock (lw_mem w i) = Some (token v) ∧ lw_grants w !! v = Some t ∧ t + lease <= lw_now w.


End jobs.

(** ** When the lock cannot be had *)

Section trouble.
Context {R : Type} `{RedisLaws R} (redis_faulty fs_faulty : Prop) (pid : nat → Z).
Notation W := (world AdminState disk R).
Notation step := (admin_step redis_faulty fs_faulty).

Lemma at_now (w : W) : at_time (lw_now w) w = w.
Proof using Type. by destruct w. Qed.

(** A command that takes no time. *)
Lemma at_once {A X} (c : command X) (k : X → call A) (w : W) x w1 q :
  match c with Sleep _ => False | _ => True end → command_at redis_faulty fs_faulty X c w x w1 →
  eff_steps step ([k x], w1) q → eff_steps step ([Do c k], w) q.
Proof using Type.
  intros Hc Hx Hs. eapply rtc_l; [|exact Hs]. refine (eff_step_at step 0 [Do c k] X c k w x w1 eq_refl _).
  exists (lw_now w). rewrite at_now. split; [|done]. destruct c; done || lia.
Qed.

(** when a command to Redis fails the lock file is taken instead, whoever holds the
    lease in Redis: a second process starts its job under the lease of the first. *)
Theorem fallback_overlaps fuel p q l (w : W) :
  redis_faulty → p ≠ q → running (lw_mem w p) = true → running (lw_mem w q) = false →
  reindexLock (lw_mem w q) = Some l → lk_client l = SharedRedis → 0 < lk_timeoutMs l → lw_files w !! lk_namespace l = None →
  ∃ rest w', eff_steps step ([post_reindex pid (S fuel) q], w) ([rest], w') ∧
    running (lw_mem w' p) = true ∧ running (lw_mem w' q) = true ∧
    lw_now w' = lw_now w ∧ lw_redis w' = lw_redis w ∧ lw_grants w' = lw_grants w.
Proof using Type.
  intros Hf Hpq Hp Hq Hlock Hshared Htime Hfile.
  assert (∃ n, maxRetries l = S n) as [n Hn].
  { unfold maxRetries, LOCK_POLL_MS. exists (Z.to_nat (- (- lk_timeoutMs l / 50)) - 1)%nat.
    assert (- lk_timeoutMs l / 50 < 0) by (apply Z.div_lt_upper_bound; lia). lia. }
  assert (bool_decide (rx_status (reindex (lw_mem w q)) = Running) = false) as Hidle by exact Hq.
  eexists _, _. split; [|split; [|split]].
  - unfold post_reindex. eapply at_once; [done|by split|]. cbn [fst snd]. rewrite Hidle.
    eapply at_once; [done|by split|]. cbn [fst snd]. simpl lw_mem. rewrite decide_True by done. rewrite Hq, Hlock.
    eapply at_once; [done|by split|]. eapply at_once; [done|by split|]. rewrite Hn. cbn [redisLoop]. rewrite Hshared.
    eapply at_once; [done|right; split; [done|]; split; [done|by left]|]. cbn [eff_then].
    eapply at_once; [done|by split|]. cbn [fileLoop]. eapply at_once; [done|left; unfold create_file; simpl; rewrite Hfile; reflexivity|].
    eapply at_once; [done|by left|]. eapply at_once; [done|by split|].
    simpl. unfold write_file. simpl. rewrite lookup_insert_eq. simpl. rewrite decide_True by done. simpl. rewrite decide_True by done.
    unfold start_unless_running. rewrite Hq. cbn [fst snd]. apply rtc_refl.
  - simpl. rewrite !decide_False by done. exact Hp.
  - simpl. by rewrite decide_True.
  - done.
Qed.
Lemma runs_later {A} (q : call A) (w : W) a w' : runs step q w a w' → lw_now w <= lw_now w'.
Proof using Type.
  revert w. induction q as [b|X c k IH]; intros w; simpl; [by intros [_ <-]|]. intros (x & w1 & Hst & Hr).
  apply IH in Hr. pose proof (step_later _ _ _ _ _ _ _ Hst). destruct c; lia.
Qed.

(** A refused lock leaves the key to its holder. *)
Lemma set_nx_refused key value px (w : W) x w' : ¬ redis_faulty → step _ (SetNx key value px) w x w' →
  is_Some (srv_view (lw_now w') (lw_redis w) key) → x = Ok false ∧ lw_redis w' = lw_redis w.
Proof using Type*.
  intros Hup (t & _ & [[-> ->]|(? & _)]) Hk; [|done]. unfold set_nx in *. simpl in *.
  destruct (srv_exec t (RSetNx key value px) (lw_redis w)) as [b r] eqn:He. simpl in *. rewrite law_setnx_held in He by done.
  by injection He as <- <-.
Qed.

Lemma redisLoop_refused l value fuel r w' : ¬ redis_faulty → lk_client l = SharedRedis → ∀ n (w : W),
  runs step (redisLoop n fuel l value) w r w' →
  (∀ t, lw_now w <= t <= lw_now w' → is_Some (srv_view t (lw_redis w) (lockKey l))) →
  r = Err NotAcquired ∧ lw_mem w' = lw_mem w.
Proof using Type*.
  intros Hup Hshared. induction n as [|n IH]; intros w; cbn [redisLoop]; [by intros [<- <-]|]. rewrite Hshared.
  intros (x & w1 & Hst & Hr) Hheld. pose proof (step_later _ _ _ _ _ _ _ Hst) as Ht1. pose proof (runs_later _ _ _ _ Hr) as Ht2. simpl in Ht1.
  destruct (set_nx_refused _ _ _ _ _ _ Hup Hst) as [-> Hr1]; [apply Hheld; lia|].
  pose proof (step_same redis_faulty fs_faulty _ (SetNx _ _ _) _ _ _ I Hst) as [Hm1 _].
  destruct Hr as ([] & w2 & Hst2 & Hr). pose proof (step_later _ _ _ _ _ _ _ Hst2) as Ht3. destruct Hst2 as (t & Ht & ->).
  simpl in Ht3. apply IH in Hr as [-> Hm]; [|simpl; rewrite Hr1; intros t' Ht'; apply Hheld; lia]. split; [done|]. by rewrite Hm, <- Hm1.
Qed.

(** a reindex request that waits in vain for the lock of another process is answered
    202 'Reindex started.', and nothing has been started. *)
Theorem reindex_accepted_not_started fuel p l (w : W) a w' :
  ¬ redis_faulty → reindexLock (lw_mem w p) = Some l → lk_client l = SharedRedis → running (lw_mem w p) = false →
  runs step (post_reindex pid fuel p) w a w' →
  (∀ t, lw_now w <= t <= lw_now w' → is_Some (srv_view t (lw_redis w) (lockKey l))) →
  a = ReindexAccepted (reindex (lw_mem w p)) ∧ lw_mem w' p = lw_mem w p.
Proof using Type*.
  intros Hup Hlock Hshared Hidle (x & w1 & (t1 & Ht1 & -> & ->) & Hr) Hheld. cbn [fst snd eff_bind eff_then] in Hr.
  assert (∀ t m (w : W), lw_mem w p = m → lw_mem (with_mem p m (at_time t w)) p = m) as Hsame by (intros; simpl; by rewrite decide_True).
  assert (bool_decide (rx_status (reindex (lw_mem w p)) = Running) = false) as Hi by exact Hidle.
  change (lw_mem (at_time t1 w) p) with (lw_mem w p) in Hr. rewrite Hi in Hr. set (w1 := with_mem p (lw_mem w p) (at_time t1 w)) in *.
  assert (lw_mem w1 p = lw_mem w p) as Hm1 by by apply Hsame.
  destruct Hr as (x & w2 & (t2 & Ht2 & -> & ->) & Hr). cbn [fst snd eff_bind eff_then] in Hr. change (lw_mem (at_time t2 w1) p) with (lw_mem w1 p) in Hr.
  rewrite Hm1, Hidle, Hlock in Hr. set (w2 := with_mem p (lw_mem w p) (at_time t2 w1)) in *.
  assert (lw_mem w2 p = lw_mem w p) as Hm2 by by apply Hsame.
  destruct Hr as (now & w3 & (t3 & Ht3 & -> & ->) & Hr). destruct Hr as (seq & w4 & (t4 & Ht4 & -> & ->) & Hr).
  apply runs_then in Hr as (st & w6 & Hr & [<- <-]). apply runs_then in Hr as (r & w5 & Hloop & Hr).
  pose proof (runs_later _ _ _ _ Hloop) as Ht5. pose proof (runs_later _ _ _ _ Hr) as Ht6.
  assert (r = Err NotAcquired ∧ lw_mem w5 = lw_mem w2) as [-> Hm5].
  { eapply (redisLoop_refused l _ fuel r w5 Hup Hshared _ _ Hloop). simpl in *. intros t Ht. apply Hheld. lia. }
  destruct Hr as (x & w7 & (t7 & Ht7 & -> & ->) & [<- <-]). simpl. rewrite decide_True by done. by rewrite Hm5, Hm2.
Qed.
End trouble.

(** ** Witnesses *)

Notation sample := (world AdminState disk gredis).
Definition sample_world (r : gredis) (m : nat → AdminState) : sample :=
  {| lw_now := 0; lw_redis := r; lw_grants := ∅; lw_files := ∅; lw_ids := 0; lw_disk := None; lw_seq := λ _, 0; lw_mem := m |}.
Definition fresh : sample := sample_world ∅ (λ _, hydratePauseFlagsFromPersistence None).

Lemma run_command {A X} (Pr Pf : Prop) (c : command X) (k : X → call A) (w : sample) t x w1 a w' :
  lw_now w + match c with Sleep ms => Z.max 0 ms | _ => 0 end <= t → command_at Pr Pf X c (at_time t w) x w1 →
  runs (admin_step Pr Pf) (k x) w1 a w' → runs (admin_step Pr Pf) (Do c k) w a w'.
Proof. intros Ht Hc Hr. exists x, w1. split; [by exists t|done]. Qed.

Lemma pool_at {A X} (Pr Pf : Prop) i ps (c : command X) (k : X → call A) (w : sample) t x w1 q :
  ps !! i = Some (Do c k) → lw_now w + match c with Sleep ms => Z.max 0 ms | _ => 0 end <= t → command_at Pr Pf X c (at_time t w) x w1 →
  eff_steps (admin_step Pr Pf) (<[i := k x]> ps, w1) q → eff_steps (admin_step Pr Pf) (ps, w) q.
Proof. intros Hi Ht Hc Hr. eapply rtc_l; [|exact Hr]. eapply eff_step_at; [exact Hi|]. by exists t. Qed.

Lemma sample_sets : ∃ a b w1 w2, runs (admin_step False False) (setPauseFlags Z.of_nat 103 0 (Some true) None) fresh (Ok a) w1 ∧
  runs (admin_step False False) (setPauseFlags Z.of_nat 103 1 None (Some true)) w1 (Ok b) w2.
Proof.
  eexists _, _, _, _. split.
  - do 4 (eapply (run_command _ _ _ _ _ 0); [done|by split|]). eapply (run_command _ _ _ _ _ 0); [done|by left|].
    eapply (run_command _ _ _ _ _ 0); [done|by split|]. by split.
  - do 4 (eapply (run_command _ _ _ _ _ 0); [done|by split|]). eapply (run_command _ _ _ _ _ 0); [done|by left|].
    eapply (run_command _ _ _ _ _ 0); [done|by split|]. by split.
Qed.

Lemma pause_flags_all_or_nothing_witness :
  ∃ r w', runs (admin_step True True) (setPauseFlags Z.of_nat 103 0 (Some true) None) fresh r w'.
Proof. apply (pause_flags_all_or_nothing True True Z.of_nat 103 0 (Some true) None fresh). split; [lia|reflexivity]. Defined.

Lemma stale_memory_overwrites_witness : ∃ w2 : sample,
  streamCreation (pauseFlags (lw_mem w2 0%nat)) = true ∧
  streamCreation (pauseFlags (hydratePauseFlagsFromPersistence (lw_disk w2))) = false.
Proof.
  destruct sample_sets as (a & b & w1 & w2 & H1 & H2). exists w2.
  apply (stale_memory_overwrites False False Z.of_nat 103 0 1 fresh w1 w2 a b); try done; split; try lia; reflexivity.
Defined.

Definition sample_lock : lock := {| lk_client := SharedRedis; lk_namespace := "reindex"; lk_timeoutMs := 50; lk_leaseMs := 5000 |}.
Definition wired : AdminState := with_admin_locks None (Some sample_lock) (hydratePauseFlagsFromPersistence None).

(** The second process is granted the lock when the lease of the first has ended. *)
Lemma sample_overlap : ∃ ps (w : sample),
  eff_steps (admin_step False False) ([post_reindexes Z.of_nat 103 0 1; post_reindexes Z.of_nat 103 1 1], sample_world ∅ (λ _, wired)) (ps, w) ∧
  running (lw_mem w 0%nat) = true ∧ running (lw_mem w 1%nat) = true.
Proof.
  eexists _, _. split.
  - do 4 (eapply (pool_at _ _ 0 _ _ _ _ 0); [done|done|by split|]). eapply (pool_at _ _ 0 _ _ _ _ 0); [done|done|by left|].
    eapply (pool_at _ _ 0 _ _ _ _ 0); [done|done|by split|].
    do 4 (eapply (pool_at _ _ 1 _ _ _ _ 5000); [done|done|by split|]). eapply (pool_at _ _ 1 _ _ _ _ 5000); [done|done|by left|].
    eapply (pool_at _ _ 1 _ _ _ _ 5000); [done|done|by split|]. apply rtc_refl.
  - by vm_compute.
Qed.


Definition busy : AdminState := with_reindex (started 0) None wired.

Lemma fallback_overlaps_witness : ∃ rest (w' : sample),
  eff_steps (admin_step True False) ([post_reindex Z.of_nat 1 1], sample_world ∅ (λ i, if decide (i = 0%nat) then busy else wired)) ([rest], w') ∧
  running (lw_mem w' 0%nat) = true ∧ running (lw_mem w' 1%nat) = true.
Proof.
  destruct (fallback_overlaps True False Z.of_nat 0 0 1 sample_lock (sample_world ∅ (λ i, if decide (i = 0%nat) then busy else wired))) as (rest & w' & Hs & H0 & H1 & _);
    [done|done|reflexivity|reflexivity|reflexivity|reflexivity|reflexivity|reflexivity|]. by exists rest, w'.
Defined.

Definition taken : sample := sample_world {[ lockKey sample_lock := ("other", None) ]} (λ _, wired).

Lemma sample_refused : ∃ a w', runs (admin_step False False) (post_reindex Z.of_nat 103 0) taken a w' ∧
  ∀ t, lw_now taken <= t <= lw_now w' → is_Some (srv_view t (lw_redis taken) (lockKey sample_lock)).
Proof.
  eexists _, _. split.
  - do 4 (eapply (run_command _ _ _ _ _ 0); [done|by split|]). eapply (run_command _ _ _ _ _ 0); [done|by left|].
    eapply (run_command _ _ _ _ _ 50 tt); [done|reflexivity|]. eapply (run_command _ _ _ _ _ 50); [done|by split|]. by split.
  - intros t _. by exists "other".
Qed.

Lemma reindex_accepted_not_started_witness : ∃ a (w' : sample), a = ReindexAccepted idle ∧ lw_mem w' 0%nat = wired.
Proof.
  destruct sample_refused as (a & w' & Hr & Hk). exists a, w'.
  exact (reindex_accepted_not_started False False Z.of_nat 103 0 sample_lock taken a w' (λ x, x) eq_refl eq_refl eq_refl Hr Hk).
Defined.
