(* ===== verification/DeadLetters.v ===== *)
(** * The dead-letter queue ([src/db/repositories/dlqRepository.ts], [src/routes/dlq.ts],
      [src/jobs/dlqPurge.ts])

    The table of dead letters with their failure histories, the suspension of topics,
    the admin requests, the enqueueing and the retention purge.  A request is a tree of
    statements; a statement is atomic, may be rejected and may lose its reply; where
    SQL leaves the order of rows open the model does too.  Statements use a clock
    of their own.  Authentication, logging, the meta data of audit events and the
    undefined payload, which has no JSON, are left out; a query
    parameter that is no string counts as absent, as in the code. *)
From Stdlib Require Import Ascii ZArith Lia.
From stdpp Require Import base gmap strings list relations sorting.
From S2P Require Import Prelude Effects.
Local Open Scope string_scope.
Local Open Scope list_scope.
Local Open Scope Z_scope.

(** ** Rows and entries *)

Inductive dlq_status : Type := Dead | Replayed.
#[global] Instance dlq_status_eq_dec : EqDecision dlq_status.
Proof. solve_decision. Defined.

Record DlqFailureAttempt : Type := { fa_error : string; fa_attempt : jsnum; fa_failedAt : string; fa_source : option string }.

(** A row; the history is an array by a constraint of the table. *)
Record DlqRow : Type := {
  dr_tenant : option string; dr_topic : string; dr_payload : string; dr_error : string; dr_attempts : Z; dr_correlation : option string;
  dr_first : Z; dr_last : Z; dr_status : dlq_status; dr_history : list jsval }.

Record DlqEntry : Type := {
  e_id : string; e_tenantId : option string; e_topic : string; e_payload : jsval; e_error : string; e_attempts : Z; e_correlationId : option string;
  e_firstFailedAt : Z; e_lastFailedAt : Z; e_status : dlq_status; e_failureHistory : list DlqFailureAttempt }.

(** What a worker enqueues. *)
Record dead_letter : Type := {
  dl_tenantId : option string; dl_topic : string; dl_payload : jsval; dl_error : string; dl_attempts : Z; dl_correlationId : option string;
  dl_status : option dlq_status; dl_failureHistory : option (list DlqFailureAttempt) }.

Record ConsumerSuspension : Type := {
  cs_consecutiveFailures : Z; cs_suspended : bool; cs_suspendedAt : option Z; cs_resumedAt : option Z; cs_updatedAt : Z }.

Definition FAILURE_SOURCE_ENQUEUE : string := "enqueue".
Definition UNREPORTED_REPLAY_FAILURE : string := "replay failed (reason not reported)".
Definition MAX_FAILURE_ERROR_LENGTH : nat := 2000.

(** The limit on the failures of a topic; [raw] is [DLQ_SUSPENSION_THRESHOLD]. *)
Definition getSuspensionThreshold (raw : option string) : Z :=
  match raw with
  | Some s => match parse_int10 (chars s) with Some n => if 0 <? n then n else 5 | None => 5 end
  | None => 5
  end.

Section repository.
Context (Number : jsval → jsnum) (toISOString : Z → string) (isoOfNumber : jsnum → string)
        (json_parse : string → jsval) (json_stringify : jsval → result string string).

(** The fallback of a payload that cannot be serialized names its type and the error;
    it can always be. *)
Definition safeSerializePayload (now : Z) (payload : jsval) : string :=
  match json_stringify payload with
  | Ok s => s
  | Err errorMsg =>
      match json_stringify (JObj [("_serialization_error", JBool true); ("reason", JStr errorMsg);
                                  ("type", JStr (js_typeof payload)); ("timestamp", JStr (toISOString now))]) with
      | Ok s => s
      | Err _ => ""
      end
  end.

Definition toIsoString (raw : jsval) : option string :=
  match raw with JStr s => Some s | JNum n => Some (isoOfNumber n) | _ => None end.

Definition finite_or_zero (n : jsnum) : jsnum := match n with NumInt _ | NumFrac _ => n | _ => NumInt 0 end.

Definition toFailureAttempt (fallbackFailedAt : string) (raw : jsval) : option DlqFailureAttempt :=
  match raw with
  | JObj record =>
      match js_get record "error" with
      | JStr error =>
          if str_empty error then None
          else Some {| fa_error := error;
                       fa_attempt := finite_or_zero (Number (js_get record "attempt"));
                       fa_failedAt := default (default fallbackFailedAt (toIsoString (js_get record "last_failed_at"))) (toIsoString (js_get record "failedAt"));
                       fa_source := match js_get record "source" with JStr s => Some s | _ => None end |}
      | _ => None
      end
  | _ => None
  end.

Definition rowToFailureHistory (row : DlqRow) : list DlqFailureAttempt :=
  let fallbackFailedAt := toISOString (dr_first row) in
  match omap (toFailureAttempt fallbackFailedAt) (dr_history row) with
  | [] => if str_empty (dr_error row) then []
          else [{| fa_error := dr_error row; fa_attempt := NumInt (dr_attempts row); fa_failedAt := fallbackFailedAt; fa_source := Some "legacy-row" |}]
  | history => history
  end.

Definition rowToEntry (id : string) (row : DlqRow) : DlqEntry := {|
  e_id := id; e_tenantId := dr_tenant row; e_topic := dr_topic row; e_payload := json_parse (dr_payload row); e_error := dr_error row;
  e_attempts := dr_attempts row; e_correlationId := dr_correlation row; e_firstFailedAt := dr_first row; e_lastFailedAt := dr_last row;
  e_status := dr_status row; e_failureHistory := rowToFailureHistory row |}.

(** [JSON.stringify] leaves a missing source out. *)
Definition attempt_json (a : DlqFailureAttempt) : jsval :=
  JObj ([("error", JStr (fa_error a)); ("attempt", JNum (fa_attempt a)); ("failedAt", JStr (fa_failedAt a))] ++
        match fa_source a with Some s => [("source", JStr s)] | None => [] end).

(** ** Statements *)

Inductive audit_event : Type :=
| DLQ_LISTED | DLQ_CONSUMER_SUSPENDED (topic : string) | DLQ_REPLAYED (id : string) | DLQ_CONSUMER_RESUMED (topic : string) | DLQ_PURGED
| DLQ_RETENTION_PURGED (cutoff : Z).

Notation reply A := (result string A).

Inductive dlq_command : Type → Type :=
| Clock : dlq_command Z
| RandomSuffix : dlq_command string
| InsertRow (id : string) (row : DlqRow) : dlq_command (reply unit)
| CountRows (topic tenantId : option string) : dlq_command (reply Z)
| PageRows (topic tenantId : option string) (limit offset : Z) : dlq_command (reply (list (string * DlqRow)))
| FindRow (id : string) : dlq_command (reply (option DlqRow))
| UpdateRow (id : string) (attempts lastFailedAt : option Z) : dlq_command (reply unit)
| AppendFailure (id error source : string) (failedAt : Z) : dlq_command (reply (option DlqRow))
| DeleteRow (id : string) : dlq_command (reply bool)
| DeleteRows (topic tenantId : option string) : dlq_command (reply Z)
| PurgeRows (batchSize cutoff : Z) (tenantId : option string) (dryRun : bool) : dlq_command (reply Z)
| ReplayRow (id : string) (attempts lastFailedAt : option Z) : dlq_command (reply bool)
| GetSuspension (topic : string) : dlq_command (reply (option ConsumerSuspension))
| ListSuspensions : dlq_command (reply (list (string * ConsumerSuspension)))
| ReplayFailure (topic : string) (threshold : Z) : dlq_command (reply ConsumerSuspension)
| ReplaySuccess (topic : string) : dlq_command (reply unit)
| ResumeTopic (topic : string) : dlq_command (reply (option ConsumerSuspension))
| Audit (e : audit_event) : dlq_command unit.

Notation call A := (eff dlq_command (reply A)).

(** Awaiting a statement: a rejection is thrown. *)
Definition query {A B} (c : dlq_command (reply A)) (k : A → call B) : call B :=
  Do c (λ r, match r with Ok a => k a | Err e => Done (Err e) end).

(** ** The repository *)

Definition insert (now : Z) (id : string) (entry : dead_letter) (first last : Z) : call unit :=
  let history := match dl_failureHistory entry with
                 | Some (a :: l) => a :: l
                 | _ => [{| fa_error := dl_error entry; fa_attempt := NumInt (dl_attempts entry); fa_failedAt := toISOString first;
                            fa_source := Some FAILURE_SOURCE_ENQUEUE |}]
                 end in
  ask (InsertRow id {| dr_tenant := dl_tenantId entry; dr_topic := dl_topic entry; dr_payload := safeSerializePayload now (dl_payload entry);
    dr_error := dl_error entry; dr_attempts := dl_attempts entry; dr_correlation := dl_correlationId entry; dr_first := first; dr_last := last;
    dr_status := default Dead (dl_status entry); dr_history := attempt_json <$> history |}).

Definition findAll (limit offset : Z) (topic tenantId : option string) : call (list DlqEntry * Z) :=
  query (CountRows topic tenantId) (λ total,
  query (PageRows topic tenantId limit offset) (λ rows,
  Done (Ok ((λ '(id, row), rowToEntry id row) <$> rows, total)))).

Definition findById (id : string) : call (option DlqEntry) :=
  query (FindRow id) (λ row, Done (Ok (rowToEntry id <$> row))).

Definition update (id : string) (attempts lastFailedAt : option Z) : call unit :=
  match attempts, lastFailedAt with None, None => Done (Ok tt) | _, _ => ask (UpdateRow id attempts lastFailedAt) end.

Definition recordFailure (id error source : string) (failedAt : Z) : call (option DlqEntry) :=
  query (AppendFailure id error source failedAt) (λ row, Done (Ok (rowToEntry id <$> row))).

Definition deleteById (id : string) : call bool := ask (DeleteRow id).
Definition deleteAll (topic tenantId : option string) : call Z := ask (DeleteRows topic tenantId).
Definition purgeTerminalEntries (batchSize cutoff : Z) (tenantId : option string) (dryRun : bool) : call Z :=
  ask (PurgeRows batchSize cutoff tenantId dryRun).
Definition replayEntry (id : string) (attempts lastFailedAt : option Z) : call bool := ask (ReplayRow id attempts lastFailedAt).
Definition getConsumerSuspension (topic : string) : call (option ConsumerSuspension) := ask (GetSuspension topic).
Definition listSuspendedConsumers : call (list (string * ConsumerSuspension)) := ask ListSuspensions.
Definition recordReplaySuccess (topic : string) : call unit := ask (ReplaySuccess topic).
Definition resumeConsumer (topic : string) : call (option ConsumerSuspension) := ask (ResumeTopic topic).
(** ** Requests *)

Inductive answer : Type :=
| BadRequest
| NotFound
| Listed (entries : list DlqEntry) (total limit offset : Z) (has_more : bool) (suspendedTopics : list (string * ConsumerSuspension))
| Found (entry : DlqEntry) (failureCount : Z) (firstFailure latestFailure : string) (consumerSuspended : bool) (consecutiveFailures : Z)
| ConsumerIsSuspended (topic : string) (consecutiveFailures : Z)
| EntryAlreadyReplayed
| EntryReplayed (id topic : string) (failureHistory : list DlqFailureAttempt)
| ConsumerResumed (topic : string) (resumedAt : option Z)
| AlreadyActive (topic : string)
| EntryRemoved (id : string)
| EntriesPurged (purged : Z)
| Enqueued (id : string)
| RetentionPurged (rowsPurged cutoffDate : Z).

(** [OffsetPaginationSchema], for numbers below 2^53. *)
Definition page_number (lo : Z) (hi : option Z) (v : option string) : result unit (option Z) :=
  match v with
  | None => Ok None
  | Some s =>
      if forallb is_digit (chars s) && negb (str_empty s) then
        let n := digits_val (chars s) in
        if (lo <=? n) && match hi with Some h => n <=? h | None => true end then Ok (Some n) else Err tt
      else Err tt
  end.
Definition DEFAULT_PAGE_LIMIT : Z := 20.
Definition MAX_PAGE_LIMIT : Z := 100.

(** A filter that is a string with more than white space. *)
Definition query_filter (v : option string) : option string :=
  match v with Some s => if str_empty (js_trim s) then None else Some (js_trim s) | None => None end.

Definition list_entries (topic tenantId limit offset : option string) : call answer :=
  match page_number 1 (Some MAX_PAGE_LIMIT) limit, page_number 0 None offset with
  | Ok limit, Ok offset =>
      let limit := default DEFAULT_PAGE_LIMIT limit in
      let offset := default 0 offset in
      try_bind (findAll limit offset (query_filter topic) (query_filter tenantId)) (λ '(entries, total),
      try_bind listSuspendedConsumers (λ suspensions,
      Do (Audit DLQ_LISTED) (λ _,
      Done (Ok (Listed entries total limit offset (offset + Z.of_nat (length entries) <? total) (filter (λ s, cs_suspended s.2 = true) suspensions))))))
  | _, _ => Done (Ok BadRequest)
  end.

Definition get_entry (id : string) : call answer :=
  try_bind (findById id) (λ entry,
  match entry with
  | None => Done (Ok NotFound)
  | Some entry =>
      try_bind (getConsumerSuspension (e_topic entry)) (λ suspension,
      let history := e_failureHistory entry in
      Done (Ok (Found entry (Z.of_nat (length history)) (default (e_error entry) (fa_error <$> head history))
        (default (e_error entry) (fa_error <$> last history))
        (default false (cs_suspended <$> suspension)) (default 0 (cs_consecutiveFailures <$> suspension)))))
  end).

(** The trimmed cause, cut to the maximum length. *)
Definition normalizeFailureError (raw : jsval) : option string :=
  match raw with
  | JStr s => let trimmed := js_trim s in
              if str_empty trimmed then None else Some (unchars (take MAX_FAILURE_ERROR_LENGTH (chars trimmed)))
  | _ => None
  end.

Definition replay_outcome (rawThreshold : option string) (entry : DlqEntry) (error : jsval) (failed : bool) : call (list DlqFailureAttempt) :=
  if failed then
    Do Clock (λ now,
    try_bind (recordFailure (e_id entry) (default UNREPORTED_REPLAY_FAILURE (normalizeFailureError error)) "replay" now) (λ withFailure,
    let failureHistory := match withFailure with Some e => e_failureHistory e | None => e_failureHistory entry end in
    query (ReplayFailure (e_topic entry) (getSuspensionThreshold rawThreshold)) (λ updated,
    if cs_suspended updated then Do (Audit (DLQ_CONSUMER_SUSPENDED (e_topic entry))) (λ _, Done (Ok failureHistory))
    else Done (Ok failureHistory))))
  else try_bind (recordReplaySuccess (e_topic entry)) (λ _, Done (Ok (e_failureHistory entry))).

(** The attempt counter is reset, once for each entry, and the outcome recorded. *)
Definition accept_replay (rawThreshold : option string) (entry : DlqEntry) (error : jsval) (failed : bool) : call answer :=
  Do Clock (λ now,
  try_bind (replayEntry (e_id entry) (Some 0) (Some now)) (λ replayed,
  if negb replayed then Done (Ok EntryAlreadyReplayed)
  else
    try_bind (replay_outcome rawThreshold entry error failed) (λ failureHistory,
    Do (Audit (DLQ_REPLAYED (e_id entry))) (λ _,
    Done (Ok (EntryReplayed (e_id entry) (e_topic entry) failureHistory)))))).

(** Neither missing nor a string. *)
Definition malformed (error : jsval) : bool := match error with JUndefined | JNull | JStr _ => false | _ => true end.

Definition replay_entry (rawThreshold : option string) (id : string) (error : jsval) (failed : bool) : call answer :=
  try_bind (findById id) (λ entry,
  match entry with
  | None => Done (Ok NotFound)
  | Some entry =>
      try_bind (getConsumerSuspension (e_topic entry)) (λ suspension,
      if default false (cs_suspended <$> suspension)
      then Done (Ok (ConsumerIsSuspended (e_topic entry) (default 0 (cs_consecutiveFailures <$> suspension))))
      else if malformed error then Done (Ok BadRequest)
      else accept_replay rawThreshold entry error failed)
  end).

Definition resume_consumer (topic : string) : call answer :=
  try_bind (resumeConsumer topic) (λ updated,
  match updated with
  | None => Done (Ok (AlreadyActive topic))
  | Some u => Do (Audit (DLQ_CONSUMER_RESUMED topic)) (λ _, Done (Ok (ConsumerResumed topic (cs_resumedAt u))))
  end).

Definition delete_entry (id : string) : call answer :=
  try_bind (deleteById id) (λ deleted, Done (Ok (if deleted : bool then EntryRemoved id else NotFound))).

Definition delete_entries (topic tenantId : option string) : call answer :=
  try_bind (deleteAll (query_filter topic) (query_filter tenantId)) (λ purged, Do (Audit DLQ_PURGED) (λ _, Done (Ok (EntriesPurged purged)))).

Definition enqueueDeadLetter (entry : dead_letter) : call answer :=
  Do Clock (λ now, Do Clock (λ t, Do RandomSuffix (λ suffix,
  let id := "dlq-" +:+ int_string t +:+ "-" +:+ suffix in
  let history := match dl_failureHistory entry with
                 | Some l => l
                 | None => [{| fa_error := dl_error entry; fa_attempt := NumInt (dl_attempts entry); fa_failedAt := toISOString now; fa_source := Some "enqueue" |}]
                 end in
  try_bind (insert t id {| dl_tenantId := dl_tenantId entry; dl_topic := dl_topic entry; dl_payload := dl_payload entry; dl_error := dl_error entry;
    dl_attempts := dl_attempts entry; dl_correlationId := dl_correlationId entry; dl_status := dl_status entry; dl_failureHistory := Some history |} now now)
    (λ _, Done (Ok (Enqueued id)))))).

(** ** The retention purge *)

Definition MAX_RETENTION_DAYS : Z := 365.
Record DlqPurgeOptions : Type := {
  po_batchSize : option Z; po_retentionDays : option Z; po_now : option Z; po_tenantId : option string; po_dryRun : bool }.

(** [||]: zero is replaced. *)
Definition or_default (n d : Z) : Z := if n =? 0 then d else n.

Definition runDlqPurge (purgeBatchSize dlqRetentionDays : Z) (o : DlqPurgeOptions) : call answer :=
  let batchSize := default (or_default purgeBatchSize 500) (po_batchSize o) in
  let retentionDays := default (or_default dlqRetentionDays 30) (po_retentionDays o) in
  Do Clock (λ clock,
  let now := default clock (po_now o) in
  if retentionDays <=? 0 then Done (Ok (RetentionPurged 0 now))
  else if MAX_RETENTION_DAYS <? retentionDays then Done (Err "retentionDays must be a finite number between 0 and 365")
  else
    let cutoff := now - retentionDays * 24 * 60 * 60 * 1000 in
    try_bind (purgeTerminalEntries batchSize cutoff (po_tenantId o) (po_dryRun o)) (λ rowsPurged,
    if (0 <? rowsPurged) && negb (po_dryRun o)
    then Do (Audit (DLQ_RETENTION_PURGED cutoff)) (λ _, Done (Ok (RetentionPurged rowsPurged cutoff)))
    else Done (Ok (RetentionPurged rowsPurged cutoff)))).

(** The scheduled job names no tenant. *)
Definition scheduled_purge (purgeBatchSize dlqRetentionDays : Z) : call answer :=
  runDlqPurge purgeBatchSize dlqRetentionDays
    {| po_batchSize := None; po_retentionDays := None; po_now := None; po_tenantId := None; po_dryRun := false |}.

Inductive request : Type :=
| ListEntries (topic tenantId limit offset : option string)
| GetEntry (id : string)
| ReplayEntry (id : string) (error : jsval) (failed : bool)
| ResumeConsumer (topic : string)
| DeleteEntry (id : string)
| DeleteEntries (topic tenantId : option string)
| Enqueue (entry : dead_letter)
| Purge (o : DlqPurgeOptions).

Definition handle (rawThreshold : option string) (purgeBatchSize dlqRetentionDays : Z) (r : request) : call answer :=
  match r with
  | ListEntries topic tenantId limit offset => list_entries topic tenantId limit offset
  | GetEntry id => get_entry id
  | ReplayEntry id error failed => replay_entry rawThreshold id error failed
  | ResumeConsumer topic => resume_consumer topic
  | DeleteEntry id => delete_entry id
  | DeleteEntries topic tenantId => delete_entries topic tenantId
  | Enqueue entry => enqueueDeadLetter entry
  | Purge o => runDlqPurge purgeBatchSize dlqRetentionDays o
  end.

(** ** The database *)

Record world : Type := { d_rows : gmap string DlqRow; d_suspensions : gmap string ConsumerSuspension; d_audit : list audit_event }.

Section steps.
Context (faulty : Prop).

Definition with_rows (t : gmap string DlqRow) (w : world) : world :=
  {| d_rows := t; d_suspensions := d_suspensions w; d_audit := d_audit w |}.
Definition with_suspension (topic : string) (s : ConsumerSuspension) (w : world) : world :=
  {| d_rows := d_rows w; d_suspensions := <[topic := s]> (d_suspensions w); d_audit := d_audit w |}.
Definition with_audit (e : audit_event) (w : world) : world :=
  {| d_rows := d_rows w; d_suspensions := d_suspensions w; d_audit := d_audit w ++ [e] |}.

(** A filter of a statement: an empty string is none. *)
Definition holds_for (v : option string) (x : option string) : bool :=
  match v with Some s => str_empty s || bool_decide (x = Some s) | None => true end.
Definition selected (topic tenantId : option string) (r : DlqRow) : bool :=
  holds_for topic (Some (dr_topic r)) && holds_for tenantId (dr_tenant r).

Definition set_times (attempts lastFailedAt : option Z) (status : dlq_status) (r : DlqRow) : DlqRow :=
  {| dr_tenant := dr_tenant r; dr_topic := dr_topic r; dr_payload := dr_payload r; dr_error := dr_error r;
     dr_attempts := default (dr_attempts r) attempts; dr_correlation := dr_correlation r; dr_first := dr_first r;
     dr_last := default (dr_last r) lastFailedAt; dr_status := status; dr_history := dr_history r |}.

Definition with_failure (error source : string) (failedAt : Z) (r : DlqRow) : DlqRow :=
  let attempt := Z.max 0 (dr_attempts r) + 1 in
  {| dr_tenant := dr_tenant r; dr_topic := dr_topic r; dr_payload := dr_payload r; dr_error := dr_error r;
     dr_attempts := attempt; dr_correlation := dr_correlation r; dr_first := dr_first r; dr_last := failedAt; dr_status := dr_status r;
     dr_history := dr_history r ++ [JObj [("error", JStr error); ("attempt", JNum (NumInt attempt));
                                          ("failedAt", JStr (toISOString failedAt)); ("source", JStr source)]] |}.

(** Of the tenant, or of none when none is named. *)
Definition purgeable (cutoff : Z) (tenantId : option string) (r : DlqRow) : bool :=
  (dr_last r <? cutoff) && match tenantId with
                           | Some t => if str_empty t then bool_decide (dr_tenant r = None) else bool_decide (dr_tenant r = Some t)
                           | None => bool_decide (dr_tenant r = None)
                           end.

(** An order of the rows a statement selects. *)
Definition ordered (le : DlqRow → DlqRow → Prop) (p : DlqRow → bool) (w : world) (l : list (string * DlqRow)) : Prop :=
  l ≡ₚ map_to_list (filter (λ e, p e.2 = true) (d_rows w)) ∧ StronglySorted (λ a b, le a.2 b.2) l.

Definition after_failure (threshold now : Z) (s : option ConsumerSuspension) : ConsumerSuspension :=
  match s with
  | None => {| cs_consecutiveFailures := 1; cs_suspended := threshold <=? 1; cs_suspendedAt := if threshold <=? 1 then Some now else None;
               cs_resumedAt := None; cs_updatedAt := now |}
  | Some s =>
      let n := Z.max 0 (cs_consecutiveFailures s) + 1 in
      {| cs_consecutiveFailures := n; cs_suspended := threshold <=? n;
         cs_suspendedAt := if negb (cs_suspended s) && (threshold <=? n) then Some now else cs_suspendedAt s;
         cs_resumedAt := cs_resumedAt s; cs_updatedAt := now |}
  end.

Definition after_success (now : Z) (s : option ConsumerSuspension) : ConsumerSuspension :=
  match s with
  | None => {| cs_consecutiveFailures := 0; cs_suspended := false; cs_suspendedAt := None; cs_resumedAt := None; cs_updatedAt := now |}
  | Some s => {| cs_consecutiveFailures := 0; cs_suspended := cs_suspended s; cs_suspendedAt := cs_suspendedAt s;
                 cs_resumedAt := cs_resumedAt s; cs_updatedAt := now |}
  end.

Definition after_resume (now : Z) (s : ConsumerSuspension) : ConsumerSuspension :=
  {| cs_consecutiveFailures := 0; cs_suspended := false; cs_suspendedAt := cs_suspendedAt s; cs_resumedAt := Some now; cs_updatedAt := now |}.

(** Executed and answered, or rejected before or after. *)
Definition executed {A} (a : A) (w new : world) (x : reply A) (w' : world) : Prop :=
  (x = Ok a ∧ w' = new) ∨ (faulty ∧ (∃ e, x = Err e) ∧ (w' = w ∨ w' = new)).

Definition dlq_step X (c : dlq_command X) (w : world) : X → world → Prop :=
  match c in dlq_command X return X → world → Prop with
  | Clock => λ _ w', w' = w
  | RandomSuffix => λ _ w', w' = w
  | InsertRow id row => λ x w',
      match d_rows w !! id with
      | Some _ => (∃ e, x = Err e) ∧ w' = w
      | None => executed tt w (with_rows (<[id := row]> (d_rows w)) w) x w'
      end
  | CountRows topic tenantId => λ x w',
      executed (Z.of_nat (length (map_to_list (filter (λ e, selected topic tenantId e.2 = true) (d_rows w))))) w w x w'
  | PageRows topic tenantId limit offset => λ x w',
      ∃ l, ordered (λ a b, dr_first b <= dr_first a) (selected topic tenantId) w l ∧
        executed (take (Z.to_nat limit) (drop (Z.to_nat offset) l)) w w x w'
  | FindRow id => λ x w', executed (d_rows w !! id) w w x w'
  | UpdateRow id attempts lastFailedAt => λ x w',
      executed tt w (with_rows (alter (λ r, set_times attempts lastFailedAt (dr_status r) r) id (d_rows w)) w) x w'
  | AppendFailure id error source failedAt => λ x w',
      executed (with_failure error source failedAt <$> d_rows w !! id) w (with_rows (alter (with_failure error source failedAt) id (d_rows w)) w) x w'
  | DeleteRow id => λ x w', executed (bool_decide (is_Some (d_rows w !! id))) w (with_rows (delete id (d_rows w)) w) x w'
  | DeleteRows topic tenantId => λ x w',
      executed (Z.of_nat (length (map_to_list (filter (λ e, selected topic tenantId e.2 = true) (d_rows w))))) w
        (with_rows (filter (λ e, selected topic tenantId e.2 = false) (d_rows w)) w) x w'
  | PurgeRows batchSize cutoff tenantId dryRun => λ x w',
      ∃ l, ordered (λ a b, dr_last a <= dr_last b) (purgeable cutoff tenantId) w l ∧
        let ids := (take (Z.to_nat batchSize) l).*1 in
        executed (Z.of_nat (length ids)) w (if dryRun : bool then w else with_rows (filter (λ e, e.1 ∉ ids) (d_rows w)) w) x w'
  | ReplayRow id attempts lastFailedAt => λ x w',
      match d_rows w !! id with
      | Some r =>
          if decide (dr_status r = Dead)
          then executed true w (with_rows (<[id := set_times attempts lastFailedAt Replayed r]> (d_rows w)) w) x w'
          else executed false w w x w'
      | None => executed false w w x w'
      end
  | GetSuspension topic => λ x w', executed (d_suspensions w !! topic) w w x w'
  | ListSuspensions => λ x w', ∃ l, l ≡ₚ map_to_list (d_suspensions w) ∧ executed l w w x w'
  | ReplayFailure topic threshold => λ x w',
      ∃ now, let s := after_failure threshold now (d_suspensions w !! topic) in executed s w (with_suspension topic s w) x w'
  | ReplaySuccess topic => λ x w',
      ∃ now, executed tt w (with_suspension topic (after_success now (d_suspensions w !! topic)) w) x w'
  | ResumeTopic topic => λ x w',
      match d_suspensions w !! topic with
      | Some s => ∃ now, executed (Some (after_resume now s)) w (with_suspension topic (after_resume now s) w) x w'
      | None => executed None w w x w'
      end
  | Audit e => λ _ w', w' = with_audit e w
  end.

End steps.
(** ** Programs and their statements *)

(** Every statement of the program is allowed. *)
Fixpoint only {A} (ok : ∀ X, dlq_command X → Prop) (p : eff dlq_command A) : Prop :=
  match p with Done _ => True | Do c k => ok _ c ∧ ∀ x, only ok (k x) end.

Lemma only_bind {A B} ok (p : call A) (f : A → call B) : only ok p → (∀ a, only ok (f a)) → only ok (try_bind p f).
Proof using Type.
  intros Hp Hf. unfold try_bind. induction p as [[a|e]|X c k IH]; simpl; [done|done|]. destruct Hp as [Hc Hk]. split; [done|]. intros x. by apply IH.
Qed.

Lemma only_query {A B} (ok : ∀ X, dlq_command X → Prop) (c : dlq_command (reply A)) (k : A → call B) :
  ok _ c → (∀ a, only ok (k a)) → only ok (query c k).
Proof using Type. intros Hc Hk. split; [done|]. intros [a|e]; [done|exact I]. Qed.

Lemma only_ask {A} (ok : ∀ X, dlq_command X → Prop) (c : dlq_command A) : ok _ c → only ok (ask c).
Proof using Type. intros Hc. by split. Qed.

(** Statements that do not insert. *)
Definition no_insert X (c : dlq_command X) : Prop := match c with InsertRow _ _ => False | _ => True end.

Definition plain (r : request) : Prop := match r with Enqueue _ => False | _ => True end.

Lemma accept_no_insert raw entry error failed : only no_insert (accept_replay raw entry error failed).
Proof using Type.
  split; [done|]. intros now. apply only_bind; [by apply only_ask|]. intros [|]; [|done]. apply only_bind; [|by intros].
  unfold replay_outcome. destruct failed.
  - split; [done|]. intros t. apply only_bind; [by apply only_query|]. intros e'. apply only_query; [done|]. intros u. by destruct (cs_suspended u).
  - apply only_bind; [by apply only_ask|done].
Qed.

Lemma handle_no_insert raw batch days r : plain r → only no_insert (handle raw batch days r).
Proof using Type.
  destruct r as [topic tenant limit offset|id|id error failed|topic|id|topic tenant|entry|o]; intros Hr; [..|done|]; cbn [handle].
  - unfold list_entries. destruct (page_number _ _ _) as [l|]; [|done]. destruct (page_number _ _ _) as [f|]; [|done].
    apply only_bind; [by repeat (apply only_query; [done|]; intros ?)|]. intros [entries total]. apply only_bind; [by apply only_ask|]. by intros.
  - unfold get_entry. apply only_bind; [by apply only_query|]. intros [e|]; [|done]. apply only_bind; [by apply only_ask|]. done.
  - unfold replay_entry. apply only_bind; [by apply only_query|]. intros [e|]; [|done]. apply only_bind; [by apply only_ask|].
    intros s. destruct (default _ _); [done|]. destruct (malformed error); [done|]. apply accept_no_insert.
  - apply only_bind; [by apply only_ask|]. intros [u|]; [|done]. by split.
  - apply only_bind; [by apply only_ask|done].
  - apply only_bind; [by apply only_ask|]. by intros.
  - unfold runDlqPurge. split; [done|]. intros now. destruct (_ <=? 0); [done|]. destruct (_ <? _); [done|].
    apply only_bind; [by apply only_ask|]. intros n. by destruct (_ && _).
Qed.

Section interleaving.
Context (faulty : Prop).
Notation step := (dlq_step faulty).

(** Every step of a program among others guarantees what its statements do. *)
Lemma only_safe {A} (ok : ∀ X, dlq_command X → Prop) (G : world → world → Prop) (p : eff dlq_command A) w :
  (∀ X c w x w', ok X c → step X c w x w' → G w w') → only ok p → safe step G (λ _ _, True) p w.
Proof using Type.
  intros HG. revert w. induction p as [a|X c k IH]; intros w Hp; [done|]. destruct Hp as [Hc Hk]. intros w1 x w2 Hw Hst.
  split; [by eapply HG|]. apply IH, Hk.
Qed.

(** ** One replay *)

(** The entry cannot be replayed. *)
Definition settled (id : string) (w : world) : Prop := ∀ r, d_rows w !! id = Some r → dr_status r ≠ Dead.

(** The entry's rows after a statement that does not insert come from its rows before. *)
Lemma executed_cases {A} (a : A) w new x w' : executed faulty a w new x w' → w' = w ∨ w' = new.
Proof using Type. intros [[_ ->]|(_ & _ & [->| ->])]; auto. Qed.

Lemma step_settled id X (c : dlq_command X) w x w' : no_insert X c → step X c w x w' → settled id w → settled id w'.
Proof using Type.
  intros Hc Hst Hs. assert (∀ f p, (∀ r, dr_status (f r) = dr_status r) → ∀ t, settled id (with_rows (alter f p (d_rows w)) t)) as Halter.
  { intros f p Hf t r. simpl. intros Hr. apply lookup_alter_Some in Hr as [(-> & r0 & Hr & ->)|[_ Hr]]; [rewrite Hf|]; by eapply Hs. }
  assert (∀ (P : string * DlqRow → Prop) `{∀ e, Decision (P e)} t, settled id (with_rows (filter P (d_rows w)) t)) as Hfilter.
  { intros P ? t r Hr. simpl in Hr. apply map_lookup_filter_Some in Hr as [Hr _]. by eapply Hs. }
  destruct c; simpl in *; try (apply executed_cases in Hst as [->| ->]); try (by subst); try done.
  - destruct Hst as (l & _ & Hst). by apply executed_cases in Hst as [->| ->].
  - by apply Halter.
  - by apply Halter.
  - intros r Hr. simpl in Hr. apply lookup_delete_Some in Hr as [_ Hr]. by eapply Hs.
  - destruct Hst as (l & _ & Hst). apply executed_cases in Hst as [->| ->]; [done|]. destruct dryRun; [done|apply Hfilter].
  - destruct (d_rows w !! id0) as [r0|] eqn:Hr0; [|by apply executed_cases in Hst as [->| ->]].
    case_decide; apply executed_cases in Hst as [->| ->]; try done. intros r Hr. simpl in Hr.
    apply lookup_insert_Some in Hr as [[_ <-]|[_ Hr]]; [done|by eapply Hs].
  - destruct Hst as (l & _ & Hst). by apply executed_cases in Hst as [->| ->].
  - destruct Hst as (now & Hst). by apply executed_cases in Hst as [->| ->].
  - destruct Hst as (now & Hst). by apply executed_cases in Hst as [->| ->].
  - destruct (d_suspensions w !! topic); [destruct Hst as (now & Hst)|]; by apply executed_cases in Hst as [->| ->].
Qed.
(** A program that cannot win, and one that has. *)
Fixpoint leaves {A} (Q : A → Prop) (p : eff dlq_command A) : Prop :=
  match p with Done a => Q a | Do c k => ∀ x, leaves Q (k x) end.

Lemma leaves_bind {A B} Q (p : call A) (f : A → call B) : (∀ e, Q (Err e)) → (∀ a, leaves Q (f a)) → leaves Q (try_bind p f).
Proof using Type. intros He Hf. unfold try_bind. induction p as [[a|e]|X c k IH]; simpl; [done|apply He|]. intros x. by apply IH. Qed.

Lemma leaves_query {A B} Q (c : dlq_command (reply A)) (k : A → call B) : (∀ e, Q (Err e)) → (∀ a, leaves Q (k a)) → leaves Q (query c k).
Proof using Type. intros He Hk [a|e]; [apply Hk|apply He]. Qed.

Lemma contends_leaves {A} id (won : A → Prop) b (p : eff dlq_command A) :
  only no_insert p → b = true ∨ leaves (λ a, ¬ won a) p → contends step (settled id) won b p.
Proof using Type.
  induction p as [a|X c k IH]; simpl; [naive_solver|]. intros [Hc Hk] Hl w x w' Hst. split; [by eapply step_settled|].
  left. apply IH; [done|]. destruct Hl; auto.
Qed.

Definition replayed (id : string) (a : reply answer) : Prop := ∃ topic history, a = Ok (EntryReplayed id topic history).

Lemma not_replayed id a : match a with Ok (EntryReplayed id' _ _) => id' ≠ id | _ => True end → ¬ replayed id a.
Proof using Type. intros Ha (? & ? & ->). done. Qed.

Lemma replayed_never raw batch days id r : match r with ReplayEntry id' _ _ => id' ≠ id | _ => True end →
  leaves (λ a, ¬ replayed id a) (handle raw batch days r).
Proof using Type.
  assert (∀ e : string, ¬ replayed id (Err e)) as He by (intros e; by apply not_replayed).
  destruct r as [topic tenant limit offset|id'|id' error failed|topic|id'|topic tenant|entry|o]; intros Hr; cbn [handle].
  - unfold list_entries. destruct (page_number _ _ _) as [l|]; [|by apply not_replayed]. destruct (page_number _ _ _) as [f|]; [|by apply not_replayed].
    apply leaves_bind; [done|]. intros [entries total]. apply leaves_bind; [done|]. intros s _. by apply not_replayed.
  - unfold get_entry. apply leaves_bind; [done|]. intros [e|]; [|by apply not_replayed]. apply leaves_bind; [done|]. intros s. by apply not_replayed.
  - unfold replay_entry. intros [[row|]|e]; [|by apply not_replayed|apply He]. cbn. intros [s|e]; [|apply He]. cbn.
    destruct (default _ _); [by apply not_replayed|]. destruct (malformed error); [by apply not_replayed|].
    intros now. apply leaves_bind; [done|]. intros [|]; [|by apply not_replayed]. apply leaves_bind; [done|]. intros h _. by apply not_replayed.
  - apply leaves_bind; [done|]. intros [u|]; [intros _|]; by apply not_replayed.
  - apply leaves_bind; [done|]. intros [|]; by apply not_replayed.
  - apply leaves_bind; [done|]. intros n _. by apply not_replayed.
  - intros now t suffix. apply leaves_bind; [done|]. intros _. by apply not_replayed.
  - unfold runDlqPurge. intros now. destruct (_ <=? 0); [by apply not_replayed|]. destruct (_ <? _); [apply He|].
    apply leaves_bind; [done|]. intros n. destruct (_ && _); [intros _|]; by apply not_replayed.
Qed.

(** The conditional update is what wins. *)
Lemma accept_contends raw entry error failed :
  contends step (settled (e_id entry)) (replayed (e_id entry)) false (accept_replay raw entry error failed).
Proof using Type.
  set (id := e_id entry). pose proof (accept_no_insert raw entry error failed) as Hno. unfold accept_replay in *. fold id in Hno |- *.
  intros w now w' Hst. split; [by eapply (step_settled id _ Clock)|]. left. destruct Hno as [_ Hno]. specialize (Hno now).
  intros w1 x w2 Hst1. destruct Hno as [_ Hno]. specialize (Hno x). split; [by eapply (step_settled id _ (ReplayRow _ _ _))|].
  assert (∀ e : string, ¬ replayed id (Err e)) as He by (intros e; by apply not_replayed).
  destruct x as [[|]|e]; [right|left; right; by apply not_replayed|left; right; apply He].
  simpl in Hst1. destruct (d_rows w1 !! id) as [r|] eqn:Hr; [case_decide as Hd|].
  - destruct Hst1 as [[_ ->]|(_ & (e & ?) & _)]; [|done]. split; [intros Hs; by apply (Hs r)|]. split.
    + intros r' Hr'. simpl in Hr'. rewrite lookup_insert_eq in Hr'. by injection Hr' as <-.
    + apply contends_leaves; [exact Hno|by left].
  - destruct Hst1 as [[? _]|(_ & (e & ?) & _)]; done.
  - destruct Hst1 as [[? _]|(_ & (e & ?) & _)]; done.
Qed.

Lemma replay_contends raw batch days id r : plain r → contends step (settled id) (replayed id) false (handle raw batch days r).
Proof using Type.
  intros Hr. pose proof (handle_no_insert raw batch days r Hr) as Hno.
  destruct r as [topic tenant limit offset|id'|id' error failed|topic|id'|topic tenant|entry|o];
    try (apply contends_leaves; [exact Hno|right; by apply replayed_never]).
  destruct (decide (id' = id)) as [->|Hid]; [|apply contends_leaves; [exact Hno|right; by apply replayed_never]].
  assert (∀ e : string, ¬ replayed id (Err e)) as He by (intros e; by apply not_replayed).
  cbn [handle]. unfold replay_entry. intros w x w' Hst. split; [by eapply (step_settled id _ (FindRow _))|]. left.
  destruct x as [[row|]|e]; [|right; by apply not_replayed|right; apply He]. cbn. intros w1 x w2 Hst1.
  split; [by eapply (step_settled id _ (GetSuspension _))|]. left. destruct x as [s|e]; [|right; apply He]. cbn.
  destruct (default _ _); [right; by apply not_replayed|]. destruct (malformed error); [right; by apply not_replayed|].
  apply (accept_contends raw (rowToEntry id row)).
Qed.

(** C15: of all requests for an entry at most one is answered that it was replayed,
    however their statements interleave with each other and with any other requests,
    and whichever statements fail. *)
Theorem replayed_once raw batch days rs w ps' w' id i j a b :
  Forall plain rs → eff_steps step (handle raw batch days <$> rs, w) (ps', w') →
  ps' !! i = Some (Done a) → ps' !! j = Some (Done b) → replayed id a → replayed id b → i = j.
Proof using Type.
  intros Hrs Hs Hi Hj Ha Hb. eapply (one_winner step (settled id) (replayed id) _ _ _ _ _ Hs); [exact Hi|exact Hj|exact Ha|exact Hb].
  Unshelve. intros k p Hk. apply list_lookup_fmap_Some in Hk as (r & -> & Hr). apply replay_contends. by eapply Forall_lookup_1.
Qed.

(** ** The failure history *)

(** What a dead letter is, with a history that grows. *)
Definition evolves (r r' : DlqRow) : Prop :=
  dr_tenant r' = dr_tenant r ∧ dr_topic r' = dr_topic r ∧ dr_payload r' = dr_payload r ∧ dr_error r' = dr_error r ∧
  dr_correlation r' = dr_correlation r ∧ dr_first r' = dr_first r ∧ dr_history r `prefix_of` dr_history r'.

(** The first recorded cause is the entry's error. *)
Definition first_is_error (r : DlqRow) : Prop :=
  ∃ a l, omap (toFailureAttempt (toISOString (dr_first r))) (dr_history r) = a :: l ∧ fa_error a = dr_error r.

Lemma evolves_first r r' : evolves r r' → first_is_error r → first_is_error r'.
Proof using Type.
  intros (_ & _ & _ & He & _ & Hf & [l' Hl]) (a & l & Ho & Ha). unfold first_is_error. rewrite Hl, He, Hf, omap_app, Ho. by eexists a, _.
Qed.

Lemma evolves_trans r1 r2 r3 : evolves r1 r2 → evolves r2 r3 → evolves r1 r3.
Proof using Type.
  unfold evolves. intros (? & ? & ? & ? & ? & ? & Hp) (? & ? & ? & ? & ? & ? & Hp'). splits; try congruence. by etrans.
Qed.

(** Every row comes from a row there was, or begins with its error. *)
Definition rows_kept (w w' : world) : Prop :=
  ∀ id r', d_rows w' !! id = Some r' → (∃ r, d_rows w !! id = Some r ∧ evolves r r') ∨ first_is_error r'.

Lemma rows_kept_trans w1 w2 w3 : rows_kept w1 w2 → rows_kept w2 w3 → rows_kept w1 w3.
Proof using Type.
  intros H1 H2 id r3 Hr3. destruct (H2 id r3 Hr3) as [(r2 & Hr2 & He2)|?]; [|by right].
  destruct (H1 id r2 Hr2) as [(r1 & Hr1 & He1)|Hf]; [left|right; by eapply evolves_first].
  exists r1. split; [done|by eapply evolves_trans].
Qed.

(** Inserts of rows that begin with their error. *)
Definition good_insert X (c : dlq_command X) : Prop := match c with InsertRow _ r => first_is_error r | _ => True end.

Lemma same_rows w w' : d_rows w' = d_rows w → rows_kept w w'.
Proof using Type. intros He id r Hr. left. exists r. rewrite <- He. split; [done|]. by unfold evolves. Qed.

Lemma altered_rows w w0 f id : (∀ r, evolves r (f r)) → rows_kept w (with_rows (alter f id (d_rows w)) w0).
Proof using Type.
  intros Hf j r Hr. simpl in Hr. left. apply lookup_alter_Some in Hr as [(<- & r0 & Hr & ->)|[_ Hr]]; [by exists r0|].
  exists r. split; [done|]. by unfold evolves.
Qed.

Lemma fewer_rows w w0 t : t ⊆ d_rows w → rows_kept w (with_rows t w0).
Proof using Type. intros Ht id r Hr. left. exists r. split; [by eapply lookup_weaken|]. by unfold evolves. Qed.

Lemma set_times_evolves a t st r : evolves r (set_times a t st r).
Proof using Type. by unfold evolves. Qed.

Lemma with_failure_evolves e s t r : evolves r (with_failure e s t r).
Proof using Type. unfold evolves. splits; try done. by eexists. Qed.

Lemma step_rows X (c : dlq_command X) w x w' : good_insert X c → step X c w x w' → rows_kept w w'.
Proof using Type.
  intros Hc Hst. destruct c; simpl in Hc, Hst; try (apply executed_cases in Hst as [->| ->]); try (by apply same_rows); try (subst; by apply same_rows).
  - destruct (d_rows w !! id) eqn:Hr; [destruct Hst as [_ ->]; by apply same_rows|]. apply executed_cases in Hst as [->| ->]; [by apply same_rows|].
    intros j r Hj. simpl in Hj. apply lookup_insert_Some in Hj as [[-> <-]|[_ Hj]]; [by right|left]. exists r. split; [done|]. by unfold evolves.
  - destruct Hst as (l & _ & Hst). apply executed_cases in Hst as [->| ->]; by apply same_rows.
  - apply altered_rows. intros r. apply set_times_evolves.
  - apply altered_rows. intros r. apply with_failure_evolves.
  - apply fewer_rows, delete_subseteq.
  - apply fewer_rows, map_filter_subseteq.
  - destruct Hst as (l & _ & Hst). apply executed_cases in Hst as [->| ->]; [by apply same_rows|]. destruct dryRun; [by apply same_rows|].
    apply fewer_rows, map_filter_subseteq.
  - destruct (d_rows w !! id) as [r0|] eqn:Hr; [|apply executed_cases in Hst as [->| ->]; by apply same_rows].
    case_decide; apply executed_cases in Hst as [->| ->]; try (by apply same_rows). intros j r Hj. simpl in Hj. left.
    apply lookup_insert_Some in Hj as [[-> <-]|[_ Hj]]; [exists r0; split; [done|apply set_times_evolves]|]. exists r. split; [done|]. by unfold evolves.
  - destruct Hst as (l & _ & Hst). apply executed_cases in Hst as [->| ->]; by apply same_rows.
  - destruct Hst as (now & Hst). apply executed_cases in Hst as [->| ->]; by apply same_rows.
  - destruct Hst as (now & Hst). apply executed_cases in Hst as [->| ->]; by apply same_rows.
  - destruct (d_suspensions w !! topic); [destruct Hst as (now & Hst)|]; apply executed_cases in Hst as [->| ->]; by apply same_rows.
Qed.

Lemma only_weaken {A} (ok ok' : ∀ X, dlq_command X → Prop) (p : eff dlq_command A) : (∀ X c, ok X c → ok' X c) → only ok p → only ok' p.
Proof using Type. intros Hw. induction p as [a|X c k IH]; simpl; [done|]. intros [Hc Hk]. split; auto. Qed.

(** An entry is enqueued with a cause, and without a history of its own. *)
Definition recorded (r : request) : Prop :=
  match r with Enqueue entry => str_empty (dl_error entry) = false ∧ dl_failureHistory entry = None | _ => True end.

Lemma recorded_inserts raw batch days r : recorded r → only good_insert (handle raw batch days r).
Proof using Type.
  intros Hr. destruct r as [| | | | | |entry|]; try (eapply only_weaken; [|by apply handle_no_insert]; intros X c Hc; by destruct c).
  destruct Hr as [He Hh]. cbn [handle]. unfold enqueueDeadLetter. split; [done|]. intros now. split; [done|]. intros t. split; [done|]. intros suffix.
  apply only_bind; [|done]. apply only_ask. simpl. unfold first_is_error. simpl. rewrite Hh. simpl. rewrite He. by eexists _, _.
Qed.


(** ** The purge *)

Notation due cutoff tenantId w := (filter (λ e, purgeable cutoff tenantId e.2 = true) (d_rows w)).
Notation kept cutoff tenantId w := (filter (λ e, purgeable cutoff tenantId e.2 = false) (d_rows w)).

(** The rows a purge removes are the first ones of an order by age. *)
Lemma removed_rows cutoff tenantId (w : world) l n :
  l ≡ₚ map_to_list (due cutoff tenantId w) →
  let rows := filter (λ e, e.1 ∉ (take n l).*1) (d_rows w) in
  size (filter (λ e, purgeable cutoff tenantId e.2 = true) rows) = (size (due cutoff tenantId w) - n)%nat ∧
  filter (λ e, purgeable cutoff tenantId e.2 = false) rows = kept cutoff tenantId w.
Proof using Type.
  clear Number toISOString isoOfNumber json_parse json_stringify faulty. intros Hl rows. set (P := λ e : string * DlqRow, purgeable cutoff tenantId e.2 = true).
  assert (NoDup l.*1) as Hnd by (rewrite Hl; apply NoDup_fst_map_to_list).
  assert (∀ id r, (id, r) ∈ l ↔ d_rows w !! id = Some r ∧ purgeable cutoff tenantId r = true) as Hin.
  { intros id r. rewrite Hl, elem_of_map_to_list. apply map_lookup_filter_Some. }
  assert (∀ id, id ∈ (take n l).*1 → ∃ r, (id, r) ∈ l) as Htake.
  { intros id Hid. apply list_elem_of_fmap in Hid as ([i r] & -> & Hir). exists r. rewrite <- (take_drop n l). apply elem_of_app. by left. }
  assert (filter P rows = list_to_map (drop n l)) as Heq.
  { rewrite <- (take_drop n l), fmap_app in Hnd. apply NoDup_app in Hnd as (Hn1 & Hdis & Hn2).
    apply map_eq. intros id. apply option_eq. intros r. rewrite <- elem_of_list_to_map by done. unfold rows, P.
    rewrite !map_lookup_filter_Some. simpl. split.
    - intros [[Hr Hni] Hp]. assert ((id, r) ∈ l) as Hil by (by apply Hin). rewrite <- (take_drop n l) in Hil.
      apply elem_of_app in Hil as [Hil|?]; [|done]. destruct Hni. apply list_elem_of_fmap. by exists (id, r).
    - intros Hd. assert ((id, r) ∈ l) as Hil by (rewrite <- (take_drop n l); apply elem_of_app; by right).
      apply Hin in Hil as [Hr Hp]. split; [split; [done|]|done]. intros Hni. apply (Hdis _ Hni). apply list_elem_of_fmap. by exists (id, r). }
  split.
  - rewrite Heq. rewrite <- length_map_to_list, map_to_list_to_map, length_drop, Hl, length_map_to_list; [done|].
    rewrite <- (take_drop n l), fmap_app in Hnd. by apply NoDup_app in Hnd as (_ & _ & ?).
  - apply map_eq. intros id. apply option_eq. intros r. unfold rows. rewrite !map_lookup_filter_Some. simpl. split; [naive_solver|].
    intros [Hr Hp]. split; [split; [done|]|done]. intros Hni. destruct (Htake _ Hni) as (r' & Hil). apply Hin in Hil as [Hr' Hp']. congruence.
Qed.

(** A purge that is enabled, at a fixed time. *)
Definition cutoff_of (now days : Z) : Z := now - days * 24 * 60 * 60 * 1000.
Definition purge_at (now days batch : Z) (tenantId : option string) : DlqPurgeOptions :=
  {| po_batchSize := Some batch; po_retentionDays := Some days; po_now := Some now; po_tenantId := tenantId; po_dryRun := false |}.

Fixpoint purge_rounds (n : nat) (batch days : Z) (o : DlqPurgeOptions) : call unit :=
  match n with O => Done (Ok tt) | S n => try_bind (runDlqPurge batch days o) (λ _, purge_rounds n batch days o) end.

Definition older (a b : string * DlqRow) : Prop := dr_last a.2 <= dr_last b.2.
#[local] Instance older_dec : RelDecision older.
Proof using Type. unfold older. intros a b. apply _. Defined.
#[local] Instance older_total : Total older.
Proof using Type. unfold older. intros a b. lia. Qed.
#[local] Instance older_trans : Transitive older.
Proof using Type. unfold older. intros a b c. lia. Qed.

Lemma purge_round b d now days batch tenantId (Q : reply unit → world → Prop) f w : ¬ faulty → 0 < days <= MAX_RETENTION_DAYS →
  (∀ r w', size (due (cutoff_of now days) tenantId w') = (size (due (cutoff_of now days) tenantId w) - Z.to_nat batch)%nat →
     kept (cutoff_of now days) tenantId w' = kept (cutoff_of now days) tenantId w → certain step Q (f r) w') →
  certain step Q (try_bind (runDlqPurge b d (purge_at now days batch tenantId)) f) w.
Proof using Type.
  intros Hup Hd Hf. cbn. split; [by exists 0, w|]. intros t w' ->. unfold MAX_RETENTION_DAYS in *.
  destruct (Z.leb_spec days 0); [lia|]. destruct (Z.ltb_spec 365 days); [lia|]. cbn.
  set (cut := now - days * 24 * 60 * 60 * 1000). split.
  { eexists _, _. exists (merge_sort older (map_to_list (due cut tenantId w))). split; [split|by left]; [apply merge_sort_Permutation|].
    apply (StronglySorted_merge_sort older). }
  intros x w1 (l & [Hl _] & Hx). apply (removed_rows _ _ _ _ (Z.to_nat batch)) in Hl as [H1 H2].
  destruct Hx as [[-> ->]|[? _]]; [|done]. cbn. destruct (_ && _); cbn; [split; [by eexists tt, _|intros _ w2 ->]|]; by apply Hf.
Qed.


(** ** Entries without a history *)
Lemma executed_up {A} (a : A) w new x w' : ¬ faulty → executed faulty a w new x w' → x = Ok a ∧ w' = new.
Proof using Type. intros Hup [?|[? _]]; done. Qed.

(** The row after an accepted replay that failed. *)
Definition failed_again (cause : string) (now now' : Z) (r : DlqRow) : DlqRow :=
  with_failure cause "replay" now' (set_times (Some 0) (Some now) Replayed r).

Lemma replay_failed_row raw id error cause r w a w' :
  ¬ faulty → d_rows w !! id = Some r → dr_status r = Dead → default false (cs_suspended <$> d_suspensions w !! dr_topic r) = false →
  malformed error = false → normalizeFailureError error = Some cause →
  runs step (replay_entry raw id error true) w a w' → ∃ now now', d_rows w' !! id = Some (failed_again cause now now' r).
Proof using Type.
  intros Hup Hr Hd Hs Hm Hc. unfold replay_entry. intros (x1 & w1 & H1 & Hrun). cbn in H1. rewrite Hr in H1.
  apply (executed_up _ _ _ _ _ Hup) in H1 as [-> ->]. cbn in Hrun. destruct Hrun as (x2 & w2 & H2 & Hrun).
  apply (executed_up _ _ _ _ _ Hup) in H2 as [-> ->]. cbn in Hrun. rewrite Hs, Hm in Hrun. cbn in Hrun.
  destruct Hrun as (now & w3 & -> & x4 & w4 & H4 & Hrun). cbn in H4. rewrite Hr in H4. rewrite decide_True in H4 by done.
  apply (executed_up _ _ _ _ _ Hup) in H4 as [-> ->]. cbn in Hrun. destruct Hrun as (now' & w5 & -> & x6 & w6 & H6 & Hrun). cbn in H6.
  rewrite Hc in H6. cbn in H6. apply (executed_up _ _ _ _ _ Hup) in H6 as [-> ->]. cbn in Hrun.
  destruct Hrun as (x7 & w7 & (t & H7) & Hrun). apply (executed_up _ _ _ _ _ Hup) in H7 as [-> ->]. cbn in Hrun.
  exists now, now'. assert (∀ w, d_rows w = alter (with_failure cause "replay" now') id (<[id:=set_times (Some 0) (Some now) Replayed r]> (d_rows w)) →
    d_rows w !! id = Some (failed_again cause now now' r)) as _ by (intros ? ->; by rewrite lookup_alter_eq, lookup_insert_eq).
  destruct (cs_suspended _); cbn in Hrun.
  - destruct Hrun as (? & ? & -> & ? & ? & -> & _ & <-). cbn. by rewrite lookup_alter_eq, lookup_insert_eq.
  - destruct Hrun as (? & ? & -> & _ & <-). cbn. by rewrite lookup_alter_eq, lookup_insert_eq.
Qed.

Lemma get_entry_row id r w a w' : ¬ faulty → d_rows w !! id = Some r → runs step (get_entry id) w a w' →
  ∃ suspended failures, let history := rowToFailureHistory r in
    a = Ok (Found (rowToEntry id r) (Z.of_nat (length history)) (default (dr_error r) (fa_error <$> head history))
                  (default (dr_error r) (fa_error <$> last history)) suspended failures).
Proof using Type.
  intros Hup Hr (x1 & w1 & H1 & Hrun). cbn in H1. rewrite Hr in H1. apply (executed_up _ _ _ _ _ Hup) in H1 as [-> ->]. cbn in Hrun.
  destruct Hrun as (x2 & w2 & H2 & Hrun). apply (executed_up _ _ _ _ _ Hup) in H2 as [-> ->]. destruct Hrun as [<- _]. by eexists _, _.
Qed.

(** for an entry without a stored history the first failure shown is its error,
    until a replay fails: then it is the cause of the replay, although the entry's
    error is still the first one. *)
Theorem legacy_cause_lost raw id error cause r w a w1 :
  ¬ faulty → d_rows w !! id = Some r → dr_history r = [] → str_empty (dr_error r) = false → dr_status r = Dead →
  default false (cs_suspended <$> d_suspensions w !! dr_topic r) = false →
  malformed error = false → normalizeFailureError error = Some cause →
  runs step (replay_entry raw id error true) w a w1 →
  (∀ b w2, runs step (get_entry id) w b w2 → ∃ e n l s f, b = Ok (Found e n (dr_error r) l s f)) ∧
  ∀ b w2, runs step (get_entry id) w1 b w2 → ∃ e n l s f, b = Ok (Found e n cause l s f) ∧ e_error e = dr_error r.
Proof using Type.
  intros Hup Hr Hh He Hd Hs Hm Hc Hrun. split.
  - intros b w2 Hb. apply (get_entry_row _ r _ _ _ Hup Hr) in Hb as (s & f & ->). unfold rowToFailureHistory. rewrite Hh. simpl. rewrite He. simpl.
    by eexists _, _, _, _, _.
  - apply (replay_failed_row _ _ _ cause r) in Hrun as (now & now' & Hr1); try done.
    intros b w2 Hb. apply (get_entry_row _ _ _ _ _ Hup Hr1) in Hb as (s & f & ->).
    assert (str_empty cause = false) as Hne.
    { unfold normalizeFailureError in Hc. destruct error; try done. destruct (str_empty (js_trim s0)) eqn:Ht; [done|]. injection Hc as <-.
      rewrite str_empty_chars, chars_unchars. rewrite str_empty_chars in Ht. destruct (chars (js_trim s0)); [done|]. done. }
    unfold rowToFailureHistory. simpl. rewrite Hh. simpl. rewrite Hne. simpl. by eexists _, _, _, _, _.
Qed.

(** ** Suspension *)
Lemma accept_outcome raw entry error failed w id topic h w' : ¬ faulty →
  runs step (accept_replay raw entry error failed) w (Ok (EntryReplayed id topic h)) w' →
  ∃ now w1, d_suspensions w1 = d_suspensions w ∧ d_audit w1 = d_audit w ∧
    d_suspensions w' = <[e_topic entry := (if failed then after_failure (getSuspensionThreshold raw) else after_success) now (d_suspensions w !! e_topic entry)]> (d_suspensions w) ∧
    ∃ l, d_audit w' = d_audit w ++ l ++ [DLQ_REPLAYED (e_id entry)] ∧
         (l = [] ∨ failed = true ∧ cs_suspended (after_failure (getSuspensionThreshold raw) now (d_suspensions w !! e_topic entry)) = true).
Proof using Type.
  intros Hup Hrun. unfold accept_replay in Hrun. destruct Hrun as (now & w1 & -> & x2 & w2 & H2 & Hrun). cbn in H2.
  assert (x2 = Ok true → d_suspensions w2 = d_suspensions w ∧ d_audit w2 = d_audit w) as Hw2.
  { intros ->. destruct (d_rows w !! e_id entry); [case_decide|]; apply (executed_up _ _ _ _ _ Hup) in H2 as [? ->]; done. }
  destruct x2 as [[|]|e]; cbn in Hrun; [|by destruct Hrun|by destruct Hrun]. destruct (Hw2 eq_refl) as [Hs2 Ha2]. clear H2 Hw2.
  unfold replay_outcome in Hrun. destruct failed; cbn in Hrun.
  - destruct Hrun as (t & w3 & -> & x4 & w4 & H4 & Hrun). apply (executed_up _ _ _ _ _ Hup) in H4 as [-> ->]. cbn in Hrun.
    destruct Hrun as (x5 & w5 & (now5 & H5) & Hrun). apply (executed_up _ _ _ _ _ Hup) in H5 as [-> ->]. cbn in Hrun. rewrite Hs2 in Hrun.
    exists now5, w2. do 2 (split; [done|]). destruct (cs_suspended _) eqn:Hc; cbn in Hrun.
    + destruct Hrun as (? & ? & -> & ? & ? & -> & _ & <-). cbn. rewrite Hs2, Ha2. split; [done|]. eexists [_]. rewrite <- app_assoc. split; [done|by right].
    + destruct Hrun as (? & ? & -> & _ & <-). cbn. rewrite Hs2, Ha2. split; [done|]. exists []. split; [done|by left].
  - destruct Hrun as (x5 & w5 & (now5 & H5) & Hrun). apply (executed_up _ _ _ _ _ Hup) in H5 as [-> ->]. cbn in Hrun.
    destruct Hrun as (? & ? & -> & _ & <-). exists now5, w2. cbn. rewrite Hs2, Ha2. do 3 (split; [done|]). exists []. split; [done|by left].
Qed.

(** C39: replays that passed the check before their topic was suspended lift the
    suspension: one that succeeds resets the counter and leaves the topic suspended, one
    that fails then finds the counter below the limit, and the topic is active again
    although nobody has resumed it. *)
Theorem stragglers_lift_suspension raw e1 e2 error1 error2 s w w1 w2 i1 t1 h1 i2 t2 h2 :
  ¬ faulty → e_topic e2 = e_topic e1 → d_suspensions w !! e_topic e1 = Some s → cs_suspended s = true → 1 < getSuspensionThreshold raw →
  runs step (accept_replay raw e1 error1 false) w (Ok (EntryReplayed i1 t1 h1)) w1 →
  runs step (accept_replay raw e2 error2 true) w1 (Ok (EntryReplayed i2 t2 h2)) w2 →
  cs_suspended <$> d_suspensions w1 !! e_topic e1 = Some true ∧ cs_suspended <$> d_suspensions w2 !! e_topic e1 = Some false ∧
  d_audit w2 = d_audit w ++ [DLQ_REPLAYED (e_id e1); DLQ_REPLAYED (e_id e2)].
Proof using Type.
  intros Hup Ht Hs Hsus Hlim H1 H2. apply (accept_outcome _ _ _ _ _ _ _ _ _ Hup) in H1 as (n1 & w1' & _ & _ & Hs1 & l1 & Ha1 & Hl1).
  apply (accept_outcome _ _ _ _ _ _ _ _ _ Hup) in H2 as (n2 & w2' & _ & _ & Hs2 & l2 & Ha2 & Hl2). destruct Hl1 as [->|[? _]]; [|done].
  rewrite Hs in Hs1. rewrite Ht, Hs1, !lookup_insert_eq in Hl2, Hs2. rewrite Hs2, Hs1, !lookup_insert_eq. cbn in *.
  assert ((getSuspensionThreshold raw <=? 0 `max` 0 + 1) = false) as Hlow by lia. rewrite Hlow in *. 
  destruct Hl2 as [->|[_ Hl2]]; [|congruence].
  rewrite Hsus. do 2 (split; [done|]). by rewrite Ha2, Ha1, <- app_assoc.
Qed.

End interleaving.
End repository.

(** ** Witnesses *)

Definition number_of (v : jsval) : jsnum := match v with JNum n => n | _ => NumNaN end.
Notation on f := (f number_of int_string (λ _, "") JStr (λ _, Ok "{}")) (only parsing).
Notation outcomes f := (f number_of int_string (λ _, "") JStr) (only parsing).
Notation sample_step := (dlq_step int_string False).

Definition sample_row (history : list jsval) : DlqRow := {|
  dr_tenant := None; dr_topic := "streams"; dr_payload := "{}"; dr_error := "timeout"; dr_attempts := 3; dr_correlation := None;
  dr_first := 1000; dr_last := 1000; dr_status := Dead; dr_history := history |}.
Definition sample_db (history : list jsval) (s : option ConsumerSuspension) : world := {|
  d_rows := {[ "a" := sample_row history; "b" := sample_row history ]}; d_suspensions := partial_alter (λ _, s) "streams" ∅; d_audit := [] |}.

Lemma db_command {A X} (c : dlq_command X) (k : X → eff dlq_command A) (w : world) x w1 a w' :
  sample_step X c w x w1 → runs sample_step (k x) w1 a w' → runs sample_step (Do c k) w a w'.
Proof. intros Hc Hr. by exists x, w1. Qed.

Lemma db_at {A X} i ps (c : dlq_command X) (k : X → eff dlq_command A) (w : world) x w1 q :
  ps !! i = Some (Do c k) → sample_step X c w x w1 → eff_steps sample_step (<[i := k x]> ps, w1) q → eff_steps sample_step (ps, w) q.
Proof. intros Hi Hc Hr. eapply rtc_l; [|exact Hr]. by eapply eff_step_at. Qed.

Ltac alone := eapply db_command; [by left|].
Ltac turn i := eapply (db_at i); [reflexivity|by left|].

(** Two requests replay the same entry. *)
Lemma sample_race : ∃ ps w h, eff_steps sample_step
    (on handle None 500 30 <$> [ReplayEntry "a" JUndefined true; ReplayEntry "a" JUndefined false], sample_db [] None) (ps, w) ∧
  ps !! 0%nat = Some (Done (Ok (EntryReplayed "a" "streams" h))) ∧ ps !! 1%nat = Some (Done (Ok EntryAlreadyReplayed)).
Proof.
  eexists _, _, _. split.
  - turn 0%nat. turn 1%nat. turn 0%nat. turn 1%nat. eapply (db_at 0 _ Clock _ _ 2000); [done|done|]. eapply (db_at 1 _ Clock _ _ 2001); [done|done|].
    turn 0%nat. turn 1%nat. eapply (db_at 0 _ Clock _ _ 2002); [done|done|]. turn 0%nat.
    eapply (db_at 0); [reflexivity|exists 2003; by left|]. eapply (db_at 0 _ _ _ _ tt); [reflexivity|done|]. apply rtc_refl.
  - by vm_compute.
Qed.

Lemma replayed_once_witness : ∃ ps w h, eff_steps sample_step
    (on handle None 500 30 <$> [ReplayEntry "a" JUndefined true; ReplayEntry "a" JUndefined false], sample_db [] None) (ps, w) ∧
  ps !! 0%nat = Some (Done (Ok (EntryReplayed "a" "streams" h))) ∧ ∀ a, ps !! 1%nat = Some (Done a) → ¬ replayed "a" a.
Proof.
  destruct sample_race as (ps & w & h & Hs & H0 & H1). exists ps, w, h. split; [exact Hs|]. split; [exact H0|]. intros a H2 Ha.
  assert (0%nat = 1%nat); [|done].
  apply (replayed_once number_of int_string (λ _, "") JStr (λ _, Ok "{}") False None 500 30 _ _ ps w "a" 0 1 (Ok (EntryReplayed "a" "streams" h)) a) in Hs; try done.
  - by repeat constructor.
  - by eexists _, _.
Defined.

Definition sample_letter : dead_letter := {|
  dl_tenantId := None; dl_topic := "streams"; dl_payload := JNull; dl_error := "timeout"; dl_attempts := 3; dl_correlationId := None;
  dl_status := None; dl_failureHistory := None |}.

(** A letter is enqueued and fails again. *)
Lemma sample_enqueued : ∃ ps w, eff_steps sample_step
    (on handle None 500 30 <$> [Enqueue sample_letter; ReplayEntry "dlq-7-x" (JStr " down ") true], sample_db [] None) (ps, w) ∧
  (λ r, fa_error <$> rowToFailureHistory number_of int_string (λ _, "") r) <$> d_rows w !! "dlq-7-x" = Some ["timeout"; "down"].
Proof.
  eexists _, _. split.
  - eapply (db_at 0 _ Clock _ _ 6); [done|done|]. eapply (db_at 0 _ Clock _ _ 7); [done|done|]. eapply (db_at 0 _ RandomSuffix _ _ "x"); [done|done|].
    turn 0%nat. turn 1%nat. turn 1%nat. eapply (db_at 1 _ Clock _ _ 8); [done|done|]. turn 1%nat. eapply (db_at 1 _ Clock _ _ 9); [done|done|].
    turn 1%nat. apply rtc_refl.
  - by vm_compute.
Qed.



Definition sample_entry (id : string) : DlqEntry := rowToEntry number_of int_string (λ _, "") JStr id (sample_row []).
Definition full : ConsumerSuspension := {|
  cs_consecutiveFailures := 2; cs_suspended := true; cs_suspendedAt := Some 10; cs_resumedAt := None; cs_updatedAt := 10 |}.

Lemma sample_stragglers : ∃ h1 h2 w1 w2,
  runs sample_step (outcomes accept_replay (Some "2") (sample_entry "a") JUndefined false) (sample_db [] (Some full)) (Ok (EntryReplayed "a" "streams" h1)) w1 ∧
  runs sample_step (outcomes accept_replay (Some "2") (sample_entry "b") JUndefined true) w1 (Ok (EntryReplayed "b" "streams" h2)) w2.
Proof.
  eexists _, _, _, _. split.
  - eapply (db_command Clock _ _ 20); [done|]. alone. eapply db_command; [exists 20; by left|]. eapply (db_command _ _ _ tt); [done|]. by split.
  - eapply (db_command Clock _ _ 21); [done|]. alone. eapply (db_command Clock _ _ 22); [done|]. alone. eapply db_command; [exists 22; by left|].
    eapply (db_command _ _ _ tt); [done|]. by split.
Qed.

Lemma stragglers_lift_suspension_witness : ∃ w1 w2,
  cs_suspended <$> d_suspensions w1 !! "streams" = Some true ∧ cs_suspended <$> d_suspensions w2 !! "streams" = Some false ∧
  d_audit w2 = [DLQ_REPLAYED "a"; DLQ_REPLAYED "b"].
Proof.
  destruct sample_stragglers as (h1 & h2 & w1 & w2 & H1 & H2). exists w1, w2.
  exact (stragglers_lift_suspension number_of int_string (λ _, "") JStr False (Some "2") (sample_entry "a") (sample_entry "b") _ _ full (sample_db [] (Some full)) w1 w2
    _ _ h1 _ _ h2 (λ x, x) eq_refl eq_refl eq_refl eq_refl H1 H2).
Defined.

Lemma sample_legacy : ∃ h w1, runs sample_step (outcomes replay_entry None "a" (JStr "down") true) (sample_db [] None)
  (Ok (EntryReplayed "a" "streams" h)) w1.
Proof.
  eexists _, _. do 2 alone. eapply (db_command Clock _ _ 20); [done|]. alone. eapply (db_command Clock _ _ 21); [done|]. alone.
  eapply db_command; [exists 22; by left|]. eapply (db_command _ _ _ tt); [done|]. by split.
Qed.

Lemma legacy_cause_lost_witness : ∃ w1, ∀ b w2,
  runs sample_step (get_entry number_of int_string (λ _, "") JStr "a") w1 b w2 → ∃ e n l s f, b = Ok (Found e n "down" l s f) ∧ e_error e = "timeout".
Proof.
  destruct sample_legacy as (h & w1 & H). exists w1.
  apply (legacy_cause_lost number_of int_string (λ _, "") JStr False None "a" (JStr "down") "down" (sample_row [])) in H as [_ H];
    [exact H|exact (λ f, f)|reflexivity..].
Defined.
